(* ===== verification/_CoqProject ===== *)
-Q . S2P
Prelude.v
Streams.v
SSTable.v
LSMEngine.v
KVstore.v
LSMWritePath.v
WALrecovery.v
SnapshotManager.v
RestoreEngine.v
IndexedList.v
LRU.v
GenericEviction.v
MetadataStore.v
MultiTierCache.v
BufferPool.v
Transactions.v
Raft.v
DedupEngine.v
FileTree.v
FileSystems.v
LockManager.v
ChunkStore.v
Queues.v
Buffers.v
Iterators.v
ProcessManager.v
MVCC.v
Allocator.v
LFU.v
LockFree.v
MergeSort.v
RateLimiter.v
Joins.v
RWLocks.v
LockFreeStack.v
AtomicCounters.v
Sharding.v
PriorityCache.v
TTLCache.v
DeadlockDetection.v
Hashing.v
GarbageCollector.v
LoadBalancer.v
BplusTree.v
SkipList.v
Monitors.v
ThreadExercises.v
Pools.v
TaskSchedulers.v
Deadlocks.v
Tries.v
FileSystemTrie.v
Coordination.v
QueryPlans.v
PubSub.v
Frameworks.v
Workers.v
WorkerPrograms.v
Pipelines.v
BuildSystem.v
ExternalSort.v
Buckets.v
TextTools.v
ParallelLoops.v
Composite.v
QueryPipeline.v
TrafficLight.v
Services.v
Doubles.v
TokenBucket.v
DataRace.v
LargeFiles.v
Demonstrations.v
