(* ===== verification/Prelude.v ===== *)
(** * Verification of the C++ systems-design programs

    The repository is a collection of stand-alone C++ programs: storage engines, caches,
    transaction and lock managers, file systems, queues and buffers, query operators,
    pipelines of worker threads, algorithms on large files and a leader election.  Each is one
    class, or a few classes that own one another, with a
    [main] that exercises them.  This development models the stateful core of the
    programs and proves what makes each of them correct.

    ** Conventions

    - One file per program, or per group of programs that share their code.  A class is
      a [Record], a method a function from the old state to the new one; definitions
      keep the names of the source, with a prefix or a [Module] where two programs use
      the same name for different code.
    - Undefined behaviour (a dangling iterator, an index out of range, signed overflow)
      is the value [None], so that a theorem that a history reaches [Some] state is a
      memory-safety theorem.  Error answers of the source (sentinel strings, [-1],
      [false]) are kept as they are.
    - [int] is [Z]; where the range matters the arithmetic is [checked] or wrapped
      ([int32], [to_size_t]) and theorems carry the bound.
    - [unordered_map] and [map] are [gmap] where order is not observed; an ordered walk
      is [map_sorted] or an association list in key order.  Lists whose iterators the
      program keeps are nodes with addresses ([IndexedList], [LFU]); objects behind
      pointers live in an explicit heap where aliasing or deletion matters
      ([SnapshotManager], [LockManager], [ProcessManager]).
    - Where a program is concurrent, a step is one critical section (or one atomic
      access), and theorems quantify over every interleaving of steps.
    - Recursion that is not structural has fuel, and running out of it is [None]: the
      theorems show that the fuel the definitions use is enough (binary searches: one
      more than the number of entries; [killProcess]: the number of addresses;
      log readers: the length of the file; iterators: the number of source rows; the
      merge of files: the number of characters, which bounds the number of lines; [tail]:
      the size of the file; composite trees: their height).

    ** Files

    Storage engines.
    - [Streams]: formatted text input and output ([>>], [<<], [getline]).
    - [SSTable]: the sorted table and its binary search; [LSMEngine]
      ([caching/MemTable_SSTable_Lookup.cpp]): memtable, flush and read path.
    - [KVstore] ([storage/KVstore.cpp]) and [LSMWritePath]
      ([multi-stage-pipeline/LSM_WritePath_StorageEngine.cpp]): the engine with a
      write-ahead log; [WALrecovery] ([storage/WALrecovery.cpp]): a log of typed records
      with sequence numbers.  The theorems: reads return the last write, and crashes and
      replays change nothing a client can see.
    - [SnapshotManager], [RestoreEngine] ([storage/]): copy-on-write blocks with
      reference counts; counts are exact, nothing is freed too early or kept too long,
      and a restored snapshot reads as the file did.
    - [DedupEngine], [ChunkStore] ([storage/]): content-addressed chunks; round trip and
      exact reclamation for a collision-free hash.  The hash is a parameter.
    - [FileTree], [FileSystems] ([storage/FileSystem_Index.cpp],
      [storage/In-memory_FileSystem.cpp]): both file systems refine a map from paths.
    - [MVCC] ([storage/MVCCvisibility.cpp]): snapshot reads by binary search.
    - [Allocator] ([algorithms/DynamicMemeoryAllocator.cpp]): the blocks partition the
      memory and free blocks are coalesced.

    Caches.
    - [IndexedList]: a list with an index of iterators, the representation shared by the
      caches; [LRU] ([caching/LRUcache_multiThreaded.cpp]), [GenericEviction]
      ([oop-framework/GenericEviction_Cache.cpp], a client of a policy interface),
      [MetadataStore] ([storage/Metadata_Store.cpp], cache and store stay coherent under
      concurrency), [MultiTierCache] ([caching/LRUcache_multi-tier_RAM-SSD-HDD.cpp], the
      tiers are one LRU list), [BufferPool] ([storage/BufferPool_PageCache.cpp], no lost
      update, pins respected), [LFU] ([caching/LFUcache.cpp]).
    - [Sharding] ([caching/LRUcache_multiThreaded_sharded.cpp],
      [caching/Hashmap_withLockPerBucket.cpp]): shards and buckets are independent and
      together one cache per shard, one map.  [PriorityCache]
      ([caching/LRUcache_priority_based_eviction.cpp]) and [TTLCache]
      ([caching/RedisCache_withTTLexpiration.cpp]) refine their eviction policies.

    Indexes and directories.
    - [SkipList] ([storage/skipList.cpp]): a bag of values for every draw of levels;
      [BplusTree] ([storage/B+tree.cpp]): where the keys of the tree are, and which a
      search misses; [Hashing] ([storage/BloomFilter.cpp],
      [distributed/ConsistentHashing.cpp]): no false negatives, and minimal movement of
      keys; [GarbageCollector], [LoadBalancer] ([storage/]).

    Transactions, locks and distribution.
    - [Transactions] ([database-internals/TransactionManager_*.cpp]): one manager over an
      interface of lock tables, with two implementations.
    - [LockManager] ([storage/LockManager.cpp]): shared and exclusive locks with
      condition variables.
    - [Raft] ([distributed/RaftElection_onHeartbeatAbsence.cpp]): nodes, their threads and
      mutexes; election safety, and what two simultaneous candidates do.
    - [ProcessManager] ([storage/ProcessManager_structure.cpp]): a process forest with
      pointers; killing a process removes exactly its subtree.

    Queues and operators.
    - [Queues] (the blocking queues of [concurrency/]), [Buffers] (circular buffer and
      semaphores) and [LockFree] (the lock-free rings of [concurrency/] and [CAS/]):
      first-in first-out order under every interleaving, no lost wake-up, no race on a
      slot.
    - [LockFreeStack] ([CAS/LockFree_Stack.cpp]): linearizable against an atomic stack, and
      lock-free; [AtomicCounters] ([CAS/], [concurrency/]): no increment is lost; [DataRace]
      ([concurrency/debug_thread.cpp]): without a lock, which totals can be printed.
    - [Monitors]: programs of one mutex and one condition variable, with notifications and
      spurious wake-ups; from an invariant, a ranking function and a liveness condition
      follow partial correctness, absence of deadlock and a bound on the number of turns.
      [ThreadExercises] ([concurrency/print_*.cpp], [concurrency/buildingH2O.cpp],
      [concurrency/CyclicBarrier_ThreadSafe.cpp]) are its instances.
    - [DeadlockDetection] ([concurrency/DeadlockDetection.cpp]): the search answers whether
      the wait-for graph has a cycle; the recursion stack bounds its depth.
    - [RWLocks] ([concurrency/ReadersWritersLock_*.cpp]): exclusion, and no lost wake-up.
    - [Iterators] ([database-internals/]: Volcano operators, sort, index scan): an
      interface of iterators with laws; operators are verified over any lawful child.
      [Joins] ([database-internals/]): hash join and aggregation against their
      definitions.
    - [RateLimiter] ([rate-limiter/RateLimiter_SlidingWindow.cpp]): no interval of a second
      holds more requests than the limit.  [Doubles] (binary64 numbers over the standard
      library's [SpecFloat], with the exactness lemmas) and [TokenBucket]
      ([rate-limiter/RateLimiter_TokenBucket.cpp]): the tokens stay between zero and the
      capacity, and a burst gets exactly the whole tokens there are.  [MergeSort] ([algorithms/MergeSort_parallel.cpp]):
      a sorted permutation, whatever the order of the threads.

    Pools, schedulers and worker threads.
    - [Pools] ([concurrency/ThreadPool_TaskExecution.cpp], [ConnectionPool.cpp],
      [StrictSequencer_ThreadSafe.cpp]), [TaskSchedulers]
      ([concurrency/TaskScheduler_*.cpp]), [Deadlocks] ([concurrency/Deadlock_create_fix.cpp],
      [DiningPhilosophers.cpp]): tasks run once and not before their time, no wake-up is
      lost, and which orders of locking can deadlock.
    - [Workers]: worker threads over a shared queue, the shape of the pipelines and
      crawlers; from an invariant and a ranking of the tasks of a program follow what its
      output is when nothing can move any more, that all workers return after a stop, and
      that this happens after boundedly many turns.  [WorkerPrograms]
      ([algorithms/multiThreadedBFS.cpp], [distributed/WebCrawler_multiThreaded.cpp],
      [multi-stage-pipeline/Cloud_Backup_Pipeline.cpp], [SearchEngineIndexing.cpp]),
      [Pipelines] ([distributed/asyncLogger_Kafka.cpp],
      [multi-stage-pipeline/LogIngestion_ProcessingPipeline.cpp],
      [YoutubeVideoProcessingPipeline.cpp], [simulations/ElevatorSystem_multiThreaded.cpp])
      and [BuildSystem] ([multi-stage-pipeline/BuildSystem_Make_Bazel.cpp]) are its
      instances, and the file search of [TextTools].
    - [ParallelLoops] ([multi-stage-pipeline/Parallel_query_executor.cpp],
      [algorithms/MatrixMultiplication_Parallel.cpp]): ranges of rows over threads cover
      the table, and the result does not depend on the interleaving.
    - [QueryPipeline] ([multi-stage-pipeline/DB_query_execution_pipeline.cpp]): three pools
      of [Workers] joined by their queues; every stage runs as if alone, from which every
      query is completed.  [TrafficLight]
      ([simulations/TrafficLightController_multithreaded.cpp]): cars cross on green, and all
      of them do.

    Texts and large files.
    - [Tries] and [FileSystemTrie] ([Trie/]): prefix counts, shortest prefixes, completion,
      greatest exclusive-or, and a file system, against their definitions on lists.
    - [ExternalSort] ([large-scale-processing/merge_k_sorted_files.cpp],
      [sort_1TB_file_with_1GB_RAM.cpp]): the output is the sorted input; [Buckets]
      ([top_100IP_in_500GB_logs.cpp], [detect_duplicates_in_500GB_logs.cpp]): what is found
      bucket by bucket is what is in the whole file.  The priority queue is any that pops a
      least element ([MinHeap]).
    - [TextTools] ([unix-tools/], [storage/Parallel_FileSearch.cpp]): [grep], [tail] and the
      parallel search.  [LargeFiles] ([large-scale-processing/create_large_log_file.cpp],
      [read_from_500GB_file.cpp]): what was written is what is printed.

    Coordination and frameworks.
    - [Coordination] ([database-internals/2PC_Coordinator.cpp], [HeartbeatManager.cpp],
      [RPC_Dispatcher.cpp], [storage/BackupScheduler.cpp]), [QueryPlans]
      ([database-internals/Query*.cpp]), [PubSub] ([storage/EventBus.cpp],
      [storage/Notifier-*.cpp], [storage/BlobStore_wrapper_multiCloudProviders.cpp]) and
      [Frameworks] ([oop-framework/]: rate limiters, tiering, replication, transactions).
    - [Composite] ([oop-framework/Composite_Filesystem.cpp], [UI_Component_tree.cpp]): objects
      behind pointers do what the functions on trees do, with shared children too;
      [Services] ([oop-framework/RPCframework.cpp], [LoggingFramework.cpp],
      [CompressionFramework.cpp], [MetricsFramework.cpp], [StorageTierManager.cpp]): calls, entries and updates reach
      the objects they are meant for, and error paths are values.

    - [Demonstrations]: the [main] of some sequential programs, run in the model, prints what
      the comments of the sources say it prints.

    This file holds what they share: the scope and hint database, machine integers,
    vectors, histories ([run_ops], [run_out]), reference counting ([occ], [refs_in]),
    list lemmas and the sorted view of a map.

    ** Defects

    Some theorems show where the code does not do what it means to: the lock upgrade of
    the two-phase manager ([strict2pl_upgrade_dirty_read]), the deadlock of two
    candidates ([raft_candidates_deadlock]), the vote forgotten on a heartbeat
    ([raft_heartbeat_forgets_vote]), the iterator race in the LRU cache
    ([lru_get_race]), the destroyed [LockInfo] ([lock_manager_reader_dangling]), the
    dangling parent pointer ([remove_parent_dangles]), the empty value in the log
    ([empty_value_corrupts_recovery]), the sentinel value in a table
    ([sentinel_value_reads_stale]), the chunks leaked by an overwrite
    ([dedup_overwrite_leaks]), files with children ([fs_file_with_children]),
    allocations of size zero ([zero_request_aliases]), negative keys in the sharded cache
    ([sharded_negative_key]), a cache of capacity zero ([ttl_capacity_zero]), entries
    inserted by the deadlock search ([search_inserts_entries]), the empty ring
    ([empty_ring_undefined]), objects collected while referenced
    ([gc_resurrected_object]), the removed server ([round_robin_remove_dangles]), the
    keys a leaf split hides ([bplus_tree_split_hides_keys]), the task that is due earlier
    ([scheduler_misses_earlier_task]), periodic tasks and shutdown
    ([periodic_task_blocks_shutdown]), the empty prefix ([empty_prefix_not_counted]),
    negative numbers ([maximum_xor_negative]), the nameless file ([nameless_file]), the
    unguarded phases of two-phase commit ([abort_after_commit],
    [late_participant_commits]), the unregistered provider ([other_provider_undefined]),
    the negative capacity ([negative_capacity_allows]), the build that hangs on a cycle
    without a source ([build_without_source_hangs]), the unterminated last line
    ([tail_unterminated]), the failed read ([read_failure_unnoticed]), duplicates of an earlier
    run ([stale_duplicates]), colliding numbers of queries ([query_ids_collide]) and
    decompression ([decompress_is_no_inverse]).

    ** Not modelled

    Printing (except where what is printed is the result), destructors and freeing,
    failures of the operating system to open or write a file, and most demonstrations in
    [main].  A time-out is a step that may happen at any moment, or the clock is an
    argument.  Memory is sequentially consistent.  Every program has a model; the doubles of
    the matrices and the metrics, where rounding does not matter, are a type parameter. *)
From stdpp Require Export gmap strings list fin_maps sorting pretty.
From Stdlib Require Export ZArith Lia.

(** ** Scope and proof automation of the development *)

Declare Scope cpp_scope.
Delimit Scope cpp_scope with cpp.

Create HintDb cpp.

(** Sizes ([nat]) are used in [int] arithmetic ([Z]). *)
Coercion Z.of_nat : nat >-> Z.

(** String concatenation reduces on a constructor. *)
#[global] Arguments String.append !s1 s2 / : simpl nomatch.

Lemma string_app_assoc (s1 s2 s3 : string) : (s1 +:+ s2) +:+ s3 = s1 +:+ (s2 +:+ s3).
Proof. induction s1; simpl; congruence. Qed.

Lemma string_app_nil_r (s : string) : s +:+ EmptyString = s.
Proof. induction s; simpl; congruence. Qed.

Lemma string_app_length (s1 s2 : string) :
  String.length (s1 +:+ s2) = String.length s1 + String.length s2.
Proof. induction s1; simpl; congruence. Qed.

(** ** Machine integers

    [int] is the 32-bit two's-complement type of the target; arithmetic is
    written on [Z], with [int32] for a conversion to [int] and [int_ok] for the
    values an [int] can hold (signed overflow is undefined behaviour). *)

Definition INT_MAX : Z := 2147483647.
Definition INT_MIN : Z := -2147483648.

Definition int_ok (z : Z) : Prop := (INT_MIN ≤ z ≤ INT_MAX)%Z.

Definition int32 (z : Z) : Z := ((z - INT_MIN) mod 4294967296 + INT_MIN)%Z.

Lemma int32_id z : int_ok z → int32 z = z.
Proof.
  unfold int_ok, int32, INT_MIN, INT_MAX. intros ?.
  rewrite Z.mod_small; lia.
Qed.

Lemma int32_ok z : int_ok (int32 z).
Proof.
  unfold int_ok, int32, INT_MIN, INT_MAX.
  pose proof (Z.mod_pos_bound (z - -2147483648) 4294967296). lia.
Qed.

(** The result of [int] arithmetic, where it may overflow: [None] then. *)
Definition checked (z : Z) : option Z := if (INT_MIN <=? z)%Z && (z <=? INT_MAX)%Z then Some z else None.

Lemma checked_ok z : int_ok z → checked z = Some z.
Proof.
  unfold int_ok, checked. intros Hz. destruct (Z.leb_spec INT_MIN z), (Z.leb_spec z INT_MAX); simpl; done || lia.
Qed.

Notation "a +! b" := (checked (a + b)%Z) (at level 50, left associativity) : cpp_scope.
Notation "a -! b" := (checked (a - b)%Z) (at level 50, left associativity) : cpp_scope.

(** Ranges of [int] values. *)
Ltac int_bounds := unfold int_ok, INT_MIN, INT_MAX in *; lia.

#[export] Hint Extern 1 (int_ok _) => int_bounds : cpp.
#[export] Hint Resolve int32_ok : cpp.

(** Conversion to [size_t] (64 bits, unsigned), as in a comparison of an [int]
    with [v.size()]. *)
Definition to_size_t (z : Z) : Z := (z mod 18446744073709551616)%Z.

Lemma to_size_t_id z : (0 ≤ z ≤ INT_MAX)%Z → to_size_t z = z.
Proof. unfold to_size_t, INT_MAX. intros ?. apply Z.mod_small. lia. Qed.

(** Reading [v[i]] of a vector with an [int] index: [None] out of range, where
    the C++ behaviour is undefined. *)
Definition vget {A} (l : list A) (i : Z) : option A :=
  if (i <? 0)%Z then None else l !! Z.to_nat i.

(** Writing [v[i] = x]. *)
Definition vset {A} (l : list A) (i : Z) (x : A) : option (list A) :=
  if decide (0 ≤ i < length l)%Z then Some (<[Z.to_nat i := x]> l) else None.

Lemma vget_in {A} (l : list A) i :
  (0 ≤ i < length l)%Z → ∃ x, vget l i = Some x ∧ l !! Z.to_nat i = Some x.
Proof.
  intros Hi. unfold vget. destruct (Z.ltb_spec i 0); [lia|].
  destruct (lookup_lt_is_Some_2 l (Z.to_nat i)) as [x Hx]; [lia|]. eauto.
Qed.

Lemma vget_of_nat {A} (l : list A) (i : nat) : vget l i = l !! i.
Proof. unfold vget. destruct (Z.ltb_spec i 0); [lia|]. by rewrite Nat2Z.id. Qed.

(** ** Step relations

    A property that holds initially and is preserved by every step holds in
    every reachable state. *)
Lemma rtc_invariant {A} (R : relation A) (P : A → Prop) x y :
  (∀ a b, P a → R a b → P b) → rtc R x y → P x → P y.
Proof. intros HR. induction 1; eauto. Qed.

(** Running a list of operations through a partial transition function. *)
Fixpoint run_ops {S O} (step : S → O → option S) (s : S) (ops : list O) : option S :=
  match ops with
  | [] => Some s
  | o :: ops => s' ← step s o; run_ops step s' ops
  end.

Lemma run_ops_app {S O} (step : S → O → option S) s ops1 ops2 :
  run_ops step s (ops1 ++ ops2) =
  (s' ← run_ops step s ops1; run_ops step s' ops2).
Proof.
  revert s. induction ops1 as [|o ops1 IH]; intros s; simpl; [done|].
  destruct (step s o); simpl; [apply IH|done].
Qed.

(** A measure that every step decreases bounds the number of steps. *)
Lemma nsteps_decreasing_inv {A} (P : A → Prop) (f : A → nat) (R : relation A) k x y :
  (∀ x y, P x → R x y → f y < f x) → (∀ x y, P x → R x y → P y) → P x → nsteps R k x y → k ≤ f x.
Proof.
  intros Hf HP Hx Hk. induction Hk as [x|k x x' y Hxx' _ IH]; [lia|].
  pose proof (Hf _ _ Hx Hxx'). pose proof (IH (HP _ _ Hx Hxx')). lia.
Qed.

Lemma nsteps_decreasing {A} (f : A → nat) (R : relation A) k x y :
  (∀ x y, R x y → f y < f x) → nsteps R k x y → k ≤ f x.
Proof. intros Hf. apply (nsteps_decreasing_inv (λ _, True)); auto. Qed.

(** A total invariant: every operation is defined on a state that satisfies it
    and preserves it, so every run is defined and ends in such a state. *)
Lemma run_ops_invariant {S O} (step : S → O → option S) (P : S → Prop) s ops :
  (∀ s o, P s → ∃ s', step s o = Some s' ∧ P s') →
  P s → ∃ s', run_ops step s ops = Some s' ∧ P s'.
Proof.
  intros Hstep. revert s. induction ops as [|o ops IH]; intros s Hs; simpl.
  - eauto.
  - destruct (Hstep s o Hs) as (s' & -> & Hs'). simpl. by apply IH.
Qed.

Lemma run_ops_preserves {S O} (step : S → O → option S) (P : S → Prop) s ops s' :
  (∀ s o s', P s → step s o = Some s' → P s') → P s → run_ops step s ops = Some s' → P s'.
Proof.
  intros Hstep. revert s. induction ops as [|o ops IH]; simpl; intros s HP Hs; [by simplify_eq|].
  destruct (step s o) as [s1|] eqn:E; [|done]. eauto.
Qed.

(** The same for operations that also return a result. *)
Fixpoint run_out {S O R} (step : S → O → option (S * R)) (s : S) (ops : list O) : option (S * list R) :=
  match ops with
  | [] => Some (s, [])
  | o :: ops => '(s, r) ← step s o; '(s, rs) ← run_out step s ops; Some (s, r :: rs)
  end.

Lemma run_out_app {S O R} (step : S → O → option (S * R)) s ops1 ops2 :
  run_out step s (ops1 ++ ops2) =
  ('(s, rs1) ← run_out step s ops1; '(s, rs2) ← run_out step s ops2; Some (s, rs1 ++ rs2)).
Proof.
  revert s. induction ops1 as [|o ops1 IH]; intros s; simpl.
  - by destruct (run_out step s ops2) as [[??]|].
  - destruct (step s o) as [[s1 r]|]; simpl; [|done]. rewrite IH.
    destruct (run_out step s1 ops1) as [[s2 rs1]|]; simpl; [|done].
    by destruct (run_out step s2 ops2) as [[??]|].
Qed.

(** ** Lists *)

Lemma fold_left_invariant {A B} (f : A → B → A) (P : A → Prop) l a :
  (∀ a b, P a → P (f a b)) → P a → P (fold_left f l a).
Proof. intros Hf. revert a. induction l; simpl; auto. Qed.

Lemma sum_insert {A} (f : A → nat) (l : list A) t x y :
  l !! t = Some x → sum_list_with f (<[t := y]> l) + f x = sum_list_with f l + f y.
Proof.
  revert t. induction l as [|z l IH]; intros [|t] Ht; simplify_eq/=; [lia|]. specialize (IH t Ht). lia.
Qed.

Lemma sum_replicate {A} (f : A → nat) n x : sum_list_with f (replicate n x) = n * f x.
Proof. induction n; simpl; lia. Qed.

Lemma bind_insert_perm {A B} (f : A → list B) (l : list A) t x y :
  l !! t = Some x → (<[t := y]> l ≫= f) ++ f x ≡ₚ (l ≫= f) ++ f y.
Proof.
  revert t. induction l as [|z l IH]; intros [|t] Ht; simplify_eq/=; [solve_Permutation|].
  rewrite <-!(assoc_L (++)). by rewrite (IH t Ht).
Qed.

Lemma elem_of_insert_inv {A} (l : list A) t (x y : A) : x ∈ <[t := y]> l → x = y ∨ x ∈ l.
Proof.
  intros [i Hi]%list_elem_of_lookup. apply list_lookup_insert_Some in Hi as [(_ & <- & _)|[_ Hi]]; [by left|].
  right. by eapply list_elem_of_lookup_2.
Qed.

Lemma StronglySorted_seq a n : StronglySorted le (seq a n).
Proof.
  revert a. induction n as [|n IH]; intros a; simpl; [constructor|].
  constructor; [apply IH|]. apply Forall_forall. intros x Hx%elem_of_seq. lia.
Qed.

(** An element of a duplicate-free concatenation occurs in one part only. *)
Lemma NoDup_concat_inj {A B} (f : A → list B) (ls : list A) i j a b x :
  NoDup (concat (f <$> ls)) → ls !! i = Some a → ls !! j = Some b → i ≠ j →
  x ∈ f a → x ∈ f b → False.
Proof.
  revert i j. induction ls as [|c ls IH]; intros i j Hnd Hi Hj Hij Ha Hb; [done|].
  csimpl in Hnd. apply NoDup_app in Hnd as (_ & Hdis & Hnd).
  assert (∀ i c, ls !! i = Some c → x ∈ f c → x ∈ concat (f <$> ls)) as Hin.
  { intros i' c' Hi' Hx. apply list_elem_of_In, in_concat. exists (f c').
    split; [|by apply list_elem_of_In]. apply list_elem_of_In, list_elem_of_fmap_2.
    by apply list_elem_of_lookup_2 in Hi'. }
  destruct i as [|i], j as [|j]; simpl in Hi, Hj; simplify_eq.
  - eapply Hdis; eauto.
  - eapply Hdis; eauto.
  - eapply (IH i j); eauto.
Qed.

Lemma filter_all {A} (P : A → Prop) `{∀ x, Decision (P x)} (l : list A) :
  Forall P l → filter P l = l.
Proof.
  induction 1; [done|]. rewrite filter_cons, decide_True by done. by f_equal.
Qed.

(** Counting the elements with a property when one is removed or replaced. *)
Lemma filter_agree {A} (P Q : A → Prop) `{∀ x, Decision (P x)} `{∀ x, Decision (Q x)} (l : list A) :
  (∀ x, x ∈ l → P x ↔ Q x) → filter P l = filter Q l.
Proof.
  induction l as [|x l IH]; intros Hpq; [done|]. rewrite !filter_cons.
  rewrite IH by (intros; apply Hpq; by right).
  destruct (decide (P x)), (decide (Q x)); try done; exfalso; specialize (Hpq x ltac:(by left)); tauto.
Qed.

Lemma filter_map {A B} (f : A → B) (P : B → Prop) `{∀ x, Decision (P x)} (l : list A) :
  filter P (f <$> l) = f <$> filter (λ x, P (f x)) l.
Proof. induction l as [|x l IH]; [done|]. rewrite fmap_cons, !filter_cons, IH. by case_decide. Qed.

Lemma filter_delete_length {A} (P : A → Prop) `{∀ x, Decision (P x)} (l : list A) j x :
  l !! j = Some x →
  length (filter P l) = length (filter P (delete j l)) + if decide (P x) then 1 else 0.
Proof.
  intros Hj. rewrite <-(take_drop_middle l j x Hj) at 1. rewrite delete_take_drop, !filter_app, !length_app.
  rewrite filter_cons. case_decide; simpl; lia.
Qed.

Lemma filter_insert_length {A} (P : A → Prop) `{∀ x, Decision (P x)} (l : list A) j x y :
  l !! j = Some x →
  length (filter P (<[j := y]> l)) + (if decide (P x) then 1 else 0) =
  length (filter P l) + if decide (P y) then 1 else 0.
Proof.
  intros Hj. assert (j < length l) as Hlt by (by eapply lookup_lt_Some).
  rewrite (filter_delete_length P l j x Hj), (filter_delete_length P (<[j := y]> l) j y)
    by (by apply list_lookup_insert_eq).
  assert (delete j (<[j := y]> l) = delete j l) as ->; [|lia].
  rewrite !delete_take_drop, take_insert_ge by lia. by rewrite drop_insert_lt by lia.
Qed.

(** ** Counting references *)

(** Occurrences of an identifier in a list. *)
Definition occ {A} `{EqDecision A} (i : A) (ids : list A) : Z := length (filter (i =.) ids).

(** Occurrences in the lists a map's values hold. *)
Definition refs_in {K V A} `{Countable K} `{EqDecision A} (f : V → list A) (m : gmap K V) (i : A) : Z :=
  map_fold (λ _ v n, (occ i (f v) + n)%Z) 0%Z m.

Section occ.
Context {A : Type} `{EqDecision A}.
Implicit Types (i j : A) (ids : list A).

Lemma occ_nonneg i ids : (0 ≤ occ i ids)%Z.
Proof. unfold occ. lia. Qed.

Lemma occ_cons i j ids : occ i (j :: ids) = ((if decide (i = j) then 1 else 0) + occ i ids)%Z.
Proof. unfold occ. rewrite filter_cons. case_decide; simpl; lia. Qed.

Lemma occ_app i ids1 ids2 : occ i (ids1 ++ ids2) = (occ i ids1 + occ i ids2)%Z.
Proof. unfold occ. rewrite filter_app, length_app. lia. Qed.

Lemma occ_elem i ids : i ∈ ids → (0 < occ i ids)%Z.
Proof.
  intros Hi. unfold occ. destruct (filter (i =.) ids) eqn:Hf; simpl; [|lia].
  exfalso. eapply (not_elem_of_nil i). rewrite <-Hf. by apply list_elem_of_filter.
Qed.

Lemma occ_not_elem i ids : i ∉ ids → occ i ids = 0%Z.
Proof.
  intros Hi. unfold occ. destruct (filter (i =.) ids) as [|x l] eqn:E; [done|]. exfalso. apply Hi.
  assert (x ∈ filter (i =.) ids) as Hx by (rewrite E; by left). by apply list_elem_of_filter in Hx as [-> ?].
Qed.

Context {K V : Type} `{Countable K} (f : V → list A).
Implicit Types (m : gmap K V) (k : K) (v : V).

Lemma refs_in_insert m k v i :
  m !! k = None → refs_in f (<[k := v]> m) i = (occ i (f v) + refs_in f m i)%Z.
Proof. intros Hv. unfold refs_in. rewrite map_fold_insert_L; [done|intros; lia|done]. Qed.

Lemma refs_in_delete m k v i :
  m !! k = Some v → refs_in f m i = (occ i (f v) + refs_in f (delete k m) i)%Z.
Proof.
  intros Hv. rewrite <-(refs_in_insert (delete k m) k v) by apply lookup_delete_eq.
  by rewrite insert_delete_id.
Qed.

Lemma refs_in_nonneg m i : (0 ≤ refs_in f m i)%Z.
Proof.
  unfold refs_in. apply (map_fold_weak_ind (λ n (_ : gmap K V), 0 ≤ n)%Z); [done|].
  intros k v m' n _ ?. pose proof (occ_nonneg i (f v)). lia.
Qed.
End occ.

(** ** Sorted views of a [std::map]

    A [std::map] is iterated in the order of its keys: [map_sorted le m] is the
    list of its entries in that order. *)
Section sorted_map.
Context {K V : Type} `{Countable K}.
Context (le : relation K) `{!RelDecision le} `{!Transitive le} `{!Total le} `{!AntiSymm (=) le}.

Definition key_le (p q : K * V) : Prop := le p.1 q.1.

#[export] Instance key_le_dec : RelDecision key_le.
Proof. intros p q. unfold key_le. apply _. Defined.

#[export] Instance key_le_trans : Transitive key_le.
Proof. intros p q r. unfold key_le. apply transitivity. Qed.

#[export] Instance key_le_total : Total key_le.
Proof. intros p q. unfold key_le. apply total, _. Qed.

Definition map_sorted (m : gmap K V) : list (K * V) := merge_sort key_le (map_to_list m).

Lemma map_sorted_sorted m : StronglySorted key_le (map_sorted m).
Proof. apply StronglySorted_merge_sort; apply _. Qed.

Lemma elem_of_map_sorted m k v : (k, v) ∈ map_sorted m ↔ m !! k = Some v.
Proof.
  unfold map_sorted. rewrite (merge_sort_Permutation key_le).
  apply elem_of_map_to_list.
Qed.

Lemma map_sorted_NoDup m : NoDup (map_sorted m).*1.
Proof.
  unfold map_sorted. rewrite (merge_sort_Permutation key_le). apply NoDup_fst_map_to_list.
Qed.

Lemma length_map_sorted m : length (map_sorted m) = size m.
Proof.
  unfold map_sorted. rewrite (merge_sort_Permutation key_le). apply length_map_to_list.
Qed.
End sorted_map.
