(* ===== verification/Streams.v ===== *)
(** * Text streams

    The part of [<iostream>] and [<sstream>] the programs use to write and read
    back text: formatted extraction of a word ([is >> s]) and of an [int]
    ([is >> n]), insertion of an [int], and [getline] with a delimiter.  A stream
    is the string of the characters not yet read; an extraction that sets
    [failbit] is [None]. *)
From S2P Require Import Prelude.
From Stdlib Require Import Ascii DecimalString DecimalZ DecimalPos.
Local Open Scope string_scope.
Local Open Scope list_scope.
Local Open Scope nat_scope.

(** ** Characters and words *)

(** [std::isspace] in the "C" locale: space, and the codes 9 to 13. *)
Definition is_space (c : ascii) : bool :=
  let n := N_of_ascii c in (n =? 32)%N || ((9 <=? n)%N && (n <=? 13)%N).

Definition is_digit (c : ascii) : bool :=
  let n := N_of_ascii c in (48 <=? n)%N && (n <=? 57)%N.

Definition newline : string := String (ascii_of_N 10) EmptyString.

Fixpoint skip_ws (s : string) : string :=
  match s with
  | EmptyString => EmptyString
  | String c r => if is_space c then skip_ws r else s
  end.

Fixpoint take_word (s : string) : string * string :=
  match s with
  | EmptyString => (EmptyString, EmptyString)
  | String c r =>
      if is_space c then (EmptyString, s)
      else let '(w, rest) := take_word r in (String c w, rest)
  end.

(** [is >> w] for a [std::string]. *)
Definition read_word (s : string) : option (string * string) :=
  match take_word (skip_ws s) with
  | (EmptyString, _) => None
  | (w, rest) => Some (w, rest)
  end.

Fixpoint all_chars (p : ascii → bool) (s : string) : bool :=
  match s with
  | EmptyString => true
  | String c r => p c && all_chars p r
  end.

(** The strings that survive a round trip through [<<] and [>>]. *)
Definition wordb (s : string) : bool :=
  negb (String.eqb s "") && all_chars (λ c, negb (is_space c)) s.

Definition is_word (s : string) : Prop := wordb s = true.

(** What follows a word: the end of the stream or a blank. *)
Definition at_break (s : string) : Prop :=
  match s with EmptyString => True | String c _ => is_space c = true end.

Lemma take_word_app w rest :
  all_chars (λ c, negb (is_space c)) w = true → at_break rest →
  take_word (w +:+ rest) = (w, rest).
Proof.
  induction w as [|c w IH]; simpl; intros Hw Hr.
  - destruct rest as [|c r]; simpl in *; [done|]. by rewrite Hr.
  - apply andb_true_iff in Hw as [Hc Hw]. apply negb_true_iff in Hc.
    rewrite Hc, IH by done. done.
Qed.

Lemma read_word_skip c s : is_space c = true → read_word (String c s) = read_word s.
Proof. intros Hc. unfold read_word. simpl. by rewrite Hc. Qed.

Lemma read_word_blank s : read_word (" " +:+ s) = read_word s.
Proof. done. Qed.

Lemma is_word_nonempty s : is_word s → s ≠ "".
Proof. by destruct s. Qed.

Lemma is_word_cons c w :
  is_word (String c w) → is_space c = false ∧ all_chars (λ c, negb (is_space c)) w = true.
Proof.
  unfold is_word, wordb. simpl. intros H. apply andb_true_iff in H as [H ?].
  by apply negb_true_iff in H.
Qed.

Lemma read_word_app w rest :
  is_word w → at_break rest → read_word (w +:+ rest) = Some (w, rest).
Proof.
  intros Hw Hr. destruct w as [|c w]; [done|].
  destruct (is_word_cons _ _ Hw) as [Hc Hcs].
  unfold read_word. simpl. rewrite Hc. simpl. rewrite Hc, (take_word_app w rest) by done. done.
Qed.

(** A successful extraction consumes at least one character, so the loops
    [while (is >> ...)] stop. *)
Lemma take_word_length s w r :
  take_word s = (w, r) → String.length s = (String.length w + String.length r)%nat.
Proof.
  revert w r. induction s as [|c s IH]; simpl; intros w r Hs; simplify_eq/=; [done|].
  destruct (is_space c); simplify_eq/=; [done|].
  destruct (take_word s) as [w' r'] eqn:E. simplify_eq/=. by rewrite (IH w' r).
Qed.

Lemma skip_ws_length s : (String.length (skip_ws s) ≤ String.length s)%nat.
Proof. induction s as [|c s IH]; simpl; [done|]. destruct (is_space c); simpl; lia. Qed.

Lemma read_word_length s w r :
  read_word s = Some (w, r) → (String.length r < String.length s)%nat.
Proof.
  unfold read_word. intros H. pose proof (skip_ws_length s).
  destruct (take_word (skip_ws s)) as [[|c w'] r'] eqn:E; simplify_eq.
  apply take_word_length in E. simpl in E. lia.
Qed.

(** ** Integers *)

(** [os << n] for an [int]: decimal digits with a leading minus sign if
    negative. *)
Definition show_int (z : Z) : string := NilZero.string_of_int (Z.to_int z).

Fixpoint take_digits (s : string) : string * string :=
  match s with
  | EmptyString => (EmptyString, EmptyString)
  | String c r =>
      if is_digit c then let '(d, rest) := take_digits r in (String c d, rest)
      else (EmptyString, s)
  end.

Definition read_sign (s : string) : bool * string :=
  match s with
  | String "-" r => (true, r)
  | String "+" r => (false, r)
  | _ => (false, s)
  end.

Definition int_okb (z : Z) : bool := (INT_MIN <=? z)%Z && (z <=? INT_MAX)%Z.

(** [is >> n] for an [int]: leading blanks, an optional sign, the longest run of
    digits; no digit, or a value that does not fit, sets [failbit]. *)
Definition read_int (s : string) : option (Z * string) :=
  let '(neg, s1) := read_sign (skip_ws s) in
  let '(d, rest) := take_digits s1 in
  match NilZero.uint_of_string d with
  | None => None
  | Some u =>
      let v := if neg then (- Z.of_uint u)%Z else Z.of_uint u in
      if int_okb v then Some (v, rest) else None
  end.

Definition no_digit (s : string) : Prop :=
  match s with EmptyString => True | String c _ => is_digit c = false end.

Lemma take_digits_app u rest :
  no_digit rest →
  take_digits (NilEmpty.string_of_uint u +:+ rest) = (NilEmpty.string_of_uint u, rest).
Proof.
  intros Hr. induction u; simpl; try (by rewrite IHu).
  destruct rest as [|c r]; simpl in *; [done|]. by rewrite Hr.
Qed.

Lemma string_of_uint_nilzero u :
  u ≠ Decimal.Nil → NilZero.string_of_uint u = NilEmpty.string_of_uint u.
Proof. by destruct u. Qed.

Lemma read_int_uint u rest :
  u ≠ Decimal.Nil → no_digit rest → int_okb (Z.of_uint u) = true →
  read_int (NilZero.string_of_uint u +:+ rest) = Some (Z.of_uint u, rest).
Proof.
  intros Hu Hr Hok.
  assert (∀ r, skip_ws (NilEmpty.string_of_uint u +:+ r) = NilEmpty.string_of_uint u +:+ r) as Hskip
    by (by destruct u).
  assert (∀ r, read_sign (NilEmpty.string_of_uint u +:+ r) = (false, NilEmpty.string_of_uint u +:+ r))
    as Hsign by (by destruct u).
  unfold read_int. rewrite string_of_uint_nilzero by done.
  rewrite Hskip, Hsign, take_digits_app by done.
  rewrite <-(string_of_uint_nilzero u) by done.
  rewrite NilZero.usu by done. by rewrite Hok.
Qed.

(** Writing a non-negative [int] and reading it back. *)
Lemma read_show_int z rest :
  (0 ≤ z)%Z → int_ok z → no_digit rest →
  read_int (show_int z +:+ rest) = Some (z, rest).
Proof.
  intros Hz Hok Hr. unfold show_int.
  assert (∃ u, Z.to_int z = Decimal.Pos u ∧ u ≠ Decimal.Nil) as (u & Hu & Hne).
  { destruct z as [|p|p]; simpl; [by eexists|eexists; split; [done|]|lia].
    apply Unsigned.to_uint_nonnil. }
  assert (Z.of_uint u = z) as Hval.
  { pose proof (DecimalZ.of_to z) as Hof. rewrite Hu in Hof. exact Hof. }
  rewrite Hu. simpl. rewrite <-Hval. apply read_int_uint; [done..|].
  rewrite Hval. unfold int_okb. unfold int_ok in Hok.
  apply andb_true_iff. by rewrite !Z.leb_le.
Qed.

Lemma read_int_skip c s : is_space c = true → read_int (String c s) = read_int s.
Proof. intros Hc. unfold read_int. simpl. by rewrite Hc. Qed.

Lemma take_digits_length s d r :
  take_digits s = (d, r) → String.length s = (String.length d + String.length r)%nat.
Proof.
  revert d r. induction s as [|c s IH]; simpl; intros d r Hs; simplify_eq/=; [done|].
  destruct (is_digit c); simplify_eq/=; [|done].
  destruct (take_digits s) as [w' r'] eqn:E. simplify_eq/=. by rewrite (IH w' r).
Qed.

Lemma read_int_length s z r : read_int s = Some (z, r) → (String.length r < String.length s)%nat.
Proof.
  unfold read_int. pose proof (skip_ws_length s) as Hskip.
  destruct (read_sign (skip_ws s)) as [neg s1] eqn:Es.
  assert (String.length s1 ≤ String.length (skip_ws s))%nat.
  { unfold read_sign in Es. repeat case_match; simplify_eq/=; lia. }
  destruct (take_digits s1) as [d rest] eqn:Ed. apply take_digits_length in Ed.
  destruct d as [|c d]; simpl in *; [done|]. intros. repeat case_match; simplify_eq; lia.
Qed.

(** ** [getline] with a delimiter

    The lines produced by [while (getline(ss, token, d))]; the text after the
    last delimiter is a line only if it is not empty. *)
Fixpoint getlines (d : ascii) (s : string) : list string :=
  match s with
  | EmptyString => []
  | String c r =>
      if Ascii.eqb c d then EmptyString :: getlines d r
      else match getlines d r with
           | [] => [String c EmptyString]
           | t :: ts => String c t :: ts
           end
  end.

#[export] Hint Resolve is_word_nonempty : cpp.
