(* ===== verification/SSTable.v ===== *)
(** * Sorted string tables

    The class [SSTable] that [src/storage/KVstore.cpp],
    [src/multi-stage-pipeline/LSM_WritePath_StorageEngine.cpp] and
    [src/caching/MemTable_SSTable_Lookup.cpp] declare with the same text: an
    immutable vector of key/value pairs copied from the sorted [std::map] of the
    memtable, and a binary search over it. *)
From S2P Require Import Prelude.
Local Open Scope string_scope.
Local Open Scope list_scope.
Local Open Scope nat_scope.

(** ** Order of keys: [std::string]'s [operator<] is lexicographic on bytes *)

Lemma string_ltb_leb s1 s2 : String.ltb s1 s2 = true → String.leb s1 s2 = true.
Proof. unfold String.ltb, String.leb. by destruct (String.compare s1 s2). Qed.

Lemma string_nltb_leb s1 s2 : String.ltb s1 s2 = false → String.leb s2 s1 = true.
Proof.
  unfold String.ltb, String.leb. rewrite (String.compare_antisym s2 s1).
  by destruct (String.compare s1 s2).
Qed.

(** ** The class *)

Record SSTable := { sorted_entries : list (string * string) }.

Definition NOT_FOUND : string := "NOT FOUND!".

(** The constructor copies the entries of the memtable in key order. *)
Definition SSTable_make (memTable : gmap string string) : SSTable :=
  {| sorted_entries := map_sorted String.le memTable |}.

(** The [while (left <= right)] loop. [None] stands for an access out of the
    bounds of the vector or for exhausted fuel. *)
Fixpoint searchKey_loop (fuel : nat) (es : list (string * string)) (key : string)
    (left right : Z) : option string :=
  match fuel with
  | O => None
  | S fuel =>
      if (left <=? right)%Z then
        let mid := (left + (right - left) ÷ 2)%Z in
        e ← vget es mid;
        if String.eqb e.1 key then Some e.2
        else if String.ltb e.1 key then searchKey_loop fuel es key (mid + 1) right
        else searchKey_loop fuel es key left (mid - 1)
      else Some NOT_FOUND
  end.

Definition searchKey (t : SSTable) (key : string) : option string :=
  let es := sorted_entries t in
  searchKey_loop (S (length es)) es key 0 (int32 (length es - 1)).

(** ** Correctness of the binary search *)

Section binary_search.
Context (es : list (string * string)) (key : string).
Hypothesis Hsorted : StronglySorted (key_le String.le) es.

(** The index window still to be searched contains every occurrence of the key. *)
Definition window (left right : Z) : Prop :=
  ∀ (i : nat) v, es !! i = Some (key, v) → (left ≤ Z.of_nat i ≤ right)%Z.

Lemma sorted_index_le (i j : nat) a b :
  (i ≤ j)%nat → es !! i = Some a → es !! j = Some b → String.leb a.1 b.1 = true.
Proof.
  intros Hij Ha Hb. destruct (decide (i = j)) as [->|Hne].
  { simplify_eq. apply Is_true_true. exact (reflexivity (R:=String.le) _). }
  rewrite <-(take_drop (S i) es) in Hsorted.
  apply Is_true_true, (StronglySorted_app_1_elem_of _ _ _ _ _ Hsorted).
  - apply list_elem_of_lookup. exists i. rewrite lookup_take_lt by lia. done.
  - apply list_elem_of_lookup. exists (j - S i)%nat. rewrite lookup_drop.
    by replace (S i + (j - S i))%nat with j by lia.
Qed.

Lemma leb_antisymm s1 s2 : String.leb s1 s2 = true → String.leb s2 s1 = true → s1 = s2.
Proof.
  unfold String.leb. intros H1 H2. apply String.compare_eq_iff.
  rewrite (String.compare_antisym s2 s1) in H2. by destruct (String.compare s1 s2).
Qed.

Lemma window_right mid left right k v :
  es !! Z.to_nat mid = Some (k, v) → (0 ≤ mid)%Z → k ≠ key → String.ltb k key = true →
  window left right → window (mid + 1) right.
Proof.
  intros Hmid H0 Hne Hlt Hw i w Hi. destruct (Hw i w Hi). split; [|done].
  destruct (decide (mid + 1 ≤ i)%Z); [done|]. exfalso. apply Hne.
  apply leb_antisymm; [by apply string_ltb_leb|].
  apply (sorted_index_le i (Z.to_nat mid) (key, w) (k, v)); [lia|done..].
Qed.

Lemma window_left mid left right k v :
  es !! Z.to_nat mid = Some (k, v) → (0 ≤ mid)%Z → k ≠ key → String.ltb k key = false →
  window left right → window left (mid - 1).
Proof.
  intros Hmid H0 Hne Hlt Hw i w Hi. destruct (Hw i w Hi). split; [done|].
  destruct (decide (i ≤ mid - 1)%Z); [done|]. exfalso. apply Hne.
  apply leb_antisymm; [|by apply string_nltb_leb].
  apply (sorted_index_le (Z.to_nat mid) i (k, v) (key, w)); [lia|done..].
Qed.

Lemma mid_bounds left right :
  (left ≤ right)%Z → (left ≤ left + (right - left) ÷ 2 ≤ right)%Z.
Proof.
  intros ?. rewrite Z.quot_div_nonneg by lia.
  pose proof (Z.div_pos (right - left) 2). pose proof (Z.div_le_upper_bound (right - left) 2 (right - left)).
  lia.
Qed.

(** With enough fuel the loop returns, and returns the value at an index that
    holds the key, or the sentinel when no index does. *)
Lemma searchKey_loop_spec (fuel : nat) left right :
  (0 ≤ left ≤ right + 1)%Z → (right < length es)%Z → (right - left + 1 < fuel)%Z →
  window left right →
  (∃ (i : nat) v, es !! i = Some (key, v) ∧ searchKey_loop fuel es key left right = Some v) ∨
  (∀ (i : nat) v, es !! i ≠ Some (key, v)) ∧ searchKey_loop fuel es key left right = Some NOT_FOUND.
Proof.
  revert left right. induction fuel as [|fuel IH]; intros left right Hl Hr Hf Hw.
  { lia. }
  simpl. destruct (Z.leb_spec left right) as [Hle|Hgt].
  2:{ right. split; [|done]. intros i v Hi. destruct (Hw i v Hi). lia. }
  pose proof (mid_bounds left right Hle) as Hmid.
  set (mid := (left + (right - left) ÷ 2)%Z) in *.
  destruct (vget_in es mid) as ((k & v) & -> & Hv); [lia|]. simpl.
  destruct (String.eqb_spec k key) as [->|Hne]; [left; eauto|].
  destruct (String.ltb k key) eqn:Hlt; apply IH; try lia.
  - by apply (window_right mid left right k v); [..|lia| | |].
  - by apply (window_left mid left right k v); [..|lia| | |].
Qed.
End binary_search.

(** The map an SSTable stands for. *)
Definition sst_map (t : SSTable) : gmap string string := list_to_map (sorted_entries t).

Lemma sst_map_make m : sst_map (SSTable_make m) = m.
Proof.
  unfold sst_map, SSTable_make. simpl. apply map_eq. intros k.
  apply option_eq. intros v. rewrite <-elem_of_list_to_map.
  - apply elem_of_map_sorted.
  - apply map_sorted_NoDup.
Qed.

(** Searching the table built from a memtable is a lookup in that
    memtable: the loop always returns, never reads out of bounds, and answers the
    stored value or "NOT FOUND!". *)
Lemma searchKey_lookup (m : gmap string string) (key : string) :
  (size m ≤ INT_MAX)%Z →
  searchKey (SSTable_make m) key = Some (default NOT_FOUND (m !! key)).
Proof.
  intros Hsz. unfold searchKey, SSTable_make. cbn [sorted_entries].
  set (es := map_sorted String.le m).
  assert (length es = size m) as Hlen by apply length_map_sorted.
  rewrite int32_id by auto with cpp.
  destruct (searchKey_loop_spec es key (map_sorted_sorted _ m) (S (length es)) 0 (length es - 1)%Z)
    as [(i & v & Hi & Hr)|[Hno Hr]]; [lia|lia|lia| |..].
  - intros i v Hi. apply lookup_lt_Some in Hi. lia.
  - rewrite Hr. apply list_elem_of_lookup_2, elem_of_map_sorted in Hi. by rewrite Hi.
  - rewrite Hr. destruct (m !! key) as [v|] eqn:Hm; [|done].
    apply (elem_of_map_sorted String.le), list_elem_of_lookup in Hm as [i Hi].
    by destruct (Hno i v).
Qed.
