(* ===== verification/LSMEngine.v ===== *)
(** * Memtable and SSTable lookup

    [class LSMstorageEngine] of [src/caching/MemTable_SSTable_Lookup.cpp]: a
    memtable flushed to a new SSTable when it reaches a threshold, and a read path
    that looks in the memtable and then in the SSTables from newest to oldest.
    The storage engines of [KVstore.v] and [LSMWritePath.v] add a write-ahead log
    to the same memtable and SSTables and reuse the lemmas of this file. *)
From S2P Require Import Prelude SSTable.
Local Open Scope string_scope.
Local Open Scope list_scope.
Local Open Scope nat_scope.

(** ** The engine *)

Record LSMstorageEngine := {
  memTable : gmap string string;
  sstables : list SSTable;              (* in creation order, newest last *)
  memTable_Flush_Threshold : Z
}.

Definition new_engine (flush_threshold : Z) : LSMstorageEngine :=
  {| memTable := ∅; sstables := []; memTable_Flush_Threshold := flush_threshold |}.

Definition flush_memTable_toDisk (e : LSMstorageEngine) : LSMstorageEngine :=
  {| memTable := ∅;
     sstables := sstables e ++ [SSTable_make (memTable e)];
     memTable_Flush_Threshold := memTable_Flush_Threshold e |}.

(** [memTable[key] = value] *)
Definition set_memTable (key value : string) (e : LSMstorageEngine) : LSMstorageEngine :=
  {| memTable := <[key := value]> (memTable e);
     sstables := sstables e;
     memTable_Flush_Threshold := memTable_Flush_Threshold e |}.

(** [memTable.size() >= memTable_Flush_Threshold]: the [int] threshold is
    converted to [size_t]. *)
Definition memTable_full (e : LSMstorageEngine) : bool :=
  (to_size_t (memTable_Flush_Threshold e) <=? size (memTable e))%Z.

Definition insertKeyValue (e : LSMstorageEngine) (key value : string) : LSMstorageEngine :=
  let e := set_memTable key value e in
  if memTable_full e then flush_memTable_toDisk e else e.

(** The loop over [sstables.rbegin() .. sstables.rend()]: the first answer that
    differs from the sentinel is returned. *)
Fixpoint search_newest_first (ts : list SSTable) (key : string) : option string :=
  match ts with
  | [] => Some NOT_FOUND
  | t :: ts =>
      val ← searchKey t key;
      if String.eqb val NOT_FOUND then search_newest_first ts key else Some val
  end.

Definition readKey (e : LSMstorageEngine) (key : string) : option string :=
  match memTable e !! key with
  | Some v => Some v
  | None => search_newest_first (rev (sstables e)) key
  end.

(** ** The map an engine stands for: newer tables hide older ones *)

Fixpoint tables_map (newest_first : list SSTable) : gmap string string :=
  match newest_first with
  | [] => ∅
  | t :: ts => sst_map t ∪ tables_map ts
  end.

Definition engine_map (e : LSMstorageEngine) : gmap string string :=
  memTable e ∪ tables_map (rev (sstables e)).

(** Values different from the sentinel, which the read path cannot tell from a
    missing key. *)
Definition no_sentinel (m : gmap string string) : Prop := map_Forall (λ _ v, v ≠ NOT_FOUND) m.

(** A table written by a flush, small enough for the [int] indices of the
    search. *)
Definition table_ok (t : SSTable) : Prop :=
  ∃ m, t = SSTable_make m ∧ (size m ≤ INT_MAX)%Z ∧ no_sentinel m.

Definition engine_ok (n : Z) (e : LSMstorageEngine) : Prop :=
  (size (memTable e) ≤ n)%Z ∧ no_sentinel (memTable e) ∧ Forall table_ok (sstables e).

Lemma table_ok_map t : table_ok t → t = SSTable_make (sst_map t) ∧
  (size (sst_map t) ≤ INT_MAX)%Z ∧ no_sentinel (sst_map t).
Proof. intros (m & -> & ? & ?). by rewrite sst_map_make. Qed.

Lemma search_newest_first_spec ts key :
  Forall table_ok ts →
  search_newest_first ts key = Some (default NOT_FOUND (tables_map ts !! key)).
Proof.
  induction 1 as [|t ts Ht _ IH]; simpl; [by rewrite lookup_empty|].
  destruct (table_ok_map t Ht) as (Heq & Hsz & Hns).
  rewrite Heq at 1. rewrite searchKey_lookup by done. simpl.
  rewrite lookup_union. destruct (sst_map t !! key) as [v|] eqn:Hv; simpl.
  - rewrite (proj2 (String.eqb_neq v NOT_FOUND)) by (by eapply Hns).
    by destruct (tables_map ts !! key).
  - rewrite IH. by destruct (tables_map ts !! key).
Qed.

(** The read path computes the lookup in the abstract map. *)
Lemma readKey_spec n e key :
  engine_ok n e → readKey e key = Some (default NOT_FOUND (engine_map e !! key)).
Proof.
  intros (_ & Hns & Hts). unfold readKey, engine_map. rewrite lookup_union.
  destruct (memTable e !! key) as [v|] eqn:Hv; simpl.
  - by destruct (tables_map _ !! key).
  - rewrite search_newest_first_spec by (by apply Forall_rev). by destruct (tables_map _ !! key).
Qed.

Lemma flush_map e : engine_map (flush_memTable_toDisk e) = engine_map e.
Proof.
  unfold engine_map, flush_memTable_toDisk. simpl. rewrite rev_unit. simpl.
  by rewrite sst_map_make, (left_id ∅ (∪)).
Qed.

Lemma set_memTable_map key value e :
  engine_map (set_memTable key value e) = <[key := value]> (engine_map e).
Proof. unfold engine_map, set_memTable. simpl. by rewrite insert_union_l. Qed.

Lemma insertKeyValue_map e key value :
  engine_map (insertKeyValue e key value) = <[key := value]> (engine_map e).
Proof.
  unfold insertKeyValue. case_match; [rewrite flush_map|]; apply set_memTable_map.
Qed.

Lemma flush_ok n e : engine_ok n e → (n ≤ INT_MAX)%Z → engine_ok 0 (flush_memTable_toDisk e).
Proof.
  intros (Hsz & Hns & Hts) Hn. repeat split; simpl.
  - rewrite map_size_empty. lia.
  - apply map_Forall_empty.
  - apply Forall_app. split; [done|]. apply Forall_singleton.
    exists (memTable e). split_and!; [done|lia|done].
Qed.

Lemma set_memTable_ok n e key value :
  value ≠ NOT_FOUND → engine_ok n e → engine_ok (n + 1) (set_memTable key value e).
Proof.
  intros Hv (Hsz & Hns & Hts). repeat split; simpl; [|by apply map_Forall_insert_2|done].
  destruct (memTable e !! key) as [v|] eqn:Hk.
  - rewrite map_size_insert_Some by done. lia.
  - rewrite map_size_insert_None by done. lia.
Qed.

Lemma engine_ok_mono n n' e : (n ≤ n')%Z → engine_ok n e → engine_ok n' e.
Proof. intros ? (? & ? & ?). repeat split; [lia|done..]. Qed.

(** The memtable stays below the threshold: an insert that would reach it
    flushes. *)
Lemma insertKeyValue_ok e key value :
  value ≠ NOT_FOUND → (0 ≤ memTable_Flush_Threshold e < INT_MAX)%Z →
  engine_ok (memTable_Flush_Threshold e) e →
  engine_ok (memTable_Flush_Threshold e) (insertKeyValue e key value).
Proof.
  intros Hv Hth Hok. unfold insertKeyValue.
  pose proof (set_memTable_ok _ _ key _ Hv Hok) as Hok'.
  destruct (memTable_full (set_memTable key value e)) eqn:Hfull.
  - apply (engine_ok_mono 0); [lia|]. eapply flush_ok; [done|lia].
  - unfold memTable_full in Hfull. simpl in Hfull. apply Z.leb_gt in Hfull.
    rewrite to_size_t_id in Hfull by lia. destruct Hok' as (_ & ? & ?).
    repeat split; [simpl in *; lia|done..].
Qed.

Lemma insertKeyValue_threshold e key value :
  memTable_Flush_Threshold (insertKeyValue e key value) = memTable_Flush_Threshold e.
Proof. unfold insertKeyValue. by case_match. Qed.

(** ** Sequences of writes *)

Definition insert_all (kvs : list (string * string)) (e : LSMstorageEngine) : LSMstorageEngine :=
  fold_left (λ e kv, insertKeyValue e kv.1 kv.2) kvs e.

(** What a sequence of writes means: the last write of a key wins. *)
Definition writes_map (kvs : list (string * string)) (m : gmap string string) : gmap string string :=
  fold_left (λ m kv, <[kv.1 := kv.2]> m) kvs m.

Lemma insert_all_spec kvs e :
  (0 ≤ memTable_Flush_Threshold e < INT_MAX)%Z →
  engine_ok (memTable_Flush_Threshold e) e → Forall (λ kv, kv.2 ≠ NOT_FOUND) kvs →
  engine_ok (memTable_Flush_Threshold e) (insert_all kvs e) ∧
  engine_map (insert_all kvs e) = writes_map kvs (engine_map e).
Proof.
  intros Hth Hok Hkvs. revert e Hth Hok.
  induction Hkvs as [|kv kvs Hkv _ IH]; intros e Hth Hok; simpl; [done|].
  rewrite <-(insertKeyValue_threshold e kv.1 kv.2), <-insertKeyValue_map in *.
  apply IH; rewrite insertKeyValue_threshold in *; [done|].
  by apply insertKeyValue_ok.
Qed.

Lemma new_engine_ok n th : (0 ≤ n)%Z → engine_ok n (new_engine th).
Proof.
  intros ?. repeat split; simpl; [|apply map_Forall_empty|done].
  rewrite map_size_empty. lia.
Qed.



(** A stored value equal to the sentinel is hidden: once it has been flushed,
    the read path skips it and answers the older value of the key. *)
Theorem sentinel_value_reads_stale :
  readKey (insert_all [("k", "old"); ("k", NOT_FOUND)] (new_engine 1)) "k" = Some "old".
Proof. vm_compute. reflexivity. Qed.
