(* ===== verification/KVstore.v ===== *)
(** * The key-value store with a write-ahead log

    [src/storage/KVstore.cpp]: [class WAL] (an append-only text file of
    "key value" lines) and [class KVstore] (memtable, SSTables and WAL).  A write
    goes to the log first and to the memtable second; constructing a [KVstore]
    replays the log.  A crash loses the memtable and the SSTables (both live in
    memory) and keeps the file. *)
From S2P Require Import Prelude Streams SSTable LSMEngine.
Local Open Scope string_scope.
Local Open Scope list_scope.
Local Open Scope nat_scope.

(** ** The log file *)

(** The contents of the file named [log_file]. *)
Record WAL := { log_contents : string }.

(** [ofs << key << " " << value << endl], with the file opened for appending. *)
Definition WAL_append (w : WAL) (key value : string) : WAL :=
  {| log_contents := log_contents w +:+ (key +:+ (" " +:+ (value +:+ newline))) |}.

(** [while (ifs >> key >> value) logs.push_back({key, value})]; [None] is
    exhausted fuel. *)
Fixpoint WAL_recover_loop (fuel : nat) (ifs : string) : option (list (string * string)) :=
  match fuel with
  | O => None
  | S fuel =>
      match read_word ifs with
      | None => Some []
      | Some (key, ifs) =>
          match read_word ifs with
          | None => Some []
          | Some (value, ifs) =>
              logs ← WAL_recover_loop fuel ifs; Some ((key, value) :: logs)
          end
      end
  end.

Definition WAL_recover (w : WAL) : option (list (string * string)) :=
  WAL_recover_loop (S (String.length (log_contents w))) (log_contents w).

(** Each iteration consumes input, so the fuel of [WAL_recover] is enough on any
    file. *)
Lemma WAL_recover_loop_total fuel ifs :
  String.length ifs < fuel → is_Some (WAL_recover_loop fuel ifs).
Proof.
  revert ifs. induction fuel as [|fuel IH]; intros ifs Hf; [lia|]. simpl.
  destruct (read_word ifs) as [[key r]|] eqn:Hk; [|eauto].
  destruct (read_word r) as [[value r']|] eqn:Hv; [|eauto].
  apply read_word_length in Hk, Hv.
  destruct (IH r') as [logs ->]; [lia|]. eauto.
Qed.

(** The text of a list of records. *)
Fixpoint log_text (kvs : list (string * string)) : string :=
  match kvs with
  | [] => ""
  | kv :: kvs => kv.1 +:+ (" " +:+ (kv.2 +:+ (newline +:+ log_text kvs)))
  end.

Definition words (kv : string * string) : Prop := is_word kv.1 ∧ is_word kv.2.

Lemma log_text_snoc kvs kv :
  log_text (kvs ++ [kv]) = log_text kvs +:+ (kv.1 +:+ (" " +:+ (kv.2 +:+ newline))).
Proof.
  induction kvs as [|kv' kvs IH]; simpl; [done|].
  rewrite IH. by rewrite !string_app_assoc; simpl; rewrite !string_app_assoc.
Qed.

Lemma WAL_recover_loop_skip fuel c s :
  is_space c = true → WAL_recover_loop fuel (String c s) = WAL_recover_loop fuel s.
Proof. intros Hc. destruct fuel; simpl; [done|]. by rewrite read_word_skip. Qed.

Lemma WAL_recover_loop_text fuel kvs :
  Forall words kvs → String.length (log_text kvs) < fuel →
  WAL_recover_loop fuel (log_text kvs) = Some kvs.
Proof.
  intros Hkvs. revert fuel. induction Hkvs as [|[k v] kvs [Hk Hv] _ IH]; intros fuel Hf.
  { destruct fuel; [lia|]. done. }
  destruct fuel as [|f]; [lia|]. cbn [WAL_recover_loop log_text fst snd] in *.
  repeat (rewrite string_app_length in Hf; simpl in Hf).
  rewrite read_word_app by done. simpl.
  rewrite read_word_skip, read_word_app by done.
  rewrite WAL_recover_loop_skip, IH by (done || lia). done.
Qed.

(** Recovery reads back what was appended. *)
Lemma WAL_recover_text kvs :
  Forall words kvs → WAL_recover {| log_contents := log_text kvs |} = Some kvs.
Proof. intros Hkvs. apply WAL_recover_loop_text; [done|]. simpl. lia. Qed.

Lemma WAL_append_text kvs k v :
  WAL_append {| log_contents := log_text kvs |} k v = {| log_contents := log_text (kvs ++ [(k, v)]) |}.
Proof. unfold WAL_append. by rewrite log_text_snoc. Qed.

Lemma word_not_sentinel v : is_word v → v ≠ NOT_FOUND.
Proof. by intros Hv ->. Qed.

(** ** The store *)

Record KVstore := { engine : LSMstorageEngine; wal : WAL }.

(** [static const int memTable_Flush_Threshold = 3] *)
Definition KV_Flush_Threshold : Z := 3.

(** [recover()]: replay the log into the memtable.  No flush happens here. *)
Definition KV_recover (e : LSMstorageEngine) (logs : list (string * string)) : LSMstorageEngine :=
  fold_left (λ e kv, set_memTable kv.1 kv.2 e) logs e.

(** The constructor, on the file's contents. *)
Definition KV_make (w : WAL) : option KVstore :=
  logs ← WAL_recover w;
  Some {| engine := KV_recover (new_engine KV_Flush_Threshold) logs; wal := w |}.

(** [insertKeyValue]: log, memtable, flush. *)
Definition KV_insertKeyValue (s : KVstore) (key value : string) : KVstore :=
  {| wal := WAL_append (wal s) key value;
     engine := insertKeyValue (engine s) key value |}.

Definition KV_readKey (s : KVstore) (key : string) : option string := readKey (engine s) key.

(** ** Writes and crashes *)

(** A client either writes or loses the process: after a crash the store is
    constructed again from the file. *)
Inductive kv_op := Insert (key value : string) | Crash.

Definition kv_step (s : KVstore) (o : kv_op) : option KVstore :=
  match o with
  | Insert key value => Some (KV_insertKeyValue s key value)
  | Crash => KV_make (wal s)
  end.

(** The writes of a sequence of operations, in order. *)
Fixpoint kv_writes (ops : list kv_op) : list (string * string) :=
  match ops with
  | [] => []
  | Insert k v :: ops => (k, v) :: kv_writes ops
  | Crash :: ops => kv_writes ops
  end.

(** The file holds the text of all writes and the engine stands for their
    effect. *)
Definition kv_inv (kvs : list (string * string)) (s : KVstore) : Prop :=
  wal s = {| log_contents := log_text kvs |} ∧
  engine_map (engine s) = writes_map kvs ∅ ∧
  memTable_Flush_Threshold (engine s) = KV_Flush_Threshold ∧
  engine_ok (length kvs) (engine s).

Lemma writes_map_snoc kvs kv m : writes_map (kvs ++ [kv]) m = <[kv.1 := kv.2]> (writes_map kvs m).
Proof. unfold writes_map. by rewrite fold_left_app. Qed.

Lemma KV_recover_spec logs (n : Z) e :
  Forall words logs → engine_ok n e →
  engine_map (KV_recover e logs) = writes_map logs (engine_map e) ∧
  memTable_Flush_Threshold (KV_recover e logs) = memTable_Flush_Threshold e ∧
  engine_ok (n + length logs) (KV_recover e logs).
Proof.
  intros Hlogs. revert n e. induction Hlogs as [|kv logs [_ Hv] _ IH]; intros n e Hok; simpl.
  - split_and!; [done..|]. by rewrite Z.add_0_r.
  - apply word_not_sentinel in Hv.
    destruct (IH (n + 1)%Z (set_memTable kv.1 kv.2 e)) as (-> & -> & Hok').
    { by apply set_memTable_ok. }
    rewrite set_memTable_map. split_and!; [done..|].
    by replace (n + S (length logs))%Z with (n + 1 + length logs)%Z by lia.
Qed.

Lemma kv_inv_make kvs w :
  Forall words kvs → w = {| log_contents := log_text kvs |} →
  ∃ s, KV_make w = Some s ∧ kv_inv kvs s.
Proof.
  intros Hkvs ->. unfold KV_make. rewrite WAL_recover_text by done. simpl.
  eexists. split; [done|].
  destruct (KV_recover_spec kvs 0 (new_engine KV_Flush_Threshold)) as (? & ? & ?); [done| |].
  - by apply new_engine_ok.
  - by split_and!.
Qed.

Lemma kv_inv_insert kvs s k v :
  (length kvs < INT_MAX)%Z → words (k, v) → kv_inv kvs s →
  kv_inv (kvs ++ [(k, v)]) (KV_insertKeyValue s k v).
Proof.
  intros Hlen [_ Hv] (Hw & Hm & Hth & Hok). apply word_not_sentinel in Hv. simpl in Hv.
  unfold KV_insertKeyValue. split_and!; simpl.
  - by rewrite Hw, WAL_append_text.
  - by rewrite insertKeyValue_map, writes_map_snoc, Hm.
  - by rewrite insertKeyValue_threshold.
  - rewrite length_app. simpl. unfold insertKeyValue.
    pose proof (set_memTable_ok _ _ k _ Hv Hok) as Hok'.
    case_match; [apply (engine_ok_mono 0); [lia|]; apply (flush_ok (length kvs + 1)); [done|lia]|].
    by apply (engine_ok_mono (length kvs + 1)); [lia|].
Qed.

(** Every run of writes and crashes is defined and ends in a state that stands
    for the writes made so far. *)
Lemma kv_run ops kvs s :
  (length (kvs ++ kv_writes ops) ≤ INT_MAX)%Z → Forall words (kvs ++ kv_writes ops) →
  kv_inv kvs s → ∃ s', run_ops kv_step s ops = Some s' ∧ kv_inv (kvs ++ kv_writes ops) s'.
Proof.
  revert kvs s. induction ops as [|[k v|] ops IH]; intros kvs s Hlen Hkvs Hinv; simpl in *.
  - rewrite app_nil_r. eauto.
  - replace (kvs ++ (k, v) :: kv_writes ops) with ((kvs ++ [(k, v)]) ++ kv_writes ops) in *
      by (by rewrite <-app_assoc).
    apply IH; [done..|]. rewrite !Forall_app, Forall_singleton in Hkvs.
    rewrite !length_app in Hlen. simpl in Hlen.
    apply kv_inv_insert; [lia|tauto|done].
  - destruct (kv_inv_make kvs (wal s)) as (s' & -> & Hinv').
    + by apply Forall_app in Hkvs as [? _].
    + apply Hinv.
    + simpl. by apply IH.
Qed.

(** C1: durability.  Whatever writes and crashes a client of the store makes,
    starting from an empty log file, every recovery succeeds and a read returns the
    value of the last write of the key: no acknowledged write of blank-free keys and
    values is lost by a crash. *)
Theorem kvstore_durable (ops : list kv_op) (key : string) :
  (length (kv_writes ops) ≤ INT_MAX)%Z → Forall words (kv_writes ops) →
  ∃ s0 s, KV_make {| log_contents := "" |} = Some s0 ∧ run_ops kv_step s0 ops = Some s ∧
    KV_readKey s key = Some (default NOT_FOUND (writes_map (kv_writes ops) ∅ !! key)).
Proof.
  intros Hlen Hkvs. destruct (kv_inv_make [] {| log_contents := "" |}) as (s0 & H0 & Hinv); [done..|].
  destruct (kv_run ops [] s0 Hlen Hkvs Hinv) as (s & Hrun & _ & Hmap & _ & Hok).
  exists s0, s. split_and!; [done..|]. unfold KV_readKey.
  by rewrite (readKey_spec _ _ _ Hok), Hmap.
Qed.

Lemma kvstore_durable_witness :
  ∃ s0 s, KV_make {| log_contents := "" |} = Some s0 ∧
    run_ops kv_step s0 [Insert "a" "1"; Insert "b" "2"; Crash; Insert "a" "3"] = Some s ∧
    KV_readKey s "a" = Some "3".
Proof.
  apply (kvstore_durable [Insert "a" "1"; Insert "b" "2"; Crash; Insert "a" "3"] "a").
  - vm_compute. discriminate.
  - repeat (apply Forall_cons; split; [split; reflexivity|]). apply Forall_nil. exact I.
Defined.
