(* ===== verification/LSMWritePath.v ===== *)
(** * The LSM write path

    [src/multi-stage-pipeline/LSM_WritePath_StorageEngine.cpp].  The file repeats
    the classes [WAL] and [SSTable] of [KVstore.cpp] word for word; its [KVstore]
    differs in [recover()], which flushes the memtable whenever the threshold is
    reached during the replay.  The definitions below name the repeated methods
    after this file and model the different one. *)
From S2P Require Import Prelude Streams SSTable LSMEngine KVstore.
Local Open Scope string_scope.
Local Open Scope list_scope.
Local Open Scope nat_scope.

(** ** The repeated classes *)

Definition LSM_WAL_append : WAL → string → string → WAL := WAL_append.
Definition LSM_WAL_recover : WAL → option (list (string * string)) := WAL_recover.
Definition LSM_SSTable_make : gmap string string → SSTable := SSTable_make.
Definition LSM_searchKey : SSTable → string → option string := searchKey.

(** ** The store *)

Record LSM := { lsm_engine : LSMstorageEngine; lsm_wal : WAL }.

Definition LSM_Flush_Threshold : Z := 3.

(** [recover()]: write each record to the memtable and flush it when full. *)
Definition LSM_recover (e : LSMstorageEngine) (logs : list (string * string)) : LSMstorageEngine :=
  fold_left (λ e kv,
    let e := set_memTable kv.1 kv.2 e in
    if memTable_full e then flush_memTable_toDisk e else e) logs e.

Definition LSM_make (w : WAL) : option LSM :=
  logs ← LSM_WAL_recover w;
  Some {| lsm_engine := LSM_recover (new_engine LSM_Flush_Threshold) logs; lsm_wal := w |}.

Definition LSM_insertKeyValue (s : LSM) (key value : string) : LSM :=
  let w := LSM_WAL_append (lsm_wal s) key value in
  let e := set_memTable key value (lsm_engine s) in
  {| lsm_wal := w; lsm_engine := if memTable_full e then flush_memTable_toDisk e else e |}.

Definition LSM_readKey (s : LSM) (key : string) : option string := readKey (lsm_engine s) key.

Definition lsm_step (s : LSM) (o : kv_op) : option LSM :=
  match o with
  | Insert key value => Some (LSM_insertKeyValue s key value)
  | Crash => LSM_make (lsm_wal s)
  end.

(** ** Replay *)

(** The state reached by the writes of a log, without crashes. *)
Definition lsm_after (kvs : list (string * string)) : LSM :=
  {| lsm_wal := {| log_contents := log_text kvs |};
     lsm_engine := insert_all kvs (new_engine LSM_Flush_Threshold) |}.

Lemma LSM_recover_insert_all logs e : LSM_recover e logs = insert_all logs e.
Proof. done. Qed.

Lemma lsm_after_insert kvs k v :
  LSM_insertKeyValue (lsm_after kvs) k v = lsm_after (kvs ++ [(k, v)]).
Proof.
  unfold LSM_insertKeyValue, lsm_after, LSM_WAL_append. simpl. rewrite WAL_append_text. f_equal.
  unfold insert_all. by rewrite fold_left_app.
Qed.

Lemma lsm_after_crash kvs :
  Forall words kvs → LSM_make (lsm_wal (lsm_after kvs)) = Some (lsm_after kvs).
Proof. intros ?. unfold LSM_make, LSM_WAL_recover. simpl. by rewrite WAL_recover_text. Qed.

Lemma lsm_run ops kvs :
  Forall words (kvs ++ kv_writes ops) →
  run_ops lsm_step (lsm_after kvs) ops = Some (lsm_after (kvs ++ kv_writes ops)).
Proof.
  revert kvs. induction ops as [|[k v|] ops IH]; intros kvs Hkvs; cbn [kv_writes run_ops].
  - by rewrite app_nil_r.
  - cbn [kv_writes] in Hkvs.
    replace (kvs ++ (k, v) :: kv_writes ops) with ((kvs ++ [(k, v)]) ++ kv_writes ops) in *
      by (by rewrite <-app_assoc).
    cbn [lsm_step mbind option_bind]. rewrite lsm_after_insert. by apply IH.
  - cbn [lsm_step]. rewrite lsm_after_crash by (by apply Forall_app in Hkvs as [? _]).
    by apply IH.
Qed.


