(* ===== verification/WALrecovery.v ===== *)
(** * Write-ahead log with log sequence numbers

    [src/storage/WALrecovery.cpp]: every PUT or DELETE is appended to a text log
    with its LSN before it reaches the memtable; constructing a [KVstore] replays
    the log.  [recover()] keeps its variable [value] across iterations and across a
    failed extraction, as the source does. *)
From S2P Require Import Prelude Streams.
Local Open Scope string_scope.
Local Open Scope list_scope.
Local Open Scope nat_scope.

(** ** Log records *)

Inductive RecordType := PUT | DELETE_OP.

#[export] Instance RecordType_eq_dec : EqDecision RecordType.
Proof. solve_decision. Defined.

Record LogRecord := { lsn : Z; record_type : RecordType; key : string; value : string }.

Record WAL := { log_contents : string; next_lsn : Z }.

(** [WAL(filename)] on a file with the given contents. *)
Definition WAL_make (contents : string) : WAL := {| log_contents := contents; next_lsn := 1 |}.

Definition type_text (t : RecordType) : string :=
  match t with PUT => "PUT" | DELETE_OP => "DELETE" end.

Definition record_text (n : Z) (t : RecordType) (k v : string) : string :=
  show_int n +:+ (" " +:+ (type_text t +:+ (" " +:+ (k +:+ (" " +:+ (v +:+ newline)))))).

Definition append (w : WAL) (t : RecordType) (k v : string) : WAL :=
  {| log_contents := log_contents w +:+ record_text (next_lsn w) t k v;
     next_lsn := next_lsn w + 1 |}.

(** The loop [while (ifs >> lsn >> op_type >> key)]: [value] and [next_lsn] are
    the variables it carries; a failed [ifs >> value] leaves [value] unchanged and
    ends the loop after the record has been pushed. [None] is exhausted fuel. *)
Fixpoint recover_loop (fuel : nat) (ifs : string) (val : string) (next : Z) :
    option (list LogRecord * Z) :=
  match fuel with
  | O => None
  | S fuel =>
      match read_int ifs with
      | None => Some ([], next)
      | Some (n, ifs) =>
      match read_word ifs with
      | None => Some ([], next)
      | Some (op_type, ifs) =>
      match read_word ifs with
      | None => Some ([], next)
      | Some (k, ifs) =>
          let '(val, rest) :=
            if String.eqb op_type "PUT" then
              match read_word ifs with
              | None => (val, None)
              | Some (v, ifs) => (v, Some ifs)
              end
            else (val, Some ifs) in
          let rec := {| lsn := n;
                        record_type := if String.eqb op_type "PUT" then PUT else DELETE_OP;
                        key := k; value := val |} in
          let next := Z.max next (n + 1) in
          match rest with
          | None => Some ([rec], next)
          | Some ifs =>
              '(recs, next) ← recover_loop fuel ifs val next; Some (rec :: recs, next)
          end
      end end end
  end.

Definition recover (w : WAL) : option (list LogRecord * WAL) :=
  '(recs, next) ← recover_loop (S (String.length (log_contents w))) (log_contents w) "" (next_lsn w);
  Some (recs, {| log_contents := log_contents w; next_lsn := next |}).

(** ** The store *)

Record KVstore := { memtable : gmap string string; wal : WAL }.

Definition replay_record (m : gmap string string) (rec : LogRecord) : gmap string string :=
  match record_type rec with
  | PUT => <[key rec := value rec]> m
  | DELETE_OP => delete (key rec) m
  end.

(** The constructor: [replay()] on the recovered records. *)
Definition KVstore_make (contents : string) : option KVstore :=
  '(recs, w) ← recover (WAL_make contents);
  Some {| memtable := fold_left replay_record recs ∅; wal := w |}.

Definition get (s : KVstore) (k : string) : string :=
  match memtable s !! k with
  | None => "NOT_FOUND!"
  | Some v => v
  end.

Definition put (s : KVstore) (k v : string) : KVstore :=
  {| wal := append (wal s) PUT k v; memtable := <[k := v]> (memtable s) |}.

Definition remove (s : KVstore) (k : string) : KVstore :=
  {| wal := append (wal s) DELETE_OP k ""; memtable := delete k (memtable s) |}.

(** [checkPoint()] only prints. *)
Definition checkPoint (s : KVstore) : KVstore := s.

(** ** Termination of recovery on any file *)

Lemma recover_loop_total fuel ifs val next :
  String.length ifs < fuel → is_Some (recover_loop fuel ifs val next).
Proof.
  revert ifs val next. induction fuel as [|fuel IH]; intros ifs val next Hf; [lia|]. simpl.
  destruct (read_int ifs) as [[n r]|] eqn:Hn; [|eauto]. apply read_int_length in Hn.
  destruct (read_word r) as [[op r1]|] eqn:Hop; [|eauto]. apply read_word_length in Hop.
  destruct (read_word r1) as [[k r2]|] eqn:Hk; [|eauto]. apply read_word_length in Hk.
  destruct (String.eqb op "PUT").
  - destruct (read_word r2) as [[v r3]|] eqn:Hv; [|eauto]. apply read_word_length in Hv.
    destruct (IH r3 v (Z.max next (n + 1))) as [[recs nx] ->]; [lia|eauto].
  - destruct (IH r2 val (Z.max next (n + 1))) as [[recs nx] ->]; [lia|eauto].
Qed.

(** ** Writes, deletes and crashes *)

Inductive wal_op := Put (k v : string) | Remove (k : string).

Definition op_ok (o : wal_op) : Prop :=
  match o with Put k v => is_word k ∧ is_word v | Remove k => is_word k end.

Definition op_text (n : Z) (o : wal_op) : string :=
  match o with Put k v => record_text n PUT k v | Remove k => record_text n DELETE_OP k "" end.

Definition op_apply (m : gmap string string) (o : wal_op) : gmap string string :=
  match o with Put k v => <[k := v]> m | Remove k => delete k m end.

Definition do_op (s : KVstore) (o : wal_op) : KVstore :=
  match o with Put k v => put s k v | Remove k => remove s k end.

(** The text of the operations numbered from [n]. *)
Fixpoint ops_text (n : Z) (ops : list wal_op) : string :=
  match ops with
  | [] => ""
  | o :: ops => op_text n o +:+ ops_text (n + 1) ops
  end.

Lemma ops_text_snoc n ops o :
  ops_text n (ops ++ [o]) = ops_text n ops +:+ op_text (n + length ops) o.
Proof.
  revert n. induction ops as [|o' ops IH]; intros n; simpl.
  - by rewrite string_app_nil_r, Z.add_0_r.
  - rewrite IH, string_app_assoc. do 3 f_equal. lia.
Qed.

Lemma recover_loop_skip fuel c s val next :
  is_space c = true → recover_loop fuel (String c s) val next = recover_loop fuel s val next.
Proof. intros Hc. destruct fuel; simpl; [done|]. by rewrite read_int_skip. Qed.

Lemma ops_text_length n ops : length ops ≤ String.length (ops_text n ops).
Proof.
  revert n. induction ops as [|o ops IH]; intros n; simpl; [lia|].
  rewrite string_app_length. specialize (IH (n + 1)%Z).
  destruct o; simpl; unfold record_text; repeat (rewrite string_app_length; simpl); lia.
Qed.

(** One record of the log is read back whatever follows it. *)
Lemma recover_loop_op fuel n o rest val next :
  op_ok o → (0 ≤ n ≤ INT_MAX)%Z →
  ∃ rec val', (∀ m, replay_record m rec = op_apply m o) ∧ lsn rec = n ∧
    recover_loop (S fuel) (op_text n o +:+ rest) val next =
    '(recs, nx) ← recover_loop fuel rest val' (Z.max next (n + 1)); Some (rec :: recs, nx).
Proof.
  intros Hok Hn.
  destruct o as [k v|k]; simpl in Hok; cbn [recover_loop op_text]; unfold record_text;
    rewrite !string_app_assoc;
    (rewrite read_show_int; [|lia|unfold int_ok, INT_MIN in *; lia|done]);
    rewrite read_word_blank, read_word_app, read_word_blank, read_word_app by (done || apply Hok).
  - rewrite read_word_blank, read_word_app by (done || apply Hok). simpl.
    rewrite recover_loop_skip by done.
    eexists {| lsn := n; record_type := PUT; key := k; value := v |}, v. by split_and!.
  - simpl. rewrite !recover_loop_skip by done.
    eexists {| lsn := n; record_type := DELETE_OP; key := k; value := val |}, val. by split_and!.
Qed.

Lemma recover_loop_text fuel n ops val next :
  Forall op_ok ops → (0 ≤ n)%Z → (n + length ops ≤ INT_MAX)%Z → length ops < fuel →
  (next ≤ n)%Z →
  ∃ recs, recover_loop fuel (ops_text n ops) val next =
      Some (recs, if decide (ops = []) then next else (n + length ops)%Z) ∧
    lsn <$> recs = Z.of_nat <$> seq (Z.to_nat n) (length ops) ∧
    ∀ m, fold_left replay_record recs m = fold_left op_apply ops m.
Proof.
  intros Hops. revert n fuel val next.
  induction Hops as [|o ops Ho _ IH]; intros n fuel val next H0 Hn Hf Hnext.
  { destruct fuel; [simpl in Hf; lia|]. exists []. done. }
  destruct fuel as [|fuel]; [simpl in Hf; lia|]. simpl in Hn, Hf. cbn [ops_text].
  destruct (recover_loop_op fuel n o (ops_text (n + 1) ops) val next) as (rec & val' & Hrec & Hlsn & ->);
    [done|lia|].
  destruct (IH (n + 1)%Z fuel val' (Z.max next (n + 1))) as (recs & -> & Hl & Hr); [lia..|].
  exists (rec :: recs). csimpl. split_and!.
  - do 2 f_equal. repeat case_decide; simplify_eq/=; lia.
  - rewrite Hl, Hlsn. f_equal; [lia|]. do 2 f_equal. lia.
  - intros m. by rewrite Hrec, Hr.
Qed.

(** ** Runs with crashes *)

Inductive client_op := Do (o : wal_op) | Crash.

Definition client_step (s : KVstore) (o : client_op) : option KVstore :=
  match o with
  | Do o => Some (do_op s o)
  | Crash => KVstore_make (log_contents (wal s))
  end.

Fixpoint client_ops (ops : list client_op) : list wal_op :=
  match ops with
  | [] => []
  | Do o :: ops => o :: client_ops ops
  | Crash :: ops => client_ops ops
  end.

(** The state that stands for a history of operations. *)
Definition store_after (ops : list wal_op) : KVstore :=
  {| memtable := fold_left op_apply ops ∅;
     wal := {| log_contents := ops_text 1 ops; next_lsn := 1 + length ops |} |}.

Lemma store_after_op ops o : do_op (store_after ops) o = store_after (ops ++ [o]).
Proof.
  unfold store_after. rewrite fold_left_app, ops_text_snoc, length_app.
  destruct o; unfold do_op, put, remove, append; simpl; do 2 f_equal; lia.
Qed.

Lemma store_after_recover ops :
  Forall op_ok ops → (length ops < INT_MAX)%Z →
  KVstore_make (ops_text 1 ops) = Some (store_after ops).
Proof.
  intros Hok Hlen. unfold KVstore_make, recover. cbn [log_contents next_lsn WAL_make].
  destruct (recover_loop_text (S (String.length (ops_text 1 ops))) 1 ops "" 1)
    as (recs & -> & _ & Hr); [done|lia|lia| |lia|].
  - pose proof (ops_text_length 1 ops). lia.
  - simpl. unfold store_after. rewrite Hr. do 3 f_equal. by case_decide; subst.
Qed.

Lemma client_run ops hist :
  Forall op_ok (hist ++ client_ops ops) → (length (hist ++ client_ops ops) < INT_MAX)%Z →
  run_ops client_step (store_after hist) ops = Some (store_after (hist ++ client_ops ops)).
Proof.
  revert hist. induction ops as [|[o|] ops IH]; intros hist Hok Hlen; cbn [client_ops run_ops] in *.
  - by rewrite app_nil_r.
  - replace (hist ++ o :: client_ops ops) with ((hist ++ [o]) ++ client_ops ops) in *
      by (by rewrite <-app_assoc).
    cbn [client_step mbind option_bind]. rewrite store_after_op. by apply IH.
  - cbn [client_step store_after wal log_contents]. rewrite store_after_recover.
    + by apply IH.
    + by apply Forall_app in Hok as [? _].
    + rewrite length_app in Hlen. lia.
Qed.

(** C4: recovery.  Under any interleaving of puts, removes and crashes from an
    empty log, with blank-free keys and values, every restart succeeds, the store
    answers as if no crash had happened, and the next log sequence number is one
    more than the number of logged operations: LSNs are never reused. *)
Theorem wal_recovery_correct (ops : list client_op) (k : string) :
  Forall op_ok (client_ops ops) → (length (client_ops ops) < INT_MAX)%Z →
  ∃ s0 s, KVstore_make "" = Some s0 ∧ run_ops client_step s0 ops = Some s ∧
    get s k = default "NOT_FOUND!" (fold_left op_apply (client_ops ops) ∅ !! k) ∧
    next_lsn (wal s) = (1 + length (client_ops ops))%Z.
Proof.
  intros Hok Hlen. exists (store_after []), (store_after (client_ops ops)).
  split_and!; [done|by apply (client_run ops [])| |done].
  unfold get. simpl. by case_match.
Qed.

Lemma wal_recovery_correct_witness :
  ∃ s0 s, KVstore_make "" = Some s0 ∧
    run_ops client_step s0 [Do (Put "apple" "red"); Do (Put "banana" "yellow");
                            Crash; Do (Remove "banana"); Crash] = Some s ∧
    get s "banana" = "NOT_FOUND!" ∧ next_lsn (wal s) = 4%Z.
Proof.
  apply (wal_recovery_correct [Do (Put "apple" "red"); Do (Put "banana" "yellow");
                               Crash; Do (Remove "banana"); Crash] "banana").
  - repeat (apply Forall_cons; split; [repeat split; reflexivity|]). apply Forall_nil. exact I.
  - vm_compute. reflexivity.
Defined.

(** An empty value corrupts the log.  [put("b", "")] writes a line whose value
    field is blank; after a crash the key "b" is recovered with the next line's LSN
    as its value and the later records are lost; when the line is the last one, "b"
    is recovered with the value of the previous record. *)
Theorem empty_value_corrupts_recovery :
  ∃ s0 s1 s2, KVstore_make "" = Some s0 ∧
    run_ops client_step s0 [Do (Put "a" "x"); Do (Put "b" ""); Do (Put "c" "z"); Crash] = Some s1 ∧
    get s1 "b" = "3" ∧ get s1 "c" = "NOT_FOUND!" ∧
    run_ops client_step s0 [Do (Put "a" "x"); Do (Put "b" ""); Crash] = Some s2 ∧
    get s2 "b" = "x".
Proof. do 3 eexists. repeat (split; [vm_compute; reflexivity|]). vm_compute. reflexivity. Qed.
