(* ===== verification/SnapshotManager.v ===== *)
(** * Copy-on-write snapshots with reference counts

    [src/storage/SnapshotManager.cpp]: immutable blocks shared between the current
    file and the snapshots, reclaimed when their reference count reaches zero.
    [blockStore[id]->...] on an identifier that is not in the store dereferences a
    null pointer: those operations are partial, and [None] is that undefined
    behaviour. *)
From S2P Require Import Prelude.
Local Open Scope nat_scope.

(** ** State *)

Record Block := { id : Z; data : string; ref_count : Z }.

Record Snapshot := { version : Z; block_ids : list Z }.

Record SnapshotManager := {
  next_block_id : Z;
  next_version : Z;
  blockStore : gmap Z Block;
  snapshots : gmap Z Snapshot;
  current_blocks : list Z
}.

Definition new_manager : SnapshotManager :=
  {| next_block_id := 1; next_version := 1; blockStore := ∅; snapshots := ∅;
     current_blocks := [] |}.

(** [Block(id, data)] *)
Definition new_block (i : Z) (d : string) : Block := {| id := i; data := d; ref_count := 1 |}.

Definition set_store (m : SnapshotManager) (s : gmap Z Block) : SnapshotManager :=
  {| next_block_id := next_block_id m; next_version := next_version m; blockStore := s;
     snapshots := snapshots m; current_blocks := current_blocks m |}.

(** ** Operations *)

Definition write (m : SnapshotManager) (d : string) : SnapshotManager :=
  let i := next_block_id m in
  {| next_block_id := i + 1; next_version := next_version m;
     blockStore := <[i := new_block i d]> (blockStore m);
     snapshots := snapshots m; current_blocks := current_blocks m ++ [i] |}.

Definition add_ref (b : Block) (n : Z) : Block :=
  {| id := id b; data := data b; ref_count := ref_count b + n |}.

Fixpoint incrementRefCount (s : gmap Z Block) (ids : list Z) : option (gmap Z Block) :=
  match ids with
  | [] => Some s
  | i :: ids => b ← s !! i; incrementRefCount (<[i := add_ref b 1]> s) ids
  end.

Fixpoint decrementRefCount (s : gmap Z Block) (ids : list Z) : option (gmap Z Block) :=
  match ids with
  | [] => Some s
  | i :: ids =>
      b ← s !! i;
      let b := add_ref b (-1) in
      decrementRefCount (if (ref_count b =? 0)%Z then delete i s else <[i := b]> s) ids
  end.

(** The contents read by [readCurrentFile] and [readSnapshot]: the data of the
    blocks in order. *)
Definition read_blocks (s : gmap Z Block) (ids : list Z) : option (list string) :=
  mapM (λ i, data <$> s !! i) ids.

Definition readCurrentFile (m : SnapshotManager) : option (list string) :=
  read_blocks (blockStore m) (current_blocks m).

(** [readSnapshot]: [Some None] is the "Snapshot NOT FOUND" branch. *)
Definition readSnapshot (m : SnapshotManager) (v : Z) : option (option (list string)) :=
  match snapshots m !! v with
  | None => Some None
  | Some sn => Some <$> read_blocks (blockStore m) (block_ids sn)
  end.

Definition createSnapshot (m : SnapshotManager) : option (SnapshotManager * Z) :=
  let v := next_version m in
  s ← incrementRefCount (blockStore m) (current_blocks m);
  Some ({| next_block_id := next_block_id m; next_version := v + 1; blockStore := s;
           snapshots := <[v := {| version := v; block_ids := current_blocks m |}]> (snapshots m);
           current_blocks := current_blocks m |}, v).

Definition restoreSnapshot (m : SnapshotManager) (v : Z) : option SnapshotManager :=
  match snapshots m !! v with
  | None => Some m
  | Some sn =>
      s ← decrementRefCount (blockStore m) (current_blocks m);
      s ← incrementRefCount s (block_ids sn);
      Some {| next_block_id := next_block_id m; next_version := next_version m; blockStore := s;
              snapshots := snapshots m; current_blocks := block_ids sn |}
  end.

Definition deleteSnapshot (m : SnapshotManager) (v : Z) : option SnapshotManager :=
  match snapshots m !! v with
  | None => Some m
  | Some sn =>
      s ← decrementRefCount (blockStore m) (block_ids sn);
      Some {| next_block_id := next_block_id m; next_version := next_version m; blockStore := s;
              snapshots := delete v (snapshots m); current_blocks := current_blocks m |}
  end.

(** [listSnapshots]: the versions, in the unspecified order of the hash table. *)
Definition listSnapshots (m : SnapshotManager) : list Z := (map_to_list (snapshots m)).*1.

(** ** The reference-count invariant *)

(** References held by all snapshots. *)
Abbreviation snap_refs := (refs_in (K := Z) block_ids).

(** The store holds exactly the blocks with a positive number of references, and
    each counter is that number. *)
Definition counts (s : gmap Z Block) (refs : Z → Z) : Prop :=
  ∀ i, match s !! i with
       | Some b => id b = i ∧ ref_count b = refs i ∧ (0 < refs i)%Z
       | None => refs i = 0%Z
       end.

Definition total_refs (m : SnapshotManager) (i : Z) : Z :=
  (occ i (current_blocks m) + snap_refs (snapshots m) i)%Z.

Record snap_inv (m : SnapshotManager) : Prop := {
  inv_counts : counts (blockStore m) (total_refs m);
  inv_blocks : ∀ i b, blockStore m !! i = Some b → (i < next_block_id m)%Z;
  inv_versions : ∀ v sn, snapshots m !! v = Some sn → (v < next_version m)%Z
}.

(** Incrementing the counters of blocks that are all present. *)
Lemma incrementRefCount_counts s ids refs :
  counts s refs → (∀ i, i ∈ ids → (0 < refs i)%Z) →
  ∃ s', incrementRefCount s ids = Some s' ∧ counts s' (λ i, refs i + occ i ids)%Z ∧
    (∀ i, data <$> s' !! i = data <$> s !! i).
Proof.
  revert s refs. induction ids as [|j ids IH]; intros s refs Hc Hin; simpl.
  - exists s. split_and!; [done| |done]. intros i. specialize (Hc i).
    unfold occ. simpl. by rewrite Z.add_0_r.
  - pose proof (Hc j) as Hj. specialize (Hin j) as Hjpos.
    destruct (s !! j) as [b|] eqn:Hb; simpl; [|exfalso; specialize (Hjpos ltac:(left)); lia].
    destruct Hj as (Hid & Href & _).
    destruct (IH (<[j := add_ref b 1]> s) (λ i, refs i + (if decide (i = j) then 1 else 0))%Z)
      as (s' & -> & Hc' & Hd).
    + intros i. destruct (decide (i = j)) as [->|Hne].
      * rewrite lookup_insert_eq. simpl. specialize (Hjpos ltac:(left)). split_and!; lia.
      * rewrite lookup_insert_ne by done. specialize (Hc i). by rewrite Z.add_0_r.
    + intros i Hi. specialize (Hin i ltac:(by right)). case_decide; lia.
    + exists s'. split_and!; [done| |].
      * intros i. specialize (Hc' i). rewrite occ_cons.
        replace (refs i + ((if decide (i = j) then 1 else 0) + occ i ids))%Z
          with (refs i + (if decide (i = j) then 1 else 0) + occ i ids)%Z by lia. done.
      * intros i. rewrite Hd. destruct (decide (i = j)) as [->|];
          [by rewrite lookup_insert_eq, Hb|by rewrite lookup_insert_ne].
Qed.

(** Decrementing: never more often than there are references. *)
Lemma decrementRefCount_counts s ids refs :
  counts s refs → (∀ i, (occ i ids ≤ refs i)%Z) →
  ∃ s', decrementRefCount s ids = Some s' ∧ counts s' (λ i, refs i - occ i ids)%Z ∧
    (∀ i b', s' !! i = Some b' → data <$> s !! i = Some (data b')).
Proof.
  revert s refs. induction ids as [|j ids IH]; intros s refs Hc Hle; simpl.
  - exists s. split_and!; [done| |by intros i b' ->]. intros i. specialize (Hc i).
    unfold occ. simpl. by rewrite Z.sub_0_r.
  - pose proof (Hc j) as Hj. pose proof (Hle j) as Hlej.
    rewrite occ_cons, decide_True in Hlej by done. pose proof (occ_nonneg j ids).
    destruct (s !! j) as [b|] eqn:Hb; simpl; [|lia]. destruct Hj as (Hid & Href & Hpos).
    set (s1 := if (ref_count b + -1 =? 0)%Z then delete j s else <[j := add_ref b (-1)]> s).
    assert (∀ i, i ≠ j → s1 !! i = s !! i) as Hne.
    { intros i ?. unfold s1. case_match; by simplify_map_eq. }
    assert (s1 !! j = if (ref_count b + -1 =? 0)%Z then None else Some (add_ref b (-1))) as Heq.
    { unfold s1. case_match; by simplify_map_eq. }
    destruct (IH s1 (λ i, refs i - (if decide (i = j) then 1 else 0))%Z) as (s' & -> & Hc' & Hd).
    + intros i. case_decide; [subst i; rewrite Heq|rewrite Hne by done; by rewrite Z.sub_0_r; apply Hc].
      destruct (Z.eqb_spec (ref_count b + -1) 0); simpl; [lia|]. split_and!; lia.
    + intros i. specialize (Hle i). rewrite occ_cons in Hle. case_decide; lia.
    + exists s'. split_and!; [done| |].
      * intros i. specialize (Hc' i). rewrite occ_cons.
        replace (refs i - ((if decide (i = j) then 1 else 0) + occ i ids))%Z
          with (refs i - (if decide (i = j) then 1 else 0) - occ i ids)%Z by lia. done.
      * intros i b' Hb'. apply Hd in Hb'. destruct (decide (i = j)) as [->|]; [|by rewrite <-Hne].
        rewrite Heq in Hb'. case_match; [done|]. by rewrite Hb.
Qed.

(** ** Clients: sequences of operations *)

Inductive snap_op := Write (d : string) | Create | Restore (v : Z) | Delete (v : Z).

Definition snap_step (m : SnapshotManager) (o : snap_op) : option SnapshotManager :=
  match o with
  | Write d => Some (write m d)
  | Create => fst <$> createSnapshot m
  | Restore v => restoreSnapshot m v
  | Delete v => deleteSnapshot m v
  end.

Lemma counts_ext s refs refs' : (∀ i, refs i = refs' i) → counts s refs → counts s refs'.
Proof. intros He Hc i. specialize (Hc i). by rewrite He in Hc. Qed.

Lemma counts_present s refs i : counts s refs → (0 < refs i)%Z → is_Some (s !! i).
Proof. intros Hc Hp. specialize (Hc i). destruct (s !! i); [eauto|lia]. Qed.

(** What one operation does to the parts a reader depends on: the state stays
    well formed, kept blocks keep their data, snapshots other than a deleted one are
    kept. *)
Record step_ok (m : SnapshotManager) (o : snap_op) (m' : SnapshotManager) : Prop := {
  step_inv : snap_inv m';
  step_data : ∀ i b b', blockStore m !! i = Some b → blockStore m' !! i = Some b' → data b = data b';
  step_snapshots : ∀ v sn, snapshots m !! v = Some sn → o ≠ Delete v → snapshots m' !! v = Some sn
}.

Lemma write_ok m d : snap_inv m → step_ok m (Write d) (write m d).
Proof.
  intros [Hc Hb Hv]. unfold write.
  assert (blockStore m !! next_block_id m = None) as Hfresh.
  { destruct (blockStore m !! next_block_id m) eqn:E; [|done]. apply Hb in E. lia. }
  split; simpl; [split; simpl| |done].
  - intros i. unfold total_refs. simpl. rewrite occ_app, occ_cons.
    specialize (Hc i). unfold total_refs in Hc. change (occ i []) with 0%Z.
    destruct (decide (i = next_block_id m)) as [->|Hne].
    + rewrite lookup_insert_eq. rewrite Hfresh in Hc. simpl. split_and!; [done|lia..].
    + rewrite lookup_insert_ne by done. by rewrite Z.add_0_r.
  - intros i b Hi. apply lookup_insert_Some in Hi as [[<- _]|[_ Hi]]; [lia|]. apply Hb in Hi. lia.
  - done.
  - intros i b b' Hi Hi'. destruct (decide (i = next_block_id m)) as [->|]; simplify_map_eq; done.
Qed.

Lemma create_ok m : snap_inv m → ∃ m' v, createSnapshot m = Some (m', v) ∧ step_ok m Create m' ∧
  v = next_version m ∧ snapshots m' !! v = Some {| version := v; block_ids := current_blocks m |}
  ∧ current_blocks m' = current_blocks m.
Proof.
  intros [Hc Hb Hv]. unfold createSnapshot.
  destruct (incrementRefCount_counts _ (current_blocks m) _ Hc) as (s & -> & Hs & Hd).
  { intros i Hi%occ_elem. unfold total_refs. pose proof (refs_in_nonneg block_ids (snapshots m) i). lia. }
  assert (snapshots m !! next_version m = None) as Hfresh.
  { destruct (snapshots m !! next_version m) eqn:E; [|done]. apply Hv in E. lia. }
  simpl. do 2 eexists. split; [done|]. split_and!; [|done|by apply lookup_insert_eq|done].
  split; [split| |]; simpl.
  - eapply counts_ext; [|done]. intros i. unfold total_refs. simpl.
    rewrite (refs_in_insert block_ids) by done. simpl. lia.
  - intros i b Hi. specialize (Hd i). rewrite Hi in Hd.
    destruct (blockStore m !! i) eqn:E; [by eapply Hb|done].
  - intros v sn Hi. apply lookup_insert_Some in Hi as [[<- _]|[_ Hi]]; [lia|]. apply Hv in Hi. lia.
  - intros i b b' Hi Hi'. specialize (Hd i). rewrite Hi, Hi' in Hd. by simplify_eq/=.
  - intros v sn Hi _. rewrite lookup_insert_ne; congruence.
Qed.

Lemma snap_refs_ge (sns : gmap Z Snapshot) v sn i : sns !! v = Some sn → (occ i (block_ids sn) ≤ snap_refs sns i)%Z.
Proof.
  intros Hv. rewrite (refs_in_delete block_ids _ _ _ i Hv).
  pose proof (refs_in_nonneg block_ids (delete v sns) i). lia.
Qed.

Lemma restore_ok m v : snap_inv m → ∃ m', restoreSnapshot m v = Some m' ∧ step_ok m (Restore v) m' ∧
  (∀ sn, snapshots m !! v = Some sn → current_blocks m' = block_ids sn).
Proof.
  intros Hinv. pose proof Hinv as [Hc Hb Hv]. unfold restoreSnapshot.
  destruct (snapshots m !! v) as [sn|] eqn:Hsn.
  2:{ exists m. split_and!; [done| |done]. split; [done| |done]. intros; by simplify_eq. }
  destruct (decrementRefCount_counts _ (current_blocks m) _ Hc) as (s & -> & Hs & Hd).
  { intros i. unfold total_refs. pose proof (refs_in_nonneg block_ids (snapshots m) i). lia. }
  simpl. destruct (incrementRefCount_counts s (block_ids sn) _ Hs) as (s' & -> & Hs' & Hd').
  { intros i Hi%occ_elem. unfold total_refs. pose proof (snap_refs_ge _ _ _ i Hsn). lia. }
  simpl. eexists. split; [done|]. split; [|by intros sn' [= ->]].
  assert (∀ i b', s' !! i = Some b' → data <$> blockStore m !! i = Some (data b')) as Hdata.
  { intros i b' Hi. specialize (Hd' i). rewrite Hi in Hd'.
    destruct (s !! i) eqn:E; simplify_eq/=. erewrite Hd by done. congruence. }
  split; [split| |]; simpl; [..|done].
  - eapply counts_ext; [|done]. intros i. unfold total_refs. simpl. lia.
  - intros i b Hi. apply Hdata in Hi. destruct (blockStore m !! i) eqn:E; [by eapply Hb|done].
  - done.
  - intros i b b' Hi Hi'. apply Hdata in Hi'. rewrite Hi in Hi'. by simplify_eq/=.
Qed.

Lemma delete_ok m v : snap_inv m → ∃ m', deleteSnapshot m v = Some m' ∧ step_ok m (Delete v) m'.
Proof.
  intros Hinv. pose proof Hinv as [Hc Hb Hv]. unfold deleteSnapshot.
  destruct (snapshots m !! v) as [sn|] eqn:Hsn.
  2:{ exists m. split; [done|]. split; [done| |done]. intros; by simplify_eq. }
  destruct (decrementRefCount_counts _ (block_ids sn) _ Hc) as (s & -> & Hs & Hd).
  { intros i. unfold total_refs. pose proof (snap_refs_ge _ _ _ i Hsn).
    pose proof (occ_nonneg i (current_blocks m)). lia. }
  simpl. eexists. split; [done|]. split; [split| |]; simpl.
  - eapply counts_ext; [|done]. intros i. unfold total_refs. simpl.
    rewrite (refs_in_delete block_ids _ _ _ i Hsn). lia.
  - intros i b Hi. apply Hd in Hi. destruct (blockStore m !! i) eqn:E; [by eapply Hb|done].
  - intros v' sn' Hi%lookup_delete_Some. by eapply Hv, Hi.
  - intros i b b' Hi Hi'. apply Hd in Hi'. rewrite Hi in Hi'. by simplify_eq/=.
  - intros v' sn' Hi Hne. rewrite lookup_delete_ne; congruence.
Qed.

Lemma snap_step_ok m o : snap_inv m → ∃ m', snap_step m o = Some m' ∧ step_ok m o m'.
Proof.
  intros Hinv. destruct o as [d| |v|v]; simpl.
  - eauto using write_ok.
  - destruct (create_ok m Hinv) as (m' & v & -> & ? & _). eauto.
  - destruct (restore_ok m v Hinv) as (m' & ? & ? & _). eauto.
  - by apply delete_ok.
Qed.

Lemma new_manager_inv : snap_inv new_manager.
Proof. split; intros i; simpl; intros; simplify_map_eq; done. Qed.

(** ** Theorems *)

(** C6: memory safety and exact reclamation.  Every sequence of writes, snapshots,
    restores and deletions (of any version, existing or not) is free of null
    dereferences, and afterwards a block is in the store exactly when the current
    file or some snapshot references it, with a counter equal to the number of those
    references. *)
Theorem snapshot_refcounts_exact (ops : list snap_op) :
  ∃ m, run_ops snap_step new_manager ops = Some m ∧
    ∀ i, match blockStore m !! i with
         | Some b => ref_count b = total_refs m i ∧ (0 < total_refs m i)%Z
         | None => total_refs m i = 0%Z
         end.
Proof.
  destruct (run_ops_invariant snap_step snap_inv new_manager ops) as (m & -> & Hinv).
  - intros m o Hm. destruct (snap_step_ok m o Hm) as (m' & ? & []). eauto.
  - apply new_manager_inv.
  - exists m. split; [done|]. intros i. pose proof (inv_counts m Hinv i) as Hi.
    destruct (blockStore m !! i); [by destruct Hi as (_ & ? & ?)|done].
Qed.

Lemma read_blocks_defined s refs ids :
  counts s refs → (∀ i, i ∈ ids → (0 < refs i)%Z) → is_Some (read_blocks s ids).
Proof.
  intros Hc Hpos. apply mapM_is_Some_2, Forall_forall. intros i Hi.
  apply fmap_is_Some, (counts_present s refs); [done|by apply Hpos].
Qed.

Lemma read_blocks_stable s s' ids ds ds' :
  (∀ i b b', s !! i = Some b → s' !! i = Some b' → data b = data b') →
  read_blocks s ids = Some ds → read_blocks s' ids = Some ds' → ds = ds'.
Proof.
  intros Hd. unfold read_blocks. revert ds ds'.
  induction ids as [|i ids IH]; intros ds ds' H1 H2; simpl in *; simplify_option_eq; [done|].
  f_equal; [|by apply IH]. destruct (s !! i) eqn:E1, (s' !! i) eqn:E2; simplify_eq/=. by eapply Hd.
Qed.

Lemma readSnapshot_step m o m' v ds :
  snap_inv m → step_ok m o m' → o ≠ Delete v →
  readSnapshot m v = Some (Some ds) → readSnapshot m' v = Some (Some ds).
Proof.
  intros Hinv [Hinv' Hdata Hsn] Hne Hr. unfold readSnapshot in *.
  destruct (snapshots m !! v) as [sn|] eqn:Hv; [|done].
  rewrite (Hsn v sn) by done.
  destruct (read_blocks (blockStore m) (block_ids sn)) as [ds1|] eqn:H1; simplify_eq/=.
  destruct (read_blocks_defined _ _ (block_ids sn) (inv_counts m' Hinv')) as [ds2 H2].
  { intros i Hi%occ_elem. unfold total_refs. pose proof (snap_refs_ge _ _ _ i (Hsn v sn Hv Hne)).
    pose proof (occ_nonneg i (current_blocks m')). lia. }
  rewrite H2. simpl. do 2 f_equal. symmetry. by eapply read_blocks_stable.
Qed.

Lemma readSnapshot_run m ops v ds :
  snap_inv m → Delete v ∉ ops → readSnapshot m v = Some (Some ds) →
  ∃ m', run_ops snap_step m ops = Some m' ∧ snap_inv m' ∧ readSnapshot m' v = Some (Some ds).
Proof.
  revert m. induction ops as [|o ops IH]; intros m Hinv Hno Hr; simpl; [eauto|].
  apply not_elem_of_cons in Hno as [Hne Hno].
  destruct (snap_step_ok m o Hinv) as (m' & -> & Hok). simpl.
  apply IH; [apply Hok|done|]. by eapply (readSnapshot_step m o).
Qed.

(** C7: point-in-time restore.  Take a snapshot of a reachable file, run any
    operations that do not delete it, and restore it: the file reads back exactly as
    it did when the snapshot was taken, and so does the snapshot itself. *)
Theorem snapshot_restore_roundtrip (before after : list snap_op) :
  ∃ m0 m1 v ds, run_ops snap_step new_manager before = Some m0 ∧
    readCurrentFile m0 = Some ds ∧ createSnapshot m0 = Some (m1, v) ∧
    (Delete v ∉ after →
     ∃ m2 m3, run_ops snap_step m1 after = Some m2 ∧ readSnapshot m2 v = Some (Some ds) ∧
       restoreSnapshot m2 v = Some m3 ∧ readCurrentFile m3 = Some ds).
Proof.
  destruct (run_ops_invariant snap_step snap_inv new_manager before) as (m0 & -> & Hinv).
  { intros m o Hm. destruct (snap_step_ok m o Hm) as (m' & ? & []). eauto. }
  { apply new_manager_inv. }
  destruct (create_ok m0 Hinv) as (m1 & v & Hcr & [Hinv1 Hd1 _] & _ & Hsn & Hcur).
  destruct (read_blocks_defined _ _ (current_blocks m0) (inv_counts m0 Hinv)) as [ds Hds].
  { intros i Hi%occ_elem. unfold total_refs. pose proof (refs_in_nonneg block_ids (snapshots m0) i). lia. }
  exists m0, m1, v, ds. split_and!; [done..|]. intros Hno.
  assert (readSnapshot m1 v = Some (Some ds)) as Hr1.
  { unfold readSnapshot. rewrite Hsn. simpl.
    destruct (read_blocks_defined _ _ (current_blocks m0) (inv_counts m1 Hinv1)) as [ds1 Hds1].
    { intros i Hi%occ_elem. unfold total_refs. rewrite Hcur.
      pose proof (refs_in_nonneg block_ids (snapshots m1) i). lia. }
    rewrite Hds1. simpl. do 2 f_equal. symmetry. by eapply read_blocks_stable. }
  destruct (readSnapshot_run m1 after v ds Hinv1 Hno Hr1) as (m2 & Hrun & Hinv2 & Hr2).
  destruct (restore_ok m2 v Hinv2) as (m3 & Hres & Hok3 & Hcur3).
  exists m2, m3. split_and!; [done..|].
  assert (readSnapshot m3 v = Some (Some ds)) as Hr3 by (by eapply readSnapshot_step).
  unfold readSnapshot in Hr2, Hr3. unfold readCurrentFile.
  destruct (snapshots m2 !! v) as [sn|] eqn:E2; [|done].
  rewrite (Hcur3 sn) by done. rewrite (step_snapshots _ _ _ Hok3 v sn) in Hr3 by done.
  destruct (read_blocks (blockStore m3) (block_ids sn)); by simplify_eq/=.
Qed.
