(* ===== verification/RestoreEngine.v ===== *)
(** * Restore engine

    [src/storage/RestoreEngine.cpp]: the class of [SnapshotManager.cpp] under
    another name, whose [restoreSnapshot] also prints the progress of the restore,
    one percentage per block. *)
From S2P Require Import Prelude SnapshotManager.
Local Open Scope nat_scope.

(** ** The repeated class *)

Definition RestoreEngine : Type := SnapshotManager.
Definition new_restore_engine : RestoreEngine := new_manager.
Definition RE_write : RestoreEngine → string → RestoreEngine := write.
Definition RE_readCurrentFile : RestoreEngine → option (list string) := readCurrentFile.
Definition RE_incrementRefCount : gmap Z Block → list Z → option (gmap Z Block) := incrementRefCount.
Definition RE_decrementRefCount : gmap Z Block → list Z → option (gmap Z Block) := decrementRefCount.
Definition RE_createSnapshot : RestoreEngine → option (RestoreEngine * Z) := createSnapshot.
Definition RE_deleteSnapshot : RestoreEngine → Z → option RestoreEngine := deleteSnapshot.
Definition RE_readSnapshot : RestoreEngine → Z → option (option (list string)) := readSnapshot.

(** ** Progress *)

(** The loop over [current_blocks]: after the [k]-th block it prints
    [restoredBlocks * 100 / totalBlocks], an [int] product whose overflow is
    undefined ([None]). *)
Fixpoint progress_loop (totalBlocks restoredBlocks : Z) (ids : list Z) : option (list Z) :=
  match ids with
  | [] => Some []
  | _ :: ids =>
      let restoredBlocks := (restoredBlocks + 1)%Z in
      if decide (restoredBlocks * 100 ≤ INT_MAX)%Z then
        out ← progress_loop totalBlocks restoredBlocks ids;
        Some ((restoredBlocks * 100 ÷ totalBlocks)%Z :: out)
      else None
  end.

(** [restoreSnapshot]: the new state and the percentages printed. *)
Definition RE_restoreSnapshot (m : RestoreEngine) (v : Z) : option (RestoreEngine * list Z) :=
  match snapshots m !! v with
  | None => Some (m, [])
  | Some sn =>
      s ← RE_decrementRefCount (blockStore m) (current_blocks m);
      s ← RE_incrementRefCount s (block_ids sn);
      let m' := {| next_block_id := next_block_id m; next_version := next_version m;
                   blockStore := s; snapshots := snapshots m; current_blocks := block_ids sn |} in
      out ← progress_loop (length (current_blocks m')) 0 (current_blocks m');
      Some (m', out)
  end.

(** ** Correctness *)

Lemma progress_loop_spec (total : Z) (k0 : nat) ids :
  ((k0 + length ids) * 100 ≤ INT_MAX)%Z →
  progress_loop total k0 ids =
  Some ((λ k : nat, (k * 100 ÷ total)%Z) <$> seq (S k0) (length ids)).
Proof.
  revert k0. induction ids as [|i ids IH]; intros k0 Hle; [done|]. cbn [progress_loop length] in *.
  replace (k0 + 1)%Z with (Z.of_nat (S k0)) by lia.
  rewrite decide_True by lia. rewrite IH by lia. done.
Qed.

(** The restore of [RestoreEngine] is the restore of [SnapshotManager] together
    with the progress. *)
Lemma RE_restoreSnapshot_state m v :
  RE_restoreSnapshot m v =
  m' ← restoreSnapshot m v;
  match snapshots m !! v with
  | None => Some (m', [])
  | Some sn => out ← progress_loop (length (block_ids sn)) 0 (block_ids sn); Some (m', out)
  end.
Proof.
  unfold RE_restoreSnapshot, restoreSnapshot, RE_decrementRefCount, RE_incrementRefCount.
  destruct (snapshots m !! v) as [sn|]; [|done].
  destruct (decrementRefCount (blockStore m) (current_blocks m)) as [s|]; [|done]. simpl.
  by destruct (incrementRefCount s (block_ids sn)).
Qed.

(** Progress reports.  Restoring a snapshot of at most 21474836 blocks in a
    reachable state succeeds and leaves the state of [restoreSnapshot]; it prints one
    percentage per block, in non-decreasing order, each between 0 and 100, and the
    last one is 100. *)
Theorem restore_progress (ops : list snap_op) (v : Z) (sn : Snapshot) (m : RestoreEngine) :
  run_ops snap_step new_restore_engine ops = Some m → snapshots m !! v = Some sn →
  block_ids sn ≠ [] → (length (block_ids sn) * 100 ≤ INT_MAX)%Z →
  ∃ m' out, RE_restoreSnapshot m v = Some (m', out) ∧ restoreSnapshot m v = Some m' ∧
    current_blocks m' = block_ids sn ∧ length out = length (block_ids sn) ∧
    StronglySorted Z.le out ∧ Forall (λ p, 0 ≤ p ≤ 100)%Z out ∧ last out = Some 100%Z.
Proof.
  intros Hrun Hsn Hne Hle.
  destruct (run_ops_invariant snap_step snap_inv new_manager ops) as (m1 & Hrun1 & Hinv).
  { intros s o Hm. destruct (snap_step_ok s o Hm) as (s' & ? & []). eauto. }
  { apply new_manager_inv. }
  assert (m1 = m) as -> by (unfold new_restore_engine in *; congruence).
  destruct (restore_ok m v Hinv) as (m' & Hres & _ & Hcur).
  rewrite RE_restoreSnapshot_state, Hres. simpl. rewrite Hsn.
  change 0%Z with (Z.of_nat 0). rewrite progress_loop_spec by lia. simpl.
  set (n := length (block_ids sn)) in *.
  assert (0 < n) as Hpos by (destruct (block_ids sn); [done|simpl in n; lia]).
  do 2 eexists. split_and!; [done..|by apply Hcur|by rewrite length_fmap, length_seq| | |].
  - apply (StronglySorted_fmap _ le); [|apply StronglySorted_seq].
    intros x y Hxy. apply Z.quot_le_mono; lia.
  - apply Forall_fmap, Forall_forall. intros k Hk%elem_of_seq. simpl. split.
    + apply Z.quot_pos; lia.
    + apply Z.quot_le_upper_bound; lia.
  - rewrite fmap_last. replace n with (S (n - 1)) by lia. rewrite seq_S.
    rewrite last_snoc. simpl. f_equal. replace (S (n - 1)) with n by lia.
    rewrite Z.mul_comm, Z.quot_mul; lia.
Qed.

(** The state of the program's [main] before its restore, up to the later writes:
    two blocks and one snapshot. *)
Definition two_block_engine : RestoreEngine :=
  default new_restore_engine
    (run_ops snap_step new_restore_engine [Write "A"; Write "B"; Create]).

Lemma restore_progress_witness :
  ∃ m' out, RE_restoreSnapshot two_block_engine 1 = Some (m', out) ∧ last out = Some 100%Z.
Proof.
  destruct (restore_progress [Write "A"; Write "B"; Create] 1
    {| version := 1; block_ids := [1; 2]%Z |} two_block_engine)
    as (m' & out & Hr & _ & _ & _ & _ & _ & Hl);
    [vm_compute; reflexivity|vm_compute; reflexivity|discriminate|vm_compute; discriminate|].
  exists m', out. exact (conj Hr Hl).
Defined.
