(* ===== verification/IndexedList.v ===== *)
(** * A [std::list] with a hash index of iterators

    The caches of the repository share one data structure: a [std::list] of
    entries, most recent first, and an [unordered_map] from keys to list
    iterators.  List nodes have an identity that [splice] preserves and [erase]
    ends; an iterator is that identity (an address).  Using an iterator whose node
    has been erased, or [back()] of an empty list, is undefined behaviour: [None]. *)
From S2P Require Import Prelude.
Local Open Scope nat_scope.

(** ** Doubly linked lists with stable iterators *)

Record dlist (T : Type) := { next_addr : nat; nodes : list (nat * T) }.
Arguments next_addr {T}.
Arguments nodes {T}.
Arguments Build_dlist {T}.

Section dlist.
Context {T : Type}.
Implicit Types (l : dlist T) (x : T) (a : nat).

Definition dempty : dlist T := {| next_addr := 0; nodes := [] |}.

Definition entries l : list T := (nodes l).*2.

Definition dsize l : nat := length (nodes l).

(** [*it] *)
Definition deref l a : option T := (list_to_map (nodes l) : gmap nat T) !! a.

(** [push_front(x)]: the new node's iterator is [begin()]. *)
Definition push_front x l : dlist T * nat :=
  ({| next_addr := S (next_addr l); nodes := (next_addr l, x) :: nodes l |}, next_addr l).

Definition drop_node l a : list (nat * T) := filter (λ n, n.1 ≠ a) (nodes l).

(** [erase(it)] *)
Definition derase l a : option (dlist T) :=
  _ ← deref l a; Some {| next_addr := next_addr l; nodes := drop_node l a |}.

(** [splice(begin(), *this, it)]: the node moves to the front and keeps its
    identity. *)
Definition splice_front l a : option (dlist T) :=
  x ← deref l a; Some {| next_addr := next_addr l; nodes := (a, x) :: drop_node l a |}.

(** Assignment through an iterator. *)
Definition dupdate (f : T → T) l a : option (dlist T) :=
  _ ← deref l a;
  Some {| next_addr := next_addr l;
          nodes := (λ n, if decide (n.1 = a) then (n.1, f n.2) else n) <$> nodes l |}.

Definition back l : option T := snd <$> last (nodes l).

Definition pop_back l : option (dlist T) :=
  _ ← last (nodes l); Some {| next_addr := next_addr l; nodes := removelast (nodes l) |}.

(** Identities are distinct and below the next one to be allocated. *)
Definition dwf l : Prop := NoDup (nodes l).*1 ∧ Forall (λ n, n.1 < next_addr l) (nodes l).

Lemma deref_Some l a x : dwf l → deref l a = Some x ↔ (a, x) ∈ nodes l.
Proof. intros [Hnd _]. symmetry. by apply elem_of_list_to_map. Qed.

Lemma dwf_inj l a x y : dwf l → (a, x) ∈ nodes l → (a, y) ∈ nodes l → x = y.
Proof. intros Hwf Hx Hy. apply deref_Some in Hx, Hy; [congruence|done..]. Qed.
End dlist.

#[global] Arguments push_front : simpl never.

(** ** The list together with its index *)

Section indexed.
Context {K T : Type} `{Countable K} (key : T → K).
Implicit Types (l : dlist T) (mm : gmap K nat) (x : T) (k : K) (a : nat).

(** The index maps each key of the list to its node, and nothing else; keys are
    distinct. *)
Record idx_inv l mm : Prop := {
  idx_wf : dwf l;
  idx_keys : NoDup (key <$> entries l);
  idx_spec : ∀ k a, mm !! k = Some a ↔ ∃ x, (a, x) ∈ nodes l ∧ key x = k
}.

(** The entries whose key is not [k]. *)
Definition without k (es : list T) : list T := filter (λ x, key x ≠ k) es.

Lemma idx_empty : idx_inv dempty ∅.
Proof.
  split; [split|..]; [constructor..|]. intros k a. rewrite lookup_empty. split; [done|].
  intros (x & Hx & _). by apply not_elem_of_nil in Hx.
Qed.

Lemma idx_found l mm k a :
  idx_inv l mm → mm !! k = Some a → ∃ x, deref l a = Some x ∧ key x = k ∧ x ∈ entries l.
Proof.
  intros [Hwf _ Hs] Hk. apply Hs in Hk as (x & Hx & Hkey). exists x.
  split_and!; [by apply deref_Some|done|]. unfold entries. by apply (list_elem_of_fmap_2 snd) in Hx.
Qed.

Lemma idx_not_found l mm k : idx_inv l mm → mm !! k = None → k ∉ key <$> entries l.
Proof.
  intros [_ _ Hs] Hk Hin. apply list_elem_of_fmap in Hin as (x & -> & Hx).
  apply list_elem_of_fmap in Hx as ([a x'] & -> & Hx). simpl in *.
  assert (mm !! key x' = Some a) as E by (apply Hs; eauto). congruence.
Qed.

Lemma idx_None_iff l mm k : idx_inv l mm → mm !! k = None ↔ k ∉ key <$> entries l.
Proof.
  intros Hinv. split; [by apply idx_not_found|]. intros Hno.
  destruct (mm !! k) as [a|] eqn:E; [|done]. exfalso. apply Hno.
  destruct (idx_found l mm k a Hinv E) as (x & _ & <- & Hx). by apply list_elem_of_fmap_2.
Qed.

(** Two nodes with the same key are the same node. *)
Lemma idx_key_inj l mm a b x y :
  idx_inv l mm → (a, x) ∈ nodes l → (b, y) ∈ nodes l → key x = key y → a = b ∧ x = y.
Proof.
  intros [Hwf _ Hs] Ha Hb Hk.
  assert (mm !! key x = Some a) by (apply Hs; eauto).
  assert (mm !! key x = Some b) by (apply Hs; eauto).
  simplify_eq. split; [done|]. by eapply dwf_inj.
Qed.

Lemma drop_node_entries l mm k a :
  idx_inv l mm → mm !! k = Some a → (drop_node l a).*2 = without k (entries l).
Proof.
  intros Hinv Hk. unfold drop_node, without, entries.
  assert (∀ n, n ∈ nodes l → n.1 ≠ a ↔ key n.2 ≠ k) as Hiff.
  { intros [b y] Hn. simpl. pose proof Hk as (x & Hx & Hkx)%(idx_spec _ _ Hinv). split.
    - intros Hne Hky. apply Hne. symmetry. eapply idx_key_inj; [done..|congruence].
    - intros Hne ->. apply Hne. rewrite <-Hkx. f_equal. by eapply dwf_inj; [apply Hinv|..]. }
  revert Hiff. generalize (nodes l). induction l0 as [|n ns IH]; intros Hiff; [done|].
  csimpl. rewrite !filter_cons. specialize (Hiff n ltac:(left)) as Hn.
  destruct (decide (n.1 ≠ a)) as [Ha|Ha].
  - rewrite decide_True by (by apply Hn). csimpl. f_equal. apply IH. intros; apply Hiff. by right.
  - rewrite decide_False by (intros ?; apply Ha; by apply Hn). apply IH. intros; apply Hiff. by right.
Qed.

Lemma elem_of_drop_node l a b x : (b, x) ∈ drop_node l a ↔ b ≠ a ∧ (b, x) ∈ nodes l.
Proof. unfold drop_node. by rewrite list_elem_of_filter. Qed.

Lemma drop_node_wf l a : dwf l → NoDup (drop_node l a).*1 ∧ Forall (λ n, n.1 < next_addr l) (drop_node l a).
Proof.
  intros [Hnd Hlt]. split.
  - eapply sublist_NoDup; [done|]. apply fmap_sublist, sublist_filter.
  - rewrite Forall_forall in Hlt |- *. intros n [_ Hn]%list_elem_of_filter. by apply Hlt.
Qed.

Lemma without_NoDup k es : NoDup (key <$> es) → NoDup (key <$> without k es).
Proof. intros ?. eapply sublist_NoDup; [done|]. apply fmap_sublist, sublist_filter. Qed.

Lemma elem_of_without k es k' : k' ∈ key <$> without k es ↔ k' ≠ k ∧ k' ∈ key <$> es.
Proof.
  unfold without. rewrite !list_elem_of_fmap. setoid_rewrite list_elem_of_filter. split.
  - intros (x & -> & ? & ?). eauto.
  - intros (? & x & -> & ?). eauto.
Qed.

Lemma without_id k es : k ∉ key <$> es → without k es = es.
Proof.
  intros Hk. apply filter_all, Forall_forall. intros x Hx Heq. apply Hk. subst.
  by apply list_elem_of_fmap_2.
Qed.

Lemma without_shorter es x : x ∈ es → length (without (key x) es) < length es.
Proof.
  unfold without. induction 1 as [x es|x y es _ IH]; rewrite filter_cons.
  - rewrite decide_False by tauto. simpl. apply Nat.lt_succ_r, length_filter.
  - case_decide; simpl; lia.
Qed.

Lemma derase_spec l mm k a :
  idx_inv l mm → mm !! k = Some a →
  ∃ l', derase l a = Some l' ∧ idx_inv l' (delete k mm) ∧ entries l' = without k (entries l).
Proof.
  intros Hinv Hk. destruct (idx_found l mm k a Hinv Hk) as (x & Hd & Hkx & _).
  unfold derase. rewrite Hd. simpl. eexists. split; [done|].
  assert (entries {| next_addr := next_addr l; nodes := drop_node l a |} = without k (entries l)) as He
    by (by eapply drop_node_entries).
  split; [|done]. split.
  - by apply drop_node_wf, Hinv.
  - rewrite He. by apply without_NoDup, Hinv.
  - intros k' b. rewrite lookup_delete_Some, (idx_spec _ _ Hinv). simpl.
    setoid_rewrite elem_of_drop_node. apply deref_Some in Hd; [|apply Hinv].
    split.
    + intros (Hne & y & Hy & <-). exists y. split_and!; [|done..]. intros ->. apply Hne.
      rewrite <-Hkx. f_equal. by eapply dwf_inj; [apply Hinv|..].
    + intros (y & [Hne Hy] & <-). split; [|by exists y]. intros ->. apply Hne.
      by eapply (idx_key_inj l mm b a y x).
Qed.

Lemma splice_front_spec l mm k a :
  idx_inv l mm → mm !! k = Some a →
  ∃ l' x, splice_front l a = Some l' ∧ deref l a = Some x ∧ key x = k ∧ idx_inv l' mm ∧
    deref l' a = Some x ∧ entries l' = x :: without k (entries l).
Proof.
  intros Hinv Hk. destruct (idx_found l mm k a Hinv Hk) as (x & Hd & Hkx & _).
  unfold splice_front. rewrite Hd. simpl. do 2 eexists. split_and!; [done..| | |].
  - pose proof (drop_node_wf l a (idx_wf _ _ Hinv)) as [Hnd Hlt].
    pose proof Hd as Hx. apply deref_Some in Hx; [|apply Hinv].
    assert (entries {| next_addr := next_addr l; nodes := (a, x) :: drop_node l a |}
      = x :: without k (entries l)) as He.
    { unfold entries at 1. csimpl. f_equal. by eapply drop_node_entries. }
    split; [split|..].
    + csimpl. apply NoDup_cons. split; [|done]. intros ([b y] & -> & Hy)%list_elem_of_fmap.
      by apply elem_of_drop_node in Hy as [? _].
    + csimpl. constructor; [|done]. pose proof (idx_wf _ _ Hinv) as [_ Hall].
      rewrite Forall_forall in Hall. by apply (Hall (a, x)).
    + rewrite He. csimpl. apply NoDup_cons. rewrite elem_of_without. split; [by intros [? _]|].
      by apply without_NoDup, Hinv.
    + intros k' b. rewrite (idx_spec _ _ Hinv). setoid_rewrite elem_of_cons.
      setoid_rewrite elem_of_drop_node. split.
      * intros (y & Hy & <-). exists y. split; [|done]. destruct (decide (b = a)) as [->|]; [|by right].
        left. f_equal. by eapply dwf_inj; [apply Hinv|..].
      * intros (y & [[= -> ->]|[_ ?]] & <-); eauto.
  - unfold deref. simpl. apply lookup_insert_eq.
  - unfold entries at 1. csimpl. f_equal. by eapply drop_node_entries.
Qed.

Lemma push_front_spec l mm x :
  idx_inv l mm → mm !! key x = None →
  let '(l', a) := push_front x l in
  idx_inv l' (<[key x := a]> mm) ∧ entries l' = x :: entries l.
Proof.
  intros Hinv Hk. pose proof (idx_wf _ _ Hinv) as [Hnd Hlt]. rewrite Forall_forall in Hlt.
  assert (∀ y, (next_addr l, y) ∉ nodes l) as Hfresh.
  { intros y Hy. apply Hlt in Hy. simpl in Hy. lia. }
  unfold push_front. split; [|done]. split; [split|..]; csimpl.
  - apply NoDup_cons. split; [|done]. intros ([b y] & Heq & Hy)%list_elem_of_fmap.
    simpl in Heq. subst b. by eapply Hfresh.
  - constructor; [simpl; lia|]. apply Forall_forall. intros n Hn. apply Hlt in Hn. lia.
  - unfold entries. csimpl. apply NoDup_cons. split; [by apply (idx_not_found l mm)|]. apply Hinv.
  - intros k a. rewrite lookup_insert_Some, (idx_spec _ _ Hinv). setoid_rewrite elem_of_cons. split.
    + intros [[<- <-]|[Hne (y & Hy & <-)]]; eauto.
    + intros (y & [[= -> ->]|Hy] & <-); [by left|]. right. split; [|eauto].
      intros Heq. rewrite Heq in Hk.
      assert (mm !! key y = Some a) as E by (apply Hinv; eauto). congruence.
Qed.

Lemma dupdate_spec f l mm k a :
  (∀ x, key (f x) = key x) → idx_inv l mm → mm !! k = Some a →
  ∃ l', dupdate f l a = Some l' ∧ idx_inv l' mm ∧
    entries l' = (λ x, if decide (key x = k) then f x else x) <$> entries l.
Proof.
  intros Hf Hinv Hk. destruct (idx_found l mm k a Hinv Hk) as (x & Hd & Hkx & _).
  unfold dupdate. rewrite Hd. simpl. eexists. split; [done|].
  apply deref_Some in Hd; [|apply Hinv].
  set (g := λ n : nat * T, if decide (n.1 = a) then (n.1, f n.2) else n).
  assert (∀ n, (g n).1 = n.1) as Hg1 by (intros n; unfold g; by case_decide).
  assert (∀ n, key (g n).2 = key n.2) as Hg2 by (intros n; unfold g; case_decide; simpl; auto).
  assert (entries {| next_addr := next_addr l; nodes := g <$> nodes l |} =
    (λ x, if decide (key x = k) then f x else x) <$> entries l) as He.
  { unfold entries. simpl. rewrite <-!list_fmap_compose. apply list_fmap_ext.
    intros i [b y] Hi%list_elem_of_lookup_2. unfold g. simpl.
    repeat case_decide; simpl; try done; subst.
    - exfalso. pose proof (dwf_inj l a x y (idx_wf _ _ Hinv) Hd Hi). congruence.
    - exfalso. by destruct (idx_key_inj l mm b a y x). }
  split; [|done]. split; [split|..].
  - simpl. rewrite <-list_fmap_compose. erewrite list_fmap_ext; [apply Hinv|]. intros; apply Hg1.
  - simpl. apply Forall_fmap. eapply Forall_impl; [apply (idx_wf _ _ Hinv)|]. intros n Hn. simpl. by rewrite Hg1.
  - rewrite He, <-list_fmap_compose. erewrite list_fmap_ext; [apply (idx_keys _ _ Hinv)|].
    intros i y _. simpl. case_decide; auto.
  - simpl. intros k' b. rewrite (idx_spec _ _ Hinv). setoid_rewrite list_elem_of_fmap. split.
    + intros (y & Hy & <-). exists (g (b, y)).2. split; [|apply Hg2].
      exists (b, y). split; [|done]. rewrite (surjective_pairing (g (b, y))), Hg1. done.
    + intros (y & ([b' y'] & Hy & Hin) & <-). exists y'.
      assert (b = b') as -> by (pose proof (Hg1 (b', y')); rewrite <-Hy in *; done).
      split; [done|]. pose proof (Hg2 (b', y')) as E. rewrite <-Hy in E. simpl in E. congruence.
Qed.

(** The last entry and its removal, as an eviction does it. *)
Lemma pop_back_spec l mm es x :
  idx_inv l mm → entries l = es ++ [x] →
  back l = Some x ∧ ∃ l', pop_back l = Some l' ∧ idx_inv l' (delete (key x) mm) ∧ entries l' = es.
Proof.
  intros Hinv He. unfold entries in He.
  destruct (nodes l) as [|n ns _] eqn:Hn using rev_ind; [by destruct es|].
  rewrite fmap_app in He. apply app_inj_tail in He as [He [= Hx]].
  assert (last (nodes l) = Some n) as Hlast by (by rewrite Hn, last_snoc).
  split; [unfold back; rewrite Hn, last_snoc; simpl; by rewrite Hx|].
  unfold pop_back. rewrite Hn, last_snoc, removelast_last. simpl. eexists. split; [done|].
  split; [|done]. destruct Hinv as [[Hnd Hlt] Hkeys Hs]. unfold entries in *. rewrite Hn in *.
  rewrite !fmap_app in *. apply NoDup_app in Hnd as (Hnd & Hdis & _).
  apply Forall_app in Hlt as [Hlt _].
  apply NoDup_app in Hkeys as (Hkeys & Hkdis & _).
  split; [done|done|]. simpl. intros k a. rewrite lookup_delete_Some, Hs. setoid_rewrite elem_of_app.
  setoid_rewrite list_elem_of_singleton. split.
  - intros (Hne & y & [Hy|<-] & <-); [eauto|]. simpl in *. congruence.
  - intros (y & Hy & <-). split; [|eauto]. intros Heq.
    apply (Hkdis (key y)).
    + apply list_elem_of_fmap_2. exact (list_elem_of_fmap_2 snd _ _ Hy).
    + csimpl. rewrite Hx, Heq. by left.
Qed.

Lemma idx_size l mm : idx_inv l mm → size mm = length (entries l).
Proof.
  intros [Hwf Hkeys Hs]. unfold entries in *. rewrite length_fmap.
  rewrite <-size_dom, <-(length_fmap (λ n, key n.2) (nodes l)).
  rewrite <-(size_list_to_set (C := gset K)) by (by rewrite <-list_fmap_compose in Hkeys).
  f_equal. apply set_eq. intros k. rewrite elem_of_dom, elem_of_list_to_set, list_elem_of_fmap. split.
  - intros [a Ha]. apply Hs in Ha as (x & Hx & <-). by exists (a, x).
  - intros ([a x] & -> & Hx). exists a. apply Hs. eauto.
Qed.
End indexed.

#[export] Hint Resolve idx_empty : cpp.
