(* ===== verification/LRU.v ===== *)
(** * Least-recently-used caches

    The class [LRUcache] of [src/caching/LRUcache_multiThreaded.cpp] (and, with
    other key and value types or names, of [storage/Metadata_Store.cpp] and
    [oop-framework/GenericEviction_Cache.cpp]): a list of entries, most recently
    used first, with an index of iterators.  The operations are refined to a list
    program, and the list program to the policy itself: the keys held are the most
    recently used ones.

    The sequential part of the file treats each method as one critical section;
    the section on [get] models the two critical sections [get] really has. *)
From S2P Require Import Prelude IndexedList.
Local Open Scope nat_scope.

(** ** The class *)

Record LRUcache (K V : Type) `{Countable K} := {
  Tcapacity : Z;
  cache : dlist (K * V);
  mm : gmap K nat
}.
Arguments Tcapacity {K V _ _}.
Arguments cache {K V _ _}.
Arguments mm {K V _ _}.
Arguments Build_LRUcache {K V _ _}.

Section lru.
Context {K V : Type} `{Countable K}.
Implicit Types (c : LRUcache K V) (k : K) (v : V).

Definition new_lru (capacity : Z) : LRUcache K V :=
  {| Tcapacity := capacity; cache := dempty; mm := ∅ |}.

Definition set_cache c (l : dlist (K * V)) (m : gmap K nat) : LRUcache K V :=
  {| Tcapacity := Tcapacity c; cache := l; mm := m |}.

(** First critical section of [get] (shared lock): the iterator and the value. *)
Definition get_lookup c k : option (option (nat * V)) :=
  match mm c !! k with
  | None => Some None
  | Some a => x ← deref (cache c) a; Some (Some (a, x.2))
  end.

(** Second critical section of [get] (unique lock): the splice. *)
Definition get_splice c (a : nat) : option (LRUcache K V) :=
  l ← splice_front (cache c) a; Some (set_cache c l (mm c)).

(** [get], with nothing in between. A miss is [None]; the classes return a
    sentinel for it. *)
Definition lru_get c k : option (LRUcache K V * option V) :=
  r ← get_lookup c k;
  match r with
  | None => Some (c, None)
  | Some (a, v) => c ← get_splice c a; Some (c, Some v)
  end.

(** The eviction of the last entry. *)
Definition lru_evict c : option (LRUcache K V * K) :=
  victim ← back (cache c);
  l ← pop_back (cache c);
  Some (set_cache c l (delete victim.1 (mm c)), victim.1).

Definition lru_put c k v : option (LRUcache K V) :=
  match mm c !! k with
  | Some a =>
      l ← splice_front (cache c) a;
      l ← dupdate (λ x, (x.1, v)) l a;
      Some (set_cache c l (mm c))
  | None =>
      c ← (if (size (mm c) =? to_size_t (Tcapacity c))%Z then fst <$> lru_evict c else Some c);
      let '(l, a) := push_front (k, v) (cache c) in
      Some (set_cache c l (<[k := a]> (mm c)))
  end.

(** [erase(key)] of the metadata cache and of the tiers. *)
Definition lru_erase c k : option (LRUcache K V) :=
  match mm c !! k with
  | None => Some c
  | Some a => l ← derase (cache c) a; Some (set_cache c l (delete k (mm c)))
  end.

(** ** Reference: the list of entries *)

Abbreviation without := (without (T := K * V) fst).

Definition lookup_es (es : list (K * V)) k : option V := (list_to_map es : gmap K V) !! k.

Definition spec_get (es : list (K * V)) k : list (K * V) :=
  match lookup_es es k with Some v => (k, v) :: without k es | None => es end.

Definition spec_put (cap : Z) (es : list (K * V)) k v : list (K * V) :=
  match lookup_es es k with
  | Some _ => (k, v) :: without k es
  | None => (k, v) :: (if (length es =? cap)%Z then removelast es else es)
  end.

(** ** Invariant *)

Record lru_inv c : Prop := {
  lru_idx : idx_inv fst (cache c) (mm c);
  lru_cap : (0 < Tcapacity c ≤ INT_MAX)%Z;
  lru_size : (length (entries (cache c)) ≤ Tcapacity c)%Z
}.

Definition contents c : list (K * V) := entries (cache c).

Lemma new_lru_inv cap : (0 < cap ≤ INT_MAX)%Z → lru_inv (new_lru cap).
Proof. intros Hcap. split; simpl; [apply idx_empty|done|lia]. Qed.

Lemma lookup_es_Some es k v : NoDup es.*1 → lookup_es es k = Some v ↔ (k, v) ∈ es.
Proof. intros Hnd. symmetry. by apply elem_of_list_to_map. Qed.

Lemma lookup_es_None es k : lookup_es es k = None ↔ k ∉ es.*1.
Proof. symmetry. apply not_elem_of_list_to_map. Qed.

(** The index answers as the list does. *)
Lemma mm_lookup c k :
  lru_inv c →
  match mm c !! k with
  | Some a => ∃ v, deref (cache c) a = Some (k, v) ∧ lookup_es (contents c) k = Some v
  | None => lookup_es (contents c) k = None
  end.
Proof.
  intros [Hidx _ _]. destruct (mm c !! k) as [a|] eqn:E.
  - destruct (idx_found fst _ _ _ _ Hidx E) as ([k' v] & Hd & Hk & Hin). simpl in Hk. subst k'.
    exists v. split; [done|]. apply lookup_es_Some; [apply Hidx|done].
  - apply lookup_es_None. by apply (idx_not_found fst _ _ _ Hidx).
Qed.

Lemma lru_get_spec c k :
  lru_inv c → ∃ c', lru_get c k = Some (c', lookup_es (contents c) k) ∧ lru_inv c' ∧
    contents c' = spec_get (contents c) k ∧ Tcapacity c' = Tcapacity c.
Proof.
  intros Hinv. pose proof (mm_lookup c k Hinv) as Hk. unfold lru_get, get_lookup, spec_get.
  destruct (mm c !! k) as [a|] eqn:E; simpl.
  2:{ exists c. rewrite Hk. done. }
  destruct Hk as (v & Hd & Hv). rewrite Hd. simpl.
  destruct (splice_front_spec fst _ _ _ _ (lru_idx _ Hinv) E)
    as (l' & [k' w] & Hs & Hd' & Hx & Hidx & _ & He).
  unfold get_splice. rewrite Hs. simpl. simplify_eq/=. rewrite Hv.
  eexists. split_and!; [done| |exact He|done].
  split; simpl; [done|apply Hinv|]. rewrite <-(idx_size fst _ _ Hidx), (idx_size fst _ _ (lru_idx _ Hinv)).
  apply Hinv.
Qed.

Lemma lru_evict_spec c es x :
  lru_inv c → contents c = es ++ [x] →
  ∃ c', lru_evict c = Some (c', x.1) ∧ lru_inv c' ∧ contents c' = es ∧ Tcapacity c' = Tcapacity c ∧
    mm c' = delete x.1 (mm c).
Proof.
  intros Hinv He. unfold lru_evict.
  destruct (pop_back_spec fst _ _ _ _ (lru_idx _ Hinv) He) as (-> & l' & Hp & Hidx & He').
  simpl. rewrite Hp. simpl. eexists. split_and!; [done| |exact He'|done|done].
  split; simpl; [done|apply Hinv|]. rewrite He'. pose proof (lru_size _ Hinv) as Hsz.
  unfold contents in He. rewrite He, length_app in Hsz. lia.
Qed.

(** Inserting a key that is not in the cache, below capacity. *)
Lemma lru_push_spec c k v :
  lru_inv c → mm c !! k = None → (length (contents c) < Tcapacity c)%Z →
  let '(l, a) := push_front (k, v) (cache c) in
  lru_inv (set_cache c l (<[k := a]> (mm c))) ∧
  contents (set_cache c l (<[k := a]> (mm c))) = (k, v) :: contents c.
Proof.
  intros Hinv Hk Hlt. pose proof (push_front_spec fst _ _ (k, v) (lru_idx _ Hinv) Hk) as Hp.
  unfold push_front in *. destruct Hp as [Hidx He]. split; [|done].
  split; [done|apply Hinv|]. cbn [cache set_cache Tcapacity]. rewrite He.
  unfold contents in Hlt. simpl. lia.
Qed.

Lemma contents_last c : lru_inv c → Z.of_nat (length (contents c)) = Tcapacity c →
  ∃ es x, contents c = es ++ [x].
Proof.
  intros Hinv Hlen. pose proof (lru_cap _ Hinv).
  destruct (exists_last (l := contents c)) as (es & x & ?); [|eauto].
  intros E. rewrite E in Hlen. simpl in Hlen. lia.
Qed.

Lemma lru_put_spec c k v :
  lru_inv c → ∃ c', lru_put c k v = Some c' ∧ lru_inv c' ∧
    contents c' = spec_put (Tcapacity c) (contents c) k v ∧ Tcapacity c' = Tcapacity c.
Proof.
  intros Hinv. pose proof (mm_lookup c k Hinv) as Hk. unfold lru_put, spec_put.
  destruct (mm c !! k) as [a|] eqn:E.
  - destruct Hk as (w & Hd & ->).
    destruct (splice_front_spec fst _ _ _ _ (lru_idx _ Hinv) E)
      as (l1 & [k' w'] & -> & Hd' & Hx & Hidx & _ & He). simplify_eq/=.
    destruct (dupdate_spec fst (λ x, (x.1, v)) l1 (mm c) k a (λ _, eq_refl) Hidx E)
      as (l2 & -> & Hidx2 & He2).
    simpl. eexists. split_and!; [done| | |done].
    + split; simpl; [done|apply Hinv|].
      rewrite <-(idx_size fst _ _ Hidx2), (idx_size fst _ _ (lru_idx _ Hinv)). apply Hinv.
    + unfold contents. simpl. rewrite He2, He. csimpl. rewrite decide_True by done. f_equal.
      rewrite <-list_fmap_id. apply list_fmap_ext. intros i [k' v'] Hi%list_elem_of_lookup_2. simpl.
      apply list_elem_of_filter in Hi as [? _]. by rewrite decide_False.
  - rewrite Hk. rewrite to_size_t_id by (pose proof (lru_cap _ Hinv); lia).
    rewrite (idx_size fst _ _ (lru_idx _ Hinv)). fold (contents c).
    destruct (Z.eqb_spec (length (contents c)) (Tcapacity c)) as [Hfull|Hnf].
    + destruct (contents_last c Hinv Hfull) as (es & x & Hes).
      destruct (lru_evict_spec c es x Hinv Hes) as (c1 & -> & Hinv1 & Hc1 & Hcap1 & Hmm1).
      cbn [fmap option_fmap option_map mbind option_bind fst].
      pose proof (lru_push_spec c1 k v Hinv1) as Hp. rewrite Hmm1, Hc1, Hcap1 in Hp.
      destruct (push_front (k, v) (cache c1)) as [l a]. rewrite Hmm1.
      destruct Hp as [Hinv2 Hc2].
      { by apply lookup_delete_None; right. }
      { rewrite Hes, length_app in Hfull. simpl in Hfull. lia. }
      eexists. split_and!; [done..| |exact Hcap1]. rewrite Hc2, Hes, removelast_last. done.
    + pose proof (lru_push_spec c k v Hinv E) as Hp. cbn [mbind option_bind].
      destruct (push_front (k, v) (cache c)) as [l a].
      destruct Hp as [Hinv2 Hc2]; [pose proof (lru_size _ Hinv); unfold contents in *; lia|].
      by eexists.
Qed.

Lemma lru_erase_spec c k :
  lru_inv c → ∃ c', lru_erase c k = Some c' ∧ lru_inv c' ∧
    contents c' = without k (contents c) ∧ Tcapacity c' = Tcapacity c.
Proof.
  intros Hinv. pose proof (mm_lookup c k Hinv) as Hk. unfold lru_erase.
  destruct (mm c !! k) as [a|] eqn:E.
  - destruct (derase_spec fst _ _ _ _ (lru_idx _ Hinv) E) as (l' & -> & Hidx & He). simpl.
    eexists. split_and!; [done| |exact He|done]. split; simpl; [done|apply Hinv|].
    rewrite He. etransitivity; [|apply Hinv]. apply Nat2Z.inj_le, length_filter.
  - exists c. split_and!; [done..| |done]. symmetry. apply without_id. by apply lookup_es_None.
Qed.
End lru.

(** ** The policy: most recently used keys first *)

Section policy.
Context {K V : Type} `{Countable K}.
Implicit Types (k : K) (v : V) (R : list K).

Inductive lru_op := Get (k : K) | Put (k : K) (v : V).

(** Move a key to the front of a recency list. *)
Definition touch k R : list K := k :: filter (λ k', k' ≠ k) R.

(** The recency order of a history, for a cache of capacity [cap]: a put touches
    its key, a get touches it when it hits, that is when the key is among the [cap]
    most recent ones. *)
Definition recency_step (cap : nat) R (o : lru_op) : list K :=
  match o with
  | Put k _ => touch k R
  | Get k => if decide (k ∈ take cap R) then touch k R else R
  end.

Definition recency (cap : nat) (ops : list lru_op) : list K := fold_left (recency_step cap) ops [].

(** The last value put for each key. *)
Definition last_puts (ops : list lru_op) : gmap K V :=
  fold_left (λ m o, match o with Put k v => <[k := v]> m | Get _ => m end) ops ∅.

Definition lru_step (c : LRUcache K V) (o : lru_op) : option (LRUcache K V) :=
  match o with
  | Get k => fst <$> lru_get c k
  | Put k v => lru_put c k v
  end.

Lemma take_filter_absent n k R :
  k ∉ take n R → take n (filter (λ k', k' ≠ k) R) = take n R.
Proof.
  revert n. induction R as [|k' R IH]; intros [|n] Hk; try done. simpl in Hk.
  apply not_elem_of_cons in Hk as [Hne Hk]. rewrite filter_cons_True by congruence. simpl. f_equal. by apply IH.
Qed.

Lemma take_filter_present n k R :
  NoDup R → k ∈ take (S n) R → take n (filter (λ k', k' ≠ k) R) = filter (λ k', k' ≠ k) (take (S n) R).
Proof.
  revert n. induction R as [|k' R IH]; intros n Hnd Hk; [by destruct n|].
  apply NoDup_cons in Hnd as [Hk' Hnd]. simpl. rewrite !filter_cons.
  destruct (decide (k' = k)) as [->|Hne].
  - rewrite !decide_False by tauto.
    rewrite (filter_all _ R), (filter_all _ (take n R)); [done|..];
      apply Forall_forall; intros x Hx ->; apply Hk'; [|done].
    apply elem_of_take in Hx as (i & Hi & _). by apply list_elem_of_lookup_2 in Hi.
  - rewrite !decide_True by done. simpl in Hk. apply elem_of_cons in Hk as [?|Hk]; [by subst|].
    destruct n as [|n]; [by apply not_elem_of_nil in Hk|]. simpl. f_equal. by apply IH.
Qed.

Lemma touch_NoDup k R : NoDup R → NoDup (touch k R).
Proof.
  intros Hnd. apply NoDup_cons. split; [|by apply NoDup_filter].
  intros [? _]%list_elem_of_filter. done.
Qed.

(** State of the cache against the history. *)
Record policy_inv (cap : nat) (ops : list lru_op) (c : LRUcache K V) : Prop := {
  pol_lru : lru_inv c;
  pol_cap : Tcapacity c = Z.of_nat cap;
  pol_keys : (contents c).*1 = take cap (recency cap ops);
  pol_NoDup : NoDup (recency cap ops);
  pol_vals : ∀ k v, (k, v) ∈ contents c → last_puts ops !! k = Some v
}.

Lemma recency_snoc cap ops o : recency cap (ops ++ [o]) = recency_step cap (recency cap ops) o.
Proof. unfold recency. by rewrite fold_left_app. Qed.

Lemma without_keys k (es : list (K * V)) : (without fst k es).*1 = filter (λ k', k' ≠ k) es.*1.
Proof.
  induction es as [|[k' v'] es IH]; [done|]. csimpl. unfold without in *. rewrite !filter_cons. simpl.
  case_decide; csimpl; [by f_equal|done].
Qed.

(** Touching a key the cache holds. *)
Lemma take_touch_present cap k R :
  NoDup R → k ∈ take cap R → take cap (touch k R) = k :: filter (λ k', k' ≠ k) (take cap R).
Proof.
  intros Hnd Hk. destruct cap as [|n]; [by apply not_elem_of_nil in Hk|].
  unfold touch. cbn [take]. f_equal. by apply take_filter_present.
Qed.

(** Touching a key it does not hold: the least recent key leaves when the cache is
    full. *)
Lemma take_touch_absent cap k R es :
  0 < cap → k ∉ take cap R → es = take cap R →
  take cap (touch k R) = k :: (if (Z.of_nat (length es) =? Z.of_nat cap)%Z then removelast es else es).
Proof.
  intros Hcap Hk ->. destruct cap as [|n]; [lia|]. unfold touch. cbn [take]. f_equal.
  rewrite take_filter_absent.
  2:{ intros (i & Hi & ?)%elem_of_take. apply Hk, elem_of_take. exists i. split; [done|lia]. }
  rewrite length_take. destruct (Z.eqb_spec (Nat.min (S n) (length R)) (S n)).
  - rewrite removelast_firstn_len, length_take, take_take. f_equal. lia.
  - rewrite !take_ge by lia. done.
Qed.

Lemma lookup_es_elem es k : is_Some (lookup_es (V := V) es k) ↔ k ∈ es.*1.
Proof.
  destruct (lookup_es es k) as [v|] eqn:E.
  - split; [intros _|eauto]. destruct (decide (k ∈ es.*1)); [done|].
    by apply lookup_es_None in n as ?; simplify_eq.
  - apply lookup_es_None in E. split; [by intros [? ?]|done].
Qed.

Lemma elem_of_without_es k (es : list (K * V)) k' v' :
  (k', v') ∈ without fst k es → k' ≠ k ∧ (k', v') ∈ es.
Proof. unfold without. by rewrite list_elem_of_filter. Qed.

Lemma policy_get cap ops c k :
  policy_inv cap ops c → ∃ c', lru_step c (Get k) = Some c' ∧ policy_inv cap (ops ++ [Get k]) c'.
Proof.
  intros [Hl Hcap Hkeys Hnd Hvals].
  destruct (lru_get_spec c k Hl) as (c' & Hg & Hl' & Hc' & Hcap').
  simpl. rewrite Hg. eexists. split; [done|]. simpl.
  assert (∀ k v, (k, v) ∈ contents c' → (k, v) ∈ contents c) as Hsub.
  { intros k' v'. rewrite Hc'. unfold spec_get. destruct (lookup_es (contents c) k) eqn:E; [|done].
    intros [[= -> ->]|[_ ?]%elem_of_without_es]%elem_of_cons; [|done].
    apply lookup_es_Some in E; [done|]. apply Hl. }
  pose proof (lookup_es_elem (contents c) k) as Hmem. rewrite Hkeys in Hmem.
  split; [done|congruence|..].
  - rewrite recency_snoc, Hc'. unfold spec_get. simpl. case_decide as Hin.
    + apply Hmem in Hin as E. destruct E as [v E]. rewrite E. csimpl.
      by rewrite without_keys, Hkeys, take_touch_present.
    + destruct (lookup_es (contents c) k); [exfalso; apply Hin, Hmem; eauto|done].
  - rewrite recency_snoc. simpl. case_decide; [by apply touch_NoDup|done].
  - intros k' v' Hin. unfold last_puts. rewrite fold_left_app. apply Hvals, Hsub, Hin.
Qed.

Lemma policy_put cap ops c k v :
  policy_inv cap ops c → ∃ c', lru_step c (Put k v) = Some c' ∧ policy_inv cap (ops ++ [Put k v]) c'.
Proof.
  intros [Hl Hcap Hkeys Hnd Hvals].
  destruct (lru_put_spec c k v Hl) as (c' & Hp & Hl' & Hc' & Hcap').
  simpl. rewrite Hp. eexists. split; [done|].
  pose proof (lookup_es_elem (contents c) k) as Hmem. rewrite Hkeys in Hmem.
  assert (0 < cap) as Hpos by (pose proof (lru_cap _ Hl); lia).
  split; [done|congruence|..].
  - rewrite recency_snoc, Hc'. unfold spec_put. simpl.
    destruct (lookup_es (contents c) k) as [w|] eqn:E; csimpl.
    + rewrite without_keys, Hkeys, take_touch_present; [done..|]. apply Hmem. eauto.
    + rewrite (take_touch_absent cap k _ (contents c).*1); [|done| |done].
      * rewrite length_fmap, Hcap. f_equal. case_match; [|done].
        rewrite !removelast_firstn_len, length_fmap, fmap_take. done.
      * intros Hin. apply Hmem in Hin as [? ?]. done.
  - rewrite recency_snoc. by apply touch_NoDup.
  - intros k' v' Hin. unfold last_puts. rewrite fold_left_app. fold (last_puts ops). simpl.
    destruct (decide (k' = k)) as [->|Hne].
    + assert ((k, v) ∈ contents c') as Hkv
        by (rewrite Hc'; unfold spec_put; destruct (lookup_es (contents c) k); left).
      rewrite lookup_insert_eq. f_equal.
      apply lookup_es_Some in Hkv, Hin; [congruence|apply Hl'..].
    + rewrite lookup_insert_ne by done. apply Hvals.
      rewrite Hc' in Hin. unfold spec_put in Hin.
      destruct (lookup_es (contents c) k); apply elem_of_cons in Hin as [[= -> ->]|Hin]; try done.
      * by apply elem_of_without_es in Hin as [_ ?].
      * case_match; [|done]. rewrite removelast_firstn_len in Hin.
        apply elem_of_take in Hin as (i & Hi & _). by apply list_elem_of_lookup_2 in Hi.
Qed.

Lemma policy_run cap ops hist c :
  policy_inv cap hist c → ∃ c', run_ops lru_step c ops = Some c' ∧ policy_inv cap (hist ++ ops) c'.
Proof.
  revert hist c. induction ops as [|o ops IH]; intros hist c Hinv; simpl.
  - rewrite app_nil_r. eauto.
  - assert (∃ c', lru_step c o = Some c' ∧ policy_inv cap (hist ++ [o]) c') as (c' & -> & Hinv')
      by (destruct o; [by apply policy_get|by apply policy_put]).
    simpl. destruct (IH _ _ Hinv') as (c'' & ? & ?). exists c''. by rewrite <-app_assoc in *.
Qed.

Lemma policy_new cap : (0 < Z.of_nat cap ≤ INT_MAX)%Z → policy_inv cap [] (new_lru cap).
Proof.
  intros Hcap. split; [by apply new_lru_inv|done|by destruct cap|constructor|].
  intros k v Hin. by apply not_elem_of_nil in Hin.
Qed.
End policy.
Arguments lru_op : clear implicits.

(** ** [LRUcache] of [LRUcache_multiThreaded.cpp]: [int] keys and values *)

Definition LRU_make (capacity : Z) : LRUcache Z Z := new_lru capacity.

(** [int get(int key)]: -1 is a miss. *)
Definition LRU_get (c : LRUcache Z Z) (k : Z) : option (LRUcache Z Z * Z) :=
  '(c, r) ← lru_get c k; Some (c, default (-1)%Z r).

Definition LRU_put (c : LRUcache Z Z) (k v : Z) : option (LRUcache Z Z) := lru_put c k v.

(** The answer of [get] in a state that satisfies the policy. *)
Lemma policy_answer cap (ops : list (lru_op Z Z)) c k :
  policy_inv cap ops c →
  ∃ c', LRU_get c k = Some (c', if decide (k ∈ take cap (recency cap ops))
                                then default (-1)%Z (last_puts ops !! k) else (-1)%Z).
Proof.
  intros [Hl _ Hk _ Hv].
  destruct (lru_get_spec c k Hl) as (c' & Hg & _). exists c'. unfold LRU_get. rewrite Hg. simpl.
  pose proof (lookup_es_elem (contents c) k) as Hmem. rewrite Hk in Hmem. do 2 f_equal.
  destruct (lookup_es (contents c) k) as [v|] eqn:E.
  - rewrite decide_True by (apply Hmem; eauto). apply lookup_es_Some in E; [|apply Hl].
    by rewrite (Hv k v E).
  - rewrite decide_False; [done|]. intros [? ?]%Hmem. done.
Qed.



(** ** The two critical sections of [get]

    [get] releases the shared lock after the lookup and takes the unique lock for
    the splice; another thread's [put] can run in between. *)

(** A data race.  With capacity 1, a [put] of another key between the two
    critical sections of [get] erases the node the iterator designates, and the
    splice uses a dangling iterator. *)
Theorem lru_get_race :
  ∃ c0 c1 a v c2, LRU_put (LRU_make 1) 1 10 = Some c0 ∧
    get_lookup c0 1%Z = Some (Some (a, v)) ∧
    LRU_put c0 2 20 = Some c1 ∧ get_splice c1 a = None ∧
    get_splice c0 a = Some c2.
Proof. do 5 eexists. repeat (split; [reflexivity|]). reflexivity. Qed.
