(* ===== verification/GenericEviction.v ===== *)
(** * A cache with a pluggable eviction policy

    [src/oop-framework/GenericEviction_Cache.cpp]: the abstract class
    [EvictionPolicy] (here a type class of operations, with the laws its clients
    need), the implementation [LRUPolicy], and the client class [Cache], which only
    uses the interface. *)
From S2P Require Import Prelude IndexedList LRU.
Local Open Scope nat_scope.

(** ** The interface *)

Class EvictionPolicy (P : Type) := {
  policy_get : P → Z → option (P * Z);
  policy_put : P → Z → Z → option P;
  policy_evict : P → option (P * Z)
}.

(** What a policy promises: the entries it holds are those of a finite map; [get]
    does not change them and answers -1 for a missing key; [put] stores the new
    entry and may drop others, but never invents one. *)
Class EvictionPolicyLaws (P : Type) `{EvictionPolicy P} := {
  pol_ok : P → Prop;
  pol_map : P → gmap Z Z;
  pol_get_law p k : pol_ok p →
    ∃ p', policy_get p k = Some (p', default (-1)%Z (pol_map p !! k)) ∧ pol_ok p' ∧
      pol_map p' = pol_map p;
  pol_put_law p k v : pol_ok p →
    ∃ p', policy_put p k v = Some p' ∧ pol_ok p' ∧ pol_map p' !! k = Some v ∧
      pol_map p' ⊆ <[k := v]> (pol_map p)
}.

(** ** The client *)

Record Cache (P : Type) := { policy : P }.
Arguments policy {P}.
Arguments Build_Cache {P}.

Section client.
Context {P : Type} `{EvictionPolicyLaws P}.

Definition Cache_get (c : Cache P) (k : Z) : option (Cache P * Z) :=
  '(p, r) ← policy_get (policy c) k; Some ({| policy := p |}, r).

Definition Cache_put (c : Cache P) (k v : Z) : option (Cache P) :=
  p ← policy_put (policy c) k v; Some {| policy := p |}.

Definition Cache_step (c : Cache P) (o : lru_op Z Z) : option (Cache P) :=
  match o with
  | Get k => fst <$> Cache_get c k
  | Put k v => Cache_put c k v
  end.

Lemma Cache_run ops hist c :
  pol_ok (policy c) → pol_map (policy c) ⊆ last_puts hist →
  ∃ c', run_ops Cache_step c ops = Some c' ∧ pol_ok (policy c') ∧
    pol_map (policy c') ⊆ last_puts (hist ++ ops).
Proof.
  revert hist c. induction ops as [|[k|k v] ops IH]; intros hist c Hok Hsub; simpl.
  - rewrite app_nil_r. eauto.
  - destruct (pol_get_law (policy c) k Hok) as (p' & Hg & Hok' & Hm). unfold Cache_get.
    rewrite Hg. simpl. replace (hist ++ Get k :: ops) with ((hist ++ [Get k]) ++ ops)
      by (by rewrite <-app_assoc). apply IH; [done|]. simpl. rewrite Hm.
    unfold last_puts. by rewrite fold_left_app.
  - destruct (pol_put_law (policy c) k v Hok) as (p' & Hp & Hok' & _ & Hm). unfold Cache_put.
    rewrite Hp. simpl. replace (hist ++ Put k v :: ops) with ((hist ++ [Put k v]) ++ ops)
      by (by rewrite <-app_assoc). apply IH; [done|]. simpl.
    unfold last_puts. rewrite fold_left_app. simpl. etrans; [done|].
    by apply insert_mono.
Qed.

(** Correctness of the cache for any lawful policy.  After any sequence of
    operations, a get returns -1 or the value last put for that key, and a get right
    after a put of the same key returns the value put. *)
Theorem generic_cache_correct (c : Cache P) (ops : list (lru_op Z Z)) (k v : Z) :
  pol_ok (policy c) → pol_map (policy c) = ∅ →
  ∃ c1 c2 r, run_ops Cache_step c ops = Some c1 ∧
    Cache_get c1 k = Some (c2, r) ∧ (r = (-1)%Z ∨ last_puts ops !! k = Some r) ∧
    ∃ c3 c4, Cache_put c1 k v = Some c3 ∧ Cache_get c3 k = Some (c4, v).
Proof.
  intros Hok Hempty. destruct (Cache_run ops [] c Hok) as (c1 & Hrun & Hok1 & Hsub).
  { rewrite Hempty. apply map_empty_subseteq. }
  destruct (pol_get_law (policy c1) k Hok1) as (p2 & Hg & _).
  destruct (pol_put_law (policy c1) k v Hok1) as (p3 & Hp & Hok3 & Hkv & _).
  destruct (pol_get_law p3 k Hok3) as (p4 & Hg3 & _).
  exists c1, {| policy := p2 |}, (default (-1)%Z (pol_map (policy c1) !! k)).
  unfold Cache_get, Cache_put. rewrite Hg, Hp. split_and!; [done..| |].
  - destruct (pol_map (policy c1) !! k) as [w|] eqn:E; [right|by left].
    simpl. by eapply lookup_weaken.
  - exists {| policy := p3 |}, {| policy := p4 |}. simpl. rewrite Hg3, Hkv. done.
Qed.
End client.

(** ** [LRUPolicy] *)

Definition LRUPolicy : Type := LRUcache Z Z.

Definition LRUPolicy_get (p : LRUPolicy) (k : Z) : option (LRUPolicy * Z) :=
  '(p, r) ← lru_get p k; Some (p, default (-1)%Z r).

(** [evict()] returns the victim's key. *)
Definition LRUPolicy_evict (p : LRUPolicy) : option (LRUPolicy * Z) := lru_evict p.

(** [put] tests [cache.size() == capacity] and calls [evict()]. *)
Definition LRUPolicy_put (p : LRUPolicy) (k v : Z) : option LRUPolicy :=
  match mm p !! k with
  | Some a =>
      l ← splice_front (cache p) a;
      l ← dupdate (λ x, (x.1, v)) l a;
      Some (set_cache p l (mm p))
  | None =>
      p ← (if (dsize (cache p) =? to_size_t (Tcapacity p))%Z then fst <$> LRUPolicy_evict p else Some p);
      let '(l, a) := push_front (k, v) (cache p) in
      Some (set_cache p l (<[k := a]> (mm p)))
  end.

#[export] Instance LRUPolicy_policy : EvictionPolicy LRUPolicy :=
  {| policy_get := LRUPolicy_get; policy_put := LRUPolicy_put; policy_evict := LRUPolicy_evict |}.

Lemma LRUPolicy_put_lru p k v : lru_inv p → LRUPolicy_put p k v = lru_put p k v.
Proof.
  intros Hinv. unfold LRUPolicy_put, lru_put, LRUPolicy_evict, dsize.
  rewrite (idx_size fst _ _ (lru_idx _ Hinv)). unfold entries. by rewrite length_fmap.
Qed.

Definition LRUPolicy_map (p : LRUPolicy) : gmap Z Z := list_to_map (contents p).

Lemma without_lookup (es : list (Z * Z)) k k' :
  k' ≠ k → (list_to_map (without fst k es) : gmap Z Z) !! k' = (list_to_map es : gmap Z Z) !! k'.
Proof.
  intros Hne. induction es as [|[k1 v1] es IH]; [done|]. unfold without in *. rewrite filter_cons. simpl.
  case_decide; simpl; destruct (decide (k1 = k')) as [->|]; simplify_map_eq; done.
Qed.

Lemma removelast_lookup (es : list (Z * Z)) k v :
  NoDup es.*1 → (list_to_map (removelast es) : gmap Z Z) !! k = Some v →
  (list_to_map es : gmap Z Z) !! k = Some v.
Proof.
  intros Hnd Hk. apply elem_of_list_to_map_2 in Hk. apply elem_of_list_to_map_1; [done|].
  rewrite removelast_firstn_len in Hk. apply elem_of_take in Hk as (i & Hi & _).
  by apply list_elem_of_lookup_2 in Hi.
Qed.

#[export] Instance LRUPolicy_laws : EvictionPolicyLaws LRUPolicy.
Proof.
  refine {| pol_ok := lru_inv; pol_map := LRUPolicy_map |}.
  - intros p k Hinv. destruct (lru_get_spec p k Hinv) as (p' & Hg & Hinv' & Hc & _).
    exists p'. simpl. unfold LRUPolicy_get. rewrite Hg. simpl. split_and!; [done..|].
    unfold LRUPolicy_map. rewrite Hc. unfold spec_get.
    destruct (lookup_es (contents p) k) as [v|] eqn:E; [|done]. simpl.
    apply map_eq. intros k'. destruct (decide (k' = k)) as [->|]; simplify_map_eq; [done|].
    by apply without_lookup.
  - intros p k v Hinv. destruct (lru_put_spec p k v Hinv) as (p' & Hp & Hinv' & Hc & _).
    exists p'. simpl. rewrite LRUPolicy_put_lru by done. unfold LRUPolicy_map. rewrite Hc. unfold spec_put.
    split_and!; [done..| |].
    + destruct (lookup_es (contents p) k); apply lookup_insert_eq.
    + apply map_subseteq_spec. intros k' v' Hk'.
      destruct (lookup_es (contents p) k) as [w|] eqn:E; simpl in Hk';
        destruct (decide (k' = k)) as [->|]; simplify_map_eq; try done.
      * by rewrite without_lookup in Hk'.
      * case_match; [|done]. apply removelast_lookup; [apply Hinv|done].
Defined.

(** The hypotheses hold for the empty LRU policy. *)
Lemma generic_cache_correct_witness :
  ∃ c1 c2 r, run_ops Cache_step {| policy := new_lru 2 : LRUPolicy |} [Put 1 10; Put 2 20; Put 3 30]%Z = Some c1 ∧
    Cache_get c1 1 = Some (c2, r) ∧
    (r = (-1)%Z ∨ last_puts [Put 1 10; Put 2 20; Put 3 30]%Z !! 1%Z = Some r) ∧
    ∃ c3 c4, Cache_put c1 1 7 = Some c3 ∧ Cache_get c3 1 = Some (c4, 7%Z).
Proof.
  apply (generic_cache_correct {| policy := new_lru 2 : LRUPolicy |}
           [Put 1 10; Put 2 20; Put 3 30]%Z 1 7).
  - apply new_lru_inv. unfold INT_MAX. lia.
  - reflexivity.
Defined.
