(* ===== verification/MetadataStore.v ===== *)
(** * Metadata service with a write-through cache

    [src/storage/Metadata_Store.cpp]: an LRU cache of file metadata (the class of
    [LRU.v] at string keys) in front of the authoritative [metadata_store].
    [MetadataService::get] has two critical sections: the cache lookup under the
    cache's mutex, and, on a miss, the store lookup and cache fill under the
    service's shared lock, which excludes [put] and [remove].  They are separate
    steps here, so that the operations of other threads may come in between. *)
From S2P Require Import Prelude IndexedList LRU.
Local Open Scope string_scope.
Local Open Scope list_scope.
Local Open Scope nat_scope.

(** ** State *)

Record Metadata := { inode_number : Z; file_size : Z }.

#[export] Instance Metadata_eq_dec : EqDecision Metadata.
Proof. solve_decision. Defined.

(** [{-1, 0}] *)
Definition no_metadata : Metadata := {| inode_number := -1; file_size := 0 |}.

Definition MetaCache : Type := LRUcache string Metadata.

Record MetadataService := {
  meta_cache : MetaCache;
  metadata_store : gmap string Metadata
}.

Definition new_service (cache_size : Z) : MetadataService :=
  {| meta_cache := new_lru cache_size; metadata_store := ∅ |}.

(** ** The cache's methods *)

Definition cache_get (c : MetaCache) (k : string) : option (MetaCache * Metadata) :=
  '(c, r) ← lru_get c k; Some (c, default no_metadata r).

Definition cache_put (c : MetaCache) (k : string) (m : Metadata) : option MetaCache := lru_put c k m.

Definition cache_erase (c : MetaCache) (k : string) : option MetaCache := lru_erase c k.

(** ** The service's methods *)

Definition meta_remove (s : MetadataService) (path : string) : option MetadataService :=
  c ← cache_erase (meta_cache s) path;
  Some {| meta_cache := c; metadata_store := delete path (metadata_store s) |}.

Definition meta_put (s : MetadataService) (path : string) (inode size : Z) : option MetadataService :=
  let meta := {| inode_number := inode; file_size := size |} in
  c ← cache_put (meta_cache s) path meta;
  Some {| meta_cache := c; metadata_store := <[path := meta]> (metadata_store s) |}.

(** First critical section of [get]. *)
Definition meta_get_cached (s : MetadataService) (path : string) : option (MetadataService * Metadata) :=
  '(c, meta) ← cache_get (meta_cache s) path;
  Some ({| meta_cache := c; metadata_store := metadata_store s |}, meta).

(** Second critical section, after a miss. *)
Definition meta_get_store (s : MetadataService) (path : string) : option (MetadataService * Metadata) :=
  match metadata_store s !! path with
  | None => Some (s, no_metadata)
  | Some meta =>
      c ← cache_put (meta_cache s) path meta;
      Some ({| meta_cache := c; metadata_store := metadata_store s |}, meta)
  end.

Definition meta_get (s : MetadataService) (path : string) : option (MetadataService * Metadata) :=
  '(s, meta) ← meta_get_cached s path;
  if (inode_number meta =? -1)%Z then meta_get_store s path else Some (s, meta).

(** [searchByPrefix]: the paths of the store that start with the prefix, in the
    order of the hash table. *)
Definition searchByPrefix (s : MetadataService) (prefix : string) : list string :=
  filter (λ p, String.prefix prefix p = true) (map_to_list (metadata_store s)).*1.

(** ** Coherence *)

(** Every cached entry is the entry of the store. *)
Record coherent (s : MetadataService) : Prop := {
  coh_lru : lru_inv (meta_cache s);
  coh_sub : ∀ k m, (k, m) ∈ contents (meta_cache s) → metadata_store s !! k = Some m
}.

Lemma new_service_coherent n : (0 < n ≤ INT_MAX)%Z → coherent (new_service n).
Proof.
  intros Hn. split; [by apply new_lru_inv|]. intros k m Hin. by apply not_elem_of_nil in Hin.
Qed.

(** What a put leaves in a cache. *)
Lemma elem_of_spec_put cap (es : list (string * Metadata)) k m k' m' :
  NoDup es.*1 → (k', m') ∈ spec_put cap es k m → (k', m') = (k, m) ∨ (k' ≠ k ∧ (k', m') ∈ es).
Proof.
  intros Hnd. unfold spec_put. destruct (lookup_es es k) as [w|] eqn:E.
  - intros [?|Hin]%elem_of_cons; [by left|right]. by apply elem_of_without_es.
  - intros [?|Hin]%elem_of_cons; [by left|right].
    assert ((k', m') ∈ es) as Hin'.
    { case_match; [|done]. rewrite removelast_firstn_len in Hin.
      apply elem_of_take in Hin as (i & Hi & _). by apply list_elem_of_lookup_2 in Hi. }
    split; [|done]. intros ->. apply lookup_es_None in E. apply E.
    by apply (list_elem_of_fmap_2 fst) in Hin'.
Qed.

Lemma cache_put_coherent s k m store' :
  coherent s → store' !! k = Some m →
  (∀ k', k' ≠ k → store' !! k' = metadata_store s !! k') →
  ∃ c, cache_put (meta_cache s) k m = Some c ∧
    coherent {| meta_cache := c; metadata_store := store' |}.
Proof.
  intros [Hl Hs] Hk Hne. destruct (lru_put_spec _ k m Hl) as (c & Hp & Hl' & Hc & _).
  exists c. split; [done|]. split; [done|]. simpl. intros k' m' Hin. rewrite Hc in Hin.
  apply elem_of_spec_put in Hin as [[= -> ->]|[? ?]]; [done| |apply Hl].
  rewrite Hne by done. by apply Hs.
Qed.

Lemma meta_put_coherent s k i z :
  coherent s → ∃ s', meta_put s k i z = Some s' ∧ coherent s' ∧
    metadata_store s' = <[k := {| inode_number := i; file_size := z |}]> (metadata_store s).
Proof.
  intros Hc. unfold meta_put.
  destruct (cache_put_coherent s k {| inode_number := i; file_size := z |}
    (<[k := {| inode_number := i; file_size := z |}]> (metadata_store s)) Hc) as (c & -> & Hc');
    [apply lookup_insert_eq|by intros; rewrite lookup_insert_ne|].
  simpl. eauto.
Qed.

Lemma meta_remove_coherent s k :
  coherent s → ∃ s', meta_remove s k = Some s' ∧ coherent s' ∧
    metadata_store s' = delete k (metadata_store s).
Proof.
  intros [Hl Hs]. unfold meta_remove, cache_erase.
  destruct (lru_erase_spec _ k Hl) as (c & -> & Hl' & Hc & _). simpl. eexists. split_and!; [done| |done].
  split; [done|]. simpl. intros k' m'. rewrite Hc. intros [? ?]%elem_of_without_es.
  rewrite lookup_delete_ne by done. by apply Hs.
Qed.

Lemma meta_get_cached_coherent s k :
  coherent s → ∃ s' m, meta_get_cached s k = Some (s', m) ∧ coherent s' ∧
    metadata_store s' = metadata_store s ∧
    (inode_number m = (-1)%Z ∨ metadata_store s !! k = Some m).
Proof.
  intros [Hl Hs]. unfold meta_get_cached, cache_get.
  destruct (lru_get_spec _ k Hl) as (c & -> & Hl' & Hc & _). simpl.
  do 2 eexists. split_and!; [done| |done|].
  - split; [done|]. simpl. intros k' m'. rewrite Hc. unfold spec_get.
    destruct (lookup_es (contents (meta_cache s)) k) as [w|] eqn:E; [|by apply Hs].
    intros [[= -> ->]|[_ ?]%elem_of_without_es]%elem_of_cons; [|by apply Hs].
    apply Hs. apply lookup_es_Some in E; [done|apply Hl].
  - destruct (lookup_es (contents (meta_cache s)) k) as [w|] eqn:E; [|by left]. right. simpl.
    apply Hs. apply lookup_es_Some in E; [done|apply Hl].
Qed.

Lemma meta_get_store_coherent s k :
  coherent s → ∃ s', meta_get_store s k = Some (s', default no_metadata (metadata_store s !! k)) ∧
    coherent s' ∧ metadata_store s' = metadata_store s.
Proof.
  intros Hc. unfold meta_get_store. destruct (metadata_store s !! k) as [m|] eqn:E; [|eauto].
  destruct (cache_put_coherent s k m (metadata_store s) Hc E) as (c & -> & Hc'); [done|].
  simpl. eauto.
Qed.

Lemma meta_get_coherent s k :
  coherent s → ∃ s', meta_get s k = Some (s', default no_metadata (metadata_store s !! k)) ∧
    coherent s' ∧ metadata_store s' = metadata_store s.
Proof.
  intros Hc. unfold meta_get.
  destruct (meta_get_cached_coherent s k Hc) as (s1 & m & -> & Hc1 & Hst & Hm). simpl.
  destruct (Z.eqb_spec (inode_number m) (-1)).
  - destruct (meta_get_store_coherent s1 k Hc1) as (s2 & -> & ? & ?). rewrite Hst in *. eauto.
  - destruct Hm as [?| ->]; [done|]. eauto.
Qed.

(** ** Interleavings of the critical sections *)

Inductive meta_op :=
  | MPut (path : string) (inode size : Z)
  | MRemove (path : string)
  | MGetCached (path : string)
  | MGetStore (path : string).

Definition meta_step (s : MetadataService) (o : meta_op) : option MetadataService :=
  match o with
  | MPut p i z => meta_put s p i z
  | MRemove p => meta_remove s p
  | MGetCached p => fst <$> meta_get_cached s p
  | MGetStore p => fst <$> meta_get_store s p
  end.

(** The store after a sequence of operations. *)
Definition meta_apply (m : gmap string Metadata) (o : meta_op) : gmap string Metadata :=
  match o with
  | MPut p i z => <[p := {| inode_number := i; file_size := z |}]> m
  | MRemove p => delete p m
  | _ => m
  end.

Lemma meta_run ops s :
  coherent s → ∃ s', run_ops meta_step s ops = Some s' ∧ coherent s' ∧
    metadata_store s' = fold_left meta_apply ops (metadata_store s).
Proof.
  revert s. induction ops as [|o ops IH]; intros s Hc; simpl; [eauto|].
  assert (∃ s1, meta_step s o = Some s1 ∧ coherent s1 ∧ metadata_store s1 = meta_apply (metadata_store s) o)
    as (s1 & -> & Hc1 & <-).
  { destruct o; simpl.
    - by apply meta_put_coherent.
    - by apply meta_remove_coherent.
    - destruct (meta_get_cached_coherent s path Hc) as (s1 & m & -> & ? & ? & _). eauto.
    - destruct (meta_get_store_coherent s path Hc) as (s1 & -> & ? & ?). eauto. }
  simpl. by apply IH.
Qed.


