(* ===== verification/MultiTierCache.v ===== *)
(** * Multi-tier cache

    [src/caching/LRUcache_multi-tier_RAM-SSD-HDD.cpp]: a stack of LRU lists (RAM,
    SSD, HDD); an insertion goes to the top tier, whose victim cascades to the next
    one, and a hit promotes the entry to the top.  The main result is a refinement:
    read from the top down, the tiers behave as one LRU list whose capacity is the
    sum of the tiers' capacities. *)
From S2P Require Import Prelude IndexedList LRU.
Local Open Scope nat_scope.

(** ** One tier *)

Abbreviation Tier := (LRUcache Z Z).

Definition tier_full (c : Tier) : bool := (to_size_t (Tcapacity c) <=? size (mm c))%Z.

(** [get(key)] of a tier; [MultiTierCache] does not use it. *)
Definition tier_get (c : Tier) (k : Z) : option (Tier * Z) :=
  match mm c !! k with
  | None => Some (c, (-1)%Z)
  | Some a =>
      l ← splice_front (cache c) a;
      x ← deref l a;
      Some (set_cache c l (mm c), x.2)
  end.

(** [insert(key, value)], with no test of the capacity. *)
Definition tier_insert (c : Tier) (k v : Z) : Tier :=
  let '(l, a) := push_front (k, v) (cache c) in set_cache c l (<[k := a]> (mm c)).

Definition tier_erase (c : Tier) (k : Z) : option Tier := lru_erase c k.

Definition tier_evictLRU (c : Tier) : option (Tier * (Z * Z)) :=
  victim ← back (cache c);
  l ← pop_back (cache c);
  Some (set_cache c l (delete victim.1 (mm c)), victim).

Definition tier_remove_and_extract_value (c : Tier) (k : Z) : option (Tier * option Z) :=
  match mm c !! k with
  | None => Some (c, None)
  | Some a =>
      x ← deref (cache c) a;
      l ← derase (cache c) a;
      Some (set_cache c l (delete k (mm c)), Some x.2)
  end.

(** ** The tiers *)

Record MultiTierCache := { tiers : list Tier; key_to_tier : gmap Z nat }.

Definition new_multi_tier (capacities : list Z) : MultiTierCache :=
  {| tiers := new_lru <$> capacities; key_to_tier := ∅ |}.

(** The recursion on [level]; [None] is undefined behaviour or exhausted fuel. *)
Fixpoint insert_into_tier (fuel : nat) (s : MultiTierCache) (level : nat) (k v : Z) :
    option MultiTierCache :=
  match fuel with
  | O => None
  | S fuel =>
      if length (tiers s) <=? level then
        Some {| tiers := tiers s; key_to_tier := delete k (key_to_tier s) |}
      else
        currLRU ← tiers s !! level;
        if negb (tier_full currLRU) then
          Some {| tiers := <[level := tier_insert currLRU k v]> (tiers s);
                  key_to_tier := <[k := level]> (key_to_tier s) |}
        else
          '(c, evicted) ← tier_evictLRU currLRU;
          let k2t := delete evicted.1 (key_to_tier s) in
          insert_into_tier fuel
            {| tiers := <[level := tier_insert c k v]> (tiers s); key_to_tier := <[k := level]> k2t |}
            (S level) evicted.1 evicted.2
  end.

Definition insert_top (s : MultiTierCache) (k v : Z) : option MultiTierCache :=
  insert_into_tier (S (length (tiers s))) s 0 k v.

Definition mt_put (s : MultiTierCache) (k v : Z) : option MultiTierCache :=
  match key_to_tier s !! k with
  | Some level =>
      c ← tiers s !! level;
      c ← tier_erase c k;
      insert_top {| tiers := <[level := c]> (tiers s); key_to_tier := delete k (key_to_tier s) |} k v
  | None => insert_top s k v
  end.

Definition mt_get (s : MultiTierCache) (k : Z) : option (MultiTierCache * Z) :=
  match key_to_tier s !! k with
  | None => Some (s, (-1)%Z)
  | Some level =>
      c ← tiers s !! level;
      '(c, value) ← tier_remove_and_extract_value c k;
      let s := {| tiers := <[level := c]> (tiers s); key_to_tier := key_to_tier s |} in
      match value with
      | None => Some (s, (-1)%Z)
      | Some v =>
          s ← insert_top {| tiers := tiers s; key_to_tier := delete k (key_to_tier s) |} k v;
          Some (s, v)
      end
  end.

(** ** Invariant *)

(** The entries from the top tier down. *)
Definition flat (ts : list Tier) : list (Z * Z) := concat (contents <$> ts).

Definition total_capacity (ts : list Tier) : Z := foldr (λ c n, Tcapacity c + n)%Z 0%Z ts.

Definition filled (c : Tier) : Prop := Z.of_nat (length (contents c)) = Tcapacity c.

#[export] Instance filled_dec c : Decision (filled c).
Proof. unfold filled. apply _. Defined.

Record mt_inv (s : MultiTierCache) : Prop := {
  mt_tiers : Forall lru_inv (tiers s);
  mt_keys : NoDup (flat (tiers s)).*1;
  mt_index : ∀ k i, key_to_tier s !! k = Some i ↔
    ∃ c, tiers s !! i = Some c ∧ k ∈ (contents c).*1
}.

Lemma tier_full_filled c : lru_inv c → tier_full c = true ↔ filled c.
Proof.
  intros Hinv. unfold tier_full, filled. pose proof (lru_cap _ Hinv). pose proof (lru_size _ Hinv) as Hs.
  rewrite to_size_t_id by lia. rewrite (idx_size fst _ _ (lru_idx _ Hinv)).
  fold (contents c) in *. rewrite Z.leb_le. lia.
Qed.

Lemma flat_app ts1 ts2 : flat (ts1 ++ ts2) = flat ts1 ++ flat ts2.
Proof. unfold flat. by rewrite fmap_app, concat_app. Qed.

Lemma flat_cons c ts : flat (c :: ts) = contents c ++ flat ts.
Proof. done. Qed.

Lemma flat_keys ts : (flat ts).*1 = concat ((λ c, (contents c).*1) <$> ts).
Proof. induction ts as [|c ts IH]; [done|]. rewrite flat_cons, fmap_app, IH. done. Qed.

Lemma flat_elem ts i c x : ts !! i = Some c → x ∈ contents c → x ∈ flat ts.
Proof.
  intros Hi Hx. rewrite <-(take_drop_middle ts i c Hi), flat_app, flat_cons, !elem_of_app. auto.
Qed.

(** Splitting the tiers around a level. *)
Lemma tiers_split (ts : list Tier) level c :
  ts !! level = Some c → ts = take level ts ++ c :: drop (S level) ts.
Proof. intros Hc. symmetry. by apply take_drop_middle. Qed.

Lemma tiers_update (ts : list Tier) level c c' :
  ts !! level = Some c → <[level := c']> ts = take level ts ++ c' :: drop (S level) ts.
Proof. intros Hc. apply insert_take_drop. by apply lookup_lt_Some in Hc. Qed.

Lemma tier_insert_spec c k v :
  lru_inv c → k ∉ (contents c).*1 → ¬ filled c →
  lru_inv (tier_insert c k v) ∧ contents (tier_insert c k v) = (k, v) :: contents c ∧
  Tcapacity (tier_insert c k v) = Tcapacity c.
Proof.
  intros Hinv Hk Hf. unfold tier_insert.
  assert (mm c !! k = None) as Hm by (by apply (idx_None_iff fst _ _ _ (lru_idx _ Hinv))).
  pose proof (lru_push_spec c k v Hinv Hm) as Hp. destruct (push_front (k, v) (cache c)) as [l a].
  destruct Hp as [? ?]; [|done]. pose proof (lru_size _ Hinv). unfold filled, contents in *. lia.
Qed.

Lemma tier_evict_spec c es x :
  lru_inv c → contents c = es ++ [x] →
  ∃ c', tier_evictLRU c = Some (c', x) ∧ lru_inv c' ∧ contents c' = es ∧ Tcapacity c' = Tcapacity c.
Proof.
  intros Hinv He. destruct (lru_evict_spec c es x Hinv He) as (c' & Hev & ? & ? & ? & _).
  unfold lru_evict in Hev. unfold tier_evictLRU. exists c'.
  destruct (back (cache c)) as [y|] eqn:Hb; [|done]. simpl in *.
  destruct (pop_back (cache c)) as [l|]; [|done]. simpl in *. simplify_eq.
  destruct (pop_back_spec fst _ _ _ _ (lru_idx _ Hinv) He) as [Hb' _]. simplify_eq. done.
Qed.

(** An index that is right for some tiers stays right when one tier changes by the
    given keys. *)
Lemma mt_index_update s level c c' (k2t' : gmap Z nat) :
  mt_inv s → tiers s !! level = Some c →
  (∀ k, k2t' !! k = if decide (k ∈ (contents c').*1) then Some level
                    else if decide (k ∈ (contents c).*1) then None else key_to_tier s !! k) →
  (∀ k i c1, k ∈ (contents c').*1 → tiers s !! i = Some c1 → k ∈ (contents c1).*1 → i = level) →
  ∀ k i, k2t' !! k = Some i ↔ ∃ c1, <[level := c']> (tiers s) !! i = Some c1 ∧ k ∈ (contents c1).*1.
Proof.
  intros Hinv Hc Hk2t Huniq k i. rewrite Hk2t.
  assert (level < length (tiers s)) as Hlt by (by eapply lookup_lt_Some).
  split.
  - case_decide as Hin'; [|case_decide as Hin].
    + intros [= <-]. exists c'. by rewrite list_lookup_insert_eq.
    + done.
    + intros Hi. apply (mt_index s Hinv) in Hi as (c1 & Hc1 & Hk).
      exists c1. split; [|done]. rewrite list_lookup_insert_ne; [done|].
      intros ->. by simplify_eq.
  - intros (c1 & Hc1 & Hk). destruct (decide (i = level)) as [->|Hne].
    + rewrite list_lookup_insert_eq in Hc1 by done. simplify_eq. by rewrite decide_True.
    + rewrite list_lookup_insert_ne in Hc1 by done. case_decide as Hin'.
      * f_equal. symmetry. by eapply Huniq.
      * assert (key_to_tier s !! k = Some i) as Hi by (apply (mt_index s Hinv); eauto).
        case_decide as Hin; [|done].
        assert (key_to_tier s !! k = Some level) by (apply (mt_index s Hinv); eauto). congruence.
Qed.

(** Replacing one tier in a well-formed state. *)
Lemma mt_inv_update s level c c' k2t' :
  mt_inv s → tiers s !! level = Some c → lru_inv c' →
  NoDup (flat (<[level := c']> (tiers s))).*1 →
  (∀ k, k2t' !! k = if decide (k ∈ (contents c').*1) then Some level
                    else if decide (k ∈ (contents c).*1) then None else key_to_tier s !! k) →
  mt_inv {| tiers := <[level := c']> (tiers s); key_to_tier := k2t' |}.
Proof.
  intros Hinv Hc Hl' Hnd Hk2t. split; simpl; [|done|].
  - apply Forall_insert; [apply Hinv|done].
  - eapply mt_index_update; [done..|]. intros k i c1 Hin' Hi Hin.
    destruct (decide (i = level)) as [|Hne]; [done|exfalso].
    assert (i < length (tiers s)) as Hlt by (by eapply lookup_lt_Some).
    assert (<[level := c']> (tiers s) !! i = Some c1) as Hi' by (by rewrite list_lookup_insert_ne).
    assert (<[level := c']> (tiers s) !! level = Some c') as Hl
      by (apply list_lookup_insert_eq; by eapply lookup_lt_Some).
    eapply (NoDup_concat_inj (λ c, (contents c).*1)); [|exact Hi'|exact Hl|done..].
    by rewrite flat_keys in Hnd.
Qed.

(** What an insertion at some level does to the entries from that level down. *)
Definition cascade (x : Z * Z) (ts : list Tier) : list (Z * Z) :=
  if decide (Forall filled ts) then removelast (x :: flat ts) else x :: flat ts.

Lemma cascade_full x c ts es y :
  filled c → contents c = es ++ [y] → cascade x (c :: ts) = (x :: es) ++ cascade y ts.
Proof.
  intros Hf He. unfold cascade. rewrite flat_cons, He, <-app_assoc.
  destruct (decide (Forall filled ts)) as [Hts|Hts].
  - rewrite decide_True by (by constructor). rewrite <-removelast_app by done. done.
  - rewrite decide_False by (by intros [_ ?]%Forall_cons). done.
Qed.

Lemma cascade_not_full x c ts : ¬ filled c → cascade x (c :: ts) = x :: contents c ++ flat ts.
Proof. intros Hf. unfold cascade. by rewrite decide_False by (by intros [? _]%Forall_cons). Qed.

Definition caps (ts : list Tier) : list Z := Tcapacity <$> ts.

Lemma caps_update (ts : list Tier) level c c' :
  ts !! level = Some c → Tcapacity c' = Tcapacity c → caps (<[level := c']> ts) = caps ts.
Proof.
  intros Hc Hcap. unfold caps. rewrite list_fmap_insert, Hcap. apply list_insert_id.
  by rewrite list_lookup_fmap, Hc.
Qed.

(** Keys stay distinct when [k] enters at the front of a part and [x] leaves from
    its back. *)
Lemma NoDup_evict (l1 l2 l3 : list Z) x k :
  NoDup (l1 ++ (l2 ++ [x]) ++ l3) → k ∉ l1 ++ (l2 ++ [x]) ++ l3 → NoDup (x :: l1 ++ k :: l2 ++ l3).
Proof.
  intros Hnd Hk.
  assert (x :: l1 ++ k :: l2 ++ l3 ≡ₚ k :: l1 ++ (l2 ++ [x]) ++ l3) as ->; [|by constructor].
  rewrite <-(Permutation_middle l1 (l2 ++ l3) k), <-app_assoc. simpl.
  rewrite (app_assoc l1 l2 (x :: l3)), <-(Permutation_middle (l1 ++ l2) l3 x), <-app_assoc.
  apply perm_swap.
Qed.

Lemma take_insert_S {A} (l : list A) i x y :
  l !! i = Some y → take (S i) (<[i := x]> l) = take i l ++ [x].
Proof.
  intros Hi. assert (i < length l) as Hlt by (by eapply lookup_lt_Some).
  rewrite (take_S_r _ i x) by (by apply list_lookup_insert_eq).
  by rewrite take_insert_ge by lia.
Qed.

(** The index after a full tier has taken [k] and lost [x]. *)
Lemma index_evict (k2t : gmap Z nat) level (ks : list Z) k x k' :
  k ≠ x → x ∉ ks → (∀ k', k' ∈ ks → k2t !! k' = Some level) →
  <[k := level]> (delete x k2t) !! k' =
  if decide (k' ∈ k :: ks) then Some level
  else if decide (k' ∈ ks ++ [x]) then None else k2t !! k'.
Proof.
  intros Hkx Hx Hin. destruct (decide (k' ∈ k :: ks)) as [[->|Hk]%elem_of_cons|Hk].
  - apply lookup_insert_eq.
  - destruct (decide (k' = k)) as [->|]; [apply lookup_insert_eq|].
    rewrite lookup_insert_ne, lookup_delete_ne by (by intros ->). by apply Hin.
  - apply not_elem_of_cons in Hk as [Hk Hks]. rewrite lookup_insert_ne by done.
    destruct (decide (k' ∈ ks ++ [x])) as [Hk'|Hk'].
    + apply elem_of_app in Hk' as [?| ->%list_elem_of_singleton]; [done|]. apply lookup_delete_eq.
    + apply lookup_delete_ne. intros ->. apply Hk'. apply elem_of_app. right. by left.
Qed.

(** The index after a tier with room has taken [k]. *)
Lemma index_insert (k2t : gmap Z nat) level (ks : list Z) k k' :
  (∀ k', k' ∈ ks → k2t !! k' = Some level) →
  <[k := level]> k2t !! k' =
  if decide (k' ∈ k :: ks) then Some level else if decide (k' ∈ ks) then None else k2t !! k'.
Proof.
  intros Hin. destruct (decide (k' ∈ k :: ks)) as [[->|Hk]%elem_of_cons|Hk].
  - apply lookup_insert_eq.
  - destruct (decide (k' = k)) as [->|]; [apply lookup_insert_eq|].
    rewrite lookup_insert_ne by done. by apply Hin.
  - apply not_elem_of_cons in Hk as [Hk Hks]. by rewrite lookup_insert_ne, decide_False by done.
Qed.

(** A key that is in no tier is in none of the indices either. *)
Lemma fresh_key s k :
  mt_inv s → k ∉ (flat (tiers s)).*1 →
  key_to_tier s !! k = None ∧ ∀ i c, tiers s !! i = Some c → k ∉ (contents c).*1.
Proof.
  intros Hinv Hk. assert (∀ i c, tiers s !! i = Some c → k ∉ (contents c).*1) as Hno.
  { intros i c Hc Hin. apply Hk. apply list_elem_of_fmap in Hin as (x & -> & Hx).
    apply list_elem_of_fmap_2. by eapply flat_elem. }
  split; [|done]. destruct (key_to_tier s !! k) as [i|] eqn:E; [|done].
  apply (mt_index _ Hinv) in E as (c & Hc & Hin). by destruct (Hno i c Hc).
Qed.

(** A tier with room takes the entry. *)
Lemma insert_room s level c k v :
  mt_inv s → k ∉ (flat (tiers s)).*1 → tiers s !! level = Some c → ¬ filled c →
  let s' := {| tiers := <[level := tier_insert c k v]> (tiers s); key_to_tier := <[k := level]> (key_to_tier s) |} in
  mt_inv s' ∧ caps (tiers s') = caps (tiers s) ∧
  flat (tiers s') = flat (take level (tiers s)) ++ cascade (k, v) (c :: drop (S level) (tiers s)).
Proof.
  intros Hinv Hk Hc Hnf. destruct (fresh_key s k Hinv Hk) as [_ Hkc].
  assert (lru_inv c) as Hl by (by eapply Forall_lookup_1; [apply Hinv|]).
  pose proof (mt_keys _ Hinv) as Hnd.
  rewrite (tiers_split _ _ _ Hc), flat_app, flat_cons, !fmap_app in Hnd, Hk.
  destruct (tier_insert_spec c k v Hl (Hkc _ _ Hc) Hnf) as (Hl2 & Hc2 & Hcap2). split; [|split].
  - eapply mt_inv_update; [done..| |].
    + rewrite (tiers_update _ _ _ _ Hc), flat_app, flat_cons, Hc2, !fmap_app. csimpl.
      rewrite <-Permutation_middle. by constructor.
    + intros k'. rewrite Hc2. csimpl. apply index_insert.
      intros k1 Hk1. apply (mt_index _ Hinv). eauto.
  - simpl. by eapply caps_update.
  - simpl. rewrite (tiers_update _ _ _ _ Hc), flat_app, flat_cons, Hc2. by rewrite cascade_not_full.
Qed.

(** A full tier takes the entry and hands its last one on. *)
Lemma insert_full s level c k v es x :
  mt_inv s → k ∉ (flat (tiers s)).*1 → tiers s !! level = Some c → filled c → contents c = es ++ [x] →
  ∃ c1, tier_evictLRU c = Some (c1, x) ∧
    let c2 := tier_insert c1 k v in
    let s' := {| tiers := <[level := c2]> (tiers s); key_to_tier := <[k := level]> (delete x.1 (key_to_tier s)) |} in
    contents c2 = (k, v) :: es ∧ mt_inv s' ∧ x.1 ∉ (flat (tiers s')).*1 ∧ caps (tiers s') = caps (tiers s).
Proof.
  intros Hinv Hk Hc Hfull Hes. destruct (fresh_key s k Hinv Hk) as [_ Hkc]. specialize (Hkc _ _ Hc).
  assert (lru_inv c) as Hl by (by eapply Forall_lookup_1; [apply Hinv|]).
  pose proof (mt_keys _ Hinv) as Hnd.
  rewrite (tiers_split _ _ _ Hc), flat_app, flat_cons, !fmap_app in Hnd, Hk.
  destruct (tier_evict_spec c es x Hl Hes) as (c1 & Hev & Hl1 & Hes1 & Hcap1). exists c1. split; [done|].
  destruct (tier_insert_spec c1 k v Hl1) as (Hl2 & Hc2 & Hcap2).
  { rewrite Hes1. intros Hin. apply Hkc. rewrite Hes, fmap_app, elem_of_app. by left. }
  { unfold filled in *. rewrite Hes1, Hcap1, <-Hfull, Hes, length_app. simpl. lia. }
  rewrite Hes1 in Hc2. intros c2 s'. fold c2 in Hl2, Hc2, Hcap2. split; [done|].
  rewrite Hes in Hnd, Hk, Hkc. rewrite !fmap_app in Hnd, Hk, Hkc. simpl in Hnd, Hk, Hkc.
  assert (NoDup (x.1 :: (flat (<[level := c2]> (tiers s))).*1)) as Hnd2.
  { rewrite (tiers_update _ _ _ _ Hc), flat_app, flat_cons, Hc2, !fmap_app. csimpl. by apply NoDup_evict. }
  apply NoDup_cons in Hnd2 as [Hx2 Hnd2]. split; [|split; [done|]].
  - eapply mt_inv_update; [done..|]. intros k'. rewrite Hc2, Hes, fmap_app. csimpl.
    apply NoDup_app in Hnd as (_ & _ & Hnd).
    apply NoDup_app in Hnd as (Hnd & _ & _). apply NoDup_app in Hnd as (_ & Hdis & _). apply index_evict.
    + intros ->. apply Hkc. apply elem_of_app. right. by left.
    + intros ?. apply (Hdis x.1); [done|by left].
    + intros k1 Hk1. apply (mt_index _ Hinv). exists c. split; [done|]. rewrite Hes, fmap_app, elem_of_app. by left.
  - simpl. eapply caps_update; [done|congruence].
Qed.

Lemma insert_into_tier_spec fuel s level k v :
  mt_inv s → k ∉ (flat (tiers s)).*1 → length (tiers s) - level < fuel →
  ∃ s', insert_into_tier fuel s level k v = Some s' ∧ mt_inv s' ∧
    caps (tiers s') = caps (tiers s) ∧
    flat (tiers s') = flat (take level (tiers s)) ++ cascade (k, v) (drop level (tiers s)).
Proof.
  revert s level k v. induction fuel as [|fuel IH]; intros s level k v Hinv Hk Hfuel; [lia|].
  simpl. destruct (Nat.leb_spec (length (tiers s)) level) as [Hge|Hlt].
  { eexists. split_and!; [done| |done|].
    - rewrite delete_id by (by apply fresh_key). by destruct s.
    - rewrite take_ge, drop_ge by lia. unfold cascade. simpl. by rewrite app_nil_r. }
  destruct (lookup_lt_is_Some_2 _ _ Hlt) as [c Hc]. rewrite Hc. simpl.
  assert (lru_inv c) as Hl by (by eapply Forall_lookup_1; [apply Hinv|]).
  rewrite (drop_S _ c _ Hc). destruct (tier_full c) eqn:Hfull; simpl.
  - apply (tier_full_filled c Hl) in Hfull. destruct (contents_last c Hl Hfull) as (es & x & Hes).
    destruct (insert_full s level c k v es x) as (c1 & -> & Hc2 & Hinv2 & Hx2 & Hcaps2); [done..|]. simpl.
    destruct (IH _ (S level) x.1 x.2 Hinv2 Hx2) as (s' & -> & Hinv' & Hcaps & Hflat).
    { simpl. rewrite length_insert. lia. }
    exists s'. split_and!; [done..|congruence|]. rewrite Hflat. simpl.
    rewrite (take_insert_S _ _ _ _ Hc), flat_app, flat_cons. rewrite drop_insert_lt, Hc2 by lia.
    unfold flat at 2. simpl. rewrite app_nil_r, <-app_assoc.
    rewrite (cascade_full (k, v) c _ es x) by done. by destruct x.
  - assert (¬ filled c) as Hnf by (intros ?%(tier_full_filled c Hl); congruence).
    destruct (insert_room s level c k v Hinv Hk Hc Hnf) as (? & ? & ?). by eexists.
Qed.

(** ** Refinement to one LRU list *)

Lemma filled_total ts :
  Forall lru_inv ts →
  (Z.of_nat (length (flat ts)) ≤ total_capacity ts)%Z ∧
  (Forall filled ts ↔ Z.of_nat (length (flat ts)) = total_capacity ts).
Proof.
  induction 1 as [|c ts Hc _ [IHle IH]]; [by split|].
  rewrite flat_cons, length_app, Forall_cons, IH. simpl.
  pose proof (lru_size _ Hc). unfold filled, contents in *. split; lia.
Qed.

Lemma total_capacity_caps ts : total_capacity ts = foldr Z.add 0%Z (caps ts).
Proof. induction ts as [|c ts IH]; simpl; [done|]. by rewrite IH. Qed.

Lemma caps_total ts ts' : caps ts' = caps ts → total_capacity ts' = total_capacity ts.
Proof. intros Hc. by rewrite !total_capacity_caps, Hc. Qed.

Lemma key_to_tier_lookup s k :
  mt_inv s →
  match key_to_tier s !! k with
  | Some i => ∃ c v, tiers s !! i = Some c ∧ (k, v) ∈ contents c ∧ lookup_es (flat (tiers s)) k = Some v
  | None => lookup_es (flat (tiers s)) k = None
  end.
Proof.
  intros Hinv. destruct (key_to_tier s !! k) as [i|] eqn:E.
  - apply (mt_index _ Hinv) in E as (c & Hc & Hk). apply list_elem_of_fmap in Hk as ([k' v] & -> & Hx).
    exists c, v. split_and!; [done..|]. apply lookup_es_Some; [apply Hinv|]. by eapply flat_elem.
  - apply lookup_es_None. intros Hk. rewrite flat_keys in Hk.
    apply list_elem_of_In, in_concat in Hk as (ks & Hks & Hin).
    apply list_elem_of_In, list_elem_of_fmap in Hks as (c & -> & Hc).
    apply list_elem_of_lookup in Hc as [i Hi].
    assert (key_to_tier s !! k = Some i); [|congruence].
    apply (mt_index _ Hinv). exists c. split; [done|]. by apply list_elem_of_In.
Qed.

(** Taking a key out of the tier that holds it. *)
Lemma mt_take_out s k level c c' :
  mt_inv s → tiers s !! level = Some c → k ∈ (contents c).*1 →
  lru_inv c' → contents c' = without fst k (contents c) → Tcapacity c' = Tcapacity c →
  let s' := {| tiers := <[level := c']> (tiers s); key_to_tier := delete k (key_to_tier s) |} in
  mt_inv s' ∧ flat (tiers s') = without fst k (flat (tiers s)) ∧ caps (tiers s') = caps (tiers s) ∧
  ¬ Forall filled (tiers s').
Proof.
  intros Hinv Hc Hk Hl' Hc' Hcap s'.
  assert (level < length (tiers s)) as Hlt by (by eapply lookup_lt_Some).
  assert (∀ i c1, i ≠ level → tiers s !! i = Some c1 → k ∉ (contents c1).*1) as Huniq.
  { intros i c1 Hne Hi Hin. pose proof (mt_keys _ Hinv) as Hnd. rewrite flat_keys in Hnd.
    eapply (NoDup_concat_inj (λ c, (contents c).*1)); [exact Hnd|exact Hi|exact Hc|done..]. }
  assert (flat (tiers s') = without fst k (flat (tiers s))) as Hflat.
  { simpl. rewrite (tiers_update _ _ _ _ Hc).
    rewrite (tiers_split _ _ _ Hc) at 3.
    rewrite !flat_app, !flat_cons, Hc'. unfold without. rewrite !filter_app.
    assert (∀ ts, (∀ c1, c1 ∈ ts → k ∉ (contents c1).*1) → filter (λ x, x.1 ≠ k) (flat ts) = flat ts) as Hid.
    { intros ts Hts. apply without_id. rewrite flat_keys.
      intros Hin. apply list_elem_of_In, in_concat in Hin as (ks & Hks & Hin).
      apply list_elem_of_In, list_elem_of_fmap in Hks as (c1 & -> & Hc1).
      eapply Hts; [done|]. by apply list_elem_of_In. }
    rewrite (Hid (take level (tiers s))), (Hid (drop (S level) (tiers s))); [done|..].
    - intros c1 (i & Hi)%list_elem_of_lookup. rewrite lookup_drop in Hi. eapply Huniq; [|done]. lia.
    - intros c1 (i & Hi & ?)%elem_of_take. eapply Huniq; [|done]. lia. }
  split_and!; [|done|by eapply caps_update|].
  - apply (mt_inv_update s level c); [done..| |].
    + simpl in Hflat. rewrite Hflat, without_keys. apply NoDup_filter, Hinv.
    + intros k'. rewrite Hc', without_keys, lookup_delete.
      destruct (decide (k = k')) as [->|Hne].
      * rewrite decide_False by (by intros [? _]%list_elem_of_filter). by rewrite decide_True.
      * destruct (decide (k' ∈ filter (λ k1, k1 ≠ k) (contents c).*1)) as [Hin|Hin].
        -- apply list_elem_of_filter in Hin as [_ Hin]. apply (mt_index _ Hinv). eauto.
        -- rewrite decide_False; [done|]. intros ?. apply Hin, list_elem_of_filter. done.
  - intros Hall. assert (filled c') as Hf.
    { eapply Forall_lookup_1; [exact Hall|]. by apply list_lookup_insert_eq. }
    assert (lru_inv c) as Hl by (by eapply Forall_lookup_1; [apply Hinv|]).
    pose proof (lru_size _ Hl) as Hsz. unfold filled in Hf. rewrite Hc', Hcap in Hf.
    assert (length (without fst k (contents c)) < length (contents c)); [|unfold contents in *; lia].
    apply list_elem_of_fmap in Hk as (x & -> & Hx). by apply (without_shorter fst).
Qed.

Lemma insert_top_spec s k v :
  mt_inv s → k ∉ (flat (tiers s)).*1 →
  ∃ s', insert_top s k v = Some s' ∧ mt_inv s' ∧ caps (tiers s') = caps (tiers s) ∧
    flat (tiers s') = cascade (k, v) (tiers s).
Proof.
  intros Hinv Hk. unfold insert_top.
  destruct (insert_into_tier_spec (S (length (tiers s))) s 0 k v Hinv Hk) as (s' & ? & ? & ? & Hf); [lia|].
  exists s'. split_and!; [done..|]. by rewrite Hf, take_0, drop_0.
Qed.

(** The reference on the flattened list: a full stack of tiers loses its last entry. *)
Lemma cascade_flat x ts :
  Forall lru_inv ts → ts ≠ [] →
  cascade x ts = x :: (if (length (flat ts) =? total_capacity ts)%Z then removelast (flat ts) else flat ts).
Proof.
  intros Hts Hne. unfold cascade. destruct (filled_total ts Hts) as [_ Hf].
  destruct (decide (Forall filled ts)) as [Hall|Hall].
  - pose proof Hall as Hall'. apply Hf in Hall'. apply Z.eqb_eq in Hall'. rewrite Hall'.
    destruct (flat ts) as [|y l] eqn:E; [|done]. exfalso.
    destruct ts as [|c ts]; [done|]. apply Forall_cons in Hts as [Hc Hts].
    apply Forall_cons in Hall as [Hfc _]. unfold filled in Hfc. rewrite flat_cons in E.
    apply app_eq_nil in E as [E _]. rewrite E in Hfc. pose proof (lru_cap _ Hc). simpl in Hfc. lia.
  - destruct (Z.eqb_spec (length (flat ts)) (total_capacity ts)) as [E|]; [|done].
    exfalso. by apply Hall, Hf.
Qed.

Lemma caps_nil ts ts' : caps ts' = caps ts → ts ≠ [] → ts' ≠ [].
Proof. intros Hc Hne ->. destruct ts; done. Qed.

Lemma without_not_in k (es : list (Z * Z)) : k ∉ (without fst k es).*1.
Proof. rewrite without_keys. by intros [? _]%list_elem_of_filter. Qed.

Lemma mt_put_spec s k v :
  mt_inv s → tiers s ≠ [] →
  ∃ s', mt_put s k v = Some s' ∧ mt_inv s' ∧ caps (tiers s') = caps (tiers s) ∧
    flat (tiers s') = spec_put (total_capacity (tiers s)) (flat (tiers s)) k v.
Proof.
  intros Hinv Hne. pose proof (key_to_tier_lookup s k Hinv) as Hk. unfold mt_put, spec_put.
  destruct (key_to_tier s !! k) as [i|].
  - destruct Hk as (c & w & Hc & Hin & ->). rewrite Hc. simpl.
    assert (lru_inv c) as Hl by (by eapply Forall_lookup_1; [apply Hinv|]).
    destruct (lru_erase_spec c k Hl) as (c' & He & Hl' & Hc' & Hcap). unfold tier_erase. rewrite He. simpl.
    destruct (mt_take_out s k i c c' Hinv Hc) as (Hinv' & Hf & Hcaps & Hnf); [|done..|].
    { by apply (list_elem_of_fmap_2 fst _ (k, w)). }
    edestruct (insert_top_spec _ k v Hinv') as (s' & -> & Hi' & Hcaps' & Hf').
    { rewrite Hf. apply without_not_in. }
    exists s'. split_and!; [done..|by rewrite Hcaps'|]. rewrite Hf'. unfold cascade.
    by rewrite decide_False, Hf by done.
  - rewrite Hk. destruct (insert_top_spec s k v Hinv) as (s' & -> & Hi' & Hcaps' & Hf').
    { by apply lookup_es_None. }
    exists s'. split_and!; [done..|]. rewrite Hf'. apply cascade_flat; [apply Hinv|done].
Qed.

Lemma tier_extract_spec c k v :
  lru_inv c → (k, v) ∈ contents c →
  ∃ c', tier_remove_and_extract_value c k = Some (c', Some v) ∧ lru_inv c' ∧
    contents c' = without fst k (contents c) ∧ Tcapacity c' = Tcapacity c.
Proof.
  intros Hinv Hin. pose proof (mm_lookup c k Hinv) as Hk. unfold tier_remove_and_extract_value.
  apply lookup_es_Some in Hin; [|apply Hinv].
  destruct (lru_erase_spec c k Hinv) as (c' & He & Hl & Hc & Hcap). unfold lru_erase in He.
  destruct (mm c !! k) as [a|]; [|congruence]. destruct Hk as (w & -> & Hw). simpl.
  destruct (derase (cache c) a); simpl in *; [|done]. simplify_eq. eauto.
Qed.

Lemma mt_get_spec s k :
  mt_inv s → tiers s ≠ [] →
  ∃ s', mt_get s k = Some (s', default (-1)%Z (lookup_es (flat (tiers s)) k)) ∧ mt_inv s' ∧
    caps (tiers s') = caps (tiers s) ∧ flat (tiers s') = spec_get (flat (tiers s)) k.
Proof.
  intros Hinv Hne. pose proof (key_to_tier_lookup s k Hinv) as Hk. unfold mt_get, spec_get.
  destruct (key_to_tier s !! k) as [i|].
  - destruct Hk as (c & w & Hc & Hin & Hlk). rewrite Hc, Hlk. simpl.
    assert (lru_inv c) as Hl by (by eapply Forall_lookup_1; [apply Hinv|]).
    destruct (tier_extract_spec c k w Hl Hin) as (c' & -> & Hl' & Hc' & Hcap). simpl.
    destruct (mt_take_out s k i c c' Hinv Hc) as (Hinv' & Hf & Hcaps & Hnf); [|done..|].
    { by apply (list_elem_of_fmap_2 fst _ (k, w)). }
    edestruct (insert_top_spec _ k w Hinv') as (s' & -> & Hi' & Hcaps' & Hf').
    { rewrite Hf. apply without_not_in. }
    exists s'. split_and!; [done..|by rewrite Hcaps'|]. rewrite Hf'. unfold cascade.
    by rewrite decide_False, Hf by done.
  - rewrite Hk. by exists s.
Qed.

(** Running a history against the tiers, and against one LRU cache, with the
    values the gets return. *)
Definition mt_step (s : MultiTierCache) (o : lru_op Z Z) : option (MultiTierCache * option Z) :=
  match o with
  | Get k => '(s, v) ← mt_get s k; Some (s, Some v)
  | Put k v => s ← mt_put s k v; Some (s, None)
  end.

Definition one_step (c : Tier) (o : lru_op Z Z) : option (Tier * option Z) :=
  match o with
  | Get k => '(c, v) ← LRU_get c k; Some (c, Some v)
  | Put k v => c ← LRU_put c k v; Some (c, None)
  end.

(** The simulation relation. *)
Record mt_refines (s : MultiTierCache) (c : Tier) : Prop := {
  ref_inv : mt_inv s;
  ref_ne : tiers s ≠ [];
  ref_lru : lru_inv c;
  ref_cap : Tcapacity c = total_capacity (tiers s);
  ref_flat : contents c = flat (tiers s)
}.

Lemma mt_refines_step s c o :
  mt_refines s c → ∃ s' c' r, mt_step s o = Some (s', r) ∧ one_step c o = Some (c', r) ∧ mt_refines s' c'.
Proof.
  intros [Hinv Hne Hl Hcap Hf]. destruct o as [k|k v]; simpl.
  - destruct (mt_get_spec s k Hinv Hne) as (s' & -> & Hinv' & Hcaps & Hf'). simpl.
    destruct (lru_get_spec c k Hl) as (c' & Hg & Hl' & Hc' & Hcap').
    unfold LRU_get. rewrite Hg. simpl. do 3 eexists. split_and!; [done|by rewrite Hf|].
    split; [done|by eapply caps_nil|done|..]; [|congruence].
    by rewrite Hcap', Hcap, (caps_total _ _ Hcaps).
  - destruct (mt_put_spec s k v Hinv Hne) as (s' & -> & Hinv' & Hcaps & Hf'). simpl.
    destruct (lru_put_spec c k v Hl) as (c' & Hg & Hl' & Hc' & Hcap').
    unfold LRU_put. rewrite Hg. simpl. do 3 eexists. split_and!; [done..|].
    split; [done|by eapply caps_nil|done|..]; [|congruence].
    by rewrite Hcap', Hcap, (caps_total _ _ Hcaps).
Qed.

Lemma mt_refines_run s c ops :
  mt_refines s c →
  ∃ s' c' rs, run_out mt_step s ops = Some (s', rs) ∧ run_out one_step c ops = Some (c', rs) ∧ mt_refines s' c'.
Proof.
  revert s c. induction ops as [|o ops IH]; intros s c Href; simpl; [by do 3 eexists|].
  destruct (mt_refines_step s c o Href) as (s1 & c1 & r & -> & -> & Href1). simpl.
  destruct (IH s1 c1 Href1) as (s' & c' & rs & -> & -> & ?). simpl. by do 3 eexists.
Qed.

Lemma new_multi_tier_refines capacities :
  capacities ≠ [] → Forall (λ n, 0 < n)%Z capacities → (foldr Z.add 0 capacities ≤ INT_MAX)%Z →
  mt_refines (new_multi_tier capacities) (LRU_make (foldr Z.add 0%Z capacities)).
Proof.
  intros Hne Hpos Hsum.
  assert (∀ l, Forall (λ n, 0 < n)%Z l → 0 ≤ foldr Z.add 0 l ∧ Forall (λ n, n ≤ foldr Z.add 0 l) l)%Z as Hge.
  { induction 1 as [|n l Hn _ [IH0 IH]]; simpl; [done|]. split; [lia|]. constructor; [lia|].
    eapply Forall_impl; [exact IH|]. simpl. intros; lia. }
  destruct (Hge capacities Hpos) as [_ Hle].
  assert (flat (new_lru <$> capacities) = []) as Hflat.
  { clear. induction capacities; [done|]. csimpl. by rewrite flat_cons. }
  split; simpl; [| by destruct capacities| | |by rewrite Hflat].
  - split; simpl; [| |].
    + apply Forall_fmap, Forall_forall. intros n Hn. apply new_lru_inv.
      rewrite Forall_forall in Hpos, Hle. specialize (Hpos n Hn). specialize (Hle n Hn). lia.
    + rewrite Hflat. constructor.
    + intros k i. split; [done|]. intros (c & Hc & Hk). exfalso. assert (k ∈ (flat (new_lru <$> capacities)).*1) as Hin.
      { apply list_elem_of_fmap in Hk as (x & -> & Hx). apply list_elem_of_fmap_2. by eapply flat_elem. }
      rewrite Hflat in Hin. by apply not_elem_of_nil in Hin.
  - apply new_lru_inv. destruct capacities as [|n l]; [done|]. apply Forall_cons in Hpos as [Hn Hl].
    destruct (Hge l Hl). simpl in *. lia.
  - rewrite total_capacity_caps. unfold caps. f_equal. clear. induction capacities; csimpl; congruence.
Qed.

(** C19: the tiers are one cache.  For every non-empty list of positive capacities
    and every history of gets and puts, the multi-tier cache never uses a dangling
    iterator and returns the values a single LRU cache of the summed capacity
    returns; afterwards the entries of the tiers, read from the top tier down, are
    the entries of that cache in its order of recency. *)
Theorem multi_tier_is_one_lru (capacities : list Z) (ops : list (lru_op Z Z)) :
  capacities ≠ [] → Forall (λ n, 0 < n)%Z capacities → (foldr Z.add 0 capacities ≤ INT_MAX)%Z →
  ∃ s c rs, run_out mt_step (new_multi_tier capacities) ops = Some (s, rs) ∧
    run_out one_step (LRU_make (foldr Z.add 0%Z capacities)) ops = Some (c, rs) ∧
    flat (tiers s) = contents c.
Proof.
  intros Hne Hpos Hsum.
  destruct (mt_refines_run _ _ ops (new_multi_tier_refines capacities Hne Hpos Hsum))
    as (s & c & rs & ? & ? & Href).
  exists s, c, rs. split_and!; [done..|]. symmetry. apply Href.
Qed.

Lemma multi_tier_is_one_lru_witness :
  ∃ s c, run_out mt_step (new_multi_tier [1; 1; 1]%Z) [Put 1 10; Put 2 20; Put 3 30; Get 1; Put 4 40; Get 2]%Z
      = Some (s, [None; None; None; Some 10; None; Some (-1)]%Z) ∧ flat (tiers s) = contents c.
Proof.
  destruct (multi_tier_is_one_lru [1; 1; 1]%Z [Put 1 10; Put 2 20; Put 3 30; Get 1; Put 4 40; Get 2]%Z)
    as (s & c & rs & H1 & H2 & H3); [done|by repeat constructor|vm_compute; congruence|].
  exists s, c. split; [|exact H3]. rewrite H1. vm_compute in H1. by injection H1 as <- <-.
Defined.
