(* ===== verification/BufferPool.v ===== *)
(** * Buffer pool

    [src/storage/BufferPool_PageCache.cpp]: pages in recency order with an index of
    iterators, pin counts and dirty bits; the victim of an eviction is the least
    recently used page that is not pinned, and a dirty victim is flushed first.
    [flush_page] has no disk to write to; the model records the pages it is called
    with, and that record stands for the disk. *)
From S2P Require Import Prelude IndexedList.
Local Open Scope nat_scope.

(** ** The class *)

Record Page := { page_id : Z; data : string; dirty : bool; pin_count : Z }.

Record BufferPool := {
  Tcapacity : Z;
  cache : dlist Page;
  mm : gmap Z nat;
  flushed : list (Z * string)  (** pages written by [flush_page], latest first *)
}.

Definition BufferPool_make (capacity : Z) : BufferPool :=
  {| Tcapacity := capacity; cache := dempty; mm := ∅; flushed := [] |}.

Definition set_pages (s : BufferPool) (l : dlist Page) (m : gmap Z nat) : BufferPool :=
  {| Tcapacity := Tcapacity s; cache := l; mm := m; flushed := flushed s |}.

(** [flush_page(page)] *)
Definition flush_page (s : BufferPool) (a : nat) : option BufferPool :=
  p ← deref (cache s) a;
  l ← dupdate (λ p, {| page_id := page_id p; data := data p; dirty := false;
                       pin_count := pin_count p |}) (cache s) a;
  Some {| Tcapacity := Tcapacity s; cache := l; mm := mm s;
          flushed := (page_id p, data p) :: flushed s |}.

(** The [while] loop of [evict_page], on the nodes from the last to the first. *)
Fixpoint find_victim (rnodes : list (nat * Page)) : option (nat * Page) :=
  match rnodes with
  | [] => None
  | (a, p) :: rnodes => if (pin_count p =? 0)%Z then Some (a, p) else find_victim rnodes
  end.

(** [evict_page()]: on an empty list [prev(cache.end())] is undefined behaviour. *)
Definition evict_page (s : BufferPool) : option (BufferPool * bool) :=
  match nodes (cache s) with
  | [] => None
  | ns =>
      match find_victim (reverse ns) with
      | None => Some (s, false)
      | Some (a, p) =>
          s ← (if dirty p then flush_page s a else Some s);
          l ← derase (cache s) a;
          Some (set_pages s l (delete (page_id p) (mm s)), true)
      end
  end.

(** [fetchPage(page_id)]: the returned page, [None] for [nullptr]; overflow of
    [pin_count] is undefined behaviour. *)
Definition fetchPage (s : BufferPool) (id : Z) : option (BufferPool * option Page) :=
  match mm s !! id with
  | None => Some (s, None)
  | Some a =>
      p ← deref (cache s) a;
      if (pin_count p =? INT_MAX)%Z then None else
      l ← dupdate (λ p, {| page_id := page_id p; data := data p; dirty := dirty p;
                           pin_count := (pin_count p + 1)%Z |}) (cache s) a;
      l ← splice_front l a;
      p ← deref l a;
      Some (set_pages s l (mm s), Some p)
  end.

Definition unpinPage (s : BufferPool) (id : Z) : option BufferPool :=
  match mm s !! id with
  | None => Some s
  | Some a =>
      p ← deref (cache s) a;
      if (0 <? pin_count p)%Z then
        l ← dupdate (λ p, {| page_id := page_id p; data := data p; dirty := dirty p;
                             pin_count := (pin_count p - 1)%Z |}) (cache s) a;
        Some (set_pages s l (mm s))
      else Some s
  end.

(** [put(page_id, value)]; the boolean is [false] where the page is refused
    because no page can be evicted. *)
Definition bp_put (s : BufferPool) (id : Z) (value : string) : option (BufferPool * bool) :=
  match mm s !! id with
  | Some a =>
      l ← dupdate (λ p, {| page_id := page_id p; data := value; dirty := true;
                           pin_count := pin_count p |}) (cache s) a;
      l ← splice_front l a;
      Some (set_pages s l (mm s), true)
  | None =>
      '(s, ok) ← (if (to_size_t (Tcapacity s) <=? dsize (cache s))%Z then evict_page s else Some (s, true));
      if (ok : bool) then
        let '(l, a) := push_front {| page_id := id; data := value; dirty := true; pin_count := 0 |} (cache s) in
        Some (set_pages s l (<[id := a]> (mm s)), true)
      else Some (s, false)
  end.


(** ** Reference view *)

Definition pages (s : BufferPool) : list Page := entries (cache s).

Definition page_at (es : list Page) (id : Z) : option Page :=
  snd <$> list_find (λ p, page_id p = id) es.

(** What was last flushed for each page. *)
Definition disk (fl : list (Z * string)) (id : Z) : option string := (list_to_map fl : gmap Z string) !! id.

(** The content of a page: the pool's copy, else the disk's. *)
Definition bp_view (s : BufferPool) (id : Z) : option string :=
  match page_at (pages s) id with Some p => Some (data p) | None => disk (flushed s) id end.

Lemma page_at_cons x es id : page_at (x :: es) id = if decide (page_id x = id) then Some x else page_at es id.
Proof.
  unfold page_at. csimpl. case_decide; [done|]. by destruct (list_find _ es) as [[??]|].
Qed.

Lemma page_at_without k es id : page_at (without page_id k es) id = if decide (id = k) then None else page_at es id.
Proof.
  unfold without. induction es as [|x es IH]; [by case_decide|]. rewrite filter_cons, page_at_cons.
  destruct (decide (page_id x = k)).
  - rewrite decide_False by tauto. rewrite IH. repeat case_decide; congruence.
  - rewrite decide_True, page_at_cons, IH by done. repeat case_decide; congruence.
Qed.

Lemma page_at_update (f : Page → Page) k es id :
  (∀ p, page_id (f p) = page_id p) →
  page_at ((λ p, if decide (page_id p = k) then f p else p) <$> es) id =
  if decide (id = k) then f <$> page_at es id else page_at es id.
Proof.
  intros Hf. induction es as [|x es IH]; [by case_decide|]. csimpl. rewrite !page_at_cons.
  rewrite IH. repeat case_decide; simpl in *; try rewrite Hf in *; congruence.
Qed.

Lemma page_at_None es id : page_at es id = None ↔ id ∉ page_id <$> es.
Proof.
  unfold page_at. rewrite fmap_None, list_find_None, Forall_forall, list_elem_of_fmap. naive_solver.
Qed.

Lemma page_at_Some es id p : page_at es id = Some p → p ∈ es ∧ page_id p = id.
Proof.
  unfold page_at. intros ([i q] & (Hi & ? & _)%list_find_Some & ->)%fmap_Some. simpl.
  apply list_elem_of_lookup_2 in Hi. done.
Qed.

Lemma elem_page_at es p : NoDup (page_id <$> es) → p ∈ es → page_at es (page_id p) = Some p.
Proof.
  induction es as [|x es IH]; csimpl; [by intros _ ?%not_elem_of_nil|].
  intros [Hx Hnd]%NoDup_cons [->|Hp]%elem_of_cons; rewrite page_at_cons; [by rewrite decide_True|].
  rewrite decide_False; [by apply IH|]. intros Heq. apply Hx. rewrite Heq. by apply list_elem_of_fmap_2.
Qed.

(** ** Invariant *)

Record bp_inv (n : Z) (s : BufferPool) : Prop := {
  bp_idx : idx_inv page_id (cache s) (mm s);
  bp_cap : (0 < Tcapacity s ≤ INT_MAX)%Z;
  bp_size : (length (pages s) ≤ Tcapacity s)%Z;
  bp_pins : Forall (λ p, 0 ≤ pin_count p ≤ n)%Z (pages s);
  bp_clean : ∀ p, p ∈ pages s → dirty p = false → disk (flushed s) (page_id p) = Some (data p)
}.

Lemma bp_new_inv cap : (0 < cap ≤ INT_MAX)%Z → bp_inv 0 (BufferPool_make cap).
Proof.
  intros Hcap. split; simpl; [apply idx_empty|done|lia|constructor|]. by intros p ?%not_elem_of_nil.
Qed.

Lemma bp_lookup n s id : bp_inv n s →
  match mm s !! id with
  | Some a => ∃ p, deref (cache s) a = Some p ∧ page_at (pages s) id = Some p ∧ page_id p = id
  | None => page_at (pages s) id = None
  end.
Proof.
  intros Hinv. destruct (mm s !! id) as [a|] eqn:E.
  - destruct (idx_found _ _ _ _ _ (bp_idx _ _ Hinv) E) as (p & ? & <- & Hp). exists p.
    split_and!; [done| |done]. apply elem_page_at; [apply Hinv|done].
  - apply page_at_None. by eapply idx_not_found; [apply Hinv|].
Qed.

Lemma bp_page_at n s q : bp_inv n s → q ∈ pages s → page_at (pages s) (page_id q) = Some q.
Proof. intros Hinv Hq. apply elem_page_at; [apply Hinv|done]. Qed.

(** What an assignment through an iterator leaves. *)
Lemma update_spec n s f id a :
  (∀ p, page_id (f p) = page_id p) → bp_inv n s → mm s !! id = Some a →
  ∃ l, dupdate f (cache s) a = Some l ∧ idx_inv page_id l (mm s) ∧ length (entries l) = length (pages s) ∧
    ∀ id', page_at (entries l) id' = if decide (id' = id) then f <$> page_at (pages s) id' else page_at (pages s) id'.
Proof.
  intros Hf Hinv Hid. destruct (dupdate_spec page_id f _ _ _ _ Hf (bp_idx _ _ Hinv) Hid) as (l & ? & ? & He).
  exists l. split_and!; [done..| |]; rewrite He; [by rewrite length_fmap|]. intros id'. by apply page_at_update.
Qed.

(** The same followed by a move to the front. *)
Lemma update_splice_spec n s f id a :
  (∀ p, page_id (f p) = page_id p) → bp_inv n s → mm s !! id = Some a →
  ∃ l l' p, dupdate f (cache s) a = Some l ∧ splice_front l a = Some l' ∧ idx_inv page_id l' (mm s) ∧
    page_at (pages s) id = Some p ∧ deref l' a = Some (f p) ∧ length (entries l') = length (pages s) ∧
    ∀ id', page_at (entries l') id' = if decide (id' = id) then Some (f p) else page_at (pages s) id'.
Proof.
  intros Hf Hinv Hid. destruct (update_spec n s f id a Hf Hinv Hid) as (l & Hl & Hidx & Hlen & Hat).
  destruct (splice_front_spec page_id _ _ _ _ Hidx Hid) as (l' & x & Hs & Hd & Hx & Hidx' & Hd' & He).
  pose proof (bp_lookup n s id Hinv) as Hp. rewrite Hid in Hp. destruct Hp as (p & _ & Hp & _).
  assert (x = f p) as ->.
  { destruct (idx_found _ _ _ _ _ Hidx Hid) as (y & Hdy & Hy & Hin).
    assert (y = x) as -> by congruence. apply elem_page_at in Hin; [|apply Hidx].
    rewrite Hx, Hat, decide_True, Hp in Hin by done. by simplify_eq/=. }
  exists l, l', p. split_and!; [done..| |].
  - by rewrite <-(idx_size _ _ _ Hidx'), (idx_size _ _ _ Hidx).
  - intros id'. rewrite He, page_at_cons, page_at_without, Hx, (Hat id').
    repeat case_decide; congruence.
Qed.

(** ** The operations *)

Lemma find_victim_spec ns :
  match find_victim (reverse ns) with
  | Some (a, p) => ∃ ns1 ns2, ns = ns1 ++ (a, p) :: ns2 ∧ pin_count p = 0%Z ∧
      Forall (λ n, pin_count n.2 ≠ 0%Z) ns2
  | None => Forall (λ n, pin_count n.2 ≠ 0%Z) ns
  end.
Proof.
  induction ns as [|[a p] ns IH] using rev_ind; [constructor|]. rewrite reverse_snoc. simpl.
  destruct (Z.eqb_spec (pin_count p) 0) as [Hp|Hp].
  - exists ns, []. done.
  - destruct (find_victim (reverse ns)) as [[b q]|].
    + destruct IH as (ns1 & ns2 & -> & Hq & Hall). exists ns1, (ns2 ++ [(a, p)]).
      rewrite <-app_assoc. split_and!; [done..|]. apply Forall_app. by repeat constructor.
    + apply Forall_app. by repeat constructor.
Qed.

(** Replacing the pages by others that keep the pin bounds and the dirty discipline. *)
Lemma bp_inv_pages n n' s l m fl :
  bp_inv n s → idx_inv page_id l m → (length (entries l) ≤ Tcapacity s)%Z →
  (∀ p, p ∈ entries l → (0 ≤ pin_count p ≤ n')%Z ∧ (dirty p = false → disk fl (page_id p) = Some (data p))) →
  bp_inv n' {| Tcapacity := Tcapacity s; cache := l; mm := m; flushed := fl |}.
Proof.
  intros Hinv Hidx Hlen Hp. split; simpl; [done|apply Hinv|done|..].
  - apply Forall_forall. intros p Hin. by apply Hp.
  - intros p Hin. by apply Hp.
Qed.

Definition pinned_page (p : Page) : Page :=
  {| page_id := page_id p; data := data p; dirty := dirty p; pin_count := (pin_count p + 1)%Z |}.

Definition written_page (value : string) (p : Page) : Page :=
  {| page_id := page_id p; data := value; dirty := true; pin_count := pin_count p |}.

(** Members of the new pool, from the pages it has at each id. *)
Lemma elem_of_updated es es' id x :
  NoDup (page_id <$> es') →
  (∀ id', page_at es' id' = if decide (id' = id) then Some x else page_at es id') →
  ∀ p, p ∈ es' → (p = x ∧ page_id p = id) ∨ p ∈ es.
Proof.
  intros Hnd Hat p Hp. apply elem_page_at in Hp; [|done]. rewrite Hat in Hp. case_decide; [left; split; congruence|].
  right. by apply page_at_Some in Hp as [? _].
Qed.

Lemma bp_mono n n' s : bp_inv n s → (n ≤ n')%Z → bp_inv n' s.
Proof.
  intros [? ? ? Hp ?] Hn. split; try done. eapply Forall_impl; [exact Hp|]. simpl. intros; lia.
Qed.

Lemma fetchPage_spec n s id :
  bp_inv n s → (n < INT_MAX)%Z →
  ∃ s', fetchPage s id = Some (s', pinned_page <$> page_at (pages s) id) ∧ bp_inv (n + 1) s' ∧
    flushed s' = flushed s ∧ Tcapacity s' = Tcapacity s ∧
    ∀ id', page_at (pages s') id' =
      if decide (id' = id) then pinned_page <$> page_at (pages s) id' else page_at (pages s) id'.
Proof.
  intros Hinv Hn. pose proof (bp_lookup n s id Hinv) as Hid. unfold fetchPage.
  destruct (mm s !! id) as [a|] eqn:E.
  2:{ exists s. rewrite Hid. split_and!; [done|eapply bp_mono; [done|lia]|done..|]. intros id'.
      case_decide; subst; by rewrite ?Hid. }
  destruct Hid as (p & Hd & Hp & Hpid). rewrite Hd. simpl.
  destruct (page_at_Some _ _ _ Hp) as [Hin _].
  pose proof (bp_pins _ _ Hinv) as Hpins. rewrite Forall_forall in Hpins. pose proof (Hpins p Hin).
  destruct (Z.eqb_spec (pin_count p) INT_MAX); [lia|].
  destruct (update_splice_spec n s pinned_page id a ltac:(done) Hinv E)
    as (l & l' & p' & Hu & Hs & Hidx & Hp' & Hd' & Hlen & Hat). simplify_eq.
  unfold pinned_page in Hu at 1. rewrite Hu. simpl. rewrite Hs. simpl. rewrite Hd'. simpl. rewrite Hp. simpl.
  eexists. split_and!; [done| |done|done|].
  - apply (bp_inv_pages n); [done..|rewrite Hlen; apply Hinv|]. intros q Hq.
    eapply elem_of_updated in Hq as [[-> _]|Hq]; [..|apply Hat]; [| |apply Hidx].
    + simpl. split; [lia|]. by apply Hinv.
    + split; [specialize (Hpins q Hq); lia|by apply Hinv].
  - intros id'. unfold pages at 1. simpl. rewrite Hat. case_decide; subst; by rewrite ?Hp.
Qed.

Definition unpinned_page (p : Page) : Page :=
  {| page_id := page_id p; data := data p; dirty := dirty p;
     pin_count := if (0 <? pin_count p)%Z then (pin_count p - 1)%Z else pin_count p |}.

Lemma unpinPage_spec n s id :
  bp_inv n s →
  ∃ s', unpinPage s id = Some s' ∧ bp_inv n s' ∧ flushed s' = flushed s ∧ Tcapacity s' = Tcapacity s ∧
    ∀ id', page_at (pages s') id' =
      if decide (id' = id) then unpinned_page <$> page_at (pages s) id' else page_at (pages s) id'.
Proof.
  intros Hinv. pose proof (bp_lookup n s id Hinv) as Hid. unfold unpinPage.
  destruct (mm s !! id) as [a|] eqn:E.
  2:{ exists s. split_and!; [done..|]. intros id'. case_decide; subst; by rewrite ?Hid. }
  destruct Hid as (p & Hd & Hp & Hpid). rewrite Hd. simpl.
  destruct (page_at_Some _ _ _ Hp) as [Hin _].
  pose proof (bp_pins _ _ Hinv) as Hpins. rewrite Forall_forall in Hpins. pose proof (Hpins p Hin).
  destruct (0 <? pin_count p)%Z eqn:Hpos.
  - set (f := λ p, {| page_id := page_id p; data := data p; dirty := dirty p; pin_count := (pin_count p - 1)%Z |}).
    destruct (update_spec n s f id a ltac:(done) Hinv E) as (l & -> & Hidx & Hlen & Hat). simpl.
    assert (f p = unpinned_page p) as Hfp by (unfold f, unpinned_page; by rewrite Hpos).
    eexists. split_and!; [done| |done|done|].
    + apply (bp_inv_pages n); [done..|rewrite Hlen; apply Hinv|]. intros q Hq.
      eapply (elem_of_updated _ _ id (f p)) in Hq as [[-> _]|Hq]; [| |apply Hidx|].
      * simpl. apply Z.ltb_lt in Hpos. split; [lia|]. by apply Hinv.
      * split; [apply Hpins|apply Hinv]; done.
      * intros id'. rewrite Hat. case_decide; subst; by rewrite ?Hp.
    + intros id'. unfold pages at 1. simpl. rewrite Hat. case_decide; subst; [|done]. rewrite Hp. simpl. by rewrite Hfp.
  - exists s. split_and!; [done..|]. intros id'. case_decide; [|done]. subst. rewrite Hp. simpl. f_equal.
    unfold unpinned_page. rewrite Hpos. by destruct p.
Qed.

(** [evict_page] removes the least recently used page that is not pinned, after
    flushing it when it is dirty, and fails only when every page is pinned. *)
Lemma evict_page_spec n s :
  bp_inv n s → pages s ≠ [] →
  (∃ newer q older s', pages s = newer ++ q :: older ∧ pin_count q = 0%Z ∧
    Forall (λ p, pin_count p ≠ 0%Z) older ∧
    evict_page s = Some (s', true) ∧ bp_inv n s' ∧ pages s' = without page_id (page_id q) (pages s) ∧
    flushed s' = (if dirty q then (page_id q, data q) :: flushed s else flushed s) ∧
    Tcapacity s' = Tcapacity s) ∨
  (evict_page s = Some (s, false) ∧ Forall (λ p, pin_count p ≠ 0%Z) (pages s)).
Proof.
  intros Hinv Hne. pose proof (find_victim_spec (nodes (cache s))) as Hv. unfold evict_page.
  assert (∃ n ns, nodes (cache s) = n :: ns) as (nd & ns & Hns).
  { unfold pages, entries in Hne. destruct (nodes (cache s)); [done|eauto]. }
  rewrite Hns in *. destruct (find_victim (reverse (nd :: ns))) as [[a q]|].
  2:{ right. split; [done|]. unfold pages, entries. rewrite Hns. by apply Forall_fmap. }
  left. destruct Hv as (ns1 & ns2 & Hsplit & Hpin & Hall). exists ns1.*2, q, ns2.*2.
  assert (pages s = ns1.*2 ++ q :: ns2.*2) as Hpages by (unfold pages, entries; by rewrite Hns, Hsplit, fmap_app).
  assert ((a, q) ∈ nodes (cache s)) as Hin by (rewrite Hns, Hsplit; apply elem_of_app; right; by left).
  assert (mm s !! page_id q = Some a) as Hmm by (apply (idx_spec _ _ _ (bp_idx _ _ Hinv)); eauto).
  pose proof (bp_size _ _ Hinv) as Hsz.
  pose proof (bp_pins _ _ Hinv) as Hpins. rewrite Forall_forall in Hpins.
  destruct (dirty q) eqn:Hdirty.
  - unfold flush_page. assert (deref (cache s) a = Some q) as Hd by (apply deref_Some; [apply Hinv|done]).
    rewrite Hd. simpl.
    set (f := λ p, {| page_id := page_id p; data := data p; dirty := false; pin_count := pin_count p |}).
    destruct (dupdate_spec page_id f _ _ _ _ ltac:(done) (bp_idx _ _ Hinv) Hmm) as (l & -> & Hidx & He). simpl.
    destruct (derase_spec page_id _ _ _ _ Hidx Hmm) as (l' & -> & Hidx' & He'). simpl.
    assert (entries l' = without page_id (page_id q) (pages s)) as Hents.
    { rewrite He', He. unfold pages. generalize (entries (cache s)). intros es. unfold without.
      induction es as [|x es IH]; [done|]. csimpl. rewrite !filter_cons.
      destruct (decide (page_id x = page_id q)) as [Heq|Hne'].
      - rewrite !decide_False by (simpl; tauto). done.
      - rewrite !decide_True by done. by rewrite IH. }
    eexists. split_and!; [done..|by apply Forall_fmap|done| |done|done|done].
    apply (bp_inv_pages n n s); simpl; [done..| |].
    + rewrite Hents. etransitivity; [|exact Hsz]. apply Nat2Z.inj_le, length_filter.
    + rewrite Hents. intros p [Hp Hpin']%list_elem_of_filter. split; [by apply Hpins|].
      intros Hcl. unfold disk. simpl. rewrite lookup_insert_ne by done. by apply (bp_clean _ _ Hinv).
  - simpl. destruct (derase_spec page_id _ _ _ _ (bp_idx _ _ Hinv) Hmm) as (l' & -> & Hidx' & He'). simpl.
    eexists. split_and!; [done..|by apply Forall_fmap|done| |done|done|done].
    apply (bp_inv_pages n n s); simpl; [done..| |]; rewrite He'.
    + etransitivity; [|exact Hsz]. apply Nat2Z.inj_le, length_filter.
    + intros p [Hp Hpin']%list_elem_of_filter. split; [by apply Hpins|]. by apply (bp_clean _ _ Hinv).
Qed.

Lemma evict_view n s s' q :
  bp_inv n s → q ∈ pages s → pages s' = without page_id (page_id q) (pages s) →
  flushed s' = (if dirty q then (page_id q, data q) :: flushed s else flushed s) →
  ∀ id, bp_view s' id = bp_view s id.
Proof.
  intros Hinv Hq Hp Hf id. unfold bp_view. rewrite Hp, page_at_without, Hf.
  destruct (decide (id = page_id q)) as [->|Hne].
  - rewrite (bp_page_at n s q Hinv Hq). unfold disk.
    destruct (dirty q) eqn:Hd; simpl; [by rewrite lookup_insert_eq|]. by apply (bp_clean _ _ Hinv).
  - destruct (dirty q); [|done]. unfold disk. simpl. by rewrite lookup_insert_ne.
Qed.

Definition new_page (id : Z) (value : string) : Page :=
  {| page_id := id; data := value; dirty := true; pin_count := 0 |}.

Lemma push_page_spec n s id value :
  bp_inv n s → (0 ≤ n)%Z → page_at (pages s) id = None → (length (pages s) < Tcapacity s)%Z →
  let '(l, a) := push_front (new_page id value) (cache s) in
  bp_inv n (set_pages s l (<[id := a]> (mm s))) ∧ entries l = new_page id value :: pages s.
Proof.
  intros Hinv Hn Hid Hlt.
  assert (mm s !! id = None) as Hmm.
  { apply page_at_None in Hid. by apply (idx_None_iff page_id _ _ _ (bp_idx _ _ Hinv)). }
  pose proof (push_front_spec page_id _ _ (new_page id value) (bp_idx _ _ Hinv) Hmm) as Hp.
  destruct (push_front (new_page id value) (cache s)) as [l a]. destruct Hp as [Hidx He].
  split; [|done]. apply (bp_inv_pages n n s); [done..|rewrite He; unfold pages in *; simpl; lia|].
  rewrite He. intros p [->|Hp]%elem_of_cons; [done|]. pose proof (bp_pins _ _ Hinv) as Hpins.
  rewrite Forall_forall in Hpins. split; [by apply Hpins|by apply Hinv].
Qed.

(** What a [put] does, whichever branch it takes. *)
Record put_result (s s' : BufferPool) (id : Z) (value : string) (ok : bool) : Prop := {
  put_capacity : Tcapacity s' = Tcapacity s;
  put_view : ∀ id', bp_view s' id' = if decide (ok = true ∧ id' = id) then Some value else bp_view s id';
  put_pinned : ∀ id' p, page_at (pages s) id' = Some p → pin_count p ≠ 0%Z →
    page_at (pages s') id' = Some (if decide (id' = id) then written_page value p else p);
  put_refused : ok = false → s' = s ∧ page_at (pages s) id = None ∧
    Z.of_nat (length (pages s)) = Tcapacity s ∧ Forall (λ p, pin_count p ≠ 0%Z) (pages s)
}.

Lemma put_hit n s id value a :
  bp_inv n s → mm s !! id = Some a →
  ∃ s', bp_put s id value = Some (s', true) ∧ bp_inv n s' ∧ put_result s s' id value true.
Proof.
  intros Hinv E. unfold bp_put. rewrite E.
  destruct (update_splice_spec n s (written_page value) id a ltac:(done) Hinv E)
    as (l & l' & p & Hu & Hs & Hidx & Hp & Hd & Hlen & Hat).
  unfold written_page in Hu at 1. rewrite Hu. simpl. rewrite Hs. simpl. eexists. split; [done|].
  pose proof (bp_pins _ _ Hinv) as Hpins. rewrite Forall_forall in Hpins.
  destruct (page_at_Some _ _ _ Hp) as [Hin _]. split.
  - apply (bp_inv_pages n n s); [done..|rewrite Hlen; apply Hinv|]. intros q Hq.
    eapply elem_of_updated in Hq as [[-> _]|Hq]; [..|apply Hat]; [| |apply Hidx].
    + simpl. split; [by apply Hpins|done].
    + split; [by apply Hpins|by apply Hinv].
  - split; [done|..|done].
    + intros id'. unfold bp_view, pages at 1. simpl. rewrite Hat.
      destruct (decide (id' = id)); [rewrite decide_True by done|rewrite decide_False by naive_solver]; done.
    + intros id' q Hq _. unfold pages. simpl. rewrite Hat. case_decide; [|done]. subst. congruence.
Qed.

Lemma put_push n s s0 id value :
  bp_inv n s → (0 ≤ n)%Z → page_at (pages s) id = None → (length (pages s) < Tcapacity s)%Z →
  Tcapacity s = Tcapacity s0 → (∀ id', bp_view s id' = bp_view s0 id') →
  (∀ id' p, page_at (pages s0) id' = Some p → pin_count p ≠ 0%Z → page_at (pages s) id' = Some p) →
  ∃ s', (let '(l, a) := push_front (new_page id value) (cache s) in
    Some (set_pages s l (<[id := a]> (mm s)), true)) = Some (s', true) ∧
    bp_inv n s' ∧ put_result s0 s' id value true.
Proof.
  intros Hinv Hn Hid Hlt Hcap Hview Hpin. pose proof (push_page_spec n s id value Hinv Hn Hid Hlt) as Hp.
  destruct (push_front (new_page id value) (cache s)) as [l a]. destruct Hp as [Hinv' He].
  eexists. split_and!; [done..|]. split; [done|..|done].
  - intros id'. unfold bp_view at 1, pages. simpl. rewrite He, page_at_cons. simpl.
    destruct (decide (id = id')) as [->|Hne]; [by rewrite decide_True|].
    rewrite decide_False by naive_solver. by rewrite <-Hview.
  - intros id' p Hp Hne. apply Hpin in Hp; [|done]. unfold pages. simpl. rewrite He, page_at_cons. simpl.
    rewrite decide_False by congruence. rewrite decide_False by congruence. done.
Qed.

Lemma bp_put_spec n s id value :
  bp_inv n s → (0 ≤ n)%Z →
  ∃ s' ok, bp_put s id value = Some (s', ok) ∧ bp_inv n s' ∧ put_result s s' id value ok.
Proof.
  intros Hinv Hn. pose proof (bp_lookup n s id Hinv) as Hid.
  destruct (mm s !! id) as [a|] eqn:E; [destruct (put_hit n s id value a Hinv E) as (? & ? & ? & ?); eauto|].
  unfold bp_put. rewrite E. pose proof (bp_cap _ _ Hinv). pose proof (bp_size _ _ Hinv) as Hsz.
  rewrite to_size_t_id by lia. assert (dsize (cache s) = length (pages s)) as Hds.
  { unfold dsize, pages, entries. by rewrite length_fmap. }
  rewrite Hds. destruct (Z.leb_spec (Tcapacity s) (length (pages s))) as [Hfull|Hroom].
  - assert (pages s ≠ []) as Hne by (intros Hnil; rewrite Hnil in Hfull; simpl in Hfull; lia).
    destruct (evict_page_spec n s Hinv Hne)
      as [(newer & q & older & s1 & Hpages & Hq & _ & -> & Hinv1 & Hp1 & Hf1 & Hcap1)|[-> Hall]]; simpl.
    + assert (q ∈ pages s) as Hqin by (rewrite Hpages, elem_of_app; right; by left).
      destruct (put_push n s1 s id value Hinv1 Hn) as (s' & Hs' & ? & ?); [..|by exists s', true].
      * rewrite Hp1, page_at_without, Hid. by case_decide.
      * rewrite Hp1, Hcap1. assert (length (without page_id (page_id q) (pages s)) < length (pages s)); [|lia].
        by apply without_shorter.
      * done.
      * by apply (evict_view n s s1 q).
      * intros id' p Hp Hpin. rewrite Hp1, page_at_without. rewrite decide_False; [done|]. intros ->.
        rewrite (bp_page_at n s q Hinv Hqin) in Hp. congruence.
    + exists s, false. split_and!; [done..|]. split; [done|..].
      * intros id'. by rewrite decide_False by naive_solver.
      * intros id' p Hp _. by rewrite decide_False by congruence.
      * intros _. split_and!; try done. lia.
  - simpl. destruct (put_push n s s id value Hinv Hn Hid Hroom) as (s' & Hs' & ? & ?); [done..|].
    by exists s', true.
Qed.

(** ** Histories *)

Inductive bp_op := BFetch (id : Z) | BUnpin (id : Z) | BPut (id : Z) (value : string).

(** The boolean is [put]'s outcome. *)
Definition bp_step (s : BufferPool) (o : bp_op) : option (BufferPool * bool) :=
  match o with
  | BFetch id => '(s, p) ← fetchPage s id; Some (s, bool_decide (is_Some p))
  | BUnpin id => s ← unpinPage s id; Some (s, true)
  | BPut id value => bp_put s id value
  end.

(** The values the accepted puts have written. *)
Fixpoint accepted_writes (m : gmap Z string) (ops : list bp_op) (outs : list bool) : gmap Z string :=
  match ops, outs with
  | BPut id value :: ops, true :: outs => accepted_writes (<[id := value]> m) ops outs
  | _ :: ops, _ :: outs => accepted_writes m ops outs
  | _, _ => m
  end.

Lemma view_same_data s s' :
  flushed s' = flushed s → (∀ id, data <$> page_at (pages s') id = data <$> page_at (pages s) id) →
  ∀ id, bp_view s' id = bp_view s id.
Proof.
  intros Hf Hd id. specialize (Hd id). unfold bp_view. rewrite Hf.
  destruct (page_at (pages s') id), (page_at (pages s) id); simplify_eq/=; congruence.
Qed.

Record step_result (s s' : BufferPool) (o : bp_op) (ok : bool) : Prop := {
  step_capacity : Tcapacity s' = Tcapacity s;
  step_view : ∀ id, bp_view s' id = match o with
    | BPut k value => if decide (ok = true ∧ id = k) then Some value else bp_view s id
    | _ => bp_view s id end;
  step_pinned : ∀ id p, page_at (pages s) id = Some p → (0 < pin_count p)%Z → o ≠ BUnpin id →
    ∃ p', page_at (pages s') id = Some p' ∧ (pin_count p ≤ pin_count p')%Z ∧
      data p' = match o with BPut k value => if decide (id = k) then value else data p | _ => data p end;
  step_refused : ∀ k value, o = BPut k value → ok = false →
    Z.of_nat (length (pages s)) = Tcapacity s ∧ Forall (λ p, 0 < pin_count p)%Z (pages s)
}.

Lemma bp_step_spec n s o :
  bp_inv n s → (0 ≤ n < INT_MAX)%Z →
  ∃ s' ok, bp_step s o = Some (s', ok) ∧ bp_inv (n + 1) s' ∧ step_result s s' o ok.
Proof.
  intros Hinv Hn. destruct o as [k|k|k value]; simpl.
  - destruct (fetchPage_spec n s k Hinv ltac:(lia)) as (s' & -> & Hinv' & Hf & ? & Hat). simpl.
    do 2 eexists. split_and!; [done..|]. split; [done| |intros id p Hp _ _; rewrite Hat|done].
    + apply view_same_data; [done|]. intros id. rewrite Hat. case_decide; [|done].
      by destruct (page_at (pages s) id).
    + case_decide; rewrite Hp; eexists; (split_and!; [done|simpl; lia|done]).
  - destruct (unpinPage_spec n s k Hinv) as (s' & -> & Hinv' & Hf & ? & Hat). simpl.
    do 2 eexists. split_and!; [done|eapply bp_mono; [done|lia]|]. split; [done| |intros id p Hp _ Hne; rewrite Hat|done].
    + apply view_same_data; [done|]. intros id. rewrite Hat. case_decide; [|done].
      by destruct (page_at (pages s) id).
    + rewrite decide_False by congruence. by exists p.
  - destruct (bp_put_spec n s k value Hinv ltac:(lia)) as (s' & ok & -> & Hinv' & [? Hview Hpin Href]).
    do 2 eexists. split_and!; [done|eapply bp_mono; [done|lia]|]. split; [done|done|..].
    + intros id p Hp Hpos _. rewrite (Hpin id p Hp) by lia. eexists. split; [done|].
      destruct (decide (id = k)); (split; [simpl; lia|done]).
    + intros k' value' [= <- <-] Hok. destruct (Href Hok) as (_ & _ & Hlen & Hall). split; [done|].
      pose proof (bp_pins _ _ Hinv) as Hpins. rewrite Forall_forall in Hall, Hpins |- *.
      intros p Hp. specialize (Hall p Hp). specialize (Hpins p Hp). simpl in *. lia.
Qed.

Lemma bp_run n s ops (m : gmap Z string) :
  bp_inv n s → (0 ≤ n)%Z → (n + length ops ≤ INT_MAX)%Z → (∀ id, bp_view s id = m !! id) →
  ∃ s' outs, run_out bp_step s ops = Some (s', outs) ∧ bp_inv (n + length ops) s' ∧
    Tcapacity s' = Tcapacity s ∧ ∀ id, bp_view s' id = accepted_writes m ops outs !! id.
Proof.
  revert n s m. induction ops as [|o ops IH]; intros n s m Hinv Hn Hlen Hm; simpl in *.
  { exists s, []. rewrite Z.add_0_r. done. }
  destruct (bp_step_spec n s o Hinv ltac:(lia)) as (s1 & ok & -> & Hinv1 & [Hcap1 Hview _ _]). simpl.
  destruct (IH (n + 1)%Z s1 (match o, ok with BPut k v, true => <[k := v]> m | _, _ => m end) Hinv1)
    as (s' & outs & -> & Hinv' & Hcap' & Hv); [lia|lia| |].
  - intros id. rewrite Hview. destruct o as [| |k v]; [done..|]. destruct ok.
    + destruct (decide (id = k)) as [->|].
      * by rewrite decide_True, lookup_insert_eq.
      * by rewrite decide_False, lookup_insert_ne by naive_solver.
    + rewrite decide_False by naive_solver. done.
  - simpl. do 2 eexists. split_and!; [done| |congruence|].
    + replace (n + S (length ops))%Z with (n + 1 + length ops)%Z by lia. done.
    + intros id. rewrite Hv. by destruct o, ok.
Qed.

Lemma empty_view cap id : bp_view (BufferPool_make cap) id = (∅ : gmap Z string) !! id.
Proof. done. Qed.

(** C8: no accepted write is lost.  After every history of fetches, unpins and puts
    (at most [INT_MAX] of them) on a pool of positive capacity, the run is free of
    undefined behaviour and the content of each page, read from the pool or, when
    the page is not resident, from what was last flushed for it, is the value of
    the last put of that page that was not refused. *)
Theorem buffer_pool_no_lost_update (cap : Z) (ops : list bp_op) :
  (0 < cap ≤ INT_MAX)%Z → (length ops ≤ INT_MAX)%Z →
  ∃ s outs, run_out bp_step (BufferPool_make cap) ops = Some (s, outs) ∧
    (length (pages s) ≤ cap)%Z ∧
    ∀ id, bp_view s id = accepted_writes ∅ ops outs !! id.
Proof.
  intros Hcap Hlen.
  destruct (bp_run 0 _ ops ∅ (bp_new_inv cap Hcap)) as (s & outs & Hr & Hinv & Hc & Hv); [lia|lia|done|].
  exists s, outs. split_and!; [done| |done]. pose proof (bp_size _ _ Hinv) as Hs. by rewrite Hc in Hs.
Qed.

Lemma buffer_pool_no_lost_update_witness :
  ∃ s outs, run_out bp_step (BufferPool_make 1)
      [BPut 1 "a"; BPut 2 "b"; BFetch 2; BPut 3 "c"; BUnpin 2; BPut 3 "d"]%Z = Some (s, outs) ∧
    bp_view s 1 = Some "a"%string ∧ bp_view s 2 = Some "b"%string ∧ bp_view s 3 = Some "d"%string.
Proof.
  destruct (buffer_pool_no_lost_update 1
    [BPut 1 "a"; BPut 2 "b"; BFetch 2; BPut 3 "c"; BUnpin 2; BPut 3 "d"]%Z)
    as (s & outs & Hr & _ & Hv); [unfold INT_MAX; lia|done|].
  exists s, outs. split; [exact Hr|]. rewrite !Hv. vm_compute in Hr. injection Hr as <- <-.
  vm_compute. done.
Defined.

(** Pins are respected.  In every state a history reaches, a page with a
    positive pin count stays resident through any operation but its own unpin, with
    at least that pin count and its content unless the operation writes it; and a
    put is refused only when the pool is full and every page in it is pinned. *)
Theorem buffer_pool_respects_pins (cap : Z) (ops : list bp_op) (o : bp_op) :
  (0 < cap ≤ INT_MAX)%Z → (length ops < INT_MAX)%Z →
  ∃ s outs s' ok, run_out bp_step (BufferPool_make cap) ops = Some (s, outs) ∧
    bp_step s o = Some (s', ok) ∧
    (∀ id p, page_at (pages s) id = Some p → (0 < pin_count p)%Z → o ≠ BUnpin id →
      ∃ p', page_at (pages s') id = Some p' ∧ (pin_count p ≤ pin_count p')%Z ∧
        data p' = match o with BPut k value => if decide (id = k) then value else data p | _ => data p end) ∧
    (∀ k value, o = BPut k value → ok = false →
      Z.of_nat (length (pages s)) = cap ∧ Forall (λ p, 0 < pin_count p)%Z (pages s)).
Proof.
  intros Hcap Hlen.
  destruct (bp_run 0 _ ops ∅ (bp_new_inv cap Hcap)) as (s & outs & Hr & Hinv & Hc & _); [lia|lia|done|].
  destruct (bp_step_spec _ s o Hinv) as (s' & ok & Hs & _ & [_ _ Hpin Href]); [lia|].
  exists s, outs, s', ok. simpl in Hc. split_and!; [done..|]. by rewrite <-Hc.
Qed.

Lemma buffer_pool_respects_pins_witness :
  ∃ s outs s' ok p', run_out bp_step (BufferPool_make 2) [BPut 1 "a"; BFetch 1; BPut 2 "b"]%Z = Some (s, outs) ∧
    bp_step s (BPut 3 "c") = Some (s', ok) ∧ page_at (pages s') 1 = Some p' ∧ data p' = "a"%string.
Proof.
  destruct (buffer_pool_respects_pins 2 [BPut 1 "a"; BFetch 1; BPut 2 "b"]%Z (BPut 3 "c"))
    as (s & outs & s' & ok & Hr & Hs & Hpin & _); [unfold INT_MAX; lia|reflexivity|].
  destruct (Hpin 1%Z {| page_id := 1; data := "a"; dirty := true; pin_count := 1 |}) as (p' & Hp' & _ & Hd).
  - vm_compute in Hr. injection Hr as <- <-. reflexivity.
  - reflexivity.
  - done.
  - exists s, outs, s', ok, p'. split_and!; [exact Hr|exact Hs|exact Hp'|exact Hd].
Defined.
