(* ===== verification/Transactions.v ===== *)
(** * Transaction managers

    The two managers of [src/database-internals] share everything but their lock
    manager: [TransactionManager_withExclusiveWritelock.cpp] locks a key on its
    first write, [TransactionManager_withStrict2PL.cpp] takes a shared lock for a
    read and an exclusive one for a write.  The lock manager is an interface (a type
    class with its laws); the manager's theorems are proved against it. *)
From S2P Require Import Prelude.
Local Open Scope string_scope.
Local Open Scope list_scope.
Local Open Scope Z_scope.

Inductive Txnstate := ACTIVE | COMMITTED | ABORTED.

#[export] Instance Txnstate_eq_dec : EqDecision Txnstate.
Proof. solve_decision. Defined.

(** ** The interface of a lock manager *)

Class LockTable (L : Type) := {
  no_locks : L;
  acquire_read : Z → string → L → L * bool;
  acquire_write : Z → string → L → L * bool;
  release_all : Z → L → L
}.

(** [protects t k l]: no transaction but [t] can write [k] while [t] keeps its
    locks.  Transaction ids are positive. *)
Class LockTableLaws (L : Type) `{LockTable L} := {
  protects : Z → string → L → Prop;
  write_protects t k l : 0 < t → (acquire_write t k l).2 = true → protects t k (acquire_write t k l).1;
  protects_excludes t t' k l : 0 < t → 0 < t' → t' ≠ t → protects t k l → (acquire_write t' k l).2 = false;
  protects_read t t' k k' l : 0 < t → 0 < t' → protects t k l → protects t k (acquire_read t' k' l).1;
  protects_write t t' k k' l : 0 < t → 0 < t' → protects t k l → protects t k (acquire_write t' k' l).1;
  protects_grants t k l : protects t k l → (acquire_read t k l).2 = true;
  protects_release t t' k l : t' ≠ t → protects t k l → protects t k (release_all t' l)
}.

(** ** The manager *)

Record TM (L : Type) := {
  next_txn_id : Z;
  transactions : gmap Z Txnstate;
  database : gmap string string;
  lockManager : L
}.
Arguments next_txn_id {L}.
Arguments transactions {L}.
Arguments database {L}.
Arguments lockManager {L}.

Section manager.
Context {L : Type} `{LockTable L}.
Implicit Types (s : TM L) (t : Z) (k : string).

Definition TM_make : TM L :=
  {| next_txn_id := 1; transactions := ∅; database := ∅; lockManager := no_locks |}.

Definition isActive s t : bool := bool_decide (transactions s !! t = Some ACTIVE).

Definition set_txn s (st : gmap Z Txnstate) (l : L) : TM L :=
  {| next_txn_id := next_txn_id s; transactions := st; database := database s; lockManager := l |}.

Definition set_db s (db : gmap string string) (l : L) : TM L :=
  {| next_txn_id := next_txn_id s; transactions := transactions s; database := db; lockManager := l |}.

(** [None]: [next_txn_id++] overflows. *)
Definition beginTransaction s : option (TM L * Z) :=
  if next_txn_id s =? INT_MAX then None else
  let txn_id := next_txn_id s in
  Some ({| next_txn_id := txn_id + 1; transactions := <[txn_id := ACTIVE]> (transactions s);
           database := database s; lockManager := lockManager s |}, txn_id).

Definition tm_write s t k (value : string) : TM L * bool :=
  if negb (isActive s t) then (s, false) else
  let '(l, lock_status) := acquire_write t k (lockManager s) in
  if negb lock_status then (set_db s (database s) l, false)
  else (set_db s (<[k := value]> (database s)) l, true).

Definition tm_commit s t : TM L :=
  if negb (isActive s t) then s else
  set_txn s (<[t := COMMITTED]> (transactions s)) (release_all t (lockManager s)).

Definition tm_abort s t : TM L :=
  if negb (isActive s t) then s else
  set_txn s (<[t := ABORTED]> (transactions s)) (release_all t (lockManager s)).
End manager.

(** The two managers read differently: the first looks the key up, the second
    takes a lock and uses [database[key]], which inserts an empty value. *)
Definition lookup_read {L} (s : TM L) (t : Z) (k : string) : TM L * string :=
  if negb (isActive s t) then (s, "") else
  match database s !! k with
  | None => (s, "")
  | Some v => (s, v)
  end.

Definition locked_read {L} `{LockTable L} (s : TM L) (t : Z) (k : string) : TM L * string :=
  if negb (isActive s t) then (s, "") else
  let '(l, granted) := acquire_read t k (lockManager s) in
  if negb granted then (set_db s (database s) l, "")
  else
    let v := default "" (database s !! k) in
    (set_db s (match database s !! k with None => <[k := ""]> (database s) | Some _ => database s end) l, v).

(** ** Exclusive write locks *)

Module Exclusive.
Abbreviation Locks := (gmap string Z).

Definition lock (txn_id : Z) (key : string) (locks : Locks) : Locks * bool :=
  match locks !! key with
  | None => (<[key := txn_id]> locks, true)
  | Some t => if t =? txn_id then (<[key := txn_id]> locks, true) else (locks, false)
  end.

Definition unlock (txn_id : Z) (locks : Locks) : Locks := filter (λ p, p.2 ≠ txn_id) locks.

#[export] Instance lock_table : LockTable Locks := {|
  no_locks := (∅ : gmap string Z);
  acquire_read := λ _ _ l, (l, true);
  acquire_write := lock;
  release_all := unlock
|}.

#[export] Instance lock_table_laws : LockTableLaws Locks.
Proof.
  refine {| protects := λ t k l, l !! k = Some t |}; simpl; unfold lock, unlock.
  - intros t k l _. case_match; [case_match|]; simpl; intros ?; try done; by rewrite lookup_insert_eq.
  - intros t t' k l _ _ Hne ->. by destruct (Z.eqb_spec t t').
  - done.
  - intros t t' k k' l _ _ Hk. destruct (decide (k' = k)) as [->|].
    + rewrite Hk. destruct (Z.eqb_spec t t') as [->|]; simpl; [by rewrite lookup_insert_eq|done].
    + case_match; [case_match|]; simpl; by rewrite ?lookup_insert_ne.
  - done.
  - intros t t' k l Hne Hk. by apply map_lookup_filter_Some.
Defined.

(** The operations of this manager: the shared ones, over these locks. *)
Definition TransactionManager : Type := TM Locks.
Definition TransactionManager_make : TransactionManager := TM_make.
Definition active (s : TransactionManager) (txn_id : Z) : bool := isActive s txn_id.
Definition begin (s : TransactionManager) : option (TransactionManager * Z) := beginTransaction s.
Definition read (s : TransactionManager) (txn_id : Z) (key : string) : TransactionManager * string :=
  lookup_read s txn_id key.
Definition write (s : TransactionManager) (txn_id : Z) (key value : string) : TransactionManager * bool :=
  tm_write s txn_id key value.
Definition commit (s : TransactionManager) (txn_id : Z) : TransactionManager := tm_commit s txn_id.
Definition abort (s : TransactionManager) (txn_id : Z) : TransactionManager := tm_abort s txn_id.
End Exclusive.

(** ** Strict two-phase locking *)

Module Strict2PL.
Record Lock := { shared_owners : gset Z; exclusive_owner : Z }.

Definition no_lock : Lock := {| shared_owners := ∅; exclusive_owner := -1 |}.

Abbreviation LockMap := (gmap string Lock).

(** [lock_table[key]] *)
Definition entry (l : LockMap) (key : string) : Lock := default no_lock (l !! key).

Definition acquire_shared_lock (txn_id : Z) (key : string) (l : LockMap) : LockMap * bool :=
  let lock := entry l key in
  if (exclusive_owner lock =? -1) || (exclusive_owner lock =? txn_id) then
    (<[key := {| shared_owners := {[txn_id]} ∪ shared_owners lock; exclusive_owner := exclusive_owner lock |}]> l, true)
  else (<[key := lock]> l, false).

Definition acquire_exclusive_lock (txn_id : Z) (key : string) (l : LockMap) : LockMap * bool :=
  let lock := entry l key in
  let l := <[key := lock]> l in
  if exclusive_owner lock =? txn_id then (l, true)
  else if negb (exclusive_owner lock =? -1) then (l, false)
  else if negb (bool_decide (shared_owners lock = ∅)) then
    if (Z.of_nat (size (shared_owners lock)) =? 1) && bool_decide (txn_id ∈ shared_owners lock)
    then (l, true) else (l, false)
  else (<[key := {| shared_owners := shared_owners lock; exclusive_owner := txn_id |}]> l, true).

Definition release_all_locks (txn_id : Z) (l : LockMap) : LockMap :=
  (λ lock, {| shared_owners := shared_owners lock ∖ {[txn_id]};
              exclusive_owner := if exclusive_owner lock =? txn_id then -1 else exclusive_owner lock |}) <$> l.

#[export] Instance lock_table : LockTable LockMap := {|
  no_locks := (∅ : gmap string Lock);
  acquire_read := acquire_shared_lock;
  acquire_write := acquire_exclusive_lock;
  release_all := release_all_locks
|}.

(** A lock keeps other writers out when its transaction owns it exclusively or is
    among the shared owners of a lock nobody owns exclusively. *)
Definition guarded (t : Z) (lock : Lock) : Prop :=
  exclusive_owner lock = t ∨ (exclusive_owner lock = -1 ∧ t ∈ shared_owners lock).

Lemma entry_insert l k x k' : entry (<[k := x]> l) k' = if decide (k' = k) then x else entry l k'.
Proof. unfold entry. case_decide; subst; by rewrite ?lookup_insert_eq, ?lookup_insert_ne. Qed.

Definition release_lock (t : Z) (lock : Lock) : Lock :=
  {| shared_owners := shared_owners lock ∖ {[t]};
     exclusive_owner := if exclusive_owner lock =? t then -1 else exclusive_owner lock |}.

Lemma entry_release t l k : entry (release_all_locks t l) k = release_lock t (entry l k).
Proof.
  unfold entry, release_all_locks. rewrite lookup_fmap. destruct (l !! k); [done|]. simpl.
  unfold release_lock, no_lock. simpl. f_equal; [set_solver|by case_match].
Qed.

Lemma acquire_shared_guards t k l :
  (acquire_shared_lock t k l).2 = true → guarded t (entry (acquire_shared_lock t k l).1 k).
Proof.
  unfold acquire_shared_lock, guarded. destruct (_ || _) eqn:E; simpl; [intros _|done].
  rewrite entry_insert, decide_True by done. simpl.
  apply orb_true_iff in E as [E|E]; apply Z.eqb_eq in E; [right; split; [done|set_solver]|by left].
Qed.

Lemma guarded_excludes t t' k l :
  0 < t → 0 < t' → t' ≠ t → guarded t (entry l k) →
  acquire_exclusive_lock t' k l = (<[k := entry l k]> l, false).
Proof.
  unfold acquire_exclusive_lock, guarded. intros Ht Ht' Hne Hg.
  destruct (Z.eqb_spec (exclusive_owner (entry l k)) t') as [E|E].
  { destruct Hg as [Hg|[Hg _]]; [congruence|lia]. }
  destruct (Z.eqb_spec (exclusive_owner (entry l k)) (-1)) as [E1|E1]; simpl; [|done].
  destruct Hg as [Hg|[_ Hin]]; [lia|]. rewrite bool_decide_false by set_solver. simpl.
  destruct (_ && _) eqn:Hs; [|done]. apply andb_true_iff in Hs as [Hs Hin']. apply Z.eqb_eq in Hs.
  apply bool_decide_eq_true in Hin'. assert (size (shared_owners (entry l k)) = 1%nat) as Hsz by lia.
  apply size_1_elem_of in Hsz as [x Hx].
  exfalso. rewrite Hx, elem_of_singleton in Hin, Hin'. congruence.
Qed.

Lemma guarded_shared t t' k k' l :
  guarded t (entry l k) → guarded t (entry (acquire_shared_lock t' k' l).1 k).
Proof.
  intros Hg. unfold acquire_shared_lock. cbv zeta. case_match; simpl; rewrite entry_insert;
    destruct (decide (k = k')) as [->|]; try done.
  destruct Hg as [Hg|[Hg Hin]]; [by left|right]. split; [done|set_solver].
Qed.

Lemma guarded_exclusive t k k' l :
  guarded t (entry l k) → guarded t (entry (acquire_exclusive_lock t k' l).1 k).
Proof.
  intros Hg. unfold acquire_exclusive_lock. cbv zeta.
  repeat case_match; simpl; rewrite !entry_insert; destruct (decide (k = k')) as [->|]; try done.
  by left.
Qed.

Lemma exclusive_guards t k l :
  0 < t → (acquire_exclusive_lock t k l).2 = true → guarded t (entry (acquire_exclusive_lock t k l).1 k).
Proof.
  intros Ht. unfold acquire_exclusive_lock.
  destruct (Z.eqb_spec (exclusive_owner (entry l k)) t) as [E|E];
    [intros _; simpl; rewrite entry_insert, decide_True by done; by left|].
  destruct (Z.eqb_spec (exclusive_owner (entry l k)) (-1)) as [E1|E1]; simpl; [|done].
  destruct (bool_decide_reflect (shared_owners (entry l k) = ∅)) as [E2|E2]; simpl.
  - intros _. rewrite entry_insert, decide_True by done. by left.
  - destruct (_ && _) eqn:Hs; [|done]. intros _. simpl. rewrite entry_insert, decide_True by done.
    right. apply andb_true_iff in Hs as [_ Hs]. by apply bool_decide_eq_true in Hs.
Qed.

#[export] Instance lock_table_laws : LockTableLaws LockMap.
Proof.
  refine {| protects := λ t k l, guarded t (entry l k) |}; simpl.
  - apply exclusive_guards.
  - intros t t' k l ? ? ? Hg. by rewrite (guarded_excludes t t').
  - intros. by apply guarded_shared.
  - intros t t' k k' l Ht Ht' Hg. destruct (decide (t' = t)) as [->|Hne]; [by apply guarded_exclusive|].
    destruct (decide (k' = k)) as [->|Hk].
    + rewrite (guarded_excludes t t') by done. simpl. rewrite entry_insert. by rewrite decide_True.
    + unfold acquire_exclusive_lock. cbv zeta. repeat case_match; simpl; rewrite !entry_insert; by rewrite !decide_False.
  - intros t k l Hg. unfold acquire_shared_lock. cbv zeta.
    destruct Hg as [Hg|[Hg _]]; rewrite Hg, ?Z.eqb_refl, ?orb_true_r; done.
  - intros t t' k l Hne Hg. rewrite entry_release. unfold release_lock, guarded in *. simpl.
    destruct Hg as [<-|[Hg Hin]].
    + left. by destruct (Z.eqb_spec (exclusive_owner (entry l k)) t').
    + right. rewrite Hg. split; [by case_match|set_solver].
Defined.
End Strict2PL.

#[export] Existing Instances Exclusive.lock_table Exclusive.lock_table_laws.
#[export] Existing Instances Strict2PL.lock_table Strict2PL.lock_table_laws.

(** ** Histories *)

Inductive tm_op :=
  | Begin | Read (t : Z) (k : string) | Write (t : Z) (k v : string) | Commit (t : Z) | Abort_ (t : Z).

Section histories.
Context {L : Type} `{LockTable L} (read : TM L → Z → string → TM L * string).
Implicit Types (s : TM L) (t : Z) (k : string).

Definition tm_step s (o : tm_op) : option (TM L) :=
  match o with
  | Begin => fst <$> beginTransaction s
  | Read t k => Some (read s t k).1
  | Write t k v => Some (tm_write s t k v).1
  | Commit t => Some (tm_commit s t)
  | Abort_ t => Some (tm_abort s t)
  end.

(** The value a key has; a missing key reads as the empty string. *)
Definition value_of s k : string := default "" (database s !! k).

(** What the theorems need of a [read]: it changes the state at most by a lock
    request and by giving a missing key an empty value. *)
Definition read_like : Prop := ∀ s t k,
  let s' := (read s t k).1 in
  transactions s' = transactions s ∧ next_txn_id s' = next_txn_id s ∧
  (∀ k', value_of s' k' = value_of s k') ∧
  (lockManager s' = lockManager s ∨
   isActive s t = true ∧ lockManager s' = (acquire_read t k (lockManager s)).1) ∧
  (isActive s t = true → (acquire_read t k (lockManager s)).2 = true → (read s t k).2 = value_of s k).

Context `{!LockTableLaws L} (Hread : read_like).

(** Ids of active transactions are those handed out. *)
Record tm_wf s : Prop := {
  wf_next : 0 < next_txn_id s ≤ INT_MAX;
  wf_ids : ∀ t st, transactions s !! t = Some st → 0 < t < next_txn_id s
}.

Lemma active_pos s t : tm_wf s → isActive s t = true → 0 < t < next_txn_id s.
Proof. intros Hwf Ha%bool_decide_eq_true. by eapply wf_ids. Qed.

Lemma finish_spec s t st l t' :
  isActive s t = true → isActive (set_txn s (<[t := st]> (transactions s)) l) t' =
    if decide (t' = t) then bool_decide (st = ACTIVE) else isActive s t'.
Proof.
  intros _. unfold isActive. simpl. case_decide as Ht; [subst; rewrite lookup_insert_eq|by rewrite lookup_insert_ne].
  apply bool_decide_ext. naive_solver.
Qed.

Lemma finish_wf s t st l :
  tm_wf s → isActive s t = true → tm_wf (set_txn s (<[t := st]> (transactions s)) l).
Proof.
  intros Hwf Ha. split; [apply Hwf|]. simpl. intros t' st' [[<- _]|[_ Ht']]%lookup_insert_Some.
  - by apply active_pos.
  - by eapply wf_ids.
Qed.

Lemma tm_step_wf s o s' :
  tm_wf s → tm_step s o = Some s' → tm_wf s' ∧ next_txn_id s' ≤ next_txn_id s + 1.
Proof.
  intros Hwf Hs. destruct o as [|t k|t k v|t|t]; simpl in Hs.
  - unfold beginTransaction in Hs. pose proof (wf_next _ Hwf).
    destruct (Z.eqb_spec (next_txn_id s) INT_MAX); simplify_eq/=. split; [|lia]. split; simpl; [lia|].
    intros t st [[<- _]|[_ Ht]]%lookup_insert_Some; [lia|]. pose proof (wf_ids _ Hwf _ _ Ht). lia.
  - simplify_eq. destruct (Hread s t k) as (Ht & Hn & _). rewrite Hn. split; [|lia].
    split; [rewrite Hn; apply Hwf|]. rewrite Ht, Hn. apply Hwf.
  - simplify_eq. unfold tm_write. destruct (isActive s t); simpl; [|split; [done|lia]].
    destruct (acquire_write t k (lockManager s)) as [l []]; simpl; (split; [|lia]); by destruct Hwf.
  - simplify_eq. unfold tm_commit. destruct (isActive s t) eqn:Ha; simpl; (split; [|lia]); [by apply finish_wf|done].
  - simplify_eq. unfold tm_abort. destruct (isActive s t) eqn:Ha; simpl; (split; [|lia]); [by apply finish_wf|done].
Qed.

Lemma tm_step_total s o : next_txn_id s < INT_MAX → ∃ s', tm_step s o = Some s'.
Proof.
  intros Hn. destruct o; simpl; eauto. unfold beginTransaction.
  destruct (Z.eqb_spec (next_txn_id s) INT_MAX); [lia|]. simpl. eauto.
Qed.

Lemma tm_run_total s ops :
  tm_wf s → next_txn_id s + length ops ≤ INT_MAX →
  ∃ s', run_ops tm_step s ops = Some s' ∧ tm_wf s' ∧ next_txn_id s' ≤ next_txn_id s + length ops.
Proof.
  revert s. induction ops as [|o ops IH]; intros s Hwf Hn; simpl in *; [exists s; split_and!; [done..|lia]|].
  destruct (tm_step_total s o) as [s1 Hs1]; [lia|]. rewrite Hs1. simpl.
  destruct (tm_step_wf s o s1 Hwf Hs1) as [Hwf1 Hn1].
  destruct (IH s1 Hwf1) as (s' & ? & ? & ?); [lia|]. exists s'. split_and!; [done..|lia].
Qed.

(** Operations after which [t] still has its locks and has not written [k] itself. *)
Definition leaves_alone t k (o : tm_op) : bool :=
  match o with
  | Commit t' | Abort_ t' => negb (t' =? t)
  | Write t' k' _ => negb (t' =? t) || negb (bool_decide (k' = k))
  | Begin | Read _ _ => true
  end.

Record held s t k (v : string) : Prop := {
  held_active : isActive s t = true;
  held_lock : protects t k (lockManager s);
  held_value : value_of s k = v
}.

Lemma held_finish s t t' k v st :
  tm_wf s → held s t k v → t' ≠ t → isActive s t' = true →
  held (set_txn s (<[t' := st]> (transactions s)) (release_all t' (lockManager s))) t k v.
Proof.
  intros Hwf [Ha Hl Hv] Hne Ha'. split; [|by apply protects_release|done].
  rewrite finish_spec by done. by rewrite decide_False.
Qed.

Lemma held_step s t k v o s' :
  tm_wf s → held s t k v → leaves_alone t k o = true → tm_step s o = Some s' → held s' t k v.
Proof.
  intros Hwf Hheld Hla Hs. pose proof Hheld as [Ha Hl Hv]. pose proof (active_pos s t Hwf Ha) as Hpos.
  destruct o as [|t' k'|t' k' v'|t'|t']; simpl in Hs, Hla.
  - unfold beginTransaction in Hs. case_match; simplify_eq/=. split; [|done..].
    apply bool_decide_eq_true in Ha. apply bool_decide_eq_true. simpl. rewrite lookup_insert_ne by lia. done.
  - simplify_eq. destruct (Hread s t' k') as (Ht & _ & Hval & Hlk & _). split.
    + unfold isActive in *. by rewrite Ht.
    + destruct Hlk as [->|[Ha' ->]]; [done|]. pose proof (active_pos s t' Hwf Ha'). apply protects_read; [lia..|done].
    + done.
  - simplify_eq. unfold tm_write. destruct (isActive s t') eqn:Ha'; simpl; [|done].
    pose proof (active_pos s t' Hwf Ha').
    pose proof (protects_write t t' k k' (lockManager s) ltac:(lia) ltac:(lia) Hl) as Hl'.
    destruct (decide (t' = t)) as [->|Hne].
    + rewrite Z.eqb_refl in Hla. simpl in Hla. apply negb_true_iff, bool_decide_eq_false in Hla.
      destruct (acquire_write t k' (lockManager s)) as [l []]; simpl; (split; [done..|]); [|done].
      unfold value_of. simpl. by rewrite lookup_insert_ne.
    + destruct (decide (k' = k)) as [->|Hk].
      * pose proof (protects_excludes t t' k (lockManager s) ltac:(lia) ltac:(lia) Hne Hl) as Hno.
        destruct (acquire_write t' k (lockManager s)) as [l b]. simpl in *. subst b. done.
      * destruct (acquire_write t' k' (lockManager s)) as [l []]; simpl; (split; [done..|]); [|done].
        unfold value_of. simpl. by rewrite lookup_insert_ne.
  - simplify_eq. unfold tm_commit. destruct (isActive s t') eqn:Ha'; simpl; [|done].
    apply negb_true_iff, Z.eqb_neq in Hla. by apply held_finish.
  - simplify_eq. unfold tm_abort. destruct (isActive s t') eqn:Ha'; simpl; [|done].
    apply negb_true_iff, Z.eqb_neq in Hla. by apply held_finish.
Qed.

Lemma held_run s t k v ops s' :
  tm_wf s → held s t k v → Forall (λ o, leaves_alone t k o = true) ops →
  run_ops tm_step s ops = Some s' → held s' t k v.
Proof.
  intros Hwf Hh Hall. revert s Hwf Hh. induction Hall as [|o ops Ho _ IH]; intros s Hwf Hh Hr; simpl in Hr.
  - by simplify_eq.
  - destruct (tm_step s o) as [s1|] eqn:E; simplify_eq/=.
    eapply IH; [by eapply tm_step_wf|by eapply held_step|done].
Qed.

Lemma held_reads s t k v : held s t k v → (read s t k).2 = v.
Proof.
  intros [Ha Hl Hv]. destruct (Hread s t k) as (_ & _ & _ & _ & Hr). rewrite Hr; [done..|].
  by apply protects_grants.
Qed.

Lemma write_holds s t k v :
  tm_wf s → (tm_write s t k v).2 = true → held (tm_write s t k v).1 t k v.
Proof.
  intros Hwf. unfold tm_write. destruct (isActive s t) eqn:Ha; simpl; [|done].
  pose proof (write_protects t k (lockManager s) ltac:(apply (active_pos s t Hwf Ha))) as Hp.
  destruct (acquire_write t k (lockManager s)) as [l []]; simpl in *; [intros _|done].
  split; [done|by apply Hp|]. unfold value_of. simpl. by rewrite lookup_insert_eq.
Qed.

Lemma TM_make_wf : tm_wf TM_make.
Proof. split; simpl; [done|]. by intros t st ?%lookup_empty_Some. Qed.
End histories.

Lemma lookup_read_like {L} `{LockTable L} : read_like lookup_read.
Proof.
  intros s t k. unfold lookup_read, value_of. destruct (isActive s t); simpl; [|by split_and!; auto].
  destruct (database s !! k); simpl; split_and!; auto.
Qed.

Lemma locked_read_like {L} `{LockTable L} : read_like locked_read.
Proof.
  intros s t k. unfold locked_read, value_of. destruct (isActive s t); simpl; [|by split_and!; auto].
  destruct (acquire_read t k (lockManager s)) as [l []]; simpl; split_and!; auto; [|done].
  intros k'. destruct (database s !! k) eqn:E; [done|].
  destruct (decide (k' = k)) as [->|]; by rewrite ?lookup_insert_eq, ?lookup_insert_ne, ?E.
Qed.

(** ** Isolation *)

(** C12: writes are isolated, for every lock manager with the laws of the interface
    and either way of reading.  Once a write of [k] by [t] has succeeded, whatever the
    other transactions do (and whatever [t] does but write [k] again, commit or
    abort), [t] stays active, the value in the database is the one written and
    reading [k] in [t] returns it. *)
Theorem tm_write_isolation {L} `{LockTableLaws L} (read : TM L → Z → string → TM L * string)
    (ops1 ops2 : list tm_op) (t : Z) (k v : string) (s : TM L) :
  read_like read →
  1 + length ops1 + length ops2 ≤ INT_MAX →
  run_ops (tm_step read) TM_make ops1 = Some s →
  (tm_write s t k v).2 = true →
  Forall (λ o, leaves_alone t k o = true) ops2 →
  ∃ s', run_ops (tm_step read) (tm_write s t k v).1 ops2 = Some s' ∧
    isActive s' t = true ∧ value_of s' k = v ∧ (read s' t k).2 = v.
Proof.
  intros Hread Hlen Hrun Hw Hall.
  destruct (tm_run_total read Hread TM_make ops1 TM_make_wf) as (s0 & Hs0 & Hwf & Hn); simpl; [lia|].
  simpl in Hn. simplify_eq. destruct (tm_step_wf read Hread s (Write t k v) _ Hwf eq_refl) as [Hwf1 _].
  assert (next_txn_id (tm_write s t k v).1 = next_txn_id s) as Hnext.
  { unfold tm_write. by repeat case_match. }
  destruct (tm_run_total read Hread _ ops2 Hwf1) as (s' & Hs' & _); [lia|].
  exists s'. split; [done|].
  pose proof (held_run read Hread _ t k v ops2 s' Hwf1 (write_holds s t k v Hwf Hw) Hall Hs') as Hh.
  split_and!; [apply Hh|apply Hh|]. exact (held_reads read Hread s' t k v Hh).
Qed.

(** Two transactions under strict two-phase locking: the second one's attempts on
    the key of the first are without effect. *)
Lemma tm_write_isolation_witness :
  ∃ s s', run_ops (tm_step (L := Strict2PL.LockMap) locked_read) TM_make [Begin; Begin; Write 2 "B" "7"] = Some s ∧
    run_ops (tm_step locked_read) (tm_write s 1 "A" "100").1
      [Read 2 "A"; Write 2 "A" "500"; Read 1 "B"; Commit 2; Begin; Write 3 "A" "9"] = Some s' ∧
    (locked_read s' 1 "A").2 = "100".
Proof.
  destruct (run_ops (tm_step (L := Strict2PL.LockMap) locked_read) TM_make [Begin; Begin; Write 2 "B" "7"])
    as [s|] eqn:Hs; [|vm_compute in Hs; discriminate].
  destruct (tm_write_isolation locked_read [Begin; Begin; Write 2 "B" "7"]
    [Read 2 "A"; Write 2 "A" "500"; Read 1 "B"; Commit 2; Begin; Write 3 "A" "9"] 1 "A" "100" s)
    as (s' & Hs' & _ & _ & Hr).
  - exact locked_read_like.
  - vm_compute. discriminate.
  - exact Hs.
  - vm_compute in Hs. injection Hs as <-. reflexivity.
  - by repeat constructor.
  - exists s, s'. exact (conj eq_refl (conj Hs' Hr)).
Defined.

(** The request of [read(t, k)] for a shared lock is granted. *)
Definition read_granted (s : TM Strict2PL.LockMap) (t : Z) (k : string) : bool :=
  isActive s t && (Strict2PL.acquire_shared_lock t k (lockManager s)).2.

(** C13: reads are repeatable under strict two-phase locking.  After a read of [k] by
    [t] whose lock request was granted, whatever the other transactions do, a later
    read of [k] by [t] returns the same value, as long as [t] has neither written
    [k] nor finished. *)
Theorem strict2pl_repeatable_read (ops1 ops2 : list tm_op) (t : Z) (k : string) (s : TM Strict2PL.LockMap) :
  1 + length ops1 + length ops2 ≤ INT_MAX →
  run_ops (tm_step locked_read) TM_make ops1 = Some s →
  read_granted s t k = true →
  Forall (λ o, leaves_alone t k o = true) ops2 →
  ∃ s', run_ops (tm_step locked_read) (locked_read s t k).1 ops2 = Some s' ∧
    (locked_read s' t k).2 = (locked_read s t k).2.
Proof.
  intros Hlen Hrun Hg Hall. pose proof (locked_read_like (L := Strict2PL.LockMap)) as Hread.
  destruct (tm_run_total locked_read Hread TM_make ops1 TM_make_wf) as (s0 & Hs0 & Hwf & Hn); simpl; [lia|].
  simpl in Hn. simplify_eq. destruct (tm_step_wf locked_read Hread s (Read t k) _ Hwf eq_refl) as [Hwf1 _].
  destruct (Hread s t k) as (Htx & Hnext & Hval & _ & Hr).
  destruct (tm_run_total locked_read Hread _ ops2 Hwf1) as (s' & Hs' & _); [rewrite Hnext; lia|].
  exists s'. split; [done|]. apply andb_true_iff in Hg as [Ha Hg]. apply (held_reads locked_read Hread).
  eapply (held_run locked_read Hread); [exact Hwf1| |exact Hall|exact Hs']. split.
  - unfold isActive in *. by rewrite Htx.
  - pose proof (Strict2PL.acquire_shared_guards t k (lockManager s) Hg) as Hp.
    unfold locked_read. rewrite Ha. simpl. destruct (Strict2PL.acquire_shared_lock t k (lockManager s)) as [l []]; done.
  - rewrite Hval. symmetry. by apply Hr.
Qed.

Lemma strict2pl_repeatable_read_witness :
  ∃ s s', run_ops (tm_step (L := Strict2PL.LockMap) locked_read) TM_make
      [Begin; Write 1 "A" "1"; Commit 1; Begin; Begin] = Some s ∧
    run_ops (tm_step locked_read) (locked_read s 2 "A").1 [Read 3 "A"; Write 3 "A" "2"; Abort_ 3] = Some s' ∧
    (locked_read s' 2 "A").2 = (locked_read s 2 "A").2.
Proof.
  destruct (run_ops (tm_step (L := Strict2PL.LockMap) locked_read) TM_make
    [Begin; Write 1 "A" "1"; Commit 1; Begin; Begin]) as [s|] eqn:Hs; [|vm_compute in Hs; discriminate].
  destruct (strict2pl_repeatable_read [Begin; Write 1 "A" "1"; Commit 1; Begin; Begin]
    [Read 3 "A"; Write 3 "A" "2"; Abort_ 3] 2 "A" s) as (s' & Hs' & Hr).
  - vm_compute. discriminate.
  - exact Hs.
  - vm_compute in Hs. injection Hs as <-. reflexivity.
  - by repeat constructor.
  - exists s, s'. exact (conj eq_refl (conj Hs' Hr)).
Defined.

(** Upgrading a shared lock leaves the key readable.  A transaction that has read
    [A] and then writes it keeps only its shared lock ([exclusive_owner] is not set),
    so a second transaction is granted a read of the uncommitted value; without the
    first read, the same request is refused. *)
Theorem strict2pl_upgrade_dirty_read :
  let run ops := run_ops (tm_step (L := Strict2PL.LockMap) locked_read) TM_make ops in
  (∃ s, run [Begin; Begin; Read 1 "A"; Write 1 "A" "500"] = Some s ∧
    isActive s 1 = true ∧ value_of s "A" = "500" ∧
    Strict2PL.exclusive_owner (Strict2PL.entry (lockManager s) "A") = -1 ∧
    read_granted s 2 "A" = true ∧ (locked_read s 2 "A").2 = "500") ∧
  (∃ s, run [Begin; Begin; Write 1 "A" "500"] = Some s ∧
    Strict2PL.exclusive_owner (Strict2PL.entry (lockManager s) "A") = 1 ∧ read_granted s 2 "A" = false).
Proof. split; eexists; (split; [vm_compute; reflexivity|]); vm_compute; split_and!; reflexivity. Qed.
