(* ===== verification/Raft.v ===== *)
(** * Leader election

    [src/distributed/RaftElection_onHeartbeatAbsence.cpp]: each [RaftNode] runs a
    thread that starts an election when it has not heard a heartbeat and sends
    heartbeats while it is the leader.  The calls between nodes are direct method
    calls guarded by the callee's mutex, and [startElection] keeps its own node's
    mutex while it asks every peer.  One step of the model is one critical section
    (or one read of an atomic) of one thread; the time-outs are not modelled, an
    election may start whenever the loop looks. *)
From S2P Require Import Prelude.
Local Open Scope nat_scope.

Inductive State := FOLLOWER | CANDIDATE | LEADER.

#[export] Instance State_eq_dec : EqDecision State.
Proof. solve_decision. Defined.

(** Where the thread of a node is: at the top of the loop, about to lock for an
    election, inside [startElection] with peer [i] to ask next, or inside
    [sendHeartbeat] with peer [i] next and, once read, the term it sends. *)
Inductive Activity :=
  | Waiting
  | ElectionDue
  | Electing (i : nat) (votes : Z)
  | Beating (i : nat) (term : option Z).

Record RaftNode := {
  nodeId : Z;
  currTerm : Z;
  state : State;
  votedFor : Z;
  worker : Activity
}.

Definition RaftNode_make (id : Z) : RaftNode :=
  {| nodeId := id; currTerm := 0; state := FOLLOWER; votedFor := -1; worker := Waiting |}.

Definition set_worker (a : RaftNode) (w : Activity) : RaftNode :=
  {| nodeId := nodeId a; currTerm := currTerm a; state := state a; votedFor := votedFor a; worker := w |}.

(** Only [startElection] keeps the mutex from one step to the next. *)
Definition mtx_held (a : RaftNode) : bool := match worker a with Electing _ _ => true | _ => false end.

(** The part of [startElection] before the loop; [currTerm] is an atomic, whose
    increment wraps around. *)
Definition startElection (a : RaftNode) : RaftNode :=
  {| nodeId := nodeId a; currTerm := int32 (currTerm a + 1); state := CANDIDATE; votedFor := nodeId a;
     worker := Electing 0 1 |}.

Definition requestVote (term candidateId : Z) (p : RaftNode) : RaftNode * bool :=
  if (term <? currTerm p)%Z then (p, false) else
  let p := if (currTerm p <? term)%Z then
    {| nodeId := nodeId p; currTerm := term; state := FOLLOWER; votedFor := -1; worker := worker p |} else p in
  if (votedFor p =? -1)%Z || (votedFor p =? candidateId)%Z then
    ({| nodeId := nodeId p; currTerm := currTerm p; state := state p; votedFor := candidateId;
        worker := worker p |}, true)
  else (p, false).

Definition becomeLeader (a : RaftNode) : RaftNode :=
  {| nodeId := nodeId a; currTerm := currTerm a; state := LEADER; votedFor := votedFor a; worker := worker a |}.

Definition receiveHeartbeat (received_term : Z) (p : RaftNode) : RaftNode :=
  if (currTerm p <=? received_term)%Z then
    {| nodeId := nodeId p; currTerm := received_term; state := FOLLOWER; votedFor := -1; worker := worker p |}
  else p.

(** The cluster, every node having all nodes as [peers], and the printed record of
    the elections won. *)
Record Cluster := { nodes : list RaftNode; won : list (nat * Z) }.

Definition Cluster_make (ids : list Z) : Cluster := {| nodes := RaftNode_make <$> ids; won := [] |}.

Definition set_node (s : Cluster) (n : nat) (a : RaftNode) : Cluster :=
  {| nodes := <[n := a]> (nodes s); won := won s |}.

(** The loop body of [startElection]: one peer. [None]: the peer's mutex is held. *)
Definition ask_peer (s : Cluster) (n : nat) (a : RaftNode) (i : nat) (votes : Z) (p : RaftNode) : option Cluster :=
  if decide (i = n) then Some (set_node s n (set_worker a (Electing (S i) votes)))
  else if mtx_held p then None
  else
    let '(p, granted) := requestVote (currTerm a) (nodeId a) p in
    Some (set_node (set_node s i p) n
      (set_worker a (Electing (S i) (if granted then votes + 1 else votes)%Z))).

(** After the loop of [startElection]: the quorum test. *)
Definition finish_election (s : Cluster) (n : nat) (a : RaftNode) (votes : Z) : Cluster :=
  if (length (nodes s) / 2 <? votes)%Z then
    {| nodes := <[n := set_worker (becomeLeader a) Waiting]> (nodes s); won := (n, currTerm a) :: won s |}
  else set_node s n (set_worker a Waiting).

(** The loop body of [sendHeartbeat]. *)
Definition beat_peer (s : Cluster) (n : nat) (a : RaftNode) (i : nat) (term : option Z) (p : RaftNode) :
    option Cluster :=
  if decide (i = n) then Some (set_node s n (set_worker a (Beating (S i) None)))
  else match term with
  | None => Some (set_node s n (set_worker a (Beating i (Some (currTerm a)))))
  | Some t =>
      if mtx_held p then None
      else Some (set_node (set_node s i (receiveHeartbeat t p)) n (set_worker a (Beating (S i) None)))
  end.

(** The next step of the thread of node [n]; [None] when it waits for a mutex. *)
Definition raft_step (s : Cluster) (n : nat) : option Cluster :=
  a ← nodes s !! n;
  match worker a with
  | Waiting =>
      Some (set_node s n (set_worker a (if decide (state a = LEADER) then Beating 0 None else ElectionDue)))
  | ElectionDue => Some (set_node s n (startElection a))
  | Electing i votes =>
      match nodes s !! i with
      | Some p => ask_peer s n a i votes p
      | None => Some (finish_election s n a votes)
      end
  | Beating i term =>
      match nodes s !! i with
      | Some p => beat_peer s n a i term p
      | None => Some (set_node s n (set_worker a Waiting))
      end
  end.

(** ** Invariant *)

(** [m] bounds the terms.  A candidate that has asked a peer has a term the peer has
    reached, and has strictly passed when the peer is a candidate too; likewise for
    the elections that were won. *)
Record raft_inv (m : Z) (s : Cluster) : Prop := {
  inv_bound : ∀ p b, nodes s !! p = Some b → (0 ≤ currTerm b ≤ m)%Z;
  inv_asked : ∀ n a i v p b, nodes s !! n = Some a → worker a = Electing i v → p < i → p ≠ n →
    nodes s !! p = Some b →
    (currTerm a ≤ currTerm b)%Z ∧ (mtx_held b = true → (currTerm a < currTerm b)%Z);
  inv_won : ∀ n t p b, (n, t) ∈ won s → nodes s !! p = Some b →
    (t ≤ currTerm b)%Z ∧ (p ≠ n → mtx_held b = true → (t < currTerm b)%Z);
  inv_unique : ∀ n n' t, (n, t) ∈ won s → (n', t) ∈ won s → n = n';
  inv_leader : ∀ n a, nodes s !! n = Some a → state a = LEADER → mtx_held a = false ∧ (n, currTerm a) ∈ won s
}.

Lemma set_node_lookup s n a p b :
  nodes (set_node s n a) !! p = Some b → (p = n ∧ b = a ∧ n < length (nodes s)) ∨ (p ≠ n ∧ nodes s !! p = Some b).
Proof.
  simpl. intros [(-> & -> & ?)|[? ?]]%list_lookup_insert_Some; [left|right]; auto.
Qed.

Lemma electing_held a i v : worker a = Electing i v → mtx_held a = true.
Proof. unfold mtx_held. by intros ->. Qed.

(** A node that is not in an election changes, without entering one. *)
Lemma inv_passive m s n a a' :
  raft_inv m s → nodes s !! n = Some a → mtx_held a = false → mtx_held a' = false →
  (currTerm a ≤ currTerm a' ≤ m)%Z → (state a' = LEADER → state a = LEADER ∧ currTerm a' = currTerm a) →
  raft_inv m (set_node s n a').
Proof.
  intros Hinv Ha Hh Hh' Ht Hl. split.
  - intros p b [(-> & -> & _)|[_ Hb]]%set_node_lookup; [|by eapply (inv_bound _ _ Hinv)].
    pose proof (inv_bound _ _ Hinv _ _ Ha). lia.
  - intros n1 a1 i v p b [(-> & -> & _)|[_ Ha1]]%set_node_lookup Hw Hi Hne.
    { apply electing_held in Hw. congruence. }
    intros [(-> & -> & _)|[_ Hb]]%set_node_lookup; [|by eapply (inv_asked _ _ Hinv)].
    destruct (inv_asked _ _ Hinv n1 a1 i v n a Ha1 Hw Hi Hne Ha). split; [lia|congruence].
  - simpl. intros n1 t p b Hwon [(-> & -> & _)|[_ Hb]]%set_node_lookup; [|by eapply (inv_won _ _ Hinv)].
    destruct (inv_won _ _ Hinv n1 t n a Hwon Ha). split; [lia|congruence].
  - apply Hinv.
  - intros p b [(-> & -> & _)|[_ Hb]]%set_node_lookup Hs; [|by eapply (inv_leader _ _ Hinv)].
    destruct (Hl Hs) as [Hs' ->]. split; [done|]. by apply (inv_leader _ _ Hinv n a Ha).
Qed.

Lemma inv_start m s n a :
  raft_inv m s → nodes s !! n = Some a → mtx_held a = false → (m < INT_MAX)%Z →
  raft_inv (m + 1) (set_node s n (startElection a)).
Proof.
  intros Hinv Ha Hh Hm. pose proof (inv_bound _ _ Hinv _ _ Ha) as Hb.
  assert (currTerm (startElection a) = currTerm a + 1)%Z as Ht.
  { simpl. apply int32_id. auto with cpp. }
  split.
  - intros p b [(-> & -> & _)|[_ Hp]]%set_node_lookup; [lia|]. pose proof (inv_bound _ _ Hinv _ _ Hp). lia.
  - intros n1 a1 i v p b [(-> & -> & _)|[_ Ha1]]%set_node_lookup Hw Hi Hne.
    { simpl in Hw. simplify_eq. lia. }
    intros [(-> & -> & _)|[_ Hp]]%set_node_lookup; [|by eapply (inv_asked _ _ Hinv)].
    destruct (inv_asked _ _ Hinv n1 a1 i v n a Ha1 Hw Hi Hne Ha). rewrite Ht. split; [|intros _]; lia.
  - simpl. intros n1 t p b Hwon [(-> & -> & _)|[_ Hp]]%set_node_lookup; [|by eapply (inv_won _ _ Hinv)].
    destruct (inv_won _ _ Hinv n1 t n a Hwon Ha). rewrite Ht. split; [|intros _ _]; lia.
  - apply Hinv.
  - intros p b [(-> & -> & _)|[_ Hp]]%set_node_lookup Hs; [done|by eapply (inv_leader _ _ Hinv)].
Qed.

Lemma inv_advance m s n a i v v' :
  raft_inv m s → nodes s !! n = Some a → worker a = Electing i v →
  (∀ p, i ≠ n → nodes s !! i = Some p → mtx_held p = false ∧ (currTerm a ≤ currTerm p)%Z) →
  raft_inv m (set_node s n (set_worker a (Electing (S i) v'))).
Proof.
  intros Hinv Ha Hw Hpeer. split.
  - intros p b [(-> & -> & _)|[_ Hp]]%set_node_lookup; [exact (inv_bound _ _ Hinv _ _ Ha)|by eapply (inv_bound _ _ Hinv)].
  - intros n1 a1 i1 v1 p b [(-> & -> & _)|[Hn1 Ha1]]%set_node_lookup Hw1 Hi Hne.
    + simpl in Hw1. simplify_eq. intros [(-> & _)|[_ Hp]]%set_node_lookup; [done|]. simpl.
      destruct (decide (p = i)) as [->|]; [|eapply (inv_asked _ _ Hinv n a i v p b); eauto; lia].
      destruct (Hpeer b Hne Hp). split; [done|congruence].
    + intros [(-> & -> & _)|[_ Hp]]%set_node_lookup; [|by eapply (inv_asked _ _ Hinv)].
      destruct (inv_asked _ _ Hinv n1 a1 i1 v1 n a Ha1 Hw1 Hi Hne Ha) as [? Hlt]. simpl. split; [done|].
      intros _. apply Hlt. by eapply electing_held.
  - simpl. intros n1 t p b Hwon [(-> & -> & _)|[_ Hp]]%set_node_lookup; [|by eapply (inv_won _ _ Hinv)].
    destruct (inv_won _ _ Hinv n1 t n a Hwon Ha) as [? Hlt]. simpl. split; [done|].
    intros Hne _. apply Hlt; [done|]. by eapply electing_held.
  - apply Hinv.
  - intros p b [(-> & -> & _)|[_ Hp]]%set_node_lookup Hs; [|by eapply (inv_leader _ _ Hinv)].
    simpl in Hs. destruct (inv_leader _ _ Hinv n a Ha Hs) as [Hh _]. apply electing_held in Hw. congruence.
Qed.

(** A lost election: the candidate gives its mutex back. *)
Lemma inv_lost m s n a i v :
  raft_inv m s → nodes s !! n = Some a → worker a = Electing i v → raft_inv m (set_node s n (set_worker a Waiting)).
Proof.
  intros Hinv Ha Hw. pose proof (electing_held _ _ _ Hw) as Hh. split.
  - intros p b [(-> & -> & _)|[_ Hp]]%set_node_lookup; [exact (inv_bound _ _ Hinv _ _ Ha)|by eapply (inv_bound _ _ Hinv)].
  - intros n1 a1 i1 v1 p b [(-> & -> & _)|[_ Ha1]]%set_node_lookup Hw1 Hi1 Hne; [done|].
    intros [(-> & -> & _)|[_ Hp]]%set_node_lookup; [|by eapply (inv_asked _ _ Hinv)].
    split; [|done]. by apply (inv_asked _ _ Hinv n1 a1 i1 v1 n a).
  - simpl. intros n1 t p b Hwon [(-> & -> & _)|[_ Hp]]%set_node_lookup; [|by eapply (inv_won _ _ Hinv)].
    split; [|done]. by apply (inv_won _ _ Hinv n1 t n a).
  - apply Hinv.
  - intros p b [(-> & -> & _)|[_ Hp]]%set_node_lookup Hs; [|by eapply (inv_leader _ _ Hinv)].
    simpl in Hs. destruct (inv_leader _ _ Hinv n a Ha Hs). congruence.
Qed.

Lemma inv_finish m s n a i v :
  raft_inv m s → nodes s !! n = Some a → worker a = Electing i v → nodes s !! i = None →
  raft_inv m (finish_election s n a v).
Proof.
  intros Hinv Ha Hw Hi. apply lookup_ge_None in Hi. pose proof (electing_held _ _ _ Hw) as Hh.
  assert (∀ p b, p ≠ n → nodes s !! p = Some b →
    (currTerm a ≤ currTerm b)%Z ∧ (mtx_held b = true → (currTerm a < currTerm b)%Z)) as Hall.
  { intros p b Hne Hp. apply (inv_asked _ _ Hinv n a i v p b Ha Hw); [|done..].
    apply lookup_lt_Some in Hp. lia. }
  pose proof (inv_lost m s n a i v Hinv Ha Hw) as Hlost.
  unfold finish_election. destruct (_ <? v)%Z; [|done].
  assert (∀ p b, <[n := set_worker (becomeLeader a) Waiting]> (nodes s) !! p = Some b →
    ∃ b', nodes (set_node s n (set_worker a Waiting)) !! p = Some b' ∧ currTerm b = currTerm b' ∧
      worker b = worker b' ∧ mtx_held b = mtx_held b' ∧
      (state b = LEADER → p = n ∧ currTerm b = currTerm a ∨ state b' = LEADER)) as Hsame.
  { intros p b [(<- & <- & Hlt)|[Hne Hp]]%list_lookup_insert_Some.
    - exists (set_worker a Waiting). simpl. rewrite list_lookup_insert_eq by done. by split_and!; auto.
    - exists b. simpl. rewrite list_lookup_insert_ne by done. by split_and!; auto. }
  split; simpl.
  - intros p b (b' & Hb' & -> & _)%Hsame. by eapply (inv_bound _ _ Hlost).
  - intros n1 a1 i1 v1 p b (a1' & Ha1' & -> & Hw1 & _)%Hsame Hw1' Hi1 Hne (b' & Hb' & -> & _ & -> & _)%Hsame.
    eapply (inv_asked _ _ Hlost n1 a1'); [done|by rewrite <-Hw1|done..].
  - intros n1 t p b [[= -> ->]|Hwon]%elem_of_cons Hp.
    + destruct (decide (p = n)) as [->|Hne].
      * rewrite list_lookup_insert_eq in Hp by (by eapply lookup_lt_Some). simplify_eq. done.
      * rewrite list_lookup_insert_ne in Hp by done. destruct (Hall p b Hne Hp). done.
    + apply Hsame in Hp as (b' & Hb' & -> & _ & -> & _). by eapply (inv_won _ _ Hlost n1).
  - intros n1 n2 t Hn1 Hn2.
    assert (∀ n', (n', currTerm a) ∈ won s → n' = n) as Hn.
    { intros n' Hwon. destruct (decide (n = n')) as [|Hne]; [done|].
      destruct (inv_won _ _ Hinv n' _ n a Hwon Ha) as [_ Hlt]. specialize (Hlt Hne Hh). lia. }
    apply elem_of_cons in Hn1 as [[= -> ->]|Hn1], Hn2 as [[= ->]|Hn2]; [done| |subst; by apply Hn|].
    + symmetry. by apply Hn.
    + by eapply (inv_unique _ _ Hinv).
  - intros p b Hp Hs. apply Hsame in Hp as (b' & Hb' & Ht & _ & Hmh & Hor). rewrite Hmh.
    destruct (Hor Hs) as [[-> Hta]|Hs'].
    + rewrite Hta. split; [|left]. simpl in Hb'.
      rewrite list_lookup_insert_eq in Hb' by (by eapply lookup_lt_Some). by simplify_eq.
    + rewrite Ht. destruct (inv_leader _ _ Hlost p b' Hb' Hs') as [? ?]. split; [done|by right].
Qed.

Lemma inv_mono m m' s : raft_inv m s → (m ≤ m')%Z → raft_inv m' s.
Proof.
  intros [Hb ? ? ? ?] Hm. split; try done. intros p b Hp. pose proof (Hb p b Hp). lia.
Qed.

Lemma requestVote_spec term id p m :
  (currTerm p ≤ m)%Z → (term ≤ m)%Z →
  let p' := (requestVote term id p).1 in
  (currTerm p ≤ currTerm p' ≤ m)%Z ∧ (term ≤ currTerm p')%Z ∧ worker p' = worker p ∧
  (state p' = LEADER → state p = LEADER ∧ currTerm p' = currTerm p).
Proof.
  intros Hp Ht. unfold requestVote. destruct (Z.ltb_spec term (currTerm p)); simpl; [split_and!; auto; lia|].
  destruct (Z.ltb_spec (currTerm p) term); simpl.
  - split_and!; auto; try lia; done.
  - case_match; simpl; split_and!; auto; lia.
Qed.

Lemma receiveHeartbeat_spec term p m :
  (currTerm p ≤ m)%Z → (term ≤ m)%Z →
  let p' := receiveHeartbeat term p in
  (currTerm p ≤ currTerm p' ≤ m)%Z ∧ worker p' = worker p ∧
  (state p' = LEADER → state p = LEADER ∧ currTerm p' = currTerm p).
Proof.
  intros Hp Ht. unfold receiveHeartbeat. destruct (Z.leb_spec (currTerm p) term); simpl; split_and!; auto; lia || done.
Qed.

Lemma held_worker a a' : worker a' = worker a → mtx_held a' = mtx_held a.
Proof. unfold mtx_held. by intros ->. Qed.

(** Terms in flight are bounded too. *)
Definition beats_bounded (m : Z) (s : Cluster) : Prop :=
  ∀ n a i t, nodes s !! n = Some a → worker a = Beating i (Some t) → (t ≤ m)%Z.

Lemma beats_set_node m s n a :
  beats_bounded m s → (∀ i t, worker a = Beating i (Some t) → (t ≤ m)%Z) → beats_bounded m (set_node s n a).
Proof.
  intros Hb Ha n1 a1 i t [(-> & -> & _)|[_ Ha1]]%set_node_lookup; [apply Ha|by eapply Hb].
Qed.

Lemma beats_mono m m' s : beats_bounded m s → (m ≤ m')%Z → beats_bounded m' s.
Proof. intros Hb Hm n a i t Ha Hw. pose proof (Hb n a i t Ha Hw). lia. Qed.

Lemma ask_peer_inv m s n a i v p s' :
  raft_inv m s → beats_bounded m s → nodes s !! n = Some a → worker a = Electing i v → nodes s !! i = Some p →
  ask_peer s n a i v p = Some s' → raft_inv m s' ∧ beats_bounded m s'.
Proof.
  intros Hinv Hbeat Ha Hw Hp Hs. unfold ask_peer in Hs. destruct (decide (i = n)) as [->|Hin].
  { simplify_eq. split; [eapply inv_advance; done|by apply beats_set_node]. }
  destruct (mtx_held p) eqn:Hh; [done|].
  pose proof (inv_bound _ _ Hinv _ _ Hp). pose proof (inv_bound _ _ Hinv _ _ Ha).
  pose proof (requestVote_spec (currTerm a) (nodeId a) p m) as Hrv.
  destruct (requestVote (currTerm a) (nodeId a) p) as [p' granted]. simpl in Hrv. simplify_eq.
  destruct Hrv as (Ht & Hle & Hwp & Hl); [lia..|]. pose proof (held_worker p p' Hwp) as Hh'. split.
  - assert (raft_inv m (set_node s i p')) as Hinv1.
    { apply (inv_passive _ _ i p); [done..|congruence|done|done]. }
    eapply inv_advance; [exact Hinv1|simpl; by rewrite list_lookup_insert_ne|done|].
    simpl. intros p0 _ Hp0. rewrite list_lookup_insert_eq in Hp0 by (by eapply lookup_lt_Some).
    simplify_eq. split; [congruence|done].
  - apply beats_set_node; [|done]. apply beats_set_node; [done|]. rewrite Hwp. intros j t Hj. by eapply Hbeat.
Qed.

Lemma beat_peer_inv m s n a i term p s' :
  raft_inv m s → beats_bounded m s → nodes s !! n = Some a → worker a = Beating i term → nodes s !! i = Some p →
  beat_peer s n a i term p = Some s' → raft_inv m s' ∧ beats_bounded m s'.
Proof.
  intros Hinv Hbeat Ha Hw Hp Hs. pose proof (inv_bound _ _ Hinv _ _ Ha) as Hba.
  assert (mtx_held a = false) by (unfold mtx_held; by rewrite Hw).
  assert (∀ j ot, raft_inv m (set_node s n (set_worker a (Beating j ot)))) as Hown.
  { intros j ot. apply (inv_passive _ _ n a); [done..|simpl; lia|simpl; auto]. }
  unfold beat_peer in Hs. destruct (decide (i = n)) as [->|Hin].
  { simplify_eq. split; [by apply Hown|by apply beats_set_node]. }
  destruct term as [t|].
  - destruct (mtx_held p) eqn:Hh; [done|]. simplify_eq. pose proof (inv_bound _ _ Hinv _ _ Hp).
    pose proof (Hbeat n a i t Ha Hw).
    destruct (receiveHeartbeat_spec t p m) as (Ht & Hwp & Hl); [lia..|].
    pose proof (held_worker p _ Hwp) as Hh'. split.
    + apply (inv_passive _ _ n a); [|simpl; by rewrite list_lookup_insert_ne|done|done|simpl; lia|simpl; auto].
      apply (inv_passive _ _ i p); [done..|congruence|done|done].
    + apply beats_set_node; [|done]. apply beats_set_node; [done|]. rewrite Hwp.
      intros j t' Hj. by eapply Hbeat.
  - simplify_eq. split; [by apply Hown|]. apply beats_set_node; [done|]. simpl. intros j t [= <- <-]. lia.
Qed.

Lemma raft_step_inv m s n s' :
  raft_inv m s → beats_bounded m s → (m < INT_MAX)%Z → raft_step s n = Some s' →
  raft_inv (m + 1) s' ∧ beats_bounded (m + 1) s'.
Proof.
  intros Hinv Hbeat Hm Hs. unfold raft_step in Hs. destruct (nodes s !! n) as [a|] eqn:Ha; [|done]. simpl in Hs.
  pose proof (inv_bound _ _ Hinv _ _ Ha) as Hba.
  assert (raft_inv (m + 1) s) as Hinv' by (eapply inv_mono; [done|lia]).
  assert (beats_bounded (m + 1) s) as Hbeat' by (eapply beats_mono; [done|lia]).
  destruct (worker a) as [| |i v|i term] eqn:Hw.
  - simplify_eq. assert (mtx_held a = false) by (unfold mtx_held; by rewrite Hw).
    split; [|apply beats_set_node; [done|]; simpl; by case_decide].
    apply (inv_passive _ _ n a); [done..|unfold mtx_held; simpl; by case_decide|simpl; lia|simpl; auto].
  - simplify_eq. assert (mtx_held a = false) by (unfold mtx_held; by rewrite Hw).
    split; [by apply inv_start|by apply beats_set_node].
  - destruct (nodes s !! i) as [p|] eqn:Hp; [exact (ask_peer_inv (m + 1) s n a i v p s' Hinv' Hbeat' Ha Hw Hp Hs)|]. simplify_eq. split; [by eapply inv_finish|].
    unfold finish_election. case_match; [|by apply beats_set_node].
    by apply (beats_set_node (m + 1) s n (set_worker (becomeLeader a) Waiting)).
  - destruct (nodes s !! i) as [p|] eqn:Hp; [exact (beat_peer_inv (m + 1) s n a i term p s' Hinv' Hbeat' Ha Hw Hp Hs)|]. simplify_eq.
    assert (mtx_held a = false) by (unfold mtx_held; by rewrite Hw). split; [|by apply beats_set_node].
    apply (inv_passive _ _ n a); [done..|simpl; lia|simpl; auto].
Qed.

Lemma raft_run_inv m s sched s' :
  raft_inv m s → beats_bounded m s → (m + length sched ≤ INT_MAX)%Z → run_ops raft_step s sched = Some s' →
  raft_inv (m + length sched) s'.
Proof.
  revert m s. induction sched as [|n sched IH]; intros m s Hinv Hb Hm Hr; simpl in *.
  - simplify_eq. by rewrite Z.add_0_r.
  - destruct (raft_step s n) as [s1|] eqn:E; simplify_eq/=.
    destruct (raft_step_inv m s n s1 Hinv Hb ltac:(lia) E) as [Hinv1 Hb1].
    replace (m + S (length sched))%Z with (m + 1 + length sched)%Z by lia.
    eapply IH; [done..|lia|done].
Qed.

Lemma Cluster_make_inv ids : raft_inv 0 (Cluster_make ids) ∧ beats_bounded 0 (Cluster_make ids).
Proof.
  assert (∀ n a, nodes (Cluster_make ids) !! n = Some a →
    currTerm a = 0%Z ∧ worker a = Waiting ∧ state a = FOLLOWER) as Hnew.
  { intros n a. simpl. rewrite list_lookup_fmap. by intros (? & ? & ->)%fmap_Some. }
  split; [split|].
  - intros p b (-> & _)%Hnew. lia.
  - intros n a i v p b (_ & Hw & _)%Hnew. congruence.
  - intros n t p b Hn. by apply not_elem_of_nil in Hn.
  - intros n n' t Hn. by apply not_elem_of_nil in Hn.
  - intros n a (_ & _ & Hs)%Hnew. congruence.
  - intros n a i t (_ & Hw & _)%Hnew. congruence.
Qed.


(** Node 0 wins term 1; node 1 then starts an election and wins term 2. *)
Definition two_elections : list nat := replicate 6 0 ++ replicate 6 1.


(** ** An election without competition *)

(** What a peer of a lower term becomes when [a] asks for its vote. *)
Definition voter (a b : RaftNode) : RaftNode :=
  {| nodeId := nodeId b; currTerm := currTerm a; state := FOLLOWER; votedFor := nodeId a; worker := worker b |}.

Lemma requestVote_newer a b :
  (currTerm b < currTerm a)%Z → requestVote (currTerm a) (nodeId a) b = (voter a b, true).
Proof.
  intros Hlt. unfold requestVote. destruct (Z.ltb_spec (currTerm a) (currTerm b)); [lia|].
  destruct (Z.ltb_spec (currTerm b) (currTerm a)); [|lia]. done.
Qed.

(** The candidate [c] has asked the peers below [i], and all have granted. *)
Record asked (s0 : Cluster) (c : nat) (a : RaftNode) (i : nat) (s : Cluster) : Prop := {
  asked_length : length (nodes s) = length (nodes s0);
  asked_won : won s = won s0;
  asked_self : nodes s !! c = Some (set_worker a (Electing i (if c <? i then Z.of_nat i else (i + 1)%Z)));
  asked_peers : ∀ p b, p ≠ c → nodes s0 !! p = Some b →
    nodes s !! p = Some (if p <? i then voter a b else b)
}.

Lemma ask_all s0 c a i k s :
  (∀ p b, p ≠ c → nodes s0 !! p = Some b → mtx_held b = false ∧ (currTerm b < currTerm a)%Z) →
  asked s0 c a i s → i + k ≤ length (nodes s0) →
  ∃ s', run_ops raft_step s (replicate k c) = Some s' ∧ asked s0 c a (i + k) s'.
Proof.
  intros Hfree. revert i s. induction k as [|k IH]; intros i s Has Hik; simpl.
  { exists s. by rewrite Nat.add_0_r. }
  pose proof Has as [Hlen Hwon Hself Hpeers].
  assert (∃ s1, raft_step s c = Some s1 ∧ asked s0 c a (S i) s1) as (s1 & -> & Has1).
  { unfold raft_step. rewrite Hself. simpl.
    destruct (lookup_lt_is_Some_2 (nodes s) i) as [p Hp]; [lia|]. rewrite Hp. unfold ask_peer.
    assert (c < length (nodes s)) as Hc by (by eapply lookup_lt_Some).
    case_decide as Hic.
    - subst i. eexists. split; [done|]. split; simpl; [by rewrite length_insert|done|..].
      + rewrite list_lookup_insert_eq by done. repeat f_equal.
        rewrite (proj2 (Nat.ltb_ge c c)), (proj2 (Nat.ltb_lt c (S c))) by lia. unfold set_worker. simpl. repeat f_equal. lia.
      + intros q b Hq Hb. rewrite list_lookup_insert_ne by done. rewrite (Hpeers q b Hq Hb). repeat f_equal.
        destruct (Nat.ltb_spec q c), (Nat.ltb_spec q (S c)); lia || done.
    - destruct (lookup_lt_is_Some_2 (nodes s0) i) as [b Hb]; [lia|].
      pose proof (Hpeers i b Hic Hb) as Hp'. rewrite Hp in Hp'. rewrite Nat.ltb_irrefl in Hp'. simplify_eq.
      destruct (Hfree i b Hic Hb) as [-> Hlt]. rewrite (requestVote_newer (set_worker a _) b Hlt).
      eexists. split; [done|]. split; simpl; [by rewrite !length_insert|done|..].
      + rewrite list_lookup_insert_eq by (by rewrite length_insert). unfold set_worker. simpl. repeat f_equal.
        destruct (Nat.ltb_spec c i), (Nat.ltb_spec c (S i)); lia.
      + intros q b' Hq Hb'. rewrite list_lookup_insert_ne by done.
        destruct (decide (q = i)) as [->|Hqi].
        * rewrite list_lookup_insert_eq by lia. rewrite (proj2 (Nat.ltb_lt i (S i))) by lia. by simplify_eq.
        * rewrite list_lookup_insert_ne by done. rewrite (Hpeers q b' Hq Hb'). repeat f_equal.
          destruct (Nat.ltb_spec q i), (Nat.ltb_spec q (S i)); lia || done. }
  simpl. destruct (IH (S i) s1 Has1) as (s' & ? & ?); [lia|]. exists s'. by rewrite Nat.add_succ_r.
Qed.

(** An uncontested election succeeds.  When no election is in progress, a node
    whose election is due and whose term no other node exceeds becomes leader of the
    next term in as many steps as there are nodes plus two, and every other node is
    then a follower in that term that has voted for it. *)
Theorem raft_uncontested_election (s : Cluster) (c : nat) (a : RaftNode) :
  nodes s !! c = Some a → worker a = ElectionDue → (0 ≤ currTerm a < INT_MAX)%Z →
  (∀ p b, p ≠ c → nodes s !! p = Some b → mtx_held b = false ∧ (currTerm b ≤ currTerm a)%Z) →
  ∃ s' a', run_ops raft_step s (replicate (length (nodes s) + 2) c) = Some s' ∧
    nodes s' !! c = Some a' ∧ state a' = LEADER ∧ currTerm a' = (currTerm a + 1)%Z ∧
    won s' = (c, currTerm a + 1)%Z :: won s ∧
    ∀ p b, p ≠ c → nodes s !! p = Some b →
      ∃ b', nodes s' !! p = Some b' ∧ state b' = FOLLOWER ∧ currTerm b' = (currTerm a + 1)%Z ∧
        votedFor b' = nodeId a.
Proof.
  intros Ha Hw Ht Hfree. set (a0 := startElection a). assert (c < length (nodes s)) as Hc by (by eapply lookup_lt_Some).
  assert (currTerm a0 = currTerm a + 1)%Z as Ht0.
  { simpl. apply int32_id. auto with cpp. }
  destruct (ask_all s c a0 0 (length (nodes s)) (set_node s c a0)) as (s1 & Hr1 & Has1).
  { intros p b Hp Hb. destruct (Hfree p b Hp Hb). split; [done|]. lia. }
  { split; simpl; [by rewrite length_insert|done|by rewrite list_lookup_insert_eq|].
    intros p b Hp Hb. by rewrite list_lookup_insert_ne. }
  { lia. }
  assert (run_ops raft_step s (replicate (length (nodes s) + 2) c) = raft_step s1 c) as Hrun.
  { assert (raft_step s c = Some (set_node s c a0)) as H0 by (unfold raft_step; rewrite Ha; simpl; by rewrite Hw).
    replace (length (nodes s) + 2) with (S (length (nodes s) + 1)) by lia. cbn [replicate run_ops]. rewrite H0.
    cbn [mbind option_bind]. rewrite replicate_add, run_ops_app, Hr1. simpl. by destruct (raft_step s1 c). }
  rewrite Hrun. destruct Has1 as [Hlen Hwon Hself Hpeers]. simpl in Hself, Hpeers.
  assert (nodeId a0 = nodeId a) as Hid by done. clearbody a0. clear Hrun Hr1.
  unfold raft_step. rewrite Hself. simpl. rewrite (proj2 (lookup_ge_None _ _)) by lia.
  rewrite (proj2 (Nat.ltb_lt c _)) by done. unfold finish_election. rewrite Hlen.
  destruct (Z.ltb_spec (length (nodes s) / 2) (length (nodes s))) as [_|Hq].
  2:{ pose proof (Z.div_lt (length (nodes s)) 2). lia. }
  do 2 eexists. split; [done|]. simpl. rewrite list_lookup_insert_eq by lia. rewrite Hwon, <-Ht0.
  split_and!; [done..|]. intros p b Hp Hb. rewrite list_lookup_insert_ne by done.
  rewrite (Hpeers p b Hp Hb), (proj2 (Nat.ltb_lt p _)) by (by eapply lookup_lt_Some).
  by eexists.
Qed.

Lemma raft_uncontested_election_witness :
  ∃ s', run_ops raft_step (set_node (Cluster_make [1; 2; 3; 4; 5]%Z) 2 (set_worker (RaftNode_make 3) ElectionDue))
      (replicate 7 2) = Some s' ∧ won s' = [(2, 1%Z)].
Proof.
  destruct (raft_uncontested_election
    (set_node (Cluster_make [1; 2; 3; 4; 5]%Z) 2 (set_worker (RaftNode_make 3) ElectionDue)) 2
    (set_worker (RaftNode_make 3) ElectionDue)) as (s' & a' & Hr & _ & _ & _ & Hw & _).
  - reflexivity.
  - reflexivity.
  - vm_compute. split; [discriminate|reflexivity].
  - intros p b Hp Hb. do 5 (destruct p as [|p]; [vm_compute in Hb; injection Hb as <-; vm_compute; split; [reflexivity|discriminate]|]).
    vm_compute in Hb. discriminate.
  - exists s'. exact (conj Hr Hw).
Defined.

(** ** Competing candidates *)

Lemma held_untouched s n m a s' :
  nodes s !! n = Some a → mtx_held a = true → m ≠ n → raft_step s m = Some s' → nodes s' !! n = Some a.
Proof.
  intros Ha Hh Hmn Hs. unfold raft_step in Hs. destruct (nodes s !! m) as [b|] eqn:Hb; [|done]. simpl in Hs.
  assert (∀ c, nodes (set_node s m c) !! n = Some a) as Hset by (intros c; simpl; by rewrite list_lookup_insert_ne).
  destruct (worker b) as [| |i v|i term]; [by simplify_eq..| |].
  - destruct (nodes s !! i) as [p|] eqn:Hp.
    + unfold ask_peer in Hs. case_decide; [by simplify_eq|]. destruct (mtx_held p) eqn:Hhp; [done|].
      assert (i ≠ n) by congruence.
      destruct (requestVote _ _ p). simplify_eq/=. by rewrite !list_lookup_insert_ne.
    + simplify_eq. unfold finish_election. case_match; simpl; by rewrite list_lookup_insert_ne.
  - destruct (nodes s !! i) as [p|] eqn:Hp; [|by simplify_eq].
    unfold beat_peer in Hs. case_decide; [by simplify_eq|]. destruct term as [t|]; [|by simplify_eq].
    destruct (mtx_held p) eqn:Hhp; [done|]. assert (i ≠ n) by congruence.
    simplify_eq/=. by rewrite !list_lookup_insert_ne.
Qed.

(** [n] and [n'] hold their mutexes and each asks the other next. *)
Definition deadlocked (s : Cluster) (n n' : nat) : Prop :=
  ∃ a v a' v', nodes s !! n = Some a ∧ worker a = Electing n' v ∧
    nodes s !! n' = Some a' ∧ worker a' = Electing n v'.

Lemma deadlocked_stuck s n n' : n ≠ n' → deadlocked s n n' → raft_step s n = None.
Proof.
  intros Hne (a & v & a' & v' & Ha & Hw & Ha' & Hw'). unfold raft_step. rewrite Ha. simpl. rewrite Hw, Ha'.
  unfold ask_peer. rewrite decide_False by done. unfold mtx_held. by rewrite Hw'.
Qed.

Lemma deadlocked_sym s n n' : deadlocked s n n' → deadlocked s n' n.
Proof. intros (a & v & a' & v' & ?). exists a', v', a, v. tauto. Qed.

Lemma deadlocked_run s n n' sched s' :
  n ≠ n' → deadlocked s n n' → run_ops raft_step s sched = Some s' → deadlocked s' n n'.
Proof.
  intros Hne. revert s. induction sched as [|m sched IH]; intros s Hd Hr; simpl in Hr; [by simplify_eq|].
  destruct (raft_step s m) as [s1|] eqn:E; simplify_eq/=. apply (IH s1); [|done].
  assert (m ≠ n) as Hm by (intros ->; by rewrite (deadlocked_stuck s n n') in E).
  assert (m ≠ n') as Hm' by (intros ->; apply deadlocked_sym in Hd; by rewrite (deadlocked_stuck s n' n) in E).
  destruct Hd as (a & v & a' & v' & Ha & Hw & Ha' & Hw'). exists a, v, a', v'. split_and!; try done.
  - eapply held_untouched; [done|by eapply electing_held|done..].
  - eapply held_untouched; [done|by eapply electing_held|done..].
Qed.

(** Two candidates at once block for ever.  In the five-node cluster of [main],
    nodes 1 and 2 can both enter [startElection]; each then waits for the mutex of
    the other, and in every later state both are still blocked. *)
Theorem raft_candidates_deadlock :
  ∃ s, run_ops raft_step (Cluster_make [1; 2; 3; 4; 5]%Z) [0; 0; 1; 1; 0] = Some s ∧
    ∀ sched s', run_ops raft_step s sched = Some s' →
      raft_step s' 0 = None ∧ raft_step s' 1 = None.
Proof.
  eexists. split; [vm_compute; reflexivity|]. intros sched s' Hr.
  eapply (deadlocked_run _ 0 1) in Hr; [|done|do 4 eexists; vm_compute; split_and!; reflexivity].
  split; [by eapply deadlocked_stuck|]. eapply deadlocked_stuck; [|by apply deadlocked_sym]. done.
Qed.

(** A node can vote twice in a term.  A heartbeat of the node's own term resets
    [votedFor], so after voting for candidate 1 in term [t] and receiving a heartbeat
    of term [t] the node votes for any other candidate of the same term. *)
Theorem raft_heartbeat_forgets_vote (p : RaftNode) (t c c' : Z) :
  (currTerm p < t)%Z →
  let '(p1, granted1) := requestVote t c p in
  let '(p2, granted2) := requestVote t c' (receiveHeartbeat t p1) in
  granted1 = true ∧ votedFor p1 = c ∧ granted2 = true ∧ votedFor p2 = c' ∧ currTerm p2 = t.
Proof.
  intros Ht. unfold requestVote. destruct (Z.ltb_spec t (currTerm p)); [lia|].
  destruct (Z.ltb_spec (currTerm p) t); [|lia]. simpl. unfold receiveHeartbeat. simpl.
  rewrite Z.leb_refl. simpl. rewrite Z.ltb_irrefl. done.
Qed.

Lemma raft_heartbeat_forgets_vote_witness :
  let '(p1, granted1) := requestVote 1 1 (RaftNode_make 3) in
  let '(p2, granted2) := requestVote 1 2 (receiveHeartbeat 1 p1) in
  granted1 = true ∧ votedFor p1 = 1%Z ∧ granted2 = true ∧ votedFor p2 = 2%Z ∧ currTerm p2 = 1%Z.
Proof. exact (raft_heartbeat_forgets_vote (RaftNode_make 3) 1 1 2 eq_refl). Defined.

(** ** Shutdown *)

(** [shutDown] sets the flag that the loop of [run] tests at its top; it joins the thread,
    which has returned when it is there with the flag set. *)
Inductive RaftTurn := Run (n : nat) | ShutDown (n : nat).

#[export] Instance Activity_eq_dec : EqDecision Activity.
Proof. solve_decision. Defined.

Definition returned (s : Cluster) (stop : gset nat) (n : nat) : Prop := n ∈ stop ∧ worker <$> nodes s !! n = Some Waiting.

#[export] Instance returned_dec s stop n : Decision (returned s stop n).
Proof. unfold returned. apply _. Defined.

Definition shutDown (stop : gset nat) (n : nat) : gset nat := {[n]} ∪ stop.

Definition raft_turn (x : Cluster * gset nat) (u : RaftTurn) : option (Cluster * gset nat) :=
  match u with
  | ShutDown n => Some (x.1, shutDown x.2 n)
  | Run n =>
      if decide (returned x.1 x.2 n) then Some x
      else s ← raft_step x.1 n; Some (s, x.2)
  end.

(** A run with shutdowns is a run in which the threads that have returned do not move. *)
Lemma shutdown_erases x us x' :
  run_ops raft_turn x us = Some x' → ∃ sched, run_ops raft_step x.1 sched = Some x'.1 ∧ length sched ≤ length us.
Proof.
  revert x. induction us as [|u us IH]; intros x Hr; simpl in Hr; [simplify_eq; by exists []|].
  destruct (raft_turn x u) as [y|] eqn:E; [|done]. simpl in Hr. destruct (IH y Hr) as (sched & Hs & Hl). destruct u as [n|n]; simpl in E.
  - destruct (decide _) as [?|_]; [simplify_eq; exists sched; split; [done|simpl; lia]|]. destruct (raft_step x.1 n) as [s|] eqn:Es; [|done]. simplify_eq/=.
    exists (n :: sched). simpl. rewrite Es. split; [done|simpl; lia].
  - simplify_eq/=. exists sched. split; [done|simpl; lia].
Qed.

(** Election safety holds while nodes are shut down too. *)
Theorem raft_shutdown_safe (ids : list Z) (us : list RaftTurn) s stop :
  (length us ≤ INT_MAX)%Z → run_ops raft_turn (Cluster_make ids, ∅) us = Some (s, stop) →
  ∀ n n' t, (n, t) ∈ won s → (n', t) ∈ won s → n = n'.
Proof.
  intros Hlen Hr. destruct (shutdown_erases _ _ _ Hr) as (sched & Hs & Hl). destruct (Cluster_make_inv ids) as [Hi Hb]. simpl in Hs.
  pose proof (raft_run_inv 0 _ sched s Hi Hb ltac:(unfold INT_MAX in *; lia) Hs) as Hinv. apply Hinv.
Qed.
