(* ===== verification/DedupEngine.v ===== *)
(** * Deduplicating file store

    [src/storage/DeduplicationEngine_Block_Chunker.cpp]: files are cut into chunks,
    each distinct chunk is stored once and counted, and a file is the list of its
    chunks' fingerprints.  A fingerprint is the decimal form of [std::hash], which
    the standard leaves to the implementation: the hash function is a parameter, and
    the theorems assume that it has no collision.

    Addresses and reference counts are bounded by the number of chunk references the
    program holds in memory, and are not wrapped. *)
From S2P Require Import Prelude.
Local Open Scope string_scope.
Local Open Scope list_scope.
Local Open Scope nat_scope.

(** ** Chunks on the medium *)

Record ChunkStore := { next_address : Z; storage : gmap Z string }.

Definition ChunkStore_make : ChunkStore := {| next_address := 0; storage := ∅ |}.

Definition writeChunk (c : ChunkStore) (data : string) : ChunkStore * Z :=
  let addr := next_address c in
  ({| next_address := addr + 1; storage := <[addr := data]> (storage c) |}, addr).

(** [storage[addr]]: a missing address is given an empty chunk. *)
Definition readChunk (c : ChunkStore) (addr : Z) : ChunkStore * string :=
  match storage c !! addr with
  | Some d => (c, d)
  | None => ({| next_address := next_address c; storage := <[addr := ""]> (storage c) |}, "")
  end.

Definition deleteChunk (c : ChunkStore) (addr : Z) : ChunkStore :=
  {| next_address := next_address c; storage := delete addr (storage c) |}.

(** ** The index of fingerprints *)

Record ChunkMetadata := { address : Z; ref_count : Z }.

Abbreviation DedupIndex := (gmap string ChunkMetadata).

Definition exists_ (ix : DedupIndex) (fp : string) : bool := bool_decide (is_Some (ix !! fp)).

Definition add (ix : DedupIndex) (fp : string) (addr : Z) : DedupIndex :=
  <[fp := {| address := addr; ref_count := 1 |}]> ix.

(** [index[fp]] value-initialises a missing entry. *)
Definition entry (ix : DedupIndex) (fp : string) : ChunkMetadata :=
  default {| address := 0; ref_count := 0 |} (ix !! fp).

Definition incrementRef (ix : DedupIndex) (fp : string) : DedupIndex :=
  let m := entry ix fp in <[fp := {| address := address m; ref_count := ref_count m + 1 |}]> ix.

Definition decrementRef (ix : DedupIndex) (fp : string) : DedupIndex :=
  let m := entry ix fp in <[fp := {| address := address m; ref_count := ref_count m - 1 |}]> ix.

Definition get (ix : DedupIndex) (fp : string) : DedupIndex * ChunkMetadata :=
  (<[fp := entry ix fp]> ix, entry ix fp).

Definition remove (ix : DedupIndex) (fp : string) : DedupIndex := delete fp ix.

(** ** Chunking *)

(** The loop [for (int i = 0; i < data.size(); i += chunk_size)]; [None] where [i]
    overflows or the loop does not end (it advances by at least one otherwise, so
    [size + 1] rounds are enough). *)
Fixpoint split_loop (fuel : nat) (chunk_size : Z) (data : string) (i : Z) : option (list string) :=
  match fuel with
  | O => None
  | S fuel =>
      if (i <? String.length data)%Z then
        let n := Z.min chunk_size (String.length data - i) in
        if (INT_MAX <? i + chunk_size)%Z then None else
        chunks ← split_loop fuel chunk_size data (i + chunk_size);
        Some (String.substring (Z.to_nat i) (Z.to_nat n) data :: chunks)
      else Some []
  end.

Definition split (chunk_size : Z) (data : string) : option (list string) :=
  split_loop (S (String.length data)) chunk_size data 0.

(** ** The engine *)

Record DataReductionEngine := {
  chunk_size : Z;
  chunkStore : ChunkStore;
  dedupIndex : DedupIndex;
  file_fp_map : gmap string (list string)
}.

Definition Engine_make (size : Z) : DataReductionEngine :=
  {| chunk_size := size; chunkStore := ChunkStore_make; dedupIndex := ∅; file_fp_map := ∅ |}.

Section engine.
Context (hash : string → N).
Implicit Types (s : DataReductionEngine) (c : ChunkStore) (ix : DedupIndex) (fp : string).

Definition fingerPrint (chunk_data : string) : string := pretty (hash chunk_data).

(** The body of the loop of [writeFile]. *)
Definition store_chunk (st : ChunkStore * DedupIndex) (chunk : string) : ChunkStore * DedupIndex :=
  let '(c, ix) := st in
  let fp := fingerPrint chunk in
  if exists_ ix fp then (c, incrementRef ix fp)
  else let '(c, addr) := writeChunk c chunk in (c, add ix fp addr).

Definition writeFile s (file_name data : string) : option DataReductionEngine :=
  chunks ← split (chunk_size s) data;
  let '(c, ix) := fold_left store_chunk chunks (chunkStore s, dedupIndex s) in
  Some {| chunk_size := chunk_size s; chunkStore := c; dedupIndex := ix;
          file_fp_map := <[file_name := fingerPrint <$> chunks]> (file_fp_map s) |}.

Fixpoint read_loop c ix (fps : list string) : ChunkStore * DedupIndex * string :=
  match fps with
  | [] => (c, ix, "")
  | fp :: fps =>
      let '(ix, meta) := get ix fp in
      let '(c, d) := readChunk c (address meta) in
      let '(c, ix, rest) := read_loop c ix fps in
      (c, ix, d +:+ rest)
  end.

(** [file_fp_map[file_name]] creates an empty file when there is none. *)
Definition readFile s (file_name : string) : DataReductionEngine * string :=
  let fps := default [] (file_fp_map s !! file_name) in
  let '(c, ix, result) := read_loop (chunkStore s) (dedupIndex s) fps in
  ({| chunk_size := chunk_size s; chunkStore := c; dedupIndex := ix;
      file_fp_map := <[file_name := fps]> (file_fp_map s) |}, result).

(** The body of the loop of [deleteFile]. *)
Definition drop_chunk (st : ChunkStore * DedupIndex) fp : ChunkStore * DedupIndex :=
  let '(c, ix) := st in
  let ix := decrementRef ix fp in
  let '(ix, meta) := get ix fp in
  if (ref_count meta =? 0)%Z then (deleteChunk c (address meta), remove ix fp) else (c, ix).

Definition deleteFile s (file_name : string) : DataReductionEngine :=
  match file_fp_map s !! file_name with
  | None => s
  | Some fps =>
      let '(c, ix) := fold_left drop_chunk fps (chunkStore s, dedupIndex s) in
      {| chunk_size := chunk_size s; chunkStore := c; dedupIndex := ix;
         file_fp_map := delete file_name (file_fp_map s) |}
  end.
End engine.

#[global] Arguments store_chunk : simpl never.
#[global] Arguments drop_chunk : simpl never.

(** ** Chunks reassemble to the data *)

Fixpoint concat_chunks (chunks : list string) : string :=
  match chunks with [] => "" | c :: chunks => c +:+ concat_chunks chunks end.

Lemma substring_full (s : string) : String.substring 0 (String.length s) s = s.
Proof. induction s as [|a s IH]; simpl; [done|]. by rewrite IH. Qed.

Lemma substring_0 i (s : string) : String.substring i 0 s = "".
Proof. revert i. induction s as [|a s IH]; intros [|i]; simpl; auto. Qed.

Lemma substring_app i n m (s : string) :
  i + n ≤ String.length s →
  String.substring i (n + m) s = String.substring i n s +:+ String.substring (i + n) m s.
Proof.
  revert i n. induction s as [|a s IH]; intros [|i] [|n] Hlen; simpl in *; try done; try lia.
  - f_equal. apply (IH 0 n). lia.
  - rewrite Nat.add_0_r. by rewrite substring_0.
  - apply (IH i (S n)). lia.
Qed.

Lemma split_loop_spec fuel chunk data i :
  (0 < chunk)%Z → (String.length data + chunk ≤ INT_MAX)%Z → i ≤ String.length data →
  String.length data - i < fuel →
  ∃ chunks, split_loop fuel chunk data i = Some chunks ∧
    concat_chunks chunks = String.substring i (String.length data - i) data.
Proof.
  intros Hc Hmax. revert i. induction fuel as [|fuel IH]; intros i Hi Hf; [lia|]. cbn [split_loop].
  destruct (Z.ltb_spec i (String.length data)) as [Hlt|Hge].
  2:{ exists []. split; [done|]. replace (String.length data - i) with 0 by lia. by rewrite substring_0. }
  destruct (Z.ltb_spec INT_MAX (i + chunk)) as [|_]; [lia|]. rewrite Nat2Z.id.
  destruct (decide (Z.of_nat (String.length data) ≤ i + chunk)%Z) as [Hlast|Hmore].
  - assert (split_loop fuel chunk data (i + chunk) = Some []) as ->.
    { destruct fuel as [|fuel]; [lia|]. cbn [split_loop].
      by destruct (Z.ltb_spec (i + chunk) (String.length data)); [lia|]. }
    simpl. eexists. split; [done|]. simpl. rewrite string_app_nil_r. f_equal. lia.
  - replace (i + chunk)%Z with (Z.of_nat (i + Z.to_nat chunk)) by lia.
    destruct (IH (i + Z.to_nat chunk)) as (chunks & -> & Hcc); [lia..|]. simpl. eexists. split; [done|].
    cbn [concat_chunks]. rewrite Hcc.
    replace (Z.to_nat (Z.min chunk (String.length data - i))) with (Z.to_nat chunk) by lia.
    rewrite <-substring_app by lia. f_equal. lia.
Qed.

Lemma split_concat chunk data :
  (0 < chunk)%Z → (String.length data + chunk ≤ INT_MAX)%Z →
  ∃ chunks, split chunk data = Some chunks ∧ concat_chunks chunks = data.
Proof.
  intros Hc Hmax. destruct (split_loop_spec (S (String.length data)) chunk data 0) as (chunks & Hs & Hcc); [lia..|].
  exists chunks. split; [done|]. rewrite Hcc, Nat.sub_0_r. apply substring_full.
Qed.

(** ** The invariant of the store *)

Section invariant.
Context (hash : string → N) (no_collision : ∀ d d', hash d = hash d' → d = d').
Implicit Types (c : ChunkStore) (ix : DedupIndex) (refs : string → Z).

Lemma fingerPrint_inj d d' : fingerPrint hash d = fingerPrint hash d' → d = d'.
Proof. intros Heq. apply no_collision. by apply (pretty_N_inj). Qed.

(** Every fingerprint with references has one entry, counted by them, and one stored
    chunk, and nothing else is stored. *)
Record store_inv c ix refs : Prop := {
  si_none : ∀ fp, ix !! fp = None → refs fp = 0%Z;
  si_some : ∀ fp m, ix !! fp = Some m → ref_count m = refs fp ∧ (0 < refs fp)%Z ∧
    ∃ d, fp = fingerPrint hash d ∧ storage c !! address m = Some d;
  si_inj : ∀ fp fp' m m', ix !! fp = Some m → ix !! fp' = Some m' → address m = address m' → fp = fp';
  si_used : ∀ a d, storage c !! a = Some d → (a < next_address c)%Z ∧ ∃ fp m, ix !! fp = Some m ∧ address m = a
}.

Definition plus_one fp refs : string → Z := λ fp', (refs fp' + if decide (fp' = fp) then 1 else 0)%Z.

Lemma store_ext c ix refs refs' : (∀ fp, refs fp = refs' fp) → store_inv c ix refs → store_inv c ix refs'.
Proof.
  intros He [Hn Hs Hi Hu]. split; [|intros fp m Hm; rewrite <-!He; by apply Hs|done..].
  intros fp Hfp. rewrite <-He. by apply Hn.
Qed.

Lemma store_chunk_inv c ix refs d :
  store_inv c ix refs →
  let '(c', ix') := store_chunk hash (c, ix) d in store_inv c' ix' (plus_one (fingerPrint hash d) refs).
Proof.
  intros Hinv. pose proof Hinv as [Hn Hs Hi Hu]. unfold store_chunk, exists_. set (fp := fingerPrint hash d).
  assert (∀ fp' r, fp' ≠ fp → plus_one fp r fp' = r fp') as Hne
    by (intros; unfold plus_one; rewrite decide_False by done; lia).
  assert (plus_one fp refs fp = refs fp + 1)%Z as Heq by (unfold plus_one; by rewrite decide_True).
  destruct (bool_decide_reflect (is_Some (ix !! fp))) as [[m Hm]|Hnone].
  - unfold incrementRef, entry. rewrite Hm. simpl. destruct (Hs fp m Hm) as (Hr & Hpos & d' & Hd & Hst). split.
    + intros fp' [Hfp' Hfpne]%lookup_insert_None. rewrite Hne by done. by apply Hn.
    + intros fp' m' [[<- <-]|[Hfpne Hm']]%lookup_insert_Some.
      * rewrite Heq. simpl. split_and!; [lia|lia|eauto].
      * rewrite Hne by done. by apply Hs.
    + intros fp1 fp2 m1 m2 [[<- <-]|[_ H1]]%lookup_insert_Some [[<- <-]|[_ H2]]%lookup_insert_Some; simpl; eauto.
    + intros a d0 Ha. destruct (Hu a d0 Ha) as (Hlt & fp' & m' & Hm' & Hadr). split; [done|].
      destruct (decide (fp' = fp)) as [->|].
      * eexists fp, _. rewrite lookup_insert_eq. split; [done|]. simpl. congruence.
      * exists fp', m'. by rewrite lookup_insert_ne.
  - apply eq_None_not_Some in Hnone. unfold writeChunk, add.
    assert (∀ fp' m', ix !! fp' = Some m' → address m' ≠ next_address c) as Hfresh.
    { intros fp' m' Hm' Hadr. destruct (Hs fp' m' Hm') as (_ & _ & d0 & _ & Hst).
      destruct (Hu _ _ Hst) as [? _]. lia. }
    split; simpl.
    + intros fp' [Hfp' Hfpne]%lookup_insert_None. rewrite Hne by done. by apply Hn.
    + intros fp' m' [[<- <-]|[Hfpne Hm']]%lookup_insert_Some.
      * rewrite Heq, (Hn fp Hnone). simpl. split_and!; [lia|lia|]. exists d. by rewrite lookup_insert_eq.
      * rewrite Hne by done. destruct (Hs fp' m' Hm') as (? & ? & d0 & ? & ?). split_and!; [done..|].
        exists d0. split; [done|]. rewrite lookup_insert_ne; [done|]. by apply not_eq_sym, (Hfresh fp').
    + intros fp1 fp2 m1 m2 [[<- <-]|[_ H1]]%lookup_insert_Some [[<- <-]|[_ H2]]%lookup_insert_Some; simpl; eauto.
      * intros Ha. by destruct (Hfresh fp2 m2 H2).
      * intros Ha. by destruct (Hfresh fp1 m1 H1).
    + intros a d0 [[<- <-]|[Hane Ha]]%lookup_insert_Some.
      * split; [lia|]. eexists fp, _. by rewrite lookup_insert_eq.
      * destruct (Hu a d0 Ha) as (Hlt & fp' & m' & Hm' & Hadr). split; [lia|]. exists fp', m'.
        rewrite lookup_insert_ne; [done|]. intros <-. congruence.
Qed.

Lemma store_chunks_inv c ix refs chunks :
  store_inv c ix refs →
  let '(c', ix') := fold_left (store_chunk hash) chunks (c, ix) in
  store_inv c' ix' (λ fp, refs fp + occ fp (fingerPrint hash <$> chunks))%Z.
Proof.
  revert c ix refs. induction chunks as [|d chunks IH]; intros c ix refs Hinv; csimpl.
  - eapply store_ext; [|exact Hinv]. intros fp. unfold occ. simpl. lia.
  - pose proof (store_chunk_inv c ix refs d Hinv) as H1.
    destruct (store_chunk hash (c, ix) d) as [c1 ix1]. pose proof (IH _ _ _ H1) as H2.
    destruct (fold_left (store_chunk hash) chunks (c1, ix1)) as [c2 ix2].
    eapply store_ext; [|exact H2]. intros fp. unfold plus_one. rewrite occ_cons. lia.
Qed.

(** Dropping one reference; [refs] is the count that remains. *)
Lemma drop_chunk_inv c ix refs fp :
  (∀ fp', (0 ≤ refs fp')%Z) → store_inv c ix (plus_one fp refs) →
  let '(c', ix') := drop_chunk (c, ix) fp in store_inv c' ix' refs.
Proof.
  intros Hnn Hinv. pose proof Hinv as [Hn Hs Hi Hu].
  assert (∀ fp' r, fp' ≠ fp → plus_one fp r fp' = r fp') as Hne
    by (intros; unfold plus_one; rewrite decide_False by done; lia).
  assert (plus_one fp refs fp = refs fp + 1)%Z as Heq by (unfold plus_one; by rewrite decide_True).
  specialize (Hnn fp).
  destruct (ix !! fp) as [m|] eqn:Hm; [|pose proof (Hn fp Hm); lia].
  destruct (Hs fp m Hm) as (Hr & Hpos & d & Hd & Hst).
  unfold drop_chunk, decrementRef, get, entry. rewrite Hm. simpl. rewrite lookup_insert_eq. simpl.
  rewrite insert_insert_eq. destruct (Z.eqb_spec (ref_count m - 1) 0) as [H0|H0].
  - unfold remove. rewrite delete_insert_eq.
    split; simpl.
    + intros fp'. rewrite lookup_delete_None. destruct (decide (fp = fp')) as [<-|]; [lia|].
      intros [?|Hfp']; [done|]. rewrite <-(Hne fp' refs) by done. by apply Hn.
    + intros fp' m' [Hfpne Hm']%lookup_delete_Some. rewrite <-(Hne fp' refs) by done.
      destruct (Hs fp' m' Hm') as (? & ? & d0 & ? & ?). split_and!; [done..|]. exists d0. split; [done|].
      rewrite lookup_delete_ne; [done|]. intros Ha. apply Hfpne. by eapply Hi.
    + intros fp1 fp2 m1 m2 [_ H1]%lookup_delete_Some [_ H2]%lookup_delete_Some. by eapply Hi.
    + intros a d0 [Hane Ha]%lookup_delete_Some. destruct (Hu a d0 Ha) as (Hlt & fp' & m' & Hm' & Hadr).
      split; [done|]. exists fp', m'. rewrite lookup_delete_ne; [done|]. intros <-. congruence.
  - split; simpl.
    + intros fp' [Hfp' Hfpne]%lookup_insert_None. rewrite <-(Hne fp' refs) by done. by apply Hn.
    + intros fp' m' [[<- <-]|[Hfpne Hm']]%lookup_insert_Some.
      * simpl. split_and!; [lia|lia|eauto].
      * rewrite <-(Hne fp' refs) by done. by apply Hs.
    + intros fp1 fp2 m1 m2 [[<- <-]|[_ H1]]%lookup_insert_Some [[<- <-]|[_ H2]]%lookup_insert_Some; simpl; eauto.
    + intros a d0 Ha. destruct (Hu a d0 Ha) as (Hlt & fp' & m' & Hm' & Hadr). split; [done|].
      destruct (decide (fp' = fp)) as [->|].
      * eexists fp, _. rewrite lookup_insert_eq. split; [done|]. simpl. congruence.
      * exists fp', m'. by rewrite lookup_insert_ne.
Qed.

Lemma drop_chunks_inv c ix refs fps :
  (∀ fp, (0 ≤ refs fp)%Z) → store_inv c ix (λ fp, refs fp + occ fp fps)%Z →
  let '(c', ix') := fold_left drop_chunk fps (c, ix) in store_inv c' ix' refs.
Proof.
  intros Hnn. revert c ix. induction fps as [|fp fps IH]; intros c ix Hinv; csimpl.
  - eapply store_ext; [|exact Hinv]. intros fp. unfold occ. simpl. lia.
  - pose proof (drop_chunk_inv c ix (λ fp, refs fp + occ fp fps)%Z fp) as H1.
    destruct (drop_chunk (c, ix) fp) as [c1 ix1]. apply IH, H1.
    + intros fp'. pose proof (Hnn fp'). pose proof (occ_nonneg fp' fps). lia.
    + eapply store_ext; [|exact Hinv]. intros fp'. simpl. unfold plus_one. rewrite occ_cons. lia.
Qed.

(** Reading changes nothing and returns the chunks. *)
Lemma read_loop_spec c ix refs chunks :
  store_inv c ix refs → (∀ d, d ∈ chunks → (0 < refs (fingerPrint hash d))%Z) →
  read_loop c ix (fingerPrint hash <$> chunks) = (c, ix, concat_chunks chunks).
Proof.
  intros Hinv. pose proof Hinv as [Hn Hs Hi Hu]. induction chunks as [|d chunks IH]; intros Hpos; csimpl; [done|].
  specialize (Hpos d ltac:(left)) as Hd. unfold get, entry.
  destruct (ix !! fingerPrint hash d) as [m|] eqn:Hm; [|pose proof (Hn _ Hm); lia].
  destruct (Hs _ m Hm) as (_ & _ & d' & Hfp%fingerPrint_inj & Hst). subst d'. simpl.
  rewrite insert_id by done. unfold readChunk. rewrite Hst. rewrite IH; [done|].
  intros d' Hd'. apply Hpos. by right.
Qed.
End invariant.

(** ** Histories *)

Inductive dedup_op := DWrite (file_name data : string) | DRead (file_name : string) | DDelete (file_name : string).

Definition dedup_step (hash : string → N) (s : DataReductionEngine) (o : dedup_op) : option DataReductionEngine :=
  match o with
  | DWrite f d => writeFile hash s f d
  | DRead f => Some (readFile s f).1
  | DDelete f => Some (deleteFile s f)
  end.

(** Reference: the files with their contents. *)
Definition files_step (files : gmap string string) (o : dedup_op) : gmap string string :=
  match o with
  | DWrite f d => <[f := d]> files
  | DRead _ => files
  | DDelete f => delete f files
  end.

Definition files_of (ops : list dedup_op) : gmap string string := fold_left files_step ops ∅.

(** The contents that a write has replaced. *)
Fixpoint overwritten (files : gmap string string) (ops : list dedup_op) : list string :=
  match ops with
  | [] => []
  | o :: ops =>
      match o with
      | DWrite f _ => match files !! f with Some old => old :: overwritten (files_step files o) ops
                      | None => overwritten (files_step files o) ops end
      | _ => overwritten (files_step files o) ops
      end
  end.

(** Sizes an [int] loop counter can handle. *)
Definition fits (size : Z) (o : dedup_op) : Prop :=
  match o with DWrite _ d => (String.length d + size ≤ INT_MAX)%Z | _ => True end.

Section histories.
Context (hash : string → N) (no_collision : ∀ d d', hash d = hash d' → d = d').
Context (size : Z) (Hsize : (0 < size)%Z).
Implicit Types (s : DataReductionEngine) (files : gmap string string) (leaked : list string).

(** [leaked]: the fingerprints of replaced contents, which nothing releases. *)
Record engine_inv files leaked s : Prop := {
  ei_size : chunk_size s = size;
  ei_store : store_inv hash (chunkStore s) (dedupIndex s)
    (λ fp, refs_in (λ fps, fps) (file_fp_map s) fp + occ fp leaked)%Z;
  ei_files : ∀ f, match files !! f with
    | Some d => ∃ chunks, split size d = Some chunks ∧ concat_chunks chunks = d ∧
        file_fp_map s !! f = Some (fingerPrint hash <$> chunks)
    | None => default [] (file_fp_map s !! f) = []
    end
}.

Abbreviation ref_sum := (refs_in (λ fps : list string, fps)).

Lemma ref_sum_insert (m : gmap string (list string)) f fps fp :
  (ref_sum (<[f := fps]> m) fp + occ fp (default [] (m !! f)) = occ fp fps + ref_sum m fp)%Z.
Proof.
  destruct (m !! f) as [old|] eqn:E; simpl.
  - rewrite (refs_in_delete _ m f old _ E). rewrite <-insert_delete_eq.
    rewrite (refs_in_insert _ (delete f m)) by apply lookup_delete_eq. lia.
  - rewrite (refs_in_insert _ m) by done. unfold occ at 2. simpl. lia.
Qed.

Lemma writeFile_inv files leaked s f d :
  engine_inv files leaked s → (String.length d + size ≤ INT_MAX)%Z →
  ∃ s', writeFile hash s f d = Some s' ∧
    engine_inv (<[f := d]> files) (default [] (file_fp_map s !! f) ++ leaked) s'.
Proof.
  intros [Hsz Hst Hf] Hfit. unfold writeFile. rewrite Hsz.
  destruct (split_concat size d Hsize Hfit) as (chunks & Hsp & Hcc). rewrite Hsp. simpl.
  pose proof (store_chunks_inv hash _ _ _ chunks Hst) as Hst'.
  destruct (fold_left (store_chunk hash) chunks (chunkStore s, dedupIndex s)) as [c ix].
  eexists. split; [done|]. split; simpl; [done|..].
  - eapply store_ext; [|exact Hst']. intros fp. simpl.
    pose proof (ref_sum_insert (file_fp_map s) f (fingerPrint hash <$> chunks) fp). rewrite occ_app. lia.
  - intros f'. destruct (decide (f' = f)) as [->|]; [rewrite !lookup_insert_eq; eauto|].
    rewrite !lookup_insert_ne by done. apply Hf.
Qed.

Lemma readFile_inv files leaked s f :
  engine_inv files leaked s →
  (readFile s f).2 = default "" (files !! f) ∧ engine_inv files leaked (readFile s f).1.
Proof.
  intros [Hsz Hst Hf]. unfold readFile. specialize (Hf f) as Hff.
  assert (∃ chunks, default [] (file_fp_map s !! f) = fingerPrint hash <$> chunks ∧
    concat_chunks chunks = default "" (files !! f)) as (chunks & Hfps & Hcc).
  { destruct (files !! f) as [d|]; [|by exists []]. destruct Hff as (chunks & _ & ? & ->). by exists chunks. }
  rewrite Hfps. rewrite (read_loop_spec hash no_collision _ _ _ chunks Hst).
  2:{ intros d Hd. pose proof (occ_nonneg (fingerPrint hash d) leaked).
      pose proof (ref_sum_insert (delete f (file_fp_map s)) f (fingerPrint hash <$> chunks) (fingerPrint hash d)) as Hi.
      pose proof (refs_in_nonneg (λ fps : list string, fps) (delete f (file_fp_map s)) (fingerPrint hash d)).
      pose proof (occ_elem (fingerPrint hash d) (fingerPrint hash <$> chunks) (list_elem_of_fmap_2 _ _ _ Hd)).
      destruct (file_fp_map s !! f) as [fps|] eqn:E; simpl in Hfps.
      - rewrite (refs_in_delete _ _ f fps _ E), Hfps. lia.
      - destruct chunks; [by apply not_elem_of_nil in Hd|done]. }
  simpl. split; [done|]. split; simpl; [done|..].
  - eapply store_ext; [|exact Hst]. intros fp. simpl.
    pose proof (ref_sum_insert (file_fp_map s) f (fingerPrint hash <$> chunks) fp) as Hi. rewrite Hfps in Hi. lia.
  - intros f'. destruct (decide (f' = f)) as [->|]; [|rewrite lookup_insert_ne by done; apply Hf].
    rewrite lookup_insert_eq. destruct (files !! f) as [d|].
    + destruct Hff as (chunks' & ? & ? & Hm). rewrite Hm in Hfps. simpl in Hfps. rewrite <-Hfps. eauto.
    + by rewrite Hff in Hfps.
Qed.

Lemma deleteFile_inv files leaked s f :
  engine_inv files leaked s → engine_inv (delete f files) leaked (deleteFile s f).
Proof.
  intros [Hsz Hst Hf]. unfold deleteFile. specialize (Hf f) as Hff.
  destruct (file_fp_map s !! f) as [fps|] eqn:E.
  - pose proof (drop_chunks_inv hash (chunkStore s) (dedupIndex s)
      (λ fp, ref_sum (delete f (file_fp_map s)) fp + occ fp leaked)%Z fps) as Hd.
    destruct (fold_left drop_chunk fps (chunkStore s, dedupIndex s)) as [c ix].
    split; simpl; [done|..].
    + apply Hd.
      * intros fp. pose proof (refs_in_nonneg (λ fps : list string, fps) (delete f (file_fp_map s)) fp).
        pose proof (occ_nonneg fp leaked). lia.
      * eapply store_ext; [|exact Hst]. intros fp. simpl. rewrite (refs_in_delete _ _ f fps _ E). lia.
    + intros f'. destruct (decide (f' = f)) as [->|]; [by rewrite !lookup_delete_eq|].
      rewrite !lookup_delete_ne by done. apply Hf.
  - split; [done..|]. intros f'. destruct (decide (f' = f)) as [->|]; [by rewrite lookup_delete_eq, E|].
    rewrite lookup_delete_ne by done. apply Hf.
Qed.

(** The leaked fingerprints are those of the overwritten contents. *)
Lemma dedup_run files leaked s ops :
  engine_inv files leaked s → Forall (fits size) ops →
  ∃ s' leaked', run_ops (dedup_step hash) s ops = Some s' ∧
    engine_inv (fold_left files_step ops files) leaked' s' ∧
    (overwritten files ops = [] → leaked' = leaked).
Proof.
  intros Hinv Hfit. revert files leaked s Hinv.
  induction Hfit as [|o ops Ho _ IH]; intros files leaked s Hinv; simpl; [by exists s, leaked|].
  assert (∃ s1 leaked1, dedup_step hash s o = Some s1 ∧ engine_inv (files_step files o) leaked1 s1 ∧
    ((match o with DWrite f _ => files !! f = None | _ => True end) → leaked1 = leaked))
    as (s1 & leaked1 & -> & Hinv1 & Hl1).
  { destruct o as [f d|f|f]; simpl in *.
    - destruct (writeFile_inv files leaked s f d Hinv Ho) as (s1 & ? & ?). do 2 eexists. split_and!; [done..|].
      intros Hnone. pose proof (ei_files _ _ _ Hinv f) as Hf. rewrite Hnone in Hf. by rewrite Hf.
    - do 2 eexists. split_and!; [done|by apply readFile_inv|done].
    - do 2 eexists. split_and!; [done|by apply deleteFile_inv|done]. }
  simpl. destruct (IH _ _ _ Hinv1) as (s' & leaked' & Hr & Hinv' & Hl'). exists s', leaked'. split_and!; [done..|].
  intros Hov. assert (overwritten (files_step files o) ops = [] ∧
    (match o with DWrite f _ => files !! f = None | _ => True end)) as [Hov1 Hov2].
  { destruct o as [f d|f|f]; [destruct (files !! f); done|done|done]. }
  rewrite Hl' by done. by apply Hl1.
Qed.

Lemma Engine_make_inv : engine_inv ∅ [] (Engine_make size).
Proof.
  split; simpl; [done|..].
  - split; simpl; [done|intros; by simplify_map_eq..].
  - intros f. by rewrite !lookup_empty.
Qed.
End histories.


(** A hash without collisions, for the examples: the string in base 256. *)
Fixpoint base256 (s : string) : N :=
  match s with
  | EmptyString => 0
  | String a s => (1 + Ascii.N_of_ascii a + 257 * base256 s)%N
  end.

Lemma base256_inj d d' : base256 d = base256 d' → d = d'.
Proof.
  revert d'. induction d as [|a d IH]; intros [|a' d'] Heq; cbn [base256] in Heq; try lia; [done|].
  pose proof (Ascii.N_ascii_bounded a). pose proof (Ascii.N_ascii_bounded a').
  assert (Ascii.N_of_ascii a = Ascii.N_of_ascii a' ∧ base256 d = base256 d') as [Ha Hd] by lia.
  rewrite (IH d') by done. f_equal. by rewrite <-(Ascii.ascii_N_embedding a), <-(Ascii.ascii_N_embedding a'), Ha.
Qed.


(** Space is reclaimed exactly, when no write replaces a file.  Then every chunk
    of an existing file is on the medium at one address, with the number of its
    occurrences in the files as its reference count, and no other chunk is. *)
Theorem dedup_space_exact (hash : string → N) (size : Z) (ops : list dedup_op) :
  (∀ d d', hash d = hash d' → d = d') → (0 < size)%Z → Forall (fits size) ops → overwritten ∅ ops = [] →
  ∃ s, run_ops (dedup_step hash) (Engine_make size) ops = Some s ∧
    (∀ fp m, dedupIndex s !! fp = Some m → ref_count m = refs_in (λ fps, fps) (file_fp_map s) fp) ∧
    (∀ a d, storage (chunkStore s) !! a = Some d →
      (0 < refs_in (λ fps, fps) (file_fp_map s) (fingerPrint hash d))%Z) ∧
    (∀ d, (0 < refs_in (λ fps, fps) (file_fp_map s) (fingerPrint hash d))%Z →
      exists! a, storage (chunkStore s) !! a = Some d).
Proof.
  intros Hinj Hsize Hfit Hov.
  destruct (dedup_run hash Hinj size Hsize ∅ [] _ ops (Engine_make_inv hash size) Hfit)
    as (s & lk & Hr & [_ Hst _] & Hlk).
  rewrite (Hlk Hov) in Hst. apply (store_ext hash _ _ _ (λ fp, refs_in (λ fps, fps) (file_fp_map s) fp)) in Hst.
  2:{ intros fp. unfold occ. simpl. lia. }
  destruct Hst as [Hn Hs Hi Hu].
  assert (∀ a d, storage (chunkStore s) !! a = Some d → ∃ m, dedupIndex s !! fingerPrint hash d = Some m ∧
    address m = a) as Hused.
  { intros a d Ha. destruct (Hu a d Ha) as (_ & fp & m & Hm & <-). exists m. split; [|done].
    destruct (Hs fp m Hm) as (_ & _ & d' & -> & Ha'). by simplify_eq. }
  exists s. split_and!; [done|by intros fp m (? & _)%Hs|..].
  - intros a d (m & Hm & _)%Hused. by apply Hs in Hm as (_ & ? & _).
  - intros d Hpos. destruct (dedupIndex s !! fingerPrint hash d) as [m|] eqn:Hm; [|rewrite (Hn _ Hm) in Hpos; lia].
    destruct (Hs _ m Hm) as (_ & _ & d' & Hd & Ha). apply (fingerPrint_inj hash Hinj) in Hd as <-.
    exists (address m). split; [done|]. intros a' (m' & Hm' & <-)%Hused. by simplify_eq.
Qed.

Lemma dedup_space_exact_witness :
  ∃ s, run_ops (dedup_step base256) (Engine_make 2) [DWrite "f" "ababxy"; DWrite "g" "ab"; DDelete "f"] = Some s ∧
    (exists! a, storage (chunkStore s) !! a = Some "ab") ∧ storage (chunkStore s) = {[0%Z := "ab"]}.
Proof.
  destruct (dedup_space_exact base256 2 [DWrite "f" "ababxy"; DWrite "g" "ab"; DDelete "f"]) as (s & Hr & _ & _ & Hd).
  - exact base256_inj.
  - done.
  - by repeat constructor.
  - reflexivity.
  - exists s. split; [exact Hr|]. split.
    + apply Hd. vm_compute in Hr. injection Hr as <-. vm_compute. reflexivity.
    + vm_compute in Hr. injection Hr as <-. vm_compute. reflexivity.
Defined.

(** Replacing a file leaks its old chunks.  Writing a file twice and deleting it
    leaves the chunks of the first content on the medium and in the index for ever,
    with no file that refers to them. *)
Theorem dedup_overwrite_leaks :
  ∃ s, run_ops (dedup_step base256) (Engine_make 8) [DWrite "f" "old"; DWrite "f" "new"; DDelete "f"] = Some s ∧
    file_fp_map s = ∅ ∧ storage (chunkStore s) = {[0%Z := "old"]} ∧
    ref_count <$> (dedupIndex s !! fingerPrint base256 "old") = Some 1%Z.
Proof. eexists. split; [vm_compute; reflexivity|]. by vm_compute. Qed.
