(* ===== verification/FileTree.v ===== *)
(** * Trees of path components

    The data structure of [src/storage/FileSystem_Index.cpp] and
    [src/storage/In-memory_FileSystem.cpp]: a node per path component, with its
    children in a hash map.  Each node is owned by its parent, so the tree is a
    value; [free_subtree] releases the memory of a node that has been taken out of
    the tree and has no other effect.  [M] is what the nodes carry (metadata, or the
    content of a file).  Each operation is modelled as one atomic step. *)
From Stdlib Require Import Ascii.
From S2P Require Import Prelude Streams.
Local Open Scope string_scope.
Local Open Scope list_scope.
Local Open Scope nat_scope.

Inductive FileNode (M : Type) := mkNode {
  is_file : bool;
  info : M;
  children : gmap string (FileNode M)
}.
Arguments mkNode {M}.
Arguments is_file {M}.
Arguments info {M}.
Arguments children {M}.

Definition slash : ascii := ascii_of_N 47.

(** [tokenize(path)]: the non-empty components. *)
Definition tokenize (path : string) : list string :=
  filter (λ token, token ≠ "") (getlines slash path).

Section tree.
Context {M : Type}.
Implicit Types (n c : FileNode M) (p q ts : list string) (t : string).

Definition set_child n t c : FileNode M := mkNode (is_file n) (info n) (<[t := c]> (children n)).

(** The descent all readers share: [None] where a component is missing. *)
Fixpoint walk n ts : option (FileNode M) :=
  match ts with
  | [] => Some n
  | t :: ts => c ← children n !! t; walk c ts
  end.

(** The loops of [mkdir] and [createFile]: a missing component is allocated, by a
    function that is told whether it is the last one. *)
Fixpoint create_loop {S} (alloc : bool → S → FileNode M * S) (s : S) n ts : FileNode M * S :=
  match ts with
  | [] => (n, s)
  | t :: ts =>
      let '(c, s) := match children n !! t with
                     | Some c => (c, s)
                     | None => alloc (bool_decide (ts = [])) s
                     end in
      let '(c, s) := create_loop alloc s c ts in
      (set_child n t c, s)
  end.

(** [deletePath] after its test for an empty path. *)
Fixpoint delete_loop n ts : FileNode M :=
  match ts with
  | [] => n
  | t :: ts =>
      match ts with
      | [] => mkNode (is_file n) (info n) (delete t (children n))
      | _ => match children n !! t with
             | None => n
             | Some c => set_child n t (delete_loop c ts)
             end
      end
  end.

(** Modifying the node a path leads to. *)
Fixpoint alter_at (f : FileNode M → FileNode M) n ts : FileNode M :=
  match ts with
  | [] => f n
  | t :: ts => match children n !! t with
               | None => n
               | Some c => set_child n t (alter_at f c ts)
               end
  end.

(** [ls] on the tokens of a path; [None]: [tokens.back()] of an empty vector. *)
Definition list_dir n (tokens : list string) : option (list string) :=
  match walk n tokens with
  | None => Some []
  | Some curr => if is_file curr then t ← last tokens; Some [t] else Some (map_to_list (children curr)).*1
  end.

(** ** The tree as a map from paths *)

Definition label n : bool * M := (is_file n, info n).

Definition view n p : option (bool * M) := label <$> walk n p.

(** Adding the missing prefixes of [p], with label [x] for [p] and [d] for the others. *)
Definition add_path (m : list string → option (bool * M)) p (x d : bool * M) (q : list string) :=
  match m q with
  | Some y => Some y
  | None => if decide (q `prefix_of` p) then Some (if decide (q = p) then x else d) else None
  end.

(** Removing a path and all below it; the root stays. *)
Definition drop_path (m : list string → option (bool * M)) p (q : list string) :=
  if decide (p ≠ [] ∧ p `prefix_of` q) then None else m q.

Definition alter_path (m : list string → option (bool * M)) p (f : bool * M → bool * M) (q : list string) :=
  if decide (q = p) then f <$> m q else m q.

Lemma view_set_child n t c q :
  view (set_child n t c) q = match q with
    | [] => view n []
    | t' :: q' => if decide (t' = t) then view c q' else view n q
    end.
Proof.
  destruct q as [|t' q]; [done|]. unfold view. simpl.
  case_decide; subst; by rewrite ?lookup_insert_eq, ?lookup_insert_ne by done.
Qed.

Lemma view_cons n t q : view n (t :: q) = c ← children n !! t; view c q.
Proof. unfold view. simpl. by destruct (children n !! t). Qed.

Lemma view_leaf b x q : view (mkNode b x ∅) q = if decide (q = []) then Some (b, x) else None.
Proof. destruct q as [|t q]; [done|]. by rewrite view_cons, decide_False. Qed.

Lemma prefix_cons_iff t t' q p : (t' :: q) `prefix_of` (t :: p) ↔ t' = t ∧ q `prefix_of` p.
Proof.
  split; [intros H; split; [by eapply prefix_cons_inv_1|by eapply prefix_cons_inv_2]|].
  intros [-> ?]. by apply prefix_cons.
Qed.

(** An allocator of childless nodes, which changes its state for files only. *)
Record allocator {S} (alloc : bool → S → FileNode M * S) (x d : S → bool * M) (next : S → S) : Prop := {
  alloc_file : ∀ s, alloc true s = (mkNode (x s).1 (x s).2 ∅, next s);
  alloc_dir : ∀ s, alloc false s = (mkNode (d s).1 (d s).2 ∅, s)
}.

Lemma create_fresh {S} (alloc : bool → S → FileNode M * S) x d next s b y ts :
  allocator alloc x d next →
  let '(n', s') := create_loop alloc s (mkNode b y ∅) ts in
  (∀ q, view n' q = add_path (view (mkNode b y ∅)) ts (x s) (d s) q) ∧
  s' = if decide (ts = []) then s else next s.
Proof.
  intros Ha. revert b y. induction ts as [|t ts IH]; intros b y.
  - simpl. split; [|done]. intros q. unfold add_path. rewrite view_leaf. case_decide as Hq; [done|].
    rewrite decide_False; [done|]. intros [k Hk]. by destruct q.
  - cbn [create_loop children]. rewrite lookup_empty.
    assert (∃ b' y', alloc (bool_decide (ts = [])) s = (mkNode b' y' ∅, if decide (ts = []) then next s else s) ∧
      (b', y') = (if decide (ts = []) then x s else d s)) as (b' & y' & Hal & Hby).
    { destruct ts as [|t' ts]; simpl.
      - rewrite (alloc_file _ _ _ _ Ha). destruct (x s). eauto.
      - rewrite (alloc_dir _ _ _ _ Ha). destruct (d s). eauto. }
    rewrite Hal. destruct (decide (ts = [])) as [->|Hts].
    + simpl. split; [|done]. intros q. rewrite view_set_child. unfold add_path.
      destruct q as [|t' q]; [done|]. rewrite !(view_leaf b y (t' :: q)), (decide_False (P := t' :: q = [])) by done.
      destruct (decide (t' = t)) as [->|Hne].
      * rewrite view_leaf. destruct q as [|t2 q]; simpl.
        -- rewrite decide_True by done. by rewrite decide_True, Hby.
        -- rewrite decide_False; [done|]. rewrite prefix_cons_iff. intros [_ Hp]. by apply prefix_nil_inv in Hp.
      * rewrite decide_False; [done|]. rewrite prefix_cons_iff. naive_solver.
    + specialize (IH b' y'). destruct (create_loop alloc s (mkNode b' y' ∅) ts) as [c s1].
      destruct IH as [Hv Hs1].
      split; [|done]. intros q. rewrite view_set_child. unfold add_path.
      destruct q as [|t' q]; [done|]. rewrite !(view_leaf b y (t' :: q)), (decide_False (P := t' :: q = [])) by done.
      destruct (decide (t' = t)) as [->|Hne].
      * rewrite Hv. unfold add_path. rewrite view_leaf. destruct (decide (q = [])) as [->|Hq].
        -- rewrite decide_True by (apply prefix_cons_iff; split; [done|apply prefix_nil]).
           rewrite decide_False by (intros [= <-]; done). by rewrite Hby.
        -- destruct (decide (q `prefix_of` ts)) as [Hp|Hp].
           ++ rewrite (decide_True (P := t :: q `prefix_of` t :: ts)) by (by apply prefix_cons_iff). f_equal.
              destruct (decide (q = ts)) as [->|]; [by rewrite decide_True|rewrite decide_False; [done|congruence]].
           ++ rewrite decide_False; [done|]. rewrite prefix_cons_iff. tauto.
      * rewrite decide_False; [done|]. rewrite prefix_cons_iff. naive_solver.
Qed.

Lemma create_loop_spec {S} (alloc : bool → S → FileNode M * S) x d next s n ts :
  allocator alloc x d next →
  let '(n', s') := create_loop alloc s n ts in
  (∀ q, view n' q = add_path (view n) ts (x s) (d s) q) ∧
  s' = if decide (view n ts = None) then next s else s.
Proof.
  intros Ha. revert n. induction ts as [|t ts IH]; intros n; simpl.
  - split; [|done]. intros q. unfold add_path. destruct (view n q) eqn:Hq; [done|].
    rewrite decide_False; [done|]. intros [k Hk]. destruct q; [|done]. by unfold view in Hq.
  - rewrite view_cons. destruct (children n !! t) as [c|] eqn:Hc; simpl.
    + specialize (IH c). destruct (create_loop alloc s c ts) as [c' s'].
      destruct IH as [Hv ->]. split; [|done].
      intros q. rewrite view_set_child. unfold add_path. destruct q as [|t' q]; [done|].
      rewrite view_cons. destruct (decide (t' = t)) as [->|Hne].
      * rewrite Hc. simpl. rewrite Hv. unfold add_path. destruct (view c q); [done|].
        destruct (decide (q `prefix_of` ts)) as [Hp|Hp].
        -- rewrite (decide_True (P := t :: q `prefix_of` t :: ts)) by (by apply prefix_cons_iff). f_equal.
           destruct (decide (q = ts)) as [->|]; [by rewrite decide_True|rewrite decide_False; [done|congruence]].
        -- rewrite decide_False; [done|]. rewrite prefix_cons_iff. tauto.
      * rewrite (decide_False (P := t' :: q `prefix_of` t :: ts)) by (rewrite prefix_cons_iff; naive_solver).
        by destruct (children n !! t'); simpl; [destruct (view _ _)|].
    + pose proof (create_fresh alloc x d next s (is_file n) (info n) (t :: ts) Ha) as Hf.
      cbn [create_loop children] in Hf. rewrite lookup_empty in Hf.
      destruct (alloc (bool_decide (ts = [])) s) as [c0 s0]. destruct (create_loop alloc s0 c0 ts) as [c' s'].
      destruct Hf as [Hv Hs]. split; [|done].
      intros q. specialize (Hv q). rewrite view_set_child in Hv |- *. destruct q as [|t' q]; [done|].
      unfold add_path in Hv |- *. rewrite view_leaf in Hv. rewrite (decide_False (P := t' :: q = [])) in Hv by done.
      rewrite view_cons. destruct (decide (t' = t)) as [->|Hne]; [by rewrite Hc, Hv|].
      rewrite (decide_False (P := t' :: q `prefix_of` t :: ts)) by (rewrite prefix_cons_iff; naive_solver).
      by destruct (children n !! t'); simpl; [destruct (view _ _)|].
Qed.

Lemma delete_loop_cons n t t2 ts :
  delete_loop n (t :: t2 :: ts) =
  match children n !! t with None => n | Some c => set_child n t (delete_loop c (t2 :: ts)) end.
Proof. done. Qed.

Lemma delete_loop_spec n ts q : view (delete_loop n ts) q = drop_path (view n) ts q.
Proof.
  unfold drop_path. revert n q. induction ts as [|t ts IH]; intros n q.
  { by rewrite decide_False by naive_solver. }
  destruct q as [|t' q].
  { rewrite decide_False; [|intros [_ [k Hk]]; done]. simpl. destruct ts; [done|]. by destruct (children n !! t). }
  rewrite (view_cons n t' q). destruct ts as [|t2 ts].
  - cbn [delete_loop]. rewrite view_cons. simpl. destruct (decide (t' = t)) as [->|Hne].
    + rewrite lookup_delete_eq, decide_True; [done|]. split; [done|]. apply prefix_cons_iff.
      split; [done|apply prefix_nil].
    + rewrite lookup_delete_ne by done. rewrite decide_False; [done|]. rewrite prefix_cons_iff. naive_solver.
  - rewrite delete_loop_cons. destruct (children n !! t) as [c|] eqn:Hc.
    + rewrite view_set_child. destruct (decide (t' = t)) as [->|Hne].
      * rewrite Hc. cbn [mbind option_bind]. rewrite IH. destruct (decide (t2 :: ts ≠ [] ∧ t2 :: ts `prefix_of` q)) as [Hd|Hd].
        -- rewrite decide_True; [done|]. split; [done|]. apply prefix_cons_iff. naive_solver.
        -- rewrite decide_False; [done|]. rewrite prefix_cons_iff. naive_solver.
      * rewrite decide_False by (rewrite prefix_cons_iff; naive_solver). by rewrite view_cons.
    + rewrite view_cons. case_decide as Hd; [|done]. destruct Hd as [_ Hd].
      apply prefix_cons_iff in Hd as [<- _]. by rewrite Hc.
Qed.

Lemma alter_at_spec f g n ts q :
  (∀ n, label (f n) = g (label n)) → (∀ n, children (f n) = children n) →
  view (alter_at f n ts) q = alter_path (view n) ts g q.
Proof.
  intros Hf Hc. unfold alter_path. revert n q. induction ts as [|t ts IH]; intros n q; simpl.
  - destruct q as [|t q]; [rewrite decide_True by done; unfold view; simpl; by rewrite Hf|].
    by rewrite decide_False, !view_cons, Hc.
  - destruct (children n !! t) as [c|] eqn:Hct.
    + rewrite view_set_child. destruct q as [|t' q]; [done|]. rewrite view_cons.
      destruct (decide (t' = t)) as [->|Hne].
      * rewrite Hct. simpl. rewrite IH. destruct (decide (q = ts)) as [->|]; [by rewrite decide_True|].
        rewrite decide_False; [done|congruence].
      * rewrite decide_False by congruence. done.
    + case_decide as Hq; [|done]. subst. by rewrite view_cons, Hct.
Qed.

(** The children of a node are the paths one component longer. *)
Lemma walk_children n p c t : walk n p = Some c → is_Some (children c !! t) ↔ is_Some (view n (p ++ [t])).
Proof.
  revert n. induction p as [|t' p IH]; intros n; simpl.
  - intros [= ->]. rewrite view_cons. unfold view. by rewrite fmap_is_Some || (destruct (children c !! t); simpl; rewrite ?is_Some_alt).
  - rewrite view_cons. destruct (children n !! t'); simpl; [apply IH|done].
Qed.

Lemma list_dir_spec n (m : list string → option (bool * M)) p :
  (∀ q, view n q = m q) → is_file n = false →
  ∃ names, list_dir n p = Some names ∧
    match m p with
    | None => names = []
    | Some (true, _) => Some names = (λ t, [t]) <$> last p
    | Some (false, _) => NoDup names ∧ ∀ t, t ∈ names ↔ is_Some (m (p ++ [t]))
    end.
Proof.
  intros Hv Hr. pose proof (Hv p) as Hp. unfold list_dir, view in *.
  destruct (walk n p) as [c|] eqn:Hw; simpl in Hp; [|rewrite <-Hp; by eexists].
  rewrite <-Hp. unfold label. destruct (is_file c) eqn:Hf.
  - destruct (last p) as [t|] eqn:Hl; [by exists [t]|].
    apply last_None in Hl. rewrite Hl in Hw. simpl in Hw. simplify_eq. congruence.
  - eexists. split; [done|]. split; [apply NoDup_fst_map_to_list|]. intros t. rewrite list_elem_of_fmap.
    rewrite <-Hv. pose proof (walk_children n p c t Hw) as Hch. unfold view in Hch. rewrite <-Hch. split.
    + intros ([t' c'] & -> & Hin%elem_of_map_to_list). simpl. rewrite Hin. eauto.
    + intros [c' Hc']. exists (t, c'). split; [done|]. by apply elem_of_map_to_list.
Qed.
End tree.
