(* ===== verification/FileSystems.v ===== *)
(** * The two hierarchical file systems

    [src/storage/FileSystem_Index.cpp] (metadata only) and
    [src/storage/In-memory_FileSystem.cpp] (with contents), over the component tree.
    Their specification is a map from paths to labels; the main theorems are
    refinements: every observer answers from that map. *)
From S2P Require Import Prelude Streams FileTree.
Local Open Scope string_scope.
Local Open Scope list_scope.
Local Open Scope Z_scope.

(** The abstract file system: what exists, and its label. *)
Abbreviation paths M := (list string → option (bool * M)).

(** ** Metadata index *)

Module Index.
Record Metadata := { inode_number : Z; file_size : Z }.

(** [FileNode(is_file, inode_number, file_size)] *)
Definition new_node (is_file : bool) (inode size : Z) : FileNode Metadata :=
  mkNode is_file {| inode_number := inode; file_size := size |} ∅.

Record FileSystemIndex := { root : FileNode Metadata; next_inode : Z }.

Definition FileSystemIndex_make : FileSystemIndex := {| root := new_node false 0 0; next_inode := 1 |}.

Definition mkdir (fs : FileSystemIndex) (path : string) : FileSystemIndex :=
  {| root := (create_loop (λ _ s, (new_node false 0 0, s)) tt (root fs) (tokenize path)).1;
     next_inode := next_inode fs |}.

(** The allocation in [createFile]; [next_inode] is a [long]. *)
Definition new_file (size : Z) (is_file : bool) (next : Z) : FileNode Metadata * Z :=
  (new_node is_file (if is_file then next else 0) (if is_file then size else 0),
   if is_file then next + 1 else next).

Definition createFile (fs : FileSystemIndex) (path : string) (size : Z) : FileSystemIndex :=
  let '(r, next) := create_loop (new_file size) (next_inode fs) (root fs) (tokenize path) in
  {| root := r; next_inode := next |}.

Definition exists_ (fs : FileSystemIndex) (path : string) : bool :=
  match walk (root fs) (tokenize path) with None => false | Some _ => true end.

Definition getMetadata (fs : FileSystemIndex) (path : string) : Metadata :=
  match walk (root fs) (tokenize path) with
  | None => {| inode_number := -1; file_size := 0 |}
  | Some curr => info curr
  end.

Definition ls (fs : FileSystemIndex) (path : string) : option (list string) :=
  list_dir (root fs) (tokenize path).

Definition deletePath (fs : FileSystemIndex) (path : string) : FileSystemIndex :=
  {| root := delete_loop (root fs) (tokenize path); next_inode := next_inode fs |}.

Inductive op := Mkdir (path : string) | Create (path : string) (size : Z) | Delete (path : string).

Definition step (fs : FileSystemIndex) (o : op) : FileSystemIndex :=
  match o with
  | Mkdir path => mkdir fs path
  | Create path size => createFile fs path size
  | Delete path => deletePath fs path
  end.

Definition run (ops : list op) : FileSystemIndex := fold_left step ops FileSystemIndex_make.

(** *** Specification *)

Record spec := { entries : paths Metadata; inodes : Z }.

Definition directory : bool * Metadata := (false, {| inode_number := 0; file_size := 0 |}).

Definition spec_make : spec := {| entries := λ p, if decide (p = []) then Some directory else None; inodes := 1 |}.

Definition spec_step (a : spec) (o : op) : spec :=
  match o with
  | Mkdir path => {| entries := add_path (entries a) (tokenize path) directory directory; inodes := inodes a |}
  | Create path size =>
      let p := tokenize path in
      {| entries := add_path (entries a) p (true, {| inode_number := inodes a; file_size := size |}) directory;
         inodes := if decide (entries a p = None) then inodes a + 1 else inodes a |}
  | Delete path => {| entries := drop_path (entries a) (tokenize path); inodes := inodes a |}
  end.

Definition spec_run (ops : list op) : spec := fold_left spec_step ops spec_make.

Record refines (a : spec) (fs : FileSystemIndex) : Prop := {
  ref_view : ∀ p, view (root fs) p = entries a p;
  ref_next : next_inode fs = inodes a;
  ref_root : is_file (root fs) = false
}.

Lemma root_is_file (n : FileNode Metadata) x : view n [] = Some x → is_file n = x.1.
Proof. intros [= <-]. done. Qed.

Lemma refines_make : refines spec_make FileSystemIndex_make.
Proof.
  split; [|done..]. intros p. simpl. unfold new_node. rewrite view_leaf. done.
Qed.

Lemma add_path_ext M (m m' : paths M) p x d q : (∀ p, m p = m' p) → add_path m p x d q = add_path m' p x d q.
Proof. intros Hm. unfold add_path. by rewrite Hm. Qed.

Lemma root_kept (n : FileNode Metadata) b : is_file n = b → ∃ x, view n [] = Some (b, x).
Proof. intros <-. by exists (info n). Qed.

Lemma refines_step a fs o : refines a fs → refines (spec_step a o) (step fs o).
Proof.
  intros [Hv Hn Hr]. destruct (root_kept _ _ Hr) as [x0 Hroot]. destruct o as [path|path size|path]; simpl.
  - pose proof (create_loop_spec (λ _ s, (new_node false 0 0, s)) (λ _, directory) (λ _, directory) (λ s, s)
      tt (root fs) (tokenize path)) as Hc.
    unfold mkdir. destruct (create_loop _ tt (root fs) (tokenize path)) as [r s']. destruct Hc as [Hc _]; [by split|].
    split; simpl; [intros p; rewrite Hc; by apply add_path_ext|done|].
    apply (root_is_file r (false, x0)). rewrite Hc. unfold add_path. by rewrite Hroot.
  - pose proof (create_loop_spec (new_file size)
      (λ s, (true, {| inode_number := s; file_size := size |})) (λ _, directory) (λ s, s + 1)
      (next_inode fs) (root fs) (tokenize path)) as Hc.
    unfold createFile. destruct (create_loop _ (next_inode fs) (root fs) (tokenize path)) as [r s'].
    destruct Hc as [Hc Hs]; [by split|].
    split; simpl; [intros p; rewrite Hc, Hn; by apply add_path_ext|by rewrite Hs, Hv, Hn|].
    apply (root_is_file r (false, x0)). rewrite Hc. unfold add_path. by rewrite Hroot.
  - split; simpl; [intros p; rewrite delete_loop_spec; unfold drop_path; by rewrite Hv|done|].
    apply (root_is_file _ (false, x0)). rewrite delete_loop_spec. unfold drop_path.
    rewrite decide_False; [done|]. intros [Hne [k Hk]]. by destruct (tokenize path).
Qed.

Lemma refines_run ops : refines (spec_run ops) (run ops).
Proof.
  unfold spec_run, run. generalize refines_make. generalize spec_make FileSystemIndex_make.
  induction ops as [|o ops IH]; intros a fs Hr; simpl; [done|]. by apply IH, refines_step.
Qed.

(** C26: the index is a map from paths.  After any history of [mkdir], [createFile]
    and [deletePath], [exists], [getMetadata] and [ls] answer from the abstract map in
    which creating a path adds it with its missing ancestors and deleting a path
    removes it with all below it: [ls] of a directory lists exactly the components
    that extend its path, and of a file its last component. *)
Theorem fs_index_refines_paths (ops : list op) (path : string) :
  let m := entries (spec_run ops) in let p := tokenize path in
  exists_ (run ops) path = bool_decide (is_Some (m p)) ∧
  getMetadata (run ops) path = default {| inode_number := -1; file_size := 0 |} (snd <$> m p) ∧
  ∃ names, ls (run ops) path = Some names ∧
    match m p with
    | None => names = []
    | Some (true, _) => Some names = (λ t, [t]) <$> last p
    | Some (false, _) => NoDup names ∧ ∀ t, t ∈ names ↔ is_Some (m (p ++ [t]))
    end.
Proof.
  intros m p. pose proof (refines_run ops) as [Hv _ Hr]. fold m in Hv. pose proof (Hv p) as Hp.
  pose proof (list_dir_spec (root (run ops)) m p Hv Hr) as Hls. unfold exists_, getMetadata, ls, view in *. fold p.
  split_and!; [..|exact Hls]; destruct (walk (root (run ops)) p); rewrite <-Hp; simpl; by rewrite ?bool_decide_true.
Qed.

(** Every file has an inode number below the next one, its own. *)
Record inodes_ok (a : spec) : Prop := {
  ino_root : ∃ x, entries a [] = Some (false, x);
  ino_range : ∀ p x, entries a p = Some (true, x) → 0 < inode_number x < inodes a;
  ino_unique : ∀ p q x y, entries a p = Some (true, x) → entries a q = Some (true, y) →
    inode_number x = inode_number y → p = q;
  ino_pos : 0 < inodes a
}.

Lemma inodes_step a o : inodes_ok a → inodes_ok (spec_step a o).
Proof.
  intros [[x0 Hroot] Hrange Huniq Hpos]. destruct o as [path|path size|path]; simpl.
  - assert (∀ q x, add_path (entries a) (tokenize path) directory directory q = Some (true, x) →
      entries a q = Some (true, x)) as Hold.
    { intros q x. unfold add_path. destruct (entries a q); [done|]. repeat case_decide; done. }
    split; simpl; [exists x0; unfold add_path; by rewrite Hroot|eauto..|done].
  - set (p := tokenize path).
    assert (∀ q x, add_path (entries a) p (true, {| inode_number := inodes a; file_size := size |}) directory q
      = Some (true, x) → entries a q = Some (true, x) ∨ (q = p ∧ entries a p = None ∧ inode_number x = inodes a)) as Hnew.
    { intros q x. unfold add_path. destruct (entries a q) eqn:Hq; [by left|].
      case_decide; [|done]. case_decide; [|done]. subst q. intros [= <-]. by right. }
    split; simpl; [exists x0; unfold add_path; by rewrite Hroot|..].
    + intros q x [Hq|(-> & Hq & ->)]%Hnew.
      * pose proof (Hrange q x Hq). case_decide; lia.
      * rewrite decide_True by done. lia.
    + intros q1 q2 x y [H1|(-> & Hq1 & H1)]%Hnew [H2|(-> & Hq2 & H2)]%Hnew Heq; [by eapply Huniq| | |done].
      * pose proof (Hrange q1 x H1). lia.
      * pose proof (Hrange q2 y H2). lia.
    + case_decide; lia.
  - assert (∀ q x, drop_path (entries a) (tokenize path) q = Some x → entries a q = Some x) as Hold.
    { intros q x. unfold drop_path. by case_decide. }
    split; simpl; [|eauto..|done]. exists x0. unfold drop_path. rewrite decide_False; [done|].
    intros [Hne [k Hk]]. by destruct (tokenize path).
Qed.

(** Inode numbers identify files.  In every reachable state, two paths that hold
    files with the same inode number are the same path. *)
Theorem fs_inodes_unique (ops : list op) (path path' : string) :
  match entries (spec_run ops) (tokenize path), entries (spec_run ops) (tokenize path') with
  | Some (true, _), Some (true, _) =>
      inode_number (getMetadata (run ops) path) = inode_number (getMetadata (run ops) path') →
      tokenize path = tokenize path'
  | _, _ => True
  end.
Proof.
  assert (inodes_ok (spec_run ops)) as [_ _ Hu _].
  { unfold spec_run. apply fold_left_invariant; [intros a o; apply inodes_step|].
    split; simpl; [by eexists| | |done]; unfold spec_make; simpl; intros; by repeat case_decide. }
  destruct (entries (spec_run ops) (tokenize path)) as [[[] x]|] eqn:H1; [|done..].
  destruct (entries (spec_run ops) (tokenize path')) as [[[] y]|] eqn:H2; [|done..].
  pose proof (refines_run ops) as [Hv _ _]. unfold getMetadata. rewrite <-Hv in H1, H2. unfold view in H1, H2.
  destruct (walk (root (run ops)) (tokenize path)) as [c1|] eqn:W1; [|done].
  destruct (walk (root (run ops)) (tokenize path')) as [c2|] eqn:W2; [|done].
  simpl in *. unfold label in *. simplify_eq. intros Heq.
  apply (Hu _ _ (info c1) (info c2)); [..|done]; rewrite <-Hv; unfold view, label; rewrite ?W1, ?W2; simpl; congruence.
Qed.

(** Files can have children.  [createFile] descends into a file as if it were a
    directory: after creating [/a] and [/a/b], the second path exists below a file,
    and [ls] does not show it. *)
Theorem fs_file_with_children :
  let fs := run [Create "/a" 10; Create "/a/b" 20] in
  exists_ fs "/a/b" = true ∧ is_file <$> walk (root fs) ["a"] = Some true ∧ ls fs "/a" = Some ["a"].
Proof. vm_compute. done. Qed.
End Index.

(** ** In-memory file system *)

Module Memory.
(** A node carries its [content]; the mutexes are not part of the state. *)
Definition new_node (is_file : bool) : FileNode string := mkNode is_file "" ∅.

Record FileSystemIndex := { root : FileNode string }.

Definition FileSystemIndex_make : FileSystemIndex := {| root := new_node false |}.

Definition mkdir (fs : FileSystemIndex) (path : string) : FileSystemIndex :=
  {| root := (create_loop (λ _ s, (new_node false, s)) tt (root fs) (tokenize path)).1 |}.

Definition createFile (fs : FileSystemIndex) (path : string) : FileSystemIndex :=
  {| root := (create_loop (λ is_leaf s, (new_node is_leaf, s)) tt (root fs) (tokenize path)).1 |}.

Definition exists_ (fs : FileSystemIndex) (path : string) : bool :=
  match walk (root fs) (tokenize path) with None => false | Some _ => true end.

Definition ls (fs : FileSystemIndex) (path : string) : option (list string) :=
  list_dir (root fs) (tokenize path).

Definition deletePath (fs : FileSystemIndex) (path : string) : FileSystemIndex :=
  {| root := delete_loop (root fs) (tokenize path) |}.

(** [curr->content += data] for a file. *)
Definition append_content (data : string) (n : FileNode string) : FileNode string :=
  if is_file n then mkNode true (info n +:+ data) (children n) else n.

Definition write (fs : FileSystemIndex) (path data : string) : FileSystemIndex :=
  {| root := alter_at (append_content data) (root fs) (tokenize path) |}.

Definition read (fs : FileSystemIndex) (path : string) : string :=
  match walk (root fs) (tokenize path) with
  | None => ""
  | Some curr => if negb (is_file curr) then "" else info curr
  end.

Inductive op := Mkdir (path : string) | Create (path : string) | Delete (path : string) | Write (path data : string).

Definition step (fs : FileSystemIndex) (o : op) : FileSystemIndex :=
  match o with
  | Mkdir path => mkdir fs path
  | Create path => createFile fs path
  | Delete path => deletePath fs path
  | Write path data => write fs path data
  end.

Definition run (ops : list op) : FileSystemIndex := fold_left step ops FileSystemIndex_make.

(** *** Specification *)

Definition appended (data : string) (x : bool * string) : bool * string :=
  if x.1 then (true, x.2 +:+ data) else x.

Definition spec_step (m : paths string) (o : op) : paths string :=
  match o with
  | Mkdir path => add_path m (tokenize path) (false, "") (false, "")
  | Create path => add_path m (tokenize path) (true, "") (false, "")
  | Delete path => drop_path m (tokenize path)
  | Write path data => alter_path m (tokenize path) (appended data)
  end.

Definition spec_run (ops : list op) : paths string :=
  fold_left spec_step ops (λ p, if decide (p = []) then Some (false, "") else None).

Record refines (m : paths string) (fs : FileSystemIndex) : Prop := {
  ref_view : ∀ p, view (root fs) p = m p;
  ref_root : is_file (root fs) = false
}.

Lemma root_of_view (n : FileNode string) b x : view n [] = Some (b, x) → is_file n = b.
Proof. by intros [= <-]. Qed.

Lemma create_refines m fs p x n :
  refines m fs →
  (∀ q, view n q = add_path (view (root fs)) p x (false, "") q) → refines (add_path m p x (false, "")) {| root := n |}.
Proof.
  intros [Hv Hr] Hc. split; simpl.
  - intros q. rewrite Hc. unfold add_path. by rewrite Hv.
  - apply (root_of_view n false (info (root fs))). rewrite Hc. unfold add_path, view. simpl. unfold label. by rewrite Hr.
Qed.

Lemma mem_refines_step m fs o : refines m fs → refines (spec_step m o) (step fs o).
Proof.
  intros Hrf. pose proof Hrf as [Hv Hr]. destruct o as [path|path|path|path data]; simpl.
  - pose proof (create_loop_spec (λ _ s, (new_node false, s)) (λ _, (false, "")) (λ _, (false, "")) (λ s, s)
      tt (root fs) (tokenize path)) as Hc.
    unfold mkdir. destruct (create_loop _ tt (root fs) (tokenize path)) as [r s']. destruct Hc as [Hc _]; [by split|].
    by eapply create_refines.
  - pose proof (create_loop_spec (λ is_leaf s, (new_node is_leaf, s)) (λ _, (true, "")) (λ _, (false, "")) (λ s, s)
      tt (root fs) (tokenize path)) as Hc.
    unfold createFile. destruct (create_loop _ tt (root fs) (tokenize path)) as [r s']. destruct Hc as [Hc _]; [by split|].
    by eapply create_refines.
  - split; simpl; [intros p; rewrite delete_loop_spec; unfold drop_path; by rewrite Hv|].
    apply (root_of_view _ false (info (root fs))). rewrite delete_loop_spec. unfold drop_path.
    rewrite decide_False; [unfold view; simpl; unfold label; by rewrite Hr|].
    intros [Hne [k Hk]]. by destruct (tokenize path).
  - assert (∀ q, view (alter_at (append_content data) (root fs) (tokenize path)) q =
      alter_path m (tokenize path) (appended data) q) as Ha.
    { intros q. rewrite (alter_at_spec _ (appended data)).
      - unfold alter_path. by rewrite Hv.
      - intros n. unfold append_content, appended, label. simpl. destruct (is_file n) eqn:E; simpl; by rewrite ?E.
      - intros n. unfold append_content. by destruct (is_file n). }
    split; simpl; [done|]. apply (root_of_view _ false (info (root fs))). rewrite Ha. unfold alter_path.
    rewrite <-Hv. unfold view. simpl. unfold label. rewrite Hr. by case_decide.
Qed.

Lemma mem_refines_run ops : refines (spec_run ops) (run ops).
Proof.
  unfold spec_run, run.
  assert (refines (λ p, if decide (p = []) then Some (false, "") else None) FileSystemIndex_make) as H0.
  { split; [|done]. intros p. simpl. unfold new_node. by rewrite view_leaf. }
  revert H0. generalize (λ p : list string, if decide (p = []) then Some (false, "") else None) FileSystemIndex_make.
  induction ops as [|o ops IH]; intros a fs Hr; simpl; [done|]. by apply IH, mem_refines_step.
Qed.

(** The in-memory file system is a map from paths.  After any history of [mkdir],
    [createFile], [write] and [deletePath], [exists] answers whether the abstract map
    has the path, and [read] returns the content it records: the concatenation of what
    was written to the file since it was created, and nothing for a directory or a
    missing path. *)
Theorem fs_memory_refines_paths (ops : list op) (path : string) :
  let m := spec_run ops in let p := tokenize path in
  exists_ (run ops) path = bool_decide (is_Some (m p)) ∧
  read (run ops) path = match m p with Some (true, content) => content | _ => "" end ∧
  ∃ names, ls (run ops) path = Some names ∧
    match m p with
    | None => names = []
    | Some (true, _) => Some names = (λ t, [t]) <$> last p
    | Some (false, _) => NoDup names ∧ ∀ t, t ∈ names ↔ is_Some (m (p ++ [t]))
    end.
Proof.
  intros m p. pose proof (mem_refines_run ops) as [Hv Hr]. fold m in Hv. pose proof (Hv p) as Hp.
  pose proof (list_dir_spec (root (run ops)) m p Hv Hr) as Hls. unfold exists_, read, ls, view in *. fold p.
  split_and!; [..|exact Hls]; destruct (walk (root (run ops)) p) as [c|]; rewrite <-Hp; simpl;
    rewrite ?bool_decide_true; try done. unfold label. by destruct (is_file c).
Qed.

(** The operations of [main], and what it reads. *)
Definition main_ops : list op :=
  [Mkdir "/a/b"; Create "/a/b/file1.txt"; Create "/a/b/file2.txt"; Write "/a/b/file1.txt" "Hello ";
   Write "/a/b/file1.txt" "World!"; Write "/a/b/file2.txt" "Good Morning"].

Example main_output :
  read (run main_ops) "/a/b/file1.txt" = "Hello World!" ∧ read (run main_ops) "/a/b/file2.txt" = "Good Morning" ∧
  exists_ (run (main_ops ++ [Delete "/a/b/file2.txt"])) "/a/b/file2.txt" = false.
Proof. vm_compute. done. Qed.
End Memory.
