(* ===== verification/LockManager.v ===== *)
(** * Shared and exclusive locks with condition variables

    [src/storage/LockManager.cpp]: one mutex protects the lock table; a request that
    cannot be granted waits on the condition variable of the resource's [LockInfo],
    holding a reference to it.  A step of the model is one stay of a thread in the
    mutex: a call up to its return or its wait, or a wake-up.  [LockInfo] objects have
    an identity, because [cleanup] destroys them: waking up with a reference to a
    destroyed [LockInfo] is undefined behaviour ([None]). *)
From S2P Require Import Prelude.
Local Open Scope nat_scope.

Record LockInfo := { shared_owners : gset Z; exclusive_owner : Z; waitingWriters : Z }.

Definition new_info : LockInfo := {| shared_owners := ∅; exclusive_owner := -1; waitingWriters := 0 |}.

(** A thread inside [cv.wait]: for a shared lock, or for an exclusive one (an
    acquisition or an upgrade). *)
Record Waiter := { w_txn : Z; w_resource : string; w_info : nat; w_writer : bool }.

Record LockManager := {
  lock_table : gmap string (nat * LockInfo);
  next_info : nat;
  waiters : list Waiter
}.

Definition LockManager_make : LockManager := {| lock_table := ∅; next_info := 0; waiters := [] |}.

(** [lock_table[resource]], which creates the entry. *)
Definition get_info (s : LockManager) (r : string) : LockManager * (nat * LockInfo) :=
  match lock_table s !! r with
  | Some e => (s, e)
  | None =>
      let e := (next_info s, new_info) in
      ({| lock_table := <[r := e]> (lock_table s); next_info := S (next_info s); waiters := waiters s |}, e)
  end.

Definition set_info (s : LockManager) (r : string) (a : nat) (i : LockInfo) : LockManager :=
  {| lock_table := <[r := (a, i)]> (lock_table s); next_info := next_info s; waiters := waiters s |}.

Definition add_waiter (s : LockManager) (w : Waiter) : LockManager :=
  {| lock_table := lock_table s; next_info := next_info s; waiters := waiters s ++ [w] |}.

Definition drop_waiter (s : LockManager) (j : nat) : LockManager :=
  {| lock_table := lock_table s; next_info := next_info s; waiters := delete j (waiters s) |}.

Definition cleanup (s : LockManager) (r : string) : LockManager :=
  match lock_table s !! r with
  | None => s
  | Some (_, info) =>
      if bool_decide (shared_owners info = ∅) && (exclusive_owner info =? -1)%Z && (waitingWriters info =? 0)%Z
      then {| lock_table := delete r (lock_table s); next_info := next_info s; waiters := waiters s |}
      else s
  end.

(** The predicates of the two waits, and what follows them. *)
Definition can_share (i : LockInfo) : bool := (exclusive_owner i =? -1)%Z && (waitingWriters i =? 0)%Z.

Definition can_own (i : LockInfo) : bool := (exclusive_owner i =? -1)%Z && bool_decide (shared_owners i = ∅).

Definition take_shared (txn : Z) (i : LockInfo) : LockInfo :=
  {| shared_owners := {[txn]} ∪ shared_owners i; exclusive_owner := exclusive_owner i;
     waitingWriters := waitingWriters i |}.

Definition take_exclusive (txn : Z) (i : LockInfo) : LockInfo :=
  {| shared_owners := shared_owners i; exclusive_owner := txn; waitingWriters := waitingWriters i - 1 |}.

Definition one_more_writer (i : LockInfo) : LockInfo :=
  {| shared_owners := shared_owners i; exclusive_owner := exclusive_owner i; waitingWriters := waitingWriters i + 1 |}.

Definition acquire_shared_lock (s : LockManager) (txn : Z) (r : string) : LockManager :=
  let '(s, (a, info)) := get_info s r in
  if can_share info then set_info s r a (take_shared txn info)
  else add_waiter s {| w_txn := txn; w_resource := r; w_info := a; w_writer := false |}.

(** From [waitingWriters++] on; shared by [acquire_exclusive_lock] and [upgrade]. *)
Definition wait_exclusive (s : LockManager) (txn : Z) (r : string) (a : nat) (info : LockInfo) : LockManager :=
  let info := one_more_writer info in
  if can_own info then set_info s r a (take_exclusive txn info)
  else add_waiter (set_info s r a info) {| w_txn := txn; w_resource := r; w_info := a; w_writer := true |}.

Definition acquire_exclusive_lock (s : LockManager) (txn : Z) (r : string) : LockManager :=
  let '(s, (a, info)) := get_info s r in wait_exclusive s txn r a info.

Definition release_shared_lock (s : LockManager) (txn : Z) (r : string) : LockManager :=
  match lock_table s !! r with
  | None => s
  | Some (a, info) =>
      cleanup (set_info s r a {| shared_owners := shared_owners info ∖ {[txn]};
        exclusive_owner := exclusive_owner info; waitingWriters := waitingWriters info |}) r
  end.

Definition release_exclusive_lock (s : LockManager) (txn : Z) (r : string) : LockManager :=
  match lock_table s !! r with
  | None => s
  | Some (a, info) =>
      let owner := if (exclusive_owner info =? txn)%Z then (-1)%Z else exclusive_owner info in
      cleanup (set_info s r a {| shared_owners := shared_owners info; exclusive_owner := owner;
        waitingWriters := waitingWriters info |}) r
  end.

Definition upgrade (s : LockManager) (txn : Z) (r : string) : LockManager :=
  let '(s, (a, info)) := get_info s r in
  if bool_decide (txn ∉ shared_owners info) then s
  else wait_exclusive s txn r a {| shared_owners := shared_owners info ∖ {[txn]};
         exclusive_owner := exclusive_owner info; waitingWriters := waitingWriters info |}.

Definition downgrade (s : LockManager) (txn : Z) (r : string) : LockManager :=
  let '(s, (a, info)) := get_info s r in
  if negb (exclusive_owner info =? txn)%Z then s
  else set_info s r a {| shared_owners := {[txn]} ∪ shared_owners info; exclusive_owner := -1;
         waitingWriters := waitingWriters info |}.

(** A waiting thread gets the mutex back (notified or not) and tests its predicate. *)
Definition wake (s : LockManager) (j : nat) : option LockManager :=
  w ← waiters s !! j;
  e ← lock_table s !! w_resource w;
  let '(a, info) := (e : nat * LockInfo) in
  if decide (a = w_info w) then
    if w_writer w then
      Some (if can_own info
            then drop_waiter (set_info s (w_resource w) a (take_exclusive (w_txn w) info)) j else s)
    else
      Some (if can_share info
            then drop_waiter (set_info s (w_resource w) a (take_shared (w_txn w) info)) j else s)
  else None.

Inductive lm_event :=
  | AcquireS (txn : Z) (r : string) | AcquireX (txn : Z) (r : string)
  | ReleaseS (txn : Z) (r : string) | ReleaseX (txn : Z) (r : string)
  | Upgrade (txn : Z) (r : string) | Downgrade (txn : Z) (r : string) | Wake (j : nat).

Definition lm_step (s : LockManager) (e : lm_event) : option LockManager :=
  match e with
  | AcquireS t r => Some (acquire_shared_lock s t r)
  | AcquireX t r => Some (acquire_exclusive_lock s t r)
  | ReleaseS t r => Some (release_shared_lock s t r)
  | ReleaseX t r => Some (release_exclusive_lock s t r)
  | Upgrade t r => Some (upgrade s t r)
  | Downgrade t r => Some (downgrade s t r)
  | Wake j => wake s j
  end.

(** ** Invariant *)

(** Threads waiting for an exclusive lock through a given [LockInfo]. *)
Definition writers_at (a : nat) (ws : list Waiter) : Z :=
  length (filter (λ w, w_writer w = true ∧ w_info w = a) ws).

(** No shared owner beside an exclusive one. *)
Definition excl_ok (i : LockInfo) : Prop := exclusive_owner i = (-1)%Z ∨ shared_owners i = ∅.

Record lm_inv (s : LockManager) : Prop := {
  lm_excl : ∀ r a i, lock_table s !! r = Some (a, i) → excl_ok i ∧ waitingWriters i = writers_at a (waiters s);
  lm_ids : ∀ r a i, lock_table s !! r = Some (a, i) → a < next_info s;
  lm_inj : ∀ r r' a i i', lock_table s !! r = Some (a, i) → lock_table s !! r' = Some (a, i') → r = r';
  lm_writers : ∀ w, w ∈ waiters s → w_info w < next_info s ∧
    (w_writer w = true → ∃ i, lock_table s !! w_resource w = Some (w_info w, i))
}.

Lemma writers_at_snoc a ws w :
  writers_at a (ws ++ [w]) = (writers_at a ws + if decide (w_writer w = true ∧ w_info w = a) then 1 else 0)%Z.
Proof.
  unfold writers_at. rewrite filter_app, length_app, filter_cons. case_decide; simpl; lia.
Qed.

Lemma writers_at_delete a ws j w :
  ws !! j = Some w →
  writers_at a (delete j ws) = (writers_at a ws - if decide (w_writer w = true ∧ w_info w = a) then 1 else 0)%Z.
Proof.
  intros Hj. unfold writers_at. rewrite (filter_delete_length _ ws j w Hj). case_decide; lia.
Qed.

Lemma writers_at_0 a ws w : writers_at a ws = 0%Z → w ∈ ws → w_writer w = true → w_info w ≠ a.
Proof.
  unfold writers_at. intros H0 Hin Hw Ha.
  assert (w ∈ filter (λ w, w_writer w = true ∧ w_info w = a) ws) as Hf by (by apply list_elem_of_filter).
  destruct (filter _ ws); [by apply not_elem_of_nil in Hf|]. simpl in H0. lia.
Qed.

(** The general update: one entry and the waiters of that entry change. *)
Lemma update_inv s r a i i' ws :
  lm_inv s → lock_table s !! r = Some (a, i) → excl_ok i' → waitingWriters i' = writers_at a ws →
  (∀ a', a' ≠ a → writers_at a' ws = writers_at a' (waiters s)) →
  (∀ w, w ∈ ws → w ∈ waiters s ∨ (w_info w = a ∧ w_resource w = r)) →
  lm_inv {| lock_table := <[r := (a, i')]> (lock_table s); next_info := next_info s; waiters := ws |}.
Proof.
  intros [He Hid Hinj Hw] Hr Hok Hn Hother Hsub. split; simpl.
  - intros r' a' j [[<- [= <- <-]]|[Hne Hj]]%lookup_insert_Some; [done|].
    destruct (He r' a' j Hj) as [? Hcount]. split; [done|]. rewrite Hother; [done|].
    intros ->. apply Hne. by eapply Hinj.
  - intros r' a' j [[<- [= <- <-]]|[_ Hj]]%lookup_insert_Some; by eapply Hid.
  - intros r1 r2 a' j j' [[<- [= <- <-]]|[_ H1]]%lookup_insert_Some [[<- [= <-]]|[_ H2]]%lookup_insert_Some;
      [done|by eapply Hinj..].
  - intros w Hin. destruct (Hsub w Hin) as [Hold|[<- <-]].
    + destruct (Hw w Hold) as [? Hal]. split; [done|]. intros Hwr. destruct (Hal Hwr) as [j Hj].
      destruct (decide (w_resource w = r)) as [Heq|].
      * rewrite Heq in Hj |- *. rewrite lookup_insert_eq. rewrite Hr in Hj. simplify_eq. eauto.
      * rewrite lookup_insert_ne by done. eauto.
    + split; [by eapply Hid|]. intros _. rewrite lookup_insert_eq. eauto.
Qed.

Lemma set_info_inv s r a i i' :
  lm_inv s → lock_table s !! r = Some (a, i) → excl_ok i' → waitingWriters i' = waitingWriters i →
  lm_inv (set_info s r a i').
Proof.
  intros Hinv Hr Hok Hn. apply (update_inv s r a i i' (waiters s)); [done..| |done|by left].
  rewrite Hn. by eapply lm_excl.
Qed.

Lemma get_info_inv s r s' a i :
  lm_inv s → get_info s r = (s', (a, i)) → lm_inv s' ∧ lock_table s' !! r = Some (a, i).
Proof.
  intros Hinv. unfold get_info. destruct (lock_table s !! r) as [[a0 i0]|] eqn:E; intros [= <- <- <-]; [done|].
  destruct Hinv as [He Hid Hinj Hw]. split; [|simpl; by rewrite lookup_insert_eq].
  assert (writers_at (next_info s) (waiters s) = 0%Z) as H0.
  { unfold writers_at. destruct (filter _ (waiters s)) as [|w ws] eqn:Ef; [done|].
    assert (w ∈ w :: ws) as Hin by left. rewrite <-Ef in Hin. apply list_elem_of_filter in Hin as [[_ Ha] Hin].
    destruct (Hw w Hin). lia. }
  split; simpl.
  - intros r' a' j [[<- [= <- <-]]|[_ Hj]]%lookup_insert_Some; [|by eapply He].
    split; [by left|]. by rewrite H0.
  - intros r' a' j [[<- [= <- <-]]|[_ Hj]]%lookup_insert_Some; [lia|]. apply Hid in Hj. lia.
  - intros r1 r2 a' j j' [[<- [= <- <-]]|[_ H1]]%lookup_insert_Some [[<- [= <-]]|[_ H2]]%lookup_insert_Some; [done|..].
    + apply Hid in H2. lia.
    + simplify_eq. apply Hid in H1. lia.
    + by eapply Hinj.
  - intros w Hin. destruct (Hw w Hin) as [? Hal]. split; [lia|]. intros Hwr. destruct (Hal Hwr) as [j Hj]. exists j.
    rewrite lookup_insert_ne; [done|]. intros Heq. rewrite <-Heq in Hj. congruence.
Qed.

Lemma cleanup_inv s r : lm_inv s → lm_inv (cleanup s r).
Proof.
  intros Hinv. unfold cleanup. destruct (lock_table s !! r) as [[a i]|] eqn:Hr; [|done].
  destruct (_ && _) eqn:Hc; [|done]. apply andb_true_iff in Hc as [_ Hc]. apply Z.eqb_eq in Hc.
  pose proof Hinv as [He Hid Hinj Hw]. destruct (He r a i Hr) as [_ Hcount]. rewrite Hc in Hcount.
  split; simpl.
  - intros r' a' j [_ Hj]%lookup_delete_Some. by eapply He.
  - intros r' a' j [_ Hj]%lookup_delete_Some. by eapply Hid.
  - intros r1 r2 a' j j' [_ H1]%lookup_delete_Some [_ H2]%lookup_delete_Some. by eapply Hinj.
  - intros w Hin. destruct (Hw w Hin) as [? Hal]. split; [done|]. intros Hwr. destruct (Hal Hwr) as [j Hj].
    exists j. rewrite lookup_delete_ne; [done|]. intros Heq. rewrite <-Heq, Hr in Hj. simplify_eq.
    by apply (writers_at_0 (w_info w) (waiters s) w).
Qed.

Lemma wait_exclusive_inv s txn r a i i' :
  lm_inv s → lock_table s !! r = Some (a, i) → excl_ok i' → waitingWriters i' = waitingWriters i →
  lm_inv (wait_exclusive s txn r a i').
Proof.
  intros Hinv Hr Hok Hn. destruct (lm_excl _ Hinv r a i Hr) as [_ Hcount]. unfold wait_exclusive.
  destruct (can_own (one_more_writer i')) eqn:Hc.
  - apply (set_info_inv _ _ _ i); [done..| |simpl; lia].
    right. unfold can_own in Hc. apply andb_true_iff in Hc as [_ Hc]. by apply bool_decide_eq_true in Hc.
  - set (w := {| w_txn := txn; w_resource := r; w_info := a; w_writer := true |}).
    apply (update_inv s r a i _ (waiters s ++ [w])); [done..| | |].
    + rewrite writers_at_snoc, decide_True by done. simpl. lia.
    + intros a' Hne. rewrite writers_at_snoc, decide_False; [lia|]. simpl. intros [_ ?]. congruence.
    + intros w' [?| ->%list_elem_of_singleton]%elem_of_app; [by left|by right].
Qed.

Lemma wake_inv s j s' : lm_inv s → wake s j = Some s' → lm_inv s'.
Proof.
  intros Hinv. unfold wake. destruct (waiters s !! j) as [w|] eqn:Hj; [|done]. simpl.
  destruct (lock_table s !! w_resource w) as [[a i]|] eqn:Hr; [|done]. simpl.
  destruct (decide (a = w_info w)) as [->|]; [|done].
  destruct (lm_excl _ Hinv _ _ _ Hr) as [Hok Hcount].
  assert (∀ w', w' ∈ delete j (waiters s) → w' ∈ waiters s ∨ (w_info w' = w_info w ∧ w_resource w' = w_resource w)) as Hsub.
  { intros w' Hin. left. rewrite delete_take_drop in Hin.
    apply elem_of_app in Hin as [(k & Hk & _)%elem_of_take|(k & Hk)%list_elem_of_lookup].
    - by apply list_elem_of_lookup_2 in Hk.
    - rewrite lookup_drop in Hk. by apply list_elem_of_lookup_2 in Hk. }
  assert (∀ a', a' ≠ w_info w → writers_at a' (delete j (waiters s)) = writers_at a' (waiters s)) as Hoth.
  { intros a' Hne. rewrite (writers_at_delete _ _ j w) by done. rewrite decide_False; [lia|]. intros [_ ?]. congruence. }
  destruct (w_writer w) eqn:Hwr; intros [= <-].
  - destruct (can_own i) eqn:Hc; [|done]. eapply (update_inv s); [done|exact Hr| | |done..].
    + right. apply andb_true_iff in Hc as [_ Hc]. by apply bool_decide_eq_true in Hc.
    + rewrite (writers_at_delete _ _ j w) by done. rewrite decide_True by done. simpl. lia.
  - destruct (can_share i) eqn:Hc; [|done]. eapply (update_inv s); [done|exact Hr| | |done..].
    + left. apply andb_true_iff in Hc as [Hc _]. by apply Z.eqb_eq in Hc.
    + rewrite (writers_at_delete _ _ j w) by done. rewrite decide_False; [simpl; lia|]. intros [? _]. congruence.
Qed.

Lemma lm_step_inv s e s' : lm_inv s → lm_step s e = Some s' → lm_inv s'.
Proof.
  intros Hinv Hs. destruct e as [t r|t r|t r|t r|t r|t r|j]; simpl in Hs; simplify_eq.
  - unfold acquire_shared_lock. destruct (get_info s r) as [s1 [a i]] eqn:Hg.
    destruct (get_info_inv _ _ _ _ _ Hinv Hg) as [Hinv1 Hr]. destruct (can_share i) eqn:Hc.
    + apply (set_info_inv _ _ _ i); [done..| |done]. left. apply andb_true_iff in Hc as [Hc _]. by apply Z.eqb_eq in Hc.
    + destruct (lm_excl _ Hinv1 r a i Hr) as [Hok Hn].
      set (w := {| w_txn := t; w_resource := r; w_info := a; w_writer := false |}).
      assert (set_info s1 r a i = s1) as Hid.
      { unfold set_info. rewrite insert_id by done. by destruct s1. }
      rewrite <-Hid. apply (update_inv s1 r a i i (waiters s1 ++ [w])); [done..| | |].
      * rewrite writers_at_snoc, decide_False by (by intros [? _]). simpl. lia.
      * intros a' _. rewrite writers_at_snoc, decide_False by (by intros [? _]). lia.
      * intros w' [?| ->%list_elem_of_singleton]%elem_of_app; [by left|by right].
  - unfold acquire_exclusive_lock. destruct (get_info s r) as [s1 [a i]] eqn:Hg.
    destruct (get_info_inv _ _ _ _ _ Hinv Hg) as [Hinv1 Hr]. apply (wait_exclusive_inv _ _ _ _ i); [done..| |done].
    by eapply lm_excl.
  - unfold release_shared_lock. destruct (lock_table s !! r) as [[a i]|] eqn:Hr; [|done].
    apply cleanup_inv, (set_info_inv _ _ _ i); [done..| |done].
    destruct (lm_excl _ Hinv r a i Hr) as [[?| Hse] _]; [by left|right]. simpl. rewrite Hse. set_solver.
  - unfold release_exclusive_lock. destruct (lock_table s !! r) as [[a i]|] eqn:Hr; [|done].
    apply cleanup_inv, (set_info_inv _ _ _ i); [done..| |done].
    destruct (lm_excl _ Hinv r a i Hr) as [[Hx|?] _]; [left|by right]. simpl. rewrite Hx. by case_match.
  - unfold upgrade. destruct (get_info s r) as [s1 [a i]] eqn:Hg.
    destruct (get_info_inv _ _ _ _ _ Hinv Hg) as [Hinv1 Hr]. case_match; [done|].
    apply (wait_exclusive_inv _ _ _ _ i); [done..| |done].
    destruct (lm_excl _ Hinv1 r a i Hr) as [[?| Hse] _]; [by left|right]. simpl. rewrite Hse. set_solver.
  - unfold downgrade. destruct (get_info s r) as [s1 [a i]] eqn:Hg.
    destruct (get_info_inv _ _ _ _ _ Hinv Hg) as [Hinv1 Hr]. case_match; [done|].
    apply (set_info_inv _ _ _ i); [done..|by left|done].
  - by eapply wake_inv.
Qed.

Lemma LockManager_make_inv : lm_inv LockManager_make.
Proof.
  split; simpl; try (intros; by simplify_map_eq). intros w Hw. by apply not_elem_of_nil in Hw.
Qed.

Lemma lm_run_inv s es s' : lm_inv s → run_ops lm_step s es = Some s' → lm_inv s'.
Proof.
  revert s. induction es as [|e es IH]; intros s Hinv Hr; simpl in Hr; [by simplify_eq|].
  destruct (lm_step s e) as [s1|] eqn:E; simplify_eq/=. eapply IH; [|done]. by eapply lm_step_inv.
Qed.



(** A waiting reader is left with a destroyed [LockInfo].  While transaction 2
    waits for a shared lock on a resource transaction 1 holds exclusively, the release
    by transaction 1 runs [cleanup], which sees no owner and no waiting writer and
    erases the entry: the reader wakes up on a dangling reference. *)
Theorem lock_manager_reader_dangling :
  ∃ s, run_ops lm_step LockManager_make [AcquireX 1 "row1"; AcquireS 2 "row1"; ReleaseX 1 "row1"] = Some s ∧
    waiters s = [{| w_txn := 2; w_resource := "row1"; w_info := 0; w_writer := false |}] ∧
    lock_table s = ∅ ∧ lm_step s (Wake 0) = None.
Proof. eexists. split; [vm_compute; reflexivity|]. by vm_compute. Qed.
