(* ===== verification/ChunkStore.v ===== *)
(** * Reference-counted chunk store

    [src/storage/ChunkStore.cpp]: chunks are identified by a fingerprint of their
    content; storing a chunk that is present only counts one more reference, and
    each chunk has a list of replica addresses.  The hash is a parameter, as in the
    deduplication engine.  The specification is a multiset of chunks. *)
From S2P Require Import Prelude DedupEngine.
Local Open Scope string_scope.
Local Open Scope list_scope.
Local Open Scope Z_scope.

Record ChunkMetadata := { data : string; ref_count : Z; replica_addresses : list Z }.

Record ChunkStorageSystem := { index : gmap string ChunkMetadata; next_replica_address : Z }.

Definition ChunkStorageSystem_make : ChunkStorageSystem := {| index := ∅; next_replica_address := 1 |}.

(** [DedupIndex::add]: one reference, one replica. *)
Definition index_add (ix : gmap string ChunkMetadata) (fp d : string) (addr : Z) : gmap string ChunkMetadata :=
  <[fp := {| data := d; ref_count := 1; replica_addresses := [addr] |}]> ix.

(** [DedupIndex::get]: [None] is [nullptr]. *)
Definition index_get (ix : gmap string ChunkMetadata) (fp : string) : option ChunkMetadata := ix !! fp.

Definition index_remove (ix : gmap string ChunkMetadata) (fp : string) : gmap string ChunkMetadata := delete fp ix.

(** Assignments through the pointer [meta]. *)
Definition add_refs (m : ChunkMetadata) (n : Z) : ChunkMetadata :=
  {| data := data m; ref_count := ref_count m + n; replica_addresses := replica_addresses m |}.

Definition add_replica (m : ChunkMetadata) (addr : Z) : ChunkMetadata :=
  {| data := data m; ref_count := ref_count m; replica_addresses := replica_addresses m ++ [addr] |}.

Section system.
Context (hash : string → N).
Implicit Types (s : ChunkStorageSystem) (d : string).

Definition storeChunk s d : ChunkStorageSystem :=
  let chunk_id := fingerPrint hash d in
  match index_get (index s) chunk_id with
  | Some meta =>
      {| index := <[chunk_id := add_refs meta 1]> (index s); next_replica_address := next_replica_address s |}
  | None =>
      {| index := index_add (index s) chunk_id d (next_replica_address s);
         next_replica_address := next_replica_address s + 1 |}
  end.

Definition lookupChunk s d : string :=
  match index_get (index s) (fingerPrint hash d) with
  | None => "Chunk NOT FOUND"
  | Some meta => data meta
  end.

Definition replicateChunk s d : ChunkStorageSystem :=
  let chunk_id := fingerPrint hash d in
  match index_get (index s) chunk_id with
  | None => s
  | Some meta =>
      {| index := <[chunk_id := add_replica meta (next_replica_address s)]> (index s);
         next_replica_address := next_replica_address s + 1 |}
  end.

Definition deleteChunk s d : ChunkStorageSystem :=
  let chunk_id := fingerPrint hash d in
  match index_get (index s) chunk_id with
  | None => s
  | Some meta =>
      let meta := add_refs meta (-1) in
      if ref_count meta =? 0 then
        {| index := index_remove (index s) chunk_id; next_replica_address := next_replica_address s |}
      else {| index := <[chunk_id := meta]> (index s); next_replica_address := next_replica_address s |}
  end.

Inductive chunk_op := Store (d : string) | Replicate (d : string) | Delete (d : string).

Definition chunk_step s (o : chunk_op) : ChunkStorageSystem :=
  match o with Store d => storeChunk s d | Replicate d => replicateChunk s d | Delete d => deleteChunk s d end.

Definition chunk_run (ops : list chunk_op) : ChunkStorageSystem := fold_left chunk_step ops ChunkStorageSystem_make.

(** Specification: how often a chunk is stored. *)
Definition stored_step (c : string → Z) (o : chunk_op) (d : string) : Z :=
  match o with
  | Store d' => if decide (d' = d) then c d + 1 else c d
  | Replicate _ => c d
  | Delete d' => if decide (d' = d) then Z.max 0 (c d - 1) else c d
  end.

Definition stored (ops : list chunk_op) : string → Z := fold_left stored_step ops (λ _, 0).

Context (no_collision : ∀ d d', hash d = hash d' → d = d').

Record chunk_inv (c : string → Z) s : Prop := {
  ci_nonneg : ∀ d, 0 ≤ c d;
  ci_index : ∀ d, match index s !! fingerPrint hash d with
    | Some m => data m = d ∧ ref_count m = c d ∧ 0 < c d
    | None => c d = 0
    end;
  ci_addr : ∀ fp m a, index s !! fp = Some m → a ∈ replica_addresses m → a < next_replica_address s;
  ci_nodup : ∀ fp m, index s !! fp = Some m → NoDup (replica_addresses m) ∧ replica_addresses m ≠ [];
  ci_disjoint : ∀ fp fp' m m' a, index s !! fp = Some m → index s !! fp' = Some m' →
    a ∈ replica_addresses m → a ∈ replica_addresses m' → fp = fp'
}.

(** Replacing the entry of a chunk by one with the same data and at most one new,
    fresh address. *)
Lemma update_entry c s d m m' c' next :
  chunk_inv c s → index s !! fingerPrint hash d = Some m → data m' = d → ref_count m' = c' d → 0 < c' d →
  (∀ d', d' ≠ d → c' d' = c d') → next_replica_address s ≤ next →
  (replica_addresses m' = replica_addresses m ∨
   replica_addresses m' = replica_addresses m ++ [next_replica_address s] ∧ next_replica_address s < next) →
  chunk_inv c' {| index := <[fingerPrint hash d := m']> (index s); next_replica_address := next |}.
Proof.
  intros [Hnn Hix Ha Hnd Hdis] Hm Hd Hr Hpos Hother Hnext Hrep.
  assert (∀ a, a ∈ replica_addresses m' → a ∈ replica_addresses m ∨ a = next_replica_address s ∧ a < next) as Hin.
  { intros a. destruct Hrep as [->|[-> ?]]; [by left|]. rewrite elem_of_app, list_elem_of_singleton. naive_solver. }
  assert (∀ fp m0, index s !! fp = Some m0 → next_replica_address s ∉ replica_addresses m0) as Hfresh.
  { intros fp m0 H0 Hbad. pose proof (Ha fp m0 _ H0 Hbad). lia. }
  split; simpl.
  - intros d'. destruct (decide (d' = d)) as [->|]; [lia|]. by rewrite Hother.
  - intros d'. destruct (decide (d' = d)) as [->|Hne]; [by rewrite lookup_insert_eq|].
    rewrite lookup_insert_ne, Hother by (try done; intros ?%(fingerPrint_inj hash no_collision); congruence). apply Hix.
  - intros fp m0 a [[<- <-]|[_ H0]]%lookup_insert_Some Hin0.
    + apply Hin in Hin0 as [Hold|[_ ?]]; [|done]. pose proof (Ha _ _ _ Hm Hold). lia.
    + pose proof (Ha _ _ _ H0 Hin0). lia.
  - intros fp m0 [[<- <-]|[_ H0]]%lookup_insert_Some; [|by eapply Hnd]. destruct (Hnd _ _ Hm) as [Hn Hne].
    destruct Hrep as [->|[-> _]]; [done|]. split; [|by destruct (replica_addresses m)].
    apply NoDup_app. split_and!; [done| |apply NoDup_singleton].
    intros a Ha1 ->%list_elem_of_singleton. by eapply Hfresh.
  - intros fp fp' m1 m2 a [[<- <-]|[_ H1]]%lookup_insert_Some [[<- <-]|[_ H2]]%lookup_insert_Some Hi1 Hi2; [done|..].
    + apply Hin in Hi1 as [Hold|[-> _]]; [by eapply Hdis|]. exfalso. by eapply (Hfresh fp').
    + apply Hin in Hi2 as [Hold|[-> _]]; [by eapply Hdis|]. exfalso. by eapply (Hfresh fp).
    + by eapply Hdis.
Qed.

Lemma chunk_step_inv c s o : chunk_inv c s → chunk_inv (stored_step c o) (chunk_step s o).
Proof.
  intros Hinv. pose proof Hinv as [Hnn Hix Ha Hnd Hdis]. destruct o as [d|d|d]; simpl.
  - unfold storeChunk, index_get. specialize (Hix d) as Hd.
    destruct (index s !! fingerPrint hash d) as [m|] eqn:Hm.
    + destruct Hd as (Hdat & Hrc & Hpos). eapply update_entry; simpl; [done..| | | |lia|by left].
      * rewrite decide_True by done. lia.
      * rewrite decide_True by done. lia.
      * intros d' Hne. by rewrite decide_False.
    + unfold index_add. split; simpl.
      * intros d'. specialize (Hnn d'). case_decide; lia.
      * intros d'. destruct (decide (d = d')) as [<-|Hne]; [rewrite lookup_insert_eq; simpl; rewrite Hd; done|].
        rewrite lookup_insert_ne by (intros ?%(fingerPrint_inj hash no_collision); congruence). apply Hix.
      * intros fp m0 a [[<- <-]|[_ H0]]%lookup_insert_Some; simpl; [intros ->%list_elem_of_singleton; lia|].
        intros Hin. pose proof (Ha _ _ _ H0 Hin). lia.
      * intros fp m0 [[<- <-]|[_ H0]]%lookup_insert_Some; [split; [apply NoDup_singleton|done]|by eapply Hnd].
      * intros fp fp' m1 m2 a [[<- <-]|[_ H1]]%lookup_insert_Some [[<- <-]|[_ H2]]%lookup_insert_Some; simpl; [done|..].
        -- intros ->%list_elem_of_singleton Hin. pose proof (Ha _ _ _ H2 Hin). lia.
        -- intros Hin ->%list_elem_of_singleton. pose proof (Ha _ _ _ H1 Hin). lia.
        -- by eapply Hdis.
  - unfold replicateChunk, index_get. specialize (Hix d) as Hd.
    destruct (index s !! fingerPrint hash d) as [m|] eqn:Hm; [|done].
    destruct Hd as (Hdat & Hrc & Hpos). eapply update_entry; simpl; [done..|lia|]. right. split; [done|lia].
  - unfold deleteChunk, index_get. specialize (Hix d) as Hd.
    destruct (index s !! fingerPrint hash d) as [m|] eqn:Hm.
    + destruct Hd as (Hdat & Hrc & Hpos). simpl. destruct (Z.eqb_spec (ref_count m + -1) 0) as [H0|H0].
      * unfold index_remove. split; simpl.
        -- intros d'. specialize (Hnn d'). case_decide; lia.
        -- intros d'. destruct (decide (d = d')) as [<-|Hne]; [rewrite lookup_delete_eq; lia|].
           rewrite lookup_delete_ne by (intros ?%(fingerPrint_inj hash no_collision); congruence). apply Hix.
        -- intros fp m0 a [_ Hm0]%lookup_delete_Some. by eapply Ha.
        -- intros fp m0 [_ Hm0]%lookup_delete_Some. by eapply Hnd.
        -- intros fp fp' m1 m2 a [_ H1]%lookup_delete_Some [_ H2]%lookup_delete_Some. by eapply Hdis.
      * eapply update_entry; simpl; [done..| | | |lia|by left].
        -- rewrite decide_True by done. lia.
        -- rewrite decide_True by done. lia.
        -- intros d' Hne. by rewrite decide_False.
    + destruct Hinv as [_ Hix' ? ? ?]. split; try done; simpl.
      * intros d'. specialize (Hnn d'). case_decide; lia.
      * intros d'. specialize (Hix' d'). destruct (decide (d = d')) as [<-|]; [rewrite Hm in *; lia|done].
Qed.

Lemma chunk_run_inv ops : chunk_inv (stored ops) (chunk_run ops).
Proof.
  unfold stored, chunk_run.
  assert (chunk_inv (λ _, 0) ChunkStorageSystem_make) as H0
    by (split; simpl; intros; simplify_map_eq; done).
  revert H0. generalize (λ _ : string, 0) ChunkStorageSystem_make.
  induction ops as [|o ops IH]; intros c s Hinv; simpl; [done|]. by apply IH, chunk_step_inv.
Qed.
End system.

(** The chunk store is a multiset.  For a hash without collisions and after any
    history, a chunk is found (with its own content) exactly when it has been stored
    more often than deleted, its reference count is the difference, and no two
    replicas of the system have the same address. *)
Theorem chunk_store_multiset (hash : string → N) (ops : list chunk_op) (d : string) :
  (∀ d d', hash d = hash d' → d = d') →
  let s := chunk_run hash ops in
  lookupChunk hash s d = (if 0 <? stored ops d then d else "Chunk NOT FOUND") ∧
  default 0 (ref_count <$> index s !! fingerPrint hash d) = stored ops d ∧
  (∀ fp fp' m m' a, index s !! fp = Some m → index s !! fp' = Some m' →
    a ∈ replica_addresses m → a ∈ replica_addresses m' → fp = fp').
Proof.
  intros Hinj s. pose proof (chunk_run_inv hash Hinj ops) as [_ Hix _ _ Hdis]. specialize (Hix d). fold s in Hix, Hdis.
  unfold lookupChunk, index_get. split_and!; [..|done];
    (destruct (index s !! fingerPrint hash d) as [m|]; [destruct Hix as (? & ? & ?)|]); simpl; try done.
  - by rewrite (proj2 (Z.ltb_lt _ _)).
  - by rewrite Hix.
Qed.

Lemma chunk_store_multiset_witness :
  let s := chunk_run base256 [Store "a"; Store "b"; Store "a"; Replicate "a"; Delete "b"; Delete "a"] in
  lookupChunk base256 s "a" = "a" ∧ lookupChunk base256 s "b" = "Chunk NOT FOUND".
Proof.
  split.
  - exact (proj1 (chunk_store_multiset base256
      [Store "a"; Store "b"; Store "a"; Replicate "a"; Delete "b"; Delete "a"] "a" base256_inj)).
  - exact (proj1 (chunk_store_multiset base256
      [Store "a"; Store "b"; Store "a"; Replicate "a"; Delete "b"; Delete "a"] "b" base256_inj)).
Defined.
