(* ===== verification/Queues.v ===== *)
(** * Blocking queues

    The monitors of [src/concurrency]: [BlockingQueue.cpp], [MessageQueue_generic.cpp]
    (unbounded), [BlockingQueue_Bounded.cpp] and
    [BlockingQueue_Bounded_with_timeout.cpp] (bounded, with two condition
    variables), and the copies of these classes in the programs with producers and
    consumers.  A step is one stay of a thread in the mutex, or one notification; a
    thread in [cv.wait] is asleep until it is notified, wakes up spuriously or, in the
    timed variants, times out, and then tests its predicate again.  The notification
    follows the critical section, so another thread can run in between. *)
From S2P Require Import Prelude.
Local Open Scope nat_scope.

(** A thread inside [cv.wait] has been notified, or is asleep. *)
Inductive status := Asleep | Notified.

#[export] Instance status_eq_dec : EqDecision status.
Proof. solve_decision. Defined.

Section queue.
Context {T : Type}.

(** [pushing] and [popping] are the threads that wait; [owed_empty] counts threads
    that have left their critical section and still have to call
    [not_empty.notify_one()], [owed_full] likewise for [not_full]. [pushed] and
    [popped] record the completed operations. *)
Record Queue := {
  dq : list T;
  Tcapacity : option nat;
  pushing : list (T * status);
  popping : list status;
  owed_empty : nat;
  owed_full : nat;
  pushed : list T;
  popped : list T
}.

Definition Queue_make (capacity : option nat) : Queue :=
  {| dq := []; Tcapacity := capacity; pushing := []; popping := []; owed_empty := 0; owed_full := 0;
     pushed := []; popped := [] |}.

(** The predicates of the waits. *)
Definition has_room (q : Queue) : bool :=
  match Tcapacity q with None => true | Some c => length (dq q) <? c end.

Definition not_empty (q : Queue) : bool := negb (bool_decide (length (dq q) = 0)).

(** The critical section of [push] once it may proceed. *)
Definition enqueue (q : Queue) (val : T) : Queue :=
  {| dq := dq q ++ [val]; Tcapacity := Tcapacity q; pushing := pushing q; popping := popping q;
     owed_empty := S (owed_empty q); owed_full := owed_full q; pushed := pushed q ++ [val]; popped := popped q |}.

(** The critical section of [pop]; only the bounded queues notify producers. *)
Definition dequeue (q : Queue) : option (Queue * T) :=
  match dq q with
  | [] => None
  | val :: rest =>
      Some ({| dq := rest; Tcapacity := Tcapacity q; pushing := pushing q; popping := popping q;
               owed_empty := owed_empty q;
               owed_full := match Tcapacity q with None => owed_full q | Some _ => S (owed_full q) end;
               pushed := pushed q; popped := popped q ++ [val] |}, val)
  end.

Definition set_waiting (q : Queue) (ps : list (T * status)) (cs : list status) : Queue :=
  {| dq := dq q; Tcapacity := Tcapacity q; pushing := ps; popping := cs; owed_empty := owed_empty q;
     owed_full := owed_full q; pushed := pushed q; popped := popped q |}.

(** [push(val)] up to its wait or the end of its critical section. *)
Definition push (q : Queue) (val : T) : Queue :=
  if has_room q then enqueue q val else set_waiting q (pushing q ++ [(val, Asleep)]) (popping q).

(** A waiting [push] gets the mutex back and tests its predicate. *)
Definition push_resume (q : Queue) (j : nat) : option Queue :=
  '(val, _) ← pushing q !! j;
  Some (if has_room q then enqueue (set_waiting q (delete j (pushing q)) (popping q)) val
        else set_waiting q (<[j := (val, Asleep)]> (pushing q)) (popping q)).

(** The same at the end of its time: [try_push] returns [false] if there is no room. *)
Definition try_push_timeout (q : Queue) (j : nat) : option (Queue * bool) :=
  '(val, _) ← pushing q !! j;
  Some (if has_room q then (enqueue (set_waiting q (delete j (pushing q)) (popping q)) val, true)
        else (set_waiting q (delete j (pushing q)) (popping q), false)).

Definition pop (q : Queue) : option Queue :=
  if not_empty q then fst <$> dequeue q else Some (set_waiting q (pushing q) (popping q ++ [Asleep])).

Definition pop_resume (q : Queue) (j : nat) : option Queue :=
  _ ← popping q !! j;
  if not_empty q then fst <$> dequeue (set_waiting q (pushing q) (delete j (popping q)))
  else Some (set_waiting q (pushing q) (<[j := Asleep]> (popping q))).

Definition try_pop_timeout (q : Queue) (j : nat) : option (Queue * option T) :=
  _ ← popping q !! j;
  let q' := set_waiting q (pushing q) (delete j (popping q)) in
  if not_empty q then '(q', val) ← dequeue q'; Some (q', Some val) else Some (q', None).

(** [try_receive]: no wait. *)
Definition try_receive (q : Queue) : option (Queue * option T) :=
  if not_empty q then '(q', val) ← dequeue q; Some (q', Some val) else Some (q, None).

(** [not_empty.notify_one()] wakes one of the threads asleep, when there is one. *)
Definition notify_empty (q : Queue) (j : nat) : option Queue :=
  match owed_empty q with
  | O => None
  | S n =>
      cs ← (if decide (Asleep ∈ popping q)
            then if decide (popping q !! j = Some Asleep) then Some (<[j := Notified]> (popping q)) else None
            else Some (popping q));
      Some {| dq := dq q; Tcapacity := Tcapacity q; pushing := pushing q; popping := cs; owed_empty := n;
              owed_full := owed_full q; pushed := pushed q; popped := popped q |}
  end.

Definition notify_full (q : Queue) (j : nat) : option Queue :=
  match owed_full q with
  | O => None
  | S n =>
      ps ← (if decide (Asleep ∈ (pushing q).*2)
            then match pushing q !! j with
                 | Some (val, Asleep) => Some (<[j := (val, Notified)]> (pushing q))
                 | _ => None
                 end
            else Some (pushing q));
      Some {| dq := dq q; Tcapacity := Tcapacity q; pushing := ps; popping := popping q; owed_empty := owed_empty q;
              owed_full := n; pushed := pushed q; popped := popped q |}
  end.

Inductive q_event :=
  | Push (val : T) | PushResume (j : nat) | PushTimeout (j : nat)
  | Pop | PopResume (j : nat) | PopTimeout (j : nat) | TryReceive
  | NotifyEmpty (j : nat) | NotifyFull (j : nat).

Definition q_step (q : Queue) (e : q_event) : option Queue :=
  match e with
  | Push val => Some (push q val)
  | PushResume j => push_resume q j
  | PushTimeout j => fst <$> try_push_timeout q j
  | Pop => pop q
  | PopResume j => pop_resume q j
  | PopTimeout j => fst <$> try_pop_timeout q j
  | TryReceive => fst <$> try_receive q
  | NotifyEmpty j => notify_empty q j
  | NotifyFull j => notify_full q j
  end.

(** ** Invariant *)

Definition notified (l : list status) : nat := length (filter (λ s, s = Notified) l).

(** Free slots; unbounded queues have no waiting producers. *)
Definition room (q : Queue) : nat := match Tcapacity q with None => 0 | Some c => c - length (dq q) end.

Record q_inv (q : Queue) : Prop := {
  q_fifo : pushed q = popped q ++ dq q;
  q_bound : ∀ c, Tcapacity q = Some c → length (dq q) ≤ c;
  q_wake_pop : Asleep ∈ popping q → length (dq q) ≤ notified (popping q) + owed_empty q;
  q_wake_push : Asleep ∈ (pushing q).*2 → room q ≤ notified (pushing q).*2 + owed_full q
}.

Lemma notified_delete l j s :
  l !! j = Some s → notified l = notified (delete j l) + if decide (s = Notified) then 1 else 0.
Proof.
  intros Hj. exact (filter_delete_length (λ s, s = Notified) l j s Hj).
Qed.

Lemma notified_insert l j s s' :
  l !! j = Some s →
  notified (<[j := s']> l) + (if decide (s = Notified) then 1 else 0) =
  notified l + if decide (s' = Notified) then 1 else 0.
Proof.
  intros Hj. exact (filter_insert_length (λ s, s = Notified) l j s s' Hj).
Qed.

Lemma asleep_delete (l : list status) j : Asleep ∈ delete j l → Asleep ∈ l.
Proof.
  rewrite delete_take_drop, elem_of_app. intros [(i & Hi & _)%elem_of_take|(i & Hi)%list_elem_of_lookup].
  - by apply list_elem_of_lookup_2 in Hi.
  - rewrite lookup_drop in Hi. by apply list_elem_of_lookup_2 in Hi.
Qed.

Lemma enqueue_inv q val : q_inv q → has_room q = true → q_inv (enqueue q val).
Proof.
  intros [Hf Hb Hc Hp] Hroom. unfold has_room in Hroom. split; simpl.
  - by rewrite Hf, app_assoc.
  - intros c Hcap. rewrite Hcap in Hroom. apply Nat.ltb_lt in Hroom. rewrite length_app. simpl. lia.
  - intros Ha. specialize (Hc Ha). rewrite length_app. simpl. lia.
  - intros Ha. specialize (Hp Ha). unfold room in *. simpl. destruct (Tcapacity q); [|lia].
    rewrite length_app. simpl. lia.
Qed.

Lemma dequeue_inv q q' val : q_inv q → dequeue q = Some (q', val) → q_inv q'.
Proof.
  intros [Hf Hb Hc Hp]. unfold dequeue. destruct (dq q) as [|v rest] eqn:Hdq; [done|]. intros [= <- <-].
  split; simpl.
  - by rewrite Hf, <-app_assoc.
  - intros c Hcap. specialize (Hb c Hcap). simpl in Hb. lia.
  - intros Ha. specialize (Hc Ha). simpl in Hc. lia.
  - intros Ha. specialize (Hp Ha). unfold room in *. rewrite Hdq in Hp. simpl in *. destruct (Tcapacity q); [|lia]. lia.
Qed.

(** Changing who waits, while every wake-up bound still holds. *)
Lemma set_waiting_inv q ps cs :
  q_inv q → (Asleep ∈ cs → length (dq q) ≤ notified cs + owed_empty q) →
  (Asleep ∈ ps.*2 → room q ≤ notified ps.*2 + owed_full q) → q_inv (set_waiting q ps cs).
Proof. intros [? ? _ _] Hc Hp. by split. Qed.

Lemma no_room q : q_inv q → has_room q = false → room q = 0.
Proof.
  intros Hinv. unfold has_room, room. destruct (Tcapacity q) as [c|] eqn:E; [|done].
  rewrite Nat.ltb_ge. lia.
Qed.

Lemma is_empty q : not_empty q = false → length (dq q) = 0.
Proof. unfold not_empty. intros H. apply negb_false_iff in H. by apply bool_decide_eq_true in H. Qed.

Lemma dequeue_some q : not_empty q = true → ∃ q' val, dequeue q = Some (q', val).
Proof.
  unfold not_empty, dequeue. intros H%negb_true_iff%bool_decide_eq_false. destruct (dq q); [done|]. eauto.
Qed.

Lemma snd_delete (ps : list (T * status)) j : (delete j ps).*2 = delete j ps.*2.
Proof. by rewrite !delete_take_drop, fmap_app, fmap_take, fmap_drop. Qed.

(** A waiting thread leaves, one item entering or leaving with it. *)
Lemma push_leave_inv q j val st :
  q_inv q → pushing q !! j = Some (val, st) → has_room q = true →
  q_inv (enqueue (set_waiting q (delete j (pushing q)) (popping q)) val).
Proof.
  intros [Hf Hb Hc Hp] Hj Hroom.
  assert ((pushing q).*2 !! j = Some st) as Hj2 by (by rewrite list_lookup_fmap, Hj).
  pose proof (notified_delete _ _ _ Hj2) as Hn. unfold has_room in Hroom. split; simpl.
  - by rewrite Hf, app_assoc.
  - intros c Hcap. rewrite Hcap in Hroom. apply Nat.ltb_lt in Hroom. rewrite length_app. simpl. lia.
  - intros Ha. specialize (Hc Ha). rewrite length_app. simpl. lia.
  - rewrite snd_delete. intros Ha%asleep_delete. specialize (Hp Ha). unfold room in *. simpl.
    destruct (Tcapacity q); [|lia]. apply Nat.ltb_lt in Hroom. rewrite length_app. simpl.
    destruct (decide (st = Notified)); lia.
Qed.

Lemma pop_leave_inv q q' j st val :
  q_inv q → popping q !! j = Some st →
  dequeue (set_waiting q (pushing q) (delete j (popping q))) = Some (q', val) → q_inv q'.
Proof.
  intros [Hf Hb Hc Hp] Hj. pose proof (notified_delete _ _ _ Hj) as Hn. unfold dequeue. simpl.
  destruct (dq q) as [|v rest] eqn:Hdq; [done|]. intros [= <- <-]. split; simpl.
  - by rewrite Hf, <-app_assoc.
  - intros c Hcap. specialize (Hb c Hcap). simpl in Hb. lia.
  - intros Ha%asleep_delete. specialize (Hc Ha). simpl in Hc. destruct (decide (st = Notified)); lia.
  - intros Ha. specialize (Hp Ha). unfold room in *. rewrite Hdq in Hp. simpl in *. destruct (Tcapacity q); lia.
Qed.

Lemma notify_empty_inv q q' j : q_inv q → notify_empty q j = Some q' → q_inv q'.
Proof.
  intros [Hf Hb Hc Hp]. unfold notify_empty. destruct (owed_empty q) as [|n] eqn:Ho; [done|].
  destruct (decide (Asleep ∈ popping q)) as [Ha|Hna]; simpl.
  - destruct (decide (popping q !! j = Some Asleep)) as [Hj|]; [|done]. intros [= <-].
    pose proof (notified_insert _ _ _ Notified Hj) as Hn. split; simpl; [done..| |done].
    intros _. specialize (Hc Ha). repeat case_decide; try done. lia.
  - intros [= <-]. split; simpl; [done..| |done]. intros Ha. done.
Qed.

Lemma notify_full_inv q q' j : q_inv q → notify_full q j = Some q' → q_inv q'.
Proof.
  intros [Hf Hb Hc Hp]. unfold notify_full. destruct (owed_full q) as [|n] eqn:Ho; [done|].
  destruct (decide (Asleep ∈ (pushing q).*2)) as [Ha|Hna]; simpl.
  - destruct (pushing q !! j) as [[val []]|] eqn:Hj; simpl; [|done..]. intros [= <-].
    assert ((pushing q).*2 !! j = Some Asleep) as Hj2 by (by rewrite list_lookup_fmap, Hj).
    pose proof (notified_insert _ _ _ Notified Hj2) as Hn. split; simpl; [done..|].
    rewrite list_fmap_insert. simpl. intros _. specialize (Hp Ha). unfold room in *. simpl.
    repeat case_decide; try done. lia.
  - intros [= <-]. by split.
Qed.

Lemma q_step_inv q e q' : q_inv q → q_step q e = Some q' → q_inv q'.
Proof.
  intros Hinv. destruct e as [val|j|j| |j|j| |j|j]; simpl.
  - intros [= <-]. unfold push. destruct (has_room q) eqn:Hr; [by apply enqueue_inv|].
    apply set_waiting_inv; [done|apply Hinv|]. rewrite (no_room q Hinv Hr). lia.
  - unfold push_resume. destruct (pushing q !! j) as [[val st]|] eqn:Hj; simpl; [|done]. intros [= <-].
    destruct (has_room q) eqn:Hr; [by eapply push_leave_inv|].
    apply set_waiting_inv; [done|apply Hinv|]. rewrite (no_room q Hinv Hr). lia.
  - unfold try_push_timeout. destruct (pushing q !! j) as [[val st]|] eqn:Hj; simpl; [|done]. intros [= <-].
    destruct (has_room q) eqn:Hr; simpl; [by eapply push_leave_inv|].
    apply set_waiting_inv; [done|apply Hinv|]. rewrite (no_room q Hinv Hr). lia.
  - unfold pop. destruct (not_empty q) eqn:He.
    + destruct (dequeue_some q He) as (q1 & v & Hd). rewrite Hd. intros [= <-]. by eapply dequeue_inv.
    + intros [= <-]. apply set_waiting_inv; [done| |apply Hinv]. rewrite (is_empty q He). lia.
  - unfold pop_resume. destruct (popping q !! j) as [st|] eqn:Hj; simpl; [|done]. destruct (not_empty q) eqn:He.
    + destruct (dequeue _) as [[q1 v]|] eqn:Hd; simpl; [|done]. intros [= <-]. by eapply pop_leave_inv.
    + intros [= <-]. apply set_waiting_inv; [done| |apply Hinv]. rewrite (is_empty q He). lia.
  - unfold try_pop_timeout. destruct (popping q !! j) as [st|] eqn:Hj; simpl; [|done]. destruct (not_empty q) eqn:He.
    + destruct (dequeue _) as [[q1 v]|] eqn:Hd; simpl; [|done]. intros [= <-]. by eapply pop_leave_inv.
    + simpl. intros [= <-]. apply set_waiting_inv; [done| |apply Hinv]. rewrite (is_empty q He). lia.
  - unfold try_receive. destruct (not_empty q) eqn:He; [|by intros [= <-]].
    destruct (dequeue_some q He) as (q1 & v & Hd). rewrite Hd. simpl. intros [= <-]. by eapply dequeue_inv.
  - by apply notify_empty_inv.
  - by apply notify_full_inv.
Qed.

Lemma Queue_make_inv capacity : q_inv (Queue_make capacity).
Proof.
  split; simpl; [done|lia|..]; intros Ha; exfalso; by apply not_elem_of_nil in Ha.
Qed.

Lemma q_run_inv q es q' : q_inv q → run_ops q_step q es = Some q' → q_inv q'.
Proof.
  revert q. induction es as [|e es IH]; intros q Hinv Hr; simpl in Hr; [by simplify_eq|].
  destruct (q_step q e) as [q1|] eqn:E; simplify_eq/=. eapply IH; [|done]. by eapply q_step_inv.
Qed.
End queue.
Arguments Queue : clear implicits.
Arguments q_event : clear implicits.

(** ** The classes *)

(** [BlockingQueue<T>], [MessageQueue<T>]: no capacity, one condition variable. *)
Definition BlockingQueue_make {T} : Queue T := Queue_make None.
Definition BlockingQueue_push {T} : Queue T → T → Queue T := push.
Definition BlockingQueue_pop {T} : Queue T → option (Queue T) := pop.
Definition PC_BlockingQueue_push {T} : Queue T → T → Queue T := push.
Definition PC_BlockingQueue_pop {T} : Queue T → option (Queue T) := pop.
Definition Multi_BlockingQueue_push {T} : Queue T → T → Queue T := push.
Definition Multi_BlockingQueue_pop {T} : Queue T → option (Queue T) := pop.
Definition MessageQueue_send {T} : Queue T → T → Queue T := push.
Definition MessageQueue_receive {T} : Queue T → option (Queue T) := pop.

(** [BlockingQueue_Bounded<T>]. *)
Definition BlockingQueue_Bounded_make {T} (capacity : nat) : Queue T := Queue_make (Some capacity).
Definition PC_Bounded_push {T} : Queue T → T → Queue T := push.
Definition PC_Bounded_pop {T} : Queue T → option (Queue T) := pop.
Definition Timeout_push {T} : Queue T → T → Queue T := push.
Definition Timeout_pop {T} : Queue T → option (Queue T) := pop.
Definition TPC_try_push {T} : Queue T → nat → option (Queue T * bool) := try_push_timeout.
Definition TPC_push {T} : Queue T → T → Queue T := push.
Definition TPC_try_pop {T} : Queue T → nat → option (Queue T * option T) := try_pop_timeout.
Definition TPC_pop {T} : Queue T → option (Queue T) := pop.

(** C29: the queues are first-in first-out and lose no wake-up.  In every state any
    interleaving reaches, the values pushed are the values popped followed by the
    content of the queue, the capacity is respected, and whenever a consumer is asleep
    there are at least as many consumers notified (or notifications about to be sent)
    as items available, and likewise for producers and free slots; so no thread sleeps
    for ever beside an item or a slot it could take. *)
Theorem queue_fifo_no_lost_wakeup {T} (capacity : option nat) (es : list (q_event T)) (q : Queue T) :
  run_ops q_step (Queue_make capacity) es = Some q →
  pushed q = popped q ++ dq q ∧
  (∀ c, Tcapacity q = Some c → length (dq q) ≤ c) ∧
  (Asleep ∈ popping q → length (dq q) ≤ notified (popping q) + owed_empty q) ∧
  (Asleep ∈ (pushing q).*2 → room q ≤ notified (pushing q).*2 + owed_full q).
Proof. intros Hr. pose proof (q_run_inv _ _ _ (Queue_make_inv capacity) Hr) as [? ? ? ?]. done. Qed.

Lemma queue_fifo_no_lost_wakeup_witness :
  ∃ q, run_ops q_step (Queue_make (Some 1))
      [Pop; Pop; Push 5; Push 6; NotifyEmpty 1; Push 7; PopResume 1; NotifyFull 0; PushResume 0; NotifyEmpty 0]
      = Some q ∧ pushed q = [5; 6] ∧ popped q = [5] ∧ pushed q = popped q ++ dq q.
Proof.
  destruct (run_ops q_step (Queue_make (Some 1))
      [Pop; Pop; Push 5; Push 6; NotifyEmpty 1; Push 7; PopResume 1; NotifyFull 0; PushResume 0; NotifyEmpty 0])
    as [q|] eqn:Hq; [|vm_compute in Hq; discriminate].
  destruct (queue_fifo_no_lost_wakeup (Some 1) _ q Hq) as [Hf _]. exists q. split; [reflexivity|].
  vm_compute in Hq. injection Hq as <-. split; [reflexivity|]. split; [reflexivity|exact Hf].
Defined.
