(* ===== verification/Buffers.v ===== *)
(** * Circular buffer and semaphore-guarded buffer

    [src/concurrency/BlockingCircularBuffer.cpp] (an array used as a ring, under one
    mutex) and [src/concurrency/CountingSemaphore_ProducerConsumer.cpp] (a bounded
    buffer guarded by two counting semaphores). *)
From S2P Require Import Prelude.
Local Open Scope nat_scope.

(** ** The ring *)

Record Ring (T : Type) := { buffer : list T; capacity : Z; count : Z; head : Z; tail : Z }.
Arguments buffer {T}.
Arguments capacity {T}.
Arguments count {T}.
Arguments head {T}.
Arguments tail {T}.

Section ring.
Context {T : Type}.
Implicit Types (r : Ring T) (x : T).

(** [buffer(size)] value-initialises its elements: [zero]. *)
Definition Ring_make (zero : T) (size : Z) : Ring T :=
  {| buffer := replicate (Z.to_nat size) zero; capacity := size; count := 0; head := 0; tail := 0 |}.

(** [push(item)] when the wait is over; [Some (r, false)] while [count < capacity] is
    false, and the thread waits. *)
Definition ring_push r x : option (Ring T * bool) :=
  if (count r <? capacity r)%Z then
    b ← vset (buffer r) (tail r) x;
    Some ({| buffer := b; capacity := capacity r; count := count r + 1; head := head r;
             tail := Z.rem (tail r + 1) (capacity r) |}, true)
  else Some (r, false).

Definition ring_pop r : option (Ring T * option T) :=
  if (0 <? count r)%Z then
    x ← vget (buffer r) (head r);
    Some ({| buffer := buffer r; capacity := capacity r; count := count r - 1;
             head := Z.rem (head r + 1) (capacity r); tail := tail r |}, Some x)
  else Some (r, None).

(** Reference: the items in order. *)
Definition slot (cap h : Z) (i : nat) : nat := Z.to_nat ((h + i) mod cap).

Definition ring_contents r : list T :=
  omap (λ i, buffer r !! slot (capacity r) (head r) i) (seq 0 (Z.to_nat (count r))).

Record ring_inv r : Prop := {
  ring_cap : (0 < capacity r ≤ INT_MAX)%Z;
  ring_len : Z.of_nat (length (buffer r)) = capacity r;
  ring_head : (0 ≤ head r < capacity r)%Z;
  ring_count : (0 ≤ count r ≤ capacity r)%Z;
  ring_tail : tail r = ((head r + count r) mod capacity r)%Z
}.

Lemma slot_lt cap h i : (0 < cap)%Z → (slot cap h i < cap)%Z.
Proof. intros Hc. unfold slot. pose proof (Z.mod_pos_bound (h + i) cap Hc). lia. Qed.

Lemma slot_inj cap h (i j : nat) :
  (0 < cap)%Z → (i < cap)%Z → (j < cap)%Z → slot cap h i = slot cap h j → i = j.
Proof.
  intros Hc Hi Hj. unfold slot. intros Heq.
  pose proof (Z.mod_pos_bound (h + i) cap Hc). pose proof (Z.mod_pos_bound (h + j) cap Hc).
  assert ((h + i) mod cap = (h + j) mod cap)%Z as Hm by lia.
  pose proof (Z.div_mod (h + i) cap ltac:(lia)). pose proof (Z.div_mod (h + j) cap ltac:(lia)).
  assert (cap * ((h + i) / cap - (h + j) / cap) = i - j)%Z by lia.
  assert ((h + i) / cap - (h + j) / cap = 0)%Z by nia. lia.
Qed.

Lemma slot_succ cap h i : (0 < cap)%Z → (0 ≤ h)%Z → slot cap ((h + 1) mod cap) i = slot cap h (S i).
Proof.
  intros Hc Hh. unfold slot. f_equal. rewrite Z.add_mod_idemp_l by lia. f_equal. lia.
Qed.

(** Every slot is in range, so nothing is dropped. *)
Lemma contents_lookup r i :
  ring_inv r → (i < Z.to_nat (count r)) → ring_contents r !! i = buffer r !! slot (capacity r) (head r) i.
Proof.
  intros Hinv. unfold ring_contents. generalize (Z.to_nat (count r)). intros n Hi.
  assert (∀ m k, k < m → omap (λ i, buffer r !! slot (capacity r) (head r) i) (seq (i - k) m) !! k
    = buffer r !! slot (capacity r) (head r) (i - k + k)) as Hgen.
  { intros m k. generalize (i - k). intros a. revert a k. induction m as [|m IH]; intros a k Hk; [lia|]. csimpl.
    destruct (lookup_lt_is_Some_2 (buffer r) (slot (capacity r) (head r) a)) as [x Hx].
    { pose proof (slot_lt (capacity r) (head r) a ltac:(apply Hinv)). pose proof (ring_len _ Hinv). lia. }
    rewrite Hx. destruct k as [|k]; simpl; [by rewrite Nat.add_0_r|]. rewrite IH by lia. f_equal. f_equal. lia. }
  specialize (Hgen n i Hi). by rewrite Nat.sub_diag in Hgen.
Qed.

Lemma contents_length r : ring_inv r → length (ring_contents r) = Z.to_nat (count r).
Proof.
  intros Hinv. unfold ring_contents. rewrite <-(length_seq (Z.to_nat (count r)) 0) at 2.
  generalize (seq 0 (Z.to_nat (count r))). induction l as [|i l IH]; [done|]. csimpl.
  destruct (lookup_lt_is_Some_2 (buffer r) (slot (capacity r) (head r) i)) as [x Hx].
  { pose proof (slot_lt (capacity r) (head r) i ltac:(apply Hinv)). pose proof (ring_len _ Hinv). lia. }
  rewrite Hx. simpl. by rewrite IH.
Qed.

Lemma rem_mod a n : (0 ≤ a)%Z → (0 < n)%Z → Z.rem a n = (a mod n)%Z.
Proof. intros. apply Z.rem_mod_nonneg; lia. Qed.

Lemma ring_push_spec r x :
  ring_inv r → (count r < capacity r)%Z →
  ∃ r', ring_push r x = Some (r', true) ∧ ring_inv r' ∧ capacity r' = capacity r ∧
    ring_contents r' = ring_contents r ++ [x].
Proof.
  intros Hinv Hlt. pose proof Hinv as [Hcap Hlen Hh Hc Ht]. unfold ring_push.
  rewrite (proj2 (Z.ltb_lt _ _) Hlt). unfold vset.
  assert (0 ≤ tail r < capacity r)%Z as Htr by (rewrite Ht; apply Z.mod_pos_bound; lia).
  rewrite decide_True by lia. simpl. rewrite rem_mod by lia. eexists. split; [done|].
  match goal with |- ring_inv ?r' ∧ _ => set (r1 := r') end.
  assert (ring_inv r1) as Hinv1.
  { split; simpl; [done|by rewrite length_insert|done|lia|].
    rewrite Ht, Z.add_mod_idemp_l by lia. f_equal. lia. }
  split_and!; [done..|].
  assert (slot (capacity r) (head r) (Z.to_nat (count r)) = Z.to_nat (tail r)) as Hslot.
  { unfold slot. rewrite Ht. f_equal. f_equal. lia. }
  apply list_eq. intros i. destruct (decide (i < Z.to_nat (count r))) as [Hi|Hi].
  - rewrite lookup_app_l by (by rewrite contents_length).
    rewrite (contents_lookup r1) by (simpl; lia || done). rewrite (contents_lookup r) by done. simpl.
    rewrite list_lookup_insert_ne; [done|]. rewrite <-Hslot.
    intros Heq%slot_inj; [lia|lia|lia|lia].
  - destruct (decide (i = Z.to_nat (count r))) as [->|Hne].
    + rewrite lookup_app_r, contents_length, Nat.sub_diag by (by rewrite ?contents_length).
      rewrite (contents_lookup r1) by (simpl; lia || done). simpl. rewrite Hslot.
      apply list_lookup_insert_eq. lia.
    + rewrite !lookup_ge_None_2; [done|rewrite length_app, contents_length by done; simpl; lia|].
      rewrite contents_length by done. simpl. lia.
Qed.

Lemma ring_pop_spec r :
  ring_inv r → (0 < count r)%Z →
  ∃ r' x rest, ring_pop r = Some (r', Some x) ∧ ring_inv r' ∧ capacity r' = capacity r ∧
    ring_contents r = x :: rest ∧ ring_contents r' = rest.
Proof.
  intros Hinv Hpos. pose proof Hinv as [Hcap Hlen Hh Hc Ht]. unfold ring_pop.
  rewrite (proj2 (Z.ltb_lt _ _) Hpos).
  destruct (vget_in (buffer r) (head r)) as (x & Hx & Hx'); [lia|]. rewrite Hx. simpl. rewrite rem_mod by lia.
  match goal with |- ∃ r' x' rest, Some (?r1, _) = _ ∧ _ => set (r2 := r1) end.
  assert (ring_inv r2) as Hinv2.
  { split; simpl; [done|done|apply Z.mod_pos_bound; lia|lia|].
    rewrite Ht, Z.add_mod_idemp_l by lia. f_equal. lia. }
  exists r2, x, (ring_contents r2). split_and!; [done..| |done].
  apply list_eq. intros [|i]; simpl.
  - rewrite contents_lookup by (lia || done). unfold slot. rewrite Z.add_0_r, Z.mod_small by lia. done.
  - destruct (decide (S i < Z.to_nat (count r))) as [Hi|Hi].
    + rewrite contents_lookup by done. rewrite (contents_lookup r2) by (simpl; lia || done). simpl.
      by rewrite slot_succ by lia.
    + rewrite !lookup_ge_None_2; [done|..]; rewrite contents_length by done; simpl; lia.
Qed.

Inductive ring_op := RPush (x : T) | RPop.

(** The result of a pop, or whether a push was carried out. *)
Definition ring_step r (o : ring_op) : option (Ring T * option T) :=
  match o with
  | RPush x => '(r, _) ← ring_push r x; Some (r, None)
  | RPop => ring_pop r
  end.

Definition list_step (cap : Z) (l : list T) (o : ring_op) : option (list T * option T) :=
  match o with
  | RPush x => Some (if (length l <? cap)%Z then l ++ [x] else l, None)
  | RPop => Some (match l with [] => ([], None) | x :: l => (l, Some x) end)
  end.

Lemma ring_step_spec r o :
  ring_inv r → ∃ r' out, ring_step r o = Some (r', out) ∧ ring_inv r' ∧ capacity r' = capacity r ∧
    list_step (capacity r) (ring_contents r) o = Some (ring_contents r', out).
Proof.
  intros Hinv. pose proof (contents_length r Hinv) as Hlen. pose proof (ring_count _ Hinv).
  destruct o as [x|]; simpl.
  - rewrite Hlen, Z2Nat.id by lia. destruct (Z.ltb_spec (count r) (capacity r)) as [Hlt|Hge].
    + destruct (ring_push_spec r x Hinv Hlt) as (r' & -> & Hi' & Hcap & Hc). simpl. exists r', None. by rewrite Hc.
    + unfold ring_push. rewrite (proj2 (Z.ltb_ge _ _) Hge). simpl. by exists r, None.
  - destruct (decide (0 < count r)%Z) as [Hpos|Hz].
    + destruct (ring_pop_spec r Hinv Hpos) as (r' & x & rest & -> & Hi' & Hcap & -> & <-). by exists r', (Some x).
    + unfold ring_pop. rewrite (proj2 (Z.ltb_ge _ _)) by lia. exists r, None. split_and!; [done..|].
      destruct (ring_contents r); [done|]. simpl in Hlen. lia.
Qed.
End ring.
Arguments ring_op : clear implicits.

(** The ring is a bounded queue.  For every positive capacity and every sequence
    of pushes and pops, no index is out of range and the pops return what they would
    return from a list used as a queue of that capacity. *)
Theorem circular_buffer_is_queue {T} (zero : T) (size : Z) (ops : list (ring_op T)) :
  (0 < size ≤ INT_MAX)%Z →
  ∃ r outs, run_out ring_step (Ring_make zero size) ops = Some (r, outs) ∧
    run_out (list_step size) [] ops = Some (ring_contents r, outs).
Proof.
  intros Hsize.
  assert (ring_inv (Ring_make zero size)) as Hinv.
  { split; simpl; [done|rewrite length_replicate; lia|lia|lia|]. by rewrite Z.mod_0_l by lia. }
  change [] with (ring_contents (Ring_make zero size)). change size with (capacity (Ring_make zero size)) at 2.
  revert Hinv. generalize (Ring_make zero size). induction ops as [|o ops IH]; intros r Hinv; simpl; [eauto|].
  destruct (ring_step_spec r o Hinv) as (r1 & out & -> & Hinv1 & Hcap & ->). simpl.
  destruct (IH r1 Hinv1) as (r' & outs & -> & Hl). rewrite Hcap in Hl. rewrite Hl. simpl. eauto.
Qed.

Lemma circular_buffer_is_queue_witness :
  ∃ r outs, run_out ring_step (Ring_make 0 2) [RPush 1; RPush 2; RPush 3; RPop; RPush 4; RPop; RPop; RPop]
      = Some (r, outs) ∧ outs = [None; None; None; Some 1; None; Some 2; Some 4; None].
Proof.
  destruct (circular_buffer_is_queue 0 2 [RPush 1; RPush 2; RPush 3; RPop; RPush 4; RPop; RPop; RPop])
    as (r & outs & H1 & H2); [unfold INT_MAX; lia|].
  exists r, outs. split; [exact H1|]. vm_compute in H2. injection H2 as _ <-. reflexivity.
Defined.

(** ** Semaphores *)

Record CountingSemaphore := { sem_count : Z }.

(** [wait()]: [None] while [count > 0] is false. *)
Definition sem_wait (s : CountingSemaphore) : option CountingSemaphore :=
  if (0 <? sem_count s)%Z then Some {| sem_count := sem_count s - 1 |} else None.

Definition sem_signal (s : CountingSemaphore) : CountingSemaphore := {| sem_count := sem_count s + 1 |}.

(** The same class in [CountingSemaphore.cpp], with the worker that waits, works and
    signals. *)
Definition worker_wait : CountingSemaphore → option CountingSemaphore := sem_wait.
Definition worker_signal : CountingSemaphore → CountingSemaphore := sem_signal.

(** Where a producer or consumer is in its loop body: before its wait, between the
    wait and the access to the buffer, or before its signal. *)
Inductive phase := Before | Inside | After.

#[export] Instance phase_eq_dec : EqDecision phase.
Proof. solve_decision. Defined.

(** A thread: the value of its loop variable [item], and its phase. *)
Abbreviation thread := (Z * phase)%type.

Definition BUFFER_SIZE : Z := 2.

Record SemBuffer := {
  fullSlots : CountingSemaphore;
  emptySlots : CountingSemaphore;
  items : list Z;
  producers : list thread;
  consumers : list thread
}.

(** [main]: the semaphores, the empty buffer and the threads at the start of their loops. *)
Definition SemBuffer_make (np nc : nat) : SemBuffer :=
  {| fullSlots := {| sem_count := 0 |}; emptySlots := {| sem_count := BUFFER_SIZE |}; items := [];
     producers := replicate np (1%Z, Before); consumers := replicate nc (1%Z, Before) |}.

Inductive outcome := Blocked | Undefined | Next (s : SemBuffer).

Definition set_producer (s : SemBuffer) (full empty : CountingSemaphore) (l : list Z) (j : nat) (t : thread) : outcome :=
  Next {| fullSlots := full; emptySlots := empty; items := l; producers := <[j := t]> (producers s);
          consumers := consumers s |}.

Definition set_consumer (s : SemBuffer) (full empty : CountingSemaphore) (l : list Z) (j : nat) (t : thread) : outcome :=
  Next {| fullSlots := full; emptySlots := empty; items := l; producers := producers s;
          consumers := <[j := t]> (consumers s) |}.

(** The next step of producer [j]; its loop ends after item 5. *)
Definition producer (s : SemBuffer) (j : nat) : outcome :=
  match producers s !! j with
  | None => Blocked
  | Some (item, Before) =>
      if (5 <? item)%Z then Blocked else
      match sem_wait (emptySlots s) with
      | None => Blocked
      | Some e => set_producer s (fullSlots s) e (items s) j (item, Inside)
      end
  | Some (item, Inside) => set_producer s (fullSlots s) (emptySlots s) (items s ++ [item]) j (item, After)
  | Some (item, After) =>
      set_producer s (sem_signal (fullSlots s)) (emptySlots s) (items s) j ((item + 1)%Z, Before)
  end.

(** The next step of consumer [j]; [buffer.front()] of an empty queue is undefined. *)
Definition consumer (s : SemBuffer) (j : nat) : outcome :=
  match consumers s !! j with
  | None => Blocked
  | Some (item, Before) =>
      if (5 <? item)%Z then Blocked else
      match sem_wait (fullSlots s) with
      | None => Blocked
      | Some f => set_consumer s f (emptySlots s) (items s) j (item, Inside)
      end
  | Some (item, Inside) =>
      match items s with
      | [] => Undefined
      | _ :: rest => set_consumer s (fullSlots s) (emptySlots s) rest j (item, After)
      end
  | Some (item, After) =>
      set_consumer s (fullSlots s) (sem_signal (emptySlots s)) (items s) j ((item + 1)%Z, Before)
  end.

Inductive sem_event := Producer (j : nat) | Consumer (j : nat).

Definition sem_step (s : SemBuffer) (e : sem_event) : outcome :=
  match e with Producer j => producer s j | Consumer j => consumer s j end.

(** A blocked thread stays where it is. *)
Fixpoint sem_run (s : SemBuffer) (es : list sem_event) : option SemBuffer :=
  match es with
  | [] => Some s
  | e :: es =>
      match sem_step s e with
      | Blocked => sem_run s es
      | Undefined => None
      | Next s' => sem_run s' es
      end
  end.

Definition at_phase (ph : phase) (ts : list thread) : Z := length (filter (λ t, t.2 = ph) ts).

Lemma at_phase_insert ph ts j t t' :
  ts !! j = Some t →
  at_phase ph (<[j := t']> ts) =
  (at_phase ph ts - (if decide (t.2 = ph) then 1 else 0) + (if decide (t'.2 = ph) then 1 else 0))%Z.
Proof.
  intros Hj. unfold at_phase. pose proof (filter_insert_length (λ t : thread, t.2 = ph) ts j t t' Hj).
  repeat case_decide; lia.
Qed.

Record sem_inv (s : SemBuffer) : Prop := {
  sem_empty : (sem_count (emptySlots s) + at_phase Inside (producers s) + length (items s)
    + at_phase After (consumers s) = BUFFER_SIZE)%Z;
  sem_full : (Z.of_nat (length (items s)) = sem_count (fullSlots s) + at_phase After (producers s)
    + at_phase Inside (consumers s))%Z;
  sem_nonneg : (0 ≤ sem_count (emptySlots s))%Z ∧ (0 ≤ sem_count (fullSlots s))%Z
}.

(** The counts of the three phases after one thread has moved. *)
Ltac moved H := rewrite ?(at_phase_insert _ _ _ _ _ H); simpl; rewrite ?length_app; simpl.

Lemma producer_inv s j : sem_inv s → match producer s j with Next s' => sem_inv s' | Blocked => True | Undefined => False end.
Proof.
  intros [He Hf [Hn1 Hn2]]. unfold producer. destruct (producers s !! j) as [[item []]|] eqn:Hj; [| | |done].
  - destruct (5 <? item)%Z; [done|]. unfold sem_wait. destruct (Z.ltb_spec 0 (sem_count (emptySlots s))); [|done].
    split; simpl; moved Hj; lia.
  - split; simpl; moved Hj; lia.
  - split; simpl; moved Hj; lia.
Qed.

Lemma consumer_inv s j : sem_inv s → match consumer s j with Next s' => sem_inv s' | Blocked => True | Undefined => False end.
Proof.
  intros [He Hf [Hn1 Hn2]]. unfold consumer. destruct (consumers s !! j) as [[item []]|] eqn:Hj; [| | |done].
  - destruct (5 <? item)%Z; [done|]. unfold sem_wait. destruct (Z.ltb_spec 0 (sem_count (fullSlots s))); [|done].
    split; simpl; moved Hj; lia.
  - pose proof (filter_delete_length (λ t : thread, t.2 = Inside) (consumers s) j _ Hj) as Hd.
    rewrite decide_True in Hd by done. unfold at_phase in Hf at 2.
    destruct (items s) as [|x rest] eqn:Hi.
    + simpl in Hf. unfold at_phase in Hf. lia.
    + split; simpl in *; moved Hj; unfold at_phase in *; lia.
  - split; simpl; moved Hj; lia.
Qed.

Lemma sem_run_inv s es : sem_inv s → ∃ s', sem_run s es = Some s' ∧ sem_inv s'.
Proof.
  revert s. induction es as [|e es IH]; intros s Hinv; simpl; [eauto|].
  assert (match sem_step s e with Next s' => sem_inv s' | Blocked => True | Undefined => False end) as Hs
    by (destruct e; [by apply producer_inv|by apply consumer_inv]).
  destruct (sem_step s e); [by apply IH|done|by apply IH].
Qed.

Lemma at_phase_make ph n : ph ≠ Before → at_phase ph (replicate n (1%Z, Before)) = 0%Z.
Proof.
  intros Hph. unfold at_phase. induction n as [|n IH]; simpl; [done|]. rewrite filter_cons, decide_False; [done|].
  simpl. congruence.
Qed.

(** The semaphores protect the buffer.  For any number of producers and consumers
    and any interleaving of their steps, no consumer reads an empty buffer and the
    buffer never holds more than [BUFFER_SIZE] items. *)
Theorem semaphore_buffer_safe (np nc : nat) (es : list sem_event) :
  ∃ s, sem_run (SemBuffer_make np nc) es = Some s ∧ (length (items s) ≤ BUFFER_SIZE)%Z.
Proof.
  destruct (sem_run_inv (SemBuffer_make np nc) es) as (s & Hr & [He Hf [Hn1 Hn2]]).
  - split; simpl; rewrite ?at_phase_make by done; done.
  - exists s. split; [done|]. unfold at_phase in *. lia.
Qed.
