(* ===== verification/Iterators.v ===== *)
(** * Volcano query operators

    The iterator classes of [src/database-internals]:
    [QueryOptimizationTree_VolcanoIteratorModel.cpp] (table scan, filter, projection),
    [SortOperator.cpp] and [IndexScanOperator.cpp].  The abstract class [Iterator] is a
    type class; its laws say which rows an operator produces, so that operators are
    verified against any lawful child.

    The loops of an operator over its child are bounded by fuel ([None] when it runs
    out); a lawful operator never needs more than [bound], the number of rows at its
    source, plus one. *)
From S2P Require Import Prelude.
Local Open Scope nat_scope.

(** ** The interface *)

Class Iterator (I R : Type) := {
  open_ : nat → I → option I;
  next : nat → I → option (I * option R);
  close : I → I
}.

(** [source i]: the rows [open] gives access to; [rows i]: those still to come. *)
Class IteratorLaws (I R : Type) `{Iterator I R} := {
  ok : I → Prop;
  source : I → list R;
  rows : I → list R;
  bound : I → nat;
  rows_bound i : ok i → length (rows i) ≤ bound i;
  open_law fuel i : ok i → bound i < fuel →
    ∃ i', open_ fuel i = Some i' ∧ ok i' ∧ rows i' = source i ∧ source i' = source i ∧ bound i' = bound i;
  next_law fuel i : ok i → bound i < fuel →
    ∃ i', next fuel i = Some (i', head (rows i)) ∧ ok i' ∧ rows i' = tail (rows i) ∧ source i' = source i ∧
      bound i' = bound i
}.

(** The loop of the query executor: [while (plan->next(row))]. *)
Fixpoint drain {I R} `{Iterator I R} (fuel inner : nat) (i : I) : option (I * list R) :=
  match fuel with
  | O => None
  | S fuel =>
      '(i, r) ← next inner i;
      match r with
      | None => Some (i, [])
      | Some r => '(i, rs) ← drain fuel inner i; Some (i, r :: rs)
      end
  end.

(** [main]: open the plan, take all its rows, close it. *)
Definition execute {I R} `{Iterator I R} (fuel : nat) (i : I) : option (I * list R) :=
  i ← open_ fuel i; '(i, rs) ← drain fuel fuel i; Some (close i, rs).

Section laws.
Context {I R : Type} `{IteratorLaws I R}.

Lemma drain_law fuel inner (i : I) :
  ok i → bound i < inner → length (rows i) < fuel →
  ∃ i', drain fuel inner i = Some (i', rows i) ∧ ok i' ∧ rows i' = [] ∧ source i' = source i ∧ bound i' = bound i.
Proof.
  revert i. induction fuel as [|fuel IH]; intros i Hok Hb Hlen; [lia|]. simpl.
  destruct (next_law inner i Hok Hb) as (i1 & -> & Hok1 & Hr1 & Hs1 & Hb1). simpl.
  destruct (rows i) as [|r rs] eqn:Hr; simpl in *; [by exists i1|].
  destruct (IH i1) as (i' & -> & ? & ? & ? & ?); [done|lia|rewrite Hr1; lia|]. simpl. exists i'.
  split_and!; [by rewrite Hr1|done..|congruence|congruence].
Qed.

Lemma execute_law fuel (i : I) :
  ok i → bound i < fuel → ∃ i', execute fuel i = Some (i', source i).
Proof.
  intros Hok Hb. unfold execute. destruct (open_law fuel i Hok Hb) as (i1 & -> & Hok1 & Hr1 & Hs1 & Hb1). simpl.
  pose proof (rows_bound i1 Hok1).
  destruct (drain_law fuel fuel i1) as (i' & -> & _); [done|lia|lia|]. simpl. rewrite Hr1. eauto.
Qed.
End laws.

(** ** Table scan *)

Record TableScan (R : Type) := { table : list R; index : Z }.
Arguments table {R}.
Arguments index {R}.

Section scan.
Context {R : Type}.
Implicit Types (t : TableScan R).

Definition TableScan_make (rs : list R) : TableScan R := {| table := rs; index := 0 |}.

Definition scan_open t : TableScan R := {| table := table t; index := 0 |}.

(** [index >= table.size()] converts [index] to an unsigned type. *)
Definition scan_next t : option (TableScan R * option R) :=
  if (length (table t) <=? to_size_t (index t))%Z then Some (t, None)
  else r ← vget (table t) (index t); Some ({| table := table t; index := index t + 1 |}, Some r).

#[export] Instance TableScan_iterator : Iterator (TableScan R) R := {|
  open_ := λ _ t, Some (scan_open t);
  next := λ _ t, scan_next t;
  close := λ t, t
|}.

#[export] Instance TableScan_laws : IteratorLaws (TableScan R) R.
Proof.
  refine {| ok := λ t, (0 ≤ index t ≤ length (table t))%Z ∧ (length (table t) ≤ INT_MAX)%Z;
            source := table; rows := λ t, drop (Z.to_nat (index t)) (table t);
            bound := λ t, length (table t) |}.
  - intros t _. rewrite length_drop. lia.
  - intros fuel t Hok _. eexists. split; [done|]. split; [simpl; lia|]. by split_and!.
  - intros fuel t [Hi Hmax] _. simpl. unfold scan_next. rewrite to_size_t_id by lia.
    destruct (Z.leb_spec (length (table t)) (index t)) as [Hge|Hlt].
    + exists t. rewrite drop_ge by lia. split; [done|]. split; [lia|]. by split_and!.
    + destruct (vget_in (table t) (index t)) as (r & Hr & Hr'); [lia|]. rewrite Hr. simpl.
      eexists. rewrite (drop_S _ r _ Hr'). split; [done|]. split; [simpl; lia|]. split_and!; [|done..].
      simpl. f_equal. lia.
Defined.
End scan.

(** ** Filter *)

Record Filter (I : Type) := { filter_child : I }.
Arguments filter_child {I}.

Section filter.
Context {I R : Type} `{Iterator I R} (P : R → bool).

(** [while (child->next(row)) if (P(row)) return true; return false;] *)
Fixpoint filter_loop (fuel inner : nat) (c : I) : option (I * option R) :=
  match fuel with
  | O => None
  | S fuel =>
      '(c, r) ← next inner c;
      match r with
      | None => Some (c, None)
      | Some r => if P r then Some (c, Some r) else filter_loop fuel inner c
      end
  end.

Definition filter_next (fuel : nat) (f : Filter I) : option (Filter I * option R) :=
  '(c, r) ← filter_loop fuel fuel (filter_child f); Some ({| filter_child := c |}, r).

Definition filter_open (fuel : nat) (f : Filter I) : option (Filter I) :=
  c ← open_ fuel (filter_child f); Some {| filter_child := c |}.

Definition Filter_iterator : Iterator (Filter I) R := {|
  open_ := filter_open;
  next := filter_next;
  close := λ f, {| filter_child := close (filter_child f) |}
|}.

Context `{!IteratorLaws I R}.

Definition keep (rs : list R) : list R := filter (λ r, P r = true) rs.

Lemma filter_loop_law fuel inner (c : I) :
  ok c → bound c < inner → length (rows c) < fuel →
  ∃ c', filter_loop fuel inner c = Some (c', head (keep (rows c))) ∧ ok c' ∧
    keep (rows c') = tail (keep (rows c)) ∧ source c' = source c ∧ bound c' = bound c.
Proof.
  revert c. induction fuel as [|fuel IH]; intros c Hok Hb Hlen; [lia|]. simpl.
  destruct (next_law inner c Hok Hb) as (c1 & -> & Hok1 & Hr1 & Hs1 & Hb1). simpl.
  destruct (rows c) as [|r rs] eqn:Hr; simpl in *.
  - exists c1. by rewrite Hr1.
  - unfold keep. rewrite filter_cons. destruct (P r) eqn:HP; simpl.
    + exists c1. rewrite Hr1. by split_and!.
    + destruct (IH c1) as (c' & -> & ? & Hk & ? & ?); [done|lia|rewrite Hr1; lia|]. rewrite Hr1 in *.
      exists c'. split_and!; [done..|congruence|congruence].
Qed.
End filter.

#[export] Instance Filter_laws {I R} (P : R → bool) `{IteratorLaws I R} :
  @IteratorLaws (Filter I) R (Filter_iterator P).
Proof.
  refine (@Build_IteratorLaws (Filter I) R (Filter_iterator P) (λ f, ok (filter_child f))
    (λ f, keep P (source (filter_child f))) (λ f, keep P (rows (filter_child f))) (λ f, bound (filter_child f)) _ _ _).
  - intros f Hok. pose proof (rows_bound _ Hok). unfold keep.
    pose proof (length_filter (λ r, P r = true) (rows (filter_child f))). lia.
  - intros fuel f Hok Hb. simpl. unfold filter_open.
    destruct (open_law fuel _ Hok Hb) as (c & -> & ? & Hr & Hs & ?). simpl. eexists. split; [done|].
    simpl. rewrite Hr, Hs. done.
  - intros fuel f Hok Hb. simpl. unfold filter_next. pose proof (rows_bound _ Hok).
    destruct (filter_loop_law P fuel fuel _ Hok Hb) as (c & -> & ? & Hk & Hs & ?); [lia|]. simpl. eexists.
    split; [done|]. simpl. rewrite Hk, Hs. done.
Defined.

(** ** Projection: prints two columns of each row it passes on *)

Record Project (I : Type) := { project_child : I; printed : list (Z * string) }.
Arguments project_child {I}.
Arguments printed {I}.

Record Row := { row_id : Z; name : string; age : Z }.

Section project.
Context {I : Type} `{Iterator I Row}.

Definition project_next (fuel : nat) (p : Project I) : option (Project I * option Row) :=
  '(c, r) ← next fuel (project_child p);
  Some (match r with
        | None => ({| project_child := c; printed := printed p |}, None)
        | Some r => ({| project_child := c; printed := printed p ++ [(row_id r, name r)] |}, Some r)
        end).

Definition project_open (fuel : nat) (p : Project I) : option (Project I) :=
  c ← open_ fuel (project_child p); Some {| project_child := c; printed := printed p |}.

Definition Project_iterator : Iterator (Project I) Row := {|
  open_ := project_open;
  next := project_next;
  close := λ p, {| project_child := close (project_child p); printed := printed p |}
|}.
End project.

#[export] Instance Project_laws {I} `{IteratorLaws I Row} : @IteratorLaws (Project I) Row Project_iterator.
Proof.
  refine (@Build_IteratorLaws (Project I) Row Project_iterator (λ p, ok (project_child p))
    (λ p, source (project_child p)) (λ p, rows (project_child p)) (λ p, bound (project_child p)) _ _ _).
  - intros p Hok. by apply rows_bound.
  - intros fuel p Hok Hb. simpl. unfold project_open.
    destruct (open_law fuel _ Hok Hb) as (c & -> & ?). simpl. by eexists.
  - intros fuel p Hok Hb. simpl. unfold project_next.
    destruct (next_law fuel _ Hok Hb) as (c & -> & ?). simpl. destruct (rows (project_child p)); simpl; by eexists.
Defined.

(** ** Sort *)

Record SortOperator (I R : Type) := { sort_child : I; sorted_rows : list R; sort_index : nat }.
Arguments sort_child {I R}.
Arguments sorted_rows {I R}.
Arguments sort_index {I R}.

Section sort.
Context {I R : Type} `{Iterator I R} (std_sort : list R → list R).

Definition SortOperator_make (c : I) : SortOperator I R := {| sort_child := c; sorted_rows := []; sort_index := 0 |}.

Definition sort_open (fuel : nat) (s : SortOperator I R) : option (SortOperator I R) :=
  c ← open_ fuel (sort_child s);
  '(c, rs) ← drain fuel fuel c;
  Some {| sort_child := c; sorted_rows := std_sort rs; sort_index := 0 |}.

Definition sort_next (s : SortOperator I R) : option (SortOperator I R * option R) :=
  if length (sorted_rows s) <=? sort_index s then Some (s, None)
  else
    r ← sorted_rows s !! sort_index s;
    Some ({| sort_child := sort_child s; sorted_rows := sorted_rows s; sort_index := S (sort_index s) |}, Some r).

Definition Sort_iterator : Iterator (SortOperator I R) R := {|
  open_ := sort_open;
  next := λ _ s, sort_next s;
  close := λ s, {| sort_child := close (sort_child s); sorted_rows := sorted_rows s; sort_index := sort_index s |}
|}.
End sort.

(** The operator is lawful over any lawful child, for any [std::sort] that permutes. *)
Definition Sort_laws {I R} `{IteratorLaws I R} (std_sort : list R → list R) (Hperm : ∀ rs, std_sort rs ≡ₚ rs) :
  @IteratorLaws (SortOperator I R) R (Sort_iterator std_sort).
Proof.
  refine (@Build_IteratorLaws (SortOperator I R) R (Sort_iterator std_sort)
    (λ s, ok (sort_child s) ∧ sort_index s ≤ length (sorted_rows s) ∧ length (sorted_rows s) ≤ bound (sort_child s))
    (λ s, std_sort (source (sort_child s))) (λ s, drop (sort_index s) (sorted_rows s))
    (λ s, bound (sort_child s)) _ _ _).
  - intros s (_ & _ & Hb). rewrite length_drop. lia.
  - intros fuel s (Hok & _ & _) Hb. simpl. unfold sort_open.
    destruct (open_law fuel _ Hok Hb) as (c & -> & Hok1 & Hr1 & Hs1 & Hb1). simpl.
    pose proof (rows_bound c Hok1) as Hlen.
    destruct (drain_law fuel fuel c) as (c' & -> & Hok2 & _ & Hs2 & Hb2); [done|lia|lia|]. simpl.
    pose proof (Permutation_length (Hperm (rows c))) as Hl.
    eexists. split; [done|]. simpl. rewrite drop_0, Hs2, Hs1, Hb2, Hb1, <-Hr1.
    split; [split_and!; [done|lia|lia]|]. done.
  - intros fuel s (Hok & Hi & Hb') Hb. simpl. unfold sort_next.
    destruct (Nat.leb_spec (length (sorted_rows s)) (sort_index s)) as [Hge|Hlt].
    + exists s. rewrite drop_ge by lia. split; [done|]. split; [split_and!; [done|lia|lia]|]. done.
    + destruct (lookup_lt_is_Some_2 _ _ Hlt) as [r Hr]. rewrite Hr. simpl. eexists. rewrite (drop_S _ r _ Hr).
      split; [done|]. simpl. split; [split_and!; [done|lia|lia]|]. done.
Defined.

(** ** Index scan over the (simulated) B+tree *)

Section index_scan.
Context {R : Type} (row_key : R → Z).

Record B_plus_Tree := { bindex : gmap Z R }.

Definition btree_insert (t : B_plus_Tree) (r : R) : B_plus_Tree := {| bindex := <[row_key r := r]> (bindex t) |}.

Definition btree_search (t : B_plus_Tree) (key : Z) : option R := bindex t !! key.

Record IndexScan := { tree : B_plus_Tree; searchKey : Z; returned : bool }.

Definition IndexScan_make (t : B_plus_Tree) (key : Z) : IndexScan := {| tree := t; searchKey := key; returned := false |}.

Definition iscan_open (s : IndexScan) : IndexScan :=
  {| tree := tree s; searchKey := searchKey s; returned := false |}.

Definition iscan_next (s : IndexScan) : IndexScan * option R :=
  if returned s then (s, None) else
  match btree_search (tree s) (searchKey s) with
  | None => (s, None)
  | Some r => ({| tree := tree s; searchKey := searchKey s; returned := true |}, Some r)
  end.

#[export] Instance IndexScan_iterator : Iterator IndexScan R := {|
  open_ := λ _ s, Some (iscan_open s);
  next := λ _ s, Some (iscan_next s);
  close := λ s, s
|}.

#[export] Instance IndexScan_laws : IteratorLaws IndexScan R.
Proof.
  refine {| ok := λ _, True; source := λ s, option_list (bindex (tree s) !! searchKey s);
            rows := λ s, if returned s then [] else option_list (bindex (tree s) !! searchKey s);
            bound := λ _, 1 |}.
  - intros s _. destruct (returned s); simpl; [lia|]. destruct (bindex (tree s) !! searchKey s); simpl; lia.
  - intros fuel s _ _. by eexists.
  - intros fuel s _ _. simpl. unfold iscan_next, btree_search.
    destruct (returned s) eqn:Hr; [by exists s; rewrite Hr|].
    destruct (bindex (tree s) !! searchKey s) as [r|] eqn:E; simpl.
    + eexists. split; [done|]. simpl. by rewrite E.
    + exists s. by rewrite Hr, E.
Defined.
End index_scan.
Arguments B_plus_Tree : clear implicits.
Arguments IndexScan : clear implicits.

(** ** The plans of the programs *)

#[local] Existing Instances Filter_iterator Project_iterator.

(** [WHERE age >= 30] *)
Definition age_filter (r : Row) : bool := (30 <=? age r)%Z.

Abbreviation select_plan := (Project (Filter (TableScan Row))).

Definition select_plan_make (rs : list Row) : select_plan :=
  {| project_child := {| filter_child := TableScan_make rs |}; printed := [] |}.

#[local] Instance age_filter_iterator : Iterator (Filter (TableScan Row)) Row := Filter_iterator age_filter.

Lemma project_drain {I} `{Iterator I Row} fuel inner (p p' : Project I) rs :
  drain (H := Project_iterator) fuel inner p = Some (p', rs) →
  printed p' = printed p ++ ((λ r, (row_id r, name r)) <$> rs).
Proof.
  revert p rs. induction fuel as [|fuel IH]; intros p rs; [done|]. simpl. unfold project_next.
  destruct (next inner (project_child p)) as [[c [r|]]|]; simpl; [| |done].
  - destruct (drain fuel inner _) as [[p1 rs1]|] eqn:E; simpl; [|done]. intros [= <- <-].
    rewrite (IH _ _ E). simpl. by rewrite <-app_assoc.
  - intros [= <- <-]. by rewrite app_nil_r.
Qed.

(** The query plan computes its query.  For every table (of at most [INT_MAX]
    rows), [Project] over [Filter] over [TableScan] terminates, with any fuel above the
    size of the table, and returns exactly the rows whose age is at least 30, in table
    order, printing the id and name of each. *)
Theorem volcano_select_correct (rs : list Row) (fuel : nat) :
  (length rs ≤ INT_MAX)%Z → length rs < fuel →
  ∃ p, execute (H := Project_iterator) fuel (select_plan_make rs) = Some (p, filter (λ r, age_filter r = true) rs) ∧
    printed p = (λ r, (row_id r, name r)) <$> filter (λ r, age_filter r = true) rs.
Proof.
  intros Hmax Hfuel.
  destruct (execute_law (H := Project_iterator) (H0 := Project_laws (H0 := Filter_laws age_filter)) fuel
    (select_plan_make rs)) as (p & Hp); [simpl; lia|done|].
  exists p. split; [done|]. unfold execute in Hp. destruct (open_ fuel _) as [p0|] eqn:Ho; [|done]. simpl in Hp.
  destruct (drain fuel fuel p0) as [[p1 rs1]|] eqn:Hd; simpl in Hp; [|done]. injection Hp as <- ->.
  simpl. rewrite (project_drain _ _ _ _ _ Hd). simpl in Ho. unfold project_open in Ho. simpl in Ho.
  injection Ho as <-. done.
Qed.

Lemma volcano_select_correct_witness :
  ∃ p, execute (H := Project_iterator) 10 (select_plan_make
      [{| row_id := 1; name := "A"; age := 25 |}; {| row_id := 2; name := "B"; age := 35 |};
       {| row_id := 3; name := "C"; age := 30 |}]) =
      Some (p, [{| row_id := 2; name := "B"; age := 35 |}; {| row_id := 3; name := "C"; age := 30 |}]) ∧
    printed p = [(2%Z, "B"%string); (3%Z, "C"%string)].
Proof.
  exact (volcano_select_correct
    [{| row_id := 1; name := "A"; age := 25 |}; {| row_id := 2; name := "B"; age := 35 |};
     {| row_id := 3; name := "C"; age := 30 |}] 10 ltac:(vm_compute; discriminate) ltac:(simpl; lia)).
Defined.

Record SalaryRow := { s_row_id : Z; s_name : string; salary : Z }.

Definition salary_le (a b : SalaryRow) : Prop := (salary a ≤ salary b)%Z.

#[export] Instance salary_le_dec : RelDecision salary_le.
Proof. intros a b. unfold salary_le. apply _. Defined.

#[export] Instance salary_le_total : Total salary_le.
Proof. intros a b. unfold salary_le. lia. Qed.

#[export] Instance salary_le_trans : Transitive salary_le.
Proof. intros a b c. unfold salary_le. lia. Qed.

(** The sort operator sorts its child.  Over any lawful child, and for any
    [std::sort] (a function that permutes its argument into ascending order of
    salary), the operator terminates and returns the child's rows, each as often as
    the child has it, in ascending order of salary. *)
Theorem sort_operator_sorts {I} `{IteratorLaws I SalaryRow} (std_sort : list SalaryRow → list SalaryRow)
    (c : I) (fuel : nat) :
  (∀ rs, std_sort rs ≡ₚ rs) → (∀ rs, StronglySorted salary_le (std_sort rs)) → ok c → bound c < fuel →
  ∃ s rs, execute (H := Sort_iterator std_sort) fuel (SortOperator_make c) = Some (s, rs) ∧
    rs ≡ₚ source c ∧ StronglySorted salary_le rs.
Proof.
  intros Hperm Hsort Hok Hb.
  destruct (execute_law (H0 := Sort_laws std_sort Hperm) fuel (SortOperator_make c)) as (s & Hs);
    [simpl; split_and!; [done|lia|lia]|done|].
  exists s, (std_sort (source c)). split_and!; [exact Hs|apply Hperm|apply Hsort].
Qed.

Lemma sort_operator_sorts_witness :
  ∃ s rs, execute (H := Sort_iterator (merge_sort salary_le)) 5 (SortOperator_make (TableScan_make
      [{| s_row_id := 1; s_name := "A"; salary := 30 |}; {| s_row_id := 2; s_name := "B"; salary := 10 |}]))
      = Some (s, rs) ∧
    rs = [{| s_row_id := 2; s_name := "B"; salary := 10 |}; {| s_row_id := 1; s_name := "A"; salary := 30 |}] ∧
    StronglySorted salary_le rs.
Proof.
  destruct (sort_operator_sorts (merge_sort salary_le) (TableScan_make
      [{| s_row_id := 1; s_name := "A"; salary := 30 |}; {| s_row_id := 2; s_name := "B"; salary := 10 |}]) 5)
    as (s & rs & Hs & _ & Hst).
  - intros rs. apply merge_sort_Permutation.
  - intros rs. apply StronglySorted_merge_sort; apply _.
  - simpl. unfold INT_MAX. lia.
  - simpl. lia.
  - exists s, rs. split; [exact Hs|]. split; [|exact Hst]. vm_compute in Hs. by injection Hs as _ <-.
Defined.
