(* ===== verification/ProcessManager.v ===== *)
(** * Process table

    [src/storage/ProcessManager_structure.cpp]: processes are heap objects with
    pointers to their parent and children, indexed by pid.  The model has the heap and
    its addresses, so that a pointer to a deleted process is visible: dereferencing it
    is undefined behaviour ([None]).  Each method is one atomic step. *)
From S2P Require Import Prelude.
Local Open Scope nat_scope.

Inductive ProcessState := READY | RUNNING | BLOCKED | TERMINATED.

Record CPUcontext := { pc : Z; sp : Z; registers : list Z }.

Definition CPUcontext_make : CPUcontext := {| pc := 0; sp := 0; registers := replicate 32 0%Z |}.

Record Process := {
  pid : Z;
  ppid : Z;
  state : ProcessState;
  cpu_time : Z;
  memory_usage : Z;
  context : CPUcontext;
  parent : option nat;
  children : list nat
}.

Definition Process_make (pid ppid : Z) : Process :=
  {| pid := pid; ppid := ppid; state := READY; cpu_time := 0; memory_usage := 0; context := CPUcontext_make;
     parent := None; children := [] |}.

Record ProcessManager := { process_table : gmap Z nat; heap : gmap nat Process; next_addr : nat }.

Definition ProcessManager_make : ProcessManager := {| process_table := ∅; heap := ∅; next_addr := 0 |}.

Definition set_links (p : Process) (par : option nat) (cs : list nat) : Process :=
  {| pid := pid p; ppid := ppid p; state := state p; cpu_time := cpu_time p; memory_usage := memory_usage p;
     context := context p; parent := par; children := cs |}.

Definition set_usage (p : Process) (st : ProcessState) (cpu mem : Z) : Process :=
  {| pid := pid p; ppid := ppid p; state := st; cpu_time := cpu; memory_usage := mem;
     context := context p; parent := parent p; children := children p |}.

Definition set_heap (s : ProcessManager) (h : gmap nat Process) : ProcessManager :=
  {| process_table := process_table s; heap := h; next_addr := next_addr s |}.

Definition addProcess (s : ProcessManager) (id ppid : Z) : option ProcessManager :=
  let a := next_addr s in
  '(h, par) ← match process_table s !! ppid with
              | None => Some (heap s, None)
              | Some pa =>
                  p ← heap s !! pa;
                  Some (<[pa := set_links p (parent p) (children p ++ [a])]> (heap s), Some pa)
              end;
  Some {| process_table := <[id := a]> (process_table s);
          heap := <[a := set_links (Process_make id ppid) par []]> h; next_addr := S a |}.

Definition getProcess (s : ProcessManager) (id : Z) : option nat := process_table s !! id.

Definition getChildren (s : ProcessManager) (id : Z) : option (list nat) :=
  match process_table s !! id with
  | None => Some []
  | Some a => p ← heap s !! a; Some (children p)
  end.

(** The setters: nothing happens for an unknown pid. *)
Definition update (s : ProcessManager) (id : Z) (f : Process → Process) : option ProcessManager :=
  match process_table s !! id with
  | None => Some s
  | Some a => p ← heap s !! a; Some (set_heap s (<[a := f p]> (heap s)))
  end.

Definition updateState (s : ProcessManager) (id : Z) (st : ProcessState) : option ProcessManager :=
  update s id (λ p, set_usage p st (cpu_time p) (memory_usage p)).

Definition updateCpuTime (s : ProcessManager) (id cpu : Z) : option ProcessManager :=
  update s id (λ p, set_usage p (state p) cpu (memory_usage p)).

Definition updateMemoryUsage (s : ProcessManager) (id mem : Z) : option ProcessManager :=
  update s id (λ p, set_usage p (state p) (cpu_time p) mem).

Definition setState (s : ProcessManager) (id : Z) (st : ProcessState) : option ProcessManager :=
  updateState s id st.

(** Taking [a] out of its parent's [children], erasing [id] and deleting the object:
    the end of [removeProcess] and of [killProcess]. *)
Definition detach (s : ProcessManager) (id : Z) (a : nat) : option ProcessManager :=
  p ← heap s !! a;
  h ← match parent p with
      | None => Some (heap s)
      | Some pa =>
          q ← heap s !! pa;
          Some (<[pa := set_links q (parent q) (filter (λ c, c ≠ a) (children q))]> (heap s))
      end;
  Some {| process_table := delete id (process_table s); heap := delete a h; next_addr := next_addr s |}.

Definition removeProcess (s : ProcessManager) (id : Z) : option ProcessManager :=
  match process_table s !! id with
  | None => Some s
  | Some a => detach s id a
  end.

(** The loop of [killProcess] over the copied children. *)
Fixpoint kill_loop (kill : ProcessManager → Z → option ProcessManager) (s : ProcessManager) (cs : list nat) :
    option ProcessManager :=
  match cs with
  | [] => Some s
  | c :: cs => child ← heap s !! c; s ← kill s (pid child); kill_loop kill s cs
  end.

(** [killProcess]: the children first, then the process itself; [fuel] bounds the
    depth of the recursion. *)
Fixpoint killProcess (fuel : nat) (s : ProcessManager) (id : Z) {struct fuel} : option ProcessManager :=
  match fuel with
  | O => None
  | S fuel =>
      match getProcess s id with
      | None => Some s
      | Some a =>
          p ← heap s !! a;
          s ← kill_loop (killProcess fuel) s (children p);
          p ← heap s !! a;
          let s := set_heap s (<[a := set_usage p TERMINATED (cpu_time p) (memory_usage p)]> (heap s)) in
          detach s id a
      end
  end.

(** ** Invariant: the processes form a forest *)

Record pm_inv (s : ProcessManager) : Prop := {
  pm_table : ∀ id a, process_table s !! id = Some a → ∃ p, heap s !! a = Some p ∧ pid p = id;
  pm_heap : ∀ a p, heap s !! a = Some p → process_table s !! pid p = Some a ∧ a < next_addr s;
  pm_parent : ∀ a p b, heap s !! a = Some p → parent p = Some b →
    b < a ∧ ∃ q, heap s !! b = Some q ∧ a ∈ children q;
  pm_children : ∀ a p c, heap s !! a = Some p → c ∈ children p → ∃ q, heap s !! c = Some q ∧ parent q = Some a;
  pm_nodup : ∀ a p, heap s !! a = Some p → NoDup (children p)
}.

(** [b] is [a] or below it. *)
Inductive below (h : gmap nat Process) (a : nat) : nat → Prop :=
  | below_self p : h !! a = Some p → below h a a
  | below_child b c p : below h a b → h !! c = Some p → parent p = Some b → below h a c.

(** *** Removing a set of processes *)

Definition prune (D : gset nat) (p : Process) : Process :=
  set_links p (parent p) (filter (λ c, c ∉ D) (children p)).

Definition remove_all (D : gset nat) (s : ProcessManager) : ProcessManager :=
  {| process_table := filter (λ e, e.2 ∉ D) (process_table s);
     heap := prune D <$> filter (λ e, e.1 ∉ D) (heap s); next_addr := next_addr s |}.

Lemma heap_remove D s a : heap (remove_all D s) !! a = if decide (a ∈ D) then None else prune D <$> heap s !! a.
Proof.
  simpl. rewrite lookup_fmap. case_decide.
  - rewrite map_lookup_filter_None_2; [done|]. right. intros p _. simpl. tauto.
  - f_equal. destruct (heap s !! a) as [p|] eqn:E.
    + apply map_lookup_filter_Some. done.
    + apply map_lookup_filter_None. by left.
Qed.

Lemma table_remove D s id a :
  process_table (remove_all D s) !! id = Some a ↔ process_table s !! id = Some a ∧ a ∉ D.
Proof. simpl. by rewrite map_lookup_filter_Some. Qed.

Lemma prune_prune D D' p : prune D' (prune D p) = prune (D ∪ D') p.
Proof.
  unfold prune, set_links. simpl. f_equal. rewrite list_filter_filter. apply list_filter_iff. intros c. set_solver.
Qed.

Lemma remove_remove D D' s : remove_all D' (remove_all D s) = remove_all (D ∪ D') s.
Proof.
  assert (heap (remove_all D' (remove_all D s)) = heap (remove_all (D ∪ D') s)) as Hh.
  { apply map_eq. intros a. rewrite !heap_remove. destruct (heap s !! a); simpl.
    - repeat case_decide; try set_solver. simpl. by rewrite prune_prune.
    - by repeat case_decide. }
  assert (process_table (remove_all D' (remove_all D s)) = process_table (remove_all (D ∪ D') s)) as Ht.
  { apply map_eq. intros id. apply option_eq. intros a. rewrite !table_remove. set_solver. }
  unfold remove_all in *. simpl in *. by rewrite Hh, Ht.
Qed.

(** A set closed under children can be removed. *)
Definition closed (D : gset nat) (s : ProcessManager) : Prop :=
  ∀ a p b, heap s !! a = Some p → parent p = Some b → b ∈ D → a ∈ D.

Lemma remove_inv D s : pm_inv s → closed D s → pm_inv (remove_all D s).
Proof.
  intros [Ht Hh Hp Hc Hn] Hcl.
  assert (∀ a p, heap (remove_all D s) !! a = Some p → (a ∉ D) ∧ (∃ q, heap s !! a = Some q ∧ p = prune D q)) as Hin.
  { intros a p. rewrite heap_remove. case_decide; [done|]. intros (q & ? & ->)%fmap_Some. eauto. }
  assert (∀ a q, heap s !! a = Some q → a ∉ D → heap (remove_all D s) !! a = Some (prune D q)) as Hout.
  { intros a q Hq Ha. rewrite heap_remove, decide_False by done. by rewrite Hq. }
  split.
  - intros id a [Hid Ha]%table_remove. destruct (Ht id a Hid) as (p & Hpa & Hpid). eauto.
  - intros a p (Ha & q & Hq & ->)%Hin. destruct (Hh a q Hq) as [? ?]. rewrite table_remove. done.
  - intros a p b (Ha & q & Hq & ->)%Hin Hpar. simpl in Hpar. destruct (Hp a q b Hq Hpar) as (Hlt & y & Hy & Hay).
    split; [done|]. assert (b ∉ D) by (intros Hb; by apply Ha, (Hcl a q b)).
    exists (prune D y). split; [by apply Hout|]. simpl. by apply list_elem_of_filter.
  - intros a p c (Ha & q & Hq & ->)%Hin [HcD Hcc]%list_elem_of_filter. destruct (Hc a q c Hq Hcc) as (y & Hy & Hpar).
    exists (prune D y). split; [by apply Hout|done].
  - intros a p (Ha & q & Hq & ->)%Hin. simpl. by apply NoDup_filter, (Hn a).
Qed.

Lemma below_le h a b : (∀ c p d, h !! c = Some p → parent p = Some d → d < c) → below h a b → a ≤ b.
Proof. intros Hlt. induction 1 as [|b c p _ IH Hc Hp]; [lia|]. pose proof (Hlt c p b Hc Hp). lia. Qed.

Lemma below_in h a b : below h a b → ∃ p, h !! b = Some p.
Proof. destruct 1; eauto. Qed.

(** Subtrees outside the removed set are what they were. *)
Lemma below_remove D s a b :
  closed D s → (∀ c, below (heap s) a c → c ∉ D) →
  below (heap (remove_all D s)) a b ↔ below (heap s) a b.
Proof.
  intros Hcl Hout. split.
  - induction 1 as [p Hp|b c p Hb IH Hc Hpar].
    + rewrite heap_remove in Hp. case_decide; [done|]. apply fmap_Some in Hp as (q & Hq & _). by econstructor.
    + rewrite heap_remove in Hc. case_decide; [done|]. apply fmap_Some in Hc as (q & Hq & ->). by econstructor.
  - induction 1 as [p Hp|b c p Hb IH Hc Hpar].
    + eapply below_self. rewrite heap_remove, decide_False, Hp; [done|]. apply Hout. by econstructor.
    + eapply below_child; [done| |].
      * rewrite heap_remove, decide_False, Hc; [done|]. apply Hout. by econstructor.
      * done.
Qed.

(** [detach] of a childless process is the removal of one element. *)
Lemma detach_spec s a p :
  pm_inv s → heap s !! a = Some p → children p = [] → detach s (pid p) a = Some (remove_all {[a]} s).
Proof.
  intros [Ht Hh Hp Hc Hn] Ha Hleaf. unfold detach. rewrite Ha. simpl.
  assert (∀ b q, heap s !! b = Some q → Some b ≠ parent p → a ∉ children q) as Hnot.
  { intros b q Hq Hne Hin. destruct (Hc b q a Hq Hin) as (y & Hy & Hpar). simplify_eq. }
  assert (∀ b q, heap s !! b = Some q → a ∉ children q → prune {[a]} q = q) as Hid.
  { intros b q _ Hni. unfold prune, set_links. destruct q. simpl in *. f_equal. apply filter_all, Forall_forall.
    intros c Hc' ->%elem_of_singleton. done. }
  assert (delete (pid p) (process_table s) = process_table (remove_all {[a]} s)) as Htab.
  { apply map_eq. intros id. apply option_eq. intros b. rewrite table_remove, lookup_delete_Some. split.
    - intros [Hne Hb]. split; [done|]. intros ->%elem_of_singleton. destruct (Ht id a Hb) as (y & Hy & <-). by simplify_eq.
    - intros [Hb Hne]. split; [|done]. intros <-. destruct (Hh a p Ha) as [Hpa _]. set_solver. }
  destruct (parent p) as [pa|] eqn:Hpar; simpl.
  - destruct (Hp a p pa Ha Hpar) as (Hlt & q & Hq & Hin). rewrite Hq. simpl. f_equal. rewrite Htab.
    unfold remove_all at 2. f_equal. apply map_eq. intros b.
    change (prune {[a]} <$> filter (λ e : nat * Process, e.1 ∉ ({[a]} : gset nat)) (heap s)) with (heap (remove_all {[a]} s)).
    rewrite heap_remove. destruct (decide (b = a)) as [->|Hne].
    + rewrite lookup_delete_eq, decide_True by set_solver. done.
    + rewrite lookup_delete_ne, decide_False by set_solver. destruct (decide (b = pa)) as [->|Hne2].
      * rewrite lookup_insert_eq, Hq. simpl. unfold prune. f_equal. f_equal. apply list_filter_iff. intros c. set_solver.
      * rewrite lookup_insert_ne by done. destruct (heap s !! b) as [y|] eqn:Hy; [|done]. simpl. f_equal. symmetry.
        apply (Hid b); [done|]. apply (Hnot b y Hy). congruence.
  - f_equal. rewrite Htab. unfold remove_all at 2. f_equal. apply map_eq. intros b.
    change (prune {[a]} <$> filter (λ e : nat * Process, e.1 ∉ ({[a]} : gset nat)) (heap s)) with (heap (remove_all {[a]} s)).
    rewrite heap_remove. destruct (decide (b = a)) as [->|Hne].
    + rewrite lookup_delete_eq, decide_True by set_solver. done.
    + rewrite lookup_delete_ne, decide_False by set_solver. destruct (heap s !! b) as [y|] eqn:Hy; [|done]. simpl.
      f_equal. symmetry. apply (Hid b); [done|]. apply (Hnot b y Hy). done.
Qed.

(** Marking the process as terminated first makes no difference. *)
Lemma detach_terminated s id a p st cpu mem :
  pm_inv s → heap s !! a = Some p →
  detach (set_heap s (<[a := set_usage p st cpu mem]> (heap s))) id a = detach s id a.
Proof.
  intros Hinv Ha. unfold detach. simpl. rewrite lookup_insert_eq, Ha. simpl.
  destruct (parent p) as [pa|] eqn:Hpar; simpl; [|by rewrite delete_insert_eq].
  destruct (pm_parent _ Hinv a p pa Ha Hpar) as (Hlt & q & Hq & _).
  rewrite lookup_insert_ne by lia. rewrite Hq. simpl. rewrite insert_insert_ne by lia. by rewrite delete_insert_eq.
Qed.

Lemma below_trans h a b c : below h a b → below h b c → below h a c.
Proof. intros Hab. induction 1 as [|b0 c p _ IH Hc Hp]; [done|by eapply below_child]. Qed.

(** Two ancestors of a process are comparable. *)
Lemma below_linear h a c b : below h a b → below h c b → below h a c ∨ below h c a.
Proof.
  intros Hab. revert c. induction Hab as [p Hp|b b' p Hab IH Hb Hpar]; intros c Hcb; [by right|].
  inversion Hcb as [q Hq|b0 b1 q Hc0 Hq Hpar']; subst.
  - left. exact (below_child h a b b' p Hab Hb Hpar).
  - simplify_eq. by apply IH.
Qed.

Lemma below_parent h a c p d : below h a c → a ≠ c → h !! c = Some p → parent p = Some d → below h a d.
Proof. intros [q Hq|b c' q Hb Hq Hpar] Hne Hc Hp; [done|]. by simplify_eq. Qed.

Section kill.
Context (s : ProcessManager) (Hinv : pm_inv s).

Lemma parent_lt c p d : heap s !! c = Some p → parent p = Some d → d < c.
Proof. intros Hc Hp. by destruct (pm_parent _ Hinv c p d Hc Hp). Qed.

(** Subtrees of different children are disjoint. *)
Lemma siblings_disjoint a p c c' b :
  heap s !! a = Some p → c ∈ children p → c' ∈ children p → below (heap s) c b → below (heap s) c' b → c = c'.
Proof.
  intros Ha Hc Hc' Hb Hb'. destruct (pm_children _ Hinv a p c Ha Hc) as (q & Hq & Hpar).
  destruct (pm_children _ Hinv a p c' Ha Hc') as (q' & Hq' & Hpar').
  destruct (decide (c = c')) as [|Hne]; [done|exfalso].
  pose proof (parent_lt c q a Hq Hpar). pose proof (parent_lt c' q' a Hq' Hpar').
  destruct (below_linear _ _ _ _ Hb Hb') as [Hcc|Hcc].
  - assert (below (heap s) c a) as Hca by (by eapply below_parent).
    apply below_le in Hca; [lia|]. apply parent_lt.
  - assert (below (heap s) c' a) as Hca by (eapply below_parent; [done|congruence|done..]).
    apply below_le in Hca; [lia|]. apply parent_lt.
Qed.

Lemma below_unfold a p b :
  heap s !! a = Some p → below (heap s) a b ↔ b = a ∨ ∃ c, c ∈ children p ∧ below (heap s) c b.
Proof.
  intros Ha. split.
  - induction 1 as [q Hq|b c q Hb IH Hc Hpar]; [by left|right].
    destruct IH as [->|(c0 & Hc0 & Hb0)].
    + exists c. destruct (pm_parent _ Hinv c q a Hc Hpar) as (_ & y & Hy & Hin). simplify_eq.
      split; [done|]. by econstructor.
    + exists c0. split; [done|]. by econstructor.
  - intros [->|(c & Hc & Hb)]; [by econstructor|].
    destruct (pm_children _ Hinv a p c Ha Hc) as (q & Hq & Hpar). eapply below_trans; [|done].
    eapply below_child; [by econstructor|done..].
Qed.

Lemma below_closed (D : gset nat) (P : nat → Prop) :
  (∀ b, b ∈ D ↔ ∃ c, P c ∧ below (heap s) c b) → closed D s.
Proof.
  intros HD a p b Ha Hpar Hb. apply HD in Hb as (c & Hc & Hb). apply HD. exists c. split; [done|]. by econstructor.
Qed.
End kill.

(** What killing a process does, as an assumption on the recursive calls: they are made
    on states with the addresses below [n], for processes younger than [lo]. *)
Definition kills (kill : ProcessManager → Z → option ProcessManager) (n lo : nat) : Prop :=
  ∀ s id a, pm_inv s → next_addr s = n → process_table s !! id = Some a → lo < a →
    ∃ D, kill s id = Some (remove_all D s) ∧ ∀ b, b ∈ D ↔ below (heap s) a b.

Lemma kill_loop_spec kill s a p (done_ : list nat) cs (D : gset nat) :
  pm_inv s → heap s !! a = Some p → children p = done_ ++ cs → kills kill (next_addr s) a →
  (∀ b, b ∈ D ↔ ∃ c, c ∈ done_ ∧ below (heap s) c b) →
  ∃ D', kill_loop kill (remove_all D s) cs = Some (remove_all D' s) ∧
    ∀ b, b ∈ D' ↔ ∃ c, c ∈ children p ∧ below (heap s) c b.
Proof.
  intros Hinv Ha Hcs Hkill. revert done_ D Hcs. induction cs as [|c cs IH]; intros done_ D Hcs HD; cbn [kill_loop].
  { exists D. rewrite Hcs, app_nil_r. done. }
  assert (c ∈ children p) as Hc by (rewrite Hcs; apply elem_of_app; right; by left).
  destruct (pm_children _ Hinv a p c Ha Hc) as (q & Hq & Hpar).
  assert (closed D s) as Hcl by (eapply (below_closed s D (λ c, c ∈ done_)); exact HD).
  assert (∀ b, below (heap s) c b → b ∉ D) as Hdis.
  { intros b Hb (c' & Hc' & Hb')%HD. pose proof (pm_nodup _ Hinv a p Ha) as Hnd. rewrite Hcs in Hnd.
    apply NoDup_app in Hnd as (_ & Hnd & _). apply (Hnd c'); [done|].
    rewrite (siblings_disjoint s Hinv a p c' c b); [by left|done| |done..]. rewrite Hcs. apply elem_of_app. by left. }
  assert (c ∉ D) as HcD by (apply Hdis; by econstructor).
  rewrite heap_remove, decide_False, Hq by done. cbn [mbind option_bind fmap option_fmap option_map].
  pose proof (remove_inv D s Hinv Hcl) as Hinv'.
  destruct (Hkill (remove_all D s) (pid q) c Hinv') as (D1 & Hk1 & HD1); [done| | |].
  { apply table_remove. split; [|done]. by apply (pm_heap _ Hinv). }
  { by apply (parent_lt s Hinv c q a). }
  cbn [pid prune set_links]. rewrite Hk1. cbn [mbind option_bind]. rewrite remove_remove. apply (IH (done_ ++ [c])).
  - by rewrite <-app_assoc.
  - intros b. rewrite elem_of_union, HD, HD1, below_remove by done. setoid_rewrite elem_of_app.
    setoid_rewrite list_elem_of_singleton. split.
    + intros [(c' & ? & ?)|Hb]; [exists c'; auto|]. exists c. auto.
    + intros (c' & [?| ->] & ?); [left; eauto|by right].
Qed.

Lemma remove_none s : remove_all ∅ s = s.
Proof.
  unfold remove_all. destruct s as [t h n]. simpl. f_equal.
  - apply map_filter_id. set_solver.
  - rewrite map_filter_id by set_solver. rewrite <-(map_fmap_id h) at 2. apply map_fmap_ext.
    intros i x _. simpl. unfold prune, set_links. destruct x. simpl. f_equal. apply filter_all, Forall_forall. set_solver.
Qed.

Lemma killProcess_spec fuel s id a :
  pm_inv s → process_table s !! id = Some a → next_addr s - a < fuel →
  ∃ D, killProcess fuel s id = Some (remove_all D s) ∧ ∀ b, b ∈ D ↔ below (heap s) a b.
Proof.
  revert s id a. induction fuel as [|fuel IH]; intros s id a Hinv Hid Hfuel; [lia|]. cbn [killProcess].
  unfold getProcess. rewrite Hid. destruct (pm_table _ Hinv id a Hid) as (p & Ha & <-). rewrite Ha.
  cbn [mbind option_bind]. destruct (pm_heap _ Hinv a p Ha) as [_ Hlt].
  destruct (kill_loop_spec (killProcess fuel) s a p [] (children p) ∅) as (D & Hloop & HD); [done..| | |].
  { intros s' id' a' Hinv' Hn' Hid' Hlt'. destruct (pm_table _ Hinv' id' a' Hid') as (p' & Ha' & _).
    destruct (pm_heap _ Hinv' a' p' Ha') as [_ Hb']. apply IH; [done|done|lia]. }
  { intros b. split; [set_solver|]. by intros (c & ?%elem_of_nil & _). }
  rewrite remove_none in Hloop. rewrite Hloop. cbn [mbind option_bind].
  assert (closed D s) as Hcl by (eapply (below_closed s D (λ c, c ∈ children p)); exact HD).
  assert (a ∉ D) as HaD.
  { intros (c & Hc & Hca)%HD. apply below_le in Hca; [|apply parent_lt, Hinv].
    destruct (pm_children _ Hinv a p c Ha Hc) as (q & Hq & Hpar). pose proof (parent_lt s Hinv c q a Hq Hpar). lia. }
  assert (heap (remove_all D s) !! a = Some (prune D p)) as Ha' by (by rewrite heap_remove, decide_False, Ha).
  assert (children (prune D p) = []) as Hleaf.
  { simpl. apply elem_of_nil_inv. intros c [HcD Hc]%list_elem_of_filter. apply HcD, HD. exists c. split; [done|].
    destruct (pm_children _ Hinv a p c Ha Hc) as (q & Hq & _). by econstructor. }
  pose proof (remove_inv D s Hinv Hcl) as Hinv'. rewrite Ha'. cbn [mbind option_bind].
  rewrite detach_terminated by done. change (pid p) with (pid (prune D p)). rewrite detach_spec by done.
  rewrite remove_remove. eexists. split; [done|]. intros b. rewrite (below_unfold s Hinv a p b Ha).
  rewrite elem_of_union, elem_of_singleton, HD. tauto.
Qed.

(** *** The other operations keep the forest *)

(** Changing no link of a process keeps the invariant. *)
Lemma relabel_inv s a p p' :
  pm_inv s → heap s !! a = Some p → pid p' = pid p → parent p' = parent p → children p' = children p →
  pm_inv (set_heap s (<[a := p']> (heap s))).
Proof.
  intros [Ht Hh Hp Hc Hn] Ha Epid Epar Ech.
  assert (∀ b q, <[a := p']> (heap s) !! b = Some q →
    ∃ q0, heap s !! b = Some q0 ∧ pid q = pid q0 ∧ parent q = parent q0 ∧ children q = children q0) as Hin.
  { intros b q [[<- <-]|[_ Hq]]%lookup_insert_Some; eauto. }
  assert (∀ b q0, heap s !! b = Some q0 →
    ∃ q, <[a := p']> (heap s) !! b = Some q ∧ pid q = pid q0 ∧ parent q = parent q0 ∧ children q = children q0) as Hout.
  { intros b q0 Hq. destruct (decide (a = b)) as [<-|Hne].
    - rewrite lookup_insert_eq. simplify_eq. eauto.
    - rewrite lookup_insert_ne by done. eauto. }
  split; simpl.
  - intros id b (q & Hq & <-)%Ht. destruct (Hout b q Hq) as (q' & ? & ? & _). eauto.
  - intros b q (q0 & Hq & -> & _)%Hin. by apply Hh.
  - intros b q c (q0 & Hq & _ & -> & _)%Hin Hpar. destruct (Hp b q0 c Hq Hpar) as (? & y & Hy & Hby).
    destruct (Hout c y Hy) as (y' & ? & _ & _ & Hch). split; [done|]. exists y'. by rewrite Hch.
  - intros b q c (q0 & Hq & _ & _ & ->)%Hin Hcc. destruct (Hc b q0 c Hq Hcc) as (y & Hy & Hby).
    destruct (Hout c y Hy) as (y' & ? & _ & Hpar & _). exists y'. by rewrite Hpar.
  - intros b q (q0 & Hq & _ & _ & ->)%Hin. by apply (Hn b).
Qed.

Lemma update_usage s id st cpu mem :
  pm_inv s → ∃ s', update s id (λ p, set_usage p (st p) (cpu p) (mem p)) = Some s' ∧ pm_inv s'.
Proof.
  intros Hinv. unfold update. destruct (process_table s !! id) as [a|] eqn:Hid; [|by eauto].
  destruct (pm_table _ Hinv id a Hid) as (p & Ha & _). rewrite Ha. simpl. eexists. split; [done|].
  by eapply relabel_inv.
Qed.

(** A new root. *)
Lemma add_root_inv s id pp :
  pm_inv s → process_table s !! id = None →
  pm_inv {| process_table := <[id := next_addr s]> (process_table s);
            heap := <[next_addr s := set_links (Process_make id pp) None []]> (heap s); next_addr := S (next_addr s) |}.
Proof.
  intros [Ht Hh Hp Hc Hn] Hfresh.
  assert (∀ b q, heap s !! b = Some q → b < next_addr s) as Hlt by (intros b q Hq; by apply (Hh b q)).
  assert (∀ b q, heap s !! b = Some q →
    <[next_addr s := set_links (Process_make id pp) None []]> (heap s) !! b = Some q) as Hout.
  { intros b q Hq. rewrite lookup_insert_ne; [done|]. apply Hlt in Hq. lia. }
  split; simpl.
  - intros id' b [[<- <-]|[_ Hb]]%lookup_insert_Some.
    + rewrite lookup_insert_eq. eauto.
    + destruct (Ht id' b Hb) as (q & Hq & <-). eauto.
  - intros b q [[<- <-]|[_ Hq]]%lookup_insert_Some; simpl.
    + rewrite lookup_insert_eq. split; [done|lia].
    + destruct (Hh b q Hq) as [Hpid ?]. rewrite lookup_insert_ne by congruence. split; [done|lia].
  - intros b q c [[<- <-]|[_ Hq]]%lookup_insert_Some Hpar; [done|].
    destruct (Hp b q c Hq Hpar) as (? & y & Hy & ?). eauto.
  - intros b q c [[<- <-]|[_ Hq]]%lookup_insert_Some Hcc; [by apply elem_of_nil in Hcc|].
    destruct (Hc b q c Hq Hcc) as (y & Hy & ?). eauto.
  - intros b q [[<- <-]|[_ Hq]]%lookup_insert_Some; [constructor|by apply (Hn b)].
Qed.

(** A root [a] without children is hung below an older process. *)
Lemma hang_inv s a p b q :
  pm_inv s → heap s !! a = Some p → parent p = None → heap s !! b = Some q → b < a →
  pm_inv (set_heap s (<[a := set_links p (Some b) (children p)]>
                       (<[b := set_links q (parent q) (children q ++ [a])]> (heap s)))).
Proof.
  intros [Ht Hh Hp Hc Hn] Ha Hroot Hb Hlt. set (h := <[a := _]> _).
  assert (h !! a = Some (set_links p (Some b) (children p))) as Hha by apply lookup_insert_eq.
  assert (h !! b = Some (set_links q (parent q) (children q ++ [a]))) as Hhb.
  { unfold h. rewrite lookup_insert_ne by lia. apply lookup_insert_eq. }
  assert (∀ c, c ≠ a → c ≠ b → h !! c = heap s !! c) as Hne by (intros; unfold h; by rewrite !lookup_insert_ne).
  assert (a ∉ children q) as Hni.
  { intros Hin. destruct (Hc b q a Hb Hin) as (y & Hy & ?). by simplify_eq. }
  assert (∀ c y, h !! c = Some y → ∃ y0, heap s !! c = Some y0 ∧ pid y = pid y0 ∧
    parent y = (if decide (c = a) then Some b else parent y0) ∧
    children y = (if decide (c = b) then children y0 ++ [a] else children y0)) as Hin.
  { intros c y Hy. destruct (decide (c = a)) as [->|]; [|destruct (decide (c = b)) as [->|]].
    - simplify_eq. eexists. rewrite decide_False by lia. eauto.
    - simplify_eq. eauto.
    - rewrite Hne in Hy by done. eauto. }
  assert (∀ c y0, heap s !! c = Some y0 → ∃ y, h !! c = Some y ∧ pid y = pid y0 ∧
    parent y = (if decide (c = a) then Some b else parent y0) ∧
    children y = (if decide (c = b) then children y0 ++ [a] else children y0)) as Hout.
  { intros c y0 Hy. destruct (decide (c = a)) as [->|]; [|destruct (decide (c = b)) as [->|]].
    - simplify_eq. eexists. rewrite decide_False by lia. eauto.
    - simplify_eq. eauto.
    - exists y0. by rewrite Hne. }
  clearbody h. split; simpl.
  - intros id c (y & Hy & <-)%Ht. destruct (Hout c y Hy) as (y' & ? & ? & _). eauto.
  - intros c y (y0 & Hy & -> & _)%Hin. by apply Hh.
  - intros c y d (y0 & Hy & _ & -> & _)%Hin Hpar. destruct (decide (c = a)) as [->|Hca].
    + simplify_eq. split; [done|]. eexists. split; [done|]. simpl. apply elem_of_app. right. by left.
    + destruct (Hp c y0 d Hy Hpar) as (? & z & Hz & Hcz). destruct (Hout d z Hz) as (z' & ? & _ & _ & Hch).
      split; [done|]. exists z'. split; [done|]. rewrite Hch. case_decide; [apply elem_of_app; by left|done].
  - intros c y d (y0 & Hy & _ & _ & ->)%Hin Hd. destruct (decide (c = b ∧ d = a)) as [[-> ->]|Hcd]; [by eauto|].
    assert (d ∈ children y0) as Hd0.
    { case_decide; [|done]. apply elem_of_app in Hd as [?|?%list_elem_of_singleton]; [done|]. subst. tauto. }
    destruct (Hc c y0 d Hy Hd0) as (z & Hz & Hpz). destruct (Hout d z Hz) as (z' & ? & _ & Hpar & _).
    exists z'. split; [done|]. rewrite Hpar. case_decide; [|done]. subst. by simplify_eq.
  - intros c y (y0 & Hy & _ & _ & ->)%Hin. pose proof (Hn c y0 Hy). case_decide; [|done]. subst. simplify_eq.
    apply NoDup_app. split; [done|]. split; [|apply NoDup_singleton]. by intros x Hx ->%list_elem_of_singleton.
Qed.

Lemma add_inv s id pp :
  pm_inv s → process_table s !! id = None → ∃ s', addProcess s id pp = Some s' ∧ pm_inv s'.
Proof.
  intros Hinv Hfresh. unfold addProcess. pose proof (add_root_inv s id pp Hinv Hfresh) as Hroot.
  destruct (process_table s !! pp) as [b|] eqn:Hpp; [|by eauto].
  destruct (pm_table _ Hinv pp b Hpp) as (q & Hb & Hq). rewrite Hb. simpl. eexists. split; [done|].
  destruct (pm_heap _ Hinv b q Hb) as [_ Hlt].
  eapply (hang_inv _ (next_addr s) _ b q) in Hroot; [|apply lookup_insert_eq|done| |done].
  - unfold set_heap in Hroot. simpl in Hroot. rewrite insert_insert_ne, insert_insert_eq in Hroot by lia.
    rewrite insert_insert_ne in Hroot by lia. exact Hroot.
  - simpl. by rewrite lookup_insert_ne by lia.
Qed.

(** ** Histories *)

Inductive PMop :=
  | Add (id ppid : Z)
  | UpdateState (id : Z) (st : ProcessState)
  | UpdateCpuTime (id cpu : Z)
  | UpdateMemoryUsage (id mem : Z)
  | SetState (id : Z) (st : ProcessState)
  | Remove (id : Z)
  | Kill (id : Z).

(** Addresses grow from parent to child, so their number bounds the depth. *)
Definition kill (s : ProcessManager) (id : Z) : option ProcessManager := killProcess (S (next_addr s)) s id.

Definition pm_step (s : ProcessManager) (o : PMop) : option ProcessManager :=
  match o with
  | Add id ppid => addProcess s id ppid
  | UpdateState id st => updateState s id st
  | UpdateCpuTime id cpu => updateCpuTime s id cpu
  | UpdateMemoryUsage id mem => updateMemoryUsage s id mem
  | SetState id st => setState s id st
  | Remove id => removeProcess s id
  | Kill id => kill s id
  end.

(** The code has no check against reusing a live pid, and [removeProcess] none
    against live children: a caller has to see to both. *)
Definition pm_legal (s : ProcessManager) (o : PMop) : bool :=
  match o with
  | Add id _ => bool_decide (process_table s !! id = None)
  | Remove id => bool_decide (getChildren s id = Some [])
  | _ => true
  end.

Inductive pm_reachable : ProcessManager → Prop :=
  | pm_start : pm_reachable ProcessManager_make
  | pm_next s o s' : pm_reachable s → pm_legal s o = true → pm_step s o = Some s' → pm_reachable s'.

Fixpoint pm_run (s : ProcessManager) (os : list PMop) : option ProcessManager :=
  match os with
  | [] => Some s
  | o :: os => s ← pm_step s o; pm_run s os
  end.

Fixpoint legal_run (s : ProcessManager) (os : list PMop) : bool :=
  match os with
  | [] => true
  | o :: os => pm_legal s o && match pm_step s o with Some s => legal_run s os | None => false end
  end.

Lemma run_reachable s os s' :
  pm_reachable s → legal_run s os = true → pm_run s os = Some s' → pm_reachable s'.
Proof.
  revert s. induction os as [|o os IH]; simpl; intros s Hr Hl Hs; [by simplify_eq|].
  apply andb_true_iff in Hl as [Ho Hl]. destruct (pm_step s o) as [s1|] eqn:E; [|done].
  apply (IH s1); [by eapply pm_next|done|done].
Qed.

Lemma kill_inv s id :
  pm_inv s → ∃ D, kill s id = Some (remove_all D s) ∧ pm_inv (remove_all D s) ∧
    ∀ b, b ∈ D ↔ ∃ a, process_table s !! id = Some a ∧ below (heap s) a b.
Proof.
  intros Hinv. destruct (process_table s !! id) as [a|] eqn:Hid.
  - destruct (killProcess_spec (S (next_addr s)) s id a) as (D & Hk & HD); [done..|lia|].
    assert (∀ b, b ∈ D ↔ ∃ c, c = a ∧ below (heap s) c b) as HD' by (intros b; rewrite HD; naive_solver).
    exists D. split; [done|]. split; [|naive_solver].
    eapply remove_inv, (below_closed s D (λ c, c = a)); done.
  - exists ∅. rewrite remove_none. unfold kill. simpl. unfold getProcess. rewrite Hid. split; [done|].
    split; [done|]. set_solver.
Qed.

Lemma step_inv s o : pm_inv s → pm_legal s o = true → ∃ s', pm_step s o = Some s' ∧ pm_inv s'.
Proof.
  intros Hinv Hok. destruct o as [id pp|id st|id cpu|id mem|id st|id|id]; simpl in *.
  - apply add_inv; [done|]. by apply bool_decide_eq_true in Hok.
  - by apply update_usage.
  - by apply update_usage.
  - by apply update_usage.
  - by apply update_usage.
  - apply bool_decide_eq_true in Hok. unfold getChildren, removeProcess in *.
    destruct (process_table s !! id) as [a|] eqn:Hid; [|by eauto].
    destruct (pm_table _ Hinv id a Hid) as (p & Ha & <-). rewrite Ha in Hok. simpl in Hok. simplify_eq.
    rewrite (detach_spec s a p) by done. eexists. split; [done|]. apply remove_inv; [done|].
    intros b q c Hb Hpar ->%elem_of_singleton. destruct (pm_parent _ Hinv b q a Hb Hpar) as (_ & y & Hy & Hin).
    simplify_eq. rewrite Hok in Hin. by apply elem_of_nil in Hin.
  - destruct (kill_inv s id Hinv) as (D & ? & ? & _). eauto.
Qed.

Lemma start_inv : pm_inv ProcessManager_make.
Proof. by split. Qed.

Lemma reachable_inv s : pm_reachable s → pm_inv s.
Proof.
  induction 1 as [|s o s' _ IH Hok Hs]; [apply start_inv|].
  destruct (step_inv s o IH Hok) as (s'' & ? & ?). by simplify_eq.
Qed.

(** In every state reached by creating processes under fresh pids, updating them,
    removing leaves and killing subtrees, no legal call touches a deleted process, and
    [killProcess] terminates and removes exactly the process and its descendants: every
    other pid keeps its object, whose only change is that killed children left its
    list. *)
Theorem process_kill_subtree s :
  pm_reachable s →
  (∀ o, pm_legal s o = true → is_Some (pm_step s o)) ∧
  ∀ id, ∃ s', kill s id = Some s' ∧
    (∀ id' b, process_table s' !! id' = Some b ↔
       process_table s !! id' = Some b ∧ ¬ ∃ a, process_table s !! id = Some a ∧ below (heap s) a b) ∧
    (∀ b q, heap s' !! b = Some q →
       ∃ p, heap s !! b = Some p ∧
         q = set_links p (parent p) (filter (λ c, is_Some (heap s' !! c)) (children p))).
Proof.
  intros Hr%reachable_inv. split.
  { intros o Hok. destruct (step_inv s o Hr Hok) as (s' & -> & _). done. }
  intros id. destruct (kill_inv s id Hr) as (D & Hk & _ & HD). exists (remove_all D s). split; [done|]. split.
  - intros id' b. by rewrite table_remove, HD.
  - intros b q Hq. rewrite heap_remove in Hq. case_decide; [done|]. apply fmap_Some in Hq as (p & Hp & ->).
    exists p. split; [done|]. unfold prune. f_equal. apply filter_agree.
    intros c Hc. rewrite heap_remove. destruct (pm_children _ Hr b p c Hp Hc) as (y & Hy & _). rewrite Hy.
    case_decide; simpl; split; done.
Qed.

Lemma process_kill_subtree_witness :
  ∃ s s', pm_run ProcessManager_make [Add 1 (-1); Add 2 1; Add 3 2; Add 4 1; SetState 3 RUNNING; Add 5 3] = Some s ∧
    kill s 2 = Some s' ∧ process_table s' = {[1%Z := 0; 4%Z := 3]} ∧ getChildren s' 1 = Some [3].
Proof.
  eexists. destruct (process_kill_subtree _
    (run_reachable _ [Add 1 (-1); Add 2 1; Add 3 2; Add 4 1; SetState 3 RUNNING; Add 5 3] _
       pm_start eq_refl eq_refl)) as [_ Hk].
  destruct (Hk 2%Z) as (s' & Hs' & _). exists s'. split; [reflexivity|]. split; [exact Hs'|].
  vm_compute in Hs'. injection Hs' as <-. split; vm_compute; reflexivity.
Defined.

(** [removeProcess] leaves the children of the removed process with a parent
    pointer to the deleted object: whatever the manager held, if a process [q] has a
    parent object [a] and the parent is removed, then removing or killing the childless
    [q] afterwards reads freed memory. *)
Theorem remove_parent_dangles s id a cid c q s' :
  pm_reachable s → process_table s !! id = Some a → process_table s !! cid = Some c →
  heap s !! c = Some q → parent q = Some a → children q = [] →
  removeProcess s id = Some s' → removeProcess s' cid = None ∧ kill s' cid = None.
Proof.
  intros Hr%reachable_inv Hid Hcid Hc Hpar Hleaf Hrm. unfold removeProcess in Hrm. rewrite Hid in Hrm.
  destruct (pm_table _ Hr id a Hid) as (p & Ha & Hpid). destruct (pm_parent _ Hr c q a Hc Hpar) as [Hlt _].
  destruct (pm_table _ Hr cid c Hcid) as (q' & Hq' & Hqid). simplify_eq.
  assert (pid p ≠ pid q) as Hne.
  { intros E. destruct (pm_heap _ Hr a p Ha) as [E1 _]. rewrite E, Hcid in E1. injection E1 as ->. lia. }
  assert (process_table s' !! pid q = Some c ∧ heap s' !! c = Some q ∧ heap s' !! a = None) as (Ht' & Hc' & Ha').
  { unfold detach in Hrm. rewrite Ha in Hrm. simpl in Hrm. destruct (parent p) as [pa|] eqn:Hpp; simpl in Hrm.
    - destruct (pm_parent _ Hr a p pa Ha Hpp) as (Hlt2 & y & Hy & _). rewrite Hy in Hrm. simpl in Hrm. simplify_eq.
      simpl. rewrite lookup_delete_ne, lookup_delete_ne, lookup_insert_ne, lookup_delete_eq by (done || lia). done.
    - simplify_eq. simpl. rewrite lookup_delete_ne, lookup_delete_ne, lookup_delete_eq by (done || lia). done. }
  unfold removeProcess, kill, killProcess, getProcess, detach. rewrite Ht', Hc'. simpl. rewrite Hpar, Ha'.
  split; [done|]. rewrite Hleaf. simpl. rewrite Hc'. simpl. rewrite lookup_insert_eq. simpl. rewrite Hpar.
  rewrite lookup_insert_ne by lia. by rewrite Ha'.
Qed.

Lemma remove_parent_dangles_witness :
  ∃ s s', pm_run ProcessManager_make [Add 1 (-1); Add 2 1] = Some s ∧ removeProcess s 1 = Some s' ∧
    removeProcess s' 2 = None ∧ kill s' 2 = None.
Proof.
  eexists _, _. split; [reflexivity|]. split; [reflexivity|].
  eapply (remove_parent_dangles _ 1 0 2 1).
  - exact (run_reachable _ [Add 1 (-1); Add 2 1] _ pm_start eq_refl eq_refl).
  - reflexivity.
  - reflexivity.
  - reflexivity.
  - reflexivity.
  - reflexivity.
  - reflexivity.
Defined.

(** ** Printing a tree *)

(** [printTree]: the lines printed, as depth and pid; [fuel] bounds the depth of the
    recursion. *)
Fixpoint printTree (fuel : nat) (s : ProcessManager) (root : option nat) (depth : nat) : option (list (nat * Z)) :=
  match root with
  | None => Some []
  | Some a =>
      match fuel with
      | O => None
      | S fuel =>
          p ← heap s !! a;
          lines ← mapM (λ child, printTree fuel s (Some child) (S depth)) (children p);
          Some ((depth, pid p) :: concat lines)
      end
  end.

(** [b] is [n] levels below [a]. *)
Inductive level (h : gmap nat Process) (a : nat) : nat → nat → Prop :=
  | level_self p : h !! a = Some p → level h a a 0
  | level_child b c p n : level h a b n → h !! c = Some p → parent p = Some b → level h a c (S n).

Lemma level_below h a b n : level h a b n → below h a b.
Proof. induction 1; by econstructor. Qed.

Lemma level_trans h a b c n m : level h a b n → level h b c m → level h a c (n + m).
Proof. intros Hab. induction 1 as [|b0 c p m _ IH Hc Hp]; [by rewrite Nat.add_0_r|]. rewrite Nat.add_succ_r. by eapply level_child. Qed.

Section print.
Context (s : ProcessManager) (Hinv : pm_inv s).

Lemma level_unfold a p b n :
  heap s !! a = Some p → level (heap s) a b n ↔ (b = a ∧ n = 0) ∨ ∃ c m, c ∈ children p ∧ level (heap s) c b m ∧ n = S m.
Proof.
  intros Ha. split.
  - induction 1 as [q Hq|b c q n Hb IH Hc Hpar]; [by left|right]. destruct IH as [[-> ->]|(c0 & m & Hc0 & Hb0 & ->)].
    + exists c, 0. destruct (pm_parent _ Hinv c q a Hc Hpar) as (_ & y & Hy & Hin). simplify_eq. split_and!; [done|by econstructor|done].
    + exists c0, (S m). split_and!; [done|by econstructor|done].
  - intros [[-> ->]|(c & m & Hc & Hb & ->)]; [by econstructor|]. destruct (pm_children _ Hinv a p c Ha Hc) as (q & Hq & Hpar).
    apply (level_trans _ a c b 1 m); [|done]. eapply level_child; [by econstructor|done..].
Qed.

(** The lines for the tree below an address: one for each process, at its depth. *)
Definition tree_lines (a depth : nat) (l : list (nat * Z)) : Prop :=
  NoDup l.*2 ∧ ∀ d id, (d, id) ∈ l ↔ ∃ b q n, level (heap s) a b n ∧ heap s !! b = Some q ∧ pid q = id ∧ d = depth + n.

Lemma pid_inj a b p q : heap s !! a = Some p → heap s !! b = Some q → pid p = pid q → a = b.
Proof. intros Ha Hb E. destruct (pm_heap _ Hinv a p Ha) as [Ta _]. destruct (pm_heap _ Hinv b q Hb) as [Tb _]. rewrite E in Ta. by simplify_eq. Qed.

Lemma children_lines a p (f : nat → option (list (nat * Z))) depth cs :
  heap s !! a = Some p → NoDup cs → (∀ c, c ∈ cs → c ∈ children p) → (∀ c, c ∈ cs → ∃ l, f c = Some l ∧ tree_lines c depth l) →
  ∃ ls, mapM f cs = Some ls ∧ NoDup (concat ls).*2 ∧
    ∀ d id, (d, id) ∈ concat ls ↔ ∃ c b q n, c ∈ cs ∧ level (heap s) c b n ∧ heap s !! b = Some q ∧ pid q = id ∧ d = depth + n.
Proof.
  intros Ha. induction cs as [|c cs IH]; intros Hnd Hin Hf.
  { exists []. split; [done|]. split; [constructor|]. intros d id. split; [by intros ?%elem_of_nil|]. by intros (c & b & q & n & ?%elem_of_nil & _). }
  apply NoDup_cons in Hnd as [Hc Hnd]. destruct (Hf c) as (l & Hl & Hnl & Hsl); [by left|].
  destruct IH as (ls & Hls & Hnls & Hsls); [done|intros; apply Hin; by right|intros; apply Hf; by right|].
  exists (l :: ls). split; [simpl; rewrite Hl; simpl; by rewrite Hls|]. cbn [concat]. split.
  - rewrite fmap_app. apply NoDup_app. split; [done|]. split; [|done].
    intros id ([d id1] & -> & H1)%list_elem_of_fmap ([d' id'] & E & H2)%list_elem_of_fmap. simpl in E. subst id'.
    apply Hsl in H1 as (b & q & n & Hb & Hq & <- & _). apply Hsls in H2 as (c' & b' & q' & n' & Hc' & Hb' & Hq' & Hid & _).
    assert (b' = b) as -> by (by eapply pid_inj). apply Hc. rewrite (siblings_disjoint s Hinv a p c c' b); [done|done|apply Hin; by left|apply Hin; by right|by eapply level_below..].
  - intros d id. rewrite elem_of_app, Hsl, Hsls. split.
    + intros [(b & q & n & ?)|(c' & b & q & n & ? & ?)]; [exists c, b, q, n|exists c', b, q, n]; (split; [|done]); by constructor.
    + intros (c' & b & q & n & [->|Hc']%elem_of_cons & H); [left; by exists b, q, n|right; by exists c', b, q, n].
Qed.

Lemma printTree_lines fuel a p depth :
  heap s !! a = Some p → next_addr s - a ≤ fuel → ∃ l, printTree fuel s (Some a) depth = Some l ∧ tree_lines a depth l.
Proof.
  revert a p depth. induction fuel as [|fuel IH]; intros a p depth Ha Hfuel; destruct (pm_heap _ Hinv a p Ha) as [_ Hlt]; [lia|]. cbn [printTree]. rewrite Ha. cbn [mbind option_bind].
  destruct (children_lines a p (λ child, printTree fuel s (Some child) (S depth)) (S depth) (children p)) as (ls & -> & Hnd & Hls); [done|by apply (pm_nodup _ Hinv a)|done| |].
  { intros c Hc. destruct (pm_children _ Hinv a p c Ha Hc) as (q & Hq & Hpar). apply (IH c q); [done|]. pose proof (parent_lt s Hinv c q a Hq Hpar). lia. }
  cbn [mbind option_bind]. eexists. split; [done|]. split.
  - rewrite fmap_cons. apply NoDup_cons. split; [|done]. intros ([d id] & E & Hin)%list_elem_of_fmap. simpl in E. subst id.
    apply Hls in Hin as (c & b & q & n & Hc & Hb & Hq & E & _). assert (b = a) as -> by (by eapply pid_inj). apply level_below, below_le in Hb; [|apply parent_lt, Hinv].
    destruct (pm_children _ Hinv a p c Ha Hc) as (y & Hy & Hpar). pose proof (parent_lt s Hinv c y a Hy Hpar). lia.
  - intros d id. rewrite elem_of_cons, Hls. split.
    + intros [[= -> ->]|(c & b & q & n & Hc & Hb & Hq & E & ->)].
      * exists a, p, 0. split_and!; [by econstructor|done|done|lia].
      * exists b, q, (S n). split_and!; [apply (level_unfold a p b _ Ha); right; by exists c, n|done|done|lia].
    + intros (b & q & n & Hb & Hq & <- & ->). apply (level_unfold a p b n Ha) in Hb as [[-> ->]|(c & m & Hc & Hb & ->)].
      * left. simplify_eq. f_equal. lia.
      * right. exists c, b, q, m. split_and!; [done..|lia].
Qed.
End print.

(** In every reachable state [printTree] of a process returns, and prints one line for each
    process of its subtree, indented by its distance from the root. *)
Theorem print_tree_complete s id a :
  pm_reachable s → getProcess s id = Some a → ∃ l, printTree (next_addr s) s (Some a) 0 = Some l ∧ tree_lines s a 0 l.
Proof.
  intros Hr%reachable_inv Ha. destruct (pm_table _ Hr id a Ha) as (p & Hp & _). apply (printTree_lines s Hr _ a p); [done|lia].
Qed.

Example print_tree_demo :
  (s ← pm_run ProcessManager_make [Add 1 (-1); Add 2 1; Add 3 2; Add 4 1; Add 5 3]; printTree (next_addr s) s (getProcess s 1) 0) =
  Some [(0, 1%Z); (1, 2%Z); (2, 3%Z); (3, 5%Z); (1, 4%Z)].
Proof. vm_compute. reflexivity. Qed.
