(* ===== verification/MVCC.v ===== *)
(** * Multi-version rows

    [src/storage/MVCCvisibility.cpp]: a row keeps all its versions, each with the
    interval of timestamps at which it is visible; a snapshot read finds its version by
    binary search.  The search is compared with the definition of the snapshot, the
    last write at or before the timestamp. *)
From S2P Require Import Prelude.
Local Open Scope string_scope.
Local Open Scope list_scope.
Local Open Scope Z_scope.

Record RowVersion := { value : string; beginTimestamp : Z; endTimestamp : Z }.

Abbreviation MVCC_Row := (list RowVersion).

(** [versions.back().endTimestamp = ts] *)
Definition close_version (ts : Z) (v : RowVersion) : RowVersion :=
  {| value := value v; beginTimestamp := beginTimestamp v; endTimestamp := ts |}.

Definition write (versions : MVCC_Row) (v : string) (txnTimestamp : Z) : MVCC_Row :=
  alter (close_version txnTimestamp) (length versions - 1)%nat versions ++
  [{| value := v; beginTimestamp := txnTimestamp; endTimestamp := INT_MAX |}].

(** The loop of [read]; [None] stands for an access out of range, or for [fuel] run
    out. *)
Fixpoint search (fuel : nat) (versions : MVCC_Row) (txnTimestamp lo hi candidate : Z) : option Z :=
  match fuel with
  | O => None
  | S fuel =>
      if lo <=? hi then
        let mid := lo + Z.quot (hi - lo) 2 in
        v ← vget versions mid;
        if txnTimestamp <? beginTimestamp v then search fuel versions txnTimestamp lo (mid - 1) candidate
        else search fuel versions txnTimestamp (mid + 1) hi mid
      else Some candidate
  end.

Definition NOT_VISIBLE : string := "NOT VISIBLE!".

(** [versions.size() - 1] is computed in [size_t] and converted to [int]. *)
Definition read (versions : MVCC_Row) (txnTimestamp : Z) : option string :=
  candidate ← search (S (length versions)) versions txnTimestamp 0 (int32 (to_size_t (length versions - 1))) (-1);
  if candidate =? -1 then Some NOT_VISIBLE
  else
    v ← vget versions candidate;
    Some (if txnTimestamp <? endTimestamp v then value v else NOT_VISIBLE).

(** ** The search *)

Lemma search_spec (fuel : nat) (versions : MVCC_Row) ts lo hi candidate (n : nat) :
  (∀ i v, versions !! i = Some v → beginTimestamp v ≤ ts ↔ (i < n)%nat) →
  0 ≤ lo → lo ≤ n ≤ hi + 1 → hi < length versions → candidate = lo - 1 → hi - lo + 1 < fuel →
  search fuel versions ts lo hi candidate = Some (n - 1).
Proof.
  intros Hn. revert lo hi candidate. induction fuel as [|fuel IH]; intros lo hi cand H0 Hrange Hhi Hc Hfuel; [lia|].
  cbn [search]. destruct (Z.leb_spec lo hi) as [Hle|Hgt]; [|f_equal; lia].
  assert (0 ≤ Z.quot (hi - lo) 2 ≤ hi - lo) as Hq.
  { rewrite Z.quot_div_nonneg by lia. split; [apply Z.div_pos; lia|apply Z.div_le_upper_bound; lia]. }
  destruct (vget_in versions (lo + Z.quot (hi - lo) 2)) as (v & -> & Hv); [lia|]. cbn [mbind option_bind].
  specialize (Hn _ _ Hv). destruct (Z.ltb_spec ts (beginTimestamp v)); apply IH; lia.
Qed.

(** ** Histories *)

Definition run_writes (ws : list (string * Z)) : MVCC_Row := foldl (λ vs w, write vs w.1 w.2) [] ws.

(** The [i]th write is visible from its own timestamp to that of the next one. *)
Definition version_at (ws : list (string * Z)) (i : nat) (w : string * Z) : RowVersion :=
  {| value := w.1; beginTimestamp := w.2; endTimestamp := default INT_MAX (snd <$> ws !! S i) |}.

Lemma run_writes_lookup ws i : run_writes ws !! i = version_at ws i <$> ws !! i.
Proof.
  revert i. induction ws as [|w ws IH] using rev_ind; intros i; [done|].
  unfold run_writes in *. rewrite foldl_snoc. set (vs := foldl _ _ ws) in *.
  assert (length vs = length ws) as Hlen.
  { destruct (Nat.lt_trichotomy (length vs) (length ws)) as [Hlt|[?|Hlt]]; [exfalso|done|exfalso].
    - destruct (lookup_lt_is_Some_2 ws (length vs) Hlt) as [x Hx].
      pose proof (IH (length vs)) as E. rewrite Hx, lookup_ge_None_2 in E by lia. done.
    - destruct (lookup_lt_is_Some_2 vs (length ws) Hlt) as [x Hx].
      pose proof (IH (length ws)) as E. rewrite Hx, lookup_ge_None_2 in E by lia. done. }
  unfold write. destruct (decide (i < length ws)%nat) as [Hi|Hi].
  - rewrite lookup_app_l, (lookup_app_l ws) by (rewrite ?length_alter; lia).
    destruct (lookup_lt_is_Some_2 ws i Hi) as [x Hx]. rewrite Hx.
    destruct (decide (i = length vs - 1)%nat) as [->|Hne].
    + rewrite list_lookup_alter_eq, IH, Hx. simpl. f_equal. unfold close_version, version_at. simpl. f_equal.
      rewrite lookup_app_r, Hlen by lia. by replace (S (length ws - 1) - length ws)%nat with 0%nat by lia.
    + rewrite list_lookup_alter_ne, IH, Hx by lia. simpl. f_equal. unfold version_at. f_equal.
      by rewrite lookup_app_l by lia.
  - destruct (decide (i = length ws)) as [->|].
    + rewrite lookup_app_r by (rewrite length_alter; lia). rewrite lookup_app_r by lia.
      rewrite length_alter, Hlen, Nat.sub_diag. simpl. f_equal. unfold version_at.
      by rewrite lookup_ge_None_2 by (rewrite length_app; simpl; lia).
    + rewrite !lookup_ge_None_2; [done|rewrite length_app; simpl; lia|rewrite length_app, length_alter; simpl; lia].
Qed.

Lemma run_writes_length ws : length (run_writes ws) = length ws.
Proof.
  induction ws as [|w ws IH] using rev_ind; [done|]. unfold run_writes, write in *.
  by rewrite foldl_snoc, !length_app, length_alter, IH.
Qed.

(** ** Snapshots *)

Definition by_time (w w' : string * Z) : Prop := w.2 ≤ w'.2.

(** The last write at or before [ts]. *)
Definition snapshot (ws : list (string * Z)) (ts : Z) : option string :=
  fst <$> last (filter (λ w, w.2 ≤ ts) ws).

Lemma snapshot_prefix ws ts :
  StronglySorted by_time ws →
  let n := length (filter (λ w, w.2 ≤ ts) ws) in
  filter (λ w, w.2 ≤ ts) ws = take n ws ∧ ∀ i w, ws !! i = Some w → w.2 ≤ ts ↔ (i < n)%nat.
Proof.
  induction 1 as [|w ws Hs IH Hall]; [done|]. simpl in IH. destruct IH as [IH1 IH2]. simpl. rewrite filter_cons.
  destruct (decide (w.2 ≤ ts)) as [Hle|Hgt]; simpl.
  - rewrite <-IH1. split; [done|]. intros [|i] w' Hw; simpl in Hw; simplify_eq; [lia|].
    rewrite (IH2 i w' Hw). lia.
  - assert (filter (λ w, w.2 ≤ ts) ws = []) as Hnil.
    { apply elem_of_nil_inv. intros w' [Hw Hin]%list_elem_of_filter. rewrite Forall_forall in Hall.
      specialize (Hall w' Hin). unfold by_time in Hall. lia. }
    rewrite Hnil in *. simpl in *. split; [done|]. intros [|i] w' Hw; simpl in Hw; simplify_eq; [lia|].
    rewrite (IH2 i w' Hw). lia.
Qed.

Lemma read_snapshot ws ts :
  StronglySorted by_time ws → length ws ≤ INT_MAX → ts < INT_MAX →
  read (run_writes ws) ts = Some (default NOT_VISIBLE (snapshot ws ts)).
Proof.
  intros Hs Hlen Hts. destruct (snapshot_prefix ws ts Hs) as [Htake Hn].
  unfold read, snapshot. rewrite run_writes_length. rewrite Htake. set (n := length (filter _ ws)) in *.
  assert (n ≤ length ws)%nat as Hle by apply length_filter.
  assert (int32 (to_size_t (length ws - 1)) = length ws - 1) as ->.
  { destruct ws; [done|]. cbn [length] in *. rewrite to_size_t_id, int32_id; int_bounds. }
  rewrite (search_spec _ _ ts _ _ _ n); [|..|lia|lia|rewrite run_writes_length; lia|lia|lia].
  2:{ intros i v Hv. rewrite run_writes_lookup in Hv. apply fmap_Some in Hv as (w & Hw & ->). by apply Hn. }
  cbn [mbind option_bind]. destruct n as [|m] eqn:En; [done|]. replace (S m - 1) with (Z.of_nat m) by lia.
  destruct (Z.eqb_spec m (-1)); [lia|]. rewrite vget_of_nat, run_writes_lookup.
  destruct (lookup_lt_is_Some_2 ws m) as [w Hw]; [lia|]. rewrite Hw, (take_S_r _ _ _ Hw), last_snoc. simpl.
  destruct (ws !! S m) as [w'|] eqn:Hw'; simpl.
  - pose proof (Hn _ _ Hw'). destruct (Z.ltb_spec ts w'.2); [done|]. lia.
  - by destruct (Z.ltb_spec ts INT_MAX); [|lia].
Qed.

(** C14: A row written at non-decreasing timestamps answers a read at any timestamp
    before [INT_MAX] with the last write at or before it, or "NOT VISIBLE!" when there
    is none: the binary search terminates, stays inside the vector and agrees with the
    definition of the snapshot.  Writes at later timestamps never change the answer. *)
Theorem mvcc_snapshot_read ws later ts :
  StronglySorted by_time (ws ++ later) → length (ws ++ later) ≤ INT_MAX → ts < INT_MAX →
  Forall (λ w, ts < w.2) later →
  read (run_writes ws) ts = Some (default NOT_VISIBLE (snapshot ws ts)) ∧
  read (run_writes (ws ++ later)) ts = read (run_writes ws) ts.
Proof.
  intros Hs Hlen Hts Hlater. rewrite (read_snapshot (ws ++ later)) by done.
  assert (StronglySorted by_time ws) as Hs1.
  { clear -Hs. induction ws as [|w ws IH]; [constructor|]. inversion Hs as [|? ? Hs' Hall]; subst. constructor; [by apply IH|].
    by apply Forall_app in Hall as [? _]. }
  rewrite length_app in Hlen. rewrite read_snapshot by (done || lia). split; [done|]. do 2 f_equal.
  unfold snapshot. rewrite filter_app.
  assert (filter (λ w : string * Z, w.2 ≤ ts) later = []) as ->; [|by rewrite app_nil_r].
  apply elem_of_nil_inv. intros w [? Hin]%list_elem_of_filter. rewrite Forall_forall in Hlater.
  specialize (Hlater w Hin). lia.
Qed.

Lemma mvcc_snapshot_read_witness :
  read (run_writes [("v1", 10); ("v2", 20); ("v3", 20)]) 25 = Some "v3" ∧
  read (run_writes ([("v1", 10); ("v2", 20); ("v3", 20)] ++ [("v4", 40)])) 25 = Some "v3".
Proof.
  destruct (mvcc_snapshot_read [("v1", 10); ("v2", 20); ("v3", 20)] [("v4", 40)] 25) as [H1 H2].
  - repeat constructor; unfold by_time; simpl; lia.
  - unfold INT_MAX. simpl. lia.
  - unfold INT_MAX. lia.
  - repeat constructor.
  - rewrite H2, H1. split; reflexivity.
Defined.
