(* ===== verification/Allocator.v ===== *)
(** * First-fit memory allocator

    [src/algorithms/DynamicMemeoryAllocator.cpp]: free and allocated blocks are kept in
    two ordered maps from start address to size; an allocation takes the first free
    block that is large enough, and a released block is merged with the free blocks
    next to it.  [std::map] is an association list in key order where the code walks
    it ([available]) and a finite map where it only looks keys up ([allocated]).

    The two maps are refined to one list of segments that tiles the memory. *)
From S2P Require Import Prelude.
Local Open Scope Z_scope.
Local Open Scope cpp_scope.

(** ** Ordered maps *)

(** [m[k] = v] *)
Fixpoint map_set (k v : Z) (m : list (Z * Z)) : list (Z * Z) :=
  match m with
  | [] => [(k, v)]
  | (k', v') :: m' =>
      if k <? k' then (k, v) :: m else if k =? k' then (k, v) :: m' else (k', v') :: map_set k v m'
  end.

(** [m.erase(find(k))] *)
Definition map_erase (k : Z) (m : list (Z * Z)) : list (Z * Z) := filter (λ e, e.1 ≠ k) m.

(** [m.find(k)] as a position: what is before it, its value, what is after it. *)
Fixpoint locate (k : Z) (m : list (Z * Z)) : option (list (Z * Z) * Z * list (Z * Z)) :=
  match m with
  | [] => None
  | (k', v') :: m =>
      if k' =? k then Some ([], v', m)
      else '(before, v, after) ← locate k m; Some ((k', v') :: before, v, after)
  end.

Definition keys_below (k : Z) (m : list (Z * Z)) : Prop := Forall (λ e, e.1 < k) m.
Definition keys_above (k : Z) (m : list (Z * Z)) : Prop := Forall (λ e, k < e.1) m.

Lemma map_set_mid k v m1 m2 : keys_below k m1 → keys_above k m2 → map_set k v (m1 ++ m2) = m1 ++ (k, v) :: m2.
Proof.
  induction 1 as [|[k' v'] m1 Hk _ IH]; intros Hm2; simpl.
  - destruct m2 as [|[k' v'] m2]; [done|]. simpl. apply Forall_cons in Hm2 as [Hk _]. simpl in Hk.
    by destruct (Z.ltb_spec k k'); [|lia].
  - simpl in Hk. destruct (Z.ltb_spec k k'); [lia|]. destruct (Z.eqb_spec k k'); [lia|]. by rewrite IH.
Qed.

Lemma map_erase_mid k v m1 m2 : keys_below k m1 → keys_above k m2 → map_erase k (m1 ++ (k, v) :: m2) = m1 ++ m2.
Proof.
  intros H1 H2. unfold map_erase. rewrite filter_app, filter_cons, decide_False by (simpl; tauto). f_equal.
  - apply filter_all. eapply Forall_impl; [done|]. simpl. lia.
  - apply filter_all. eapply Forall_impl; [done|]. simpl. lia.
Qed.

Lemma locate_mid k v m1 m2 : keys_below k m1 → locate k (m1 ++ (k, v) :: m2) = Some (m1, v, m2).
Proof.
  induction 1 as [|[k' v'] m1 Hk _ IH]; simpl; [by rewrite Z.eqb_refl|].
  simpl in Hk. destruct (Z.eqb_spec k' k); [lia|]. by rewrite IH.
Qed.

(** ** The allocator *)

Record DynamicMemoryAllocator := { available : list (Z * Z); allocated : gmap Z Z }.

Definition DynamicMemoryAllocator_make (TotalMemory : Z) : DynamicMemoryAllocator :=
  {| available := [(0, TotalMemory)]; allocated := ∅ |}.

Fixpoint first_fit (requested_size : Z) (m : list (Z * Z)) : option (Z * Z) :=
  match m with
  | [] => None
  | (block_start, block_size) :: m =>
      if requested_size <=? block_size then Some (block_start, block_size) else first_fit requested_size m
  end.

Definition custom_malloc (a : DynamicMemoryAllocator) (requested_size : Z) : option (DynamicMemoryAllocator * Z) :=
  match first_fit requested_size (available a) with
  | None => Some (a, -1)
  | Some (block_start, block_size) =>
      let av := map_erase block_start (available a) in
      let al := <[block_start := requested_size]> (allocated a) in
      if requested_size <? block_size then
        rest_start ← block_start +! requested_size;
        rest_size ← block_size -! requested_size;
        Some ({| available := map_set rest_start rest_size av; allocated := al |}, block_start)
      else Some ({| available := av; allocated := al |}, block_start)
  end.

(** The block at the position [(before, (start, size), after)] absorbs its successor. *)
Definition merge_next (start size : Z) (after : list (Z * Z)) : option (Z * list (Z * Z)) :=
  match after with
  | [] => Some (size, [])
  | (k, n) :: rest =>
      e ← start +! size;
      if e =? k then size ← size +! n; Some (size, rest) else Some (size, after)
  end.

(** The block before the position absorbs it. *)
Definition merge_prev (before : list (Z * Z)) (start size : Z) : option (list (Z * Z)) :=
  match last before with
  | None => Some [(start, size)]
  | Some (k, n) =>
      e ← k +! n;
      if e =? start then n ← n +! size; Some (removelast before ++ [(k, n)])
      else Some (before ++ [(start, size)])
  end.

Definition custom_free (a : DynamicMemoryAllocator) (address : Z) : option DynamicMemoryAllocator :=
  match allocated a !! address with
  | None => Some a
  | Some block_size =>
      let al := delete address (allocated a) in
      '(before, size, after) ← locate address (map_set address block_size (available a));
      '(size, after) ← merge_next address size after;
      before ← merge_prev before address size;
      Some {| available := before ++ after; allocated := al |}
  end.

(** ** Layouts: the segments of memory in address order, [true] for a free one *)

Abbreviation layout := (list (bool * Z)).

Definition total (L : layout) : Z := foldr (λ s, Z.add s.2) 0 L.

(** The free or the used blocks of a layout that starts at [b]. *)
Fixpoint blocks (f : bool) (b : Z) (L : layout) : list (Z * Z) :=
  match L with
  | [] => []
  | (g, n) :: L => (if eqb f g then [(b, n)] else []) ++ blocks f (b + n) L
  end.

(** Sizes are positive and no two free segments touch; [p]: what comes before [L] is
    free. *)
Fixpoint tidy (p : bool) (L : layout) : Prop :=
  match L with
  | [] => True
  | (f, n) :: L => p && f = false ∧ 0 < n ∧ tidy f L
  end.

Definition ends (p : bool) (L : layout) : bool := default p (fst <$> last L).

Lemma total_app L1 L2 : total (L1 ++ L2) = total L1 + total L2.
Proof. induction L1 as [|[f n] L1 IH]; simpl in *; lia. Qed.

Lemma total_snoc L f n : total (L ++ [(f, n)]) = total L + n.
Proof. rewrite total_app. unfold total at 2. simpl. lia. Qed.

Lemma blocks_app f b L1 L2 : blocks f b (L1 ++ L2) = blocks f b L1 ++ blocks f (b + total L1) L2.
Proof.
  revert b. induction L1 as [|[g n] L1 IH]; intros b; simpl; [by rewrite Z.add_0_r|].
  rewrite IH, <-app_assoc. do 3 f_equal. unfold total. simpl. lia.
Qed.

Lemma tidy_app p L1 L2 : tidy p (L1 ++ L2) ↔ tidy p L1 ∧ tidy (ends p L1) L2.
Proof.
  revert p. induction L1 as [|[f n] L1 IH]; intros p; [simpl; tauto|]. cbn [tidy app]. rewrite IH.
  assert (ends p ((f, n) :: L1) = ends f L1) as ->; [|tauto]. unfold ends. rewrite last_cons. by destruct (last L1).
Qed.

Lemma tidy_weaken p L : tidy p L → tidy false L.
Proof. destruct L as [|[f n] L]; simpl; tauto. Qed.

Lemma total_nonneg p L : tidy p L → 0 ≤ total L.
Proof.
  revert p. induction L as [|[f n] L IH]; intros p; simpl; [done|]. intros (_ & ? & H).
  specialize (IH _ H). unfold total in *. simpl in *. lia.
Qed.

Lemma blocks_bounds p f b L k n :
  tidy p L → (k, n) ∈ blocks f b L → b ≤ k ∧ 0 < n ∧ k + n ≤ b + total L.
Proof.
  revert p b. induction L as [|[g m] L IH]; intros p b Ht Hin; [by apply elem_of_nil in Hin|].
  destruct Ht as (_ & Hm & Ht). cbn [blocks] in Hin. pose proof (total_nonneg _ _ Ht).
  unfold total in *. simpl in *. apply elem_of_app in Hin as [Hin|Hin].
  - destruct (eqb f g); [|by apply elem_of_nil in Hin]. apply list_elem_of_singleton in Hin. simplify_eq. lia.
  - specialize (IH _ _ Ht Hin). lia.
Qed.

Lemma blocks_split f b L k n :
  (k, n) ∈ blocks f b L → ∃ L1 L2, L = L1 ++ (f, n) :: L2 ∧ k = b + total L1.
Proof.
  revert b. induction L as [|[g m] L IH]; intros b Hin; [by apply elem_of_nil in Hin|]. simpl in Hin.
  apply elem_of_app in Hin as [Hin|Hin].
  - destruct (eqb_spec f g) as [<-|]; [|by apply elem_of_nil in Hin]. apply list_elem_of_singleton in Hin. simplify_eq.
    exists [], L. split; [done|]. unfold total. simpl. lia.
  - destruct (IH _ Hin) as (L1 & L2 & -> & ->). exists ((g, m) :: L1), L2. split; [done|]. unfold total. simpl. lia.
Qed.

(** Around a segment, the blocks before it have smaller addresses and those after it
    larger ones. *)
Lemma blocks_around p f g b L1 n L2 :
  tidy p (L1 ++ (g, n) :: L2) →
  keys_below (b + total L1) (blocks f b L1) ∧ keys_above (b + total L1) (blocks f (b + total L1 + n) L2).
Proof.
  intros [H1 (_ & Hn & H2)]%tidy_app. split; apply Forall_forall; intros [k m] Hin; simpl.
  - apply (blocks_bounds _ _ _ _ _ _ H1) in Hin. lia.
  - apply (blocks_bounds _ _ _ _ _ _ H2) in Hin. lia.
Qed.

Lemma first_fit_some r m k n : first_fit r m = Some (k, n) → (k, n) ∈ m ∧ r ≤ n.
Proof.
  induction m as [|[k' n'] m IH]; simpl; [done|]. destruct (Z.leb_spec r n'); intros; simplify_eq.
  - split; [by left|done].
  - destruct IH; [done|]. split; [by right|done].
Qed.

Lemma first_fit_none r m : first_fit r m = None → ∀ k n, (k, n) ∈ m → n < r.
Proof.
  induction m as [|[k' n'] m IH]; simpl; intros E k n Hin; [by apply elem_of_nil in Hin|].
  destruct (Z.leb_spec r n'); [done|]. apply elem_of_cons in Hin as [Hin|Hin]; [by simplify_eq|eauto].
Qed.

(** ** Refinement *)

Definition represents (al : gmap Z Z) (m : list (Z * Z)) : Prop := ∀ k n, al !! k = Some n ↔ (k, n) ∈ m.

Lemma represents_insert al k n m1 m2 :
  keys_below k m1 → keys_above k m2 → represents al (m1 ++ m2) →
  al !! k = None ∧ represents (<[k := n]> al) (m1 ++ (k, n) :: m2).
Proof.
  intros H1 H2 Hr. unfold keys_below, keys_above in *. rewrite Forall_forall in H1, H2.
  assert (al !! k = None) as Hno.
  { destruct (al !! k) as [n'|] eqn:E; [|done]. apply Hr, elem_of_app in E as [E|E].
    - specialize (H1 _ E). simpl in H1. lia.
    - specialize (H2 _ E). simpl in H2. lia. }
  split; [done|]. intros k' n'. rewrite elem_of_app, elem_of_cons. destruct (decide (k' = k)) as [->|Hne].
  - rewrite lookup_insert_eq. specialize (Hr k n'). rewrite Hno, elem_of_app in Hr. naive_solver.
  - rewrite lookup_insert_ne by done. specialize (Hr k' n'). rewrite elem_of_app in Hr. naive_solver.
Qed.

Lemma represents_delete al k n m1 m2 :
  keys_below k m1 → keys_above k m2 → represents al (m1 ++ (k, n) :: m2) → represents (delete k al) (m1 ++ m2).
Proof.
  intros H1 H2 Hr k' n'. unfold keys_below, keys_above in *. rewrite Forall_forall in H1, H2.
  rewrite lookup_delete_Some, (Hr k' n'), !elem_of_app, elem_of_cons. split; [naive_solver|].
  intros [Hin|Hin].
  - specialize (H1 _ Hin). simpl in H1. split; [lia|auto].
  - specialize (H2 _ Hin). simpl in H2. split; [lia|auto].
Qed.

Record rep (T : Z) (L : layout) (a : DynamicMemoryAllocator) : Prop := {
  rep_tidy : tidy false L;
  rep_total : total L = T;
  rep_free : available a = blocks true 0 L;
  rep_used : represents (allocated a) (blocks false 0 L)
}.

Lemma malloc_rep T L a r :
  T ≤ INT_MAX → rep T L a → 0 < r →
  (custom_malloc a r = Some (a, -1) ∧ ∀ k n, (k, n) ∈ available a → n < r) ∨
  ∃ a' L' p, custom_malloc a r = Some (a', p) ∧ rep T L' a' ∧ allocated a !! p = None ∧
    allocated a' = <[p := r]> (allocated a).
Proof.
  intros HT [Ht Htot Hf Hu] Hr. unfold custom_malloc. destruct (first_fit r (available a)) as [[k n]|] eqn:E.
  2:{ left. split; [done|]. by apply first_fit_none. }
  right. apply first_fit_some in E as [Hin Hle]. rewrite Hf in Hin.
  destruct (blocks_split _ _ _ _ _ Hin) as (L1 & L2 & -> & ->). rewrite Z.add_0_l in *.
  destruct (blocks_around _ true _ 0 _ _ _ Ht) as [Hb Ha]. destruct (blocks_around _ false _ 0 _ _ _ Ht) as [Hb' Ha'].
  apply tidy_app in Ht as [Ht1 (Hp & Hn & Ht2)]. rewrite total_app in Htot. unfold total at 2 in Htot. simpl in Htot.
  fold (total L2) in Htot. pose proof (total_nonneg _ _ Ht1). pose proof (total_nonneg _ _ Ht2).
  rewrite blocks_app in Hf, Hu. simpl in Hf, Hu. rewrite Z.add_0_l in *.
  destruct (represents_insert _ _ r _ _ Hb' Ha' Hu) as [Hno Hu'].
  assert (map_erase (total L1) (available a) = blocks true 0 L1 ++ blocks true (total L1 + n) L2) as He.
  { rewrite Hf. by apply map_erase_mid. }
  rewrite He. destruct (Z.ltb_spec r n) as [Hlt|Hge].
  - rewrite !checked_ok by auto with cpp. cbn [mbind option_bind].
    eexists _, (L1 ++ (false, r) :: (true, n - r) :: L2), _. split; [done|]. split; [|done].
    split; simpl.
    + apply tidy_app. split; [done|]. simpl. rewrite andb_false_r. split_and!; [done|lia|done|lia|done].
    + rewrite total_app. unfold total in *. simpl. lia.
    + rewrite blocks_app. simpl. rewrite Z.add_0_l. replace (total L1 + r + (n - r)) with (total L1 + n) by lia.
      apply map_set_mid.
      * eapply Forall_impl; [done|]. simpl. lia.
      * apply Forall_forall. intros [k m] Hk. apply (blocks_bounds _ _ _ _ _ _ Ht2) in Hk. simpl. lia.
    + rewrite blocks_app. simpl. rewrite Z.add_0_l. by replace (total L1 + r + (n - r)) with (total L1 + n) by lia.
  - assert (r = n) as -> by lia. eexists _, (L1 ++ (false, n) :: L2), _. split; [done|]. split; [|done].
    split; simpl.
    + apply tidy_app. split; [done|]. simpl. rewrite andb_false_r. split_and!; [done..|]. by eapply tidy_weaken.
    + rewrite total_app. unfold total in *. simpl. lia.
    + rewrite blocks_app. simpl. by rewrite Z.add_0_l.
    + rewrite blocks_app. simpl. by rewrite Z.add_0_l.
Qed.

Lemma merge_next_spec k n L :
  0 ≤ k → 0 < n → k + n + total L ≤ INT_MAX → tidy false L →
  ∃ N L', merge_next k n (blocks true (k + n) L) = Some (N, blocks true (k + N) L') ∧
    N + total L' = n + total L ∧ 0 < N ∧ tidy true L' ∧ blocks false (k + N) L' = blocks false (k + n) L.
Proof.
  intros Hk Hn HT Ht. destruct L as [|[[] m] L]; [by exists n, []|..]; destruct Ht as (_ & Hm & Ht);
    pose proof (total_nonneg _ _ Ht); unfold total in HT; simpl in HT; fold (total L) in HT.
  - exists (n + m), L. cbn [blocks eqb app merge_next]. rewrite (checked_ok (k + n)) by auto with cpp.
    cbn [mbind option_bind]. rewrite Z.eqb_refl, checked_ok by auto with cpp.
    cbn [mbind option_bind]. rewrite Z.add_assoc. unfold total. simpl.
    fold (total L). split_and!; [done|lia|lia|done|done].
  - exists n, ((false, m) :: L). split_and!; [|done|done|by simpl|done]. simpl. unfold merge_next.
    destruct (blocks true (k + n + m) L) as [|[k' n'] rest] eqn:E; [done|].
    assert ((k', n') ∈ blocks true (k + n + m) L) as Hin by (rewrite E; by left).
    apply (blocks_bounds _ _ _ _ _ _ Ht) in Hin. rewrite (checked_ok (k + n)) by auto with cpp. simpl.
    by destruct (Z.eqb_spec (k + n) k'); [lia|].
Qed.

Lemma merge_prev_spec L n :
  0 < n → total L + n ≤ INT_MAX → tidy false L →
  ∃ N L', merge_prev (blocks true 0 L) (total L) n = Some (blocks true 0 (L' ++ [(true, N)])) ∧
    total L' + N = total L + n ∧ tidy false (L' ++ [(true, N)]) ∧ blocks false 0 L' = blocks false 0 L.
Proof.
  intros Hn HT Ht. destruct L as [|[[] m] L _] using rev_ind; [by exists n, []|..]; apply tidy_app in Ht as [Ht (Hp & Hm & _)];
    pose proof (total_nonneg _ _ Ht); rewrite total_snoc in *.
  - exists (m + n), L. rewrite !blocks_app. simpl. rewrite Z.add_0_l, app_nil_r. unfold merge_prev. rewrite last_snoc.
    rewrite !checked_ok by auto with cpp. simpl. rewrite Z.eqb_refl, removelast_last.
    split_and!; [done|lia| |done]. apply tidy_app. split; [done|]. simpl. split_and!; [done|lia|done].
  - exists n, (L ++ [(false, m)]). rewrite !blocks_app. simpl. rewrite !app_nil_r, total_snoc.
    split_and!; [|lia| |done].
    + unfold merge_prev. destruct (last (blocks true 0 L)) as [[k' n']|] eqn:E.
      * apply last_Some_elem_of, (blocks_bounds _ _ _ _ _ _ Ht) in E. rewrite (checked_ok (k' + n')) by auto with cpp.
        simpl. destruct (Z.eqb_spec (k' + n') (total L + m)); [lia|done].
      * apply last_None in E. by rewrite E.
    + rewrite <-app_assoc. apply tidy_app. split; [done|]. simpl. rewrite andb_false_r. done.
Qed.

Lemma free_rep T L a address :
  T ≤ INT_MAX → rep T L a →
  ∃ a' L', custom_free a address = Some a' ∧ rep T L' a' ∧ allocated a' = delete address (allocated a).
Proof.
  intros HT [Ht Htot Hf Hu]. unfold custom_free. destruct (allocated a !! address) as [n|] eqn:E.
  2:{ exists a, L. split; [done|]. split; [done|]. by rewrite delete_id. }
  apply Hu, blocks_split in E as (L1 & L2 & -> & ->). rewrite Z.add_0_l in *.
  destruct (blocks_around _ true _ 0 _ _ _ Ht) as [Hb Ha]. destruct (blocks_around _ false _ 0 _ _ _ Ht) as [Hb' Ha'].
  apply tidy_app in Ht as [Ht1 (_ & Hn & Ht2)]. rewrite total_app in Htot. unfold total at 2 in Htot. simpl in Htot.
  fold (total L2) in Htot. pose proof (total_nonneg _ _ Ht1). pose proof (total_nonneg _ _ Ht2).
  rewrite blocks_app in Hf, Hu. simpl in Hf, Hu. rewrite Z.add_0_l in *. apply represents_delete in Hu; [|done..].
  rewrite Hf, map_set_mid, locate_mid by done. cbn [mbind option_bind].
  destruct (merge_next_spec (total L1) n L2) as (N & L2' & -> & HN & HN0 & Ht2' & Hu2); [lia|done|lia|done|].
  cbn [mbind option_bind]. pose proof (total_nonneg _ _ Ht2').
  destruct (merge_prev_spec L1 N) as (N' & L1' & -> & HN' & Ht1' & Hu1); [done|lia|done|]. cbn [mbind option_bind].
  eexists _, ((L1' ++ [(true, N')]) ++ L2'). split; [done|]. split; [|done]. split; simpl.
  - apply tidy_app. split; [done|]. unfold ends. by rewrite last_snoc.
  - rewrite total_app, total_snoc. lia.
  - rewrite (blocks_app true 0 _ L2'), total_snoc. by replace (0 + (total L1' + N')) with (total L1 + N) by lia.
  - rewrite (blocks_app false 0 _ L2'), blocks_app, total_snoc, Hu1. simpl.
    replace (0 + (total L1' + N')) with (total L1 + N) by lia. by rewrite app_nil_r, Hu2.
Qed.

(** ** Histories *)

Inductive AllocOp := Malloc (requested_size : Z) | Free (address : Z).

Definition alloc_step (a : DynamicMemoryAllocator) (o : AllocOp) : option DynamicMemoryAllocator :=
  match o with
  | Malloc r => fst <$> custom_malloc a r
  | Free address => custom_free a address
  end.

Definition positive_request (o : AllocOp) : Prop := match o with Malloc r => 0 < r | Free _ => True end.

Lemma run_rep T os a L :
  T ≤ INT_MAX → Forall positive_request os → rep T L a → ∃ a' L', run_ops alloc_step a os = Some a' ∧ rep T L' a'.
Proof.
  intros HT Hos. revert a L. induction Hos as [|o os Ho _ IH]; intros a L Hrep; simpl; [by eauto|].
  assert (∃ a1 L1, alloc_step a o = Some a1 ∧ rep T L1 a1) as (a1 & L1 & -> & Hrep1); [|simpl; by eapply IH].
  destruct o as [r|address]; simpl in *.
  - destruct (malloc_rep T L a r) as [[-> _]|(a' & L' & p & -> & ? & _)]; [done..|by exists a, L|by exists a', L'].
  - destruct (free_rep T L a address) as (a' & L' & -> & ? & _); [done..|]. eauto.
Qed.

(** A block of the allocator: its kind, start and size. *)
Definition is_block (a : DynamicMemoryAllocator) (b : bool * (Z * Z)) : Prop :=
  if b.1 then b.2 ∈ available a else allocated a !! b.2.1 = Some b.2.2.

Definition contains (b : bool * (Z * Z)) (x : Z) : Prop := b.2.1 ≤ x < b.2.1 + b.2.2.

Lemma layout_covers p b L x :
  tidy p L → b ≤ x < b + total L → ∃ f k n, (k, n) ∈ blocks f b L ∧ k ≤ x < k + n.
Proof.
  revert p b. induction L as [|[g m] L IH]; intros p b Ht Hx; [unfold total in Hx; simpl in Hx; lia|].
  destruct Ht as (_ & Hm & Ht). unfold total in *. simpl in *. destruct (decide (x < b + m)) as [Hlt|Hge].
  - exists g, b, m. split; [|lia]. rewrite eqb_reflx. by left.
  - destruct (IH _ (b + m) Ht) as (f & k & n & Hin & Hk); [lia|]. exists f, k, n. split; [|done].
    apply elem_of_app. by right.
Qed.

Lemma layout_disjoint p b L f k n f' k' n' x :
  tidy p L → (k, n) ∈ blocks f b L → (k', n') ∈ blocks f' b L → k ≤ x < k + n → k' ≤ x < k' + n' →
  f = f' ∧ k = k' ∧ n = n'.
Proof.
  revert p b. induction L as [|[g m] L IH]; intros p b Ht H1 H2 Hx Hx'; [by apply elem_of_nil in H1|].
  destruct Ht as (_ & Hm & Ht). simpl in H1, H2.
  assert (∀ f k n, (k, n) ∈ (if eqb f g then [(b, m)] else []) → f = g ∧ k = b ∧ n = m) as Hhead.
  { intros f0 k0 n0 Hin. destruct (eqb_spec f0 g); [|by apply elem_of_nil in Hin].
    apply list_elem_of_singleton in Hin. by simplify_eq. }
  pose proof (λ f k n, blocks_bounds _ f (b + m) L k n Ht) as Htail.
  apply elem_of_app in H1 as [H1|H1]; apply elem_of_app in H2 as [H2|H2].
  - destruct (Hhead _ _ _ H1) as (-> & -> & ->). by destruct (Hhead _ _ _ H2) as (-> & -> & ->).
  - destruct (Hhead _ _ _ H1) as (-> & -> & ->). specialize (Htail _ _ _ H2). lia.
  - destruct (Hhead _ _ _ H2) as (-> & -> & ->). specialize (Htail _ _ _ H1). lia.
  - by eapply IH.
Qed.

(** Free blocks never touch. *)
Lemma layout_coalesced p b L k n k' n' :
  tidy p L → (k, n) ∈ blocks true b L → (k', n') ∈ blocks true b L → k + n ≠ k'.
Proof.
  intros Ht H1 H2. destruct (blocks_split _ _ _ _ _ H1) as (L1 & L2 & -> & ->).
  apply tidy_app in Ht as [Ht1 (_ & Hn & Ht2)]. rewrite blocks_app in H2. simpl in H2.
  apply elem_of_app in H2 as [H2|[H2|H2]%elem_of_cons].
  - apply (blocks_bounds _ _ _ _ _ _ Ht1) in H2. lia.
  - simplify_eq. lia.
  - destruct L2 as [|[[] m] L2]; simpl in *; [by apply elem_of_nil in H2|naive_solver|].
    destruct Ht2 as (_ & Hm & Ht2). apply (blocks_bounds _ _ _ _ _ _ Ht2) in H2. lia.
Qed.

(** When nothing is used there is one free segment. *)
Lemma layout_all_free L :
  tidy false L → 0 < total L → blocks false 0 L = [] → blocks true 0 L = [(0, total L)].
Proof.
  destruct L as [|[[] n] [|[[] m] L]]; simpl; try done.
  - intros _ _ _. by rewrite Z.add_0_r.
  - intros (_ & _ & ? & _). done.
Qed.

(** C22: Starting from [TotalMemory] free cells and for positive requests, every
    sequence of allocations and releases (of any address) is free of overflow and keeps
    the memory partitioned: every cell lies in exactly one block, free or allocated;
    no block reaches outside the memory; free blocks never touch each other, and once
    everything is released the memory is one free block again.  An allocation answers
    [-1] only if no free block is large enough, and otherwise hands out cells that no
    live allocation holds. *)
Theorem allocator_partition T os :
  0 < T ≤ INT_MAX → Forall positive_request os →
  ∃ a, run_ops alloc_step (DynamicMemoryAllocator_make T) os = Some a ∧
    (∀ x, 0 ≤ x < T → exists! b, is_block a b ∧ contains b x) ∧
    (∀ b x, is_block a b → contains b x → 0 ≤ x < T) ∧
    (∀ k n k' n', (k, n) ∈ available a → (k', n') ∈ available a → k + n ≠ k') ∧
    (allocated a = ∅ → available a = [(0, T)]) ∧
    (∀ r, 0 < r →
      (custom_malloc a r = Some (a, -1) ∧ ∀ k n, (k, n) ∈ available a → n < r) ∨
      ∃ a' p, custom_malloc a r = Some (a', p) ∧ allocated a' = <[p := r]> (allocated a) ∧
        ∀ k n x, allocated a !! k = Some n → contains (false, (k, n)) x → ¬ contains (false, (p, r)) x).
Proof.
  intros HT Hos.
  destruct (run_rep T os (DynamicMemoryAllocator_make T) [(true, T)]) as (a & L & -> & Hrep); [lia|done| |].
  { split; simpl; [lia|unfold total; simpl; lia|done|]. intros k n. rewrite lookup_empty. set_solver. }
  exists a. split; [done|]. destruct (id Hrep) as [Ht Htot Hf Hu].
  assert (∀ b, is_block a b ↔ b.2 ∈ blocks b.1 0 L) as Hblock.
  { intros [[] [k n]]; unfold is_block; simpl; [by rewrite Hf|apply Hu]. }
  split_and!.
  - intros x Hx. destruct (layout_covers _ 0 L x Ht) as (f & k & n & Hin & Hk); [lia|]. exists (f, (k, n)).
    split; [by rewrite Hblock|]. intros [f' [k' n']] [Hb Hc]. rewrite Hblock in Hb.
    by destruct (layout_disjoint _ _ _ _ _ _ _ _ _ x Ht Hin Hb Hk Hc) as (-> & -> & ->).
  - intros [f [k n]] x Hb Hc. rewrite Hblock in Hb. unfold contains in Hc. simpl in *.
    apply (blocks_bounds _ _ _ _ _ _ Ht) in Hb. lia.
  - intros k n k' n'. rewrite Hf. by apply layout_coalesced with false.
  - intros He. rewrite Hf, <-Htot. apply layout_all_free; [done|lia|]. apply elem_of_nil_inv. intros [k n] Hin.
    apply Hu in Hin. by rewrite He in Hin.
  - intros r Hr. destruct (malloc_rep T L a r) as [?|(a' & L' & p & Hm & [Ht' _ _ Hu'] & Hno & Hal)]; [lia|done|done|by left|].
    right. exists a', p. split; [done|]. split; [done|]. intros k n x Hk Hc Hc'.
    rewrite Hal in Hu'. assert (p ≠ k) as Hne by congruence.
    destruct (layout_disjoint _ 0 L' false k n false p r x Ht') as (_ & ? & _); [| |done|done|congruence].
    + apply Hu'. by rewrite lookup_insert_ne.
    + apply Hu'. by rewrite lookup_insert_eq.
Qed.

Lemma allocator_partition_witness :
  ∃ a, run_ops alloc_step (DynamicMemoryAllocator_make 100) [Malloc 20; Malloc 30; Free 0; Malloc 40; Free 20] = Some a ∧
    available a = [(0, 50); (90, 10)] ∧ allocated a = {[50 := 40]}.
Proof.
  destruct (allocator_partition 100 [Malloc 20; Malloc 30; Free 0; Malloc 40; Free 20]) as (a & Ha & _).
  - unfold INT_MAX. lia.
  - repeat constructor.
  - exists a. split; [exact Ha|]. vm_compute in Ha. injection Ha as <-. split; vm_compute; reflexivity.
Defined.

(** A request for zero cells is answered with the address of a block that stays free,
    so that the next allocation gets the same address: the two share one entry of
    [allocated], and releasing one of them releases the other. *)
Example zero_request_aliases :
  ∃ a1 a2, custom_malloc (DynamicMemoryAllocator_make 100) 0 = Some (a1, 0) ∧ custom_malloc a1 5 = Some (a2, 0) ∧
    custom_free a2 0 = Some (DynamicMemoryAllocator_make 100).
Proof. eexists _, _. split; [reflexivity|]. split; [reflexivity|]. vm_compute. reflexivity. Qed.
