(* ===== verification/LFU.v ===== *)
(** * Least-frequently-used cache

    [src/caching/LFUcache.cpp]: one list of nodes per access frequency and an index of
    iterators.  The nodes live in a heap, lists hold their addresses, and an iterator
    is an address.  The class is refined to the policy on one list of entries, most
    recently used first: the victim is the least recently used among the least
    frequently used entries. *)
From S2P Require Import Prelude.
Local Open Scope Z_scope.
Local Open Scope cpp_scope.

Record Node := { key : Z; value : Z; freq : Z }.

Record LFUCache := {
  same_freq : gmap Z (list nat);
  mm : gmap Z nat;
  minFrequency : Z;
  Tcapacity : Z;
  heap : gmap nat Node;
  next_addr : nat
}.

Definition LFUCache_make (capacity : Z) : LFUCache :=
  {| same_freq := ∅; mm := ∅; minFrequency := 0; Tcapacity := capacity; heap := ∅; next_addr := 0 |}.

(** [same_freq[f]] *)
Definition bucket (sf : gmap Z (list nat)) (f : Z) : list nat := default [] (sf !! f).

(** What is left of a list is stored back, or its entry erased when nothing is. *)
Definition set_bucket (sf : gmap Z (list nat)) (f : Z) (l : list nat) : gmap Z (list nat) :=
  match l with [] => delete f sf | _ => <[f := l]> sf end.

(** [same_freq[f].push_front(n); mm[key] = same_freq[f].begin();] *)
Definition push_node (c : LFUCache) (n : Node) : LFUCache :=
  let a := next_addr c in
  {| same_freq := <[freq n := a :: bucket (same_freq c) (freq n)]> (same_freq c); mm := <[key n := a]> (mm c);
     minFrequency := minFrequency c; Tcapacity := Tcapacity c; heap := <[a := n]> (heap c); next_addr := S a |}.

(** Erasing the node at [a] from the list of its frequency: undefined behaviour when it
    is not there. *)
Definition erase_node (c : LFUCache) (f : Z) (a : nat) (m : gmap Z nat) (min : list nat → Z) : option LFUCache :=
  let l := bucket (same_freq c) f in
  if bool_decide (a ∈ l) then
    let l' := filter (λ b, b ≠ a) l in
    Some {| same_freq := set_bucket (same_freq c) f l'; mm := m; minFrequency := min l'; Tcapacity := Tcapacity c;
            heap := delete a (heap c); next_addr := next_addr c |}
  else None.

Definition updateFreq (c : LFUCache) (k : Z) : option LFUCache :=
  a ← mm c !! k;
  n ← heap c !! a;
  f' ← freq n +! 1;
  c ← erase_node c (freq n) a (mm c)
        (λ l, if bool_decide (l = []) && (minFrequency c =? freq n) then minFrequency c + 1 else minFrequency c);
  Some (push_node c {| key := k; value := value n; freq := f' |}).

Definition get (c : LFUCache) (k : Z) : option (LFUCache * Z) :=
  match mm c !! k with
  | None => Some (c, -1)
  | Some a => n ← heap c !! a; c ← updateFreq c k; Some (c, value n)
  end.

(** The eviction in [put]: the last node of the list of the least frequency. *)
Definition evict (c : LFUCache) : option LFUCache :=
  a ← last (bucket (same_freq c) (minFrequency c));
  n ← heap c !! a;
  erase_node c (minFrequency c) a (delete (key n) (mm c)) (λ _, minFrequency c).

Definition put (c : LFUCache) (k v : Z) : option LFUCache :=
  if Tcapacity c =? 0 then Some c else
  match mm c !! k with
  | Some a =>
      n ← heap c !! a;
      updateFreq {| same_freq := same_freq c; mm := mm c; minFrequency := minFrequency c; Tcapacity := Tcapacity c;
                    heap := <[a := {| key := key n; value := v; freq := freq n |}]> (heap c);
                    next_addr := next_addr c |} k
  | None =>
      c ← (if (size (mm c) =? to_size_t (Tcapacity c)) then evict c else Some c);
      Some (push_node {| same_freq := same_freq c; mm := mm c; minFrequency := 1; Tcapacity := Tcapacity c;
                         heap := heap c; next_addr := next_addr c |} {| key := k; value := v; freq := 1 |})
  end.

Inductive LFUop := Get (k : Z) | Put (k v : Z).

Definition lfu_step (c : LFUCache) (o : LFUop) : option (LFUCache * option Z) :=
  match o with
  | Get k => '(c, v) ← get c k; Some (c, Some v)
  | Put k v => c ← put c k v; Some (c, None)
  end.

(** ** The policy *)

Definition others (k : Z) (es : list Node) : list Node := filter (λ n, key n ≠ k) es.

Fixpoint find_key (k : Z) (es : list Node) : option Node :=
  match es with
  | [] => None
  | n :: es => if key n =? k then Some n else find_key k es
  end.

Definition least (es : list Node) (n : Node) : Prop := Forall (λ n', freq n ≤ freq n') es.

#[export] Instance least_dec es n : Decision (least es n).
Proof. unfold least. apply _. Defined.

(** The least recently used of the least frequently used entries. *)
Definition victim (es : list Node) : option Node := last (filter (least es) es).

Definition policy_step (cap : Z) (es : list Node) (o : LFUop) : list Node * option Z :=
  match o with
  | Get k =>
      match find_key k es with
      | None => (es, Some (-1))
      | Some n => ({| key := k; value := value n; freq := freq n + 1 |} :: others k es, Some (value n))
      end
  | Put k v =>
      if cap =? 0 then (es, None) else
      match find_key k es with
      | Some n => ({| key := k; value := v; freq := freq n + 1 |} :: others k es, None)
      | None =>
          let es := if length es =? cap then match victim es with Some n => others (key n) es | None => es end else es in
          ({| key := k; value := v; freq := 1 |} :: es, None)
      end
  end.

Fixpoint policy_run (cap : Z) (es : list Node) (os : list LFUop) : list Node * list (option Z) :=
  match os with
  | [] => (es, [])
  | o :: os =>
      let '(es, r) := policy_step cap es o in
      let '(es, rs) := policy_run cap es os in (es, r :: rs)
  end.

(** ** Representation *)

Abbreviation store := (list (nat * Node)).

Definition in_bucket (f : Z) (es : store) : list nat := (filter (λ e, freq e.2 = f) es).*1.

Record rep (c : LFUCache) (es : store) : Prop := {
  rep_addrs : NoDup es.*1;
  rep_fresh : Forall (λ e, (e.1 < next_addr c)%nat) es;
  rep_keys : NoDup (key <$> es.*2);
  rep_heap : ∀ a n, heap c !! a = Some n ↔ (a, n) ∈ es;
  rep_mm : ∀ k a, mm c !! k = Some a ↔ ∃ n, (a, n) ∈ es ∧ key n = k;
  rep_freq : ∀ f, same_freq c !! f = match in_bucket f es with [] => None | l => Some l end
}.

(** The entry of [minFrequency] is the least one. *)
Definition min_ok (c : LFUCache) (es : store) : Prop :=
  es ≠ [] → (∃ a n, (a, n) ∈ es ∧ freq n = minFrequency c) ∧ ∀ a n, (a, n) ∈ es → minFrequency c ≤ freq n.

Definition drop_addr (a : nat) (es : store) : store := filter (λ e, e.1 ≠ a) es.

Lemma bucket_rep c es f : rep c es → bucket (same_freq c) f = in_bucket f es.
Proof. intros Hr. unfold bucket. rewrite (rep_freq _ _ Hr). by destruct (in_bucket f es). Qed.

Lemma elem_in_bucket f es a : a ∈ in_bucket f es ↔ ∃ n, (a, n) ∈ es ∧ freq n = f.
Proof.
  unfold in_bucket. rewrite list_elem_of_fmap. split.
  - intros ([a' n] & -> & [Hf Hin]%list_elem_of_filter). eauto.
  - intros (n & Hin & Hf). exists (a, n). split; [done|]. by apply list_elem_of_filter.
Qed.

Lemma in_bucket_drop f a es : in_bucket f (drop_addr a es) = filter (λ b, b ≠ a) (in_bucket f es).
Proof.
  unfold in_bucket, drop_addr. rewrite filter_map, !list_filter_filter. f_equal.
  apply list_filter_iff. intros e. simpl. tauto.
Qed.

Lemma rep_inj c es a n n' : rep c es → (a, n) ∈ es → (a, n') ∈ es → n = n'.
Proof. intros Hr H1 H2. apply (rep_heap _ _ Hr) in H1, H2. congruence. Qed.

Lemma rep_key_inj c es a a' n n' : rep c es → (a, n) ∈ es → (a', n') ∈ es → key n = key n' → a = a' ∧ n = n'.
Proof.
  intros Hr H1 H2 Hk. assert (a = a') as <-.
  { assert (mm c !! key n = Some a) by (apply (rep_mm _ _ Hr); eauto).
    assert (mm c !! key n = Some a') by (apply (rep_mm _ _ Hr); eauto). congruence. }
  split; [done|]. by eapply rep_inj.
Qed.

Lemma elem_drop a es b n : (b, n) ∈ drop_addr a es ↔ b ≠ a ∧ (b, n) ∈ es.
Proof. unfold drop_addr. by rewrite list_elem_of_filter. Qed.

Lemma drop_entries c es a n : rep c es → (a, n) ∈ es → (drop_addr a es).*2 = others (key n) es.*2.
Proof.
  intros Hr Hin. unfold drop_addr, others. rewrite filter_map. f_equal. apply filter_agree.
  intros [b n'] Hb. simpl. split; intros Hne ?; apply Hne.
  - by destruct (rep_key_inj c es b a n' n).
  - subst. by rewrite (rep_inj c es a n' n).
Qed.

Lemma rep_set_bucket sf es f l :
  (∀ f', sf !! f' = match in_bucket f' es with [] => None | l => Some l end) →
  ∀ f', set_bucket sf f l !! f' = if decide (f' = f) then match l with [] => None | _ => Some l end
                                  else match in_bucket f' es with [] => None | l => Some l end.
Proof.
  intros Hsf f'. unfold set_bucket. destruct (decide (f' = f)) as [->|Hne].
  - destruct l; [by rewrite lookup_delete_eq|by rewrite lookup_insert_eq].
  - destruct l; [by rewrite lookup_delete_ne|by rewrite lookup_insert_ne].
Qed.

(** Erasing an entry; the index entry of its key is erased here too, or, in
    [updateFreq], overwritten by the push that follows. *)
Lemma erase_spec c es a n m min :
  rep c es → (a, n) ∈ es → (∀ k b, m !! k = Some b ↔ ∃ n', (b, n') ∈ drop_addr a es ∧ key n' = k) →
  ∃ c', erase_node c (freq n) a m min = Some c' ∧ rep c' (drop_addr a es) ∧
    minFrequency c' = min (in_bucket (freq n) (drop_addr a es)) ∧ Tcapacity c' = Tcapacity c ∧
    next_addr c' = next_addr c.
Proof.
  intros Hr Hin Hm. unfold erase_node. rewrite (bucket_rep c es) by done.
  rewrite bool_decide_eq_true_2 by (apply elem_in_bucket; eauto). rewrite <-in_bucket_drop.
  eexists. split; [done|]. split; [|done]. destruct (id Hr) as [Ha Hf Hk Hh Hmm Hsf]. split; simpl.
  - eapply sublist_NoDup; [done|]. apply fmap_sublist, sublist_filter.
  - apply Forall_forall. intros e [_ He]%list_elem_of_filter. rewrite Forall_forall in Hf. auto.
  - eapply sublist_NoDup; [done|]. do 2 apply fmap_sublist. apply sublist_filter.
  - intros b n'. rewrite lookup_delete_Some, elem_drop, Hh. naive_solver.
  - done.
  - intros f. rewrite (rep_set_bucket _ es) by done. destruct (decide (f = freq n)) as [->|Hne].
    + by destruct (in_bucket (freq n) (drop_addr a es)).
    + assert (in_bucket f (drop_addr a es) = in_bucket f es) as ->; [|done]. rewrite in_bucket_drop.
      apply filter_all, Forall_forall. intros b Hb ->. apply elem_in_bucket in Hb as (n' & Hn' & <-).
      by rewrite (rep_inj c es a n' n) in Hne.
Qed.

Lemma push_spec c es n :
  rep c es → key n ∉ key <$> es.*2 → rep (push_node c n) ((next_addr c, n) :: es).
Proof.
  intros Hr Hno. destruct (id Hr) as [Ha Hf Hk Hh Hmm Hsf]. rewrite Forall_forall in Hf.
  assert (∀ n', (next_addr c, n') ∉ es) as Hfresh by (intros n' Hin; specialize (Hf _ Hin); simpl in Hf; lia).
  split; simpl.
  - constructor; [|done]. intros ([b n'] & Hb & Hin)%list_elem_of_fmap. simpl in Hb. subst. by apply (Hfresh n').
  - constructor; simpl; [lia|]. apply Forall_forall. intros e He. specialize (Hf e He). lia.
  - by constructor.
  - intros b n'. rewrite elem_of_cons. destruct (decide (b = next_addr c)) as [->|Hne].
    + rewrite lookup_insert_eq. naive_solver.
    + rewrite lookup_insert_ne, Hh by done. naive_solver.
  - intros k b. setoid_rewrite elem_of_cons. destruct (decide (k = key n)) as [->|Hne].
    + rewrite lookup_insert_eq. split; [intros [= <-]; eauto|]. intros (n' & [?|Hin] & Hkey); [by simplify_eq|].
      exfalso. apply Hno. rewrite <-Hkey. apply list_elem_of_fmap. exists n'. split; [done|].
      apply list_elem_of_fmap. by exists (b, n').
    + rewrite lookup_insert_ne, Hmm by done. naive_solver.
  - intros f. rewrite (bucket_rep c es) by done. unfold in_bucket at 2. rewrite filter_cons. simpl.
    destruct (decide (freq n = f)) as [<-|Hne]; simpl; [by rewrite lookup_insert_eq|].
    rewrite lookup_insert_ne by done. apply Hsf.
Qed.

Lemma min_update c es a n c' f' :
  rep c es → min_ok c es → (a, n) ∈ es → freq f' = freq n + 1 →
  minFrequency c' = (if bool_decide (in_bucket (freq n) (drop_addr a es) = []) && (minFrequency c =? freq n)
                     then minFrequency c + 1 else minFrequency c) →
  min_ok c' ((next_addr c, f') :: drop_addr a es).
Proof.
  intros Hr Hmin Hin Hf Hc' _. destruct Hmin as [(b & m & Hb & Hm) Hle]; [by intros ->; apply elem_of_nil in Hin|].
  setoid_rewrite elem_of_cons. setoid_rewrite elem_drop. rewrite Hc'. pose proof (Hle _ _ Hin) as Hn.
  destruct (bool_decide_reflect (in_bucket (freq n) (drop_addr a es) = [])) as [He|Hne]; simpl.
  - assert (∀ b m, b ≠ a → (b, m) ∈ es → freq m ≠ freq n) as Hnone.
    { intros b0 m0 Hb0 Hm0 Hf0. assert (b0 ∈ in_bucket (freq n) (drop_addr a es)) as Hx.
      { apply elem_in_bucket. exists m0. by rewrite elem_drop. }
      rewrite He in Hx. by apply elem_of_nil in Hx. }
    destruct (Z.eqb_spec (minFrequency c) (freq n)) as [E|E].
    + split; [exists (next_addr c), f'; split; [by left|lia]|]. intros b0 m0 [?|[Hb0 Hm0]]; [simplify_eq; lia|].
      specialize (Hle _ _ Hm0). specialize (Hnone _ _ Hb0 Hm0). lia.
    + split; [|intros b0 m0 [?|[Hb0 Hm0]]; [simplify_eq; lia|eauto]].
      exists b, m. split; [|done]. right. split; [|done]. intros ->. by rewrite (rep_inj c es a m n) in Hm.
  - split; [|intros b0 m0 [?|[Hb0 Hm0]]; [simplify_eq; lia|eauto]].
    destruct (decide (b = a)) as [->|Hba]; [|by exists b, m; eauto]. rewrite (rep_inj c es a m n) in Hm by done.
    destruct (in_bucket (freq n) (drop_addr a es)) as [|b0 l] eqn:E; [done|].
    assert (b0 ∈ in_bucket (freq n) (drop_addr a es)) as (m0 & Hm0%elem_drop & Hf0)%elem_in_bucket by (rewrite E; by left).
    exists b0, m0. split; [by right|congruence].
Qed.

Lemma key_not_dropped c es a n : rep c es → (a, n) ∈ es → key n ∉ key <$> (drop_addr a es).*2.
Proof.
  intros Hr Hin. rewrite (drop_entries c es a n) by done. intros (n' & Hk & [Hne _]%list_elem_of_filter)%list_elem_of_fmap.
  congruence.
Qed.

Lemma mm_drop c es a n k b :
  rep c es → (a, n) ∈ es → delete (key n) (mm c) !! k = Some b ↔ ∃ n', (b, n') ∈ drop_addr a es ∧ key n' = k.
Proof.
  intros Hr Hin. rewrite lookup_delete_Some, (rep_mm _ _ Hr). setoid_rewrite elem_drop. split.
  - intros [Hne (n' & Hn' & <-)]. exists n'. split; [|done]. split; [|done]. intros ->.
    by rewrite (rep_inj c es a n' n) in Hne.
  - intros (n' & [Hne Hn'] & <-). split; [|by eauto]. intros Hk. by destruct (rep_key_inj c es b a n' n).
Qed.

(** [updateFreq] leaves the old iterator in the index until it is overwritten. *)
Lemma erase_push c f a m min n :
  (c1 ← erase_node c f a m min; Some (push_node c1 n)) =
  (c1 ← erase_node c f a (delete (key n) m) min; Some (push_node c1 n)).
Proof.
  unfold erase_node. case_bool_decide; [|done]. simpl. unfold push_node. simpl. by rewrite insert_delete_eq.
Qed.

Lemma updateFreq_spec c es a n :
  rep c es → min_ok c es → (a, n) ∈ es → int_ok (freq n + 1) →
  let es' := (next_addr c, {| key := key n; value := value n; freq := freq n + 1 |}) :: drop_addr a es in
  ∃ c', updateFreq c (key n) = Some c' ∧ rep c' es' ∧ min_ok c' es' ∧ Tcapacity c' = Tcapacity c.
Proof.
  intros Hr Hmin Hin Hok es'. unfold updateFreq.
  assert (mm c !! key n = Some a) as -> by (apply (rep_mm _ _ Hr); eauto). cbn [mbind option_bind].
  assert (heap c !! a = Some n) as -> by (by apply (rep_heap _ _ Hr)). cbn [mbind option_bind].
  rewrite checked_ok by done. cbn [mbind option_bind].
  pose proof (erase_push c (freq n) a (mm c)
    (λ l, if bool_decide (l = []) && (minFrequency c =? freq n) then minFrequency c + 1 else minFrequency c)
    {| key := key n; value := value n; freq := freq n + 1 |}) as E. cbn [key] in E. rewrite E. clear E.
  edestruct (erase_spec c es a n (delete (key n) (mm c))) as (c1 & E1 & Hr1 & Hm1 & Hc1 & Hn1); [done|done| |].
  { intros k b. by apply mm_drop. }
  rewrite E1. clear E1. cbn [mbind option_bind]. eexists. split; [done|].
  assert (es' = (next_addr c1, {| key := key n; value := value n; freq := freq n + 1 |}) :: drop_addr a es) as ->.
  { by rewrite Hn1. }
  split; [|split; [|done]].
  - apply push_spec; [done|]. exact (key_not_dropped c es a n Hr Hin).
  - rewrite Hn1. eapply (min_update c); [done|done|done|done|]. simpl. exact Hm1.
Qed.

Lemma in_least c es n :
  es ≠ [] → min_ok c es → least es.*2 n ↔ freq n ≤ minFrequency c.
Proof.
  intros Hne Hmin. destruct (Hmin Hne) as [(b & m & Hb & Hm) Hle]. unfold least. rewrite Forall_forall. split.
  - intros Hall. rewrite <-Hm. apply Hall. apply list_elem_of_fmap. by exists (b, m).
  - intros Hn n' ([b' m'] & -> & Hin)%list_elem_of_fmap. specialize (Hle _ _ Hin). simpl. lia.
Qed.

Lemma evict_spec c es :
  rep c es → min_ok c es → es ≠ [] →
  ∃ c' a n, evict c = Some c' ∧ (a, n) ∈ es ∧ victim es.*2 = Some n ∧ rep c' (drop_addr a es) ∧
    Tcapacity c' = Tcapacity c.
Proof.
  intros Hr Hmin Hne. destruct (Hmin Hne) as [(b & m & Hb & Hm) Hle].
  assert (filter (least es.*2) es.*2 = (filter (λ e, freq e.2 = minFrequency c) es).*2) as Hfilter.
  { rewrite filter_map. f_equal. apply filter_agree. intros [b' m'] Hin. simpl. rewrite (in_least c) by done.
    specialize (Hle _ _ Hin). lia. }
  destruct (last (filter (λ e, freq e.2 = minFrequency c) es)) as [[a n]|] eqn:E.
  2:{ apply last_None in E. assert ((b, m) ∈ filter (λ e, freq e.2 = minFrequency c) es) as Hx.
      { by apply list_elem_of_filter. }
      rewrite E in Hx. by apply elem_of_nil in Hx. }
  assert (last (in_bucket (minFrequency c) es) = Some a) as Hlast by (unfold in_bucket; by rewrite fmap_last, E).
  assert (victim es.*2 = Some n) as Hv by (unfold victim; by rewrite Hfilter, fmap_last, E).
  apply last_Some_elem_of, list_elem_of_filter in E as [Hfn Hin]. simpl in Hfn.
  unfold evict. rewrite (bucket_rep c es), Hlast by done. cbn [mbind option_bind].
  assert (heap c !! a = Some n) as -> by (by apply (rep_heap _ _ Hr)). cbn [mbind option_bind]. rewrite <-Hfn.
  edestruct (erase_spec c es a n (delete (key n) (mm c))) as (c1 & E1 & Hr1 & _ & Hc1 & _); [done|done| |].
  { intros k b'. by apply mm_drop. }
  rewrite E1. exists c1, a, n. done.
Qed.

Definition set_value (a : nat) (v : Z) (es : store) : store :=
  (λ e, if decide (e.1 = a) then (e.1, {| key := key e.2; value := v; freq := freq e.2 |}) else e) <$> es.

Lemma elem_set_value a v es b n :
  (b, n) ∈ set_value a v es ↔
  (b ≠ a ∧ (b, n) ∈ es) ∨ (b = a ∧ ∃ n0, (a, n0) ∈ es ∧ n = {| key := key n0; value := v; freq := freq n0 |}).
Proof.
  unfold set_value. rewrite list_elem_of_fmap. split.
  - intros ([b' n'] & E & Hin). simpl in E. case_decide; simplify_eq; eauto 10.
  - intros [[Hne Hin]|(-> & n0 & Hin & ->)]; [exists (b, n)|exists (a, n0)]; simpl.
    + by rewrite decide_False.
    + by rewrite decide_True.
Qed.

Lemma drop_set_value a v es : drop_addr a (set_value a v es) = drop_addr a es.
Proof.
  unfold drop_addr, set_value. induction es as [|e es IH]; [done|]. rewrite fmap_cons, !filter_cons, IH.
  destruct (decide (e.1 = a)) as [E|E]; [|done]. simpl. rewrite !decide_False by tauto. done.
Qed.

Lemma value_spec c es a n v :
  rep c es → (a, n) ∈ es →
  rep {| same_freq := same_freq c; mm := mm c; minFrequency := minFrequency c; Tcapacity := Tcapacity c;
         heap := <[a := {| key := key n; value := v; freq := freq n |}]> (heap c); next_addr := next_addr c |}
      (set_value a v es).
Proof.
  intros Hr Hin. destruct (id Hr) as [Ha Hf Hk Hh Hmm Hsf].
  assert ((set_value a v es).*1 = es.*1) as E1.
  { unfold set_value. rewrite <-list_fmap_compose. apply list_fmap_ext. intros _ e _. simpl. by case_decide. }
  assert (key <$> (set_value a v es).*2 = key <$> es.*2) as E2.
  { unfold set_value. rewrite <-!list_fmap_compose. apply list_fmap_ext. intros _ e _. simpl. by case_decide. }
  assert (∀ f, in_bucket f (set_value a v es) = in_bucket f es) as E3.
  { intros f. unfold in_bucket, set_value. rewrite filter_map, <-list_fmap_compose.
    rewrite (filter_agree _ (λ e, freq e.2 = f)) by (intros e _; simpl; by case_decide).
    apply list_fmap_ext. intros _ e _. simpl. by case_decide. }
  split; simpl.
  - by rewrite E1.
  - rewrite Forall_forall in *. intros [b m] Hb%(list_elem_of_fmap_2 fst). rewrite E1 in Hb.
    apply list_elem_of_fmap in Hb as ([b' m'] & -> & Hb). by apply (Hf (b', m')).
  - by rewrite E2.
  - intros b m. rewrite elem_set_value, lookup_insert_Some, Hh. split.
    + intros [[<- <-]|[Hne Hb]]; [right; split; [done|by exists n]|by left].
    + intros [[Hne Hb]|(-> & n0 & Hn0 & ->)]; [by right|]. left. by rewrite (rep_inj c es a n0 n).
  - intros k b. rewrite Hmm. setoid_rewrite elem_set_value. split.
    + intros (m & Hm & <-). destruct (decide (b = a)) as [->|]; [|by eauto].
      exists {| key := key m; value := v; freq := freq m |}. split; [|done]. right. split; [done|]. by exists m.
    + intros (m & [[_ Hm]|(-> & m0 & Hm & ->)] & <-); eauto.
  - intros f. by rewrite E3.
Qed.

Lemma find_key_Some n l : NoDup (key <$> l) → n ∈ l → find_key (key n) l = Some n.
Proof.
  induction l as [|m l IH]; simpl; [by intros _ ?%elem_of_nil|]. intros [Hm Hnd]%NoDup_cons [->|Hin]%elem_of_cons.
  - by rewrite Z.eqb_refl.
  - destruct (Z.eqb_spec (key m) (key n)) as [E|E]; [|by apply IH]. exfalso. apply Hm. rewrite E.
    by apply list_elem_of_fmap_2.
Qed.

Lemma find_key_None k l : k ∉ key <$> l → find_key k l = None.
Proof.
  induction l as [|m l IH]; simpl; [done|]. intros [Hne Hno]%not_elem_of_cons.
  destruct (Z.eqb_spec (key m) k) as [E|E]; [congruence|auto].
Qed.

(** The index agrees with the list. *)
Lemma rep_find c es k :
  rep c es →
  (∃ a n, mm c !! k = Some a ∧ heap c !! a = Some n ∧ (a, n) ∈ es ∧ key n = k ∧ find_key k es.*2 = Some n) ∨
  (mm c !! k = None ∧ (k ∉ key <$> es.*2) ∧ find_key k es.*2 = None).
Proof.
  intros Hr. destruct (mm c !! k) as [a|] eqn:E; [left|right].
  - destruct (proj1 (rep_mm _ _ Hr k a) E) as (n & Hin & <-). exists a, n.
    split_and!; [done|by apply (rep_heap _ _ Hr)|done|done|]. apply find_key_Some; [apply (rep_keys _ _ Hr)|].
    apply list_elem_of_fmap. by exists (a, n).
  - assert (k ∉ key <$> es.*2) as Hno; [|by rewrite find_key_None].
    intros (n & -> & ([a m] & -> & Hin)%list_elem_of_fmap)%list_elem_of_fmap. simpl in *.
    assert (mm c !! key m = Some a) as E2 by (apply (rep_mm _ _ Hr); eauto). congruence.
Qed.

Lemma rep_size c es : rep c es → size (mm c) = length es.
Proof.
  intros Hr. assert (mm c = list_to_map ((λ e, (key e.2, e.1)) <$> es)) as ->.
  { apply map_eq. intros k. apply option_eq. intros a. rewrite (rep_mm _ _ Hr), <-elem_of_list_to_map.
    - rewrite list_elem_of_fmap. split.
      + intros (n & Hin & <-). by exists (a, n).
      + intros ([b n] & E & Hin). simplify_eq. eauto.
    - rewrite <-list_fmap_compose. pose proof (rep_keys _ _ Hr) as Hk. by rewrite <-list_fmap_compose in Hk. }
  rewrite map_size_list_to_map, length_fmap; [done|].
  rewrite <-list_fmap_compose. pose proof (rep_keys _ _ Hr) as Hk. by rewrite <-list_fmap_compose in Hk.
Qed.

Lemma others_length n es : n ∈ es → (length (others (key n) es) < length es)%nat.
Proof.
  unfold others. induction 1 as [m es|n m es _ IH]; rewrite filter_cons.
  - rewrite decide_False by tauto. simpl. apply Nat.lt_succ_r, length_filter.
  - destruct (decide _); simpl; lia.
Qed.

(** ** Refinement *)

Record lfu_inv (cap : Z) (N : Z) (c : LFUCache) (es : store) : Prop := {
  inv_rep : rep c es;
  inv_min : min_ok c es;
  inv_cap : Tcapacity c = cap;
  inv_size : length es ≤ cap;
  inv_freq : ∀ a n, (a, n) ∈ es → 1 ≤ freq n ≤ N
}.

Lemma touch_step cap N c es a n v :
  N < INT_MAX → lfu_inv cap N c es → (a, n) ∈ es → value n = v →
  ∃ c' es', updateFreq c (key n) = Some c' ∧ lfu_inv cap (N + 1) c' es' ∧
    es'.*2 = {| key := key n; value := v; freq := freq n + 1 |} :: others (key n) es.*2.
Proof.
  intros HN [Hr Hmin Hcap Hsz Hf] Hin <-. pose proof (Hf _ _ Hin) as Hfn.
  destruct (updateFreq_spec c es a n Hr Hmin Hin) as (c' & Hu & Hr' & Hmin' & Hc'); [auto with cpp|].
  eexists _, _. split; [done|]. split; [split; [done|done|congruence|..]|].
  - simpl. pose proof (others_length n es.*2) as Hl. rewrite <-(drop_entries c es a n), !length_fmap in Hl by done.
    assert (n ∈ es.*2) as Hn by (apply list_elem_of_fmap; by exists (a, n)). specialize (Hl Hn). lia.
  - intros b m [?|[_ Hm]%elem_drop]%elem_of_cons; [simplify_eq; simpl; lia|]. specialize (Hf _ _ Hm). lia.
  - simpl. f_equal. by apply (drop_entries c).
Qed.

Lemma insert_step cap N c es k v :
  0 ≤ N → rep c es → Tcapacity c = cap → length es < cap → (∀ a n, (a, n) ∈ es → 1 ≤ freq n ≤ N) →
  k ∉ key <$> es.*2 →
  lfu_inv cap (N + 1)
    (push_node {| same_freq := same_freq c; mm := mm c; minFrequency := 1; Tcapacity := Tcapacity c;
                  heap := heap c; next_addr := next_addr c |} {| key := k; value := v; freq := 1 |})
    ((next_addr c, {| key := k; value := v; freq := 1 |}) :: es).
Proof.
  intros HN Hr Hcap Hlt Hf Hno.
  assert (rep {| same_freq := same_freq c; mm := mm c; minFrequency := 1; Tcapacity := Tcapacity c;
                 heap := heap c; next_addr := next_addr c |} es) as Hr' by (destruct Hr; by split).
  split; [exact (push_spec _ es {| key := k; value := v; freq := 1 |} Hr' Hno)|..]; simpl.
  - intros _. simpl. split; [eexists _, _; split; [by left|done]|].
    intros a n [?|Hin]%elem_of_cons; [by simplify_eq|]. by apply Hf in Hin as [? _].
  - done.
  - lia.
  - intros a n [?|Hin]%elem_of_cons; [simplify_eq; simpl; lia|]. apply Hf in Hin. lia.
Qed.

Lemma put_step cap N c es k v :
  0 ≤ cap ≤ INT_MAX → 0 ≤ N < INT_MAX → lfu_inv cap N c es →
  ∃ c' es', put c k v = Some c' ∧ lfu_inv cap (N + 1) c' es' ∧ policy_step cap es.*2 (Put k v) = (es'.*2, None).
Proof.
  intros Hcap HN Hinv. destruct (id Hinv) as [Hr Hmin Ecap Hsz Hf]. unfold put. simpl. subst cap.
  destruct (Z.eqb_spec (Tcapacity c) 0) as [E0|H0].
  { exists c, es. split; [done|]. split; [|done]. split; [done..|]. intros a n Hin. specialize (Hf _ _ Hin). lia. }
  destruct (rep_find c es k Hr) as [(a & n & -> & Hh & Hin & <- & ->)|(-> & Hno & ->)].
  - rewrite Hh. cbn [mbind option_bind]. set (n' := {| key := key n; value := v; freq := freq n |}).
    set (c1 := Build_LFUCache _ _ _ _ _ _).
    assert ((a, n') ∈ set_value a v es) as Hin' by (apply elem_set_value; eauto).
    assert (lfu_inv (Tcapacity c) N c1 (set_value a v es)) as Hinv1.
    { split; [by apply value_spec| |done|unfold set_value; by rewrite length_fmap|].
      - intros _. destruct Hmin as [(b & m & Hb & Hm) Hle]; [by intros ->; apply elem_of_nil in Hin|]. simpl. split.
        + destruct (decide (b = a)) as [->|Hne].
          * exists a, n'. split; [done|]. simpl. by rewrite <-Hm, (rep_inj c es a m n).
          * exists b, m. split; [apply elem_set_value; eauto|done].
        + intros b' m' [[_ ?]|(-> & m0 & Hm0 & ->)]%elem_set_value; [eauto|simpl; eauto].
      - intros b m [[_ Hb]|(-> & m0 & Hm0 & ->)]%elem_set_value; simpl; eauto. }
    destruct (touch_step (Tcapacity c) N c1 (set_value a v es) a n' v) as (c' & es' & Hu & Hinv' & Hes'); [lia|done|done|done|].
    exists c', es'. split; [done|]. split; [done|]. rewrite Hes'. do 2 f_equal. simpl.
    rewrite <-(drop_entries c es a n) by done. rewrite <-(drop_set_value a v).
    exact (drop_entries c1 _ a n' (inv_rep _ _ _ _ Hinv1) Hin').
  - rewrite (rep_size c es), to_size_t_id, length_fmap by done. destruct (Z.eqb_spec (length es) (Tcapacity c)) as [Hfull|Hroom].
    + destruct (evict_spec c es) as (c1 & a & n & -> & Hin & -> & Hr1 & Hc1); [done..|by intros ->; simpl in *; lia|].
      cbn [mbind option_bind]. eexists _, _. split; [done|].
      assert (n ∈ es.*2) as Hn by (apply list_elem_of_fmap; by exists (a, n)).
      pose proof (others_length n es.*2 Hn) as Hl. rewrite <-(drop_entries c es a n), !length_fmap in Hl by done.
      split; [apply insert_step; [lia|done|congruence|lia| |]|].
      * intros b m [_ Hb]%elem_drop. eauto.
      * rewrite (drop_entries c es a n) by done. intros (m & -> & [_ Hm]%list_elem_of_filter)%list_elem_of_fmap.
        by apply Hno, list_elem_of_fmap_2.
      * rewrite fmap_cons. by rewrite (drop_entries c es a n).
    + cbn [mbind option_bind]. eexists _, ((next_addr c, {| key := k; value := v; freq := 1 |}) :: es). split; [done|]. split; [|done].
      apply insert_step; [lia|done|done|lia|done|done].
Qed.

Lemma lfu_step_spec cap N c es o :
  0 ≤ cap ≤ INT_MAX → 0 ≤ N < INT_MAX → lfu_inv cap N c es →
  ∃ c' es' r, lfu_step c o = Some (c', r) ∧ lfu_inv cap (N + 1) c' es' ∧ policy_step cap es.*2 o = (es'.*2, r).
Proof.
  intros Hcap HN Hinv. destruct o as [k|k v].
  - simpl. unfold get. destruct (rep_find c es k (inv_rep _ _ _ _ Hinv)) as [(a & n & -> & -> & Hin & <- & ->)|(-> & _ & ->)].
    + destruct (touch_step cap N c es a n (value n)) as (c' & es' & Hu & Hinv' & Hes'); [lia|done|done|done|].
      simpl. rewrite Hu. simpl. exists c', es', (Some (value n)). by rewrite Hes'.
    + simpl. exists c, es, (Some (-1)). split; [done|]. split; [|done]. destruct Hinv as [? ? ? ? Hf]. split; [done..|].
      intros a n Hin. specialize (Hf _ _ Hin). lia.
  - destruct (put_step cap N c es k v Hcap HN Hinv) as (c' & es' & Hp & Hinv' & Hpol). cbn [lfu_step]. rewrite Hp.
    exists c', es', None. done.
Qed.

Lemma lfu_run cap N c es os :
  0 ≤ cap ≤ INT_MAX → 0 ≤ N → N + length os ≤ INT_MAX → lfu_inv cap N c es →
  ∃ c' es', run_out lfu_step c os = Some (c', (policy_run cap es.*2 os).2) ∧
    lfu_inv cap (N + length os) c' es' ∧ es'.*2 = (policy_run cap es.*2 os).1.
Proof.
  intros Hcap. revert N c es. induction os as [|o os IH]; intros N c es HN Hlen Hinv.
  { exists c, es. simpl. by rewrite Z.add_0_r. }
  cbn [length run_out policy_run] in *.
  destruct (lfu_step_spec cap N c es o) as (c1 & es1 & r & -> & Hinv1 & ->); [done|lia|done|].
  destruct (IH (N + 1) c1 es1) as (c' & es' & Hrun & Hinv' & Hes'); [lia|lia|done|]. simpl. rewrite Hrun. simpl.
  destruct (policy_run cap es1.*2 os) as [es2 rs]. simpl in *. exists c', es'. split; [done|].
  replace (N + S (length os)) with (N + 1 + length os) by lia. done.
Qed.


