(* ===== verification/LockFree.v ===== *)
(** * Lock-free ring buffers

    [src/CAS/LockFree_SPSC_RingBuffer.cpp] and [src/concurrency/Lockfree_RingBuffer.cpp]:
    a ring with one producer and one consumer thread and no lock; they share the buffer
    and two atomic positions ([write_pos]/[tail] and [read_pos]/[head]).  Every access
    to the shared memory is a step of its own, and the two threads interleave freely.
    Memory is sequentially consistent: the weaker orderings that the acquire and release
    annotations would allow are not part of the model.

    Positions stay below the capacity, so their arithmetic does not overflow. *)
From S2P Require Import Prelude.
Local Open Scope nat_scope.

Section ring.
Context {T : Type}.

(** Where the producer is in [push(val)]. *)
Inductive Producer :=
  | P_idle
  | P_loaded (val : T) (write next : nat)
  | P_write (val : T) (write next : nat)
  | P_publish (val : T) (write next : nat).

(** Where the consumer is in [pop(val)]. *)
Inductive Consumer :=
  | C_idle
  | C_loaded (read next : nat)
  | C_read (read next : nat)
  | C_publish (val : T) (read next : nat).

Inductive Answer := PushTrue (val : T) | PushFalse | PopTrue (val : T) | PopFalse.

Record Ring := {
  buffer : list T;
  write_pos : nat;
  read_pos : nat;
  producer : Producer;
  consumer : Consumer;
  answers : list Answer
}.

Definition Ring_make (capacity : nat) (zero : T) : Ring :=
  {| buffer := replicate capacity zero; write_pos := 0; read_pos := 0; producer := P_idle; consumer := C_idle;
     answers := [] |}.

Context (capacity : nat).

Definition at_producer (r : Ring) (p : Producer) : Ring :=
  {| buffer := buffer r; write_pos := write_pos r; read_pos := read_pos r; producer := p; consumer := consumer r;
     answers := answers r |}.

Definition at_consumer (r : Ring) (c : Consumer) : Ring :=
  {| buffer := buffer r; write_pos := write_pos r; read_pos := read_pos r; producer := producer r; consumer := c;
     answers := answers r |}.

Definition answer (r : Ring) (a : Answer) : Ring :=
  {| buffer := buffer r; write_pos := write_pos r; read_pos := read_pos r; producer := producer r;
     consumer := consumer r; answers := answers r ++ [a] |}.

(** One access of [push]; an idle producer calls [push(v)].  [None]: an access out of
    range. *)
Definition push_step (r : Ring) (v : T) : option Ring :=
  match producer r with
  | P_idle => let write := write_pos r in Some (at_producer r (P_loaded v write ((write + 1) mod capacity)))
  | P_loaded val write next =>
      if next =? read_pos r then Some (answer (at_producer r P_idle) PushFalse)
      else Some (at_producer r (P_write val write next))
  | P_write val write next =>
      if write <? length (buffer r) then
        Some {| buffer := <[write := val]> (buffer r); write_pos := write_pos r; read_pos := read_pos r;
                producer := P_publish val write next; consumer := consumer r; answers := answers r |}
      else None
  | P_publish val write next =>
      Some (answer {| buffer := buffer r; write_pos := next; read_pos := read_pos r; producer := P_idle;
                      consumer := consumer r; answers := answers r |} (PushTrue val))
  end.

(** One access of [pop]. *)
Definition pop_step (r : Ring) : option Ring :=
  match consumer r with
  | C_idle => let read := read_pos r in Some (at_consumer r (C_loaded read ((read + 1) mod capacity)))
  | C_loaded read next =>
      if read =? write_pos r then Some (answer (at_consumer r C_idle) PopFalse)
      else Some (at_consumer r (C_read read next))
  | C_read read next => val ← buffer r !! read; Some (at_consumer r (C_publish val read next))
  | C_publish val read next =>
      Some (answer {| buffer := buffer r; write_pos := write_pos r; read_pos := next; producer := producer r;
                      consumer := C_idle; answers := answers r |} (PopTrue val))
  end.

(** A schedule: which thread makes its next access. *)
Inductive Turn := Producer_turn (v : T) | Consumer_turn.

Definition turn (r : Ring) (t : Turn) : option Ring :=
  match t with Producer_turn v => push_step r v | Consumer_turn => pop_step r end.

(** ** The queue *)

Definition pushed_of (a : Answer) : option T := match a with PushTrue v => Some v | _ => None end.
Definition popped_of (a : Answer) : option T := match a with PopTrue v => Some v | _ => None end.

Definition pushed (r : Ring) : list T := omap pushed_of (answers r).
Definition popped (r : Ring) : list T := omap popped_of (answers r).

Lemma pushed_answer r a : pushed (answer r a) = pushed r ++ match pushed_of a with Some v => [v] | None => [] end.
Proof. unfold pushed, answer. simpl. rewrite omap_app. simpl. by destruct (pushed_of a). Qed.

Lemma popped_answer r a : popped (answer r a) = popped r ++ match popped_of a with Some v => [v] | None => [] end.
Proof. unfold popped, answer. simpl. rewrite omap_app. simpl. by destruct (popped_of a). Qed.

Definition held (r : Ring) : nat := length (pushed r) - length (popped r).

Record ring_inv (r : Ring) : Prop := {
  r_cap : 0 < capacity;
  r_len : length (buffer r) = capacity;
  r_order : length (popped r) ≤ length (pushed r) ∧ held r < capacity;
  r_write : write_pos r = length (pushed r) mod capacity;
  r_read : read_pos r = length (popped r) mod capacity;
  r_fifo : popped r = take (length (popped r)) (pushed r);
  r_items : ∀ i, length (popped r) ≤ i < length (pushed r) → buffer r !! (i mod capacity) = pushed r !! i;
  r_producer :
    match producer r with
    | P_idle => True
    | P_loaded _ w n => w = write_pos r ∧ n = (w + 1) mod capacity
    | P_write _ w n => w = write_pos r ∧ n = (w + 1) mod capacity ∧ held r + 1 < capacity
    | P_publish v w n => w = write_pos r ∧ n = (w + 1) mod capacity ∧ held r + 1 < capacity ∧ buffer r !! w = Some v
    end;
  r_consumer :
    match consumer r with
    | C_idle => True
    | C_loaded d n => d = read_pos r ∧ n = (d + 1) mod capacity
    | C_read d n => d = read_pos r ∧ n = (d + 1) mod capacity ∧ 0 < held r
    | C_publish v d n => d = read_pos r ∧ n = (d + 1) mod capacity ∧ pushed r !! length (popped r) = Some v
    end
}.

Lemma mod_window N i k : 0 < N → i ≤ k → k - i < N → i mod N = k mod N → i = k.
Proof.
  intros HN Hle Hlt E. pose proof (Nat.div_mod_eq i N). pose proof (Nat.div_mod_eq k N).
  assert (k / N = i / N); nia.
Qed.

Lemma mod_succ N k : 0 < N → (k mod N + 1) mod N = (k + 1) mod N.
Proof. intros HN. by rewrite Nat.Div0.add_mod_idemp_l. Qed.

Lemma full_iff r :
  ring_inv r → (write_pos r + 1) mod capacity = read_pos r ↔ held r + 1 = capacity.
Proof.
  intros [HN _ [Hle Hlt] Hw Hr _ _ _ _]. rewrite Hw, Hr, mod_succ by done. unfold held in *. split.
  - intros E. destruct (decide (length (pushed r) + 1 - length (popped r) < capacity)); [|lia].
    symmetry in E. apply mod_window in E; lia.
  - intros E. replace (length (pushed r) + 1) with (length (popped r) + 1 * capacity) by lia.
    by rewrite Nat.Div0.mod_add.
Qed.

Lemma empty_iff r : ring_inv r → read_pos r = write_pos r ↔ held r = 0.
Proof.
  intros [HN _ [Hle Hlt] Hw Hr _ _ _ _]. rewrite Hw, Hr. unfold held in *. split.
  - intros E. apply mod_window in E; lia.
  - intros E. f_equal. lia.
Qed.

(** *** The producer's steps *)

Lemma push_inv r v : ring_inv r → ∃ r', push_step r v = Some r' ∧ ring_inv r'.
Proof.
  intros Hinv. destruct (id Hinv) as [HN Hlen [Hle Hlt] Hw Hr Hfifo Hitems Hp Hc]. unfold push_step.
  destruct (producer r) as [|x w n|x w n|x w n] eqn:Ep.
  - eexists. split; [done|]. by split.
  - destruct Hp as [-> ->]. destruct (Nat.eqb_spec ((write_pos r + 1) mod capacity) (read_pos r)) as [E|E].
    + eexists. split; [done|]. split; rewrite ?pushed_answer, ?popped_answer; unfold held in *;
        rewrite ?pushed_answer, ?popped_answer; simpl; rewrite ?app_nil_r; done.
    + eexists. split; [done|]. split; [done..| |done]. simpl. split; [done|]. split; [done|].
      destruct (decide (held r + 1 = capacity)) as [E'|]; [|change (held r + 1 < capacity); lia].
      by apply (full_iff r) in E'.
  - destruct Hp as (-> & -> & Hroom). assert (write_pos r < length (buffer r)) as Hb.
    { rewrite Hlen, Hw. apply Nat.mod_upper_bound. lia. }
    destruct (Nat.ltb_spec (write_pos r) (length (buffer r))); [|lia]. eexists. split; [done|]. split; [|simpl..]; try done.
    + by rewrite length_insert.
    + intros i Hi. rewrite list_lookup_insert_ne; [by apply Hitems|]. rewrite Hw. intros E. symmetry in E.
      apply mod_window in E; unfold held in *; simpl in *; unfold pushed, popped in *; simpl in *; lia.
    + split_and!; [done..|]. by apply list_lookup_insert_eq.
  - destruct Hp as (-> & -> & Hroom & Hx). eexists. split; [done|].
    split; unfold held; rewrite ?pushed_answer, ?popped_answer; simpl; rewrite ?app_nil_r, ?length_app; simpl;
      change (pushed _) with (pushed r); change (popped _) with (popped r); unfold held in *; try done.
    + lia.
    + by rewrite Hw, mod_succ.
    + by rewrite take_app_le by lia.
    + intros i Hi. destruct (decide (i = length (pushed r))) as [->|Hne].
      * rewrite <-Hw, Hx, lookup_app_r, Nat.sub_diag by lia. done.
      * rewrite lookup_app_l by lia. apply Hitems. lia.
    + destruct (consumer r); try done.
      * destruct Hc as (? & ? & ?). split_and!; [done..|]. lia.
      * destruct Hc as (? & ? & Hl). split_and!; [done..|]. by apply lookup_app_l_Some.
Qed.

(** *** The consumer's steps *)

Lemma pop_inv r : ring_inv r → ∃ r', pop_step r = Some r' ∧ ring_inv r'.
Proof.
  intros Hinv. destruct (id Hinv) as [HN Hlen [Hle Hlt] Hw Hr Hfifo Hitems Hp Hc]. unfold pop_step.
  destruct (consumer r) as [|d n|d n|x d n] eqn:Ec.
  - eexists. split; [done|]. by split.
  - destruct Hc as [-> ->]. destruct (Nat.eqb_spec (read_pos r) (write_pos r)) as [E|E].
    + eexists. split; [done|]. split; unfold held in *; rewrite ?pushed_answer, ?popped_answer; simpl;
        rewrite ?app_nil_r; done.
    + eexists. split; [done|]. split; [done..|]. simpl. split; [done|]. split; [done|].
      destruct (decide (held r = 0)) as [E'|]; [|change (0 < held r); lia]. by apply (empty_iff r) in E'.
  - destruct Hc as (-> & -> & Hsome). destruct (lookup_lt_is_Some_2 (pushed r) (length (popped r))) as [y Hy].
    { unfold held in Hsome. lia. }
    assert (buffer r !! read_pos r = Some y) as ->.
    { rewrite Hr, Hitems; [done|]. unfold held in Hsome. lia. }
    eexists. split; [done|]. by split.
  - destruct Hc as (-> & -> & Hx). apply lookup_lt_Some in Hx as Hlt2. eexists. split; [done|].
    split; unfold held; rewrite ?pushed_answer, ?popped_answer; simpl; rewrite ?app_nil_r, ?length_app; simpl;
      change (pushed _) with (pushed r); change (popped _) with (popped r); unfold held in *; try done.
    + lia.
    + by rewrite Hr, mod_succ.
    + rewrite Nat.add_1_r. erewrite take_S_r by done. by rewrite <-Hfifo.
    + intros i Hi. apply Hitems. lia.
    + destruct (producer r); try done.
      * destruct Hp as (? & ? & ?). split_and!; [done..|]. lia.
      * destruct Hp as (? & ? & ? & ?). split_and!; [done..| |done]. lia.
Qed.

Lemma run_ring_inv r ts : ring_inv r → ∃ r', run_ops turn r ts = Some r' ∧ ring_inv r'.
Proof.
  revert r. induction ts as [|t ts IH]; intros r Hinv; simpl; [by eauto|].
  assert (∃ r1, turn r t = Some r1 ∧ ring_inv r1) as (r1 & -> & Hinv1); [|by apply IH].
  destruct t; [by apply push_inv|by apply pop_inv].
Qed.

Lemma make_inv zero : 0 < capacity → ring_inv (Ring_make capacity zero).
Proof.
  intros HN. split; simpl; try done.
  - apply length_replicate.
  - by rewrite Nat.Div0.mod_0_l.
  - by rewrite Nat.Div0.mod_0_l.
  - intros i Hi. simpl in Hi. lia.
Qed.

(** A [push] that runs alone on a ring with room is done after its four accesses. *)
Lemma push_alone r v :
  ring_inv r → producer r = P_idle → held r + 1 < capacity →
  ∃ r', run_ops turn r (replicate 4 (Producer_turn v)) = Some r' ∧ answers r' = answers r ++ [PushTrue v].
Proof.
  intros Hinv Hidle Hroom. simpl. unfold push_step. rewrite Hidle. simpl.
  destruct (Nat.eqb_spec ((write_pos r + 1) mod capacity) (read_pos r)) as [E|E].
  { apply full_iff in E; [lia|done]. }
  simpl. destruct (Nat.ltb_spec (write_pos r) (length (buffer r))) as [Hb|Hb]; [by eexists|].
  rewrite (r_write _ Hinv), (r_len _ Hinv) in Hb. pose proof (r_cap _ Hinv).
  pose proof (Nat.mod_upper_bound (length (pushed r)) capacity). lia.
Qed.

Lemma pop_alone r x :
  ring_inv r → consumer r = C_idle → pushed r !! length (popped r) = Some x →
  ∃ r', run_ops turn r (replicate 4 Consumer_turn) = Some r' ∧ answers r' = answers r ++ [PopTrue x].
Proof.
  intros Hinv Hidle Hx. apply lookup_lt_Some in Hx as Hlt. simpl. unfold pop_step. rewrite Hidle. simpl.
  destruct (Nat.eqb_spec (read_pos r) (write_pos r)) as [E|E].
  { apply empty_iff in E; [|done]. unfold held in E. lia. }
  simpl. rewrite (r_read _ Hinv), (r_items _ Hinv), Hx by lia. simpl. by eexists.
Qed.

(** For every capacity and every interleaving of the accesses of one producer and
    one consumer, no access is out of range; the values popped are the values pushed, in
    order, with fewer than [capacity] in between; the two threads never access the same
    slot at once; [push] fails only when [capacity - 1] values are stored and [pop] only
    when there is none; and otherwise a call that runs alone succeeds after four
    accesses. *)
Theorem spsc_ring_queue zero ts :
  0 < capacity →
  ∃ r rest, run_ops turn (Ring_make capacity zero) ts = Some r ∧
    pushed r = popped r ++ rest ∧ length rest < capacity ∧
    (∀ v w n d m, producer r = P_write v w n → consumer r = C_read d m → w ≠ d) ∧
    (∀ v r', push_step r v = Some r' → answers r' = answers r ++ [PushFalse] → length rest + 1 = capacity) ∧
    (∀ r', pop_step r = Some r' → answers r' = answers r ++ [PopFalse] → rest = []) ∧
    (∀ v, producer r = P_idle → length rest + 1 < capacity →
       ∃ r', run_ops turn r (replicate 4 (Producer_turn v)) = Some r' ∧ answers r' = answers r ++ [PushTrue v]) ∧
    (∀ x, consumer r = C_idle → head rest = Some x →
       ∃ r', run_ops turn r (replicate 4 Consumer_turn) = Some r' ∧ answers r' = answers r ++ [PopTrue x]).
Proof.
  intros HN. destruct (run_ring_inv (Ring_make capacity zero) ts (make_inv zero HN)) as (r & -> & Hinv).
  exists r, (drop (length (popped r)) (pushed r)). split; [done|].
  destruct (id Hinv) as [_ Hlen [Hle Hlt] Hw Hr Hfifo Hitems Hp Hc].
  assert (length (drop (length (popped r)) (pushed r)) = held r) as Hheld by apply length_drop. rewrite Hheld.
  assert (∀ l : list (@Answer), l ≠ l ++ [PushFalse] ∧ l ≠ l ++ [PopFalse]) as Happ.
  { intros l. split; intros E%(f_equal length); rewrite length_app in E; simpl in E; lia. }
  split; [rewrite Hfifo at 1; by rewrite take_drop|]. split; [done|]. split_and!.
  - intros v w n d m Ep Ec. rewrite Ep in Hp. rewrite Ec in Hc. destruct Hp as (-> & _ & _), Hc as (-> & _ & Hs).
    intros E. symmetry in E. apply (empty_iff r) in E; [lia|done].
  - intros v r' Hs Ha. unfold push_step in Hs. destruct (producer r) as [|x w n|x w n|x w n] eqn:Ep.
    + simplify_eq. by apply Happ in Ha.
    + destruct Hp as [-> ->]. destruct (Nat.eqb_spec ((write_pos r + 1) mod capacity) (read_pos r)) as [E|E].
      * by apply full_iff.
      * simplify_eq. by apply Happ in Ha.
    + destruct (_ <? _); [|done]. simplify_eq. by apply Happ in Ha.
    + simplify_eq. simpl in Ha. apply app_inj_2 in Ha as [_ Ha]; [|done]. done.
  - intros r' Hs Ha. apply nil_length_inv. rewrite Hheld. unfold pop_step in Hs.
    destruct (consumer r) as [|d n|d n|x d n] eqn:Ec.
    + simplify_eq. by apply Happ in Ha.
    + destruct Hc as [-> ->]. destruct (Nat.eqb_spec (read_pos r) (write_pos r)) as [E|E].
      * by apply empty_iff.
      * simplify_eq. by apply Happ in Ha.
    + destruct (buffer r !! d); simpl in Hs; [|done]. simplify_eq. by apply Happ in Ha.
    + simplify_eq. simpl in Ha. apply app_inj_2 in Ha as [_ Ha]; [|done]. done.
  - intros v Hidle Hroom. by apply push_alone.
  - intros x Hidle Hx. apply pop_alone; [done..|]. by rewrite head_lookup, lookup_drop, Nat.add_0_r in Hx.
Qed.
End ring.

Arguments Ring : clear implicits.
Arguments Turn : clear implicits.

Lemma spsc_ring_queue_witness :
  ∃ r rest, run_ops (turn 3) (Ring_make 3 0%Z)
      [Producer_turn 7%Z; Consumer_turn; Producer_turn 0%Z; Consumer_turn; Producer_turn 0%Z; Producer_turn 0%Z;
       Consumer_turn; Producer_turn 8%Z; Consumer_turn; Consumer_turn; Consumer_turn] = Some r ∧
    pushed r = popped r ++ rest ∧ popped r = [7%Z].
Proof.
  destruct (spsc_ring_queue 3 0%Z
    [Producer_turn 7%Z; Consumer_turn; Producer_turn 0%Z; Consumer_turn; Producer_turn 0%Z; Producer_turn 0%Z;
     Consumer_turn; Producer_turn 8%Z; Consumer_turn; Consumer_turn; Consumer_turn]) as (r & rest & Hr & Hq & _).
  - lia.
  - exists r, rest. split; [exact Hr|]. split; [exact Hq|]. vm_compute in Hr. injection Hr as <-. reflexivity.
Defined.

(** ** The two classes *)

Module SPSC.
Definition BUFFER_SIZE : nat := 8.
Definition SPSC_Queue : Type := Ring Z.
Definition SPSC_Queue_make : SPSC_Queue := Ring_make BUFFER_SIZE 0%Z.
Definition push (q : SPSC_Queue) (val : Z) : option SPSC_Queue := push_step BUFFER_SIZE q val.
Definition pop (q : SPSC_Queue) : option SPSC_Queue := pop_step BUFFER_SIZE q.
End SPSC.
