(* ===== verification/MergeSort.v ===== *)
(** * Parallel merge sort

    [src/algorithms/MergeSort_parallel.cpp]: the array is sorted in place; down to a
    depth that depends on the number of cores, the two halves are sorted by two
    threads, below it by recursive calls.  The threads work on disjoint ranges of the
    array ([merge_sort_spec]: a call reads and writes its own range only), so the order
    in which they run is represented by an arbitrary choice of which half goes first. *)
From S2P Require Import Prelude.
Local Open Scope Z_scope.

(** [while (i <= mid && j <= right)]: what is pushed, and where the indices end. *)
Fixpoint merge_loop (fuel : nat) (arr : list Z) (i mid j right : Z) : option (list Z * Z * Z) :=
  match fuel with
  | O => None
  | S fuel =>
      if (i <=? mid) && (j <=? right) then
        a ← vget arr i;
        b ← vget arr j;
        if a <=? b then '(temp, i, j) ← merge_loop fuel arr (i + 1) mid j right; Some (a :: temp, i, j)
        else '(temp, i, j) ← merge_loop fuel arr i mid (j + 1) right; Some (b :: temp, i, j)
      else Some ([], i, j)
  end.

(** [while (i <= last) temp.push_back(arr[i++])] *)
Fixpoint copy_loop (fuel : nat) (arr : list Z) (i last : Z) : option (list Z) :=
  match fuel with
  | O => None
  | S fuel => if i <=? last then a ← vget arr i; temp ← copy_loop fuel arr (i + 1) last; Some (a :: temp) else Some []
  end.

(** [arr[left + k] = temp[k]] for all [k] *)
Fixpoint write_back (arr : list Z) (pos : Z) (temp : list Z) : option (list Z) :=
  match temp with
  | [] => Some arr
  | x :: temp => arr ← vset arr pos x; write_back arr (pos + 1) temp
  end.

Definition merge (arr : list Z) (left mid right : Z) : option (list Z) :=
  let fuel := S (length arr) in
  '(temp, i, j) ← merge_loop fuel arr left mid (mid + 1) right;
  rest1 ← copy_loop fuel arr i mid;
  rest2 ← copy_loop fuel arr j right;
  write_back arr left (temp ++ rest1 ++ rest2).

(** The two halves, sorted by two threads ([parallel]) or one after the other; [first]:
    the thread of the left half goes first. *)
Definition both (parallel first : bool) (sort_left sort_right : list Z → option (list Z)) (arr : list Z) :
    option (list Z) :=
  if parallel then
    if first then arr ← sort_left arr; sort_right arr else arr ← sort_right arr; sort_left arr
  else arr ← sort_left arr; sort_right arr.

Section sort.
(** The depth down to which threads are used, and which of the two threads of a call
    goes first. *)
Context (max_depth : Z) (left_first : list Z → Z → Z → bool).

Fixpoint merge_sort (fuel : nat) (arr : list Z) (left right curr_depth : Z) : option (list Z) :=
  match fuel with
  | O => None
  | S fuel =>
      if right <=? left then Some arr
      else
        let mid := left + Z.quot (right - left) 2 in
        arr ← both (curr_depth <? max_depth) (left_first arr left right)
                (λ arr, merge_sort fuel arr left mid (curr_depth + 1))
                (λ arr, merge_sort fuel arr (mid + 1) right (curr_depth + 1)) arr;
        merge arr left mid right
  end.

(** [arr.size() - 1] is computed in [size_t] and converted to [int]. *)
Definition sort (arr : list Z) : option (list Z) :=
  merge_sort (S (length arr)) arr 0 (int32 (to_size_t (length arr - 1))) 0.
End sort.

(** ** Ranges of the array *)

(** [arr[i .. last]] *)
Definition range (arr : list Z) (i last : Z) : list Z := drop (Z.to_nat i) (take (Z.to_nat (last + 1)) arr).

Lemma range_cons arr i last x :
  0 ≤ i ≤ last → vget arr i = Some x → range arr i last = x :: range arr (i + 1) last.
Proof.
  intros Hi Hx. unfold vget in Hx. destruct (Z.ltb_spec i 0); [lia|]. unfold range.
  rewrite (drop_S _ x) by (by apply lookup_take_Some; split; [|lia]). by replace (Z.to_nat (i + 1)) with (S (Z.to_nat i)) by lia.
Qed.

Lemma range_empty arr i last : last < i → 0 ≤ i → range arr i last = [].
Proof. intros Hlt Hi. unfold range. apply drop_ge. rewrite length_take. lia. Qed.

Lemma range_mid A B C (i last : Z) :
  i = length A → last + 1 = length A + length B → range (A ++ B ++ C) i last = B.
Proof.
  intros -> Hl. unfold range. rewrite app_assoc, take_app_le by (rewrite length_app; lia).
  rewrite take_ge by (rewrite length_app; lia). by rewrite drop_app_length' by lia.
Qed.

(** ** Merging *)

Lemma merge_loop_spec (fuel : nat) arr i mid j right :
  0 ≤ i ≤ mid + 1 → mid < length arr → 0 ≤ j ≤ right + 1 → right < length arr →
  (mid + 1 - i) + (right + 1 - j) < fuel →
  ∃ temp i' j', merge_loop fuel arr i mid j right = Some (temp, i', j') ∧ 0 ≤ i' ∧ 0 ≤ j' ∧ i ≤ i' ∧ j ≤ j' ∧
    temp ++ range arr i' mid ++ range arr j' right = list_merge Z.le (range arr i mid) (range arr j right).
Proof.
  revert i j. induction fuel as [|fuel IH]; intros i j Hi Hmid Hj Hright Hfuel; [lia|]. cbn [merge_loop].
  destruct (Z.leb_spec i mid) as [Hle|Hgt]; simpl.
  2:{ exists [], i, j. split_and!; [done|lia..|]. rewrite (range_empty arr i mid) by lia. by rewrite list_merge_nil_l. }
  destruct (Z.leb_spec j right) as [Hle2|Hgt]; simpl.
  2:{ exists [], i, j. split_and!; [done|lia..|]. rewrite (range_empty arr j right) by lia.
      by rewrite list_merge_nil_r, app_nil_r. }
  destruct (vget_in arr i) as (a & Ha & _); [lia|]. destruct (vget_in arr j) as (b & Hb & _); [lia|].
  rewrite Ha, Hb. cbn [mbind option_bind].
  rewrite (range_cons arr i mid a), (range_cons arr j right b) by (done || lia). rewrite list_merge_cons.
  destruct (Z.leb_spec a b) as [Hab|Hab].
  - destruct (IH (i + 1) j) as (temp & i' & j' & -> & ? & ? & ? & ? & Heq); [lia..|]. exists (a :: temp), i', j'.
    split_and!; [done|lia..|]. rewrite decide_True by done. simpl. f_equal. by rewrite Heq, (range_cons arr j right b) by (done || lia).
  - destruct (IH i (j + 1)) as (temp & i' & j' & -> & ? & ? & ? & ? & Heq); [lia..|]. exists (b :: temp), i', j'.
    split_and!; [done|lia..|]. rewrite decide_False by lia. simpl. f_equal. by rewrite Heq, (range_cons arr i mid a) by (done || lia).
Qed.

Lemma copy_loop_spec (fuel : nat) arr i last :
  0 ≤ i → last < length arr → last + 1 - i < fuel → 0 < fuel → copy_loop fuel arr i last = Some (range arr i last).
Proof.
  revert i. induction fuel as [|fuel IH]; intros i Hi Hlast Hfuel Hpos; [lia|]. cbn [copy_loop].
  destruct (Z.leb_spec i last) as [Hle|Hgt]; [|by rewrite range_empty by lia].
  destruct (vget_in arr i) as (a & Ha & _); [lia|]. rewrite Ha. cbn [mbind option_bind].
  rewrite IH by lia. by rewrite (range_cons arr i last a) by (done || lia).
Qed.

Lemma write_back_spec A B C temp (pos : Z) :
  length temp = length B → pos = length A → write_back (A ++ B ++ C) pos temp = Some (A ++ temp ++ C).
Proof.
  revert A B pos. induction temp as [|x temp IH]; intros A B pos Hlen ->; destruct B as [|b B]; try done.
  cbn [write_back]. unfold vset. rewrite decide_True by (rewrite length_app; simpl; lia). cbn [mbind option_bind].
  rewrite Nat2Z.id, insert_app_r_alt, Nat.sub_diag by lia. simpl.
  specialize (IH (A ++ [x]) B (length A + 1)). rewrite <-!app_assoc in IH. simpl in IH. apply IH.
  - simpl in Hlen. lia.
  - rewrite length_app. simpl. lia.
Qed.

Lemma merge_mid A l1 l2 C (left mid right : Z) :
  left = length A → mid + 1 = length A + length l1 → right + 1 = mid + 1 + length l2 →
  merge (A ++ (l1 ++ l2) ++ C) left mid right = Some (A ++ list_merge Z.le l1 l2 ++ C).
Proof.
  intros Hl Hm Hr. unfold merge. set (arr := A ++ (l1 ++ l2) ++ C).
  assert (Z.of_nat (length arr) = length A + length l1 + length l2 + length C) as Hlen.
  { unfold arr. rewrite !length_app. lia. }
  destruct (merge_loop_spec (S (length arr)) arr left mid (mid + 1) right) as (temp & i & j & -> & Hi & Hj & Hi' & Hj' & Heq);
    [lia..|].
  cbn [mbind option_bind]. rewrite !copy_loop_spec by lia. cbn [mbind option_bind]. rewrite Heq.
  assert (range arr left mid = l1) as ->.
  { unfold arr. rewrite <-app_assoc. apply range_mid; lia. }
  assert (range arr (mid + 1) right = l2) as ->.
  { unfold arr. rewrite <-app_assoc, app_assoc. apply range_mid; rewrite length_app; lia. }
  apply write_back_spec; [|done]. rewrite (Permutation_length (merge_Permutation _ l1 l2)). done.
Qed.

(** ** Sorting: a call sorts its own range and touches nothing else *)

(** [f] sorts the range [B] between [A] and [C]. *)
Definition sorts (f : list Z → option (list Z)) (A B C : list Z) : Prop :=
  ∃ s, f (A ++ B ++ C) = Some (A ++ s ++ C) ∧ Sorted Z.le s ∧ s ≡ₚ B.

(** The halves do not disturb each other, in whatever order they run. *)
Lemma both_sorts parallel first f g A B1 B2 C :
  (∀ B, sorts f A B1 (B ++ C)) → (∀ B, length B = length B1 → sorts g (A ++ B) B2 C) →
  ∃ s1 s2, both parallel first f g (A ++ (B1 ++ B2) ++ C) = Some (A ++ (s1 ++ s2) ++ C) ∧
    Sorted Z.le s1 ∧ Sorted Z.le s2 ∧ s1 ≡ₚ B1 ∧ s2 ≡ₚ B2.
Proof.
  intros Hf Hg.
  assert (∃ s1 s2, (arr ← f (A ++ (B1 ++ B2) ++ C); g arr) = Some (A ++ (s1 ++ s2) ++ C) ∧
    Sorted Z.le s1 ∧ Sorted Z.le s2 ∧ s1 ≡ₚ B1 ∧ s2 ≡ₚ B2) as Hlr.
  { destruct (Hf B2) as (s1 & E1 & Hs1 & Hp1). destruct (Hg s1) as (s2 & E2 & Hs2 & Hp2); [by apply Permutation_length|].
    exists s1, s2. rewrite <-!app_assoc in *. rewrite E1. cbn [mbind option_bind]. by rewrite E2. }
  unfold both. destruct parallel; [|done]. destruct first; [done|].
  destruct (Hg B1 eq_refl) as (s2 & E2 & Hs2 & Hp2). destruct (Hf s2) as (s1 & E1 & Hs1 & Hp1).
  exists s1, s2. rewrite <-!app_assoc in *. rewrite E2. cbn [mbind option_bind]. by rewrite E1.
Qed.

Lemma merge_sort_spec max_depth left_first (fuel : nat) A B C (left right d : Z) :
  left = length A → right + 1 = length A + length B → length B < fuel →
  sorts (λ arr, merge_sort max_depth left_first fuel arr left right d) A B C.
Proof.
  revert A B C left right d. induction fuel as [|fuel IH]; intros A B C left right d Hl Hr Hfuel; [lia|].
  unfold sorts. cbn [merge_sort]. destruct (Z.leb_spec right left) as [Hle|Hgt].
  { exists B. split; [done|]. split; [|done]. destruct B as [|b [|b' B]]; simpl in *; [constructor|by repeat constructor|lia]. }
  set (mid := left + Z.quot (right - left) 2).
  assert (left ≤ mid < right) as Hmid.
  { unfold mid. rewrite Z.quot_div_nonneg by lia. pose proof (Z.div_lt_upper_bound (right - left) 2 (right - left)).
    pose proof (Z.div_pos (right - left) 2). lia. }
  rewrite <-(take_drop (Z.to_nat (mid + 1 - left)) B). set (B1 := take _ B). set (B2 := drop _ B).
  assert (Z.of_nat (length B1) = mid + 1 - left) as H1 by (unfold B1; rewrite length_take; lia).
  assert (Z.of_nat (length B2) = right - mid) as H2 by (unfold B2; rewrite length_drop; lia). clearbody B1 B2 mid.
  destruct (both_sorts (d <? max_depth) (left_first (A ++ (B1 ++ B2) ++ C) left right)
    (λ arr, merge_sort max_depth left_first fuel arr left mid (d + 1))
    (λ arr, merge_sort max_depth left_first fuel arr (mid + 1) right (d + 1)) A B1 B2 C)
    as (s1 & s2 & -> & Hs1 & Hs2 & Hp1 & Hp2).
  - intros B'. apply IH; lia.
  - intros B' Hlen. apply IH; rewrite ?length_app; lia.
  - cbn [mbind option_bind]. exists (list_merge Z.le s1 s2).
    pose proof (Permutation_length Hp1). pose proof (Permutation_length Hp2). rewrite merge_mid by (done || lia).
    split; [done|]. split; [by apply Sorted_list_merge; [apply _|..]|]. rewrite merge_Permutation. by rewrite Hp1, Hp2.
Qed.

(** For every array of at most [INT_MAX] elements, every depth of parallelism and
    every order in which the threads of a level run, the sort terminates, never indexes
    outside the array and leaves it sorted, with the elements it had. *)
Theorem parallel_merge_sort_sorts max_depth left_first arr :
  length arr ≤ INT_MAX → ∃ out, sort max_depth left_first arr = Some out ∧ Sorted Z.le out ∧ out ≡ₚ arr.
Proof.
  intros Hlen. unfold sort.
  assert (int32 (to_size_t (length arr - 1)) = length arr - 1) as ->.
  { destruct arr; [done|]. cbn [length] in *. rewrite to_size_t_id, int32_id; int_bounds. }
  destruct (merge_sort_spec max_depth left_first (S (length arr)) [] arr [] 0 (length arr - 1) 0) as (s & Hs & ? & ?);
    [done|simpl; lia|lia|].
  simpl in Hs. rewrite !app_nil_r in Hs. eauto.
Qed.

Lemma parallel_merge_sort_sorts_witness :
  sort 2 (λ _ left _, left =? 0) [5; -1; 4; 1; 5; 9] = Some [-1; 1; 4; 5; 5; 9].
Proof.
  destruct (parallel_merge_sort_sorts 2 (λ _ left _, left =? 0) [5; -1; 4; 1; 5; 9]) as (out & Hout & _).
  - unfold INT_MAX. simpl. lia.
  - rewrite Hout. vm_compute in Hout. injection Hout as <-. reflexivity.
Defined.
