(* ===== verification/RateLimiter.v ===== *)
(** * Sliding-window rate limiter

    [src/rate-limiter/RateLimiter_SlidingWindow.cpp]: the times of the accepted requests
    are kept in one queue for all clients and one queue per client; a request is
    accepted when both, cleaned of entries older than the window, are below their
    limits.  Each call is one critical section; the clock is an argument, in
    nanoseconds, and does not go back ([steady_clock]). *)
From S2P Require Import Prelude.
Local Open Scope string_scope.
Local Open Scope list_scope.
Local Open Scope Z_scope.

Record RateLimiter := {
  globalLimit : Z;
  clientLimit : Z;
  globalQueue : list Z;
  clientQueues : gmap string (list Z)
}.

Definition RateLimiter_make (globalLimitPerSec clientLimitPerSec : Z) : RateLimiter :=
  {| globalLimit := globalLimitPerSec; clientLimit := clientLimitPerSec; globalQueue := []; clientQueues := ∅ |}.

(** Milliseconds. *)
Definition window : Z := 1000.

(** [duration_cast<milliseconds>] truncates. *)
Fixpoint cleanup (dq : list Z) (now : Z) : list Z :=
  match dq with
  | [] => []
  | front :: rest => if window <=? Z.quot (now - front) 1000000 then cleanup rest now else dq
  end.

Definition client_queue (r : RateLimiter) (clientId : string) : list Z := default [] (clientQueues r !! clientId).

Definition set_queues (r : RateLimiter) (clientId : string) (gq cq : list Z) : RateLimiter :=
  {| globalLimit := globalLimit r; clientLimit := clientLimit r; globalQueue := gq;
     clientQueues := <[clientId := cq]> (clientQueues r) |}.

Definition allowRequest (r : RateLimiter) (clientId : string) (now : Z) : RateLimiter * bool :=
  let gq := cleanup (globalQueue r) now in
  let cq := cleanup (client_queue r clientId) now in
  if to_size_t (globalLimit r) <=? length gq then (set_queues r clientId gq cq, false)
  else if to_size_t (clientLimit r) <=? length cq then (set_queues r clientId gq cq, false)
  else (set_queues r clientId (gq ++ [now]) (cq ++ [now]), true).

(** ** Histories: the accepted requests *)

Definition serve (s : RateLimiter * list (string * Z)) (req : string * Z) : RateLimiter * list (string * Z) :=
  let '(r, acc) := s in
  let '(r, ok) := allowRequest r req.1 req.2 in
  (r, if ok then acc ++ [req] else acc).

Definition serve_all (r : RateLimiter) (reqs : list (string * Z)) : RateLimiter * list (string * Z) :=
  foldl serve (r, []) reqs.

(** One second, in nanoseconds. *)
Definition W : Z := 1000000000.

Definition recent (now : Z) (ts : list Z) : list Z := filter (λ t, now - W < t) ts.

Definition times (acc : list (string * Z)) : list Z := acc.*2.
Definition client_times (c : string) (acc : list (string * Z)) : list Z := (filter (λ a, a.1 = c) acc).*2.

(** At most [limit] times in every interval of one second. *)
Definition within_limit (limit : Z) (ts : list Z) : Prop :=
  ∀ t0, length (filter (λ t, t0 ≤ t < t0 + W) ts) ≤ limit.

(** A queue holds the recent times, as of some earlier call. *)
Definition queue_of (last : Z) (ts q : list Z) : Prop := ∃ cut, cut ≤ last ∧ q = recent cut ts.

Lemma expired_iff now t : t ≤ now → (window <=? Z.quot (now - t) 1000000) = true ↔ t ≤ now - W.
Proof.
  intros Ht. rewrite Z.quot_div_nonneg by lia. rewrite Z.leb_le. unfold window, W. split; intros H.
  - pose proof (Z.mul_div_le (now - t) 1000000). lia.
  - apply Z.div_le_lower_bound; lia.
Qed.

Lemma cleanup_recent now ts :
  StronglySorted Z.le ts → Forall (λ t, t ≤ now) ts → cleanup ts now = recent now ts.
Proof.
  induction 1 as [|t ts Hs IH Hall]; intros Hle; [done|]. apply Forall_cons in Hle as [Ht Hle]. simpl. unfold recent.
  rewrite filter_cons. cbn beta. pose proof (expired_iff now t Ht) as He. destruct (window <=? _).
  - assert (t ≤ now - W) as Ho by (by apply He). rewrite decide_False by lia. by apply IH.
  - assert (now - W < t) as Hlt by (destruct (decide (t ≤ now - W)) as [Hx|]; [by apply He in Hx|lia]).
    rewrite decide_True by done. f_equal. symmetry. apply filter_all. eapply Forall_impl; [exact Hall|]. simpl. lia.
Qed.

Lemma sorted_filter (P : Z → Prop) `{∀ x, Decision (P x)} (ts : list Z) :
  StronglySorted Z.le ts → StronglySorted Z.le (filter P ts).
Proof.
  induction 1 as [|t ts Hs IH Hall]; [constructor|]. rewrite filter_cons. destruct (decide (P t)); [|done].
  constructor; [done|]. rewrite Forall_forall in *. intros x [_ Hx]%list_elem_of_filter. auto.
Qed.

Lemma sorted_snoc (ts : list Z) now :
  StronglySorted Z.le ts → Forall (λ t, t ≤ now) ts → StronglySorted Z.le (ts ++ [now]).
Proof.
  intros Hs Hle. apply StronglySorted_app_2; [|done|by repeat constructor].
  intros x1 x2 Hx1 ->%list_elem_of_singleton. rewrite Forall_forall in Hle. auto.
Qed.

Lemma recent_recent cut now ts : cut ≤ now → recent now (recent cut ts) = recent now ts.
Proof. intros Hcut. unfold recent. rewrite list_filter_filter. apply list_filter_iff. intros t. lia. Qed.

(** A call cleans a queue to what is recent now. *)
Lemma cleanup_queue last now ts q :
  StronglySorted Z.le ts → Forall (λ t, t ≤ last) ts → last ≤ now → queue_of last ts q →
  cleanup q now = recent now ts.
Proof.
  intros Hs Hle Hnow (cut & Hcut & ->). rewrite cleanup_recent; [apply recent_recent; lia|by apply sorted_filter|].
  apply Forall_forall. intros t [_ Ht]%list_elem_of_filter. rewrite Forall_forall in Hle. specialize (Hle t Ht). lia.
Qed.

Lemma recent_snoc now ts : recent now (ts ++ [now]) = recent now ts ++ [now].
Proof. unfold recent. rewrite filter_app, filter_cons, decide_True by (unfold W; lia). done. Qed.

Lemma filter_length_mono {A} (P Q : A → Prop) `{∀ x, Decision (P x)} `{∀ x, Decision (Q x)} (l : list A) :
  (∀ x, x ∈ l → P x → Q x) → (length (filter P l) ≤ length (filter Q l))%nat.
Proof.
  induction l as [|x l IH]; intros Hpq; [done|]. rewrite !filter_cons.
  assert (length (filter P l) ≤ length (filter Q l))%nat by (apply IH; intros; apply Hpq; [by right|done]).
  destruct (decide (P x)) as [Hp|], (decide (Q x)) as [|Hq]; simpl; try lia. exfalso. apply Hq, Hpq; [by left|done].
Qed.

(** Accepting a request below the limit keeps the limit in every interval. *)
Lemma within_limit_snoc limit now ts :
  within_limit limit ts → Forall (λ t, t ≤ now) ts → length (recent now ts) < limit → within_limit limit (ts ++ [now]).
Proof.
  intros Hw Hle Hlt t0. rewrite filter_app, filter_cons. destruct (decide (t0 ≤ now < t0 + W)) as [Hin|Hout].
  - assert (length (filter (λ t, (t0 ≤ t < t0 + W)%Z) ts) ≤ length (recent now ts))%nat as Hmono.
    { apply filter_length_mono. intros t _. lia. }
    rewrite length_app. simpl. lia.
  - simpl. rewrite app_nil_r. apply Hw.
Qed.

(** ** Invariant *)

Record limiter_inv (gl cl last : Z) (r : RateLimiter) (acc : list (string * Z)) : Prop := {
  lim_global : globalLimit r = gl ∧ clientLimit r = cl;
  lim_sorted : StronglySorted Z.le (times acc);
  lim_last : Forall (λ t, t ≤ last) (times acc);
  lim_queue : queue_of last (times acc) (globalQueue r);
  lim_client : ∀ c, queue_of last (client_times c acc) (client_queue r c);
  lim_bound : within_limit gl (times acc);
  lim_cbound : ∀ c, within_limit cl (client_times c acc)
}.

Lemma client_times_props c acc (now : Z) :
  StronglySorted Z.le (times acc) → Forall (λ t, t ≤ now) (times acc) →
  StronglySorted Z.le (client_times c acc) ∧ Forall (λ t, t ≤ now) (client_times c acc).
Proof.
  unfold times, client_times. induction acc as [|[d t] acc IH]; intros Hs Hle; [by split; constructor|].
  simpl in Hs, Hle. apply StronglySorted_cons in Hs as [Hall Hs]. apply Forall_cons in Hle as [Ht Hle].
  destruct (IH Hs Hle) as [IH1 IH2]. rewrite filter_cons. destruct (decide _); [|done]. simpl. split; constructor; try done.
  apply Forall_forall. intros x ([d' t'] & -> & [_ Hin]%list_elem_of_filter)%list_elem_of_fmap. simpl.
  rewrite Forall_forall in Hall. apply Hall. apply list_elem_of_fmap. by exists (d', t').
Qed.

Lemma client_times_snoc c acc d t :
  client_times c (acc ++ [(d, t)]) = client_times c acc ++ (if decide (d = c) then [t] else []).
Proof. unfold client_times. rewrite filter_app, filter_cons, fmap_app. simpl. by destruct (decide (d = c)). Qed.

Lemma times_snoc acc d t : times (acc ++ [(d, t)]) = times acc ++ [t].
Proof. unfold times. by rewrite fmap_app. Qed.

(** The decision, from the accepted requests of the last second. *)
Lemma allow_iff gl cl last r acc c now :
  0 ≤ gl ≤ INT_MAX → 0 ≤ cl ≤ INT_MAX → limiter_inv gl cl last r acc → last ≤ now →
  let gq := recent now (times acc) in
  let cq := recent now (client_times c acc) in
  allowRequest r c now =
    if decide (length gq < gl ∧ length cq < cl) then (set_queues r c (gq ++ [now]) (cq ++ [now]), true)
    else (set_queues r c gq cq, false).
Proof.
  intros Hgl Hcl [[Eg Ec] Hs Hle Hq Hcq _ _] Hnow. destruct (client_times_props c acc last Hs Hle) as [Hsc Hlec].
  unfold allowRequest. rewrite (cleanup_queue last now (times acc)), (cleanup_queue last now (client_times c acc)) by done.
  rewrite Eg, Ec, !to_size_t_id by lia.
  destruct (Z.leb_spec gl (length (recent now (times acc)))); [by rewrite decide_False by lia|].
  destruct (Z.leb_spec cl (length (recent now (client_times c acc)))); [by rewrite decide_False by lia|].
  by rewrite decide_True by lia.
Qed.

Lemma queue_of_mono last now ts q : last ≤ now → queue_of last ts q → queue_of now ts q.
Proof. intros Hle (cut & ? & ->). exists cut. split; [lia|done]. Qed.

Lemma client_queue_set r c gq cq d : client_queue (set_queues r c gq cq) d = if decide (d = c) then cq else client_queue r d.
Proof. unfold client_queue. simpl. destruct (decide (d = c)) as [->|]; by rewrite ?lookup_insert_eq, ?lookup_insert_ne. Qed.

Lemma serve_inv gl cl last r acc c now :
  0 ≤ gl ≤ INT_MAX → 0 ≤ cl ≤ INT_MAX → limiter_inv gl cl last r acc → last ≤ now →
  limiter_inv gl cl now (serve (r, acc) (c, now)).1 (serve (r, acc) (c, now)).2.
Proof.
  intros Hgl Hcl Hinv Hnow. unfold serve. simpl. rewrite (allow_iff gl cl last r acc) by done.
  destruct (id Hinv) as [Hlim Hs Hle Hq Hcq Hb Hcb].
  assert (Forall (λ t, t ≤ now) (times acc)) as Hle' by (eapply Forall_impl; [exact Hle|]; simpl; lia).
  destruct (decide _) as [[Hg Hc]|_]; simpl.
  - split; rewrite ?times_snoc; simpl; try done.
    + by apply sorted_snoc.
    + apply Forall_app. split; [done|]. by constructor.
    + exists now. split; [done|]. by rewrite recent_snoc.
    + intros d. rewrite client_times_snoc, client_queue_set. destruct (decide (d = c)) as [->|Hne].
      * rewrite decide_True by done. exists now. by rewrite recent_snoc.
      * rewrite decide_False, app_nil_r by done. by apply (queue_of_mono last).
    + by apply within_limit_snoc.
    + intros d. rewrite client_times_snoc. destruct (decide (c = d)) as [<-|Hne]; [|by rewrite app_nil_r].
      apply within_limit_snoc; [done| |done]. by apply client_times_props.
  - split; simpl; try done.
    + by exists now.
    + intros d. rewrite client_queue_set. destruct (decide (d = c)) as [->|]; [by exists now|]. by apply (queue_of_mono last).
Qed.

Definition by_time (a b : string * Z) : Prop := a.2 ≤ b.2.

Lemma serve_all_inv gl cl reqs :
  0 ≤ gl ≤ INT_MAX → 0 ≤ cl ≤ INT_MAX → StronglySorted by_time reqs → ∀ now, Forall (λ q, q.2 ≤ now) reqs →
  limiter_inv gl cl now (serve_all (RateLimiter_make gl cl) reqs).1 (serve_all (RateLimiter_make gl cl) reqs).2.
Proof.
  intros Hgl Hcl. induction reqs as [|[c t] reqs IH] using rev_ind; intros Hs now Hle.
  - assert (∀ lim, 0 ≤ lim → within_limit lim []) as Hw by (intros lim ? t0; simpl; lia).
    split; [done|apply SSorted_nil|apply Forall_nil_2|by exists now|intros c; by exists now|apply Hw; lia|].
    intros c. apply Hw. lia.
  - apply StronglySorted_app in Hs as (Hlast & Hs & _). apply Forall_app in Hle as [_ [Ht _]%Forall_cons]. simpl in Ht.
    unfold serve_all in *. rewrite foldl_snoc. destruct (foldl serve _ reqs) as [r acc].
    assert (limiter_inv gl cl t r acc) as Hinv.
    { apply (IH Hs t). apply Forall_forall. intros q Hq. apply (Hlast q (c, t)); [done|by left]. }
    pose proof (serve_inv gl cl t r acc c t Hgl Hcl Hinv (Z.le_refl t)) as [? ? Hl Hq Hcq ? ?].
    split; [done|done| | | |done|done].
    + eapply Forall_impl; [exact Hl|]. simpl. lia.
    + by apply (queue_of_mono t).
    + intros d. by apply (queue_of_mono t).
Qed.


