(* ===== verification/Joins.v ===== *)
(** * Hash join and aggregation

    [src/database-internals/HashJoin.cpp]: the smaller table is put into a hash table
    and probed with the rows of the larger one; compared with the nested-loop join.
    [src/database-internals/AggregationOperator.cpp]: one pass that keeps a count and a
    sum per group; compared with counting and summing the rows of a group.
    Both classes keep their table from one call to the next, and so do the models. *)
From S2P Require Import Prelude.
Local Open Scope string_scope.
Local Open Scope list_scope.
Local Open Scope Z_scope.
Local Open Scope cpp_scope.

(** ** Hash join *)

Record Employee := { emp_id : Z; emp_name : string; emp_dept : Z }.
Record Department := { dept_id : Z; dept_name : string }.

Abbreviation HashTable := (gmap Z (list Department)).

(** [hashTable[key]] *)
Definition bucket (t : HashTable) (key : Z) : list Department := default [] (t !! key).

Definition buildHashtable (t : HashTable) (departments : list Department) : HashTable :=
  foldl (λ t dept, <[dept_id dept := bucket t (dept_id dept) ++ [dept]]> t) t departments.

(** A printed row: employee id and name, department name. *)
Definition joined (emp : Employee) (dept : Department) : Z * string * string :=
  (emp_id emp, emp_name emp, dept_name dept).

(** What [probe] prints. *)
Definition probe (t : HashTable) (employees : list Employee) : list (Z * string * string) :=
  emp ← employees;
  match t !! emp_dept emp with
  | None => []
  | Some depts => joined emp <$> depts
  end.

Definition execute (t : HashTable) (employees : list Employee) (departments : list Department) :
    HashTable * list (Z * string * string) :=
  let t := buildHashtable t departments in (t, probe t employees).

(** Reference: every pair of rows is compared. *)
Definition nested_loop (employees : list Employee) (departments : list Department) : list (Z * string * string) :=
  emp ← employees; dept ← departments; if emp_dept emp =? dept_id dept then [joined emp dept] else [].

Definition holds (t : HashTable) (departments : list Department) : Prop :=
  ∀ k, bucket t k = filter (λ d, dept_id d = k) departments.

Lemma build_holds t ds ds' : holds t ds → holds (buildHashtable t ds') (ds ++ ds').
Proof.
  revert t ds. induction ds' as [|d ds' IH]; intros t ds Ht; [by rewrite app_nil_r|].
  replace (ds ++ d :: ds') with ((ds ++ [d]) ++ ds') by (by rewrite <-app_assoc). apply IH.
  intros k. rewrite filter_app, filter_cons, filter_nil. unfold bucket at 1. destruct (decide (dept_id d = k)) as [<-|Hne].
  - rewrite lookup_insert_eq. simpl. by rewrite Ht.
  - rewrite lookup_insert_ne by done. simpl. rewrite app_nil_r. apply Ht.
Qed.

Lemma probe_nested t ds employees : holds t ds → probe t employees = nested_loop employees ds.
Proof.
  intros Ht. unfold probe, nested_loop. induction employees as [|emp employees IH]; [done|].
  rewrite !bind_cons, IH. f_equal.
  assert (match t !! emp_dept emp with None => [] | Some depts => joined emp <$> depts end =
          joined emp <$> bucket t (emp_dept emp)) as -> by (unfold bucket; by destruct (t !! emp_dept emp)).
  rewrite Ht. clear. induction ds as [|d ds IH]; [done|]. rewrite filter_cons, bind_cons, <-IH.
  destruct (Z.eqb_spec (emp_dept emp) (dept_id d)) as [E|E].
  - by rewrite decide_True by done.
  - by rewrite decide_False by done.
Qed.

(** Whatever departments earlier calls have loaded, [execute] prints the nested-loop
    join of its employees with all departments loaded so far, in the same order: every
    matching pair once, no other. *)
Theorem hash_join_is_nested_loop batches employees departments :
  let t := foldl (λ t b, (execute t b.1 b.2).1) ∅ batches in
  (execute t employees departments).2 = nested_loop employees (concat (snd <$> batches) ++ departments).
Proof.
  simpl. apply probe_nested, build_holds.
  induction batches as [|[es ds] batches IH] using rev_ind; [by intros k|].
  rewrite foldl_snoc, fmap_app, concat_app. simpl. rewrite app_nil_r. by apply build_holds.
Qed.

(** ** Aggregation *)

Record Salaried := { name : string; dept : string; salary : Z }.
Record AggregateState := { count : Z; sum : Z }.

Abbreviation Groups := (gmap string AggregateState).

(** [groups[dept]] *)
Definition group (g : Groups) (d : string) : AggregateState := default {| count := 0; sum := 0 |} (g !! d).

Definition aggregate_row (g : Groups) (emp : Salaried) : option Groups :=
  let state := group g (dept emp) in
  c ← count state +! 1;
  s ← sum state +! salary emp;
  Some (<[dept emp := {| count := c; sum := s |}]> g).

(** [None]: a sum overflows. *)
Definition aggregate (g : Groups) (employees : list Salaried) : option Groups := run_ops aggregate_row g employees.

Definition members (d : string) (es : list Salaried) : list Salaried := filter (λ e, dept e = d) es.
Definition total (es : list Salaried) : Z := foldr (λ e, Z.add (salary e)) 0 es.
Definition volume (es : list Salaried) : Z := foldr (λ e, Z.add (Z.abs (salary e))) 0 es.

Lemma volume_app es es' : volume (es ++ es') = volume es + volume es'.
Proof. induction es as [|e es IH]; [done|]. simpl in *. lia. Qed.

Lemma total_salary_app es es' : total (es ++ es') = total es + total es'.
Proof. induction es as [|e es IH]; [done|]. simpl in *. lia. Qed.

Lemma volume_nonneg es : 0 ≤ volume es.
Proof. induction es as [|e es IH]; simpl in *; lia. Qed.

Lemma members_bound d es : Z.abs (total (members d es)) ≤ volume es ∧ (length (members d es) ≤ length es)%nat.
Proof.
  unfold members. induction es as [|e es IH]; [done|]. rewrite filter_cons. destruct (decide (dept e = d)); simpl in *; lia.
Qed.

Lemma members_snoc d es e : members d (es ++ [e]) = members d es ++ if decide (dept e = d) then [e] else [].
Proof. unfold members. by rewrite filter_app, filter_cons, filter_nil. Qed.

(** The groups are those of the rows seen. *)
Definition groups_of (g : Groups) (es : list Salaried) : Prop :=
  ∀ d, group g d = {| count := length (members d es); sum := total (members d es) |} ∧
    (is_Some (g !! d) ↔ members d es ≠ []).

Lemma aggregate_spec g seen es :
  groups_of g seen → volume (seen ++ es) ≤ INT_MAX → length (seen ++ es) ≤ INT_MAX →
  ∃ g', aggregate g es = Some g' ∧ groups_of g' (seen ++ es).
Proof.
  revert g seen. induction es as [|e es IH]; intros g seen Hg Hv Hl; [exists g; by rewrite app_nil_r|].
  replace (seen ++ e :: es) with ((seen ++ [e]) ++ es) in * by (by rewrite <-app_assoc).
  destruct (Hg (dept e)) as [E _]. unfold aggregate. cbn [run_ops]. unfold aggregate_row at 2. rewrite E. cbn [count sum].
  destruct (members_bound (dept e) seen) as [Ht Hn]. pose proof (volume_nonneg es). pose proof (volume_nonneg seen).
  rewrite !volume_app in Hv. rewrite !length_app in Hl. simpl in Hv, Hl.
  rewrite (checked_ok (length (members (dept e) seen) + 1)), (checked_ok (total (members (dept e) seen) + salary e)) by int_bounds.
  cbn [mbind option_bind]. apply IH; [|rewrite !volume_app; simpl; lia|rewrite !length_app; simpl; lia].
  intros d. rewrite members_snoc. unfold group.
  destruct (decide (dept e = d)) as [<-|Hne].
  - rewrite lookup_insert_eq. simpl. split; [|split; [by destruct (members (dept e) seen)|by eexists]].
    f_equal; [rewrite length_app; simpl; lia|rewrite total_salary_app; simpl; lia].
  - rewrite lookup_insert_ne, app_nil_r by done. apply Hg.
Qed.

(** As long as the salaries stay within an [int], the operator has one group per
    department that occurs, with the number of its employees and the sum of their
    salaries. *)
Theorem aggregation_counts_and_sums es :
  volume es ≤ INT_MAX → length es ≤ INT_MAX →
  ∃ g, aggregate ∅ es = Some g ∧
    ∀ d, (is_Some (g !! d) ↔ ∃ e, e ∈ es ∧ dept e = d) ∧
      ∀ s, g !! d = Some s → s = {| count := length (members d es); sum := total (members d es) |}.
Proof.
  intros Hv Hl. destruct (aggregate_spec ∅ [] es) as (g & Hg & Hgs); [|done..|].
  { intros d. split; [done|]. rewrite lookup_empty. split; [by intros [? ?]|done]. }
  exists g. split; [done|]. simpl in Hgs. intros d. destruct (Hgs d) as [Heq Hdom]. split.
  - rewrite Hdom. unfold members. split.
    + intros Hne. destruct (filter (λ e, dept e = d) es) as [|e l] eqn:E; [done|]. exists e.
      assert (e ∈ filter (λ e, dept e = d) es) as [? ?]%list_elem_of_filter by (rewrite E; by left). done.
    + intros (e & He & Hd) E. assert (e ∈ filter (λ e, dept e = d) es) as Hin by (by apply list_elem_of_filter).
      rewrite E in Hin. by apply elem_of_nil in Hin.
  - intros s Hs. unfold group in Heq. rewrite Hs in Heq. done.
Qed.

Lemma aggregation_counts_and_sums_witness :
  ∃ g, aggregate ∅ [{| name := "A"; dept := "HR"; salary := 10 |}; {| name := "B"; dept := "IT"; salary := 20 |};
                    {| name := "C"; dept := "HR"; salary := 5 |}] = Some g ∧
    g !! "HR" = Some {| count := 2; sum := 15 |} ∧ g !! "X" = None.
Proof.
  destruct (aggregation_counts_and_sums
    [{| name := "A"; dept := "HR"; salary := 10 |}; {| name := "B"; dept := "IT"; salary := 20 |};
     {| name := "C"; dept := "HR"; salary := 5 |}]) as (g & Hg & _).
  - vm_compute. discriminate.
  - vm_compute. discriminate.
  - exists g. split; [exact Hg|]. vm_compute in Hg. injection Hg as <-. split; vm_compute; reflexivity.
Defined.
