(* ===== verification/RWLocks.v ===== *)
(** * Readers-writer locks

    [src/concurrency/ReadersWritersLock_reader_preference.cpp] and
    [src/concurrency/ReadersWritersLock_writer_preference.cpp]: monitors whose state is
    the number of readers (and of waiting writers) and a flag for the writer.  A step
    is one stay of a thread in the mutex: a call up to its return or its wait, or the
    test of the predicate after a wake-up.  Threads in [cv.wait] are asleep until they
    are notified or wake up spuriously.

    The counters are bounded by the number of threads and are not wrapped. *)
From S2P Require Import Prelude.
Local Open Scope nat_scope.

(** What a thread is doing; [awake]: it will test its predicate again. *)
Inductive Status :=
  | Idle
  | WaitRead (awake : bool)
  | WaitWrite (awake : bool)
  | Reading
  | Writing.

#[export] Instance Status_eq_dec : EqDecision Status.
Proof. solve_decision. Defined.

Record ReadWriteLock := {
  activeReaders : Z;
  waitingWriters : Z;
  anyActiveWriter : bool;
  threads : list Status
}.

Definition ReadWriteLock_make (n : nat) : ReadWriteLock :=
  {| activeReaders := 0; waitingWriters := 0; anyActiveWriter := false; threads := replicate n Idle |}.

Definition at_thread (s : ReadWriteLock) (t : nat) (st : Status) : ReadWriteLock :=
  {| activeReaders := activeReaders s; waitingWriters := waitingWriters s; anyActiveWriter := anyActiveWriter s;
     threads := <[t := st]> (threads s) |}.

Definition with_threads (s : ReadWriteLock) (l : list Status) : ReadWriteLock :=
  {| activeReaders := activeReaders s; waitingWriters := waitingWriters s; anyActiveWriter := anyActiveWriter s;
     threads := l |}.

(** [activeReaders++], [anyActiveWriter = true] and their opposites. *)
Definition set_readers (s : ReadWriteLock) (n : Z) : ReadWriteLock :=
  {| activeReaders := n; waitingWriters := waitingWriters s; anyActiveWriter := anyActiveWriter s; threads := threads s |}.
Definition set_waiting (s : ReadWriteLock) (n : Z) : ReadWriteLock :=
  {| activeReaders := activeReaders s; waitingWriters := n; anyActiveWriter := anyActiveWriter s; threads := threads s |}.
Definition set_writer (s : ReadWriteLock) (b : bool) : ReadWriteLock :=
  {| activeReaders := activeReaders s; waitingWriters := waitingWriters s; anyActiveWriter := b; threads := threads s |}.

(** [notify_all] on the condition variable of the readers, or of the writers. *)
Definition wake_readers (l : list Status) : list Status :=
  (λ st, match st with WaitRead _ => WaitRead true | _ => st end) <$> l.
Definition wake_writers (l : list Status) : list Status :=
  (λ st, match st with WaitWrite _ => WaitWrite true | _ => st end) <$> l.

(** [notify_one] for the writers: the one at [choice] if it is asleep, the first one
    that is asleep otherwise, none if all are awake. *)
Fixpoint wake_first (l : list Status) : list Status :=
  match l with
  | [] => []
  | WaitWrite false :: l => WaitWrite true :: l
  | st :: l => st :: wake_first l
  end.
Definition wake_one (choice : nat) (l : list Status) : list Status :=
  match l !! choice with
  | Some (WaitWrite false) => <[choice := WaitWrite true]> l
  | _ => wake_first l
  end.

(** The scheduler's choices; the extra argument of a release is the choice of
    [notify_one]. *)
Inductive RWop :=
  | AcquireRead (t : nat)
  | ReleaseRead (t : nat) (choice : nat)
  | AcquireWrite (t : nat)
  | ReleaseWrite (t : nat) (choice : nat)
  | Retest (t : nat)
  | Spurious (t : nat).

Definition can_write (s : ReadWriteLock) : bool := (activeReaders s =? 0)%Z && negb (anyActiveWriter s).

(** ** Reader preference *)

Module ReaderPreference.
Definition can_read (s : ReadWriteLock) : bool := negb (anyActiveWriter s).

(** [acquire_read_lock] from its [wait] on. *)
Definition acquire_read_lock (s : ReadWriteLock) (t : nat) : ReadWriteLock :=
  if can_read s then at_thread (set_readers s (activeReaders s + 1)) t Reading else at_thread s t (WaitRead false).

Definition release_read_lock (s : ReadWriteLock) (t : nat) : ReadWriteLock :=
  let s := at_thread (set_readers s (activeReaders s - 1)) t Idle in
  if (activeReaders s =? 0)%Z then with_threads s (wake_readers (wake_writers (threads s))) else s.

Definition acquire_write_lock (s : ReadWriteLock) (t : nat) : ReadWriteLock :=
  if can_write s then at_thread (set_writer s true) t Writing else at_thread s t (WaitWrite false).

Definition release_write_lock (s : ReadWriteLock) (t : nat) : ReadWriteLock :=
  let s := at_thread (set_writer s false) t Idle in
  with_threads s (wake_readers (wake_writers (threads s))).

(** A step is enabled when the thread is where the operation starts. *)
Definition step (s : ReadWriteLock) (o : RWop) : option ReadWriteLock :=
  match o with
  | AcquireRead t => st ← threads s !! t; if decide (st = Idle) then Some (acquire_read_lock s t) else None
  | ReleaseRead t _ => st ← threads s !! t; if decide (st = Reading) then Some (release_read_lock s t) else None
  | AcquireWrite t => st ← threads s !! t; if decide (st = Idle) then Some (acquire_write_lock s t) else None
  | ReleaseWrite t _ => st ← threads s !! t; if decide (st = Writing) then Some (release_write_lock s t) else None
  | Retest t =>
      st ← threads s !! t;
      match st with
      | WaitRead true => Some (acquire_read_lock s t)
      | WaitWrite true => Some (acquire_write_lock s t)
      | _ => None
      end
  | Spurious t =>
      st ← threads s !! t;
      match st with
      | WaitRead false => Some (at_thread s t (WaitRead true))
      | WaitWrite false => Some (at_thread s t (WaitWrite true))
      | _ => None
      end
  end.
End ReaderPreference.

(** ** Writer preference *)

Module WriterPreference.
Definition can_read (s : ReadWriteLock) : bool := negb (anyActiveWriter s) && (waitingWriters s =? 0)%Z.

Definition acquire_read_lock (s : ReadWriteLock) (t : nat) : ReadWriteLock :=
  if can_read s then at_thread (set_readers s (activeReaders s + 1)) t Reading else at_thread s t (WaitRead false).

Definition release_read_lock (s : ReadWriteLock) (t choice : nat) : ReadWriteLock :=
  let s := at_thread (set_readers s (activeReaders s - 1)) t Idle in
  if (activeReaders s =? 0)%Z then with_threads s (wake_one choice (threads s)) else s.

(** [acquire_write_lock] after [waitingWriters++]. *)
Definition writer_wait (s : ReadWriteLock) (t : nat) : ReadWriteLock :=
  if can_write s then at_thread (set_writer (set_waiting s (waitingWriters s - 1)) true) t Writing
  else at_thread s t (WaitWrite false).

Definition acquire_write_lock (s : ReadWriteLock) (t : nat) : ReadWriteLock :=
  writer_wait (set_waiting s (waitingWriters s + 1)) t.

Definition release_write_lock (s : ReadWriteLock) (t choice : nat) : ReadWriteLock :=
  let s := at_thread (set_writer s false) t Idle in
  if (0 <? waitingWriters s)%Z then with_threads s (wake_one choice (threads s))
  else with_threads s (wake_readers (threads s)).

Definition step (s : ReadWriteLock) (o : RWop) : option ReadWriteLock :=
  match o with
  | AcquireRead t => st ← threads s !! t; if decide (st = Idle) then Some (acquire_read_lock s t) else None
  | ReleaseRead t choice =>
      st ← threads s !! t; if decide (st = Reading) then Some (release_read_lock s t choice) else None
  | AcquireWrite t => st ← threads s !! t; if decide (st = Idle) then Some (acquire_write_lock s t) else None
  | ReleaseWrite t choice =>
      st ← threads s !! t; if decide (st = Writing) then Some (release_write_lock s t choice) else None
  | Retest t =>
      st ← threads s !! t;
      match st with
      | WaitRead true => Some (acquire_read_lock s t)
      | WaitWrite true => Some (writer_wait s t)
      | _ => None
      end
  | Spurious t =>
      st ← threads s !! t;
      match st with
      | WaitRead false => Some (at_thread s t (WaitRead true))
      | WaitWrite false => Some (at_thread s t (WaitWrite true))
      | _ => None
      end
  end.
End WriterPreference.

(** ** Counting threads *)

Definition cnt (p : Status → bool) (l : list Status) : Z := length (filter (λ st, p st = true) l).

Definition is_reading (st : Status) : bool := match st with Reading => true | _ => false end.
Definition is_writing (st : Status) : bool := match st with Writing => true | _ => false end.
Definition waits_to_write (st : Status) : bool := match st with WaitWrite _ => true | _ => false end.

Lemma cnt_insert p l t x y :
  l !! t = Some x → cnt p (<[t := y]> l) = (cnt p l - Z.b2z (p x) + Z.b2z (p y))%Z.
Proof.
  intros Hx. unfold cnt. pose proof (filter_insert_length (λ st, p st = true) l t x y Hx) as E.
  destruct (decide (p x = true)) as [Ex|Ex%not_true_is_false], (decide (p y = true)) as [Ey|Ey%not_true_is_false];
    rewrite Ex, Ey; simpl; lia.
Qed.

Lemma cnt_fmap p f l : (∀ st, p (f st) = p st) → cnt p (f <$> l) = cnt p l.
Proof.
  intros Hf. unfold cnt. rewrite filter_map, length_fmap. do 2 f_equal. apply list_filter_iff. intros st. by rewrite Hf.
Qed.

Lemma cnt_pos p l : (0 < cnt p l)%Z ↔ ∃ t st, l !! t = Some st ∧ p st = true.
Proof.
  unfold cnt. split.
  - destruct (filter (λ st, p st = true) l) as [|st l'] eqn:E; simpl; [lia|intros _].
    assert (st ∈ filter (λ st, p st = true) l) as [Hp [t Ht]%list_elem_of_lookup]%list_elem_of_filter by (rewrite E; by left).
    eauto.
  - intros (t & st & Ht & Hp). assert (st ∈ filter (λ st, p st = true) l) as Hin.
    { apply list_elem_of_filter. split; [done|]. by apply list_elem_of_lookup_2 with t. }
    destruct (filter _ l); [by apply elem_of_nil in Hin|simpl; lia].
Qed.

(** *** Wake-ups *)

Lemma wake_readers_elem l st : st ∈ wake_readers l → st ≠ WaitRead false ∧ (waits_to_write st = true → st ∈ l).
Proof.
  unfold wake_readers. intros (st' & -> & Hin)%list_elem_of_fmap. by destruct st'.
Qed.

Lemma wake_writers_elem l st : st ∈ wake_writers l → st ≠ WaitWrite false ∧ (st = WaitRead false → st ∈ l).
Proof.
  unfold wake_writers. intros (st' & -> & Hin)%list_elem_of_fmap. by destruct st'.
Qed.

Lemma wake_first_elem l st : st ∈ wake_first l → st = WaitWrite true ∨ st ∈ l.
Proof.
  induction l as [|x l IH]; [by right|]. intros Hin.
  assert (st = WaitWrite true ∨ st = x ∨ st ∈ wake_first l ∨ st ∈ l) as H.
  { destruct x as [| |[]| |]; simpl in Hin; apply elem_of_cons in Hin as [?|?]; auto. }
  rewrite elem_of_cons. destruct H as [?|[?|[?|?]]]; auto. destruct (IH H); auto.
Qed.

Lemma wake_first_keeps l : WaitWrite true ∈ l ∨ WaitWrite false ∈ l → WaitWrite true ∈ wake_first l.
Proof.
  induction l as [|x l IH]; [by intros [?%elem_of_nil|?%elem_of_nil]|]. rewrite !elem_of_cons. intros H.
  destruct x as [| |[]| |]; simpl; rewrite elem_of_cons; try (right; apply IH; naive_solver); auto.
Qed.

Lemma wake_one_elem c l st : st ∈ wake_one c l → st = WaitWrite true ∨ st ∈ l.
Proof.
  unfold wake_one. intros Hin. destruct (l !! c) as [[| |[]| |]|] eqn:E; try by apply wake_first_elem.
  apply list_elem_of_lookup in Hin as [i Hi]. apply list_lookup_insert_Some in Hi as [(_ & <- & _)|[_ Hi]]; [by left|right].
  by apply list_elem_of_lookup_2 with i.
Qed.

Lemma wake_one_keeps c l : WaitWrite true ∈ l ∨ WaitWrite false ∈ l → WaitWrite true ∈ wake_one c l.
Proof.
  intros H. unfold wake_one. destruct (l !! c) as [[| |[]| |]|] eqn:E; try by apply wake_first_keeps.
  apply list_elem_of_lookup_2 with c. apply list_lookup_insert_eq. by eapply lookup_lt_Some.
Qed.

Lemma cnt_wake_one p c l : p (WaitWrite true) = p (WaitWrite false) → cnt p (wake_one c l) = cnt p l.
Proof.
  intros Hp. assert (cnt p (wake_first l) = cnt p l) as Hf.
  { unfold cnt. induction l as [|x l IH]; [done|].
    assert (∀ a b l1 l2, p a = p b → Z.of_nat (length (filter (λ st, p st = true) l1)) =
      Z.of_nat (length (filter (λ st, p st = true) l2)) →
      Z.of_nat (length (filter (λ st, p st = true) (a :: l1))) = Z.of_nat (length (filter (λ st, p st = true) (b :: l2)))) as Hc.
    { intros a b l1 l2 Hab Hl. rewrite !filter_cons, Hab. destruct (decide (p b = true)); simpl; lia. }
    destruct x as [| |[]| |]; simpl; apply Hc; done. }
  unfold wake_one. destruct (l !! c) as [[| |[]| |]|] eqn:E; try done.
  rewrite (cnt_insert p l c (WaitWrite false)) by done. rewrite Hp. lia.
Qed.

(** ** Invariant *)

Definition rw_step (writer_preference : bool) : ReadWriteLock → RWop → option ReadWriteLock :=
  if writer_preference then WriterPreference.step else ReaderPreference.step.

Definition rw_can_read (writer_preference : bool) (s : ReadWriteLock) : bool :=
  if writer_preference then WriterPreference.can_read s else ReaderPreference.can_read s.

(** The counters count. *)
Record rw_core (wp : bool) (s : ReadWriteLock) : Prop := {
  rw_readers : activeReaders s = cnt is_reading (threads s);
  rw_writer : cnt is_writing (threads s) = Z.b2z (anyActiveWriter s);
  rw_excl : anyActiveWriter s = true → activeReaders s = 0%Z;
  rw_waiting : waitingWriters s = if wp then cnt waits_to_write (threads s) else 0%Z
}.

(** And threads that are asleep cannot go on, or a writer has been woken up that can. *)
Record rw_inv (wp : bool) (s : ReadWriteLock) : Prop := {
  rw_counts : rw_core wp s;
  rw_asleep_reader : WaitRead false ∈ threads s → rw_can_read wp s = false;
  rw_asleep_writer : WaitWrite false ∈ threads s →
    can_write s = false ∨ (wp = true ∧ WaitWrite true ∈ threads s)
}.

Lemma at_thread_elem s t st st' : st' ∈ threads (at_thread s t st) → st' = st ∨ st' ∈ threads s.
Proof.
  simpl. intros [i Hi]%list_elem_of_lookup. apply list_lookup_insert_Some in Hi as [(_ & <- & _)|[_ Hi]]; [by left|right].
  by apply list_elem_of_lookup_2 with i.
Qed.

Lemma at_thread_keep s t st st' x : threads s !! t = Some st → st ≠ x → x ∈ threads s → x ∈ threads (at_thread s t st').
Proof.
  intros Ht Hne [i Hi]%list_elem_of_lookup. apply list_elem_of_lookup_2 with i. simpl.
  rewrite list_lookup_insert_ne; [done|]. intros ->. congruence.
Qed.

Lemma cnt_nonneg p l : (0 ≤ cnt p l)%Z.
Proof. unfold cnt. lia. Qed.

Lemma can_read_no_writer wp s : rw_can_read wp s = true → anyActiveWriter s = false.
Proof. destruct wp, s as [r w []]; simpl; done. Qed.

Lemma can_write_true s : can_write s = true ↔ activeReaders s = 0%Z ∧ anyActiveWriter s = false.
Proof. unfold can_write. rewrite andb_true_iff, Z.eqb_eq, negb_true_iff. done. Qed.

Lemma can_write_false s : can_write s = false ↔ activeReaders s ≠ 0%Z ∨ anyActiveWriter s = true.
Proof.
  unfold can_write. rewrite andb_false_iff, Z.eqb_neq, negb_false_iff. done.
Qed.

(** A thread goes from [st] to [st'] and the counters follow. *)
Lemma core_move wp s s' t st st' :
  rw_core wp s → threads s !! t = Some st → threads s' = <[t := st']> (threads s) →
  activeReaders s' = (activeReaders s - Z.b2z (is_reading st) + Z.b2z (is_reading st'))%Z →
  Z.b2z (anyActiveWriter s') = (Z.b2z (anyActiveWriter s) - Z.b2z (is_writing st) + Z.b2z (is_writing st'))%Z →
  (anyActiveWriter s' = true → activeReaders s' = 0%Z) →
  waitingWriters s' = (if wp then waitingWriters s - Z.b2z (waits_to_write st) + Z.b2z (waits_to_write st') else 0)%Z →
  rw_core wp s'.
Proof.
  intros [Hr Hw He Hq] Ht Hth Hr' Hw' He' Hq'. split; rewrite ?Hth, ?(cnt_insert _ _ _ _ _ Ht); [lia|lia|done|].
  rewrite Hq', Hq. destruct wp; lia.
Qed.

(** [acquire_read_lock], of a new call or after a wake-up. *)
Lemma enter_read_inv wp s t st :
  rw_inv wp s → threads s !! t = Some st → st = Idle ∨ st = WaitRead true →
  rw_inv wp (if rw_can_read wp s then at_thread (set_readers s (activeReaders s + 1)) t Reading
             else at_thread s t (WaitRead false)).
Proof.
  intros [Hcore Hsr Hsw] Ht Hst. destruct (id Hcore) as [Hr Hw He Hq]. pose proof (cnt_nonneg is_reading (threads s)).
  assert (is_reading st = false ∧ is_writing st = false ∧ waits_to_write st = false ∧ st ≠ WaitWrite true) as (E1 & E2 & E3 & E4).
  { by destruct Hst as [-> | ->]. }
  destruct (rw_can_read wp s) eqn:Hcan.
  - pose proof (can_read_no_writer wp s Hcan) as Hno. split.
    + eapply core_move; [done|done|done|..]; rewrite ?E1, ?E2, ?E3; simpl; [lia|lia|congruence|destruct wp; lia].
    + intros [?|Hin]%at_thread_elem; [done|]. specialize (Hsr Hin). congruence.
    + intros _. left. apply can_write_false. simpl. lia.
  - split.
    + eapply core_move; [done|done|done|..]; rewrite ?E1, ?E2, ?E3; simpl; [lia|lia|done|destruct wp; lia].
    + intros _. exact Hcan.
    + intros [?|Hin]%at_thread_elem; [done|]. destruct (Hsw Hin) as [?|[? ?]]; [by left|right]. split; [done|].
      by eapply at_thread_keep.
Qed.

(** A spurious wake-up. *)
Lemma spurious_inv wp s t st st' :
  rw_inv wp s → threads s !! t = Some st →
  st = WaitRead false ∧ st' = WaitRead true ∨ st = WaitWrite false ∧ st' = WaitWrite true →
  rw_inv wp (at_thread s t st').
Proof.
  intros [Hcore Hsr Hsw] Ht Hst. destruct (id Hcore) as [Hr Hw He Hq].
  assert (is_reading st = is_reading st' ∧ is_writing st = is_writing st' ∧ waits_to_write st = waits_to_write st' ∧
    st' ≠ WaitRead false ∧ st' ≠ WaitWrite false ∧ st ≠ WaitWrite true) as (E1 & E2 & E3 & E4 & E5 & E6).
  { by destruct Hst as [[-> ->]|[-> ->]]. }
  split.
  - eapply core_move; [done|done|done|..]; rewrite ?E1, ?E2, ?E3; simpl; [lia|lia|done|destruct wp; lia].
  - intros [?|Hin]%at_thread_elem; [congruence|]. by apply Hsr.
  - intros [?|Hin]%at_thread_elem; [congruence|]. destruct (Hsw Hin) as [?|[? ?]]; [by left|right]. split; [done|].
    by eapply at_thread_keep.
Qed.

(** Notifying threads changes no count. *)
Lemma notify_core wp s l :
  rw_core wp s → (∀ p, (∀ b, p (WaitWrite b) = p (WaitWrite true)) → (∀ b, p (WaitRead b) = p (WaitRead true)) →
    cnt p l = cnt p (threads s)) → rw_core wp (with_threads s l).
Proof. intros [Hr Hw He Hq] Hc. split; simpl; rewrite ?Hc by (by intros []); done. Qed.

Lemma notify_all_inv wp s :
  rw_core wp s → rw_inv wp (with_threads s (wake_readers (wake_writers (threads s)))).
Proof.
  intros Hcore. split.
  - apply notify_core; [done|]. intros p Hp Hp'. unfold wake_readers, wake_writers.
    rewrite !cnt_fmap; [done|by intros []..].
  - intros [Hne _]%wake_readers_elem. done.
  - intros [_ Hin]%wake_readers_elem. specialize (Hin eq_refl). apply wake_writers_elem in Hin as [Hne _]. done.
Qed.

Lemma wake_one_core wp s c : rw_core wp s → rw_core wp (with_threads s (wake_one c (threads s))).
Proof. intros Hcore. apply notify_core; [done|]. intros p Hp _. by apply cnt_wake_one. Qed.

(** [acquire_write_lock] from its [wait] on: a new call counts as waiting first. *)
Lemma enter_write_inv wp s t st :
  rw_inv wp s → threads s !! t = Some st → st = Idle ∨ st = WaitWrite true →
  let w := (if wp then waitingWriters s - Z.b2z (waits_to_write st) + 1 else 0)%Z in
  rw_inv wp (if can_write s then at_thread (set_writer (set_waiting s (if wp then w - 1 else 0)%Z) true) t Writing
             else at_thread (set_waiting s w) t (WaitWrite false)).
Proof.
  intros [Hcore Hsr Hsw] Ht Hst w. destruct (id Hcore) as [Hr Hw He Hq].
  assert (is_reading st = false ∧ is_writing st = false) as (E1 & E2) by (by destruct Hst as [-> | ->]).
  destruct (can_write s) eqn:Hcan.
  - apply can_write_true in Hcan as [Hr0 Hno]. split.
    + eapply core_move; [done|done|done|..]; rewrite ?E1, ?E2; simpl; [lia|rewrite Hno; simpl; lia|done|].
      destruct wp; [|done]. unfold w. lia.
    + intros _. by destruct wp.
    + intros _. left. apply can_write_false. by right.
  - split.
    + eapply core_move; [done|done|done|..]; rewrite ?E1, ?E2; simpl; [lia|lia|done|]. destruct wp; [|done]. unfold w. lia.
    + intros [?|Hin]%at_thread_elem; [done|]. specialize (Hsr Hin). destruct wp; [|exact Hsr].
      simpl. unfold WriterPreference.can_read. simpl. apply andb_false_iff. right. apply Z.eqb_neq. unfold w.
      pose proof (cnt_nonneg waits_to_write (threads s)).
      assert (Z.b2z (waits_to_write st) ≤ waitingWriters s)%Z; [|lia]. rewrite Hq.
      destruct (waits_to_write st) eqn:E; simpl; [|lia]. enough (0 < cnt waits_to_write (threads s))%Z by lia.
      apply cnt_pos. eauto.
    + intros _. left. exact Hcan.
Qed.

(** A reader leaves. *)
Lemma leave_read_core wp s t :
  rw_inv wp s → threads s !! t = Some Reading →
  rw_core wp (at_thread (set_readers s (activeReaders s - 1)) t Idle) ∧ anyActiveWriter s = false.
Proof.
  intros [Hcore _ _] Ht. destruct (id Hcore) as [Hr Hw He Hq].
  assert (0 < cnt is_reading (threads s))%Z by (apply cnt_pos; eauto).
  assert (anyActiveWriter s = false) as Hno by (destruct (anyActiveWriter s); [specialize (He eq_refl); lia|done]).
  split; [|done]. eapply core_move; [done|done|done|..]; simpl; [lia|lia|congruence|destruct wp; lia].
Qed.

(** A writer leaves. *)
Lemma leave_write_core wp s t :
  rw_inv wp s → threads s !! t = Some Writing → rw_core wp (at_thread (set_writer s false) t Idle).
Proof.
  intros [Hcore _ _] Ht. destruct (id Hcore) as [Hr Hw He Hq].
  assert (0 < cnt is_writing (threads s))%Z by (apply cnt_pos; eauto).
  eapply core_move; [done|done|done|..]; simpl; [lia| |done|destruct wp; lia].
  rewrite Hw in H. destruct (anyActiveWriter s); simpl in *; lia.
Qed.

Lemma set_waiting_id s n : waitingWriters s = n → set_waiting s n = s.
Proof. intros <-. by destruct s. Qed.

Lemma reader_step_inv s o s' : rw_inv false s → ReaderPreference.step s o = Some s' → rw_inv false s'.
Proof.
  intros Hinv Hs. pose proof (rw_waiting _ _ (rw_counts _ _ Hinv)) as Hq. simpl in Hq.
  destruct o as [t|t c|t|t c|t|t]; simpl in Hs; destruct (threads s !! t) as [st|] eqn:Ht; try done; simpl in Hs.
  - destruct (decide (st = Idle)) as [->|]; [|done]. injection Hs as <-. apply (enter_read_inv false s t Idle); auto.
  - destruct (decide (st = Reading)) as [->|]; [|done]. injection Hs as <-. unfold ReaderPreference.release_read_lock.
    destruct (leave_read_core false s t Hinv Ht) as [Hcore Hno].
    destruct (Z.eqb_spec (activeReaders (at_thread (set_readers s (activeReaders s - 1)) t Idle)) 0) as [E|E].
    + by apply notify_all_inv.
    + split; [done| |intros _; left; apply can_write_false; by left].
      intros [?|Hin]%at_thread_elem; [done|]. exact (rw_asleep_reader _ _ Hinv Hin).
  - destruct (decide (st = Idle)) as [->|]; [|done]. injection Hs as <-.
    pose proof (enter_write_inv false s t Idle Hinv Ht (or_introl eq_refl)) as H. simpl in H. by rewrite (set_waiting_id s 0 Hq) in H.
  - destruct (decide (st = Writing)) as [->|]; [|done]. injection Hs as <-. by apply notify_all_inv, leave_write_core.
  - destruct st as [|[]|[]| |]; try done; injection Hs as <-.
    + apply (enter_read_inv false s t (WaitRead true)); auto.
    + pose proof (enter_write_inv false s t _ Hinv Ht (or_intror eq_refl)) as H. simpl in H. by rewrite (set_waiting_id s 0 Hq) in H.
  - destruct st as [|[]|[]| |]; try done; injection Hs as <-; eapply spurious_inv; eauto.
Qed.

Lemma writer_step_inv s o s' : rw_inv true s → WriterPreference.step s o = Some s' → rw_inv true s'.
Proof.
  intros Hinv Hs. pose proof (rw_waiting _ _ (rw_counts _ _ Hinv)) as Hq. simpl in Hq.
  destruct o as [t|t c|t|t c|t|t]; simpl in Hs; destruct (threads s !! t) as [st|] eqn:Ht; try done; simpl in Hs.
  - destruct (decide (st = Idle)) as [->|]; [|done]. injection Hs as <-. apply (enter_read_inv true s t Idle); auto.
  - destruct (decide (st = Reading)) as [->|]; [|done]. injection Hs as <-. unfold WriterPreference.release_read_lock.
    destruct (leave_read_core true s t Hinv Ht) as [Hcore Hno].
    assert (∀ l : list Status, (∀ st, st ∈ l → st = WaitWrite true ∨ st ∈ threads (at_thread (set_readers s (activeReaders s - 1)) t Idle)) →
      WaitRead false ∈ l → rw_can_read true s = false) as Hsr.
    { intros l Hl [?|[?|Hin]%at_thread_elem]%Hl; [done|done|]. exact (rw_asleep_reader _ _ Hinv Hin). }
    destruct (Z.eqb_spec (activeReaders (at_thread (set_readers s (activeReaders s - 1)) t Idle)) 0) as [E|E].
    + split; [by apply wake_one_core|exact (Hsr _ (wake_one_elem c _))|].
      intros Hin. right. split; [done|]. apply wake_one_elem in Hin as [?|Hin]; [done|]. apply wake_one_keeps. by right.
    + split; [done|apply Hsr; by right|]. intros _. left. apply can_write_false. by left.
  - destruct (decide (st = Idle)) as [->|]; [|done]. injection Hs as <-.
    pose proof (enter_write_inv true s t Idle Hinv Ht (or_introl eq_refl)) as H. simpl in H. rewrite Z.sub_0_r in H. exact H.
  - destruct (decide (st = Writing)) as [->|]; [|done]. injection Hs as <-. unfold WriterPreference.release_write_lock.
    pose proof (leave_write_core true s t Hinv Ht) as Hcore. pose proof (rw_waiting _ _ Hcore) as Hq'. simpl in Hq'.
    destruct (Z.ltb_spec 0 (waitingWriters (at_thread (set_writer s false) t Idle))) as [Hpos|Hzero]; simpl in *.
    + split; [by apply wake_one_core| |].
      * intros _. simpl. unfold WriterPreference.can_read. simpl. apply Z.eqb_neq. lia.
      * intros Hin. right. split; [done|]. simpl in Hin. apply wake_one_elem in Hin as [?|Hin]; [done|].
        apply wake_one_keeps. by right.
    + split.
      * apply notify_core; [done|]. intros p _ Hp. unfold wake_readers. apply cnt_fmap. by intros [].
      * intros [Hne _]%wake_readers_elem. done.
      * intros [_ Hin]%wake_readers_elem. specialize (Hin eq_refl). apply list_elem_of_lookup in Hin as [i Hi].
        assert (0 < cnt waits_to_write (<[t:=Idle]> (threads s)))%Z by (apply cnt_pos; eauto). lia.
  - destruct st as [|[]|[]| |]; try done; injection Hs as <-.
    + apply (enter_read_inv true s t (WaitRead true)); auto.
    + pose proof (enter_write_inv true s t _ Hinv Ht (or_intror eq_refl)) as H. simpl in H.
      replace (waitingWriters s - 1 + 1)%Z with (waitingWriters s) in H by lia. rewrite (set_waiting_id s _ eq_refl) in H. exact H.
  - destruct st as [|[]|[]| |]; try done; injection Hs as <-; eapply spurious_inv; eauto.
Qed.

Lemma rw_make_inv wp n : rw_inv wp (ReadWriteLock_make n).
Proof.
  assert (∀ p, p Idle = false → cnt p (replicate n Idle) = 0%Z) as Hc.
  { intros p Hp. destruct (Z.ltb_spec 0 (cnt p (replicate n Idle))) as [Hlt|Hle].
    - apply cnt_pos in Hlt as (t & st & [-> _]%lookup_replicate & Hst). congruence.
    - pose proof (cnt_nonneg p (replicate n Idle)). lia. }
  split; [split|..]; simpl; rewrite ?Hc by done; try done.
  - by destruct wp.
  - intros [i [? _]%lookup_replicate]%list_elem_of_lookup. done.
  - intros [i [? _]%lookup_replicate]%list_elem_of_lookup. done.
Qed.

Lemma rw_run_inv wp n os s : run_ops (rw_step wp) (ReadWriteLock_make n) os = Some s → rw_inv wp s.
Proof.
  intros Hs. eapply (run_ops_preserves (rw_step wp) (rw_inv wp)); [|apply rw_make_inv|exact Hs].
  clear. intros s1 o s2 Hinv Hs. destruct wp; [by eapply writer_step_inv|by eapply reader_step_inv].
Qed.

(** A thread that can go on: it holds the lock, or it is awake and its predicate holds. *)
Definition can_progress (wp : bool) (s : ReadWriteLock) (t : nat) : Prop :=
  threads s !! t = Some Reading ∨ threads s !! t = Some Writing ∨
  (threads s !! t = Some (WaitRead true) ∧ rw_can_read wp s = true) ∨
  (threads s !! t = Some (WaitWrite true) ∧ can_write s = true).

Lemma holder_progress wp s : rw_inv wp s → can_write s = false → ∃ t, can_progress wp s t.
Proof.
  intros [[Hr Hw _ _] _ _] [Hne|Hact]%can_write_false.
  - assert (0 < cnt is_reading (threads s))%Z as (t & [] & Ht & Hst)%cnt_pos; try done.
    { pose proof (cnt_nonneg is_reading (threads s)). lia. }
    exists t. by left.
  - rewrite Hact in Hw. assert (0 < cnt is_writing (threads s))%Z as (t & [] & Ht & Hst)%cnt_pos; try done.
    { rewrite Hw. simpl. lia. }
    exists t. right. by left.
Qed.

Lemma writer_progress wp s t b :
  rw_inv wp s → threads s !! t = Some (WaitWrite b) → ∃ u, can_progress wp s u.
Proof.
  intros Hinv Ht. destruct (can_write s) eqn:Hcan; [|by apply holder_progress].
  assert (∃ u, threads s !! u = Some (WaitWrite true)) as [u Hu]; [|exists u; unfold can_progress; auto].
  destruct b; [by exists t|].
  destruct (rw_asleep_writer _ _ Hinv) as [?|[_ Hin]]; [by apply list_elem_of_lookup_2 with t|congruence|].
  by apply list_elem_of_lookup in Hin.
Qed.

(** In every state of either lock that any number of threads reach by calls,
    releases, wake-ups and spurious wake-ups in any order, with any choice of the writer
    that [notify_one] wakes: a writer excludes readers and other writers; the counters
    are the numbers of threads they stand for; and whenever a thread waits, some thread
    can go on, so that no wake-up is ever lost. *)
Theorem rw_locks_exclusive_and_live wp n os s :
  run_ops (rw_step wp) (ReadWriteLock_make n) os = Some s →
  (∀ t u st, threads s !! t = Some Writing → threads s !! u = Some st → st = Reading ∨ st = Writing → t = u) ∧
  activeReaders s = cnt is_reading (threads s) ∧
  (wp = true → waitingWriters s = cnt waits_to_write (threads s)) ∧
  ((∃ t b, threads s !! t = Some (WaitRead b) ∨ threads s !! t = Some (WaitWrite b)) → ∃ t, can_progress wp s t).
Proof.
  intros Hinv%rw_run_inv. destruct (rw_counts _ _ Hinv) as [Hr Hw He Hq]. split_and!.
  - intros t u st Ht Hu Hst. destruct (decide (t = u)) as [|Hne]; [done|exfalso].
    assert (0 < cnt is_writing (threads s))%Z as Hpos by (apply cnt_pos; eauto).
    destruct (anyActiveWriter s) eqn:Ha; simpl in Hw; [|lia]. specialize (He eq_refl). destruct Hst as [-> | ->].
    + assert (0 < cnt is_reading (threads s))%Z by (apply cnt_pos; eauto). lia.
    + assert (0 < cnt is_writing (<[t := Idle]> (threads s)))%Z as Hpos2.
      { apply cnt_pos. exists u, Writing. by rewrite list_lookup_insert_ne. }
      rewrite (cnt_insert _ _ _ Writing) in Hpos2 by done. simpl in Hpos2. lia.
  - done.
  - by intros ->.
  - intros (t & b & [Ht|Ht]); [|by eapply writer_progress].
    destruct (rw_can_read wp s) eqn:Hcan.
    + destruct b; [exists t; unfold can_progress; auto|].
      assert (rw_can_read wp s = false); [|congruence]. apply (rw_asleep_reader _ _ Hinv). by apply list_elem_of_lookup_2 with t.
    + destruct (can_write s) eqn:Hcw; [|by apply holder_progress]. apply can_write_true in Hcw as [_ Hno].
      destruct wp; simpl in Hcan; [|unfold ReaderPreference.can_read in Hcan; by rewrite Hno in Hcan].
      unfold WriterPreference.can_read in Hcan. rewrite Hno in Hcan. simpl in Hcan. apply Z.eqb_neq in Hcan.
      assert (0 < cnt waits_to_write (threads s))%Z as (u & [] & Hu & Hst)%cnt_pos; try done.
      { pose proof (cnt_nonneg waits_to_write (threads s)). lia. }
      by eapply writer_progress.
Qed.

Lemma rw_locks_exclusive_and_live_witness :
  ∃ s, run_ops (rw_step true) (ReadWriteLock_make 3)
      [AcquireRead 0; AcquireWrite 1; AcquireRead 2; Spurious 2; Retest 2; ReleaseRead 0 2; Retest 1] = Some s ∧
    threads s = [Idle; Writing; WaitRead false] ∧ ∃ t, can_progress true s t.
Proof.
  eexists. split; [reflexivity|].
  destruct (rw_locks_exclusive_and_live true 3
    [AcquireRead 0; AcquireWrite 1; AcquireRead 2; Spurious 2; Retest 2; ReleaseRead 0 2; Retest 1] _ eq_refl)
    as (_ & _ & _ & Hlive).
  split; [reflexivity|]. apply Hlive. exists 2, false. left. reflexivity.
Defined.
