(* ===== verification/LockFreeStack.v ===== *)
(** * The lock-free stack

    [src/CAS/LockFree_Stack.cpp]: a linked stack whose [head] is swung by
    compare-and-exchange.  Every access to the shared memory is a step of its own and any
    number of threads interleave; a weak exchange may fail spuriously.  Nodes live in a
    heap and, as in the source, are never deleted.  Memory is sequentially consistent.

    The specification is a stack whose operations take effect at one moment between their
    call and their return; every history of the program is a history of it. *)
From stdpp Require Import functions.
From S2P Require Import Prelude.
Local Open Scope nat_scope.

Section stack.
Context {T : Type}.

Record Node := { val : T; next : option nat }.

(** Where a thread is: the next access it will make. *)
Inductive Pc :=
  | Idle
  | Push_load (new_node : nat)
  | Push_cas (new_node : nat)
  | Push_ret
  | Pop_load
  | Pop_next (old_head : nat)
  | Pop_cas (old_head : nat) (next_node : option nat)
  | Pop_val (old_head : nat)
  | Pop_ret (result : option T).

Record LockFreeStack := { heap : gmap nat Node; head : option nat; pc : nat → Pc }.

Definition LockFreeStack_make : LockFreeStack := {| heap := ∅; head := None; pc := λ _, Idle |}.

Inductive Op := OpPush (v : T) | OpPop.
Inductive Res := Pushed | Popped (result : option T).
Inductive Event := Call (t : nat) (o : Op) | Ret (t : nat) (r : Res).

(** A schedule: a thread calls an operation ([a] is the address [new] would return), or
    makes its next access; [spurious] says whether a weak exchange fails for no reason. *)
Inductive Turn := Push (t : nat) (v : T) (a : nat) | Pop (t : nat) | Run (t : nat) (spurious : bool).

Definition goto (s : LockFreeStack) (t : nat) (p : Pc) : LockFreeStack :=
  {| heap := heap s; head := head s; pc := <[t := p]> (pc s) |}.

Definition set_next (s : LockFreeStack) (n : nat) (nx : option nat) : option LockFreeStack :=
  nd ← heap s !! n; Some {| heap := <[n := {| val := val nd; next := nx |}]> (heap s); head := head s; pc := pc s |}.

Definition set_head (s : LockFreeStack) (p : option nat) : LockFreeStack :=
  {| heap := heap s; head := p; pc := pc s |}.

(** What [pop] does with a value of [head] it has just loaded. *)
Definition pop_test (s : LockFreeStack) (t : nat) (h : option nat) : LockFreeStack :=
  match h with Some n => goto s t (Pop_next n) | None => goto s t (Pop_ret None) end.

(** The body of [push] from [new Node(v)] on, an access at a time. *)
Definition push (s : LockFreeStack) (t : nat) (spurious : bool) (p : Pc) : option (LockFreeStack * list Event) :=
  match p with
  | Push_load n => s ← set_next s n (head s); Some (goto s t (Push_cas n), [])
  | Push_cas n =>
      nd ← heap s !! n;
      if bool_decide (head s = next nd) && negb spurious then Some (goto (set_head s (Some n)) t Push_ret, [])
      else s ← set_next s n (head s); Some (goto s t (Push_cas n), [])
  | Push_ret => Some (goto s t Idle, [Ret t Pushed])
  | _ => Some (s, [])
  end.

(** The body of [pop], an access at a time. *)
Definition pop (s : LockFreeStack) (t : nat) (spurious : bool) (p : Pc) : option (LockFreeStack * list Event) :=
  match p with
  | Pop_load => Some (pop_test s t (head s), [])
  | Pop_next old => nd ← heap s !! old; Some (goto s t (Pop_cas old (next nd)), [])
  | Pop_cas old nx =>
      if bool_decide (head s = Some old) && negb spurious then Some (goto (set_head s nx) t (Pop_val old), [])
      else Some (pop_test s t (head s), [])
  | Pop_val old => nd ← heap s !! old; Some (goto s t (Pop_ret (Some (val nd))), [])
  | Pop_ret r => Some (goto s t Idle, [Ret t (Popped r)])
  | _ => Some (s, [])
  end.

(** A turn that is not possible (a call by a busy thread, an address in use) changes
    nothing. *)
Definition turn (s : LockFreeStack) (u : Turn) : option (LockFreeStack * list Event) :=
  match u with
  | Push t v a =>
      match pc s t, heap s !! a with
      | Idle, None =>
          Some ({| heap := <[a := {| val := v; next := None |}]> (heap s); head := head s;
                   pc := <[t := Push_load a]> (pc s) |}, [Call t (OpPush v)])
      | _, _ => Some (s, [])
      end
  | Pop t => match pc s t with Idle => Some (goto s t Pop_load, [Call t OpPop]) | _ => Some (s, []) end
  | Run t spurious =>
      match pc s t with
      | Idle => Some (s, [])
      | Push_load _ | Push_cas _ | Push_ret => push s t spurious (pc s t)
      | _ => pop s t spurious (pc s t)
      end
  end.

(** ** The specification: a stack of atomic operations *)

Inductive APc := AIdle | APending (o : Op) | ADone (r : Res).

Record Atomic := { items : list T; apc : nat → APc }.

Definition Atomic_make : Atomic := {| items := []; apc := λ _, AIdle |}.

(** The effect of an operation on the items, and its answer. *)
Definition effect (o : Op) (l : list T) : list T * Res :=
  match o, l with
  | OpPush v, _ => (v :: l, Pushed)
  | OpPop, [] => ([], Popped None)
  | OpPop, v :: l => (l, Popped (Some v))
  end.

(** A call, the moment an operation takes effect, a return. *)
Inductive atomic_step (a : Atomic) : list Event → Atomic → Prop :=
  | atomic_call t o :
      apc a t = AIdle → atomic_step a [Call t o] {| items := items a; apc := <[t := APending o]> (apc a) |}
  | atomic_effect t o :
      apc a t = APending o →
      atomic_step a [] {| items := (effect o (items a)).1; apc := <[t := ADone (effect o (items a)).2]> (apc a) |}
  | atomic_ret t r :
      apc a t = ADone r → atomic_step a [Ret t r] {| items := items a; apc := <[t := AIdle]> (apc a) |}.

Inductive atomic_run : Atomic → list Event → Atomic → Prop :=
  | atomic_refl a : atomic_run a [] a
  | atomic_trans a e b es c : atomic_step a e b → atomic_run b es c → atomic_run a (e ++ es) c.

Lemma atomic_run_app a es b fs c : atomic_run a es b → atomic_run b fs c → atomic_run a (es ++ fs) c.
Proof. induction 1; intros; simpl; [done|]. rewrite <-app_assoc. econstructor; eauto. Qed.

Lemma atomic_one a e b : atomic_step a e b → atomic_run a e b.
Proof. intros. rewrite <-(app_nil_r e). econstructor; [done|constructor]. Qed.

(** ** The invariant *)

(** The nodes from [p] on spell the values [l], and are all published. *)
Fixpoint spells (h : gmap nat Node) (pub : gset nat) (p : option nat) (l : list T) : Prop :=
  match l with
  | [] => p = None
  | v :: l => ∃ n nd, p = Some n ∧ n ∈ pub ∧ h !! n = Some nd ∧ val nd = v ∧ spells h pub (next nd) l
  end.

(** The node a pushing thread has not published yet. *)
Definition private (p : Pc) : option nat :=
  match p with Push_load n | Push_cas n => Some n | _ => None end.

(** A thread and its counterpart in the specification. *)
Definition pc_rel (h : gmap nat Node) (pub : gset nat) (p : Pc) (q : APc) : Prop :=
  match p with
  | Idle => q = AIdle
  | Push_load n | Push_cas n => ∃ nd, h !! n = Some nd ∧ (n ∉ pub) ∧ q = APending (OpPush (val nd))
  | Push_ret => q = ADone Pushed
  | Pop_load => q = APending OpPop
  | Pop_next n => q = APending OpPop ∧ n ∈ pub
  | Pop_cas n nx => q = APending OpPop ∧ n ∈ pub ∧ ∃ nd, h !! n = Some nd ∧ next nd = nx
  | Pop_val n => n ∈ pub ∧ ∃ nd, h !! n = Some nd ∧ q = ADone (Popped (Some (val nd)))
  | Pop_ret r => q = ADone (Popped r)
  end.

Record stack_rel (pub : gset nat) (s : LockFreeStack) (a : Atomic) : Prop := {
  k_spells : spells (heap s) pub (head s) (items a);
  k_pub : ∀ n, n ∈ pub → is_Some (heap s !! n);
  k_pc : ∀ t, pc_rel (heap s) pub (pc s t) (apc a t);
  k_private : ∀ t u n, private (pc s t) = Some n → private (pc s u) = Some n → t = u
}.

(** The heap agrees on the published nodes. *)
Definition same_pub (pub : gset nat) (h h' : gmap nat Node) : Prop := ∀ n, n ∈ pub → h' !! n = h !! n.

Lemma spells_ext h h' pub pub' p l : same_pub pub h h' → pub ⊆ pub' → spells h pub p l → spells h' pub' p l.
Proof.
  intros Hs Hp. revert p. induction l as [|v l IH]; simpl; [done|]. intros p (n & nd & -> & Hn & Hnd & Hv & Hl).
  exists n, nd. rewrite Hs by done. split_and!; auto.
Qed.

Lemma spells_head h pub p l n : spells h pub p l → p = Some n → n ∈ pub.
Proof. destruct l; simpl; [congruence|]. intros (n' & ? & -> & ? & _) ?. by simplify_eq. Qed.

Lemma same_pub_private pub h n nd : n ∉ pub → same_pub pub h (<[n := nd]> h).
Proof. intros Hn m Hm. apply lookup_insert_ne. congruence. Qed.

(** Another thread's counterpart is not disturbed by a change of a node that is not its
    private one, nor by the publication of such a node. *)
Lemma pc_rel_other h h' pub pub' p q :
  same_pub pub h h' → pub ⊆ pub' →
  (∀ n, private p = Some n → h' !! n = h !! n ∧ (n ∈ pub' → n ∈ pub)) →
  pc_rel h pub p q → pc_rel h' pub' p q.
Proof.
  intros Hs Hp Hpriv.
  destruct p; simpl; try done; try (destruct (Hpriv _ eq_refl) as [E ?]; rewrite E); try naive_solver.
  - intros (? & Hn & nd & Hnd & ?). rewrite (Hs _ Hn). eauto 6.
  - intros (Hn & nd & Hnd & ?). rewrite (Hs _ Hn). eauto 6.
Qed.

(** A thread moves to [p] while the memory changes without touching what the others
    rely on. *)
Lemma stack_move pub pub' s a t h' hd' l' p q :
  stack_rel pub s a → same_pub pub (heap s) h' → pub ⊆ pub' → (∀ n, n ∈ pub' → is_Some (h' !! n)) →
  spells h' pub' hd' l' → pc_rel h' pub' p q →
  (∀ u n, u ≠ t → private (pc s u) = Some n →
     h' !! n = heap s !! n ∧ (n ∈ pub' → n ∈ pub) ∧ private p ≠ Some n) →
  stack_rel pub' {| heap := h'; head := hd'; pc := <[t := p]> (pc s) |} {| items := l'; apc := <[t := q]> (apc a) |}.
Proof.
  intros [K1 K2 K3 K4] Hs Hp Hpub Hl Hpc Ho. split; simpl; [done|done| |].
  - intros u. destruct (decide (u = t)) as [->|Hu]; [by rewrite !fn_lookup_insert|].
    rewrite !fn_lookup_insert_ne by done. eapply pc_rel_other; [done|done| |apply K3].
    intros n Hn. destruct (Ho u n Hu Hn) as (? & ? & ?). done.
  - intros u w n. destruct (decide (u = t)) as [->|Hu], (decide (w = t)) as [->|Hw];
      rewrite ?fn_lookup_insert, ?fn_lookup_insert_ne by done; try done.
    + intros Hn Hw'. by destruct (Ho w n Hw Hw') as (_ & _ & ?).
    + intros Hu' Hn. by destruct (Ho u n Hu Hu') as (_ & _ & ?).
    + apply K4.
Qed.

(** The same when the memory does not change and the thread keeps no private node. *)
Lemma stack_goto pub s a t hd' l' p q :
  stack_rel pub s a → spells (heap s) pub hd' l' → pc_rel (heap s) pub p q → private p = None →
  stack_rel pub {| heap := heap s; head := hd'; pc := <[t := p]> (pc s) |} {| items := l'; apc := <[t := q]> (apc a) |}.
Proof.
  intros Hk Hl Hpc Hp. eapply (stack_move pub); try done; [apply (k_pub _ _ _ Hk)|].
  intros u n _ Hn. rewrite Hp. done.
Qed.

(** When the thread's counterpart does not move, the specification does not either. *)
Lemma stack_stutter pub s a t q :
  apc a t = q → stack_rel pub s {| items := items a; apc := <[t := q]> (apc a) |} → stack_rel pub s a.
Proof.
  intros <- [K1 K2 K3 K4]. split; simpl in *; try done. intros u. specialize (K3 u).
  destruct (decide (u = t)) as [->|?]; [by rewrite fn_lookup_insert in K3|by rewrite fn_lookup_insert_ne in K3].
Qed.

(** The result of a step: the specification makes the same events. *)
Definition simulated (a : Atomic) (r : option (LockFreeStack * list Event)) : Prop :=
  ∃ pub s es a', r = Some (s, es) ∧ atomic_run a es a' ∧ stack_rel pub s a'.

Lemma simulated_quiet pub a t s' q :
  apc a t = q → stack_rel pub s' {| items := items a; apc := <[t := q]> (apc a) |} → simulated a (Some (s', [])).
Proof. intros. exists pub, s', [], a. split_and!; [done|constructor|by eapply stack_stutter]. Qed.

Lemma simulated_step pub s' a es a' : atomic_step a es a' → stack_rel pub s' a' → simulated a (Some (s', es)).
Proof. intros. exists pub, s', es, a'. split_and!; [done|by apply atomic_one|done]. Qed.

(** The private node takes the value of [head] as its [next]. *)
Lemma set_next_sim pub s a t n nd :
  stack_rel pub s a → private (pc s t) = Some n → heap s !! n = Some nd → n ∉ pub →
  apc a t = APending (OpPush (val nd)) →
  simulated a (s' ← set_next s n (head s); Some (goto s' t (Push_cas n), [])).
Proof.
  intros Hk Ht Hnd Hn Ha. unfold set_next. rewrite Hnd. cbn [mbind option_bind].
  eapply simulated_quiet; [done|]. eapply (stack_move pub pub s a t); simpl; try done.
  - by apply same_pub_private.
  - intros m Hm. destruct (decide (n = m)) as [->|?]; [rewrite lookup_insert_eq; eauto|].
    rewrite lookup_insert_ne by done. by apply (k_pub _ _ _ Hk).
  - eapply spells_ext; [by apply same_pub_private|done|apply (k_spells _ _ _ Hk)].
  - eexists. rewrite lookup_insert_eq. done.
  - intros u m Hu Hm. assert (n ≠ m) by (intros ->; apply Hu, (k_private _ _ _ Hk u t m Hm Ht)).
    rewrite lookup_insert_ne by done. split_and!; [done|done|congruence].
Qed.

Lemma push_sim pub s a t b :
  stack_rel pub s a → (pc s t = Push_ret ∨ is_Some (private (pc s t))) → simulated a (push s t b (pc s t)).
Proof.
  intros Hk Ht. pose proof (k_pc _ _ _ Hk t) as Hpc. destruct (pc s t) as [|n|n| | | | | |] eqn:E; simpl in *;
    try (by destruct Ht as [?|[??]]).
  - destruct Hpc as (nd & Hnd & Hn & Ha). eapply set_next_sim; [done|by rewrite E|done|done|done].
  - destruct Hpc as (nd & Hnd & Hn & Ha). rewrite Hnd. cbn [mbind option_bind].
    destruct (bool_decide (head s = next nd) && negb b) eqn:Hb;
      [|eapply set_next_sim; [done|by rewrite E|done|done|done]].
    apply andb_prop in Hb as [Hh%bool_decide_eq_true _].
    eapply (simulated_step (pub ∪ {[n]})); [by apply (atomic_effect a t)|]. simpl.
    eapply (stack_move pub _ s a t); simpl; [done|done|set_solver| | |done|].
    + intros m [Hm|Hm]%elem_of_union; [by apply (k_pub _ _ _ Hk)|]. apply elem_of_singleton in Hm as ->. eauto.
    + exists n, nd. split_and!; [done|set_solver|done|done|]. rewrite <-Hh.
      eapply (spells_ext (heap s) _ pub); [done|set_solver|apply (k_spells _ _ _ Hk)].
    + intros u m Hu Hm. split_and!; [done| |done].
      intros [?|Hm']%elem_of_union; [done|]. apply elem_of_singleton in Hm' as ->.
      destruct Hu. apply (k_private _ _ _ Hk u t n Hm). by rewrite E.
  - eapply (simulated_step pub); [by apply atomic_ret|]. by apply stack_goto; [|apply (k_spells _ _ _ Hk)| |].
Qed.

Lemma pop_test_sim pub s a t :
  stack_rel pub s a → apc a t = APending OpPop → simulated a (Some (pop_test s t (head s), [])).
Proof.
  intros Hk Ha. pose proof (k_spells _ _ _ Hk) as Hl. unfold pop_test. destruct (head s) as [n|] eqn:Hh.
  - eapply (simulated_quiet pub); [exact Ha|]. rewrite <-Hh in Hl. apply stack_goto; try done.
    split; [done|]. by eapply spells_head.
  - destruct (items a) as [|v l] eqn:Hi; [|by destruct Hl as (? & ? & ? & _)].
    eapply (simulated_step pub); [by apply (atomic_effect a t)|]. simpl. rewrite Hi. simpl.
    apply stack_goto; try done.
Qed.

Lemma pop_sim pub s a t b :
  stack_rel pub s a → (pc s t ≠ Idle ∧ pc s t ≠ Push_ret ∧ private (pc s t) = None) → simulated a (pop s t b (pc s t)).
Proof.
  intros Hk (Ht1 & Ht2 & Ht3). pose proof (k_pc _ _ _ Hk t) as Hpc. pose proof (k_spells _ _ _ Hk) as Hl.
  destruct (pc s t) as [| | | | |n|n nx|n|r] eqn:E; simpl in *; try done.
  - by eapply pop_test_sim.
  - destruct Hpc as [Ha Hn]. destruct (k_pub _ _ _ Hk n Hn) as [nd Hnd]. rewrite Hnd. cbn [mbind option_bind].
    eapply (simulated_quiet pub); [exact Ha|]. apply stack_goto; try done. simpl; eauto.
  - destruct Hpc as (Ha & Hn & nd & Hnd & <-).
    destruct (bool_decide (head s = Some n) && negb b) eqn:Hb; [|by eapply pop_test_sim].
    apply andb_prop in Hb as [Hh%bool_decide_eq_true _]. rewrite Hh in Hl.
    destruct (items a) as [|v l] eqn:Hi; [done|]. destruct Hl as (n' & nd' & ? & _ & Hnd' & Hv & Hl). simplify_eq.
    eapply (simulated_step pub); [by apply (atomic_effect a t)|]. simpl. rewrite Hi. simpl.
    apply (stack_goto pub s); try done. simpl; eauto.
  - destruct Hpc as (Hn & nd & Hnd & Ha). rewrite Hnd. cbn [mbind option_bind].
    eapply (simulated_quiet pub); [exact Ha|]. by apply stack_goto.
  - eapply (simulated_step pub); [by apply atomic_ret|]. by apply stack_goto.
Qed.

Lemma turn_sim pub s a u : stack_rel pub s a → simulated a (turn s u).
Proof.
  intros Hk. assert (simulated a (Some (s, []))) as Hid by (exists pub, s, [], a; split_and!; [done|constructor|done]).
  destruct u as [t v n|t|t b]; simpl.
  - pose proof (k_pc _ _ _ Hk t) as Hpc. destruct (pc s t) eqn:E; try done.
    destruct (heap s !! n) as [|] eqn:Hn; [done|]. assert (n ∉ pub) as Hpn.
    { intros Hp. destruct (k_pub _ _ _ Hk n Hp). congruence. }
    eapply (simulated_step pub); [by apply (atomic_call a t (OpPush v))|].
    eapply (stack_move pub pub s a t); simpl; try done.
    + by apply same_pub_private.
    + intros m Hm. rewrite lookup_insert_ne by congruence. by apply (k_pub _ _ _ Hk).
    + eapply spells_ext; [by apply same_pub_private|done|apply (k_spells _ _ _ Hk)].
    + eexists. rewrite lookup_insert_eq. done.
    + intros w m Hw Hm. assert (is_Some (heap s !! m)) as [nd Hnd].
      { pose proof (k_pc _ _ _ Hk w) as Hpw. destruct (pc s w); simpl in Hm; try done;
          injection Hm as ->; destruct Hpw as (? & ? & _); eauto. }
      assert (n ≠ m) by congruence. rewrite lookup_insert_ne by done. split_and!; [done|done|congruence].
  - pose proof (k_pc _ _ _ Hk t) as Hpc. destruct (pc s t) eqn:E; try done.
    eapply (simulated_step pub); [by apply (atomic_call a t OpPop)|].
    by apply stack_goto; [|apply (k_spells _ _ _ Hk)| |].
  - pose proof (push_sim pub s a t b Hk) as Hpush. pose proof (pop_sim pub s a t b Hk) as Hpop.
    destruct (pc s t) eqn:E; try done; first [apply Hpush|apply Hpop]; simpl; eauto; split_and!; done.
Qed.

Lemma run_sim pub s a sched :
  stack_rel pub s a →
  ∃ pub' s' ess a', run_out turn s sched = Some (s', ess) ∧ atomic_run a (concat ess) a' ∧ stack_rel pub' s' a'.
Proof.
  revert pub s a. induction sched as [|u sched IH]; intros pub s a Hk; simpl.
  - exists pub, s, [], a. split_and!; [done|constructor|done].
  - destruct (turn_sim pub s a u Hk) as (pub1 & s1 & es & a1 & -> & Hr1 & Hk1). simpl.
    destruct (IH pub1 s1 a1 Hk1) as (pub2 & s2 & ess & a2 & -> & Hr2 & Hk2). simpl.
    exists pub2, s2, (es :: ess), a2. split_and!; [done| |done]. simpl. by eapply atomic_run_app.
Qed.

Lemma stack_rel_make : stack_rel ∅ LockFreeStack_make Atomic_make.
Proof. by split. Qed.

(** C9: The lock-free stack is linearizable: whatever the interleaving of the accesses of
    its threads and whatever weak exchanges fail, no dangling node is read, and the calls
    and returns are those of a stack whose operations each take effect at one moment
    between call and return; the nodes from [head] on spell the contents of that stack. *)
Theorem lock_free_stack_linearizable (sched : list Turn) :
  ∃ s ess a, run_out turn LockFreeStack_make sched = Some (s, ess) ∧
    atomic_run Atomic_make (concat ess) a ∧ ∃ pub, spells (heap s) pub (head s) (items a).
Proof.
  destruct (run_sim ∅ _ _ sched stack_rel_make) as (pub & s & ess & a & Hs & Hr & Hk).
  exists s, ess, a. split_and!; [done|done|]. exists pub. apply (k_spells _ _ _ Hk).
Qed.

(** ** Lock-freedom

    The retry loops end: the accesses threads make are bounded by the operations called. *)

Definition busy (p : Pc) : bool := match p with Idle => false | _ => true end.

(** The accesses made by a schedule: turns of threads that are in an operation. *)
Fixpoint accesses (s : LockFreeStack) (sched : list Turn) : nat :=
  match sched with
  | [] => 0
  | u :: sched =>
      (match u with Run t _ => if busy (pc s t) then 1 else 0 | _ => 0 end) +
      match turn s u with Some (s', _) => accesses s' sched | None => 0 end
  end.

Definition is_call (e : Event) : bool := match e with Call _ _ => true | _ => false end.

Definition calls (es : list Event) : nat := length (filter is_call es).

(** A thread below [P] whose exchanges do not fail spuriously. *)
Definition fair_turn (P : nat) (u : Turn) : Prop :=
  match u with Push t _ _ | Pop t => t < P | Run t spurious => t < P ∧ spurious = false end.

(** The accesses a thread still has to make if nobody interferes. *)
Definition to_go (s : LockFreeStack) (p : Pc) : nat :=
  match p with
  | Idle => 0
  | Push_load _ => 3
  | Push_cas n => if decide (head s = heap s !! n ≫= next) then 2 else 3
  | Push_ret => 1
  | Pop_load => 5
  | Pop_next n => if decide (head s = Some n) then 4 else 6
  | Pop_cas n _ => if decide (head s = Some n) then 3 else 5
  | Pop_val _ => 2
  | Pop_ret _ => 1
  end.

(** An operation that has not taken effect may still disturb the [P] threads. *)
Definition pending (p : Pc) : bool :=
  match p with Idle | Push_ret | Pop_val _ | Pop_ret _ => false | _ => true end.

Definition weight (P : nat) (s : LockFreeStack) (t : nat) : nat :=
  to_go s (pc s t) + if pending (pc s t) then 2 * P else 0.

Definition potential (P : nat) (s : LockFreeStack) : nat := sum_list_with (weight P s) (seq 0 P).

Lemma sum_le (f g : nat → nat) l c : (∀ u, u ∈ l → g u ≤ f u + c) → sum_list_with g l ≤ sum_list_with f l + c * length l.
Proof.
  induction l as [|u l IH]; simpl; intros Hf; [lia|].
  pose proof (Hf u ltac:(by left)). specialize (IH ltac:(intros; apply Hf; by right)). lia.
Qed.

(** One summand changes by [d], the others grow by [c] at most. *)
Lemma sum_change (f g : nat → nat) P t c d e :
  t < P → (∀ u, u ≠ t → g u ≤ f u + c) → g t + c * P + d ≤ f t + e →
  sum_list_with g (seq 0 P) + d ≤ sum_list_with f (seq 0 P) + e.
Proof.
  intros Ht Ho Hd. replace P with (t + S (P - S t)) by lia. rewrite seq_app, !sum_list_with_app. simpl.
  pose proof (sum_le f g (seq 0 t) c) as H1. pose proof (sum_le f g (seq (S t) (P - S t)) c) as H2.
  rewrite length_seq in H1, H2. specialize (H1 ltac:(intros u Hu%elem_of_seq; apply Ho; lia)).
  specialize (H2 ltac:(intros u Hu%elem_of_seq; apply Ho; lia)). nia.
Qed.

(** What a turn of [t] may do to the others' weights: [2] if it moves [head]. *)
Lemma weight_other pub s a s' P t u :
  stack_rel pub s a → u ≠ t → pc s' u = pc s u →
  (∀ n, private (pc s u) = Some n → heap s' !! n = heap s !! n) →
  weight P s' u ≤ weight P s u + (if decide (head s' = head s) then 0 else 2).
Proof.
  intros Hk Hu Hpc Hh. unfold weight. rewrite Hpc. destruct (pc s u); simpl; try lia.
  1: rewrite Hh by done.
  all: destruct (decide (head s' = head s)) as [->|?]; repeat (case_decide; try lia).
Qed.

Lemma private_ne pub s a t u n m :
  stack_rel pub s a → u ≠ t → private (pc s t) = Some n → private (pc s u) = Some m → n ≠ m.
Proof. intros Hk Hu Ht Hm ->. by apply Hu, (k_private _ _ _ Hk u t m). Qed.

(** A turn moves one thread and writes its private node only. *)
Lemma run_frame s s' es t b :
  turn s (Run t b) = Some (s', es) →
  (∀ u, u ≠ t → pc s' u = pc s u) ∧ (∀ n, private (pc s t) ≠ Some n → heap s' !! n = heap s !! n).
Proof.
  intros Ht. simpl in Ht. destruct (pc s t) eqn:E; simpl in Ht; unfold set_next, pop_test in Ht;
    try (destruct (heap s !! new_node) as [nd|]; [cbn [mbind option_bind] in Ht|done]);
    repeat case_match; simplify_option_eq; try done; simpl; split; intros; try done;
    solve [by rewrite fn_lookup_insert_ne by congruence | by rewrite lookup_insert_ne by congruence].
Qed.

(** A turn brings its own thread closer to its return. *)
Lemma run_closer pub s a s' es P t :
  stack_rel pub s a → busy (pc s t) = true → turn s (Run t false) = Some (s', es) →
  weight P s' t + (if decide (head s' = head s) then 0 else 2) * P + 1 ≤ weight P s t.
Proof.
  intros Hk Hb Ht. simpl in Ht. pose proof (k_pc _ _ _ Hk t) as Hpc.
  destruct (pc s t) as [|n|n| | |n|n nx|n|r] eqn:E; simpl in Ht, Hpc; unfold weight; rewrite E; simpl; try done.
  - destruct Hpc as (nd & Hnd & _). unfold set_next in Ht. rewrite Hnd in Ht. simplify_option_eq.
    rewrite fn_lookup_insert. simpl. rewrite lookup_insert_eq. simpl. rewrite !decide_True by done. lia.
  - destruct Hpc as (nd & Hnd & _). unfold set_next in Ht. rewrite Hnd in *. simpl in *.
    rewrite andb_true_r in Ht. case_bool_decide as Hh; simplify_eq; simpl; rewrite fn_lookup_insert; simpl; rewrite ?Hnd.
    + simpl. repeat case_decide; try lia; done.
    + rewrite lookup_insert_eq. simpl. simpl. repeat case_decide; done || lia.
  - simplify_eq. simpl. rewrite fn_lookup_insert, decide_True by done. simpl. lia.
  - simplify_eq. unfold pop_test. destruct (head s) as [n|] eqn:Hh; simpl;
      rewrite fn_lookup_insert; simpl; rewrite ?Hh; repeat case_decide; done || lia.
  - destruct (heap s !! n) as [nd|]; simplify_option_eq; rewrite fn_lookup_insert; simpl; repeat case_decide; done || lia.
  - rewrite andb_true_r in Ht. case_bool_decide as Hh; simplify_eq; simpl.
    + rewrite fn_lookup_insert. simpl. repeat case_decide; lia.
    + unfold pop_test. destruct (head s) as [m|] eqn:Hm; simpl; rewrite fn_lookup_insert; simpl;
        rewrite ?Hm; repeat case_decide; done || lia.
  - destruct (heap s !! n) as [nd|]; simplify_option_eq; rewrite fn_lookup_insert; simpl; repeat case_decide; done || lia.
  - simplify_eq. simpl. rewrite fn_lookup_insert, decide_True by done. simpl. lia.
Qed.

Lemma potential_run pub s a s' es P t :
  stack_rel pub s a → t < P → busy (pc s t) = true → turn s (Run t false) = Some (s', es) →
  potential P s' + 1 ≤ potential P s.
Proof.
  intros Hk HP Hb Ht. destruct (run_frame s s' es t false Ht) as [Hpc Hh].
  unfold potential. rewrite <-(Nat.add_0_r (sum_list_with (weight P s) _)).
  apply (sum_change _ _ P t (if decide (head s' = head s) then 0 else 2)); [done| |].
  - intros u Hu. apply (weight_other pub s a s' P t u); auto. intros n Hn. apply Hh. intros Hn'.
    by apply Hu, (k_private _ _ _ Hk u t n).
  - pose proof (run_closer pub s a s' es P t Hk Hb Ht). lia.
Qed.

Lemma potential_call pub s a s' es P u :
  stack_rel pub s a → fair_turn P u → (∀ t b, u ≠ Run t b) → turn s u = Some (s', es) →
  potential P s' ≤ potential P s + (5 + 2 * P) * calls es.
Proof.
  intros Hk Hf Hr Ht. destruct u as [t v n|t|t b]; [| |by destruct (Hr t b)]; simpl in Ht, Hf.
  - destruct (pc s t) eqn:E; try (simplify_eq; lia). destruct (heap s !! n) as [|] eqn:Hn; simplify_eq; [lia|].
    rewrite <-(Nat.add_0_r (potential P _)). apply (sum_change _ _ P t 0); [done| |].
    + intros w Hw. pose proof (weight_other pub s a {| heap := <[n:={| val := v; next := None |}]> (heap s); head := head s;
        pc := <[t:=Push_load n]> (pc s) |} P t w Hk Hw) as Ho. simpl in Ho. rewrite decide_True in Ho by done. apply Ho.
      * by rewrite fn_lookup_insert_ne.
      * intros m Hm. apply lookup_insert_ne. intros ->. pose proof (k_pc _ _ _ Hk w) as Hpw.
        destruct (pc s w); simpl in Hm; try done; injection Hm as ->; destruct Hpw as (? & ? & _); congruence.
    + unfold weight, calls. simpl. rewrite fn_lookup_insert, E. simpl. lia.
  - destruct (pc s t) eqn:E; try (simplify_eq; lia). simplify_eq.
    rewrite <-(Nat.add_0_r (potential P (goto _ _ _))). apply (sum_change _ _ P t 0); [done| |].
    + intros w Hw. pose proof (weight_other pub s a (goto s t Pop_load) P t w Hk Hw) as Ho.
      simpl in Ho. rewrite decide_True in Ho by done. apply Ho; [by rewrite fn_lookup_insert_ne|done].
    + unfold weight, calls. simpl. rewrite fn_lookup_insert, E. simpl. lia.
Qed.

Lemma calls_app es fs : calls (es ++ fs) = calls es + calls fs.
Proof. unfold calls. by rewrite filter_app, length_app. Qed.

Lemma accesses_bound P pub s a sched s' ess :
  stack_rel pub s a → Forall (fair_turn P) sched → run_out turn s sched = Some (s', ess) →
  accesses s sched + potential P s' ≤ potential P s + (5 + 2 * P) * calls (concat ess).
Proof.
  revert pub s a ess. induction sched as [|u sched IH]; intros pub s a ess Hk Hf Hr; simpl in *.
  - simplify_eq. simpl. lia.
  - apply Forall_cons in Hf as [Hu Hf]. destruct (turn s u) as [[s1 es]|] eqn:Ht; simpl in Hr; [|done].
    destruct (run_out turn s1 sched) as [[s2 ess2]|] eqn:Hr2; simplify_option_eq.
    destruct (turn_sim pub s a u Hk) as (pub1 & s1' & es' & a1 & E & _ & Hk1). simplify_eq.
    specialize (IH pub1 s1 a1 ess2 Hk1 Hf Hr2). simpl. rewrite calls_app.
    destruct u as [t v n|t|t b].
    1, 2: pose proof (potential_call pub s a s1 es P _ Hk Hu ltac:(done) Ht); lia.
    destruct Hu as [Hu ->]. destruct (busy (pc s t)) eqn:Hb; [pose proof (potential_run pub s a s1 es P t Hk Hu Hb Ht); lia|].
    simpl in Ht. destruct (pc s t); simplify_eq; lia.
Qed.

(** The stack is lock-free: when [P] threads run with no spurious failures, the
    retries of their compare-and-exchange loops end.  Whatever the schedule, the accesses
    made are at most [5 + 2 P] for each operation called, so a schedule that keeps running
    threads inside finitely many operations completes them all. *)
Theorem lock_free_stack_progress (P : nat) (sched : list Turn) :
  Forall (fair_turn P) sched →
  ∃ s ess, run_out turn LockFreeStack_make sched = Some (s, ess) ∧
    accesses LockFreeStack_make sched ≤ (5 + 2 * P) * calls (concat ess).
Proof.
  intros Hf. destruct (run_sim ∅ _ _ sched stack_rel_make) as (pub & s & ess & a & Hs & _ & _).
  exists s, ess. split; [done|]. pose proof (accesses_bound P ∅ _ _ sched s ess stack_rel_make Hf Hs) as Hb.
  assert (potential P LockFreeStack_make = 0) as E; [|lia].
  unfold potential. assert (∀ l, sum_list_with (weight P LockFreeStack_make) l = 0) as ->; [|done].
  by induction l.
Qed.

End stack.

Arguments Node : clear implicits.
Arguments Pc : clear implicits.
Arguments LockFreeStack : clear implicits.
Arguments Turn : clear implicits.
Arguments Op : clear implicits.
Arguments Res : clear implicits.
Arguments Event : clear implicits.
Arguments Atomic : clear implicits.

(** Two threads push; a third pops while the second's exchange fails and is retried. *)
Definition stack_demo : list (Turn nat) :=
  [Push 0 7 100; Run 0 false; Push 1 8 101; Run 1 false; Run 0 false; Run 1 false; Run 1 false; Pop 2; Run 2 false;
   Run 2 false; Run 2 false; Run 2 false; Run 2 false; Run 0 false; Run 1 false].

Lemma lock_free_stack_progress_witness :
  Forall (fair_turn 3) stack_demo ∧ ∃ s ess, run_out turn LockFreeStack_make stack_demo = Some (s, ess) ∧
    accesses LockFreeStack_make stack_demo ≤ (5 + 2 * 3) * calls (concat ess).
Proof.
  assert (Forall (fair_turn 3) stack_demo) as H by (repeat constructor).
  split; [exact H|]. apply (lock_free_stack_progress 3 stack_demo H).
Defined.
