(* ===== verification/AtomicCounters.v ===== *)
(** * Atomic counters

    [src/CAS/AtomicCounter_with_CAS.cpp], [src/CAS/AtomicCounter_without_CAS.cpp] and
    [src/concurrency/AtomicCounter_usingCAS.cpp]: threads that each increment one counter
    a number of times, by a compare-and-exchange loop or by [fetch_add].  A step is one
    atomic access of one thread; no increment is lost.

    [fetch_add] on an atomic [int] wraps around; [old + 1] in the loop is [int] arithmetic
    whose overflow is undefined ([None]). *)
From S2P Require Import Prelude.
Local Open Scope Z_scope.

(** A thread: the increments it has not finished, and the value [old] it last saw when it
    is inside one. *)
Record Worker := { todo : nat; old : option Z }.

Record AtomicCounter := { count : Z; threads : list Worker }.

(** [N] threads are about to make [R] increments each. *)
Definition AtomicCounter_make (N R : nat) : AtomicCounter :=
  {| count := 0; threads := replicate N {| todo := R; old := None |} |}.

Definition get (c : AtomicCounter) : Z := count c.

(** One access of [increment] by compare-and-exchange. *)
Definition increment_cas (c : AtomicCounter) (t : nat) (spurious : bool) : option AtomicCounter :=
  match threads c !! t with
  | Some {| todo := S n; old := None |} =>
      Some {| count := count c; threads := <[t := {| todo := S n; old := Some (count c) |}]> (threads c) |}
  | Some {| todo := S n; old := Some o |} =>
      o' ← checked (o + 1);
      if bool_decide (count c = o) && negb spurious
      then Some {| count := o'; threads := <[t := {| todo := n; old := None |}]> (threads c) |}
      else Some {| count := count c; threads := <[t := {| todo := S n; old := Some (count c) |}]> (threads c) |}
  | _ => Some c
  end.

(** [increment] by [fetch_add]: a single access. *)
Definition increment_fetch_add (c : AtomicCounter) (t : nat) : option AtomicCounter :=
  match threads c !! t with
  | Some {| todo := S n; old := None |} =>
      Some {| count := int32 (count c + 1); threads := <[t := {| todo := n; old := None |}]> (threads c) |}
  | _ => Some c
  end.

(** The third program is the second again. *)
Definition UsingCAS_increment : AtomicCounter → nat → option AtomicCounter := increment_fetch_add.
Definition UsingCAS_get : AtomicCounter → Z := get.

(** One access of a thread, by either implementation. *)
Inductive Access := Cas (t : nat) (spurious : bool) | FetchAdd (t : nat).

Definition access (c : AtomicCounter) (x : Access) : option AtomicCounter :=
  match x with Cas t b => increment_cas c t b | FetchAdd t => increment_fetch_add c t end.

(** Increments not finished yet. *)
Definition remaining (c : AtomicCounter) : Z := sum_list_with todo (threads c).

(** The count and the increments to come add up to [total]; what a thread saw was a value
    of the counter. *)
Record counter_inv (total : Z) (c : AtomicCounter) : Prop := {
  c_total : count c + remaining c = total;
  c_nonneg : 0 ≤ count c;
  c_old : ∀ t w o, threads c !! t = Some w → old w = Some o → 0 ≤ o ≤ count c ∧ (0 < todo w)%nat
}.

Lemma counter_old_update total c t w w' n :
  counter_inv total c → threads c !! t = Some w → count c ≤ n →
  (∀ o, old w' = Some o → 0 ≤ o ≤ n ∧ (0 < todo w')%nat) →
  ∀ u x o, <[t := w']> (threads c) !! u = Some x → old x = Some o → 0 ≤ o ≤ n ∧ (0 < todo x)%nat.
Proof.
  intros Hc Ht Hn Hw u x o Hu Ho. apply list_lookup_insert_Some in Hu as [(-> & -> & _)|[_ Hu]]; [auto|].
  destruct (c_old _ _ Hc u x o Hu Ho). split; lia.
Qed.

Lemma access_inv total c x :
  total ≤ INT_MAX → counter_inv total c → ∃ c', access c x = Some c' ∧ counter_inv total c'.
Proof.
  intros Hmax Hc. pose proof Hc as [C1 C2 C3]. unfold remaining in C1.
  destruct x as [t b|t]; simpl; [unfold increment_cas|unfold increment_fetch_add];
    (destruct (threads c !! t) as [[[|n] o]|] eqn:Ht; [by eauto| |by eauto]).
  - destruct o as [o|].
    + destruct (C3 t _ o Ht eq_refl) as [Ho _].
      pose proof (sum_insert todo (threads c) t _ {| todo := n; old := None |} Ht) as Hr. simpl in Hr.
      rewrite (checked_ok (o + 1)) by int_bounds. cbn [mbind option_bind].
      destruct (bool_decide (count c = o) && negb b) eqn:E; eexists; (split; [reflexivity|]).
      * apply andb_prop in E as [E%bool_decide_eq_true _]. subst o. split; unfold remaining; simpl; [lia|lia|].
        by eapply counter_old_update; [done|done|lia|].
      * pose proof (sum_insert todo (threads c) t _ {| todo := S n; old := Some (count c) |} Ht). simpl in *.
        split; unfold remaining; simpl; [lia|lia|]. eapply counter_old_update; [done|done|lia|].
        intros ? [= <-]. simpl. lia.
    + pose proof (sum_insert todo (threads c) t _ {| todo := S n; old := Some (count c) |} Ht). simpl in *.
      eexists; split; [reflexivity|]. split; unfold remaining; simpl; [lia|lia|].
      eapply counter_old_update; [done|done|lia|]. intros ? [= <-]. simpl. lia.
  - destruct o as [o|]; [by eauto|].
    pose proof (sum_insert todo (threads c) t _ {| todo := n; old := None |} Ht). simpl in *.
    eexists; split; [reflexivity|]. rewrite int32_id by int_bounds. split; unfold remaining; simpl; [lia|lia|].
    by eapply counter_old_update; [done|done|lia|].
Qed.

Lemma counter_make_inv N R : counter_inv (Z.of_nat (N * R)) (AtomicCounter_make N R).
Proof.
  split; unfold remaining; simpl; [rewrite sum_replicate; simpl; lia|done|].
  intros t w o [-> _]%lookup_replicate. done.
Qed.

(** No increment is lost: [N] threads that make [R] increments each, by a
    compare-and-exchange loop or by [fetch_add], never overflow the counter when [N R] fits
    an [int]; at any moment the counter has counted the increments finished so far, and
    when every thread is done [get] returns [N R]. *)
Theorem atomic_counter_exact (N R : nat) (xs : list Access) :
  N * R ≤ INT_MAX →
  ∃ c, run_ops access (AtomicCounter_make N R) xs = Some c ∧ get c = N * R - remaining c ∧
    (Forall (λ w, todo w = 0%nat) (threads c) → get c = N * R).
Proof.
  intros Hmax.
  destruct (run_ops_invariant access (counter_inv (Z.of_nat (N * R))) (AtomicCounter_make N R) xs) as (c & Hc & Hi).
  - intros c x. apply access_inv. lia.
  - apply counter_make_inv.
  - exists c. pose proof (c_total _ _ Hi) as Ht. unfold get. split_and!; [done|lia|]. intros Hall.
    assert (remaining c = 0) as E; [|lia]. unfold remaining. clear -Hall. induction Hall; simpl; lia.
Qed.

(** Two threads, one increment each, whose accesses interleave: the second exchange fails
    and is retried. *)
Lemma atomic_counter_exact_witness :
  (2 * 1 ≤ INT_MAX ∧
   ∃ c, run_ops access (AtomicCounter_make 2 1) [Cas 0 false; Cas 1 false; Cas 0 false; Cas 1 false; Cas 1 false] = Some c ∧
     get c = 2 * 1 - remaining c ∧ (Forall (λ w, todo w = 0%nat) (threads c) → get c = 2 * 1)).
Proof.
  split; [unfold INT_MAX; lia|].
  apply (atomic_counter_exact 2 1). unfold INT_MAX. lia.
Defined.

Example counter_demo :
  get <$> run_ops access (AtomicCounter_make 2 1) [Cas 0 false; Cas 1 false; Cas 0 false; Cas 1 false; Cas 1 false] = Some 2.
Proof. vm_compute. reflexivity. Qed.

(** ** The sequencer

    [src/concurrency/StrictSequencer_ThreadSafe.cpp]: [next] hands out a number under a
    mutex.  [counter++] is [int] arithmetic. *)
Definition next (counter : Z) : option (Z * Z) := counter' ← checked (counter + 1); Some (counter', counter).

(** The calls of any number of threads, in the order in which they get the mutex, get
    1, 2, 3, ...: no number is given twice and none is skipped. *)
Lemma sequencer_strict (calls : list nat) :
  Z.of_nat (length calls) < INT_MAX →
  run_out (λ c (_ : nat), next c) 1 calls = Some (Z.of_nat (S (length calls)), Z.of_nat <$> seq 1 (length calls)).
Proof.
  intros Hlen. enough (∀ k, Z.of_nat k + length calls ≤ INT_MAX →
    run_out (λ c (_ : nat), next c) (Z.of_nat k) calls = Some (Z.of_nat (k + length calls), Z.of_nat <$> seq k (length calls))) as H.
  { apply (H 1%nat). lia. }
  clear Hlen. induction calls as [|t calls IH]; intros k Hk; simpl in *; [by rewrite Nat.add_0_r|].
  unfold next. rewrite checked_ok by (unfold int_ok; lia || int_bounds). cbn [mbind option_bind].
  replace (Z.of_nat k + 1) with (Z.of_nat (S k)) by lia. rewrite IH by lia. simpl. do 3 f_equal. lia.
Qed.
