(* ===== verification/Sharding.v ===== *)
(** * Sharded caches and maps

    [src/caching/LRUcache_multiThreaded_sharded.cpp] and
    [src/caching/Hashmap_withLockPerBucket.cpp]: a vector of buckets, each with its own
    lock, and a key decides the bucket.  A step is one operation on one bucket (its
    critical section); operations on different buckets interleave freely, and the first
    section shows that each bucket then has the history of its own keys.

    [std::hash] is a parameter of the map. *)
From S2P Require Import Prelude IndexedList LRU.
Local Open Scope Z_scope.

(** ** Histories of a vector of buckets *)

Section sharding.
Context {S O : Type} (step : S → O → option S) (route : O → nat).

Definition sharded (v : list S) (o : O) : option (list S) :=
  s ← v !! route o; s' ← step s o; Some (<[route o := s']> v).

(** The operations of bucket [i]. *)
Definition shard_ops (i : nat) (ops : list O) : list O := filter (λ o, route o = i) ops.

Lemma shard_ops_snoc i ops o : shard_ops i (ops ++ [o]) = shard_ops i ops ++ if decide (route o = i) then [o] else [].
Proof. unfold shard_ops. rewrite filter_app, filter_cons. by case_decide. Qed.

(** A history invariant of a bucket is one of each bucket of the vector, for the
    operations routed to it. *)
Lemma sharded_run (I : list O → S → Prop) (v : list S) (ops : list O) :
  (∀ h s o, I h s → ∃ s', step s o = Some s' ∧ I (h ++ [o]) s') →
  (∀ i s, v !! i = Some s → I [] s) → Forall (λ o, (route o < length v)%nat) ops →
  ∃ v', run_ops sharded v ops = Some v' ∧ length v' = length v ∧
    ∀ i s, v' !! i = Some s → I (shard_ops i ops) s.
Proof.
  intros HI Hv. induction ops as [|o ops IH] using rev_ind; intros Hr.
  - exists v. done.
  - apply Forall_app in Hr as [Hr Ho]. rewrite Forall_singleton in Ho. destruct (IH Hr) as (v1 & Hrun & Hlen & Hv1).
    destruct (lookup_lt_is_Some_2 v1 (route o)) as [s Hs]; [by rewrite Hlen|].
    destruct (HI _ s o (Hv1 _ _ Hs)) as (s' & Hst & Hs'). exists (<[route o := s']> v1).
    rewrite run_ops_app, Hrun. simpl. unfold sharded at 1. rewrite Hs. simpl. rewrite Hst. simpl.
    rewrite length_insert. split_and!; [done|done|]. intros i w Hi. rewrite shard_ops_snoc.
    apply list_lookup_insert_Some in Hi as [(<- & <- & _)|[Hne Hi]].
    + by rewrite decide_True.
    + rewrite decide_False by done. rewrite app_nil_r. auto.
Qed.
End sharding.

(** ** The sharded LRU cache *)

Module Sharded.

(** A bucket is a list and its index; its capacity is [per_bucket_capacity]. *)
Definition Bucket : Type := LRUcache Z Z.

Record LRUcache := { buckets : list Bucket; Tcapacity : Z; per_bucket_capacity : Z }.

Definition N_BUCKETS : Z := 8.

(** [LRUcache(capacity)]; C++ division truncates. *)
Definition make (capacity : Z) : LRUcache :=
  let per_bucket := Z.max 1 (Z.quot capacity N_BUCKETS) in
  {| buckets := replicate 8 (new_lru per_bucket); Tcapacity := capacity; per_bucket_capacity := per_bucket |}.

(** [getBucket(key)]: a negative key has a negative remainder, which is out of range. *)
Definition getBucket (c : LRUcache) (key : Z) : option Bucket := vget (buckets c) (Z.rem key N_BUCKETS).

Definition set_bucket (c : LRUcache) (key : Z) (b : Bucket) : LRUcache :=
  {| buckets := <[Z.to_nat (Z.rem key N_BUCKETS) := b]> (buckets c); Tcapacity := Tcapacity c;
     per_bucket_capacity := per_bucket_capacity c |}.

(** [get] in its bucket.  First critical section: the map entry found, that is the key and
    the iterator it holds. *)
Definition get_find (b : Bucket) (key : Z) : option (Z * nat) :=
  match mm b !! key with Some a => Some (key, a) | None => None end.

(** Second critical section: the entry is read again, so it must still be there. *)
Definition get_use (b : Bucket) (found : Z * nat) : option (Bucket * Z) :=
  a ← mm b !! found.1;
  if decide (a = found.2) then
    l ← splice_front (cache b) a; x ← deref l a; Some (set_cache b l (mm b), x.2)
  else None.

Definition bucket_get (b : Bucket) (key : Z) : option (Bucket * Z) :=
  match get_find b key with None => Some (b, -1) | Some found => get_use b found end.

Definition get (c : LRUcache) (key : Z) : option (LRUcache * Z) :=
  b ← getBucket c key; '(b, r) ← bucket_get b key; Some (set_bucket c key b, r).

(** [put] in its bucket. *)
Definition bucket_put (b : Bucket) (key value : Z) : option Bucket :=
  match mm b !! key with
  | Some a =>
      l ← splice_front (cache b) a; l ← dupdate (λ x, (x.1, value)) l a; Some (set_cache b l (mm b))
  | None =>
      b ← (if size (mm b) =? to_size_t (LRU.Tcapacity b) then
             victim ← back (cache b); l ← pop_back (cache b); Some (set_cache b l (delete victim.1 (mm b)))
           else Some b);
      let '(l, a) := push_front (key, value) (cache b) in Some (set_cache b l (<[key := a]> (mm b)))
  end.

Definition put (c : LRUcache) (key value : Z) : option LRUcache :=
  b ← getBucket c key; b ← bucket_put b key value; Some (set_bucket c key b).

Definition step (c : LRUcache) (o : lru_op Z Z) : option LRUcache :=
  match o with Get k => fst <$> get c k | Put k v => put c k v end.

(** *** Each bucket is the LRU cache *)

Definition key_of (o : lru_op Z Z) : Z := match o with Get k | Put k _ => k end.

(** The bucket an operation goes to. *)
Definition shard_of (o : lru_op Z Z) : nat := Z.to_nat (Z.rem (key_of o) N_BUCKETS).

Lemma bucket_get_spec (b : Bucket) (k : Z) : lru_inv b → bucket_get b k = LRU_get b k.
Proof.
  intros Hb. pose proof (mm_lookup b k Hb) as Hk. unfold bucket_get, get_find, LRU_get, lru_get, get_lookup.
  destruct (mm b !! k) as [a|] eqn:E; [|done]. destruct Hk as (v & Hd & _). rewrite Hd. simpl.
  unfold get_use, get_splice. simpl. rewrite E. simpl. rewrite decide_True by done.
  destruct (splice_front_spec fst _ _ _ _ (lru_idx _ Hb) E) as (l' & x & Hs & Hd' & _ & _ & Hx & _).
  rewrite Hs. simpl. rewrite Hx. simpl. by simplify_eq.
Qed.

Lemma bucket_put_spec (b : Bucket) (k v : Z) : bucket_put b k v = LRU_put b k v.
Proof.
  unfold bucket_put, LRU_put, lru_put, lru_evict. destruct (mm b !! k); [done|].
  destruct (_ =? _); [|done]. destruct (back (cache b)) as [x|]; simpl; [|done]. by destruct (pop_back (cache b)).
Qed.

Definition bucket_step (b : Bucket) (o : lru_op Z Z) : option Bucket :=
  match o with Get k => fst <$> bucket_get b k | Put k v => bucket_put b k v end.

Lemma bucket_step_spec b o : lru_inv b → bucket_step b o = lru_step b o.
Proof.
  intros Hb. destruct o as [k|k v]; simpl; [|by rewrite bucket_put_spec].
  rewrite bucket_get_spec by done. unfold LRU_get. by destruct (lru_get b k) as [[??]|].
Qed.

Lemma getBucket_nonneg c k : 0 ≤ k → getBucket c k = buckets c !! Z.to_nat (Z.rem k N_BUCKETS).
Proof.
  intros Hk. unfold getBucket, vget. rewrite Z.rem_mod_nonneg by (unfold N_BUCKETS; lia).
  pose proof (Z.mod_pos_bound k N_BUCKETS). destruct (Z.ltb_spec (k mod N_BUCKETS) 0); [unfold N_BUCKETS in *; lia|done].
Qed.

(** A step of the cache is a step of the bucket of its key. *)
Lemma step_sharded c o :
  0 ≤ key_of o →
  step c o = (v ← sharded bucket_step shard_of (buckets c) o;
              Some {| buckets := v; Tcapacity := Tcapacity c; per_bucket_capacity := per_bucket_capacity c |}).
Proof.
  intros Hk. unfold sharded, shard_of. destruct o as [k|k v]; simpl in *; unfold get, put; rewrite getBucket_nonneg by done;
    destruct (buckets c !! _) as [b|]; simpl; try done.
  - by destruct (bucket_get b k) as [[??]|].
  - by destruct (bucket_put b k v).
Qed.

Lemma run_sharded c ops :
  Forall (λ o, 0 ≤ key_of o) ops →
  run_ops step c ops = (v ← run_ops (sharded bucket_step shard_of) (buckets c) ops;
              Some {| buckets := v; Tcapacity := Tcapacity c; per_bucket_capacity := per_bucket_capacity c |}).
Proof.
  revert c. induction ops as [|o ops IH]; intros c Hops; simpl; [by destruct c|].
  apply Forall_cons in Hops as [Ho Hops]. rewrite step_sharded by done.
  destruct (sharded bucket_step shard_of (buckets c) o) as [v|]; simpl; [|done]. by rewrite IH.
Qed.

Lemma shard_of_bound o : 0 ≤ key_of o → (shard_of o < 8)%nat.
Proof.
  intros Hk. unfold shard_of. rewrite Z.rem_mod_nonneg by (unfold N_BUCKETS; lia).
  pose proof (Z.mod_pos_bound (key_of o) N_BUCKETS). unfold N_BUCKETS in *. lia.
Qed.

Definition per_bucket (capacity : Z) : nat := Z.to_nat (Z.max 1 (Z.quot capacity N_BUCKETS)).

Lemma per_bucket_bound capacity : 0 ≤ capacity ≤ INT_MAX → 0 < Z.of_nat (per_bucket capacity) ≤ INT_MAX.
Proof.
  intros Hc. unfold per_bucket, N_BUCKETS. rewrite Z.quot_div_nonneg by lia.
  pose proof (Z.div_le_upper_bound capacity 8 capacity). unfold INT_MAX in *. lia.
Qed.

(** The last value put for a key is the last one put in its bucket. *)
Lemma last_puts_shard ops k :
  (last_puts (shard_ops shard_of (shard_of (Get k)) ops) : gmap Z Z) !! k = last_puts ops !! k.
Proof.
  induction ops as [|o ops IH] using rev_ind; [done|]. rewrite shard_ops_snoc. unfold last_puts in *.
  rewrite !fold_left_app. destruct o as [k'|k' v]; simpl; case_decide as Hs; simpl; try done.
  - destruct (decide (k' = k)) as [->|?]; [by rewrite !lookup_insert_eq|by rewrite !lookup_insert_ne].
  - rewrite lookup_insert_ne; [done|]. intros ->. by apply Hs.
Qed.

(** The sharded cache is an LRU cache per bucket.  For keys that are not negative,
    whatever the order in which the operations on its eight buckets interleave, no iterator
    dangles, each bucket holds the most recently used keys among those that hash to it, as
    many as its share of the capacity, and a get returns the value last put for its key, or
    -1 when the key is not among them. *)
Theorem sharded_lru_per_bucket (capacity : Z) (ops : list (lru_op Z Z)) (k : Z) :
  0 ≤ capacity ≤ INT_MAX → Forall (λ o, 0 ≤ key_of o) ops → 0 ≤ k →
  ∃ c, run_ops step (make capacity) ops = Some c ∧
    (∀ i b, buckets c !! i = Some b →
       (contents b).*1 = take (per_bucket capacity) (recency (per_bucket capacity) (shard_ops shard_of i ops))) ∧
    ∃ c', get c k =
      Some (c', if decide (k ∈ take (per_bucket capacity) (recency (per_bucket capacity) (shard_ops shard_of (shard_of (Get k)) ops)))
                then default (-1) (last_puts ops !! k) else -1).
Proof.
  intros Hcap Hops Hk. pose proof (per_bucket_bound capacity Hcap) as Hpb.
  destruct (sharded_run bucket_step shard_of (policy_inv (per_bucket capacity)) (buckets (make capacity)) ops)
    as (v & Hrun & Hlen & Hv).
  - intros h b o Hb. rewrite bucket_step_spec by apply Hb. destruct o; [by apply policy_get|by apply policy_put].
  - intros i b [-> _]%lookup_replicate. pose proof (policy_new (K:=Z) (V:=Z) _ Hpb) as Hnew.
    unfold per_bucket in Hnew at 2. rewrite Z2Nat.id in Hnew by lia. done.
  - eapply Forall_impl; [exact Hops|]. intros o Ho. by apply shard_of_bound.
  - rewrite run_sharded, Hrun by done. simpl. eexists. split; [done|]. simpl. split; [intros i b Hb; apply (Hv i b Hb)|].
    unfold get. rewrite getBucket_nonneg by done. simpl.
    destruct (lookup_lt_is_Some_2 v (shard_of (Get k))) as [b Hb]; [rewrite Hlen; by apply shard_of_bound|].
    pose proof (Hv _ _ Hb) as Hpol. unfold shard_of at 1 in Hb. simpl in Hb. rewrite Hb. simpl.
    rewrite bucket_get_spec by apply Hpol. destruct (policy_answer _ _ _ k Hpol) as [b' ->]. simpl.
    rewrite last_puts_shard. eauto.
Qed.

Lemma sharded_lru_per_bucket_witness :
  ∃ c, run_ops step (make 16) [Put 1 10; Put 9 90; Put 2 20; Get 1; Put 17 170] = Some c ∧
    ∃ c', get c 9 = Some (c', -1).
Proof.
  destruct (sharded_lru_per_bucket 16 [Put 1 10; Put 9 90; Put 2 20; Get 1; Put 17 170] 9) as (c & Hr & _ & Hg).
  - unfold INT_MAX. lia.
  - repeat constructor; simpl; lia.
  - lia.
  - exists c. exact (conj Hr Hg).
Defined.

(** A negative key: the remainder is negative and the index is out of range. *)
Lemma sharded_negative_key (capacity v : Z) : put (make capacity) (-1) v = None ∧ get (make capacity) (-1) = None.
Proof. done. Qed.

End Sharded.

(** ** The map with a lock per bucket *)

Section hashmap.
Context {K V : Type} `{Countable K} (hash : K → Z).

Record Hashmap_PerBucketLock := { NUM_BUCKETS : Z; map_buckets : list (gmap K V) }.

(** [Hashmap_PerBucketLock(bucket_count)]; a negative count makes the vector too long. *)
Definition Hashmap_make (bucket_count : Z) : option Hashmap_PerBucketLock :=
  if decide (0 ≤ bucket_count) then
    Some {| NUM_BUCKETS := bucket_count; map_buckets := replicate (Z.to_nat bucket_count) ∅ |}
  else None.

(** [hash<K>{}(key) % NUM_BUCKETS] is [size_t] arithmetic; the result becomes an [int]. *)
Definition getBucketIndex (m : Hashmap_PerBucketLock) (key : K) : option Z :=
  if decide (NUM_BUCKETS m = 0) then None else Some (int32 (hash key mod to_size_t (NUM_BUCKETS m))).

Definition with_bucket (m : Hashmap_PerBucketLock) (idx : Z) (b : gmap K V) : option Hashmap_PerBucketLock :=
  v ← vset (map_buckets m) idx b; Some {| NUM_BUCKETS := NUM_BUCKETS m; map_buckets := v |}.

Definition Hashmap_put (m : Hashmap_PerBucketLock) (key : K) (value : V) : option Hashmap_PerBucketLock :=
  idx ← getBucketIndex m key; b ← vget (map_buckets m) idx; with_bucket m idx (<[key := value]> b).

(** [get]: the value is assigned only when the key is found. *)
Definition Hashmap_get (m : Hashmap_PerBucketLock) (key : K) : option (option V) :=
  idx ← getBucketIndex m key; b ← vget (map_buckets m) idx; Some (b !! key).

Definition Hashmap_remove (m : Hashmap_PerBucketLock) (key : K) : option Hashmap_PerBucketLock :=
  idx ← getBucketIndex m key; b ← vget (map_buckets m) idx; with_bucket m idx (delete key b).

Inductive map_op := MPut (k : K) (v : V) | MRemove (k : K).

Definition map_step (m : Hashmap_PerBucketLock) (o : map_op) : option Hashmap_PerBucketLock :=
  match o with MPut k v => Hashmap_put m k v | MRemove k => Hashmap_remove m k end.

(** The map the buckets stand for. *)
Definition plain_step (p : gmap K V) (o : map_op) : gmap K V :=
  match o with MPut k v => <[k := v]> p | MRemove k => delete k p end.

Definition plain (ops : list map_op) : gmap K V := fold_left plain_step ops ∅.

(** Every bucket holds the part of the map whose keys hash to it. *)
Record hashmap_inv (m : Hashmap_PerBucketLock) (p : gmap K V) : Prop := {
  h_count : 0 < NUM_BUCKETS m ≤ INT_MAX;
  h_len : length (map_buckets m) = Z.to_nat (NUM_BUCKETS m);
  h_part : ∀ k, ∃ b, map_buckets m !! Z.to_nat (hash k mod NUM_BUCKETS m) = Some b ∧ b !! k = p !! k
}.

Lemma bucket_index m p k :
  hashmap_inv m p →
  ∃ i b, getBucketIndex m k = Some (Z.of_nat i) ∧ i = Z.to_nat (hash k mod NUM_BUCKETS m) ∧
    vget (map_buckets m) (Z.of_nat i) = Some b ∧ map_buckets m !! i = Some b ∧ b !! k = p !! k.
Proof.
  intros [Hc Hl Hp]. destruct (Hp k) as (b & Hb & Hk). exists (Z.to_nat (hash k mod NUM_BUCKETS m)), b.
  pose proof (Z.mod_pos_bound (hash k) (NUM_BUCKETS m) ltac:(lia)) as Hm.
  unfold getBucketIndex. rewrite decide_False by lia. rewrite to_size_t_id by lia.
  rewrite int32_id by (int_bounds). rewrite vget_of_nat, Z2Nat.id by lia. done.
Qed.

(** An operation on a key changes its bucket there, and nothing else. *)
Lemma bucket_update m p k i b (f : gmap K V → gmap K V) :
  hashmap_inv m p → i = Z.to_nat (hash k mod NUM_BUCKETS m) → map_buckets m !! i = Some b →
  (∀ c d : gmap K V, c !! k = d !! k → f c !! k = f d !! k) → (∀ (c : gmap K V) k', k' ≠ k → f c !! k' = c !! k') →
  ∃ m', with_bucket m (Z.of_nat i) (f b) = Some m' ∧ hashmap_inv m' (f p).
Proof.
  intros [Hc Hl Hp] Hi Hb Hf Ho. pose proof (lookup_lt_Some _ _ _ Hb). unfold with_bucket, vset.
  rewrite decide_True by lia. simpl. eexists. split; [done|]. rewrite Nat2Z.id. split; simpl; [done|by rewrite length_insert|].
  intros k'. destruct (Hp k') as (b' & Hb' & Hk').
  destruct (decide (Z.to_nat (hash k' mod NUM_BUCKETS m) = i)) as [E|Hne].
  - rewrite E in *. simplify_eq. rewrite list_lookup_insert_eq by done. eexists. split; [done|].
    destruct (decide (k' = k)) as [->|?]; [auto|]. by rewrite !Ho.
  - rewrite list_lookup_insert_ne by congruence. exists b'. split; [done|]. rewrite Ho; [done|]. intros ->. by rewrite Hi in Hne.
Qed.

Lemma map_step_inv m p o : hashmap_inv m p → ∃ m', map_step m o = Some m' ∧ hashmap_inv m' (plain_step p o).
Proof.
  intros Hm. destruct o as [k v|k]; simpl; [unfold Hashmap_put|unfold Hashmap_remove];
    destruct (bucket_index m p k Hm) as (i & b & -> & Hi & Hg & Hb & Hk); cbn [mbind option_bind]; rewrite Hg;
    cbn [mbind option_bind].
  - apply (bucket_update m p k i b (λ c, <[k := v]> c)); [done|done|done| |].
    + intros c d _. by rewrite !lookup_insert_eq.
    + intros c k' ?. by rewrite lookup_insert_ne.
  - apply (bucket_update m p k i b (λ c, delete k c)); [done|done|done| |].
    + intros c d _. by rewrite !lookup_delete_eq.
    + intros c k' ?. by rewrite lookup_delete_ne.
Qed.

(** The map with a lock per bucket is one map: for any hash function, any positive
    number of buckets and any interleaving of puts and removes (each is one critical section
    of one bucket), no index is out of range and a get returns what the last put or remove
    of its key left. *)
Theorem hashmap_is_map (bucket_count : Z) (ops : list map_op) (k : K) :
  0 < bucket_count ≤ INT_MAX →
  ∃ m0 m, Hashmap_make bucket_count = Some m0 ∧ run_ops map_step m0 ops = Some m ∧
    Hashmap_get m k = Some (plain ops !! k).
Proof.
  intros Hb. unfold Hashmap_make. rewrite decide_True by lia. eexists.
  assert (∀ m p, hashmap_inv m p → ∃ m', run_ops map_step m ops = Some m' ∧ hashmap_inv m' (fold_left plain_step ops p)) as Hrun.
  { induction ops as [|o ops IH]; simpl; [eauto|]. intros m p Hm.
    destruct (map_step_inv m p o Hm) as (m1 & -> & Hm1). simpl. by apply IH. }
  destruct (Hrun {| NUM_BUCKETS := bucket_count; map_buckets := replicate (Z.to_nat bucket_count) ∅ |} ∅) as (m & Hr & Hm).
  { split; simpl; [done|by rewrite length_replicate|]. intros k'. exists ∅. split; [|done].
    apply lookup_replicate. pose proof (Z.mod_pos_bound (hash k') bucket_count). split; [done|lia]. }
  exists m. split_and!; [done|done|]. unfold Hashmap_get.
  destruct (bucket_index m _ k Hm) as (i & b & -> & _ & Hg & _ & Hk). cbn [mbind option_bind]. rewrite Hg. simpl.
  by rewrite Hk.
Qed.

End hashmap.

Lemma hashmap_is_map_witness :
  ∃ m0 m, Hashmap_make 3 = Some m0 ∧
    run_ops (map_step (λ k : Z, k * 7)) m0 [MPut 1 10; MPut 4 40; MRemove 1; MPut 4 41] = Some m ∧
    Hashmap_get (λ k : Z, k * 7) m 4 = Some (Some 41).
Proof.
  destruct (hashmap_is_map (λ k : Z, k * 7) 3 [MPut 1 10; MPut 4 40; MRemove 1; MPut 4 41] 4) as (m0 & m & H0 & Hr & Hg);
    [unfold INT_MAX; lia|].
  exists m0, m. split; [exact H0|]. split; [exact Hr|]. rewrite Hg. vm_compute. reflexivity.
Defined.
