(* ===== verification/PriorityCache.v ===== *)
(** * The cache with priorities

    [src/caching/LRUcache_priority_based_eviction.cpp]: a list of nodes, an index of
    iterators by key, and a [std::set] of the same iterators whose comparison reads the
    nodes they designate.  A node's priority is changed only while its iterator is out of
    the set, so the set stays ordered; the specification is a map with the eviction of the
    entry of the lowest priority. *)
From S2P Require Import Prelude IndexedList.
Local Open Scope Z_scope.

Record Node := { key : Z; value : Z; priority : Z }.

Record PriorityCache := {
  capacity : Z;
  cache : dlist Node;
  mm : gmap Z nat;
  priority_set : list nat (* in the order of the set *)
}.

Definition PriorityCache_make (cap : Z) : PriorityCache :=
  {| capacity := cap; cache := dempty; mm := ∅; priority_set := [] |}.

(** [Compare]: lower priorities first, then lower keys. *)
Definition Compare (a b : Node) : bool :=
  if decide (priority a = priority b) then key a <? key b else priority a <? priority b.

(** [priority_set.insert(it)] and [priority_set.erase(it)]: elements are compared through
    the iterators; a dangling one makes them undefined. *)
Fixpoint set_insert (l : dlist Node) (it : nat) (s : list nat) : option (list nat) :=
  match s with
  | [] => Some [it]
  | y :: s' =>
      nx ← deref l it; ny ← deref l y;
      if Compare nx ny then Some (it :: s)
      else if Compare ny nx then r ← set_insert l it s'; Some (y :: r) else Some s
  end.

Fixpoint set_erase (l : dlist Node) (it : nat) (s : list nat) : option (list nat) :=
  match s with
  | [] => Some []
  | y :: s' =>
      nx ← deref l it; ny ← deref l y;
      if Compare nx ny then Some s
      else if Compare ny nx then r ← set_erase l it s'; Some (y :: r) else Some s'
  end.

(** [int get(int key)]: -1 is a miss. *)
Definition get (c : PriorityCache) (k : Z) : option Z :=
  match mm c !! k with None => Some (-1) | Some it => n ← deref (cache c) it; Some (value n) end.

(** The erase, change, insert sequence of [put] and [update_priority]. *)
Definition rerank (c : PriorityCache) (it : nat) (f : Node → Node) : option PriorityCache :=
  s ← set_erase (cache c) it (priority_set c);
  l ← dupdate f (cache c) it;
  s ← set_insert l it s;
  Some {| capacity := capacity c; cache := l; mm := mm c; priority_set := s |}.

(** The eviction of the first element of the set. *)
Definition evict (c : PriorityCache) : option PriorityCache :=
  match priority_set c with
  | [] => Some c
  | it :: s =>
      n ← deref (cache c) it;
      l ← derase (cache c) it;
      Some {| capacity := capacity c; cache := l; mm := delete (key n) (mm c); priority_set := s |}
  end.

Definition put (c : PriorityCache) (k v p : Z) : option PriorityCache :=
  match mm c !! k with
  | Some it => rerank c it (λ n, {| key := key n; value := v; priority := p |})
  | None =>
      if decide (capacity c = 0) then Some c
      else
        c ← (if (size (mm c) =? to_size_t (capacity c)) then evict c else Some c);
        let '(l, it) := push_front {| key := k; value := v; priority := p |} (cache c) in
        s ← set_insert l it (priority_set c);
        Some {| capacity := capacity c; cache := l; mm := <[k := it]> (mm c); priority_set := s |}
  end.

Definition update_priority (c : PriorityCache) (k p : Z) : option PriorityCache :=
  match mm c !! k with
  | None => Some c
  | Some it => rerank c it (λ n, {| key := key n; value := value n; priority := p |})
  end.

Definition erase (c : PriorityCache) (k : Z) : option PriorityCache :=
  match mm c !! k with
  | None => Some c
  | Some it =>
      s ← set_erase (cache c) it (priority_set c);
      l ← derase (cache c) it;
      Some {| capacity := capacity c; cache := l; mm := delete k (mm c); priority_set := s |}
  end.

(** ** The order of the set *)

Lemma Compare_irrefl n : Compare n n = false.
Proof. unfold Compare. rewrite decide_True by done. lia. Qed.

Lemma Compare_trans a b c : Compare a b = true → Compare b c = true → Compare a c = true.
Proof. unfold Compare. repeat case_decide; intros; lia. Qed.

Lemma Compare_total a b : Compare a b = false → Compare b a = false → key a = key b ∧ priority a = priority b.
Proof. unfold Compare. repeat case_decide; intros; lia. Qed.

Definition before (x y : nat * Node) : Prop := Compare x.2 y.2 = true.

(** The set with the node each iterator designates. *)
Definition designates (l : dlist Node) (ps : list (nat * Node)) : Prop :=
  Forall (λ x, deref l x.1 = Some x.2) ps.

Lemma set_insert_spec l it n ps :
  designates l ps → deref l it = Some n → StronglySorted before ps → Forall (λ x, key x.2 ≠ key n) ps →
  ∃ ps', set_insert l it ps.*1 = Some ps'.*1 ∧ ps' ≡ₚ (it, n) :: ps ∧ StronglySorted before ps'.
Proof.
  intros Hd Hn Hs Hk. induction Hs as [|[a na] ps Hs IH Ha].
  - exists [(it, n)]. split_and!; [done|done|]. repeat constructor.
  - apply Forall_cons in Hd as [Hda Hd]. apply Forall_cons in Hk as [Hka Hk]. csimpl in *. rewrite Hn, Hda. cbn [mbind option_bind].
    destruct (Compare n na) eqn:E1.
    + exists ((it, n) :: (a, na) :: ps). split_and!; [done|done|]. constructor; [by constructor|].
      constructor; [done|]. eapply Forall_impl; [exact Ha|]. intros x Hx. by eapply Compare_trans.
    + destruct (Compare na n) eqn:E2; [|destruct (Compare_total n na E1 E2); congruence].
      destruct (IH Hd Hk) as (ps' & -> & Hp & Hs'). simpl. exists ((a, na) :: ps').
      split_and!; [done|rewrite Hp; constructor|]. constructor; [done|]. rewrite Hp. by constructor.
Qed.

Lemma set_erase_spec l it n ps :
  designates l ps → (it, n) ∈ ps → StronglySorted before ps →
  ∃ ps', set_erase l it ps.*1 = Some ps'.*1 ∧ ps ≡ₚ (it, n) :: ps' ∧ StronglySorted before ps'.
Proof.
  intros Hd Hin Hs. induction Hs as [|[a na] ps Hs IH Ha]; [by apply not_elem_of_nil in Hin|].
  pose proof Hd as Hd0. apply Forall_cons in Hd as [Hda Hd]. csimpl in *.
  assert (deref l it = Some n) as Hn.
  { pose proof (proj1 (Forall_forall _ _) Hd0 _ Hin). done. }
  rewrite Hn, Hda. cbn [mbind option_bind]. apply elem_of_cons in Hin as [[= <- <-]|Hin].
  - rewrite Compare_irrefl. exists ps. done.
  - assert (Compare na n = true) as E by (by apply (proj1 (Forall_forall _ _) Ha _ Hin)).
    assert (Compare n na = false) as ->.
    { destruct (Compare n na) eqn:E'; [|done]. pose proof (Compare_trans _ _ _ E E'). by rewrite Compare_irrefl in *. }
    rewrite E. destruct (IH Hd Hin) as (ps' & -> & Hp & Hs'). simpl. exists ((a, na) :: ps').
    split_and!; [done|rewrite Hp; constructor|]. constructor; [done|]. rewrite Hp in Ha. by apply Forall_cons in Ha as [_ ?].
Qed.

(** ** Invariant *)

Record cache_inv (c : PriorityCache) : Prop := {
  p_idx : idx_inv key (cache c) (mm c);
  p_set : ∃ ps, ps.*1 = priority_set c ∧ ps ≡ₚ nodes (cache c) ∧ StronglySorted before ps;
  p_cap : 0 ≤ capacity c ≤ INT_MAX;
  p_size : length (entries (cache c)) ≤ capacity c
}.

Lemma designates_perm l m ps : idx_inv key l m → ps ≡ₚ nodes l → designates l ps.
Proof.
  intros Hi Hp. apply Forall_forall. intros [a n] Hx. apply deref_Some; [apply Hi|]. by rewrite <-Hp.
Qed.

(** In a duplicate-free list of nodes, the others have other addresses and keys. *)
Lemma others_differ l m ps it n :
  idx_inv key l m → (it, n) :: ps ≡ₚ nodes l → Forall (λ x, x.1 ≠ it ∧ key x.2 ≠ key n) ps.
Proof.
  intros Hi Hp. pose proof (proj1 (idx_wf _ _ _ Hi)) as Ha. pose proof (idx_keys _ _ _ Hi) as Hk. unfold entries in Hk.
  rewrite <-Hp in Ha, Hk. csimpl in *. apply NoDup_cons in Ha as [Ha _], Hk as [Hk _].
  apply Forall_forall. intros x Hx. split; intros E.
  - apply Ha. rewrite <-E. by apply list_elem_of_fmap_2.
  - apply Hk. rewrite <-E. apply (list_elem_of_fmap_2 key (ps.*2)). by apply list_elem_of_fmap_2.
Qed.

(** The iterator of a key is in the set. *)
Lemma iter_in_set c k it :
  cache_inv c → mm c !! k = Some it → ∃ n, deref (cache c) it = Some n ∧ key n = k ∧ (it, n) ∈ nodes (cache c).
Proof.
  intros Hc Hk. destruct (idx_found key _ _ _ _ (p_idx _ Hc) Hk) as (n & Hd & Hn & _). exists n. split_and!; [done|done|].
  apply deref_Some; [apply Hc|done].
Qed.

Lemma rerank_spec c k it f :
  cache_inv c → mm c !! k = Some it → (∀ n, key (f n) = key n) →
  ∃ c', rerank c it f = Some c' ∧ cache_inv c' ∧ capacity c' = capacity c ∧
    entries (cache c') = (λ x, if decide (key x = k) then f x else x) <$> entries (cache c).
Proof.
  intros Hc Hk Hf. destruct (iter_in_set c k it Hc Hk) as (n & Hd & Hn & Hin).
  destruct (p_set _ Hc) as (ps & Hps & Hp & Hs). unfold rerank. rewrite <-Hps.
  destruct (set_erase_spec (cache c) it n ps) as (ps1 & -> & Hp1 & Hs1);
    [by eapply designates_perm; [apply Hc|]|by rewrite Hp|done|].
  cbn [mbind option_bind]. destruct (dupdate_spec key f _ _ _ _ Hf (p_idx _ Hc) Hk) as (l & Hl & Hidx & He).
  assert (nodes l ≡ₚ (it, f n) :: ps1) as Hnodes.
  { unfold dupdate in Hl. rewrite Hd in Hl. simplify_option_eq. rewrite <-Hp, Hp1. csimpl. rewrite decide_True by done.
    f_equiv. pose proof (others_differ _ _ ps1 it n (p_idx _ Hc) ltac:(by rewrite <-Hp1)) as Ho.
    rewrite <-(list_fmap_id ps1) at 2. apply Permutation_refl', list_fmap_ext. intros i x Hx.
    apply list_elem_of_lookup_2 in Hx. rewrite Forall_forall in Ho. by rewrite decide_False by (by apply Ho). }
  rewrite Hl. cbn [mbind option_bind].
  destruct (set_insert_spec l it (f n) ps1) as (ps2 & -> & Hp2 & Hs2).
  - pose proof (designates_perm l _ _ Hidx (symmetry Hnodes)) as Hdes. by apply Forall_cons in Hdes as [_ ?].
  - apply deref_Some; [apply Hidx|]. rewrite Hnodes. by left.
  - done.
  - eapply Forall_impl; [apply (others_differ l (mm c) ps1 it (f n) Hidx); by rewrite Hnodes|]. by intros x [_ ?].
  - cbn [mbind option_bind]. eexists. split_and!; [done| |done|done]. split; simpl; [done| |apply Hc|].
    + exists ps2. split_and!; [done|by rewrite Hp2, Hnodes|done].
    + rewrite He, length_fmap. apply Hc.
Qed.

Lemma derase_nodes (l l' : dlist Node) it n ps :
  dwf l → derase l it = Some l' → nodes l ≡ₚ (it, n) :: ps → nodes l' ≡ₚ ps.
Proof.
  intros [Hnd _] Hl Hp. unfold derase in Hl. destruct (deref l it); simplify_option_eq. unfold drop_node. simpl.
  rewrite Hp in Hnd |- *. csimpl in Hnd. apply NoDup_cons in Hnd as [Hit _]. rewrite filter_cons_False by tauto.
  rewrite filter_all; [done|]. apply Forall_forall. intros x Hx E. apply Hit. rewrite <-E. by apply list_elem_of_fmap_2.
Qed.

Lemma prio_erase_spec c k :
  cache_inv c → ∃ c', erase c k = Some c' ∧ cache_inv c' ∧ capacity c' = capacity c ∧
    entries (cache c') = without key k (entries (cache c)).
Proof.
  intros Hc. unfold erase. destruct (mm c !! k) as [it|] eqn:Hk.
  2:{ exists c. split_and!; try done. rewrite without_id; [done|]. by eapply idx_not_found; [apply Hc|]. }
  destruct (iter_in_set c k it Hc Hk) as (n & Hd & Hn & Hin). destruct (p_set _ Hc) as (ps & Hps & Hp & Hs).
  rewrite <-Hps. destruct (set_erase_spec (cache c) it n ps) as (ps1 & -> & Hp1 & Hs1);
    [by eapply designates_perm; [apply Hc|]|by rewrite Hp|done|].
  cbn [mbind option_bind]. destruct (derase_spec key _ _ _ _ (p_idx _ Hc) Hk) as (l & Hl & Hidx & He).
  rewrite Hl. cbn [mbind option_bind]. eexists. split_and!; [done| |done|done]. split; simpl; [done| |apply Hc|].
  - exists ps1. split_and!; [done| |done]. symmetry. eapply derase_nodes; [apply Hc|done|]. by rewrite <-Hp.
  - rewrite He. pose proof (p_size _ Hc). pose proof (length_filter (λ x, key x ≠ k) (entries (cache c))). unfold without. lia.
Qed.

(** The entry that comes first: lowest priority, then lowest key. *)
Definition lowest (n : Node) (es : list Node) : Prop :=
  n ∈ es ∧ ∀ x, x ∈ es → priority n < priority x ∨ (priority n = priority x ∧ key n ≤ key x).

Lemma prio_evict_spec c :
  cache_inv c → entries (cache c) ≠ [] →
  ∃ c' n, evict c = Some c' ∧ cache_inv c' ∧ capacity c' = capacity c ∧ lowest n (entries (cache c)) ∧
    entries (cache c') = without key (key n) (entries (cache c)) ∧ mm c' = delete (key n) (mm c).
Proof.
  intros Hc Hne. destruct (p_set _ Hc) as (ps & Hps & Hp & Hs). unfold evict. rewrite <-Hps.
  destruct ps as [|[it n] ps]; [by apply Permutation_nil in Hp; unfold entries in Hne; rewrite Hp in Hne|].
  csimpl. pose proof (designates_perm _ _ _ (p_idx _ Hc) Hp) as Hdes. apply Forall_cons in Hdes as [Hd _]. simpl in Hd.
  rewrite Hd. cbn [mbind option_bind].
  assert (mm c !! key n = Some it) as Hk.
  { apply (idx_spec _ _ _ (p_idx _ Hc)). exists n. split; [|done]. rewrite <-Hp. by left. }
  destruct (derase_spec key _ _ _ _ (p_idx _ Hc) Hk) as (l & Hl & Hidx & He). rewrite Hl. cbn [mbind option_bind].
  apply StronglySorted_inv in Hs as [Hs Hbefore]. do 2 eexists. split_and!; [done| |done| |done|done].
  - split; simpl; [done| |apply Hc|].
    + exists ps. split_and!; [done| |done]. symmetry. eapply derase_nodes; [apply Hc|done|]. by rewrite <-Hp.
    + rewrite He. pose proof (p_size _ Hc). pose proof (length_filter (λ x, key x ≠ key n) (entries (cache c))). unfold without. lia.
  - unfold lowest, entries. setoid_rewrite <-Hp. csimpl. split; [by left|]. intros x [->|Hx]%elem_of_cons; [lia|].
    apply list_elem_of_fmap in Hx as (y & -> & Hy). rewrite Forall_forall in Hbefore. specialize (Hbefore y Hy).
    unfold before, Compare in Hbefore. simpl in Hbefore. case_decide; lia.
Qed.

Lemma prio_push_spec c k v p :
  cache_inv c → mm c !! k = None → length (entries (cache c)) < capacity c →
  let '(l, it) := push_front {| key := k; value := v; priority := p |} (cache c) in
  ∃ s, set_insert l it (priority_set c) = Some s ∧
    cache_inv {| capacity := capacity c; cache := l; mm := <[k := it]> (mm c); priority_set := s |} ∧
    entries l = {| key := k; value := v; priority := p |} :: entries (cache c).
Proof.
  intros Hc Hk Hlt. set (n := {| key := k; value := v; priority := p |}).
  pose proof (push_front_spec key (cache c) (mm c) n (p_idx _ Hc) Hk) as Hpush.
  destruct (push_front n (cache c)) as [l it] eqn:E. destruct Hpush as [Hidx He].
  destruct (p_set _ Hc) as (ps & Hps & Hp & Hs).
  assert (nodes l ≡ₚ (it, n) :: ps) as Hnodes by (unfold push_front in E; simplify_eq; simpl; by rewrite Hp).
  pose proof (designates_perm l _ _ Hidx (symmetry Hnodes)) as Hdes. apply Forall_cons in Hdes as [Hd Hdes].
  destruct (set_insert_spec l it n ps) as (ps' & Hi & Hp' & Hs'); [done|done|done| |].
  - eapply Forall_impl; [apply (others_differ l _ ps it n Hidx); by rewrite Hnodes|]. by intros x [_ ?].
  - exists ps'.*1. rewrite <-Hps. split_and!; [done| |done]. split; simpl; [done| |apply Hc|].
    + exists ps'. split_and!; [done|by rewrite Hp', Hnodes|done].
    + rewrite He. simpl. lia.
Qed.

(** ** The policy *)

Inductive cache_op := Put (k v p : Z) | UpdatePriority (k p : Z) | Erase (k : Z).

Definition cache_step (c : PriorityCache) (o : cache_op) : option PriorityCache :=
  match o with Put k v p => put c k v p | UpdatePriority k p => update_priority c k p | Erase k => erase c k end.

(** A table of values and priorities, and the key that goes first. *)
Abbreviation table := (gmap Z (Z * Z)).

Definition first_out (t : table) (k : Z) : Prop :=
  ∃ v p, t !! k = Some (v, p) ∧ ∀ k' v' p', t !! k' = Some (v', p') → p < p' ∨ (p = p' ∧ k ≤ k').

(** What an operation does to the table of a cache of capacity [cap]. *)
Inductive policy_step (cap : Z) (t : table) : cache_op → table → Prop :=
  | policy_replace k v p x : t !! k = Some x → policy_step cap t (Put k v p) (<[k := (v, p)]> t)
  | policy_ignore k v p : cap = 0 → t !! k = None → policy_step cap t (Put k v p) t
  | policy_insert k v p : t !! k = None → size t < cap → policy_step cap t (Put k v p) (<[k := (v, p)]> t)
  | policy_evict k v p victim :
      t !! k = None → 0 < cap → Z.of_nat (size t) = cap → first_out t victim →
      policy_step cap t (Put k v p) (<[k := (v, p)]> (delete victim t))
  | policy_update k p v q : t !! k = Some (v, q) → policy_step cap t (UpdatePriority k p) (<[k := (v, p)]> t)
  | policy_update_none k p : t !! k = None → policy_step cap t (UpdatePriority k p) t
  | policy_erase k : policy_step cap t (Erase k) (delete k t).

(** The table of the entries. *)
Definition table_of (es : list Node) : table := list_to_map ((λ n, (key n, (value n, priority n))) <$> es).

Lemma table_lookup es k v p :
  NoDup (key <$> es) → table_of es !! k = Some (v, p) ↔ {| key := k; value := v; priority := p |} ∈ es.
Proof.
  intros Hnd. unfold table_of. etrans; [symmetry; apply elem_of_list_to_map; by rewrite <-list_fmap_compose|].
  rewrite list_elem_of_fmap. split; [|intros Hin; by exists {| key := k; value := v; priority := p |}]. by intros ([] & [= -> -> ->] & ?).
Qed.

Lemma table_None es k : table_of es !! k = None ↔ k ∉ key <$> es.
Proof. unfold table_of. etrans; [symmetry; apply not_elem_of_list_to_map|]. by rewrite <-list_fmap_compose. Qed.

Lemma table_cons n es : table_of (n :: es) = <[key n := (value n, priority n)]> (table_of es).
Proof. done. Qed.

Lemma table_without k es : table_of (without key k es) = delete k (table_of es).
Proof.
  induction es as [|n es IH]; [symmetry; apply delete_empty|]. unfold without in *. rewrite filter_cons. case_decide as E.
  - rewrite !table_cons, IH. by rewrite delete_insert_ne by congruence.
  - rewrite table_cons. subst. by rewrite delete_insert_eq.
Qed.

Lemma table_size es : NoDup (key <$> es) → size (table_of es) = length es.
Proof.
  induction es as [|n es IH]; [done|]. csimpl. intros [Hn Hnd]%NoDup_cons. rewrite table_cons.
  rewrite map_size_insert_None by (by apply table_None). by rewrite IH.
Qed.

(** A change of the entry of one key. *)
Lemma table_update es k f x :
  NoDup (key <$> es) → (∀ n, key (f n) = key n) → x ∈ es → key x = k →
  table_of ((λ n, if decide (key n = k) then f n else n) <$> es) = <[k := (value (f x), priority (f x))]> (table_of es).
Proof.
  intros Hnd Hf. induction es as [|n es IH]; intros Hx Hk; [by apply not_elem_of_nil in Hx|].
  csimpl in *. apply NoDup_cons in Hnd as [Hn Hnd]. rewrite !table_cons. apply elem_of_cons in Hx as [->|Hx].
  - rewrite decide_True by done. rewrite Hf, Hk, insert_insert_eq. f_equal. f_equal.
    rewrite <-(list_fmap_id es) at 2. apply list_fmap_ext. intros i y Hy%list_elem_of_lookup_2.
    rewrite decide_False; [done|]. intros E. apply Hn. rewrite Hk, <-E. by apply list_elem_of_fmap_2.
  - rewrite IH by done. rewrite decide_False; [|intros E; apply Hn; rewrite E, <-Hk; by apply list_elem_of_fmap_2].
    apply insert_insert_ne. intros E. apply Hn. rewrite E, <-Hk. by apply list_elem_of_fmap_2.
Qed.

Lemma lowest_first_out n es : NoDup (key <$> es) → lowest n es → first_out (table_of es) (key n).
Proof.
  intros Hnd [Hn Hlow]. exists (value n), (priority n). split; [apply table_lookup; [done|]; by destruct n|].
  intros k' v' p' Hk. apply table_lookup in Hk; [|done]. by apply (Hlow _ Hk).
Qed.

(** The index agrees with the table. *)
Lemma mm_table c k : cache_inv c → mm c !! k = None ↔ table_of (entries (cache c)) !! k = None.
Proof. intros Hc. rewrite (idx_None_iff key _ _ k (p_idx _ Hc)). by rewrite table_None. Qed.

Lemma mm_node c k it :
  cache_inv c → mm c !! k = Some it →
  ∃ n, deref (cache c) it = Some n ∧ n ∈ entries (cache c) ∧ key n = k ∧
    table_of (entries (cache c)) !! k = Some (value n, priority n).
Proof.
  intros Hc Hk. destruct (idx_found key _ _ _ _ (p_idx _ Hc) Hk) as (n & Hd & Hn & Hin). exists n.
  split_and!; [done|done|done|]. apply table_lookup; [apply Hc|]. subst. by destruct n.
Qed.

Definition contents (c : PriorityCache) : table := table_of (entries (cache c)).

Lemma contents_size c : cache_inv c → size (contents c) = size (mm c).
Proof. intros Hc. unfold contents. rewrite table_size by apply Hc. by rewrite (idx_size key _ _ (p_idx _ Hc)). Qed.

Lemma rerank_policy c k it f n :
  cache_inv c → mm c !! k = Some it → (∀ n, key (f n) = key n) → n ∈ entries (cache c) → key n = k →
  ∃ c', rerank c it f = Some c' ∧ cache_inv c' ∧ capacity c' = capacity c ∧
    contents c' = <[k := (value (f n), priority (f n))]> (contents c).
Proof.
  intros Hc Hk Hf Hn Hkn. destruct (rerank_spec c k it f Hc Hk Hf) as (c' & Hr & Hc' & Hcap & He).
  exists c'. split_and!; [done|done|done|]. unfold contents. rewrite He. apply table_update; try done. apply Hc.
Qed.

Lemma push_policy c k v p :
  cache_inv c → mm c !! k = None → length (entries (cache c)) < capacity c →
  ∃ c', (let '(l, it) := push_front {| key := k; value := v; priority := p |} (cache c) in
         s ← set_insert l it (priority_set c);
         Some {| capacity := capacity c; cache := l; mm := <[k := it]> (mm c); priority_set := s |}) = Some c' ∧
    cache_inv c' ∧ capacity c' = capacity c ∧ contents c' = <[k := (v, p)]> (contents c).
Proof.
  intros Hc Hk Hlt. pose proof (prio_push_spec c k v p Hc Hk Hlt) as Hpush. destruct (push_front _ _) as [l it].
  destruct Hpush as (s & -> & Hc' & He). cbn [mbind option_bind]. eexists. split_and!; [done|done|done|].
  unfold contents. simpl. by rewrite He.
Qed.

Lemma put_policy c k v p :
  cache_inv c → ∃ c', put c k v p = Some c' ∧ cache_inv c' ∧ capacity c' = capacity c ∧
    policy_step (capacity c) (contents c) (Put k v p) (contents c').
Proof.
  intros Hc. unfold put. destruct (mm c !! k) as [it|] eqn:Hk.
  - destruct (mm_node c k it Hc Hk) as (n & _ & Hn & Hkn & Ht).
    destruct (rerank_policy c k it (λ n, {| key := key n; value := v; priority := p |}) n Hc Hk ltac:(done) Hn Hkn)
      as (c' & -> & Hc' & Hcap & He).
    exists c'. split_and!; [done|done|done|]. rewrite He. by eapply policy_replace.
  - pose proof (proj1 (mm_table c k Hc) Hk) as Ht. case_decide as Hcap0.
    { exists c. split_and!; [done|done|done|]. by apply policy_ignore. }
    pose proof (p_cap _ Hc) as Hcap. pose proof (p_size _ Hc) as Hsz. rewrite to_size_t_id by done.
    pose proof (idx_size key _ _ (p_idx _ Hc)) as Hsize. pose proof (contents_size c Hc) as Hcs.
    destruct (Z.eqb_spec (size (mm c)) (capacity c)) as [Hfull|Hroom].
    + destruct (prio_evict_spec c Hc) as (c1 & n & -> & Hc1 & Hcap1 & Hlow & He & Hm).
      { intros E. rewrite E in Hsize. simpl in Hsize. lia. }
      cbn [mbind option_bind].
      destruct (push_policy c1 k v p Hc1) as (c' & -> & Hc' & Hcap' & Hcont).
      * rewrite Hm. rewrite lookup_delete_ne; [done|]. intros E.
        apply (proj1 (table_None _ _) Ht). rewrite <-E. apply list_elem_of_fmap_2, Hlow.
      * rewrite He. pose proof (without_shorter key _ n (proj1 Hlow)). lia.
      * exists c'. split_and!; [done|done|congruence|]. rewrite Hcont. unfold contents at 2. rewrite He, table_without.
        apply policy_evict; [done|lia|unfold contents in *; lia|]. apply lowest_first_out; [apply Hc|done].
    + cbn [mbind option_bind]. destruct (push_policy c k v p Hc Hk) as (c' & -> & Hc' & Hcap' & Hcont); [lia|].
      exists c'. split_and!; [done|done|done|]. rewrite Hcont. apply policy_insert; [done|]. lia.
Qed.

Lemma cache_step_policy c o :
  cache_inv c → ∃ c', cache_step c o = Some c' ∧ cache_inv c' ∧ capacity c' = capacity c ∧
    policy_step (capacity c) (contents c) o (contents c').
Proof.
  intros Hc. destruct o as [k v p|k p|k]; simpl; [by apply put_policy| |].
  - unfold update_priority. destruct (mm c !! k) as [it|] eqn:Hk.
    + destruct (mm_node c k it Hc Hk) as (n & _ & Hn & Hkn & Ht).
      destruct (rerank_policy c k it (λ n, {| key := key n; value := value n; priority := p |}) n Hc Hk ltac:(done) Hn Hkn)
        as (c' & -> & Hc' & Hcap & He).
      exists c'. split_and!; [done|done|done|]. rewrite He. by eapply policy_update.
    + exists c. split_and!; [done|done|done|]. by apply policy_update_none, mm_table.
  - destruct (prio_erase_spec c k Hc) as (c' & -> & Hc' & Hcap & He). exists c'. split_and!; [done|done|done|].
    unfold contents. rewrite He, table_without. apply policy_erase.
Qed.

(** A history of the policy. *)
Inductive policy_run (cap : Z) : table → list cache_op → table → Prop :=
  | policy_nil t : policy_run cap t [] t
  | policy_cons t o t1 os t2 : policy_step cap t o t1 → policy_run cap t1 os t2 → policy_run cap t (o :: os) t2.

Lemma run_policy c ops :
  cache_inv c → ∃ c', run_ops cache_step c ops = Some c' ∧ cache_inv c' ∧ capacity c' = capacity c ∧
    policy_run (capacity c) (contents c) ops (contents c').
Proof.
  revert c. induction ops as [|o ops IH]; intros c Hc; simpl.
  - exists c. split_and!; try done. constructor.
  - destruct (cache_step_policy c o Hc) as (c1 & -> & Hc1 & Hcap1 & Hp1). simpl.
    destruct (IH c1 Hc1) as (c2 & Hr & Hc2 & Hcap2 & Hp2). exists c2. split_and!; [done|done|congruence|].
    econstructor; [done|]. by rewrite <-Hcap1.
Qed.

Lemma prio_make_inv cap : 0 ≤ cap ≤ INT_MAX → cache_inv (PriorityCache_make cap).
Proof. intros Hcap. split; simpl; [apply idx_empty| |done|lia]. exists []. split_and!; [done|done|constructor]. Qed.

(** The cache with priorities follows its policy.  For every capacity and every
    history of puts, priority changes and erasures, no iterator dangles and the set of
    iterators stays ordered, so that what the cache holds is what the policy prescribes: a
    new key in a full cache replaces exactly the entry of the lowest priority (of these, of
    the lowest key), nothing else is ever lost, the capacity is not exceeded, and a get
    returns the value held or -1. *)
Theorem priority_cache_policy (cap : Z) (ops : list cache_op) (k : Z) :
  0 ≤ cap ≤ INT_MAX →
  ∃ c t, run_ops cache_step (PriorityCache_make cap) ops = Some c ∧ policy_run cap ∅ ops t ∧
    get c k = Some (default (-1) (fst <$> t !! k)) ∧ size t ≤ cap.
Proof.
  intros Hcap. destruct (run_policy _ ops (prio_make_inv cap Hcap)) as (c & Hr & Hc & Hcapc & Hp).
  exists c, (contents c). split_and!; [done|done| |].
  - unfold get. destruct (mm c !! k) as [it|] eqn:Hk.
    + destruct (mm_node c k it Hc Hk) as (n & Hd & _ & _ & Ht). rewrite Hd. simpl. unfold contents. by rewrite Ht.
    + apply mm_table in Hk; [|done]. unfold contents. by rewrite Hk.
  - rewrite contents_size, (idx_size key _ _ (p_idx _ Hc)) by done. pose proof (p_size _ Hc). simpl in Hcapc. lia.
Qed.

Definition priority_demo : list cache_op := [Put 1 10 5; Put 2 20 1; UpdatePriority 1 0; Put 3 30 2; Erase 2; Put 4 40 9].

Lemma priority_cache_policy_witness :
  0 ≤ 2 ≤ INT_MAX ∧
  ∃ c t, run_ops cache_step (PriorityCache_make 2) priority_demo = Some c ∧ policy_run 2 ∅ priority_demo t ∧
    get c 1 = Some (default (-1) (fst <$> t !! 1)) ∧ size t ≤ 2.
Proof. split; [unfold INT_MAX; lia|]. apply (priority_cache_policy 2). unfold INT_MAX. lia. Defined.

Example priority_demo_evicts : (λ c, (get c 1, get c 3, get c 4)) <$> run_ops cache_step (PriorityCache_make 2) priority_demo
  = Some (Some (-1), Some 30, Some 40).
Proof. vm_compute. reflexivity. Qed.
