(* ===== verification/TTLCache.v ===== *)
(** * The cache whose entries expire

    [src/caching/RedisCache_withTTLexpiration.cpp]: a list of nodes, most recently used
    first, an index of iterators, and a time of expiry per node that is checked lazily when
    the node is read.  Every method holds the exclusive lock, so a method is one step; the
    clock is an argument of it (nanoseconds).

    The list of entries behaves as the one of an LRU cache whose values carry the expiry
    ([LRU]), from which a read may also erase. *)
From S2P Require Import Prelude IndexedList LRU.
Local Open Scope Z_scope.

Record Node := { key : string; value : string; expiry_time : Z }.

Record RedisCache_withTTL := { cache : dlist Node; mm : gmap string nat; Tcapacity : Z }.

Definition Redis_make (capacity : Z) : RedisCache_withTTL := {| cache := dempty; mm := ∅; Tcapacity := capacity |}.

Definition with_list (c : RedisCache_withTTL) (l : dlist Node) (m : gmap string nat) : RedisCache_withTTL :=
  {| cache := l; mm := m; Tcapacity := Tcapacity c |}.

Definition not_found : string := "Key NOT FOUND in Cache!".
Definition expired : string := "LAZYily EXPIRED Key!".

(** [get(key)] at time [now]. *)
Definition Redis_get (c : RedisCache_withTTL) (now : Z) (k : string) : option (RedisCache_withTTL * string) :=
  match mm c !! k with
  | None => Some (c, not_found)
  | Some it =>
      n ← deref (cache c) it;
      if expiry_time n <? now then
        l ← derase (cache c) it; Some (with_list c l (delete k (mm c)), expired)
      else
        l ← splice_front (cache c) it; n ← deref l it; Some (with_list c l (mm c), value n)
  end.

(** The removal of an entry of the same key in [put]. *)
Definition put_remove (c : RedisCache_withTTL) (k : string) : option RedisCache_withTTL :=
  match mm c !! k with
  | None => Some c
  | Some it => l ← derase (cache c) it; Some (with_list c l (delete k (mm c)))
  end.

(** The removal of the oldest entry of a full cache in [put]; [back()] of an empty list is
    undefined. *)
Definition put_evict (c : RedisCache_withTTL) : option RedisCache_withTTL :=
  if to_size_t (Tcapacity c) <=? dsize (cache c) then
    victim ← back (cache c); l ← pop_back (cache c); Some (with_list c l (delete (key victim) (mm c)))
  else Some c.

Definition seconds (n : Z) : Z := n * 1000000000.

(** [put(key, value, TTL_seconds)] at time [now]. *)
Definition Redis_put (c : RedisCache_withTTL) (now : Z) (k v : string) (TTL_seconds : Z) : option RedisCache_withTTL :=
  c ← put_remove c k;
  c ← put_evict c;
  let '(l, it) := push_front {| key := k; value := v; expiry_time := now + seconds TTL_seconds |} (cache c) in
  Some (with_list c l (<[k := it]> (mm c))).

(** ** Reference: a list of entries *)

Definition find_key (k : string) (es : list Node) : option Node := head (filter (λ n, key n = k) es).

Definition ref_get (es : list Node) (now : Z) (k : string) : list Node * string :=
  match find_key k es with
  | None => (es, not_found)
  | Some n => if expiry_time n <? now then (without key k es, expired) else (n :: without key k es, value n)
  end.

Definition ref_put (cap : nat) (es : list Node) (n : Node) : list Node :=
  n :: take (cap - 1) (without key (key n) es).

Record ttl_inv (c : RedisCache_withTTL) : Prop := {
  t_idx : idx_inv key (cache c) (mm c);
  t_cap : 0 < Tcapacity c ≤ INT_MAX;
  t_size : length (entries (cache c)) ≤ Tcapacity c
}.

Lemma ttl_find_key_Some k es n : NoDup (key <$> es) → find_key k es = Some n ↔ n ∈ es ∧ key n = k.
Proof.
  unfold find_key. induction es as [|x es IH]; intros Hnd.
  - split; [done|]. intros [?%not_elem_of_nil _]. done.
  - csimpl in Hnd. apply NoDup_cons in Hnd as [Hx Hnd]. rewrite filter_cons, elem_of_cons. case_decide as E; simpl.
    + split; [intros [= ->]; auto|]. intros [[->|Hn] Hk]; [done|]. destruct Hx. rewrite E, <-Hk. by apply list_elem_of_fmap_2.
    + rewrite IH by done. naive_solver.
Qed.

Lemma ttl_find_key_None k es : find_key k es = None ↔ k ∉ key <$> es.
Proof.
  unfold find_key. induction es as [|x es IH]; csimpl; [split; [|done]; intros _; apply not_elem_of_nil|].
  rewrite filter_cons, not_elem_of_cons. case_decide; simpl; [naive_solver|]. rewrite IH. naive_solver.
Qed.

Lemma index_find c k :
  ttl_inv c →
  match mm c !! k with
  | Some it => ∃ n, deref (cache c) it = Some n ∧ find_key k (entries (cache c)) = Some n ∧ key n = k
  | None => find_key k (entries (cache c)) = None
  end.
Proof.
  intros Hc. destruct (mm c !! k) as [it|] eqn:Hk.
  - destruct (idx_found key _ _ _ _ (t_idx _ Hc) Hk) as (n & Hd & Hn & Hin). exists n. split_and!; [done| |done].
    by apply ttl_find_key_Some; [apply Hc|].
  - apply ttl_find_key_None. by apply (idx_None_iff key _ _ k (t_idx _ Hc)).
Qed.

Lemma Redis_get_spec c now k :
  ttl_inv c → ∃ c' r, Redis_get c now k = Some (c', r) ∧ ttl_inv c' ∧ Tcapacity c' = Tcapacity c ∧
    ref_get (entries (cache c)) now k = (entries (cache c'), r).
Proof.
  intros Hc. pose proof (index_find c k Hc) as Hf. unfold Redis_get, ref_get. destruct (mm c !! k) as [it|] eqn:Hk.
  2:{ rewrite Hf. eauto 10. }
  destruct Hf as (n & Hd & Hn & Hkn). rewrite Hd, Hn. cbn [mbind option_bind].
  pose proof (length_filter (λ x, key x ≠ k) (entries (cache c))) as Hlen. pose proof (t_size _ Hc) as Hsz.
  destruct (expiry_time n <? now).
  - destruct (derase_spec key _ _ _ _ (t_idx _ Hc) Hk) as (l & Hl & Hidx & He). rewrite Hl. cbn [mbind option_bind].
    do 2 eexists. split_and!; [done| |done|by rewrite <-He]. split; simpl; [done|apply Hc|].
    rewrite He. unfold without. lia.
  - destruct (splice_front_spec key _ _ _ _ (t_idx _ Hc) Hk) as (l & x & Hl & Hx & _ & Hidx & Hd' & He).
    rewrite Hl. cbn [mbind option_bind]. rewrite Hd'. cbn [mbind option_bind]. simplify_eq.
    do 2 eexists. split_and!; [done| |done|by rewrite <-He]. split; simpl; [done|apply Hc|].
    pose proof (idx_size key _ _ Hidx). pose proof (idx_size key _ _ (t_idx _ Hc)). lia.
Qed.

Lemma put_remove_spec c k :
  ttl_inv c → ∃ c', put_remove c k = Some c' ∧ ttl_inv c' ∧ Tcapacity c' = Tcapacity c ∧
    entries (cache c') = without key k (entries (cache c)) ∧ mm c' !! k = None.
Proof.
  intros Hc. unfold put_remove. destruct (mm c !! k) as [it|] eqn:Hk.
  - destruct (derase_spec key _ _ _ _ (t_idx _ Hc) Hk) as (l & Hl & Hidx & He). rewrite Hl. cbn [mbind option_bind].
    eexists. split_and!; [done| |done|done|apply lookup_delete_eq]. split; simpl; [done|apply Hc|].
    rewrite He. pose proof (length_filter (λ x, key x ≠ k) (entries (cache c))). pose proof (t_size _ Hc). unfold without. lia.
  - exists c. split_and!; try done. rewrite without_id; [done|]. by apply (idx_None_iff key _ _ k (t_idx _ Hc)).
Qed.

Lemma put_evict_spec c :
  ttl_inv c → ∃ c', put_evict c = Some c' ∧ ttl_inv c' ∧ Tcapacity c' = Tcapacity c ∧
    entries (cache c') = take (Z.to_nat (Tcapacity c) - 1) (entries (cache c)) ∧ (∀ k, mm c !! k = None → mm c' !! k = None).
Proof.
  intros Hc. pose proof (t_cap _ Hc) as Hcap. pose proof (t_size _ Hc) as Hsz. unfold put_evict.
  rewrite to_size_t_id by lia. assert (dsize (cache c) = length (entries (cache c))) as Hd
    by (unfold dsize, entries; by rewrite length_fmap).
  destruct (Z.leb_spec (Tcapacity c) (dsize (cache c))).
  - destruct (entries (cache c)) as [|x es _] eqn:E using rev_ind; [simpl in *; lia|].
    destruct (pop_back_spec key _ _ es x (t_idx _ Hc) E) as (-> & l & -> & Hidx & He). cbn [mbind option_bind].
    rewrite length_app in *. simpl in *. eexists. split_and!; [done| |done| |].
    + split; simpl; [done|done|]. rewrite He. lia.
    + simpl. rewrite He. rewrite take_app_length' by lia. done.
    + intros k Hk. simpl. apply lookup_delete_None. by right.
  - exists c. split_and!; try done. rewrite take_ge; [done|lia].
Qed.

Lemma Redis_put_spec c now k v ttl :
  ttl_inv c → ∃ c', Redis_put c now k v ttl = Some c' ∧ ttl_inv c' ∧ Tcapacity c' = Tcapacity c ∧
    entries (cache c') = ref_put (Z.to_nat (Tcapacity c)) (entries (cache c))
      {| key := k; value := v; expiry_time := now + seconds ttl |}.
Proof.
  intros Hc. unfold Redis_put. destruct (put_remove_spec c k Hc) as (c1 & -> & Hc1 & Hcap1 & He1 & Hk1).
  cbn [mbind option_bind]. destruct (put_evict_spec c1 Hc1) as (c2 & -> & Hc2 & Hcap2 & He2 & Hk2).
  cbn [mbind option_bind]. set (n := {| key := k; value := v; expiry_time := now + seconds ttl |}).
  pose proof (push_front_spec key (cache c2) (mm c2) n (t_idx _ Hc2) (Hk2 k Hk1)) as Hp.
  destruct (push_front n (cache c2)) as [l it]. destruct Hp as [Hidx He].
  assert (entries l = ref_put (Z.to_nat (Tcapacity c)) (entries (cache c)) n) as E.
  { unfold ref_put. rewrite He, He2, He1, Hcap1. done. }
  eexists. split_and!; [done| |simpl; congruence|done]. split; simpl; [done|apply Hc2|].
  rewrite E. unfold ref_put. simpl. rewrite length_take. pose proof (t_cap _ Hc2). rewrite Hcap2, Hcap1 in *. lia.
Qed.

(** ** Histories *)

Inductive ttl_op := TGet (now : Z) (k : string) | TPut (now : Z) (k v : string) (TTL_seconds : Z).

Definition ttl_step (c : RedisCache_withTTL) (o : ttl_op) : option RedisCache_withTTL :=
  match o with TGet now k => fst <$> Redis_get c now k | TPut now k v ttl => Redis_put c now k v ttl end.

Definition op_time (o : ttl_op) : Z := match o with TGet now _ | TPut now _ _ _ => now end.

(** The value last put for [k], and when it expires. *)
Definition last_put_step (k : string) (r : option (string * Z)) (o : ttl_op) : option (string * Z) :=
  match o with TPut now k' v ttl => if decide (k' = k) then Some (v, now + seconds ttl) else r | TGet _ _ => r end.

Definition last_put (k : string) (ops : list ttl_op) : option (string * Z) := fold_left (last_put_step k) ops None.

(** The other keys used since the last put of [k]. *)
Definition rivals_step (k : string) (R : gset string) (o : ttl_op) : gset string :=
  match o with
  | TPut _ k' _ _ => if decide (k' = k) then ∅ else {[k']} ∪ R
  | TGet _ k' => if decide (k' = k) then R else {[k']} ∪ R
  end.

Definition rivals (k : string) (ops : list ttl_op) : gset string := fold_left (rivals_step k) ops ∅.

Lemma last_put_snoc k ops o : last_put k (ops ++ [o]) = last_put_step k (last_put k ops) o.
Proof. unfold last_put. by rewrite fold_left_app. Qed.

Lemma rivals_snoc k ops o : rivals k (ops ++ [o]) = rivals_step k (rivals k ops) o.
Proof. unfold rivals. by rewrite fold_left_app. Qed.

(** Entries are the last ones put. *)
Definition fresh (ops : list ttl_op) (es : list Node) : Prop :=
  ∀ n, n ∈ es → last_put (key n) ops = Some (value n, expiry_time n).

(** An entry with fewer than [cap] rivals is still there, behind some of them. *)
Definition retained (cap : nat) (k : string) (ops : list ttl_op) (es : list Node) : Prop :=
  ∀ v e, last_put k ops = Some (v, e) → Forall (λ o, op_time o ≤ e) ops → (size (rivals k ops) < cap)%nat →
  ∃ pre n post, es = pre ++ n :: post ∧ key n = k ∧ value n = v ∧ expiry_time n = e ∧
    ∀ x, x ∈ pre → key x ∈ rivals k ops.

Lemma elem_of_without_node k es n : n ∈ without key k es ↔ key n ≠ k ∧ n ∈ es.
Proof. unfold without. by rewrite list_elem_of_filter. Qed.

Lemma fresh_get ops es now k : fresh ops es → NoDup (key <$> es) → fresh (ops ++ [TGet now k]) (ref_get es now k).1.
Proof.
  intros Hf Hnd n Hn. rewrite last_put_snoc. simpl. apply Hf. unfold ref_get in Hn.
  destruct (find_key k es) as [m|] eqn:E; [|done]. apply ttl_find_key_Some in E as [Hm _]; [|done].
  destruct (_ <? _); simpl in Hn; [by apply elem_of_without_node in Hn as [_ ?]|].
  apply elem_of_cons in Hn as [->|Hn]; [done|by apply elem_of_without_node in Hn as [_ ?]].
Qed.

Lemma fresh_put ops es cap now k v ttl :
  fresh ops es →
  fresh (ops ++ [TPut now k v ttl]) (ref_put cap es {| key := k; value := v; expiry_time := now + seconds ttl |}).
Proof.
  intros Hf n Hn. rewrite last_put_snoc. simpl. unfold ref_put in Hn. apply elem_of_cons in Hn as [->|Hn].
  - by rewrite decide_True.
  - apply elem_of_take in Hn as (i & Hi & _). apply list_elem_of_lookup_2, elem_of_without_node in Hi as [Hk Hi].
    simpl in Hk. rewrite decide_False by congruence. auto.
Qed.

Lemma without_split k pre n post :
  key n ≠ k → without key k (pre ++ n :: post) = without key k pre ++ n :: without key k post.
Proof. intros Hn. unfold without. by rewrite filter_app, filter_cons_True. Qed.

(** Distinct keys within a set are no more than its elements. *)
Lemma keys_bound (es : list Node) (X : gset string) :
  NoDup (key <$> es) → (∀ x, x ∈ es → key x ∈ X) → (length es ≤ size X)%nat.
Proof.
  intros Hnd Hin. rewrite <-(length_fmap key es), <-(size_list_to_set (C := gset string)) by done.
  apply subseteq_size. intros k Hk%elem_of_list_to_set. apply list_elem_of_fmap in Hk as (x & -> & Hx). auto.
Qed.

Lemma rivals_grow k k' ops : (size (rivals k ops) ≤ size ({[k']} ∪ rivals k ops))%nat.
Proof. apply subseteq_size. set_solver. Qed.

Lemma retained_get cap k ops es now k' :
  NoDup (key <$> es) → retained cap k ops es → retained cap k (ops ++ [TGet now k']) (ref_get es now k').1.
Proof.
  intros Hnd Hr v e Hl [Ht Hnow]%Forall_app Hs. rewrite last_put_snoc in Hl. rewrite rivals_snoc in *. simpl in *.
  apply Forall_cons in Hnow as [Hnow _]. simpl in Hnow.
  destruct (Hr v e Hl Ht) as (pre & n & post & -> & Hk & Hv & He & Hpre).
  { case_decide; [done|]. pose proof (rivals_grow k k' ops). lia. }
  assert (find_key k (pre ++ n :: post) = Some n) as Hfk by (apply ttl_find_key_Some; [done|set_solver]).
  unfold ref_get. destruct (decide (k' = k)) as [->|Hne].
  - rewrite Hfk. destruct (Z.ltb_spec (expiry_time n) now); [lia|]. simpl.
    exists [], n, (without key k (pre ++ n :: post)). split_and!; try done. intros x ?%not_elem_of_nil. done.
  - destruct (find_key k' (pre ++ n :: post)) as [m|] eqn:E.
    + apply ttl_find_key_Some in E as [_ Hm]; [|done]. rewrite without_split by congruence.
      assert (∀ x, x ∈ without key k' pre → key x ∈ {[k']} ∪ rivals k ops) as Hw.
      { intros x [_ Hx]%elem_of_without_node. set_solver. }
      destruct (_ <? _); simpl.
      * exists (without key k' pre), n, (without key k' post). split_and!; done.
      * exists (m :: without key k' pre), n, (without key k' post). split_and!; try done.
        intros x [->|Hx]%elem_of_cons; [set_solver|auto].
    + exists pre, n, post. split_and!; try done. set_solver.
Qed.

Lemma retained_put cap k ops es now k' v' ttl :
  NoDup (key <$> es) → (0 < cap)%nat → retained cap k ops es →
  retained cap k (ops ++ [TPut now k' v' ttl])
    (ref_put cap es {| key := k'; value := v'; expiry_time := now + seconds ttl |}).
Proof.
  intros Hnd Hcap Hr v e Hl [Ht _]%Forall_app Hs. rewrite last_put_snoc in Hl. rewrite rivals_snoc in *. simpl in *.
  unfold ref_put. destruct (decide (k' = k)) as [->|Hne].
  - simplify_eq. eexists [], _, _. split_and!; try done. intros x ?%not_elem_of_nil. done.
  - destruct (Hr v e Hl Ht) as (pre & n & post & -> & Hk & Hv & He & Hpre).
    { pose proof (rivals_grow k k' ops). lia. }
    simpl. rewrite without_split by congruence.
    assert (length (without key k' pre) < cap - 1)%nat as Hlen.
    { assert (length (without key k' pre) ≤ size (({[k']} ∪ rivals k ops) ∖ {[k']}))%nat as Hb.
      - apply keys_bound.
        + rewrite fmap_app in Hnd. apply NoDup_app in Hnd as (Hnd & _ & _). by apply without_NoDup.
        + intros x [Hx1 Hx2]%elem_of_without_node. set_solver.
      - rewrite size_difference in Hb by set_solver. assert (size ({[k']} : gset string) ≤ size ({[k']} ∪ rivals k ops))%nat by (apply subseteq_size; set_solver).
        rewrite size_singleton in *. lia. }
    rewrite take_app_ge by lia. destruct (cap - 1 - length (without key k' pre))%nat as [|j] eqn:Ej; [lia|]. simpl.
    eexists ({| key := k'; value := v'; expiry_time := _ |} :: without key k' pre), n, _. split_and!; try done.
    intros x [->|[_ Hx]%elem_of_without_node]%elem_of_cons; set_solver.
Qed.

Record history_inv (cap : nat) (ops : list ttl_op) (c : RedisCache_withTTL) : Prop := {
  g_ttl : ttl_inv c;
  g_cap : Tcapacity c = cap;
  g_fresh : fresh ops (entries (cache c));
  g_retained : ∀ k, retained cap k ops (entries (cache c))
}.

Lemma history_step cap ops c o :
  history_inv cap ops c → ∃ c', ttl_step c o = Some c' ∧ history_inv cap (ops ++ [o]) c'.
Proof.
  intros [Hc Hcap Hf Hr]. pose proof (idx_keys _ _ _ (t_idx _ Hc)) as Hnd. destruct o as [now k|now k v ttl]; simpl.
  - destruct (Redis_get_spec c now k Hc) as (c' & r & -> & Hc' & Hcap' & He). exists c'. split; [done|].
    apply (f_equal fst) in He. simpl in He. split; [done|congruence|rewrite <-He; by apply fresh_get|].
    intros k'. rewrite <-He. by apply retained_get.
  - destruct (Redis_put_spec c now k v ttl Hc) as (c' & -> & Hc' & Hcap' & He). exists c'. split; [done|].
    rewrite Hcap, Nat2Z.id in He. split; [done|congruence|rewrite He; by apply fresh_put|].
    intros k'. rewrite He. apply retained_put; [done|pose proof (t_cap _ Hc); lia|done].
Qed.

Lemma history_run cap ops :
  0 < Z.of_nat cap ≤ INT_MAX → ∃ c, run_ops ttl_step (Redis_make cap) ops = Some c ∧ history_inv cap ops c.
Proof.
  intros Hcap. induction ops as [|o ops IH] using rev_ind.
  - exists (Redis_make cap). split; [done|]. split; simpl; [split; simpl; [apply idx_empty|done|lia]|done| |done].
    intros n ?%not_elem_of_nil. done.
  - destruct IH as (c & Hr & Hc). destruct (history_step cap ops c o Hc) as (c' & Hs & Hc'). exists c'.
    rewrite run_ops_app, Hr. simpl. by rewrite Hs.
Qed.

(** The expiring cache never serves stale data.  After any history of gets and puts
    at any times, no iterator dangles, the capacity is respected, and a get of [k] at time
    [now] answers: not found if [k] was never put; if the value last put has expired, that
    it expired or was not found; otherwise that value, or not found when it was evicted.
    It is not evicted, and the value is returned, if since that put fewer than [cap] other
    keys were used and the clock did not run past [now]. *)
Theorem ttl_cache_correct (cap : nat) (ops : list ttl_op) (now : Z) (k : string) :
  0 < Z.of_nat cap ≤ INT_MAX →
  ∃ c c' r, run_ops ttl_step (Redis_make cap) ops = Some c ∧ length (entries (cache c)) ≤ cap ∧
    Redis_get c now k = Some (c', r) ∧
    match last_put k ops with
    | None => r = not_found
    | Some (v, e) =>
        if decide (e < now) then r = expired ∨ r = not_found
        else (r = v ∨ r = not_found) ∧
             (Forall (λ o, op_time o ≤ now) ops → (size (rivals k ops) < cap)%nat → r = v)
    end.
Proof.
  intros Hcap. destruct (history_run cap ops Hcap) as (c & Hr & [Hc Hcapc Hf Hret]).
  destruct (Redis_get_spec c now k Hc) as (c' & r & Hg & _ & _ & He). exists c, c', r. split_and!; [done| |done|].
  { pose proof (t_size _ Hc). lia. }
  pose proof (idx_keys _ _ _ (t_idx _ Hc)) as Hnd. unfold ref_get in He.
  destruct (find_key k (entries (cache c))) as [n|] eqn:E.
  - apply ttl_find_key_Some in E as [Hn Hk]; [|done]. specialize (Hf n Hn). rewrite Hk in Hf. rewrite Hf.
    destruct (Z.ltb_spec (expiry_time n) now); simplify_eq; [rewrite decide_True by done; auto|].
    rewrite decide_False by lia. auto.
  - apply (f_equal snd) in He. simpl in He. subst r. destruct (last_put k ops) as [[v e]|] eqn:Hl; [|done].
    case_decide; [by right|]. split; [by right|]. intros Ht Hs.
    destruct (Hret k v e Hl) as (pre & n & post & Hes & Hk & _); [|done|].
    { eapply Forall_impl; [exact Ht|]. simpl. lia. }
    exfalso. apply (proj1 (ttl_find_key_None _ _) E). rewrite Hes, <-Hk. apply list_elem_of_fmap_2. set_solver.
Qed.

Definition ttl_demo : list ttl_op :=
  [TPut 0 "a" "1" 10; TPut 5 "b" "2" 1; TGet 7 "a"; TPut 9 "c" "3" 5].

Lemma ttl_cache_correct_witness :
  ∃ c c' r, run_ops ttl_step (Redis_make 2) ttl_demo = Some c ∧ length (entries (cache c)) ≤ 2 ∧
    Redis_get c 100 "c" = Some (c', r) ∧ r = "3"%string.
Proof.
  destruct (ttl_cache_correct 2 ttl_demo 100 "c") as (c & c' & r & Hr & Hl & Hg & Ha); [unfold INT_MAX; lia|].
  exists c, c', r. split; [exact Hr|]. split; [exact Hl|]. split; [exact Hg|].
  apply Ha; [repeat constructor; simpl; lia|]. apply Nat.ltb_lt. vm_compute. reflexivity.
Defined.

(** With capacity zero, the first [put] calls [back()] on an empty list. *)
Lemma ttl_capacity_zero now k v ttl : Redis_put (Redis_make 0) now k v ttl = None.
Proof. done. Qed.
