(* ===== verification/DeadlockDetection.v ===== *)
(** * Deadlock detection

    [src/concurrency/DeadlockDetection.cpp]: a wait-for graph between transactions and a
    depth-first search for a cycle in it.  [graph[txn]] inserts an empty vector for a
    transaction that waits for nobody, so the graph is threaded through the search.

    The search recurses on transactions that were not visited; its fuel is the number of
    transactions in the graph plus one, and the theorem shows that it is enough.  The order
    in which [detectDeadlock] meets the entries of the [unordered_map] is an argument. *)
From S2P Require Import Prelude.
Local Open Scope nat_scope.

Record DeadlockDetector := { graph : gmap Z (list Z) }.

Definition DeadlockDetector_make : DeadlockDetector := {| graph := ∅ |}.

(** [graph[txn]] *)
Definition waits_for (g : gmap Z (list Z)) (txn : Z) : list Z := default [] (g !! txn).

Definition touch (g : gmap Z (list Z)) (txn : Z) : gmap Z (list Z) := <[txn := waits_for g txn]> g.

Definition addDependency (d : DeadlockDetector) (waitingTxn holdingTxn : Z) : DeadlockDetector :=
  {| graph := <[waitingTxn := waits_for (graph d) waitingTxn ++ [holdingTxn]]> (graph d) |}.

(** The state of a search: the graph, [visited] and [rec_stack]. *)
Record Search := { s_graph : gmap Z (list Z); visited : gset Z; rec_stack : gset Z }.

(** The loop of [isCycle] over the transactions [txn] waits for; [isCycle'] is the
    recursive call. *)
Fixpoint isCycle_loop (isCycle' : Z → Search → option (bool * Search)) (nexts : list Z) (s : Search)
    : option (bool * Search) :=
  match nexts with
  | [] => Some (false, s)
  | next :: nexts =>
      '(b, s) ← (if decide (next ∈ visited s) then Some (false, s) else isCycle' next s);
      if b : bool then Some (true, s)
      else if bool_decide (next ∈ visited s) && bool_decide (next ∈ rec_stack s) then Some (true, s)
      else isCycle_loop isCycle' nexts s
  end.

Fixpoint isCycle (fuel : nat) (txn : Z) (s : Search) : option (bool * Search) :=
  match fuel with
  | 0 => None
  | S fuel =>
      let s := {| s_graph := touch (s_graph s) txn; visited := {[txn]} ∪ visited s; rec_stack := {[txn]} ∪ rec_stack s |} in
      '(b, s) ← isCycle_loop (isCycle fuel) (waits_for (s_graph s) txn) s;
      if b : bool then Some (true, s)
      else Some (false, {| s_graph := s_graph s; visited := visited s; rec_stack := rec_stack s ∖ {[txn]} |})
  end.

(** The transactions of a graph. *)
Definition txns (g : gmap Z (list Z)) : gset Z := dom g ∪ list_to_set (concat (map_to_list g).*2).

(** The loop of [detectDeadlock] over the entries, in the order they are met. *)
Fixpoint detect_loop (fuel : nat) (order : list Z) (s : Search) : option (bool * Search) :=
  match order with
  | [] => Some (false, s)
  | txn :: order =>
      '(b, s) ← (if decide (txn ∈ visited s) then Some (false, s) else isCycle fuel txn s);
      if b : bool then Some (true, s) else detect_loop fuel order s
  end.

Definition detectDeadlock (d : DeadlockDetector) (order : list Z) : option (bool * DeadlockDetector) :=
  '(b, s) ← detect_loop (S (size (txns (graph d)))) order {| s_graph := graph d; visited := ∅; rec_stack := ∅ |};
  Some (b, {| graph := s_graph s |}).

(** ** The wait-for relation *)

Definition waits (g : gmap Z (list Z)) (t u : Z) : Prop := u ∈ waits_for g t.

(** Transactions that wait for one another in a circle. *)
Definition deadlocked (g : gmap Z (list Z)) : Prop := ∃ t, tc (waits g) t t.

Lemma waits_for_touch g t u : waits_for (touch g t) u = waits_for g u.
Proof.
  unfold touch, waits_for. destruct (decide (u = t)) as [->|?]; [by rewrite lookup_insert_eq|by rewrite lookup_insert_ne].
Qed.

Lemma waits_txns g t u : waits g t u → t ∈ txns g ∧ u ∈ txns g.
Proof.
  unfold waits, waits_for, txns. destruct (g !! t) as [us|] eqn:E; simpl; [|intros ?%not_elem_of_nil; done].
  intros Hu. split; [apply elem_of_union_l; apply elem_of_dom; eauto|]. apply elem_of_union_r, elem_of_list_to_set.
  apply list_elem_of_In, in_concat. exists us. split; [|by apply list_elem_of_In].
  apply list_elem_of_In, list_elem_of_fmap. exists (t, us). split; [done|]. by apply elem_of_map_to_list.
Qed.

Section search.
Context (E : relation Z) (U : gset Z) (EU : ∀ t u, E t u → u ∈ U).

(** Finished transactions: nothing reachable from them is unfinished or on a cycle. *)
Definition finished (B : gset Z) : Prop := (∀ t u, t ∈ B → E t u → u ∈ B) ∧ (∀ t, t ∈ B → ¬ tc E t t).

Lemma finished_reach B t u : finished B → t ∈ B → tc E t u → u ∈ B.
Proof. intros [Hc _] Ht Htc. induction Htc; eauto. Qed.

(** A transaction all of whose successors are finished can be finished too. *)
Lemma finished_add B t : finished B → t ∉ B → (∀ u, E t u → u ∈ B) → finished ({[t]} ∪ B).
Proof.
  intros HB Ht Hs. split.
  - intros x u [->%elem_of_singleton|Hx]%elem_of_union Hu; apply elem_of_union_r; [auto|]. by apply (proj1 HB x).
  - intros x [->%elem_of_singleton|Hx]%elem_of_union Hcyc; [|by apply (proj2 HB x)].
    apply Ht. inversion Hcyc as [? ? Hxx|? y ? Hxy Hyx]; subst; [auto|]. apply (finished_reach B y); auto.
Qed.

(** What holds when [isCycle] is called on [txn]: what is visited and not on the stack is
    finished, and everything on the stack reaches [txn]. *)
Record searching (s : Search) (txn : Z) : Prop := {
  s_edges : ∀ t u, waits (s_graph s) t u ↔ E t u;
  s_stack : rec_stack s ⊆ visited s;
  s_univ : visited s ⊆ U;
  s_done : finished (visited s ∖ rec_stack s);
  s_path : ∀ r, r ∈ rec_stack s → rtc E r txn
}.

(** What a search that found nothing has done. *)
Record searched (s s' : Search) : Prop := {
  d_edges : ∀ t u, waits (s_graph s') t u ↔ E t u;
  d_stack : rec_stack s' = rec_stack s;
  d_grow : visited s ⊆ visited s';
  d_univ : visited s' ⊆ U;
  d_done : finished (visited s' ∖ rec_stack s')
}.

(** A call on a transaction that was not visited returns; it found a cycle, or the
    transaction is finished. *)
Definition correct_call (n : nat) (isCycle' : Z → Search → option (bool * Search)) : Prop :=
  ∀ txn s, searching s txn → txn ∈ U → txn ∉ visited s → size (U ∖ visited s) ≤ n →
  ∃ b s', isCycle' txn s = Some (b, s') ∧
    if b : bool then ∃ t, tc E t t else searched s s' ∧ txn ∈ visited s'.

Lemma searched_refl s txn : searching s txn → searched s s.
Proof. by intros [? ? ? ? ?]. Qed.

Lemma searched_trans s1 s2 s3 : searched s1 s2 → searched s2 s3 → searched s1 s3.
Proof. intros [? E1 ? ? ?] [? E2 ? ? ?]. split; try done; [congruence|set_solver]. Qed.

Lemma searching_searched s s' txn : searching s txn → searched s s' → searching s' txn.
Proof. intros [? ? ? ? Hp] [? E1 ? ? ?]. split; try done; [rewrite E1; set_solver|]. rewrite E1. done. Qed.

(** The loop, on the successors of [txn] that are left. *)
Lemma isCycle_loop_correct n rec txn nexts s :
  correct_call n rec → searching s txn → txn ∈ rec_stack s → size (U ∖ visited s) ≤ n →
  (∀ u, u ∈ nexts → E txn u) →
  ∃ b s', isCycle_loop rec nexts s = Some (b, s') ∧
    if b : bool then ∃ t, tc E t t
    else searched s s' ∧ ∀ u, u ∈ nexts → u ∈ visited s' ∖ rec_stack s'.
Proof.
  intros Hrec. revert s. induction nexts as [|u nexts IH]; intros s Hs Ht Hn He.
  - exists false, s. split; [done|]. split; [by eapply searched_refl|]. intros u ?%not_elem_of_nil. done.
  - cbn [isCycle_loop]. assert (E txn u) as Hu by (apply He; by left).
    assert (∃ b s1, (if decide (u ∈ visited s) then Some (false, s) else rec u s) = Some (b, s1) ∧
      if b : bool then ∃ t, tc E t t else searched s s1 ∧ u ∈ visited s1) as (b & s1 & -> & Hb).
    { case_decide as Hv; [exists false, s; split_and!; [done|by eapply searched_refl|done]|].
      apply Hrec; [|by apply (EU txn)|done|done]. destruct Hs as [? ? ? ? Hp]. split; try done.
      intros r Hr. eapply rtc_r; [by apply Hp|done]. }
    cbn [mbind option_bind]. destruct b; [eauto|]. destruct Hb as [Hs1 Hv1]. rewrite bool_decide_true by done. simpl.
    case_bool_decide as Hr.
    + exists true, s1. split; [done|]. exists txn. rewrite (d_stack _ _ Hs1) in Hr. eapply tc_rtc_r; [by apply tc_once|].
      by apply (s_path _ _ Hs).
    + destruct (IH s1) as (b & s2 & -> & Hb); [by eapply searching_searched| | | |].
      * by rewrite (d_stack _ _ Hs1).
      * etrans; [|exact Hn]. apply subseteq_size. pose proof (d_grow _ _ Hs1). set_solver.
      * intros w Hw. apply He. by right.
      * exists b, s2. split; [done|]. destruct b; [done|]. destruct Hb as [Hs2 Hw]. split; [by eapply searched_trans|].
        intros w [->|?]%elem_of_cons; [|auto]. rewrite (d_stack _ _ Hs2). pose proof (d_grow _ _ Hs2). set_solver.
Qed.

Lemma isCycle_correct n : correct_call n (isCycle n).
Proof.
  induction n as [|n IH]; intros txn s Hs HU Hv Hn.
  - exfalso. apply Hv. destruct (decide (txn ∈ visited s)); [done|]. exfalso.
    assert (txn ∈ U ∖ visited s) as Hin by set_solver. assert (size (U ∖ visited s) = 0) as E0%size_empty_inv by lia. set_solver.
  - cbn [isCycle]. set (s1 := {| s_graph := touch (s_graph s) txn; visited := {[txn]} ∪ visited s;
                                 rec_stack := {[txn]} ∪ rec_stack s |}).
    destruct Hs as [He Hst Hu Hd Hp].
    assert ((visited s1 ∖ rec_stack s1) = visited s ∖ rec_stack s) as Hblack by (apply leibniz_equiv; set_solver).
    assert (searching s1 txn) as Hs1.
    { split; [|simpl; set_solver|simpl; set_solver|by rewrite Hblack|].
      - intros t u. unfold waits. simpl. rewrite waits_for_touch. apply He.
      - intros r [->%elem_of_singleton|Hr]%elem_of_union; [done|by apply Hp]. }
    destruct (isCycle_loop_correct n (isCycle n) txn (waits_for (s_graph s1) txn) s1 IH Hs1) as (b & s2 & -> & Hb).
    + simpl. set_solver.
    + simpl. assert (size ({[txn]} ∪ (U ∖ ({[txn]} ∪ visited s))) ≤ S n) as Hsz.
      { etrans; [|exact Hn]. apply subseteq_size. set_solver. }
      rewrite size_union, size_singleton in Hsz by set_solver. lia.
    + intros u Hu'. by apply (s_edges _ _ Hs1).
    + cbn [mbind option_bind]. destruct b; [eauto|]. destruct Hb as [[De Ds Dg Du Dd] Hfin].
      eexists false, _. split; [done|]. simpl in *.
      assert (rec_stack s2 ∖ {[txn]} = rec_stack s) as Erec by (rewrite Ds; apply leibniz_equiv; set_solver).
      split; [|set_solver]. split; simpl; [done|done|set_solver|done|]. rewrite Erec.
      assert (visited s2 ∖ rec_stack s = {[txn]} ∪ (visited s2 ∖ rec_stack s2)) as ->.
      { rewrite Ds. apply leibniz_equiv. intros x. rewrite !elem_of_union, !elem_of_difference, elem_of_union, !elem_of_singleton.
        destruct (decide (x = txn)) as [->|?]; set_solver. }
      apply finished_add; [done|set_solver|]. intros u Hu'. apply Hfin. by apply (s_edges _ _ Hs1).
Qed.

(** A fresh search, for the outer loop. *)
Record idle (s : Search) : Prop := {
  i_edges : ∀ t u, waits (s_graph s) t u ↔ E t u;
  i_stack : rec_stack s = ∅;
  i_univ : visited s ⊆ U;
  i_done : finished (visited s)
}.

Lemma detect_loop_correct order s :
  idle s → (∀ t, t ∈ order → t ∈ U) →
  ∃ b s', detect_loop (S (size U)) order s = Some (b, s') ∧
    if b : bool then ∃ t, tc E t t else idle s' ∧ visited s ⊆ visited s' ∧ ∀ t, t ∈ order → t ∈ visited s'.
Proof.
  revert s. induction order as [|t order IH]; intros s Hs Ho; cbn [detect_loop].
  - exists false, s. split_and!; [done|done|done|]. intros t ?%not_elem_of_nil. done.
  - assert (∃ b s1, (if decide (t ∈ visited s) then Some (false, s) else isCycle (S (size U)) t s) = Some (b, s1) ∧
      if b : bool then ∃ t, tc E t t else idle s1 ∧ visited s ⊆ visited s1 ∧ t ∈ visited s1) as (b & s1 & -> & Hb).
    { case_decide as Hv; [by exists false, s|]. destruct Hs as [Ie Is Iu Id].
      destruct (isCycle_correct (S (size U)) t s) as (b & s1 & -> & Hb).
      - split; [done|set_solver|done| |]; rewrite Is; [|set_solver].
        assert (visited s ∖ ∅ = visited s) as -> by (apply leibniz_equiv; set_solver). done.
      - apply Ho. by left.
      - done.
      - etrans; [apply subseteq_size, subseteq_difference_l; reflexivity|]. lia.
      - exists b, s1. split; [done|]. destruct b; [done|]. destruct Hb as [[De Ds Dg Du Dd] Ht].
        split_and!; [|done|done]. rewrite Ds, Is in Dd.
        assert (visited s1 ∖ ∅ = visited s1) as E1 by (apply leibniz_equiv; set_solver). rewrite E1 in Dd.
        split; [done|congruence|done|done]. }
    cbn [mbind option_bind]. destruct b; [eauto|]. destruct Hb as (Hs1 & Hg1 & Ht1).
    destruct (IH s1 Hs1) as (b & s2 & -> & Hb); [intros; apply Ho; by right|].
    exists b, s2. split; [done|]. destruct b; [done|]. destruct Hb as (Hs2 & Hg2 & Hv2). split_and!; [done|set_solver|].
    intros w [->|?]%elem_of_cons; [set_solver|auto].
Qed.
End search.


(** The example of the source: 1 waits for 2, 2 for 3, 3 for 1. *)
Definition circle : DeadlockDetector :=
  addDependency (addDependency (addDependency DeadlockDetector_make 1 2) 2 3) 3 1.


Example circle_detected : fst <$> detectDeadlock circle [1; 2; 3]%Z = Some true.
Proof. vm_compute. reflexivity. Qed.

(** The search inserts entries into the map that [detectDeadlock] iterates over. *)
Example search_inserts_entries :
  (λ r, dom (graph r.2)) <$> detectDeadlock (addDependency DeadlockDetector_make 1 2) [1%Z] = Some ({[1; 2]}%Z).
Proof. vm_compute. reflexivity. Qed.
