(* ===== verification/Hashing.v ===== *)
(** * Structures built on a hash function

    [src/storage/BloomFilter.cpp] and [src/distributed/ConsistentHashing.cpp].
    [std::hash<string>] is a parameter, an arbitrary function to [size_t]; the theorems hold
    for every one, collisions included. *)
From S2P Require Import Prelude.
Local Open Scope Z_scope.

Section hashing.
Context (hash : string → Z).

(** ** The Bloom filter *)

Definition SIZE : Z := 1000.

Record BloomFilter := { bits : list bool }.

Definition BloomFilter_make : BloomFilter := {| bits := replicate (Z.to_nat SIZE) false |}.

(** The positions [h1] and [h2] of a key. *)
Definition h1 (key : string) : Z := hash key mod SIZE.
Definition h2 (key : string) : Z := hash (key +:+ "salt") mod SIZE.

(** [bits.set(h)] and [bits.test(h)] throw out of range. *)
Definition bloom_insert (f : BloomFilter) (key : string) : option BloomFilter :=
  b ← vset (bits f) (h1 key) true; b ← vset b (h2 key) true; Some {| bits := b |}.

Definition possibly_contains (f : BloomFilter) (key : string) : option bool :=
  b1 ← vget (bits f) (h1 key);
  if b1 : bool then vget (bits f) (h2 key) else Some false.

Definition bloom_inv (keys : list string) (f : BloomFilter) : Prop :=
  length (bits f) = Z.to_nat SIZE ∧
  ∀ i, 0 ≤ i < SIZE →
    vget (bits f) i = Some (bool_decide (Exists (λ k, h1 k = i ∨ h2 k = i) keys)).

Lemma h1_range k : 0 ≤ h1 k < SIZE.
Proof. unfold h1. apply Z.mod_pos_bound. done. Qed.

Lemma h2_range k : 0 ≤ h2 k < SIZE.
Proof. unfold h2. apply Z.mod_pos_bound. done. Qed.

Lemma vset_in {A} (l : list A) i x :
  0 ≤ i < length l →
  ∃ l', vset l i x = Some l' ∧ length l' = length l ∧ ∀ j, 0 ≤ j → vget l' j = if decide (j = i) then Some x else vget l j.
Proof.
  intros Hi. unfold vset. rewrite decide_True by done. eexists. split_and!; [done|by rewrite length_insert|].
  intros j Hj. unfold vget. destruct (Z.ltb_spec j 0); [lia|]. destruct (decide (j = i)) as [->|?].
  - rewrite list_lookup_insert_eq; [done|lia].
  - rewrite list_lookup_insert_ne; [done|lia].
Qed.

Lemma bloom_insert_inv keys f k : bloom_inv keys f → ∃ f', bloom_insert f k = Some f' ∧ bloom_inv (keys ++ [k]) f'.
Proof.
  intros [Hl Hb]. pose proof (h1_range k) as H1. pose proof (h2_range k) as H2. unfold bloom_insert.
  destruct (vset_in (bits f) (h1 k) true) as (b1 & -> & Hl1 & Hg1); [unfold SIZE in *; lia|]. cbn [mbind option_bind].
  destruct (vset_in b1 (h2 k) true) as (b2 & -> & Hl2 & Hg2); [unfold SIZE in *; lia|]. cbn [mbind option_bind].
  eexists. split; [done|]. split; simpl; [lia|]. intros i Hi. rewrite Hg2, Hg1, Hb by lia.
  assert (Exists (λ k, h1 k = i ∨ h2 k = i) (keys ++ [k]) ↔
    Exists (λ k, h1 k = i ∨ h2 k = i) keys ∨ h1 k = i ∨ h2 k = i) as Hiff
    by (rewrite Exists_app, Exists_cons, Exists_nil; tauto).
  case_decide; [|case_decide]; subst; f_equal; [symmetry; apply bool_decide_eq_true; rewrite Hiff; auto..|].
  apply bool_decide_ext. rewrite Hiff. naive_solver.
Qed.

Lemma bloom_run keys : ∃ f, run_ops bloom_insert BloomFilter_make keys = Some f ∧ bloom_inv keys f.
Proof.
  induction keys as [|k keys IH] using rev_ind.
  - exists BloomFilter_make. split; [done|]. split; [done|]. intros i Hi. rewrite bool_decide_false by (by intros ?%Exists_nil).
    unfold vget, BloomFilter_make. destruct (Z.ltb_spec i 0); [lia|]. apply lookup_replicate. split; [done|]. simpl bits. lia.
  - destruct IH as (f & Hr & Hf). destruct (bloom_insert_inv keys f k Hf) as (f' & Hs & Hf'). exists f'.
    rewrite run_ops_app, Hr. simpl. by rewrite Hs.
Qed.

(** The Bloom filter answers exactly: after any insertions no position is out of
    range, and [possibly_contains] is true if and only if both positions of the key were
    set by inserted keys.  In particular an inserted key is always found. *)
Theorem bloom_filter_exact (keys : list string) (k : string) :
  ∃ f b, run_ops bloom_insert BloomFilter_make keys = Some f ∧ possibly_contains f k = Some b ∧
    (b = true ↔ (∃ x, x ∈ keys ∧ (h1 x = h1 k ∨ h2 x = h1 k)) ∧ (∃ x, x ∈ keys ∧ (h1 x = h2 k ∨ h2 x = h2 k))) ∧
    (k ∈ keys → b = true).
Proof.
  destruct (bloom_run keys) as (f & Hr & Hl & Hb). exists f. unfold possibly_contains.
  rewrite !Hb by (apply h1_range || apply h2_range). simpl. pose proof (h1_range k). pose proof (h2_range k).
  case_bool_decide as E1; rewrite Exists_exists in E1; eexists; (split_and!; [done|reflexivity| |]).
  - rewrite bool_decide_eq_true, Exists_exists. tauto.
  - intros Hk. apply bool_decide_eq_true, Exists_exists. exists k. auto.
  - split; [done|]. tauto.
  - intros Hk. destruct E1. exists k. auto.
Qed.

(** ** Consistent hashing *)

Definition VIRTUAL_NODE : nat := 3.

(** [map<size_t, string>]: positions on the ring. *)
Record ConsistentHashing := { ring : gmap Z string }.

Definition ConsistentHashing_make : ConsistentHashing := {| ring := ∅ |}.

(** [node + "#" + to_string(i)] *)
Definition vnode (node : string) (i : nat) : string := node +:+ "#" +:+ pretty i.

Fixpoint addNode_loop (r : gmap Z string) (node : string) (js : list nat) : gmap Z string :=
  match js with [] => r | i :: js => addNode_loop (<[hash (vnode node i) := node]> r) node js end.

Definition addNode (c : ConsistentHashing) (node : string) : ConsistentHashing :=
  {| ring := addNode_loop (ring c) node (seq 0 VIRTUAL_NODE) |}.

(** The entries of the map in order; [lower_bound] and [begin]. *)
Definition positions (r : gmap Z string) : list (Z * string) := map_sorted (V := string) Z.le r.

Definition lower_bound (r : gmap Z string) (h : Z) : option (Z * string) := head (filter (λ p, h ≤ p.1) (positions r)).

(** [getNode]: dereferencing [begin()] of an empty map is undefined. *)
Definition getNode (c : ConsistentHashing) (user : string) : option string :=
  match lower_bound (ring c) (hash user) with
  | Some p => Some p.2
  | None => p ← head (positions (ring c)); Some p.2
  end.

(** [p] is the first position clockwise from [h]. *)
Definition clockwise (r : gmap Z string) (h p : Z) : Prop :=
  p ∈ dom r ∧
  ((h ≤ p ∧ ∀ q, q ∈ dom r → h ≤ q → p ≤ q) ∨ ((∀ q, q ∈ dom r → q < h) ∧ ∀ q, q ∈ dom r → p ≤ q)).

Lemma clockwise_unique r h p q : clockwise r h p → clockwise r h q → p = q.
Proof.
  intros [Hp [[Hhp Hp']|[Hp1 Hp2]]] [Hq [[Hhq Hq']|[Hq1 Hq2]]].
  - specialize (Hp' q Hq Hhq). specialize (Hq' p Hp Hhp). lia.
  - specialize (Hq1 p Hp). lia.
  - specialize (Hp1 q Hq). lia.
  - specialize (Hp2 q Hq). specialize (Hq2 p Hp). lia.
Qed.

Lemma elem_of_positions r p n : (p, n) ∈ positions r ↔ r !! p = Some n.
Proof. apply elem_of_map_sorted. Qed.

Lemma sorted_head {A} (R : relation A) (l : list A) x y : StronglySorted R l → head l = Some x → y ∈ l → y = x ∨ R x y.
Proof.
  intros Hs Hh Hy. destruct l as [|z l]; [done|]. simpl in Hh. simplify_eq. apply StronglySorted_inv in Hs as [_ Hf].
  apply elem_of_cons in Hy as [->|Hy]; [by left|right]. rewrite Forall_forall in Hf. auto.
Qed.

Lemma rel_sorted_filter {A} (R : relation A) (P : A → Prop) `{∀ x, Decision (P x)} l :
  StronglySorted R l → StronglySorted R (filter P l).
Proof.
  induction 1 as [|x l Hs IH Hf]; [constructor|]. rewrite filter_cons. case_decide; [|done]. constructor; [done|].
  apply Forall_forall. intros y [_ Hy]%list_elem_of_filter. rewrite Forall_forall in Hf. auto.
Qed.

Lemma getNode_clockwise c user node :
  getNode c user = Some node ↔ ∃ p, clockwise (ring c) (hash user) p ∧ ring c !! p = Some node.
Proof.
  assert (∀ n, getNode c user = Some n → ∃ p, clockwise (ring c) (hash user) p ∧ ring c !! p = Some n) as Hfwd.
  { intros n Hn. unfold getNode, lower_bound in Hn. pose proof (map_sorted_sorted (V := string) Z.le (ring c)) as Hs.
    fold (positions (ring c)) in Hs. destruct (head (filter _ (positions (ring c)))) as [[p m]|] eqn:E.
    - simpl in Hn. simplify_eq. pose proof (rel_sorted_filter _ (λ p, hash user ≤ p.1) _ Hs) as Hs'.
      assert ((p, n) ∈ filter (λ p, hash user ≤ p.1) (positions (ring c))) as [Hle Hin]%list_elem_of_filter
        by (by apply head_Some_elem_of).
      apply elem_of_positions in Hin. exists p. split; [|done]. split; [by apply elem_of_dom_2 in Hin|]. left. split; [done|].
      intros q [m Hq]%elem_of_dom Hh. apply elem_of_positions in Hq.
      destruct (sorted_head _ _ _ (q, m) Hs' E) as [?|Hle']; [by apply list_elem_of_filter|by simplify_eq|done].
    - destruct (head (positions (ring c))) as [[p m]|] eqn:E'; simplify_option_eq.
      assert (ring c !! p = Some n) as Hin by (apply elem_of_positions; by apply head_Some_elem_of).
      exists p. split; [|done]. split; [by apply elem_of_dom_2 in Hin|]. right.
      apply head_None in E. split; intros q [m Hq]%elem_of_dom; apply elem_of_positions in Hq.
      + destruct (decide (hash user ≤ q)) as [Hle|?]; [|lia]. exfalso.
        apply (not_elem_of_nil (q, m)). rewrite <-E. by apply list_elem_of_filter.
      + destruct (sorted_head _ _ _ (q, m) Hs E') as [?|Hle']; [done|by simplify_eq|done]. }
  split; [auto|]. intros (p & Hp & Hn). destruct (getNode c user) as [m|] eqn:E.
  - destruct (Hfwd m eq_refl) as (q & Hq & Hm). pose proof (clockwise_unique _ _ _ _ Hp Hq). congruence.
  - exfalso. unfold getNode in E. destruct (lower_bound _ _); [done|]. destruct (head (positions (ring c))) eqn:E'; [done|].
    apply head_None in E'. apply (not_elem_of_nil (p, node)). rewrite <-E'. by apply elem_of_positions.
Qed.

Lemma addNode_loop_lookup r node js p :
  addNode_loop r node js !! p = if decide (p ∈ (λ i, hash (vnode node i)) <$> js) then Some node else r !! p.
Proof.
  revert r. induction js as [|i js IH]; intros r; csimpl; [done|]. rewrite IH.
  destruct (decide (p ∈ (λ i, hash (vnode node i)) <$> js)); [rewrite decide_True by set_solver; done|].
  destruct (decide (p = hash (vnode node i))) as [->|?].
  - rewrite lookup_insert_eq, decide_True by set_solver. done.
  - rewrite lookup_insert_ne by done. rewrite decide_False by set_solver. done.
Qed.

Lemma getNode_defined c user : ring c ≠ ∅ → is_Some (getNode c user).
Proof.
  intros Hne. unfold getNode. destruct (lower_bound _ _); [simpl; eauto|].
  destruct (map_choose _ Hne) as (p & n & Hp). destruct (positions (ring c)) as [|x l] eqn:E; [|simpl; eauto].
  exfalso. apply (not_elem_of_nil (p, n)). rewrite <-E. by apply elem_of_positions.
Qed.

(** Consistent hashing moves as little as it can.  Whatever the hash function and
    the nodes on the ring, a user is served by the node at the first position clockwise
    from the user's hash; and adding a node leaves every user where it was, except for the
    users it takes over itself. *)
Theorem consistent_hashing_minimal (c : ConsistentHashing) (node user : string) :
  ring c ≠ ∅ →
  ∃ before after, getNode c user = Some before ∧ getNode (addNode c node) user = Some after ∧
    (after = before ∨ after = node) ∧
    (∃ p, clockwise (ring c) (hash user) p ∧ ring c !! p = Some before).
Proof.
  intros Hne. destruct (getNode_defined c user Hne) as [b Hb].
  assert (ring (addNode c node) ≠ ∅) as Hne'.
  { intros E. assert (ring (addNode c node) !! hash (vnode node 0) = Some node) as Hx.
    - unfold addNode. cbn [ring]. rewrite addNode_loop_lookup. rewrite decide_True; [done|]. left.
    - by rewrite E in Hx. }
  destruct (getNode_defined _ user Hne') as [a Ha]. exists b, a. split_and!; [done|done| |by apply getNode_clockwise].
  apply getNode_clockwise in Ha as (p & [Hdom Hcw] & Hp). unfold addNode in Hp. cbn [ring] in Hp. rewrite addNode_loop_lookup in Hp.
  case_decide as Hnew; [right; congruence|left].
  assert (getNode c user = Some a) as E; [|congruence]. apply getNode_clockwise. exists p. split; [|done].
  assert (∀ q, q ∈ dom (ring c) → q ∈ dom (ring (addNode c node))) as Hsub.
  { intros q [m Hq]%elem_of_dom. apply elem_of_dom. unfold addNode. cbn [ring]. rewrite addNode_loop_lookup. case_decide; eauto. }
  split; [by apply elem_of_dom_2 in Hp|]. destruct Hcw as [[? Hq]|[Hq1 Hq2]]; [left|right]; auto.
Qed.
End hashing.

(** A hash with three nodes on the ring. *)
Definition length_hash (s : string) : Z := 7 * String.length s.

Lemma consistent_hashing_minimal_witness :
  ∃ before after, getNode length_hash (addNode length_hash ConsistentHashing_make "A") "user" = Some before ∧
    getNode length_hash (addNode length_hash (addNode length_hash ConsistentHashing_make "A") "Server") "user" = Some after ∧
    (after = before ∨ after = "Server"%string).
Proof.
  destruct (consistent_hashing_minimal length_hash (addNode length_hash ConsistentHashing_make "A") "Server" "user")
    as (b & a & Hb & Ha & Hor & _).
  - intros E. apply (f_equal size) in E. vm_compute in E. discriminate E.
  - exists b, a. exact (conj Hb (conj Ha Hor)).
Defined.

(** An empty ring: [begin()] is dereferenced. *)
Lemma empty_ring_undefined hash user : getNode hash ConsistentHashing_make user = None.
Proof. done. Qed.
