(* ===== verification/GarbageCollector.v ===== *)
(** * Reference-counting garbage collector

    [src/storage/GarbageCollector.cpp]: a table of objects with a reference count and a
    flag set when the count reaches zero; a collection deletes the flagged objects.  Every
    method holds the exclusive lock, so a method is one step.  Counts are [int]s, and their
    overflow is undefined ([None]). *)
From S2P Require Import Prelude.
Local Open Scope Z_scope.

Record Object := { object_id : Z; ref_count : Z; deleted : bool }.

Definition Object_make (object_id : Z) : Object := {| object_id := object_id; ref_count := 1; deleted := false |}.

(** The table owns its objects: nothing else keeps their addresses. *)
Record GCManager := { object_table : gmap Z Object }.

Definition GCManager_make : GCManager := {| object_table := ∅ |}.

Definition addObject (g : GCManager) (id : Z) : GCManager :=
  match object_table g !! id with
  | Some _ => g
  | None => {| object_table := <[id := Object_make id]> (object_table g) |}
  end.

Definition incrementRefCount (g : GCManager) (id : Z) : option GCManager :=
  match object_table g !! id with
  | None => Some g
  | Some o =>
      n ← (ref_count o +! 1)%cpp;
      Some {| object_table := <[id := {| object_id := object_id o; ref_count := n; deleted := deleted o |}]> (object_table g) |}
  end.

Definition decrementRefCount (g : GCManager) (id : Z) : option GCManager :=
  match object_table g !! id with
  | None => Some g
  | Some o =>
      n ← (ref_count o -! 1)%cpp;
      Some {| object_table := <[id := {| object_id := object_id o; ref_count := n;
                                         deleted := if decide (n = 0) then true else deleted o |}]> (object_table g) |}
  end.

(** [runGC]: the walk over the table, whose order does not matter, erases what is flagged. *)
Definition runGC (g : GCManager) : GCManager :=
  {| object_table := filter (λ x, deleted x.2 = false) (object_table g) |}.

Inductive gc_op := Add (id : Z) | Inc (id : Z) | Dec (id : Z) | Collect.

Definition gc_step (g : GCManager) (o : gc_op) : option GCManager :=
  match o with
  | Add id => Some (addObject g id)
  | Inc id => incrementRefCount g id
  | Dec id => decrementRefCount g id
  | Collect => Some (runGC g)
  end.

(** ** The references clients hold

    An object that is in the table has the references its clients counted; adding it is
    the first, and an object nobody refers to disappears at the next collection. *)
Definition held_step (h : gmap Z Z) (o : gc_op) : gmap Z Z :=
  match o with
  | Add id => match h !! id with Some _ => h | None => <[id := 1]> h end
  | Inc id => match h !! id with Some n => <[id := n + 1]> h | None => h end
  | Dec id => match h !! id with Some n => <[id := n - 1]> h | None => h end
  | Collect => filter (λ x, x.2 ≠ 0) h
  end.

Definition held (ops : list gc_op) : gmap Z Z := fold_left held_step ops ∅.

(** Clients only take or drop a reference to an object that someone refers to. *)
Definition disciplined_op (h : gmap Z Z) (o : gc_op) : Prop :=
  match o with Inc id | Dec id => h !! id ≠ Some 0 | _ => True end.

Fixpoint disciplined (h : gmap Z Z) (ops : list gc_op) : Prop :=
  match ops with [] => True | o :: ops => disciplined_op h o ∧ disciplined (held_step h o) ops end.

(** The table against the references held, after at most [n] operations. *)
Record gc_inv (n : Z) (h : gmap Z Z) (g : GCManager) : Prop := {
  gc_counts : ref_count <$> object_table g = h;
  gc_range : ∀ id c, h !! id = Some c → 0 ≤ c ≤ n;
  gc_flag : ∀ id o, object_table g !! id = Some o → deleted o = bool_decide (ref_count o = 0)
}.

Lemma gc_lookup n h g id : gc_inv n h g → h !! id = ref_count <$> object_table g !! id.
Proof. intros [<- _ _]. apply lookup_fmap. Qed.

(** A new or changed entry. *)
Lemma gc_insert n h g id o :
  gc_inv n h g → 0 ≤ ref_count o ≤ n + 1 → deleted o = bool_decide (ref_count o = 0) →
  gc_inv (n + 1) (<[id := ref_count o]> h) {| object_table := <[id := o]> (object_table g) |}.
Proof.
  intros [Hc Hr Hf] Ho Hd. split; simpl; [by rewrite fmap_insert, Hc| |].
  - intros i c [[<- <-]|[_ Hi]]%lookup_insert_Some; [done|]. specialize (Hr i c Hi). lia.
  - intros i x [[<- <-]|[_ Hi]]%lookup_insert_Some; [done|eauto].
Qed.

Lemma gc_weaken n h g : gc_inv n h g → gc_inv (n + 1) h g.
Proof. intros [Hc Hr Hf]. split; [done| |done]. intros i c Hi. specialize (Hr i c Hi). lia. Qed.

Lemma gc_collect n h g : gc_inv n h g → gc_inv n (filter (λ x, x.2 ≠ 0) h) (runGC g).
Proof.
  intros [Hc Hr Hf]. split; simpl.
  - rewrite <-Hc. apply map_eq. intros i. rewrite lookup_fmap. apply option_eq. intros c.
    rewrite fmap_Some, map_lookup_filter_Some, lookup_fmap, fmap_Some. setoid_rewrite map_lookup_filter_Some. simpl. split.
    + intros (x & [Hx Hdx] & ->). split; [eauto|]. rewrite (Hf i x Hx) in Hdx. by apply bool_decide_eq_false in Hdx.
    + intros ((x & Hx & ->) & Hne). exists x. split_and!; [done| |done]. rewrite (Hf i x Hx). by apply bool_decide_eq_false.
  - intros i c [Hi _]%map_lookup_filter_Some. specialize (Hr i c Hi). lia.
  - intros i x [Hi _]%map_lookup_filter_Some. eauto.
Qed.

Lemma gc_step_inv n h g o :
  gc_inv n h g → 0 ≤ n < INT_MAX → disciplined_op h o → ∃ g', gc_step g o = Some g' ∧ gc_inv (n + 1) (held_step h o) g'.
Proof.
  intros Hg Hn Hd. destruct o as [id|id|id|]; simpl in *.
  - eexists. split; [done|]. unfold addObject. rewrite (gc_lookup n h g id Hg).
    destruct (object_table g !! id); simpl; [by apply gc_weaken|].
    apply (gc_insert n h g id (Object_make id)); simpl; [done|lia|done].
  - unfold incrementRefCount. rewrite (gc_lookup n h g id Hg) in *. destruct (object_table g !! id) as [o|] eqn:E; simpl in *.
    2:{ eexists. split; [done|]. by apply gc_weaken. }
    pose proof (gc_range _ _ _ Hg id (ref_count o)) as Hr. rewrite (gc_lookup n h g id Hg), E in Hr. specialize (Hr eq_refl).
    rewrite checked_ok by int_bounds. simpl. eexists. split; [done|].
    apply (gc_insert n h g id {| object_id := object_id o; ref_count := ref_count o + 1; deleted := deleted o |});
      simpl; [done|lia|]. rewrite (gc_flag _ _ _ Hg id o E). apply bool_decide_ext.
    split; intros; [congruence|lia].
  - unfold decrementRefCount. rewrite (gc_lookup n h g id Hg) in *. destruct (object_table g !! id) as [o|] eqn:E; simpl in *.
    2:{ eexists. split; [done|]. by apply gc_weaken. }
    pose proof (gc_range _ _ _ Hg id (ref_count o)) as Hr. rewrite (gc_lookup n h g id Hg), E in Hr. specialize (Hr eq_refl).
    assert (ref_count o ≠ 0) by congruence. rewrite checked_ok by int_bounds. simpl. eexists. split; [done|].
    apply (gc_insert n h g id {| object_id := object_id o; ref_count := ref_count o - 1;
      deleted := if decide (ref_count o - 1 = 0) then true else deleted o |}); simpl; [done|lia|].
    case_decide; [by rewrite bool_decide_true|]. rewrite (gc_flag _ _ _ Hg id o E), !bool_decide_false by done. done.
  - eexists. split; [done|]. by apply gc_weaken, gc_collect.
Qed.

Lemma gc_run n h g ops :
  gc_inv n h g → 0 ≤ n → n + length ops ≤ INT_MAX → disciplined h ops →
  ∃ g', run_ops gc_step g ops = Some g' ∧ gc_inv (n + length ops) (fold_left held_step ops h) g'.
Proof.
  revert n h g. induction ops as [|o ops IH]; intros n h g Hg Hn Hlen Hd; simpl in *.
  - exists g. split; [done|]. by rewrite Z.add_0_r.
  - destruct Hd as [Ho Hd]. destruct (gc_step_inv n h g o Hg) as (g1 & -> & Hg1); [lia|done|]. simpl.
    destruct (IH (n + 1) _ g1 Hg1) as (g2 & Hr & Hg2); [lia|lia|done|]. exists g2. split; [done|].
    by replace (n + S (length ops)) with (n + 1 + length ops) by lia.
Qed.

(** The collector frees exactly what nobody refers to.  For clients that do not touch
    an object whose last reference is gone, after any history no count is wrong or
    overflows, and a collection keeps an object if and only if references to it are held,
    with their number. *)
Theorem gc_exact (ops : list gc_op) (id : Z) :
  disciplined ∅ ops → length ops ≤ INT_MAX →
  ∃ g, run_ops gc_step GCManager_make ops = Some g ∧
    ref_count <$> object_table (runGC g) !! id =
      match held ops !! id with Some c => if decide (c = 0) then None else Some c | None => None end.
Proof.
  intros Hd Hlen. destruct (gc_run 0 ∅ GCManager_make ops) as (g & Hr & Hg); [|lia|lia|done|].
  { split; [done|..]; simpl; intros ? ?; by rewrite lookup_empty. }
  exists g. split; [done|]. rewrite <-(gc_lookup _ _ _ id (gc_collect _ _ _ Hg)). fold (held ops).
  apply option_eq. intros c. rewrite map_lookup_filter_Some. simpl. destruct (held ops !! id) as [c'|]; [|naive_solver].
  case_decide; naive_solver.
Qed.

Definition gc_demo : list gc_op := [Add 1; Add 2; Inc 1; Dec 2; Dec 1; Collect; Add 2; Dec 2].

Lemma gc_exact_witness :
  disciplined ∅ gc_demo ∧
  ∃ g, run_ops gc_step GCManager_make gc_demo = Some g ∧ ref_count <$> object_table (runGC g) !! 1 = Some 1.
Proof.
  assert (disciplined ∅ gc_demo) as H by (repeat split; vm_compute; congruence).
  split; [exact H|]. destruct (gc_exact gc_demo 1 H) as (g & Hr & Hc); [vm_compute; congruence|].
  exists g. split; [exact Hr|]. rewrite Hc. vm_compute. reflexivity.
Defined.

(** Taking a reference to an object whose count has reached zero does not clear the flag:
    the collection then deletes an object that is referred to. *)
Lemma gc_resurrected_object :
  ∃ g, run_ops gc_step GCManager_make [Add 1; Dec 1; Inc 1] = Some g ∧
    ref_count <$> object_table g !! 1 = Some 1 ∧ object_table (runGC g) !! 1 = None.
Proof. eexists. split; [reflexivity|]. split; reflexivity. Qed.
