(* ===== verification/LoadBalancer.v ===== *)
(** * Load balancer

    [src/storage/LoadBalancer.cpp]: a vector of servers and a strategy that chooses the
    next one.  A strategy is an interface ([Strategy]); the balancer is written against it,
    and round robin and least connections implement it.  A [Server *] is the index of the
    server in the vector; an index out of range is undefined ([None]). *)
From S2P Require Import Prelude.
Local Open Scope nat_scope.

Record Server := { server_id : Z; num_connections : Z }.

Definition Server_make (id : Z) : Server := {| server_id := id; num_connections := 0 |}.

Definition connect (s : Server) : option Server :=
  n ← (num_connections s +! 1)%cpp; Some {| server_id := server_id s; num_connections := n |}.

Definition disconnect (s : Server) : option Server :=
  n ← (num_connections s -! 1)%cpp; Some {| server_id := server_id s; num_connections := n |}.

(** [class Strategy]: the outer [None] is undefined behaviour, the inner one [nullptr]. *)
Class Strategy (S : Type) := nextServer : S → list Server → option (S * option nat).

(** *** [RoundRobin] *)

Record RoundRobin := { next_server_id : Z }.

Definition RoundRobin_make : RoundRobin := {| next_server_id := 0 |}.

#[export] Instance RoundRobin_nextServer : Strategy RoundRobin := λ r servers,
  if decide (servers = []) then Some (r, None)
  else
    _ ← vget servers (next_server_id r);
    n ← (next_server_id r +! 1)%cpp;
    Some ({| next_server_id := int32 (to_size_t n mod length servers) |}, Some (Z.to_nat (next_server_id r))).

(** *** [LeastConnection] *)

Inductive LeastConnection := LeastConnection_make.

(** The loop: [best] is the index of the best server so far, [i] of the current one. *)
Fixpoint least_loop (servers : list Server) (i best : nat) (best_count : Z) : nat :=
  match servers with
  | [] => best
  | s :: servers =>
      if (num_connections s <? best_count)%Z then least_loop servers (S i) i (num_connections s)
      else least_loop servers (S i) best best_count
  end.

#[export] Instance LeastConnection_nextServer : Strategy LeastConnection := λ l servers,
  match servers with
  | [] => Some (l, None)
  | s :: _ => Some (l, Some (least_loop servers 0 0 (num_connections s)))
  end.

(** *** [LoadBalancer] *)

Section balancer.
Context {S : Type} `{!Strategy S}.

Record LoadBalancer := { strategy : S; servers : list Server }.

Definition LoadBalancer_make (strategy : S) : LoadBalancer := {| strategy := strategy; servers := [] |}.

Definition addServer (b : LoadBalancer) (id : Z) : LoadBalancer :=
  {| strategy := strategy b; servers := servers b ++ [Server_make id] |}.

Definition getNextServer (b : LoadBalancer) : option (LoadBalancer * option nat) :=
  '(s, r) ← nextServer (strategy b) (servers b); Some ({| strategy := s; servers := servers b |}, r).

Definition removeServer (b : LoadBalancer) (id : Z) : LoadBalancer :=
  {| strategy := strategy b; servers := filter (λ s, server_id s ≠ id) (servers b) |}.

(** A request as [main] serves it: the next server gets a connection. *)
Definition serve (b : LoadBalancer) (_ : unit) : option LoadBalancer :=
  '(b, r) ← getNextServer b;
  match r with
  | None => Some b
  | Some i => s ← servers b !! i; s ← connect s; Some {| strategy := strategy b; servers := <[i := s]> (servers b) |}
  end.
End balancer.
Arguments LoadBalancer : clear implicits.

(** ** Balance *)

(** Every server has [c] connections, or one more. *)
Definition balanced (c : Z) (l : list Server) : Prop :=
  Forall (λ s, num_connections s = c ∨ num_connections s = c + 1)%Z l.

(** What a strategy promises the balancer: an invariant of its state and the servers that
    holds at the start, such that it answers a server of the vector and a connection to
    that server keeps the invariant; the connections [c n] of the least loaded server after
    [n] requests are given, and all loads are within one of it. *)
Class BalancedStrategy (S : Type) `{!Strategy S} := {
  fair : nat → S → list Server → Prop;
  fair_balanced n s l : fair n s l → l ≠ [] → balanced (n / length l)%nat l;
  fair_next n s l :
    fair n s l → l ≠ [] → (n + 1 < INT_MAX)%Z → (length l ≤ INT_MAX)%Z →
    ∃ s' i x, nextServer s l = Some (s', Some i) ∧ l !! i = Some x ∧
      fair (Datatypes.S n) s' (<[i := {| server_id := server_id x; num_connections := num_connections x + 1 |}]> l)
}.

Section balance.
Context {S : Type} `{!Strategy S} `{!BalancedStrategy S}.

Lemma serve_fair n (b : LoadBalancer S) :
  fair n (strategy b) (servers b) → servers b ≠ [] → (n + 1 < INT_MAX)%Z → (length (servers b) ≤ INT_MAX)%Z →
  ∃ b', serve b () = Some b' ∧ fair (Datatypes.S n) (strategy b') (servers b') ∧ length (servers b') = length (servers b).
Proof.
  intros Hf Hne Hn Hl. destruct (fair_next n _ _ Hf Hne Hn Hl) as (s' & i & x & Hnext & Hi & Hf').
  unfold serve, getNextServer. rewrite Hnext. cbn [mbind option_bind]. cbn [servers strategy]. rewrite Hi. cbn [mbind option_bind].
  pose proof (fair_balanced n _ _ Hf Hne) as Hb. unfold balanced in Hb. rewrite Forall_forall in Hb.
  specialize (Hb x (list_elem_of_lookup_2 _ _ _ Hi)).
  assert (n / length (servers b) ≤ n)%nat by (apply Nat.Div0.div_le_upper_bound; destruct (servers b); [done|simpl; lia]).
  cbn beta in Hb. unfold connect. rewrite (checked_ok (num_connections x + 1)) by int_bounds. cbn [mbind option_bind].
  eexists. split; [done|]. cbn [servers strategy].
  split; [done|by rewrite length_insert].
Qed.

Lemma serve_run (n m : nat) (b : LoadBalancer S) :
  fair m (strategy b) (servers b) → servers b ≠ [] → (m + n < INT_MAX)%Z → (length (servers b) ≤ INT_MAX)%Z →
  ∃ b', run_ops serve b (replicate n ()) = Some b' ∧ fair (m + n) (strategy b') (servers b') ∧
    length (servers b') = length (servers b).
Proof.
  revert m b. induction n as [|n IH]; intros m b Hf Hne Hn Hl; simpl.
  - exists b. rewrite Nat.add_0_r. done.
  - destruct (serve_fair m b Hf Hne) as (b1 & -> & Hf1 & Hl1); [lia|done|]. simpl.
    destruct (IH (Datatypes.S m) b1 Hf1) as (b2 & Hr & Hf2 & Hl2); [|lia|lia|].
    + intros E. rewrite E in Hl1. by destruct (servers b).
    + exists b2. replace (m + Datatypes.S n) with (Datatypes.S m + n) by lia. split_and!; [done|done|congruence].
Qed.
End balance.

(** *** Round robin: the servers before the next one have one connection more *)

Definition rr_fair (n : nat) (r : RoundRobin) (l : list Server) : Prop :=
  l ≠ [] → next_server_id r = (n mod length l)%nat ∧
    ∀ i x, l !! i = Some x → num_connections x = (n / length l + if decide (i < n mod length l) then 1 else 0)%nat.

Lemma div_mod_succ n k :
  0 < k → (S n mod k = S (n mod k) ∧ S n / k = n / k ∧ S (n mod k) < k) ∨ (S n mod k = 0 ∧ S n / k = S (n / k) ∧ S (n mod k) = k).
Proof.
  intros Hk. pose proof (Nat.mod_upper_bound n k ltac:(lia)). pose proof (Nat.div_mod_eq n k).
  destruct (decide (S (n mod k) = k)) as [E|E].
  - right. split_and!; [|symmetry; apply (Nat.div_unique _ _ _ 0); nia|done]. symmetry. apply (Nat.mod_unique _ _ (S (n / k))); nia.
  - left. split_and!; [symmetry; apply (Nat.mod_unique _ _ (n / k)); nia|symmetry; apply (Nat.div_unique _ _ _ (S (n mod k))); nia|lia].
Qed.

Lemma length_pos {A} (l : list A) : l ≠ [] → 0 < length l.
Proof. destruct l; simpl; [done|lia]. Qed.

#[export] Program Instance RoundRobin_balanced : BalancedStrategy RoundRobin := {| fair := rr_fair |}.
Next Obligation.
  intros n r l Hf Hne. destruct (Hf Hne) as [_ Hc]. apply Forall_forall. intros x [i Hi]%list_elem_of_lookup_1.
  rewrite (Hc i x Hi). case_decide; lia.
Qed.
Next Obligation.
  intros n r l Hf Hne Hn Hl. destruct (Hf Hne) as [Hid Hc]. pose proof (length_pos l Hne) as Hpos.
  pose proof (Nat.mod_upper_bound n (length l) ltac:(lia)) as Hm.
  destruct (lookup_lt_is_Some_2 l (n mod length l) Hm) as [x Hx].
  exists {| next_server_id := Z.of_nat (S n mod length l) |}, (n mod length l), x. split_and!; [|done|].
  - unfold nextServer, RoundRobin_nextServer. rewrite decide_False by done. rewrite Hid, vget_of_nat, Hx. cbn [mbind option_bind].
    rewrite checked_ok by int_bounds. cbn [mbind option_bind]. rewrite to_size_t_id, Nat2Z.id by lia. repeat f_equal.
    destruct (div_mod_succ n (length l) Hpos) as [(-> & _ & Hlt)|(-> & _ & Heq)].
    + rewrite Z.mod_small by lia. rewrite int32_id by int_bounds. lia.
    + replace (Z.of_nat (n mod length l) + 1)%Z with (Z.of_nat (length l)) by lia. by rewrite Z_mod_same by lia.
  - intros _. rewrite length_insert. simpl. split; [done|]. intros i y Hi.
    apply list_lookup_insert_Some in Hi as [(<- & <- & _)|[Hne' Hi]]; simpl.
    + rewrite (Hc _ _ Hx), decide_False by lia.
      destruct (div_mod_succ n (length l) Hpos) as [(-> & -> & _)|(-> & -> & _)]; [rewrite decide_True by lia|rewrite decide_False by lia]; lia.
    + rewrite (Hc _ _ Hi). pose proof (lookup_lt_Some _ _ _ Hi).
      destruct (div_mod_succ n (length l) Hpos) as [(-> & -> & _)|(-> & -> & ?)]; repeat case_decide; lia.
Qed.

(** *** Least connections: the loads add up to the requests *)

Definition load (l : list Server) : Z := foldr (λ s n, (num_connections s + n)%Z) 0%Z l.

Lemma load_insert l i x y :
  l !! i = Some x → (load (<[i := y]> l) + num_connections x = load l + num_connections y)%Z.
Proof.
  revert i. induction l as [|z l IH]; intros [|i] Hi; simpl in *; simplify_eq; [lia|]. specialize (IH i Hi). lia.
Qed.

(** Loads of at most [m] that add up to the maximum are all [m]. *)
Lemma load_upper m l :
  Forall (λ s, num_connections s ≤ m)%Z l →
  (load l ≤ m * length l)%Z ∧ (load l = m * length l → Forall (λ s, num_connections s = m) l)%Z.
Proof.
  induction 1 as [|x l Hx Hl [IH1 IH2]]; simpl; [split; [lia|by constructor]|].
  split; [nia|]. intros E. constructor; [nia|]. apply IH2. nia.
Qed.

Lemma load_lower m l : Forall (λ s, m ≤ num_connections s)%Z l → (m * length l ≤ load l)%Z.
Proof. induction 1; simpl; nia. Qed.

(** The loop ends at a server with the fewest connections. *)
Lemma least_loop_spec pre l best x :
  (pre ++ l) !! best = Some x → best < length (pre ++ l) →
  Forall (λ s, num_connections x ≤ num_connections s)%Z pre →
  ∃ y, (pre ++ l) !! least_loop l (length pre) best (num_connections x) = Some y ∧
    Forall (λ s, num_connections y ≤ num_connections s)%Z (pre ++ l).
Proof.
  revert pre best x. induction l as [|s l IH]; intros pre best x Hb Hlt Hpre; simpl.
  - exists x. by rewrite app_nil_r in *.
  - rewrite (cons_middle s pre l), app_assoc in Hb, Hlt |- *.
    assert (S (length pre) = length (pre ++ [s])) as -> by (rewrite length_app; simpl; lia).
    destruct (Z.ltb_spec (num_connections s) (num_connections x)); apply IH.
    + rewrite <-app_assoc, lookup_app_r, Nat.sub_diag by lia. done.
    + rewrite !length_app. simpl. lia.
    + apply Forall_app. split; [|by repeat constructor]. eapply Forall_impl; [exact Hpre|]. simpl. lia.
    + done.
    + done.
    + apply Forall_app. split; [done|]. repeat constructor. done.
Qed.

Definition lc_fair (n : nat) (_ : LeastConnection) (l : list Server) : Prop :=
  l ≠ [] → balanced (n / length l)%nat l ∧ load l = n.

#[export] Program Instance LeastConnection_balanced : BalancedStrategy LeastConnection := {| fair := lc_fair |}.
Next Obligation.
  intros n r l Hf Hne. apply (Hf Hne).
Qed.
Next Obligation.
  intros n r l Hf Hne Hn Hl. destruct (Hf Hne) as [Hb Hload]. pose proof (length_pos l Hne) as Hpos.
  remember (n / length l) as c eqn:Hc. destruct (least_loop_spec [] l 0 (default (Server_make 0) (head l))) as (x & Hx & Hmin).
  - by destruct l.
  - done.
  - done.
  - simpl in Hx, Hmin. set (i := least_loop l 0 0 _) in Hx. exists r, i, x. split_and!; [by destruct l|done|].
    assert (num_connections x = c) as Hxc.
    { assert (num_connections x = c ∨ num_connections x = c + 1)%Z as [?|E];
        [exact (proj1 (Forall_forall _ _) Hb x (list_elem_of_lookup_2 _ _ _ Hx))|done|].
      pose proof (load_lower (c + 1) l ltac:(eapply Forall_impl; [exact Hmin|]; simpl; lia)).
      pose proof (Nat.div_mod_eq n (length l)) as E'. rewrite <-Hc in E'. pose proof (Nat.mod_upper_bound n (length l)). nia. }
    intros _. rewrite length_insert. pose proof (load_insert l i x {| server_id := server_id x; num_connections := num_connections x + 1 |} Hx) as Hload'.
    simpl in Hload'. set (l' := <[i := _]> l) in *.
    assert (balanced c l') as Hb'.
    { apply Forall_forall. intros y [j Hj]%list_elem_of_lookup_1. apply list_lookup_insert_Some in Hj as [(_ & <- & _)|[_ Hj]].
      - simpl. lia.
      - exact (proj1 (Forall_forall _ _) Hb y (list_elem_of_lookup_2 _ _ _ Hj)). }
    split; [|lia]. destruct (div_mod_succ n (length l) Hpos) as [(_ & -> & _)|(Hm & -> & _)]; rewrite <-Hc; [done|].
    assert (Forall (λ s, num_connections s = c + 1)%Z l') as Hall.
    { apply load_upper; [eapply Forall_impl; [exact Hb'|]; simpl; lia|].
      pose proof (Nat.div_mod_eq (S n) (length l)) as E. destruct (div_mod_succ n (length l) Hpos) as [(E1 & _)|(_ & E2 & _)]; [lia|].
      rewrite Hm, E2, <-Hc in E. unfold l'. rewrite length_insert. fold l'. lia. }
    eapply Forall_impl; [exact Hall|]. simpl. lia.
Qed.

(** A balancer to which servers were added before the first request. *)
Definition with_servers {S} (s : S) (ids : list Z) : LoadBalancer S := fold_left addServer ids (LoadBalancer_make s).

Lemma with_servers_spec {S} (s : S) ids :
  strategy (with_servers s ids) = s ∧ servers (with_servers s ids) = Server_make <$> ids.
Proof.
  unfold with_servers. assert (∀ b : LoadBalancer S, strategy (fold_left addServer ids b) = strategy b ∧
    servers (fold_left addServer ids b) = servers b ++ (Server_make <$> ids)) as H; [|apply H].
  induction ids as [|id ids IH]; intros b; csimpl; [by rewrite app_nil_r|].
  destruct (IH (addServer b id)) as [-> ->]. simpl. by rewrite <-app_assoc.
Qed.

Lemma rr_fair_start ids : rr_fair 0 RoundRobin_make (Server_make <$> ids).
Proof.
  intros Hne. rewrite Nat.Div0.mod_0_l, Nat.Div0.div_0_l. split; [done|]. intros i x Hi.
  apply list_lookup_fmap_Some in Hi as (id & -> & _). done.
Qed.

Lemma lc_fair_start ids : lc_fair 0 LeastConnection_make (Server_make <$> ids).
Proof.
  intros Hne. rewrite Nat.Div0.div_0_l. split; [|clear; by induction ids]. apply Forall_fmap, Forall_true. by left.
Qed.

(** What any strategy that keeps its promise does. *)
Lemma served_balanced {S} `{!Strategy S} `{!BalancedStrategy S} (s : S) (ids : list Z) (n : nat) :
  fair 0 s (Server_make <$> ids) → ids ≠ [] → (length ids ≤ INT_MAX)%Z → (n < INT_MAX)%Z →
  ∃ b, run_ops serve (with_servers s ids) (replicate n ()) = Some b ∧ balanced (n / length ids)%nat (servers b).
Proof.
  intros Hs Hne Hl Hn. pose proof (length_pos ids Hne) as Hpos. destruct (with_servers_spec s ids) as [E1 E2].
  destruct (serve_run n 0 (with_servers s ids)) as (b & Hr & Hf & Hlen); rewrite ?E1, ?E2, ?length_fmap; try done; [by destruct ids|].
  exists b. split; [done|]. rewrite E2, length_fmap in Hlen. rewrite <-Hlen. eapply fair_balanced; [exact Hf|].
  intros E. rewrite E in Hlen. simpl in Hlen. lia.
Qed.

(** Both strategies balance the load.  When any number of servers are added and [n]
    requests served, by round robin or by least connections, every answer is a server of
    the vector, and afterwards every server has [n / k] or [n / k + 1] of the connections,
    where [k] is the number of servers. *)
Theorem load_balancer_balanced (ids : list Z) (n : nat) :
  ids ≠ [] → (length ids ≤ INT_MAX)%Z → (n < INT_MAX)%Z →
  (∃ b, run_ops serve (with_servers RoundRobin_make ids) (replicate n ()) = Some b ∧
     balanced (n / length ids)%nat (servers b)) ∧
  (∃ b, run_ops serve (with_servers LeastConnection_make ids) (replicate n ()) = Some b ∧
     balanced (n / length ids)%nat (servers b)).
Proof.
  intros Hne Hl Hn. split; apply served_balanced; try done; [apply rr_fair_start|apply lc_fair_start].
Qed.

Lemma load_balancer_balanced_witness :
  [1; 2; 3]%Z ≠ [] ∧
  (∃ b, run_ops serve (with_servers RoundRobin_make [1; 2; 3]%Z) (replicate 7 ()) = Some b ∧ balanced 2 (servers b)) ∧
  (∃ b, run_ops serve (with_servers LeastConnection_make [1; 2; 3]%Z) (replicate 7 ()) = Some b ∧ balanced 2 (servers b)).
Proof.
  split; [discriminate|].
  apply (load_balancer_balanced [1; 2; 3]%Z 7); [discriminate|simpl; unfold INT_MAX; lia|unfold INT_MAX; lia].
Defined.

(** Round robin keeps its index when servers are removed: with the second of two servers
    next, removing the first leaves the index out of range. *)
Lemma round_robin_remove_dangles :
  ∃ b, run_ops serve (with_servers RoundRobin_make [1; 2]%Z) [()] = Some b ∧ getNextServer (removeServer b 1%Z) = None.
Proof. eexists. split; [reflexivity|]. reflexivity. Qed.
