(* ===== verification/BplusTree.v ===== *)
(** * The B+ tree

    [src/storage/B+tree.cpp]: nodes on a heap, leaves linked by [next].  A leaf that
    overflows is split; only a split of the root makes an internal node, a split of any
    other leaf links the new leaf into the chain but not into its parent.

    [findLeaf] descends with fuel, one more than the number of nodes; the theorems show
    that it is enough.  A missing node is undefined behaviour ([None]). *)
From S2P Require Import Prelude.
Local Open Scope nat_scope.
#[local] Arguments Nat.div : simpl never.

Record Node := { is_leaf : bool; next : option nat; keys : list Z; children : list nat }.

(** [brk] is the address the next [new] returns. *)
Record BplusTree := { heap : gmap nat Node; brk : nat; root : nat; MAX_KEYS_PER_NODE : Z }.

Definition new_node (leaf : bool) : Node := {| is_leaf := leaf; next := None; keys := []; children := [] |}.

Definition BplusTree_make (max_keys : Z) : BplusTree :=
  {| heap := {[ 0 := new_node true ]}; brk := 1; root := 0; MAX_KEYS_PER_NODE := max_keys |}.

(** The loop of [findLeaf] that counts the keys up to [key]. *)
Fixpoint child_index (ks : list Z) (key : Z) : nat :=
  match ks with [] => 0 | k :: ks => if (k <=? key)%Z then S (child_index ks key) else 0 end.

Fixpoint findLeaf_loop (fuel : nat) (h : gmap nat Node) (curr : nat) (key : Z) : option nat :=
  match fuel with
  | 0 => None
  | S fuel =>
      n ← h !! curr;
      if is_leaf n then Some curr
      else c ← children n !! child_index (keys n) key; findLeaf_loop fuel h c key
  end.

Definition findLeaf (t : BplusTree) (key : Z) : option nat := findLeaf_loop (S (size (heap t))) (heap t) (root t) key.

Definition searchKey (t : BplusTree) (key : Z) : option bool :=
  leaf ← findLeaf t key; n ← heap t !! leaf; Some (bool_decide (key ∈ keys n)).

(** The position loop and [insert] of [insertKey]. *)
Fixpoint insert_at (ks : list Z) (key : Z) : list Z :=
  match ks with [] => [key] | k :: ks' => if (k <? key)%Z then k :: insert_at ks' key else key :: ks end.

Definition set_keys (n : Node) (ks : list Z) : Node :=
  {| is_leaf := is_leaf n; next := next n; keys := ks; children := children n |}.

Definition set_next (n : Node) (p : option nat) : Node :=
  {| is_leaf := is_leaf n; next := p; keys := keys n; children := children n |}.

Definition splitLeaf (t : BplusTree) (leaf : nat) : option BplusTree :=
  n ← heap t !! leaf;
  let mid := length (keys n) / 2 in
  let newLeaf := brk t in
  let h := <[newLeaf := {| is_leaf := true; next := next n; keys := drop mid (keys n); children := [] |}]> (heap t) in
  let h := <[leaf := set_next (set_keys n (take mid (keys n))) (Some newLeaf)]> h in
  if decide (root t = leaf) then
    k ← head (drop mid (keys n));
    let newRoot := S (brk t) in
    Some {| heap := <[newRoot := {| is_leaf := false; next := None; keys := [k]; children := [leaf; newLeaf] |}]> h;
            brk := S (S (brk t)); root := newRoot; MAX_KEYS_PER_NODE := MAX_KEYS_PER_NODE t |}
  else Some {| heap := h; brk := S (brk t); root := root t; MAX_KEYS_PER_NODE := MAX_KEYS_PER_NODE t |}.

Definition insertKey (t : BplusTree) (key : Z) : option BplusTree :=
  leaf ← findLeaf t key;
  n ← heap t !! leaf;
  let n := set_keys n (insert_at (keys n) key) in
  let t := {| heap := <[leaf := n]> (heap t); brk := brk t; root := root t; MAX_KEYS_PER_NODE := MAX_KEYS_PER_NODE t |} in
  if (to_size_t (MAX_KEYS_PER_NODE t) <? length (keys n))%Z then splitLeaf t leaf else Some t.

(** [printLeaves]: the leftmost leaf, then the chain; the output is the list of leaves. *)
Fixpoint leftmost (fuel : nat) (h : gmap nat Node) (curr : nat) : option nat :=
  match fuel with
  | 0 => None
  | S fuel => n ← h !! curr; if is_leaf n then Some curr else c ← children n !! 0; leftmost fuel h c
  end.

Fixpoint print_chain (fuel : nat) (h : gmap nat Node) (curr : option nat) : option (list (list Z)) :=
  match curr, fuel with
  | None, _ => Some []
  | Some _, 0 => None
  | Some a, S fuel => n ← h !! a; rest ← print_chain fuel h (next n); Some (keys n :: rest)
  end.

Definition printLeaves (t : BplusTree) : option (list (list Z)) :=
  a ← leftmost (S (size (heap t))) (heap t) (root t); print_chain (S (size (heap t))) (heap t) (Some a).

(** ** The chain of leaves *)

Definition leaf_node (p : option nat) (ks : list Z) : Node := {| is_leaf := true; next := p; keys := ks; children := [] |}.

(** From [p] on, the heap holds the leaves [l]: addresses and keys. *)
Fixpoint chain (h : gmap nat Node) (p : option nat) (l : list (nat * list Z)) : Prop :=
  match l with
  | [] => p = None
  | (a, ks) :: l => p = Some a ∧ ∃ nx, h !! a = Some (leaf_node nx ks) ∧ chain h nx l
  end.

Lemma chain_ext h h' p l : (∀ a, a ∈ l.*1 → h' !! a = h !! a) → chain h p l → chain h' p l.
Proof.
  revert p. induction l as [|[a ks] l IH]; intros p He; [done|]. simpl. intros (-> & nx & Ha & Hl). split; [done|].
  exists nx. rewrite He by left. split; [done|]. apply IH; [|done]. intros; apply He; by right.
Qed.

Lemma chain_split h p l1 a ks l2 :
  chain h p (l1 ++ (a, ks) :: l2) → ∃ nx, h !! a = Some (leaf_node nx ks) ∧ chain h nx l2.
Proof. revert p. induction l1 as [|[b kb] l1 IH]; intros p; simpl; [naive_solver|]. intros (_ & nx & _ & Hl). eauto. Qed.

(** The leaf [a] is replaced by leaves [ls] that start at [a] and end where it did. *)
Lemma chain_replace h h' p l1 a ks l2 ls nx :
  chain h p (l1 ++ (a, ks) :: l2) → NoDup (l1 ++ (a, ks) :: l2).*1 → h !! a = Some (leaf_node nx ks) →
  (∀ b, b ∈ l1.*1 ++ l2.*1 → h' !! b = h !! b) → (chain h' nx l2 → chain h' (Some a) (ls ++ l2)) →
  chain h' p (l1 ++ ls ++ l2).
Proof.
  intros Hc Hnd Ha Hext Hls. revert p Hc Hnd Hext. induction l1 as [|[b kb] l1 IH]; intros p Hc Hnd Hext; simpl in *.
  - destruct Hc as (-> & nx' & Ha' & Hl2). simplify_eq. apply Hls. eapply chain_ext; [|exact Hl2]. auto.
  - destruct Hc as (-> & nx' & Hb & Hc). split; [done|]. exists nx'. rewrite Hext by left. split; [done|].
    apply NoDup_cons in Hnd as [_ Hnd]. apply IH; [done|done|]. intros c Hc'. apply Hext. by right.
Qed.

(** ** Invariant *)

Definition max_ok (m : Z) (ks : list Z) : Prop := (length ks ≤ m)%Z.

(** The chain holds the keys [ks]; the root is the only leaf, or an internal node over the
    first leaf and another one. *)
Record tree_inv (t : BplusTree) (l : list (nat * list Z)) (ks : list Z) : Prop := {
  b_chain : ∃ a, fst <$> head l = Some a ∧ chain (heap t) (Some a) l;
  b_nodup : NoDup l.*1;
  b_brk : ∀ a, a ∈ dom (heap t) ↔ a < brk t;
  b_keys : concat l.*2 ≡ₚ ks;
  b_sorted : Forall (λ x, StronglySorted Z.le x.2) l;
  b_max : Forall (λ x, max_ok (MAX_KEYS_PER_NODE t) x.2) l;
  b_bound : (1 ≤ MAX_KEYS_PER_NODE t ≤ INT_MAX)%Z;
  b_root :
    (∃ k0, l = [(root t, k0)] ∧ brk t = 1) ∨
    (∃ k a b, heap t !! root t = Some {| is_leaf := false; next := None; keys := [k]; children := [a; b] |} ∧
       fst <$> head l = Some a ∧ b ∈ l.*1 ∧ (root t ∉ l.*1) ∧ brk t = S (length l) ∧ 2 ≤ length l ∧
       (length l = 2 → (∃ ka kb, l = [(a, ka); (b, kb)] ∧ Forall (λ x, x ≤ k)%Z ka ∧ Forall (λ x, k ≤ x)%Z kb ∧ k ∈ kb)))
}.

Lemma insert_at_perm ks key : insert_at ks key ≡ₚ key :: ks.
Proof. induction ks as [|k ks IH]; simpl; [done|]. case_match; [|done]. rewrite IH. constructor. Qed.

Lemma insert_at_sorted ks key : StronglySorted Z.le ks → StronglySorted Z.le (insert_at ks key).
Proof.
  induction 1 as [|k ks Hs IH Hk]; simpl; [by repeat constructor|]. destruct (Z.ltb_spec k key).
  - constructor; [done|]. rewrite insert_at_perm. constructor; [lia|done].
  - constructor; [by constructor|]. constructor; [lia|]. eapply Forall_impl; [exact Hk|]. simpl. lia.
Qed.

Lemma sorted_take_drop m (ks : list Z) :
  StronglySorted Z.le ks →
  StronglySorted Z.le (take m ks) ∧ StronglySorted Z.le (drop m ks) ∧
    ∀ k, head (drop m ks) = Some k → Forall (λ x, x ≤ k)%Z (take m ks) ∧ Forall (λ x, k ≤ x)%Z (drop m ks).
Proof.
  intros Hs. rewrite <-(take_drop m ks) in Hs. assert (StronglySorted Z.le (take m ks) ∧ StronglySorted Z.le (drop m ks) ∧
    ∀ x y, x ∈ take m ks → y ∈ drop m ks → (x ≤ y)%Z) as (H1 & H2 & H3).
  { revert Hs. generalize (take m ks) (drop m ks). intros l1 l2. induction l1 as [|x l1 IH]; simpl; intros Hs.
    - split_and!; [constructor|done|]. intros x y ?%not_elem_of_nil. done.
    - apply StronglySorted_inv in Hs as [Hs Hx]. destruct (IH Hs) as (? & ? & ?). apply Forall_app in Hx as [Hx1 Hx2].
      split_and!; [by constructor|done|]. intros y z [->|Hy]%elem_of_cons Hz; [|auto]. rewrite Forall_forall in Hx2. auto. }
  split_and!; [done|done|]. intros k Hk. destruct (drop m ks) as [|k' r]; simplify_eq/=. split.
  - apply Forall_forall. intros x Hx. apply H3; [done|by left].
  - apply StronglySorted_inv in H2 as [_ H2]. constructor; [done|done].
Qed.

Lemma elem_of_fst_split (l : list (nat * list Z)) a : a ∈ l.*1 → ∃ l1 ks l2, l = l1 ++ (a, ks) :: l2.
Proof.
  intros ([b ks] & -> & Hin)%list_elem_of_fmap. apply list_elem_of_split in Hin as (l1 & l2 & ->). simpl. eauto.
Qed.

Lemma tree_leaf t l ks a : tree_inv t l ks → a ∈ l.*1 → ∃ nx k0, heap t !! a = Some (leaf_node nx k0) ∧ (a, k0) ∈ l.
Proof.
  intros Ht Ha. destruct (elem_of_fst_split l a Ha) as (l1 & k0 & l2 & ->). destruct (b_chain _ _ _ Ht) as (p & _ & Hc).
  destruct (chain_split _ _ _ _ _ _ Hc) as (nx & Hn & _). exists nx, k0. split; [done|]. set_solver.
Qed.

(** Where [findLeaf] ends: at the root, or at one of the two children of the root. *)
Lemma findLeaf_spec t l ks key :
  tree_inv t l ks →
  ∃ leaf, findLeaf t key = Some leaf ∧ leaf ∈ l.*1 ∧
    ((leaf = root t ∧ ∃ k0, l = [(root t, k0)]) ∨
     ∃ k a b, heap t !! root t = Some {| is_leaf := false; next := None; keys := [k]; children := [a; b] |} ∧
       leaf = if (k <=? key)%Z then b else a).
Proof.
  intros Ht. unfold findLeaf. destruct (b_root _ _ _ Ht) as [(k0 & -> & _)|(k & a & b & Hr & Ha & Hb & _)].
  - exists (root t). destruct (tree_leaf t _ ks (root t) Ht ltac:(by left)) as (nx & k' & Hn & _).
    cbn [findLeaf_loop]. rewrite Hn. simpl. split_and!; [done|by left|]. left. eauto.
  - set (c := if (k <=? key)%Z then b else a). assert (c ∈ l.*1) as Hc.
    { unfold c. case_match; [done|]. destruct l as [|[a' ?] l]; simplify_eq/=. by left. }
    destruct (tree_leaf t l ks c Ht Hc) as (nx & k' & Hn & _). exists c.
    assert (size (heap t) ≠ 0) as Hsz.
    { intros E%map_size_empty_inv. by rewrite E in Hr. }
    destruct (size (heap t)) as [|f]; [done|]. cbn [findLeaf_loop]. rewrite Hr. simpl.
    assert ([a; b] !! (if (k <=? key)%Z then 1 else 0) = Some c) as -> by (unfold c; by case_match).
    simpl. rewrite Hn. simpl. split_and!; [done|done|]. right. eauto 10.
Qed.

Lemma heap_fresh t l ks a : tree_inv t l ks → a ∈ l.*1 → a < brk t.
Proof.
  intros Ht Ha. apply (b_brk _ _ _ Ht). destruct (tree_leaf t l ks a Ht Ha) as (nx & k0 & Hn & _). by apply elem_of_dom_2 in Hn.
Qed.

(** Replacing a leaf by leaves with one key more. *)
Lemma keys_replace (l1 l2 ls : list (nat * list Z)) a k0 key ks :
  concat (l1 ++ (a, k0) :: l2).*2 ≡ₚ ks → concat ls.*2 ≡ₚ key :: k0 → concat (l1 ++ ls ++ l2).*2 ≡ₚ key :: ks.
Proof.
  intros Hk Hls. rewrite !fmap_app, !concat_app, Hls. rewrite <-Hk, fmap_app, concat_app. csimpl. simpl.
  symmetry. apply Permutation_middle.
Qed.

Lemma Forall_replace {A} (P : A → Prop) l1 x l2 ls : Forall P (l1 ++ x :: l2) → Forall P ls → Forall P (l1 ++ ls ++ l2).
Proof. rewrite !Forall_app, Forall_cons. tauto. Qed.

Lemma head_replace (l1 l2 ls : list (nat * list Z)) a k0 k1 :
  fst <$> head (l1 ++ (a, k0) :: l2) = fst <$> head (l1 ++ ((a, k1) :: ls) ++ l2).
Proof. by destruct l1. Qed.

Lemma two_leaves (l1 l2 : list (nat * list Z)) leaf k0 a ka b kb :
  l1 ++ (leaf, k0) :: l2 = [(a, ka); (b, kb)] →
  (l1 = [] ∧ leaf = a ∧ k0 = ka ∧ l2 = [(b, kb)]) ∨ (l1 = [(a, ka)] ∧ leaf = b ∧ k0 = kb ∧ l2 = []).
Proof. destruct l1 as [|? [|? [|]]]; intros E; simplify_eq/=; [by left|by right]. Qed.

(** The leaf takes one key more and does not overflow. *)
Lemma insert_fits t l1 leaf k0 l2 nx ks key :
  tree_inv t (l1 ++ (leaf, k0) :: l2) ks → heap t !! leaf = Some (leaf_node nx k0) →
  ((leaf = root t ∧ l1 ++ (leaf, k0) :: l2 = [(root t, k0)]) ∨
   ∃ k a b, heap t !! root t = Some {| is_leaf := false; next := None; keys := [k]; children := [a; b] |} ∧
     leaf = if (k <=? key)%Z then b else a) →
  max_ok (MAX_KEYS_PER_NODE t) (insert_at k0 key) →
  tree_inv {| heap := <[leaf := leaf_node nx (insert_at k0 key)]> (heap t); brk := brk t; root := root t;
              MAX_KEYS_PER_NODE := MAX_KEYS_PER_NODE t |} (l1 ++ [(leaf, insert_at k0 key)] ++ l2) (key :: ks).
Proof.
  intros Ht Hleaf Hroute Hmax. pose proof Ht as [(p & Hp & Hc) Hnd Hbrk Hks Hs Hm Hb Hr].
  assert (∀ x, x ∈ l1.*1 ++ l2.*1 → x ≠ leaf) as Hother.
  { rewrite fmap_app in Hnd. csimpl in Hnd. intros x Hx ->. apply NoDup_app in Hnd as (_ & Hd & Hnd).
    apply NoDup_cons in Hnd as [Hnd _]. apply elem_of_app in Hx as [Hx|Hx]; [apply (Hd leaf Hx); by left|done]. }
  split; cbn [heap brk root MAX_KEYS_PER_NODE].
  - exists p. split; [by rewrite <-(head_replace l1 l2 [] leaf k0)|]. eapply chain_replace; [exact Hc|done|exact Hleaf| |].
    + intros x Hx. apply lookup_insert_ne. intros E. by apply (Hother x Hx).
    + intros Hl2. simpl. split; [done|]. exists nx. by rewrite lookup_insert_eq.
  - by rewrite !fmap_app in *.
  - intros a. rewrite dom_insert_lookup_L by eauto. apply Hbrk.
  - eapply keys_replace; [exact Hks|]. simpl. rewrite app_nil_r. apply insert_at_perm.
  - eapply Forall_replace; [exact Hs|]. constructor; [|done]. simpl. apply insert_at_sorted.
    apply Forall_app in Hs as [_ Hs]. by apply Forall_cons in Hs as [? _].
  - eapply Forall_replace; [exact Hm|]. by repeat constructor.
  - done.
  - destruct Hr as [(k' & E & Hbrk1)|(k & a & b & Hroot & Ha & Hb' & Hnr & Hlen & H2 & Htwo)].
    + left. destruct l1 as [|? [|]], l2; simplify_eq/=. eauto.
    + right. exists k, a, b. assert (root t ≠ leaf) as Hrl.
      { intros E. apply Hnr. rewrite E, fmap_app. csimpl. set_solver. }
      assert ((l1 ++ [(leaf, insert_at k0 key)] ++ l2).*1 = (l1 ++ (leaf, k0) :: l2).*1) as Hfst by (by rewrite !fmap_app).
      assert (length (l1 ++ [(leaf, insert_at k0 key)] ++ l2) = length (l1 ++ (leaf, k0) :: l2)) as Hlen'
        by (by rewrite !length_app).
      rewrite lookup_insert_ne, Hfst, Hlen' by done. split_and!; try done.
      * by rewrite <-(head_replace l1 l2 [] leaf k0).
      * intros Hl. destruct (Htwo Hl) as (ka & kb & E & Hka & Hkb & Hin). clear Htwo.
        destruct Hroute as [[? _]|(k' & a' & b' & Hroot' & Hleaf')]; [by subst|]. simplify_eq.
        destruct (two_leaves _ _ _ _ _ _ _ _ E) as [(-> & Ela & -> & ->)|(-> & Elb & -> & ->)]; simpl.
        -- exists (insert_at ka key), kb. rewrite Ela. split_and!; try done. rewrite insert_at_perm. constructor; [|done].
           destruct (Z.leb_spec k' key); [|lia]. exfalso. csimpl in Hnd. apply NoDup_cons in Hnd as [Hnd _]. apply Hnd.
           by left.
        -- exists ka, (insert_at kb key). rewrite Elb. split_and!; try done; rewrite insert_at_perm; [|by right].
           constructor; [|done]. destruct (Z.leb_spec k' key); [done|]. exfalso. csimpl in Hnd.
           apply NoDup_cons in Hnd as [Hnd _]. apply Hnd. rewrite Elb. by left.
Qed.

(** The leaf takes one key more and is split in two; what the invariant says about the
    chain then, for a heap that holds the two halves. *)
Lemma split_chain t l1 leaf k0 l2 nx ks key mid h' :
  let k1 := insert_at k0 key in
  let l := l1 ++ [(leaf, take mid k1); (brk t, drop mid k1)] ++ l2 in
  tree_inv t (l1 ++ (leaf, k0) :: l2) ks → heap t !! leaf = Some (leaf_node nx k0) →
  h' !! leaf = Some (leaf_node (Some (brk t)) (take mid k1)) → h' !! brk t = Some (leaf_node nx (drop mid k1)) →
  (∀ a, a ∈ l1.*1 ++ l2.*1 → h' !! a = heap t !! a) →
  (∃ a, fst <$> head l = Some a ∧ chain h' (Some a) l) ∧ NoDup l.*1 ∧ concat l.*2 ≡ₚ key :: ks ∧
    Forall (λ x, StronglySorted Z.le x.2) l ∧ StronglySorted Z.le k1.
Proof.
  intros k1 l Ht Hleaf Hh1 Hh2 Hother. pose proof Ht as [(p & Hp & Hc) Hnd Hbrk Hks Hs Hm Hb Hr].
  assert (StronglySorted Z.le k1) as Hk1.
  { apply insert_at_sorted. apply Forall_app in Hs as [_ Hs]. by apply Forall_cons in Hs as [? _]. }
  split_and!; [| | | |done].
  - exists p. split; [unfold l; by rewrite <-(head_replace l1 l2 [(brk t, drop mid k1)] leaf k0)|].
    eapply chain_replace; [exact Hc|done|exact Hleaf|done|]. intros Hl2. simpl. split; [done|].
    exists (Some (brk t)). split; [done|]. split; [done|]. eauto.
  - assert (∀ a, a ∈ (l1 ++ (leaf, k0) :: l2).*1 → a ≠ brk t) as Hfresh.
    { intros a Ha ->. pose proof (heap_fresh t _ ks _ Ht Ha). lia. }
    assert (l.*1 ≡ₚ brk t :: (l1 ++ (leaf, k0) :: l2).*1) as ->.
    { unfold l. rewrite !fmap_app. csimpl. rewrite (Permutation_swap (brk t) leaf). symmetry. apply Permutation_middle. }
    apply NoDup_cons. split; [|done]. intros Ha. by apply (Hfresh _ Ha).
  - eapply keys_replace; [exact Hks|]. simpl. rewrite app_nil_r, take_drop. apply insert_at_perm.
  - eapply Forall_replace; [exact Hs|]. destruct (sorted_take_drop mid k1 Hk1) as (? & ? & _). by repeat constructor.
Qed.

Lemma half_bounds (m n : nat) : 1 ≤ m → n ≤ S m → n / 2 ≤ m ∧ n - n / 2 ≤ m.
Proof. intros. pose proof (Nat.div_mod_eq n 2). pose proof (Nat.mod_upper_bound n 2). lia. Qed.

(** Both halves fit when the leaf held at most [m] keys. *)
Lemma split_max m l1 leaf k0 l2 b key :
  (1 ≤ m)%Z → Forall (λ x : nat * list Z, max_ok m x.2) (l1 ++ (leaf, k0) :: l2) →
  let k1 := insert_at k0 key in
  Forall (λ x : nat * list Z, max_ok m x.2)
    (l1 ++ [(leaf, take (length k1 / 2) k1); (b, drop (length k1 / 2) k1)] ++ l2).
Proof.
  intros Hm Hf k1. assert (length k0 ≤ m)%Z as Hk0 by (apply Forall_app in Hf as [_ Hf]; by apply Forall_cons in Hf as [? _]).
  eapply Forall_replace; [exact Hf|]. assert (length k1 = S (length k0)) as E by (unfold k1; by rewrite insert_at_perm).
  destruct (half_bounds (Z.to_nat m) (length k1)) as [H1 H2]; [lia|lia|].
  apply Forall_cons. split; [|apply Forall_singleton]; unfold max_ok; cbn [snd]; rewrite ?length_take, ?length_drop; lia.
Qed.

Lemma dom_insert_brk (h : gmap nat Node) n x : (∀ a, a ∈ dom h ↔ a < n) → ∀ a, a ∈ dom (<[n := x]> h) ↔ a < S n.
Proof. intros Hd a. rewrite dom_insert, elem_of_union, elem_of_singleton, Hd. lia. Qed.

(** The heap after the split, in the shape the code builds it. *)
Definition split_heap (t : BplusTree) (leaf : nat) (nx : option nat) (k1 : list Z) : gmap nat Node :=
  <[leaf := leaf_node (Some (brk t)) (take (length k1 / 2) k1)]>
    (<[brk t := leaf_node nx (drop (length k1 / 2) k1)]> (<[leaf := leaf_node nx k1]> (heap t))).

Lemma split_heap_dom t leaf nx k1 :
  (∀ a, a ∈ dom (heap t) ↔ a < brk t) → leaf < brk t → ∀ a, a ∈ dom (split_heap t leaf nx k1) ↔ a < S (brk t).
Proof.
  intros Hd Hl a. unfold split_heap. rewrite !dom_insert, !elem_of_union, !elem_of_singleton, Hd. lia.
Qed.

Lemma split_heap_lookup t leaf nx k1 :
  leaf < brk t →
  split_heap t leaf nx k1 !! leaf = Some (leaf_node (Some (brk t)) (take (length k1 / 2) k1)) ∧
  split_heap t leaf nx k1 !! brk t = Some (leaf_node nx (drop (length k1 / 2) k1)) ∧
  ∀ a, a ≠ leaf → a < brk t → split_heap t leaf nx k1 !! a = heap t !! a.
Proof.
  intros Hl. unfold split_heap. rewrite lookup_insert_eq, lookup_insert_ne, lookup_insert_eq by lia. split_and!; [done|done|].
  intros a Ha Hb. by rewrite !lookup_insert_ne by lia.
Qed.

Lemma other_leaves (l1 l2 : list (nat * list Z)) leaf k0 a :
  NoDup (l1 ++ (leaf, k0) :: l2).*1 → a ∈ l1.*1 ++ l2.*1 → a ≠ leaf ∧ a ∈ (l1 ++ (leaf, k0) :: l2).*1.
Proof.
  rewrite fmap_app. csimpl. rewrite NoDup_app, NoDup_cons. intros (_ & Hd & Hn & _) Ha. split; [|set_solver].
  intros ->. apply elem_of_app in Ha as [Ha|Ha]; [apply (Hd leaf Ha); by left|done].
Qed.

(** A split of the root. *)
Lemma insert_splits_root t k0 ks key k :
  let k1 := insert_at k0 key in
  tree_inv t [(root t, k0)] ks → heap t !! root t = Some (leaf_node None k0) → head (drop (length k1 / 2) k1) = Some k →
  tree_inv {| heap := <[S (brk t) := {| is_leaf := false; next := None; keys := [k]; children := [root t; brk t] |}]>
                        (split_heap t (root t) None k1);
              brk := S (S (brk t)); root := S (brk t); MAX_KEYS_PER_NODE := MAX_KEYS_PER_NODE t |}
    [(root t, take (length k1 / 2) k1); (brk t, drop (length k1 / 2) k1)] (key :: ks).
Proof.
  intros k1 Ht Hleaf Hk. pose proof (heap_fresh t _ ks (root t) Ht ltac:(by left)) as Hlt.
  destruct (split_heap_lookup t (root t) None k1 Hlt) as (H1 & H2 & _).
  set (h' := <[S (brk t) := _]> (split_heap t (root t) None k1)).
  destruct (split_chain t [] (root t) k0 [] None ks key (length k1 / 2) h') as (Hc & Hnd & Hks & Hs & Hk1); try done.
  { unfold h'. by rewrite lookup_insert_ne by lia. }
  { unfold h'. by rewrite lookup_insert_ne by lia. }
  { intros a ?%not_elem_of_nil. done. }
  split; cbn [heap brk root MAX_KEYS_PER_NODE]; try done.
  - apply dom_insert_brk, split_heap_dom; [apply Ht|done].
  - apply (split_max _ [] (root t) k0 [] (brk t) key); apply Ht.
  - apply Ht.
  - right. exists k, (root t), (brk t). unfold h'. rewrite lookup_insert_eq. csimpl.
    assert (brk t = 1) as Hbrk.
    { destruct (b_root _ _ _ Ht) as [(? & _ & ?)|(? & ? & ? & _ & _ & _ & _ & _ & Hlen & _)]; [done|]. simpl in Hlen. lia. }
    rewrite Hbrk in *. split_and!; try done; [set_solver|set_solver by lia|]. intros _.
    destruct (sorted_take_drop (length k1 / 2) k1 Hk1) as (_ & _ & Hd). destruct (Hd k Hk) as [Hd1 Hd2].
    do 2 eexists. split_and!; [done|done|done|]. by apply head_Some_elem_of.
Qed.

(** A split of another leaf: the parent is not told. *)
Lemma insert_splits_leaf t l1 leaf k0 l2 nx ks key :
  let k1 := insert_at k0 key in
  tree_inv t (l1 ++ (leaf, k0) :: l2) ks → heap t !! leaf = Some (leaf_node nx k0) → root t ≠ leaf →
  tree_inv {| heap := split_heap t leaf nx k1; brk := S (brk t); root := root t; MAX_KEYS_PER_NODE := MAX_KEYS_PER_NODE t |}
    (l1 ++ [(leaf, take (length k1 / 2) k1); (brk t, drop (length k1 / 2) k1)] ++ l2) (key :: ks).
Proof.
  intros k1 Ht Hleaf Hroot. assert (leaf ∈ (l1 ++ (leaf, k0) :: l2).*1) as Hin by (rewrite fmap_app; csimpl; set_solver).
  pose proof (heap_fresh t _ ks leaf Ht Hin) as Hlt. destruct (split_heap_lookup t leaf nx k1 Hlt) as (H1 & H2 & H3).
  destruct (split_chain t l1 leaf k0 l2 nx ks key (length k1 / 2) (split_heap t leaf nx k1)) as (Hc & Hnd & Hks & Hs & Hk1); try done.
  { intros a Ha. destruct (other_leaves l1 l2 leaf k0 a (b_nodup _ _ _ Ht) Ha) as [Hne Ha']. apply H3; [done|].
    by apply (heap_fresh t _ ks a Ht). }
  split; cbn [heap brk root MAX_KEYS_PER_NODE]; try done.
  - apply split_heap_dom; [apply Ht|done].
  - apply split_max; apply Ht.
  - apply Ht.
  - destruct (b_root _ _ _ Ht) as [(k' & E & _)|(k & a & b & Hr & Ha & Hb & Hnr & Hlen & H4 & _)].
    { exfalso. destruct l1 as [|? [|]], l2; simplify_eq/=. }
    right. exists k, a, b. rewrite H3; [|done|apply (b_brk _ _ _ Ht); by apply elem_of_dom_2 in Hr].
    assert (root t < brk t) by (apply (b_brk _ _ _ Ht); by apply elem_of_dom_2 in Hr).
    rewrite !fmap_app in *. csimpl in *. rewrite !length_app in *. simpl in *. split_and!; try done; [by destruct l1| | |lia|lia|lia].
    + rewrite !elem_of_app, !elem_of_cons in *. tauto.
    + rewrite !not_elem_of_app, !not_elem_of_cons in *. split_and!; try tauto. lia.
Qed.

Lemma splitLeaf_split t leaf nx k1 :
  leaf < brk t →
  splitLeaf {| heap := <[leaf := leaf_node nx k1]> (heap t); brk := brk t; root := root t;
               MAX_KEYS_PER_NODE := MAX_KEYS_PER_NODE t |} leaf =
  if decide (root t = leaf) then
    k ← head (drop (length k1 / 2) k1);
    Some {| heap := <[S (brk t) := {| is_leaf := false; next := None; keys := [k]; children := [leaf; brk t] |}]>
                      (split_heap t leaf nx k1);
            brk := S (S (brk t)); root := S (brk t); MAX_KEYS_PER_NODE := MAX_KEYS_PER_NODE t |}
  else Some {| heap := split_heap t leaf nx k1; brk := S (brk t); root := root t; MAX_KEYS_PER_NODE := MAX_KEYS_PER_NODE t |}.
Proof. intros Hl. unfold splitLeaf. cbn [heap]. rewrite lookup_insert_eq. done. Qed.

Lemma insertKey_inv t l ks key :
  tree_inv t l ks → ∃ t' l', insertKey t key = Some t' ∧ tree_inv t' l' (key :: ks) ∧ MAX_KEYS_PER_NODE t' = MAX_KEYS_PER_NODE t.
Proof.
  intros Ht. destruct (findLeaf_spec t l ks key Ht) as (leaf & Hf & Hin & Hroute).
  destruct (elem_of_fst_split l leaf Hin) as (l1 & k0 & l2 & ->). destruct (b_chain _ _ _ Ht) as (p & _ & Hc).
  destruct (chain_split _ _ _ _ _ _ Hc) as (nx & Hn & _). pose proof (heap_fresh t _ ks leaf Ht Hin) as Hlt.
  unfold insertKey. rewrite Hf. cbn [mbind option_bind]. rewrite Hn. cbn [mbind option_bind].
  change (set_keys (leaf_node nx k0) (insert_at (keys (leaf_node nx k0)) key)) with (leaf_node nx (insert_at k0 key)).
  set (k1 := insert_at k0 key). cbn [MAX_KEYS_PER_NODE keys leaf_node]. rewrite to_size_t_id by (pose proof (b_bound _ _ _ Ht); lia).
  destruct (Z.ltb_spec (MAX_KEYS_PER_NODE t) (length k1)) as [Hover|Hfits].
  - rewrite splitLeaf_split by done. case_decide as Hroot.
    + destruct Hroute as [[-> (k' & E)]|(k & a & b & Hr & _)]; [|exfalso; subst leaf; by rewrite Hn in Hr].
      destruct l1 as [|? [|]], l2; simplify_eq/=. destruct Hc as (_ & nx' & Hn' & ->). simplify_eq.
      destruct (head (drop (length k1 / 2) k1)) as [k|] eqn:Hk.
      2:{ apply head_None in Hk. apply (f_equal length) in Hk. rewrite length_drop in Hk. simpl in Hk.
          pose proof (b_bound _ _ _ Ht). pose proof (Nat.div_mod_eq (length k1) 2). lia. }
      cbn [mbind option_bind]. do 2 eexists. split_and!; [done| |done]. by apply insert_splits_root.
    + do 2 eexists. split_and!; [done| |done]. by apply insert_splits_leaf.
  - do 2 eexists. split_and!; [done| |done]. apply insert_fits; [done|done| |done].
    destruct Hroute as [[-> (k' & E)]|?]; [left; by destruct l1 as [|? [|]], l2; simplify_eq/=|by right].
Qed.

Lemma tree_make_inv max_keys : (1 ≤ max_keys ≤ INT_MAX)%Z → tree_inv (BplusTree_make max_keys) [(0, [])] [].
Proof.
  intros Hm. split; simpl; [|by apply NoDup_singleton| |done|by repeat constructor| |done|left; eauto].
  - exists 0. split; [done|]. split; [done|]. by exists None.
  - intros a. rewrite dom_singleton, elem_of_singleton. lia.
  - repeat constructor. unfold max_ok. simpl. lia.
Qed.

Lemma tree_run max_keys ks :
  (1 ≤ max_keys ≤ INT_MAX)%Z →
  ∃ t l, run_ops insertKey (BplusTree_make max_keys) ks = Some t ∧ tree_inv t l (rev ks) ∧ MAX_KEYS_PER_NODE t = max_keys.
Proof.
  intros Hm. induction ks as [|k ks IH] using rev_ind.
  - do 2 eexists. split_and!; [done|by apply tree_make_inv|done].
  - destruct IH as (t & l & Hr & Ht & Emax). destruct (insertKey_inv t l _ k Ht) as (t' & l' & Hi & Ht' & Emax').
    exists t', l'. rewrite run_ops_app, Hr. simpl. rewrite Hi. split_and!; [done|by rewrite rev_app_distr|congruence].
Qed.

(** ** Printing and searching *)

Lemma print_chain_spec fuel h p l : chain h p l → length l ≤ fuel → print_chain fuel h p = Some l.*2.
Proof.
  revert p l. induction fuel as [|fuel IH]; intros p l Hc Hlen.
  - destruct l; simpl in *; [by subst|lia].
  - destruct l as [|[a ks] l]; simpl in *; [by subst|]. destruct Hc as (-> & nx & Hn & Hc). rewrite Hn. simpl.
    rewrite (IH nx l) by (done || lia). done.
Qed.

Lemma heap_size t l ks : tree_inv t l ks → size (heap t) = brk t.
Proof.
  intros Ht. rewrite <-size_dom. assert (dom (heap t) = set_seq 0 (brk t)) as ->.
  { apply leibniz_equiv. intros a. rewrite (b_brk _ _ _ Ht), elem_of_set_seq. lia. }
  apply size_set_seq.
Qed.

Lemma printLeaves_spec t l ks : tree_inv t l ks → printLeaves t = Some l.*2.
Proof.
  intros Ht. unfold printLeaves. rewrite (heap_size t l ks Ht). destruct (b_chain _ _ _ Ht) as (p & Hp & Hc).
  assert (leftmost (S (brk t)) (heap t) (root t) = Some p ∧ length l ≤ S (brk t)) as [-> Hlen].
  { destruct (b_root _ _ _ Ht) as [(k0 & E & ->)|(k & a & b & Hr & Ha & _ & _ & -> & _)].
    - subst l. simpl in *. destruct Hc as (Hp' & nx & Hn & _). simplify_eq. rewrite Hn. simpl. split; [done|lia].
    - cbn [leftmost]. rewrite Hr. simpl. destruct l as [|[a' ka] l]; simplify_eq/=. destruct Hc as (_ & nx & Hn & _). rewrite Hn.
      simpl. split; [done|lia]. }
  cbn [mbind option_bind]. by apply print_chain_spec.
Qed.

(** The leaves of the B+ tree lose no key.  For every order of insertions and every
    node size, no pointer dangles and the descent ends; the leaves that [printLeaves] shows
    are each sorted and within the node size, and together hold exactly the keys inserted.
    As long as the tree has at most three nodes, [searchKey] finds exactly those keys. *)
Theorem bplus_tree_keys (max_keys : Z) (ks : list Z) :
  (1 ≤ max_keys ≤ INT_MAX)%Z →
  ∃ t leaves, run_ops insertKey (BplusTree_make max_keys) ks = Some t ∧ printLeaves t = Some leaves ∧
    concat leaves ≡ₚ ks ∧ Forall (λ l, StronglySorted Z.le l ∧ (length l ≤ max_keys)%Z) leaves ∧
    ∀ key, ∃ b, searchKey t key = Some b ∧ (b = true → key ∈ ks) ∧ (size (heap t) ≤ 3 → key ∈ ks → b = true).
Proof.
  intros Hm. destruct (tree_run max_keys ks Hm) as (t & l & Hr & Ht & Emax). exists t, l.*2.
  split_and!; [done|by eapply printLeaves_spec| | |].
  - rewrite (b_keys _ _ _ Ht). symmetry. apply Permutation_rev.
  - apply Forall_fmap, Forall_forall. intros x Hx. split; [by apply (proj1 (Forall_forall _ _) (b_sorted _ _ _ Ht))|].
    rewrite <-Emax. by apply (proj1 (Forall_forall _ _) (b_max _ _ _ Ht)).
  - intros key. assert (∀ k, k ∈ ks ↔ k ∈ concat l.*2) as Hmem.
    { intros k. rewrite (b_keys _ _ _ Ht). by rewrite <-(Permutation_rev ks). }
    destruct (findLeaf_spec t l _ key Ht) as (leaf & Hf & Hin & Hroute).
    destruct (tree_leaf t l _ leaf Ht Hin) as (nx & k0 & Hn & Hl0). unfold searchKey. rewrite Hf. cbn [mbind option_bind].
    rewrite Hn. cbn [mbind option_bind keys leaf_node]. eexists. split_and!; [done| |].
    + rewrite bool_decide_eq_true, Hmem. intros Hk. apply list_elem_of_In, in_concat. exists k0. split; [|by apply list_elem_of_In].
      apply list_elem_of_In. by apply (list_elem_of_fmap_2 snd l (leaf, k0)).
    + rewrite (heap_size _ _ _ Ht), bool_decide_eq_true, Hmem. clear Hmem. intros Hsz Hk. pose proof (b_nodup _ _ _ Ht) as Hnd.
      destruct (b_root _ _ _ Ht) as [(k' & -> & _)|(k & a & b & Hroot & _ & _ & _ & Hbrk & H2 & Htwo)].
      { apply list_elem_of_singleton in Hl0 as [= -> ->]. simpl in Hk. by rewrite app_nil_r in Hk. }
      destruct (Htwo ltac:(lia)) as (ka & kb & -> & Hka & Hkb & Hkin). clear Htwo.
      destruct Hroute as [[_ Hone]|Hr2]; [by destruct Hone|]. destruct Hr2 as (k' & a' & b' & Hroot' & Hlf).
      simplify_eq. csimpl in *.
      apply NoDup_cons in Hnd as [Hab _]. rewrite list_elem_of_singleton in Hab. rewrite app_nil_r in Hk.
      rewrite elem_of_cons, list_elem_of_singleton in Hl0. rewrite Forall_forall in Hka, Hkb.
      destruct (Z.leb_spec k' key) as [Hle|Hgt]; destruct Hl0 as [Hl0|Hl0]; simplify_eq; try done;
        apply elem_of_app in Hk as [Hk|Hk]; try done.
      * specialize (Hka key Hk). assert (key = k') as -> by lia. done.
      * specialize (Hkb key Hk). lia.
Qed.

Lemma bplus_tree_keys_witness :
  ∃ t leaves, run_ops insertKey (BplusTree_make 3) [10; 20; 5; 6; 12]%Z = Some t ∧ printLeaves t = Some leaves ∧
    concat leaves ≡ₚ [10; 20; 5; 6; 12]%Z.
Proof.
  destruct (bplus_tree_keys 3 [10; 20; 5; 6; 12]%Z) as (t & leaves & Hr & Hp & Hk & _); [unfold INT_MAX; lia|].
  exists t, leaves. exact (conj Hr (conj Hp Hk)).
Defined.

(** The keys of the demonstration: after the split of a leaf that is not the root, the keys
    of the new leaf are printed but can no longer be found. *)
Lemma bplus_tree_split_hides_keys :
  ∃ t, run_ops insertKey (BplusTree_make 3) [10; 20; 5; 6; 12; 30; 7; 17]%Z = Some t ∧
    printLeaves t = Some [[5; 6; 7]; [10; 12; 17]; [20; 30]]%Z ∧ searchKey t 20 = Some false.
Proof. eexists. split; [vm_compute; reflexivity|]. split; vm_compute; reflexivity. Qed.
