(* ===== verification/SkipList.v ===== *)
(** * The skip list

    [src/storage/skipList.cpp]: levels of sorted linked lists, each with a head node; a node
    points down to the node of its tower one level below.  Nodes live on a heap, [erase]
    deletes them, and reading a deleted node is undefined ([None]).  The random choices of
    [insert] are an argument: the successive values of [(rand() & 1) == 0].

    The walks have fuel: the number of nodes for a walk to the right and one more than it
    for the descent; the theorems show that it is enough. *)
From S2P Require Import Prelude.
Local Open Scope nat_scope.

Record Node := { val : Z; right : option nat; down : option nat }.

(** [brk] is the address the next [new] returns. *)
Record SkipList := { heap : gmap nat Node; brk : nat; head : nat }.

Definition SkipList_make : SkipList := {| heap := {[ 0 := {| val := 0; right := None; down := None |} ]}; brk := 1; head := 0 |}.

(** The inner loop: move right while the next value is smaller than [target]. *)
Fixpoint walk (fuel : nat) (h : gmap nat Node) (curr : nat) (target : Z) : option nat :=
  match fuel with
  | 0 => None
  | S fuel =>
      n ← h !! curr;
      match right n with
      | None => Some curr
      | Some r => m ← h !! r; if (val m <? target)%Z then walk fuel h r target else Some curr
      end
  end.

(** Whether the node to the right holds [target]. *)
Definition right_is (h : gmap nat Node) (n : Node) (target : Z) : option bool :=
  match right n with None => Some false | Some r => m ← h !! r; Some (bool_decide (val m = target)) end.

Fixpoint serach_loop (fuel : nat) (h : gmap nat Node) (curr : option nat) (target : Z) : option bool :=
  match curr, fuel with
  | None, _ => Some false
  | Some _, 0 => None
  | Some c, S fuel =>
      c ← walk (size h) h c target; n ← h !! c; b ← right_is h n target;
      if b : bool then Some true else serach_loop fuel h (down n) target
  end.

Definition serach (s : SkipList) (target : Z) : option bool := serach_loop (S (size (heap s))) (heap s) (Some (head s)) target.

(** The first loop of [insert]: the predecessors, from the top level to the bottom. *)
Fixpoint insert_points (fuel : nat) (h : gmap nat Node) (curr : option nat) (target : Z) : option (list nat) :=
  match curr, fuel with
  | None, _ => Some []
  | Some _, 0 => None
  | Some c, S fuel =>
      c ← walk (size h) h c target; n ← h !! c; rest ← insert_points fuel h (down n) target; Some (c :: rest)
  end.

(** The second loop, on the reversed list of predecessors; it returns whether to go on
    upwards and the last node made. *)
Fixpoint insert_up (points : list nat) (coins : list bool) (target : Z) (downNode : option nat) (h : gmap nat Node) (brk : nat)
    : option (bool * option nat * gmap nat Node * nat) :=
  match points with
  | [] => Some (true, downNode, h, brk)
  | leftNode :: points =>
      n ← h !! leftNode;
      let h := <[brk := {| val := target; right := right n; down := downNode |}]> h in
      let h := <[leftNode := {| val := val n; right := Some brk; down := down n |}]> h in
      match coins with
      | true :: coins => insert_up points coins target (Some brk) h (S brk)
      | _ => Some (false, Some brk, h, S brk)
      end
  end.

Definition insert (s : SkipList) (target : Z) (coins : list bool) : option SkipList :=
  points ← insert_points (S (size (heap s))) (heap s) (Some (head s)) target;
  '(upwards, downNode, h, brk) ← insert_up (reverse points) coins target None (heap s) (brk s);
  if upwards : bool then
    let h := <[brk := {| val := target; right := None; down := downNode |}]> h in
    let h := <[S brk := {| val := 0; right := Some brk; down := Some (head s) |}]> h in
    Some {| heap := h; brk := S (S brk); head := S brk |}
  else Some {| heap := h; brk := brk; head := head s |}.

Fixpoint erase_loop (fuel : nat) (h : gmap nat Node) (curr : option nat) (target : Z) (found : bool)
    : option (gmap nat Node * bool) :=
  match curr, fuel with
  | None, _ => Some (h, found)
  | Some _, 0 => None
  | Some c, S fuel =>
      c ← walk (size h) h c target; n ← h !! c; b ← right_is h n target;
      if b : bool then
        temp ← right n; m ← h !! temp;
        let h := delete temp (<[c := {| val := val n; right := right m; down := down n |}]> h) in
        erase_loop fuel h (down n) target true
      else erase_loop fuel h (down n) target found
  end.

Definition erase (s : SkipList) (target : Z) : option (SkipList * bool) :=
  '(h, found) ← erase_loop (S (size (heap s))) (heap s) (Some (head s)) target false;
  Some ({| heap := h; brk := brk s; head := head s |}, found).

(** ** Levels *)

Record Item := { addr : nat; value : Z; below : option nat }.

(** The nodes from [r] to the right are the items [l]. *)
Fixpoint seg (h : gmap nat Node) (r : option nat) (l : list Item) : Prop :=
  match l with
  | [] => r = None
  | x :: l => r = Some (addr x) ∧ ∃ r', h !! addr x = Some {| val := value x; right := r'; down := below x |} ∧ seg h r' l
  end.

(** A level: its head node and its items. *)
Record Level := { lhead : nat; items : list Item }.

Definition level_addrs (L : Level) : list nat := lhead L :: (addr <$> items L).

Definition level_ok (h : gmap nat Node) (dn : option nat) (L : Level) : Prop :=
  ∃ v r, h !! lhead L = Some {| val := v; right := r; down := dn |} ∧ seg h r (items L) ∧
    StronglySorted (λ x y, value x ≤ value y)%Z (items L).

(** The items of a level point down to items of the next, in order and with equal values;
    those of the last level point nowhere. *)
Definition linked (L : Level) (Ls : list Level) : Prop :=
  match Ls with
  | [] => Forall (λ x, below x = None) (items L)
  | M :: _ => sublist ((λ x, (below x, value x)) <$> items L) ((λ y, (Some (addr y), value y)) <$> items M)
  end.

Definition top (Ls : list Level) : option nat := match Ls with [] => None | L :: _ => Some (lhead L) end.

Fixpoint levels_ok (h : gmap nat Node) (Ls : list Level) : Prop :=
  match Ls with [] => True | L :: Ls => level_ok h (top Ls) L ∧ linked L Ls ∧ levels_ok h Ls end.

Definition addrs (Ls : list Level) : list nat := concat (level_addrs <$> Ls).

Lemma filter_none {A} (P : A → Prop) `{∀ x, Decision (P x)} (l : list A) : Forall (λ x, ¬ P x) l → filter P l = [].
Proof. induction 1; [done|]. by rewrite filter_cons_False. Qed.

Section target.
Context (t : Z).

Definition lo (l : list Item) : list Item := filter (λ x, value x < t)%Z l.
Definition hi (l : list Item) : list Item := filter (λ x, t ≤ value x)%Z l.

Lemma lo_hi l : StronglySorted (λ x y, value x ≤ value y)%Z l → l = lo l ++ hi l.
Proof.
  induction 1 as [|x l Hs IH Hx]; [done|]. unfold lo, hi in *. rewrite !filter_cons.
  destruct (decide (value x < t)%Z).
  - rewrite decide_False by lia. simpl. by rewrite <-IH.
  - rewrite decide_True by lia. rewrite Forall_forall in Hx.
    assert (filter (λ x, value x < t)%Z l = []) as ->.
    { apply filter_none, Forall_forall. intros y Hy. specialize (Hx y Hy). simpl in Hx. lia. }
    simpl. f_equal. rewrite filter_all; [done|]. apply Forall_forall. intros y Hy. specialize (Hx y Hy). simpl in Hx. lia.
Qed.

(** The node before the place of [t] in a level, and where it points down. *)
Definition pred (L : Level) : nat := default (lhead L) (addr <$> last (lo (items L))).
Definition pred_down (dn : option nat) (L : Level) : option nat :=
  match last (lo (items L)) with Some x => below x | None => dn end.

(** A place from which the walk can start. *)
Definition start (L : Level) (c : nat) : Prop := c = lhead L ∨ ∃ x, x ∈ lo (items L) ∧ c = addr x.

Lemma seg_app h r l1 x l2 :
  seg h r (l1 ++ x :: l2) → ∃ r', h !! addr x = Some {| val := value x; right := r'; down := below x |} ∧ seg h r' l2.
Proof. revert r. induction l1 as [|y l1 IH]; intros r; simpl; [naive_solver|]. intros (_ & r' & _ & Hs). eauto. Qed.

Lemma seg_head h r l : seg h r l → r = addr <$> hd_error l.
Proof. destruct l; simpl; [done|]. by intros [-> _]. Qed.

Lemma walk_seg h l1 l2 fuel c v r d :
  h !! c = Some {| val := v; right := r; down := d |} → seg h r (l1 ++ l2) →
  Forall (λ x, value x < t)%Z l1 → Forall (λ x, t ≤ value x)%Z l2 → length l1 < fuel →
  walk fuel h c t = Some (default c (addr <$> last l1)).
Proof.
  revert fuel c v r d. induction l1 as [|x l1 IH]; intros [|fuel] c v r d Hc Hs H1 H2 Hf; simpl in Hf; try lia; cbn [walk];
    rewrite Hc; cbn [mbind option_bind right].
  - destruct l2 as [|y l2]; simpl in Hs; [by subst|]. destruct Hs as (-> & r' & Hy & _). rewrite Hy. cbn [mbind option_bind val].
    apply Forall_cons in H2 as [H2 _]. destruct (Z.ltb_spec (value y) t); [lia|done].
  - simpl in Hs. destruct Hs as (-> & r' & Hx & Hs). rewrite Hx. cbn [mbind option_bind val].
    apply Forall_cons in H1 as [Hx1 H1]. destruct (Z.ltb_spec (value x) t); [|lia].
    rewrite (IH fuel (addr x) _ r' _ Hx Hs H1 H2) by lia. rewrite last_cons. by destruct (last l1).
Qed.

Lemma lo_Forall l : Forall (λ x, value x < t)%Z (lo l).
Proof. apply Forall_forall. by intros x [? _]%list_elem_of_filter. Qed.

Lemma hi_Forall l : Forall (λ x, t ≤ value x)%Z (hi l).
Proof. apply Forall_forall. by intros x [? _]%list_elem_of_filter. Qed.

(** Wherever it starts in a level, the walk ends at the predecessor. *)
Lemma walk_level h dn L c fuel :
  level_ok h dn L → start L c → length (items L) < fuel → walk fuel h c t = Some (pred L).
Proof.
  intros (v & r & Hh & Hs & Hso) Hc Hf. pose proof (lo_hi (items L) Hso) as Hl. rewrite Hl in Hs.
  assert (length (lo (items L)) ≤ length (items L)) by apply length_filter.
  destruct Hc as [->|(x & Hx & ->)].
  - rewrite (walk_seg h (lo (items L)) (hi (items L)) fuel _ v r dn); try done; [apply lo_Forall|apply hi_Forall|lia].
  - apply list_elem_of_split in Hx as (l1 & l2 & E). unfold pred. rewrite E in *. rewrite <-app_assoc in Hs. simpl in Hs.
    destruct (seg_app _ _ _ _ _ Hs) as (r' & Hx & Hs'). rewrite last_app_cons, last_cons. rewrite length_app in *. simpl in *.
    pose proof (lo_Forall (items L)) as Hlo. rewrite E in Hlo. apply Forall_app in Hlo as [_ Hlo]. apply Forall_cons in Hlo as [_ Hlo].
    rewrite (walk_seg h l2 (hi (items L)) fuel _ _ r' _ Hx Hs' Hlo (hi_Forall _)) by lia. by destruct (last l2).
Qed.

(** The predecessor's node. *)
Lemma pred_node h dn L :
  level_ok h dn L →
  ∃ v r, h !! pred L = Some {| val := v; right := r; down := pred_down dn L |} ∧ seg h r (hi (items L)).
Proof.
  intros (v & r & Hh & Hs & Hso). pose proof (lo_hi (items L) Hso) as Hl. rewrite Hl in Hs. unfold pred, pred_down.
  destruct (lo (items L)) as [|x l _] using rev_ind; simpl in *; [eauto|]. rewrite last_snoc. simpl.
  rewrite <-app_assoc in Hs. simpl in Hs. destruct (seg_app _ _ _ _ _ Hs) as (r' & Hx & Hs'). eauto.
Qed.

(** The place below the predecessor is a place to start in the next level. *)
Lemma pred_start L M Ls : linked L (M :: Ls) → ∃ c, pred_down (Some (lhead M)) L = Some c ∧ start M c.
Proof.
  intros Hl. unfold pred_down. destruct (last (lo (items L))) as [x|] eqn:E.
  - assert (x ∈ lo (items L)) as [Hv Hx]%list_elem_of_filter by (by apply last_Some_elem_of).
    assert ((below x, value x) ∈ (λ y, (Some (addr y), value y)) <$> items M) as Hin.
    { eapply elem_of_sublist; [|exact Hl]. by apply (list_elem_of_fmap_2 (λ x, (below x, value x))). }
    apply list_elem_of_fmap in Hin as (y & [= Hb Hvy] & Hy). rewrite Hb. exists (addr y). split; [done|]. right. exists y.
    split; [|done]. apply list_elem_of_filter. split; [lia|done].
  - exists (lhead M). split; [done|]. by left.
Qed.

Lemma pred_bottom L : linked L [] → pred_down None L = None.
Proof.
  intros Hl. unfold pred_down. destruct (last (lo (items L))) as [x|] eqn:E; [|done].
  assert (x ∈ lo (items L)) as [_ Hx]%list_elem_of_filter by (by apply last_Some_elem_of). simpl in Hl.
  rewrite Forall_forall in Hl. auto.
Qed.

Lemma right_is_spec h v r d l :
  seg h r l → right_is h {| val := v; right := r; down := d |} t = Some (bool_decide (value <$> hd_error l = Some t)).
Proof.
  intros Hs. unfold right_is. simpl. destruct l as [|x l]; simpl in *; [by subst|]. destruct Hs as (-> & r' & Hx & _). rewrite Hx.
  simpl. f_equal. apply bool_decide_ext. naive_solver.
Qed.

(** The target is in a level exactly if it comes first in its upper part. *)
Lemma head_hi l : StronglySorted (λ x y, value x ≤ value y)%Z l → value <$> hd_error (hi l) = Some t ↔ t ∈ value <$> l.
Proof.
  intros Hs. rewrite (lo_hi l Hs) at 2. rewrite fmap_app, elem_of_app.
  assert (t ∉ value <$> lo l) as Hlo.
  { intros (x & E & Hx)%list_elem_of_fmap. pose proof (proj1 (Forall_forall _ _) (lo_Forall l) x Hx) as Hlt. simpl in Hlt. lia. }
  assert (StronglySorted (λ x y, value x ≤ value y)%Z (hi l)) as Hsh.
  { clear -Hs. unfold hi. induction Hs as [|x l Hs IH Hx]; [constructor|]. rewrite filter_cons. case_decide; [|done].
    constructor; [done|]. apply Forall_forall. intros y [_ Hy]%list_elem_of_filter. rewrite Forall_forall in Hx. auto. }
  pose proof (hi_Forall l) as Hhi. destruct (hi l) as [|x l']; csimpl.
  - split; [done|]. intros [?|?%not_elem_of_nil]; done.
  - apply Forall_cons in Hhi as [Hx Hhi]. apply StronglySorted_inv in Hsh as [_ Hsh]. split; [intros [= ->]; right; by left|].
    intros [?|[->|Hin]%elem_of_cons]; [done|done|]. apply list_elem_of_fmap in Hin as (y & -> & Hy). f_equal.
    rewrite Forall_forall in Hsh. specialize (Hsh y Hy). simpl in *. lia.
Qed.
End target.

(** The values held: those of the bottom level. *)
Definition values (L : Level) : list Z := value <$> items L.

Fixpoint contents (Ls : list Level) : list Z :=
  match Ls with [] => [] | [L] => values L | _ :: Ls => contents Ls end.

Lemma linked_values L M Ls t : linked L (M :: Ls) → t ∈ values L → t ∈ values M.
Proof.
  intros Hl (x & -> & Hx)%list_elem_of_fmap.
  assert ((below x, value x) ∈ (λ y, (Some (addr y), value y)) <$> items M) as Hin.
  { eapply elem_of_sublist; [|exact Hl]. by apply (list_elem_of_fmap_2 (λ x, (below x, value x))). }
  apply list_elem_of_fmap in Hin as (y & [= _ Hvy] & Hy). rewrite Hvy. by apply (list_elem_of_fmap_2 value).
Qed.

(** A value in any level is in the bottom level. *)
Lemma levels_contents h L Ls t : levels_ok h (L :: Ls) → t ∈ values L → t ∈ contents (L :: Ls).
Proof.
  revert L. induction Ls as [|M Ls IH]; intros L; [done|]. intros (_ & Hl & Hls) Ht. apply IH; [done|]. by eapply linked_values.
Qed.

(** The heap has room for the walks. *)
Definition roomy (h : gmap nat Node) (Ls : list Level) : Prop :=
  length Ls ≤ size h ∧ ∀ L, L ∈ Ls → length (items L) < size h.

Lemma serach_loop_spec h L Ls c t fuel :
  levels_ok h (L :: Ls) → (∀ M, M ∈ L :: Ls → length (items M) < size h) → length Ls < fuel → start t L c →
  serach_loop fuel h (Some c) t = Some (bool_decide (t ∈ contents (L :: Ls))).
Proof.
  revert L c fuel. induction Ls as [|M Ls IH]; intros L c [|fuel] (Hok & Hl & Hls) Hroom Hf Hc; simpl in Hf; try lia;
    cbn [serach_loop]; rewrite (walk_level t h _ L c _ Hok Hc) by (apply Hroom; by left); cbn [mbind option_bind];
    destruct (pred_node t h _ L Hok) as (v & r & Hp & Hs); rewrite Hp; cbn [mbind option_bind];
    rewrite (right_is_spec t h v r _ _ Hs); cbn [mbind option_bind]; pose proof Hok as (_ & _ & _ & _ & Hso);
    pose proof (head_hi t (items L) Hso) as Hhi; case_bool_decide as Hb.
  - f_equal. symmetry. apply bool_decide_eq_true. simpl. by apply Hhi.
  - cbn [down]. simpl top. rewrite (pred_bottom t L Hl). destruct fuel; simpl; f_equal; symmetry; apply bool_decide_eq_false; by rewrite <-Hhi.
  - f_equal. symmetry. apply bool_decide_eq_true. apply (levels_contents h); [done|]. apply Hhi. first [done|simpl; by rewrite Hx].
  - cbn [down]. destruct (pred_start t L M Ls Hl) as (c' & Hd & Hc'). simpl top. rewrite Hd.
    rewrite (IH M c' fuel); [done|done|intros; apply Hroom; by right|lia|done].
Qed.

Record skip_inv (s : SkipList) (Ls : list Level) : Prop := {
  k_levels : levels_ok (heap s) Ls;
  k_nodup : NoDup (addrs Ls);
  k_fresh : ∀ a, a ∈ addrs Ls → a < brk s;
  k_top : top Ls = Some (head s)
}.

Lemma seg_dom h r l a : seg h r l → a ∈ addr <$> l → is_Some (h !! a).
Proof.
  revert r. induction l as [|x l IH]; intros r; csimpl; [intros _ ?%not_elem_of_nil; done|].
  intros (_ & r' & Hx & Hs) [->|Ha]%elem_of_cons; eauto.
Qed.

Lemma addrs_cons L Ls : addrs (L :: Ls) = level_addrs L ++ addrs Ls.
Proof. done. Qed.

Lemma levels_dom h Ls a : levels_ok h Ls → a ∈ addrs Ls → is_Some (h !! a).
Proof.
  induction Ls as [|L Ls IH]; [intros _ ?%not_elem_of_nil; done|]. rewrite addrs_cons.
  intros ((v & r & Hh & Hs & _) & _ & Hls) [Ha|Ha]%elem_of_app; [|auto].
  apply elem_of_cons in Ha as [->|Ha]; [eauto|by eapply seg_dom].
Qed.

Lemma addrs_size h Ls : levels_ok h Ls → NoDup (addrs Ls) → length (addrs Ls) ≤ size h.
Proof.
  intros Hok Hnd. rewrite <-size_dom, <-(size_list_to_set (C := gset nat)) by done. apply subseteq_size.
  intros a Ha%elem_of_list_to_set. apply elem_of_dom. by eapply levels_dom.
Qed.

Lemma addrs_room Ls : length Ls ≤ length (addrs Ls) ∧ ∀ L, L ∈ Ls → length (items L) < length (addrs Ls).
Proof.
  induction Ls as [|L Ls [IH1 IH2]]; [split; [simpl; lia|]; intros L ?%not_elem_of_nil; done|].
  rewrite addrs_cons, length_app. simpl. rewrite length_fmap. split; [lia|]. intros M [->|HM]%elem_of_cons; [lia|]. specialize (IH2 M HM). lia.
Qed.

Lemma levels_roomy h Ls : levels_ok h Ls → NoDup (addrs Ls) → roomy h Ls.
Proof.
  intros Hok Hnd. pose proof (addrs_size h Ls Hok Hnd). destruct (addrs_room Ls) as [H1 H2]. split; [lia|].
  intros L HL. specialize (H2 L HL). lia.
Qed.

Lemma serach_spec s Ls t : skip_inv s Ls → serach s t = Some (bool_decide (t ∈ contents Ls)).
Proof.
  intros [Hok Hnd Hf Ht]. destruct (levels_roomy _ _ Hok Hnd) as [H1 H2]. destruct Ls as [|L Ls]; [done|]. simpl in Ht. injection Ht as Ht.
  unfold serach. rewrite <-Ht. simpl in H1. rewrite (serach_loop_spec _ L Ls (lhead L)); [done|done|done|lia|]. by left.
Qed.

(** ** Changing a level *)

Lemma seg_relink h h' r l x l2 l2' q :
  seg h r (l ++ x :: l2) → (∀ y, y ∈ l → h' !! addr y = h !! addr y) →
  h' !! addr x = Some {| val := value x; right := q; down := below x |} → seg h' q l2' → seg h' r (l ++ x :: l2').
Proof.
  revert r. induction l as [|y l IH]; intros r Hs He Hx Hq; simpl in *.
  - destruct Hs as [-> _]. eauto.
  - destruct Hs as (-> & r' & Hy & Hs). split; [done|]. exists r'. rewrite He by left. split; [done|]. apply IH; [done| |done|done].
    intros; apply He; by right.
Qed.

Lemma seg_ext h h' r l : (∀ y, y ∈ l → h' !! addr y = h !! addr y) → seg h r l → seg h' r l.
Proof.
  revert r. induction l as [|y l IH]; intros r He Hs; simpl in *; [done|]. destruct Hs as (-> & r' & Hy & Hs). split; [done|].
  exists r'. rewrite He by left. split; [done|]. apply IH; [|done]. intros; apply He; by right.
Qed.

Lemma level_ext h h' dn L : (∀ a, a ∈ level_addrs L → h' !! a = h !! a) → level_ok h dn L → level_ok h' dn L.
Proof.
  intros He (v & r & Hh & Hs & Hso). exists v, r. rewrite He by left. split_and!; [done| |done]. eapply seg_ext; [|exact Hs].
  intros y Hy. apply He. right. by apply (list_elem_of_fmap_2 addr).
Qed.

Lemma levels_ext h h' Ls : (∀ a, a ∈ addrs Ls → h' !! a = h !! a) → levels_ok h Ls → levels_ok h' Ls.
Proof.
  induction Ls as [|L Ls IH]; [done|]. rewrite addrs_cons. intros He (Hok & Hl & Hls). split_and!; [|done|].
  - eapply level_ext; [|done]. intros; apply He, elem_of_app; by left.
  - apply IH; [|done]. intros; apply He, elem_of_app; by right.
Qed.

(** The predecessor gets a new right neighbour [q], from which the items are [l2]. *)
Lemma level_relink t h h' dn L l2 q v r :
  level_ok h dn L → h !! pred t L = Some {| val := v; right := r; down := pred_down t dn L |} →
  h' !! pred t L = Some {| val := v; right := q; down := pred_down t dn L |} →
  (∀ a, a ∈ lhead L :: (addr <$> lo t (items L)) → a ≠ pred t L → h' !! a = h !! a) →
  NoDup (lhead L :: (addr <$> lo t (items L))) → seg h' q l2 →
  StronglySorted (λ x y, value x ≤ value y)%Z (lo t (items L) ++ l2) →
  level_ok h' dn {| lhead := lhead L; items := lo t (items L) ++ l2 |}.
Proof.
  intros (v0 & r0 & Hh & Hs & Hso) Hp Hp' He Hnd Hq Hso'. rewrite (lo_hi t (items L) Hso) in Hs.
  unfold pred, pred_down in *. destruct (lo t (items L)) as [|x l _] eqn:El using rev_ind; simpl in *.
  - simplify_eq. eexists _, q. done.
  - rewrite last_snoc in *. simpl in *. rewrite fmap_app in *. csimpl in *. apply NoDup_cons in Hnd as [Hn1 Hnd].
    apply NoDup_app in Hnd as (Hnd & Hd & _). rewrite <-!app_assoc in *. simpl in *.
    destruct (seg_app _ _ _ _ _ Hs) as (r' & Hx & _). simplify_eq.
    exists v0, r0. cbn [lhead items]. split_and!; [| |done].
    + rewrite He; [done|by left|]. intros E. apply Hn1. rewrite E. set_solver.
    + eapply seg_relink; [exact Hs| |done|done]. intros y Hy. apply He; [right; apply elem_of_app; left; by apply (list_elem_of_fmap_2 addr)|].
      intros E. apply (Hd (addr y)); [by apply (list_elem_of_fmap_2 addr)|]. rewrite E. by left.
Qed.

(** Removing the first item with a value. *)
Fixpoint remove_first {A} (v : A → Z) (t : Z) (l : list A) : list A :=
  match l with [] => [] | x :: l => if decide (v x = t) then l else x :: remove_first v t l end.

Lemma remove_first_sublist {A} (v : A → Z) t l : sublist (remove_first v t l) l.
Proof. induction l as [|x l IH]; simpl; [done|]. case_decide; [by constructor|by constructor]. Qed.

Lemma remove_first_mono {A} (v : A → Z) t l1 l2 : sublist l1 l2 → sublist (remove_first v t l1) (remove_first v t l2).
Proof.
  induction 1 as [|x l1 l2 Hl IH|x l1 l2 Hl IH]; simpl; [done| |].
  - case_decide; [done|]. by constructor.
  - case_decide; [|by constructor]. etrans; [apply remove_first_sublist|done].
Qed.

Lemma remove_first_fmap {A B} (f : A → B) (v : B → Z) t (l : list A) :
  remove_first v t (f <$> l) = f <$> remove_first (λ x, v (f x)) t l.
Proof. induction l as [|x l IH]; csimpl; [done|]. case_decide; [done|]. csimpl. by rewrite IH. Qed.

Lemma remove_first_absent {A} (v : A → Z) t (l : list A) : t ∉ v <$> l → remove_first v t l = l.
Proof.
  induction l as [|x l IH]; csimpl; [done|]. intros [Hx Hl]%not_elem_of_cons. rewrite decide_False by congruence. by rewrite IH.
Qed.

Lemma remove_first_lo t x l1 l2 :
  Forall (λ x, value x < t)%Z l1 → value x = t → remove_first value t (l1 ++ x :: l2) = l1 ++ l2.
Proof.
  intros H1 Hx. induction H1 as [|y l1 Hy H1 IH]; simpl; [by rewrite decide_True|]. rewrite decide_False by lia. by rewrite IH.
Qed.

Lemma Forall_sub {A} (P : A → Prop) (l1 l2 : list A) : sublist l1 l2 → Forall P l2 → Forall P l1.
Proof. rewrite !Forall_forall. intros Hl HP x Hx. apply HP. by eapply elem_of_sublist. Qed.

Definition erase_level (t : Z) (L : Level) : Level := {| lhead := lhead L; items := remove_first value t (items L) |}.

Lemma linked_erase t L Ls : linked L Ls → linked (erase_level t L) (erase_level t <$> Ls).
Proof.
  destruct Ls as [|M Ls]; simpl; intros Hl.
  - eapply Forall_sub; [apply remove_first_sublist|done].
  - apply (remove_first_mono snd t) in Hl. by rewrite !remove_first_fmap in Hl.
Qed.

Lemma level_addrs_erase t L : sublist (level_addrs (erase_level t L)) (level_addrs L).
Proof. unfold level_addrs. simpl. constructor. apply fmap_sublist, remove_first_sublist. Qed.

Lemma sublist_sorted {A} (R : relation A) (l1 l2 : list A) : sublist l1 l2 → StronglySorted R l2 → StronglySorted R l1.
Proof.
  induction 1 as [|x l1 l2 Hl IH|x l1 l2 Hl IH]; intros Hs; [done| |]; apply StronglySorted_inv in Hs as [Hs Hx]; [|auto].
  constructor; [auto|]. eapply Forall_sub; [exact Hl|done].
Qed.

(** One round of [erase] at a level that holds the target. *)
Lemma erase_round t h dn L v r x l2 r' :
  level_ok h dn L → NoDup (level_addrs L) → hi t (items L) = x :: l2 → value x = t →
  h !! pred t L = Some {| val := v; right := r; down := pred_down t dn L |} →
  h !! addr x = Some {| val := value x; right := r'; down := below x |} → seg h r' l2 →
  let h' := delete (addr x) (<[pred t L := {| val := v; right := r'; down := pred_down t dn L |}]> h) in
  level_ok h' dn (erase_level t L) ∧ ∀ a, a ∉ level_addrs L → h' !! a = h !! a.
Proof.
  intros Hok Hnd Hhi Hx Hp Hax Hs h'. pose proof Hok as (_ & _ & _ & _ & Hso). pose proof (lo_hi t (items L) Hso) as Hl.
  rewrite Hhi in Hl. unfold level_addrs in *. rewrite Hl in Hnd. rewrite fmap_app in Hnd. csimpl in Hnd.
  assert (pred t L ∈ lhead L :: (addr <$> lo t (items L))) as Hpin.
  { unfold pred. destruct (last (lo t (items L))) as [y|] eqn:E; simpl; [right|by left].
    apply (list_elem_of_fmap_2 addr). by apply last_Some_elem_of. }
  apply (NoDup_app (lhead L :: (addr <$> lo t (items L))) (addr x :: (addr <$> l2))) in Hnd as (Hnd & Hd & Hnd2).
  apply NoDup_cons in Hnd2 as [Hx2 Hnd2].
  assert (∀ a, a ∈ lhead L :: (addr <$> lo t (items L)) → a ≠ addr x) as Hne by (intros a Ha ->; apply (Hd _ Ha); by left).
  split.
  - assert (erase_level t L = {| lhead := lhead L; items := lo t (items L) ++ l2 |}) as ->.
    { unfold erase_level. f_equal. rewrite Hl at 1. apply remove_first_lo; [apply lo_Forall|done]. }
    eapply (level_relink t h); [done|exact Hp| | |done| |].
    + unfold h'. rewrite lookup_delete_ne by (symmetry; auto). by rewrite lookup_insert_eq.
    + intros a Ha Hpa. unfold h'. rewrite lookup_delete_ne by (symmetry; auto). by rewrite lookup_insert_ne.
    + eapply seg_ext; [|exact Hs]. intros y Hy. unfold h'. assert (addr y ∈ addr <$> l2) as Hy' by (by apply (list_elem_of_fmap_2 addr)).
      rewrite lookup_delete_ne by (intros E; rewrite E in Hx2; done). apply lookup_insert_ne. intros E. apply (Hd _ Hpin). rewrite E. by right.
    + eapply sublist_sorted; [|exact Hso]. rewrite Hl at 2. apply sublist_app; [done|]. by constructor.
  - intros a Ha. unfold h'. rewrite Hl, fmap_app in Ha. csimpl in Ha. rewrite not_elem_of_cons, not_elem_of_app, not_elem_of_cons in Ha.
    rewrite lookup_delete_ne by naive_solver. apply lookup_insert_ne. intros <-.
    apply elem_of_cons in Hpin. naive_solver.
Qed.

Lemma top_erase t Ls : top (erase_level t <$> Ls) = top Ls.
Proof. by destruct Ls. Qed.

Lemma erase_level_absent t L : t ∉ values L → erase_level t L = L.
Proof. intros Ht. unfold erase_level. rewrite remove_first_absent by done. by destruct L. Qed.

Lemma NoDup_level L Ls : NoDup (addrs (L :: Ls)) → NoDup (level_addrs L) ∧ NoDup (addrs Ls) ∧ ∀ a, a ∈ level_addrs L → a ∉ addrs Ls.
Proof. rewrite addrs_cons, NoDup_app. tauto. Qed.

Lemma contents_cons_absent h L Ls t : levels_ok h (L :: Ls) → t ∉ contents (L :: Ls) → t ∉ values L.
Proof. intros Hok Ht Hin. apply Ht. by eapply levels_contents. Qed.

Lemma erase_loop_spec t h L Ls c fuel found :
  levels_ok h (L :: Ls) → NoDup (addrs (L :: Ls)) → length Ls < fuel → start t L c →
  ∃ h', erase_loop fuel h (Some c) t found = Some (h', found || bool_decide (t ∈ contents (L :: Ls))) ∧
    levels_ok h' (erase_level t <$> L :: Ls) ∧ ∀ a, a ∉ addrs (L :: Ls) → h' !! a = h !! a.
Proof.
  revert h L c fuel found. induction Ls as [|M Ls IH]; intros h L c [|fuel] found (Hok & Hl & Hls) Hnd Hf Hc; simpl in Hf; try lia;
    destruct (NoDup_level _ _ Hnd) as (Hnd1 & Hnd2 & Hdis);
    destruct (levels_roomy h (L :: _) (conj Hok (conj Hl Hls)) Hnd) as [_ Hroom];
    cbn [erase_loop]; rewrite (walk_level t h _ L c _ Hok Hc) by (apply Hroom; by left); cbn [mbind option_bind];
    destruct (pred_node t h _ L Hok) as (v & r & Hp & Hs); rewrite Hp; cbn [mbind option_bind];
    rewrite (right_is_spec t h v r _ _ Hs); cbn [mbind option_bind]; pose proof Hok as (_ & _ & _ & _ & Hso);
    pose proof (head_hi t (items L) Hso) as Hhi; case_bool_decide as Hb.
  - destruct (hi t (items L)) as [|x l2] eqn:E; [done|]. simpl in Hb. injection Hb as Hx. simpl in Hs. destruct Hs as (-> & r' & Hax & Hs).
    cbn [right mbind option_bind down val]. rewrite Hax. cbn [mbind option_bind right].
    destruct (erase_round t h _ L v (Some (addr x)) x l2 r' Hok Hnd1 E Hx Hp Hax Hs) as [Hok' Hext].
    cbn [top] in *. rewrite (pred_bottom t L Hl) in *. eexists. split; [|split; [split_and!; [exact Hok'|by apply linked_erase|done]|]].
    + destruct fuel; simpl; rewrite bool_decide_true by (apply Hhi; simpl; by rewrite Hx); by rewrite orb_true_r.
    + intros a Ha. apply Hext. rewrite addrs_cons, not_elem_of_app in Ha. tauto.
  - cbn [down]. cbn [top]. rewrite (pred_bottom t L Hl). exists h. rewrite Hhi in Hb.
    split; [destruct fuel; simpl; rewrite bool_decide_false by done; by rewrite orb_false_r|].
    change (erase_level t <$> [L]) with [erase_level t L]. rewrite erase_level_absent by done. split; [by split_and!|done].
  - destruct (hi t (items L)) as [|x l2] eqn:E; [done|]. simpl in Hb. injection Hb as Hx. simpl in Hs. destruct Hs as (-> & r' & Hax & Hs).
    cbn [right mbind option_bind down val]. rewrite Hax. cbn [mbind option_bind right].
    destruct (erase_round t h _ L v (Some (addr x)) x l2 r' Hok Hnd1 E Hx Hp Hax Hs) as [Hok' Hext].
    destruct (pred_start t L M Ls Hl) as (c' & Hd & Hc'). cbn [top] in *. rewrite Hd in *. set (h1 := delete _ _) in *.
    assert (levels_ok h1 (M :: Ls)) as Hls1.
    { eapply levels_ext; [|exact Hls]. intros a Ha. apply Hext. intros Ha'. by apply (Hdis a). }
    destruct (IH h1 M c' fuel true Hls1 Hnd2 ltac:(lia) Hc') as (h2 & -> & Hls2 & Hext2). exists h2. split; [|split; [split_and!|]].
    + do 2 f_equal. symmetry. apply orb_true_intro. right. apply bool_decide_eq_true. apply (levels_contents h); [done|].
      apply Hhi. simpl. by rewrite Hx.
    + change (top (erase_level t <$> M :: Ls)) with (top (M :: Ls)). eapply level_ext; [|exact Hok']. intros a Ha. apply Hext2.
      apply Hdis. eapply elem_of_sublist; [exact Ha|apply level_addrs_erase].
    + by apply (linked_erase t L (M :: Ls)).
    + done.
    + intros a Ha. rewrite addrs_cons, not_elem_of_app in Ha. rewrite Hext2 by tauto. apply Hext. tauto.
  - cbn [down]. destruct (pred_start t L M Ls Hl) as (c' & Hd & Hc'). cbn [top]. rewrite Hd. rewrite Hhi in Hb.
    destruct (IH h M c' fuel found Hls Hnd2 ltac:(lia) Hc') as (h2 & -> & Hls2 & Hext2). exists h2. split; [done|]. split; [split_and!|].
    + rewrite erase_level_absent by done. change (top (erase_level t <$> M :: Ls)) with (top (M :: Ls)).
      eapply level_ext; [|exact Hok]. intros a Ha. by apply Hext2, Hdis.
    + by apply (linked_erase t L (M :: Ls)).
    + done.
    + intros a Ha. rewrite addrs_cons, not_elem_of_app in Ha. apply Hext2; tauto.
Qed.

Lemma addrs_erase t Ls : sublist (addrs (erase_level t <$> Ls)) (addrs Ls).
Proof. induction Ls as [|L Ls IH]; [done|]. rewrite fmap_cons, !addrs_cons. apply sublist_app; [apply level_addrs_erase|done]. Qed.

Lemma contents_erase t Ls : contents (erase_level t <$> Ls) = remove_first id t (contents Ls).
Proof.
  induction Ls as [|L [|M Ls] IH]; [done| |exact IH]. simpl. unfold values. simpl. by rewrite remove_first_fmap.
Qed.

Lemma skip_erase_spec s Ls t :
  skip_inv s Ls → ∃ s', erase s t = Some (s', bool_decide (t ∈ contents Ls)) ∧ skip_inv s' (erase_level t <$> Ls).
Proof.
  intros [Hok Hnd Hf Ht]. destruct (levels_roomy _ _ Hok Hnd) as [H1 _]. destruct Ls as [|L Ls]; [done|]. simpl in Ht, H1.
  injection Ht as Ht. unfold erase. rewrite <-Ht.
  destruct (erase_loop_spec t (heap s) L Ls (lhead L) (S (size (heap s))) false) as (h' & -> & Hok' & _); [done|done|lia|by left|].
  simpl. eexists. split; [done|]. split; simpl; [done| | |done].
  - eapply sublist_NoDup; [exact Hnd|apply (addrs_erase t (L :: Ls))].
  - intros a Ha. apply Hf. eapply elem_of_sublist; [exact Ha|apply (addrs_erase t (L :: Ls))].
Qed.

(** ** Insertion *)

(** Inserting before the first value that is not smaller. *)
Fixpoint insert_first {A} (v : A → Z) (x : A) (l : list A) : list A :=
  match l with [] => [x] | y :: l => if decide (v x ≤ v y)%Z then x :: y :: l else y :: insert_first v x l end.

Lemma insert_first_perm {A} (v : A → Z) x l : insert_first v x l ≡ₚ x :: l.
Proof. induction l as [|y l IH]; simpl; [done|]. case_decide; [done|]. rewrite IH. constructor. Qed.

Lemma insert_first_grow {A} (v : A → Z) x l : sublist l (insert_first v x l).
Proof. induction l as [|y l IH]; simpl; [by apply sublist_nil_l|]. case_decide; by repeat constructor. Qed.

Lemma insert_first_fmap {A B} (f : A → B) (v : B → Z) x (l : list A) :
  insert_first v (f x) (f <$> l) = f <$> insert_first (λ x, v (f x)) x l.
Proof. induction l as [|y l IH]; csimpl; [done|]. case_decide; csimpl; [done|]. by rewrite IH. Qed.

Lemma insert_first_mono {A} (v : A → Z) x l1 l2 :
  StronglySorted (λ x y, v x ≤ v y)%Z l2 → sublist l1 l2 → sublist (insert_first v x l1) (insert_first v x l2).
Proof.
  intros Hs Hl. revert Hs. induction Hl as [|y l1 l2 Hl IH|y l1 l2 Hl IH]; simpl; intros Hs; [done| |];
    apply StronglySorted_inv in Hs as [Hs Hy]; specialize (IH Hs).
  - case_decide; [by repeat constructor|by constructor].
  - case_decide as Hx; [|by constructor]. apply (Forall_sub _ l1) in Hy; [|done].
    assert (insert_first v x l1 = x :: l1) as ->; [|by repeat constructor].
    destruct l1 as [|z l1]; [done|]. simpl. apply Forall_cons in Hy as [Hy _]. by rewrite decide_True by lia.
Qed.

Lemma insert_first_sorted {A} (v : A → Z) x l :
  StronglySorted (λ x y, v x ≤ v y)%Z l → StronglySorted (λ x y, v x ≤ v y)%Z (insert_first v x l).
Proof.
  induction 1 as [|y l Hs IH Hy]; simpl; [by repeat constructor|]. case_decide.
  - constructor; [by constructor|]. constructor; [done|]. eapply Forall_impl; [exact Hy|]. simpl. lia.
  - constructor; [done|]. rewrite insert_first_perm. constructor; [lia|done].
Qed.

Lemma insert_first_lo t x l :
  StronglySorted (λ x y, value x ≤ value y)%Z l → value x = t → insert_first value x l = lo t l ++ x :: hi t l.
Proof.
  intros Hs Hx. induction Hs as [|y l Hs IH Hy]; [done|]. simpl. unfold lo, hi in *. rewrite !filter_cons.
  destruct (decide (value x ≤ value y)%Z).
  - rewrite decide_False by lia. rewrite decide_True by lia. rewrite Forall_forall in Hy.
    rewrite filter_none by (apply Forall_forall; intros z Hz; specialize (Hy z Hz); simpl in Hy; lia). simpl. f_equal. f_equal.
    symmetry. apply filter_all, Forall_forall. intros z Hz. specialize (Hy z Hz). simpl in Hy. lia.
  - rewrite decide_True by lia. rewrite decide_False by lia. simpl. by rewrite IH.
Qed.

Definition insert_level (x : Item) (L : Level) : Level := {| lhead := lhead L; items := insert_first value x (items L) |}.

Lemma linked_above V L Ls x : linked V (L :: Ls) → linked V (insert_level x L :: Ls).
Proof. simpl. intros Hl. etrans; [exact Hl|]. apply fmap_sublist, insert_first_grow. Qed.

(** A level and the one below it, in which the new node's lower neighbour is already. *)
Lemma linked_insert L M Ls x y :
  linked L (M :: Ls) → StronglySorted (λ x y, value x ≤ value y)%Z (items M) →
  below x = Some (addr y) → value x = value y → linked (insert_level x L) (insert_level y M :: Ls).
Proof.
  simpl. intros Hl Hs Hb Hv. apply (insert_first_mono snd (below x, value x)) in Hl.
  - rewrite (insert_first_fmap (λ x, (below x, value x)) snd x) in Hl. rewrite Hb, Hv in Hl.
    by rewrite (insert_first_fmap (λ y, (Some (addr y), value y)) snd y) in Hl.
  - clear -Hs. induction Hs as [|z l Hs IH Hz]; csimpl; constructor; [done|]. apply Forall_fmap. exact Hz.
Qed.

Lemma insert_points_spec t h L Ls c fuel :
  levels_ok h (L :: Ls) → (∀ M, M ∈ L :: Ls → length (items M) < size h) → length Ls < fuel → start t L c →
  insert_points fuel h (Some c) t = Some (pred t <$> L :: Ls).
Proof.
  revert L c fuel. induction Ls as [|M Ls IH]; intros L c [|fuel] (Hok & Hl & Hls) Hroom Hf Hc; simpl in Hf; try lia;
    cbn [insert_points]; rewrite (walk_level t h _ L c _ Hok Hc) by (apply Hroom; by left); cbn [mbind option_bind];
    destruct (pred_node t h _ L Hok) as (v & r & Hp & Hs); rewrite Hp; cbn [mbind option_bind down top].
  - rewrite (pred_bottom t L Hl). by destruct fuel.
  - destruct (pred_start t L M Ls Hl) as (c' & Hd & Hc'). rewrite Hd.
    rewrite (IH M c' fuel); [done|done|intros; apply Hroom; by right|lia|done].
Qed.

(** Replacing a level in the middle. *)
Lemma levels_replace h h' Us L L' Ls :
  levels_ok h (Us ++ L :: Ls) → level_ok h' (top Ls) L' → lhead L' = lhead L → linked L' Ls →
  (∀ V, linked V (L :: Ls) → linked V (L' :: Ls)) → (∀ a, a ∈ addrs Us ++ addrs Ls → h' !! a = h !! a) →
  levels_ok h' (Us ++ L' :: Ls).
Proof.
  intros Hok HL Hh Hlk Hv He. induction Us as [|U Us IH]; cbn [app levels_ok] in *.
  - destruct Hok as (_ & _ & Hls). split_and!; [done|done|]. by eapply levels_ext.
  - destruct Hok as (HU & HlU & Hls). rewrite addrs_cons in He. split_and!.
    + assert (top (Us ++ L' :: Ls) = top (Us ++ L :: Ls)) as -> by (destruct Us; simpl; by rewrite ?Hh).
      eapply level_ext; [|exact HU]. intros a Ha. apply He. rewrite !elem_of_app. tauto.
    + destruct Us as [|W Us]; [by apply Hv|done].
    + apply IH; [done|]. intros a Ha. apply He. rewrite !elem_of_app in *. tauto.
Qed.

(** One round of the second loop of [insert]. *)
Lemma insert_round t h dn L v r x :
  level_ok h dn L → NoDup (level_addrs L) → value x = t → addr x ∉ level_addrs L →
  h !! pred t L = Some {| val := v; right := r; down := pred_down t dn L |} → seg h r (hi t (items L)) →
  let h' := <[pred t L := {| val := v; right := Some (addr x); down := pred_down t dn L |}]>
              (<[addr x := {| val := t; right := r; down := below x |}]> h) in
  level_ok h' dn (insert_level x L) ∧ ∀ a, a ∉ level_addrs L → a ≠ addr x → h' !! a = h !! a.
Proof.
  intros Hok Hnd Hx Hfresh Hp Hs h'. pose proof Hok as (_ & _ & _ & _ & Hso). pose proof (lo_hi t (items L) Hso) as Hl.
  unfold level_addrs in *. rewrite Hl, fmap_app in Hnd, Hfresh.
  assert (pred t L ∈ lhead L :: (addr <$> lo t (items L))) as Hpin.
  { unfold pred. destruct (last (lo t (items L))) as [y|] eqn:E; simpl; [right|by left].
    apply (list_elem_of_fmap_2 addr). by apply last_Some_elem_of. }
  apply (NoDup_app (lhead L :: (addr <$> lo t (items L))) (addr <$> hi t (items L))) in Hnd as (Hnd & Hd & Hnd2).
  apply (not_elem_of_app (lhead L :: (addr <$> lo t (items L)))) in Hfresh as [Hf1 Hf2].
  assert (pred t L ≠ addr x) as Hpx by (intros E; by rewrite E in Hpin). split.
  - assert (insert_level x L = {| lhead := lhead L; items := lo t (items L) ++ x :: hi t (items L) |}) as ->.
    { unfold insert_level. f_equal. by apply insert_first_lo. }
    eapply (level_relink t h); [done|exact Hp|unfold h'; by rewrite lookup_insert_eq| |done| |].
    + intros a Ha Hpa. unfold h'. rewrite !lookup_insert_ne; [done|congruence|done].
    + simpl. split; [done|]. exists r. unfold h'. rewrite lookup_insert_ne, lookup_insert_eq, Hx by done. split; [done|].
      eapply seg_ext; [|exact Hs]. intros y Hy. assert (addr y ∈ addr <$> hi t (items L)) as Hy' by (by apply (list_elem_of_fmap_2 addr)).
      rewrite !lookup_insert_ne; [done|congruence|]. intros E. apply (Hd _ Hpin). by rewrite E.
    + rewrite <-insert_first_lo by done. by apply insert_first_sorted.
  - intros a Ha Hax. unfold h'. rewrite !lookup_insert_ne; [done|congruence|]. intros <-. apply Ha. rewrite Hl, fmap_app.
    rewrite elem_of_cons, elem_of_app in *. tauto.
Qed.

Lemma levels_split h Us U Ds :
  levels_ok h (Us ++ U :: Ds) →
  level_ok h (top Ds) U ∧ linked U Ds ∧ levels_ok h Ds ∧ ∀ V, last Us = Some V → linked V (U :: Ds).
Proof.
  induction Us as [|V Us IH]; cbn [app levels_ok]; [intros (? & ? & ?); by split_and!|].
  intros (_ & Hl & Hls). destruct (IH Hls) as (H1 & H2 & H3 & H4). split_and!; [done|done|done|].
  intros W. rewrite last_cons. destruct (last Us) as [W'|] eqn:E; [auto|]. intros [= <-]. apply last_None in E. by subst.
Qed.

Lemma addrs_app Us Ds : addrs (Us ++ Ds) = addrs Us ++ addrs Ds.
Proof. unfold addrs. by rewrite fmap_app, concat_app. Qed.

Lemma addrs_insert Us U Ds x : addrs (Us ++ insert_level x U :: Ds) ≡ₚ addr x :: addrs (Us ++ U :: Ds).
Proof.
  rewrite !addrs_app, !addrs_cons. assert (level_addrs (insert_level x U) ≡ₚ addr x :: level_addrs U) as ->.
  { unfold level_addrs. simpl. rewrite (insert_first_perm value x). csimpl. constructor. }
  simpl. symmetry. apply Permutation_middle.
Qed.

Lemma contents_app Us L Ls : contents (Us ++ L :: Ls) = contents (L :: Ls).
Proof. induction Us as [|U Us IH]; [done|]. simpl. destruct (Us ++ L :: Ls) eqn:E; [by destruct Us|]. done. Qed.

(** The lower levels [Ds] hold a new node at their top, the upper ones [Us] do not yet. *)
Definition half_done (t : Z) (Us Ds : list Level) (downNode : option nat) : Prop :=
  match Ds with
  | [] => downNode = None
  | D :: Ds => ∃ y M, D = insert_level y M ∧ downNode = Some (addr y) ∧ value y = t ∧
      StronglySorted (λ x y, value x ≤ value y)%Z (items M) ∧ ∀ U, last Us = Some U → linked U (M :: Ds)
  end.

Lemma half_done_round t h Us U Ds dn b :
  let x := {| addr := b; value := t; below := dn |} in
  levels_ok h (Us ++ U :: Ds) → NoDup (addrs (Us ++ U :: Ds)) → (∀ a, a ∈ addrs (Us ++ U :: Ds) → a < b) →
  half_done t (Us ++ [U]) Ds dn →
  ∃ v r d, h !! pred t U = Some {| val := v; right := r; down := d |} ∧
    levels_ok (<[pred t U := {| val := v; right := Some b; down := d |}]> (<[b := {| val := t; right := r; down := dn |}]> h))
      (Us ++ insert_level x U :: Ds).
Proof.
  intros x Hok Hnd Hf Hd. destruct (levels_split h Us U Ds Hok) as (HU & HlU & HDs & HV).
  destruct (pred_node t h _ U HU) as (v & r & Hp & Hs). exists v, r, (pred_down t (top Ds) U). split; [done|].
  rewrite addrs_app, addrs_cons in Hnd, Hf. apply NoDup_app in Hnd as (_ & Hdis & Hnd). apply NoDup_app in Hnd as (Hnd & Hdis' & _).
  assert (b ∉ level_addrs U) as Hfresh by (intros Hb; specialize (Hf b); rewrite !elem_of_app in Hf; specialize (Hf ltac:(tauto)); lia).
  destruct (insert_round t h (top Ds) U v r x HU Hnd eq_refl Hfresh Hp Hs) as [HU' Hext].
  eapply levels_replace; [exact Hok|exact HU'|done| | |].
  - destruct Ds as [|D Ds]; simpl in Hd.
    + simpl. rewrite insert_first_perm. by constructor.
    + destruct Hd as (y & M & -> & -> & Hy & HM & HlM). apply linked_insert; [|done|done|by rewrite Hy]. apply HlM. by rewrite last_snoc.
  - intros V. apply linked_above.
  - intros a Ha. apply Hext.
    + intros HaU. apply elem_of_app in Ha as [Ha|Ha]; [apply (Hdis a Ha); set_solver|by apply (Hdis' a)].
    + simpl. intros ->. specialize (Hf b). rewrite !elem_of_app in *. specialize (Hf ltac:(tauto)). lia.
Qed.

(** What the second loop has done when it ends. *)
Record inserted (t : Z) (Ls Ls' : list Level) (h : gmap nat Node) (b : nat) (grown : list Z) : Prop := {
  n_levels : levels_ok h Ls';
  n_nodup : NoDup (addrs Ls');
  n_fresh : ∀ a, a ∈ addrs Ls' → a < b;
  n_top : top Ls' = top Ls;
  n_contents : contents Ls' ≡ₚ grown
}.

Lemma insert_up_spec t coins Us h b Ds dn :
  levels_ok h (Us ++ Ds) → NoDup (addrs (Us ++ Ds)) → (∀ a, a ∈ addrs (Us ++ Ds) → a < b) → half_done t Us Ds dn →
  Us ++ Ds ≠ [] →
  ∃ up dn' h' b' Ls', insert_up (reverse (pred t <$> Us)) coins t dn h b = Some (up, dn', h', b') ∧
    inserted t (Us ++ Ds) Ls' h' b' (match Ds with [] => t :: contents Us | _ => contents (Us ++ Ds) end) ∧
    (up = true → half_done t [] Ls' dn').
Proof.
  revert coins h b Ds dn. induction Us as [|U Us IH] using rev_ind; intros coins h b Ds dn Hok Hnd Hf Hd Hne.
  - do 5 eexists. split; [reflexivity|]. simpl in *. split; [|done]. split; try done. by destruct Ds.
  - rewrite <-app_assoc in *. simpl in *. destruct (half_done_round t h Us U Ds dn b Hok Hnd Hf Hd) as (v & r & d & Hp & Hok').
    set (x := {| addr := b; value := t; below := dn |}) in *.
    assert (NoDup (addrs (Us ++ insert_level x U :: Ds))) as Hnd'.
    { rewrite addrs_insert. apply NoDup_cons. split; [|done]. intros Hb. specialize (Hf _ Hb). simpl in Hf. lia. }
    assert (∀ a, a ∈ addrs (Us ++ insert_level x U :: Ds) → a < S b) as Hf'.
    { intros a. rewrite addrs_insert. intros [->|Ha]%elem_of_cons; [simpl; lia|]. specialize (Hf a Ha). lia. }
    assert (contents (insert_level x U :: Ds) ≡ₚ
      match Ds with [] => t :: contents (Us ++ [U]) | _ => contents (Us ++ U :: Ds) end) as Hcont.
    { destruct Ds as [|D Ds]; rewrite contents_app; [|done]. simpl. unfold values. simpl. by rewrite (insert_first_perm value x). }
    rewrite fmap_app. change (pred t <$> [U]) with [pred t U]. rewrite reverse_snoc. cbn [insert_up]. rewrite Hp. cbn [mbind option_bind val right down].
    destruct coins as [|[] coins]; [| |].
    + do 5 eexists. split; [reflexivity|]. split; [|done]. split; [exact Hok'|done|done|by destruct Us|].
      rewrite contents_app. exact Hcont.
    + destruct (IH coins _ (S b) (insert_level x U :: Ds) (Some b) Hok' Hnd' Hf') as (up & dn' & h' & b' & Ls' & -> & Hins & Hup).
      * simpl. exists x, U. destruct (levels_split h Us U Ds Hok) as (HU & _ & _ & HV). split_and!; try done.
        by destruct HU as (_ & _ & _ & _ & ?).
      * by destruct Us.
      * do 5 eexists. split; [reflexivity|]. split; [|done]. destruct Hins as [I1 I2 I3 I4 I5]. split; [done|done|done| |].
        -- rewrite I4. by destruct Us.
        -- rewrite I5, contents_app. exact Hcont.
    + do 5 eexists. split; [reflexivity|]. split; [|done]. split; [exact Hok'|done|done|by destruct Us|].
      rewrite contents_app. exact Hcont.
Qed.

Lemma sublist_single {A} (x : A) l : x ∈ l → sublist [x] l.
Proof. induction 1 as [x l|x y l Hx IH]; [constructor; apply sublist_nil_l|by constructor]. Qed.

Lemma insert_spec s Ls t coins :
  skip_inv s Ls → ∃ s' Ls', insert s t coins = Some s' ∧ skip_inv s' Ls' ∧ contents Ls' ≡ₚ t :: contents Ls.
Proof.
  intros [Hok Hnd Hf Ht]. destruct (levels_roomy _ _ Hok Hnd) as [H1 H2]. destruct Ls as [|L Ls]; [done|].
  simpl in Ht, H1. injection Ht as Ht. unfold insert. rewrite <-Ht.
  rewrite (insert_points_spec t (heap s) L Ls (lhead L)); [|done|done|lia|by left]. cbn [mbind option_bind].
  destruct (insert_up_spec t coins (L :: Ls) (heap s) (brk s) [] None) as (up & dn & h & b & Ls' & -> & [I1 I2 I3 I4 I5] & Hup);
    rewrite ?app_nil_r; try done. rewrite app_nil_r in I4. cbn [mbind option_bind]. destruct up.
  - specialize (Hup eq_refl). destruct Ls' as [|D Ds]; [done|]. destruct Hup as (y & M & -> & -> & Hy & HM & _).
    set (x := {| addr := b; value := t; below := Some (addr y) |}).
    eexists _, ({| lhead := S b; items := [x] |} :: insert_level y M :: Ds). split; [reflexivity|]. split; [|exact I5].
    assert (∀ a, a ∈ addrs (insert_level y M :: Ds) → a ≠ b ∧ a ≠ S b) as Hne by (intros a Ha; specialize (I3 a Ha); lia).
    split; cbn [heap brk head].
    + split_and!.
      * exists 0%Z, (Some b). simpl lhead. simpl items. rewrite lookup_insert_eq. simpl in I4. injection I4 as I4. simpl. rewrite I4.
        split; [done|]. split; [|repeat constructor]. split; [done|]. exists None.
        by rewrite lookup_insert_ne, lookup_insert_eq by lia.
      * simpl. rewrite <-Hy. apply sublist_single. apply (list_elem_of_fmap_2 (λ z, (Some (addr z), value z))).
        rewrite (insert_first_perm value y). by left.
      * eapply levels_ext; [|exact I1]. intros a Ha. destruct (Hne a Ha). by rewrite !lookup_insert_ne.
    + rewrite addrs_cons. unfold level_addrs. csimpl. apply NoDup_cons. split; [|apply NoDup_cons; split; [|done]].
      * intros [Hb|Hb]%elem_of_cons; [simpl in Hb; lia|]. by destruct (Hne _ Hb).
      * intros Hb. by destruct (Hne _ Hb).
    + intros a. rewrite addrs_cons. unfold level_addrs. csimpl. intros [->|[->|Ha]%elem_of_cons]%elem_of_cons; [lia|lia|].
      specialize (I3 a Ha). lia.
    + done.
  - eexists _, Ls'. split; [reflexivity|]. split; [|exact I5]. split; simpl; try done.
Qed.

(** ** Histories *)

Inductive skip_op := Insert (t : Z) (coins : list bool) | Erase (t : Z) | Serach (t : Z).

(** The answer of [erase] and [serach]; an insertion answers nothing. *)
Definition skip_step (s : SkipList) (o : skip_op) : option (SkipList * option bool) :=
  match o with
  | Insert t coins => s ← insert s t coins; Some (s, None)
  | Erase t => '(s, b) ← erase s t; Some (s, Some b)
  | Serach t => b ← serach s t; Some (s, Some b)
  end.

(** The reference: a bag of values. *)
Definition bag_step (l : list Z) (o : skip_op) : list Z * option bool :=
  match o with
  | Insert t _ => (t :: l, None)
  | Erase t => (remove_first id t l, Some (bool_decide (t ∈ l)))
  | Serach t => (l, Some (bool_decide (t ∈ l)))
  end.

Fixpoint bag_run (l : list Z) (ops : list skip_op) : list (option bool) :=
  match ops with [] => [] | o :: ops => (bag_step l o).2 :: bag_run (bag_step l o).1 ops end.

Lemma remove_first_perm t (l1 l2 : list Z) : l1 ≡ₚ l2 → remove_first id t l1 ≡ₚ remove_first id t l2.
Proof.
  induction 1 as [|x l1 l2 Hp IH|x y l|l1 l2 l3 _ IH1 _ IH2]; simpl; [done|case_decide; [done|by constructor]| |by etrans].
  repeat case_decide; simpl in *; subst; try done; constructor.
Qed.

Lemma bag_run_perm l1 l2 ops : l1 ≡ₚ l2 → bag_run l1 ops = bag_run l2 ops.
Proof.
  revert l1 l2. induction ops as [|o ops IH]; intros l1 l2 Hp; [done|]. simpl. f_equal.
  - destruct o; simpl; [done|f_equal; apply bool_decide_ext; by rewrite Hp..].
  - apply IH. destruct o; simpl; [by constructor|by apply remove_first_perm|done].
Qed.

Lemma skip_run s Ls ops : skip_inv s Ls → ∃ s', run_out skip_step s ops = Some (s', bag_run (contents Ls) ops).
Proof.
  revert s Ls. induction ops as [|o ops IH]; intros s Ls Hs; simpl; [eauto|]. destruct o as [t coins|t|t]; simpl.
  - destruct (insert_spec s Ls t coins Hs) as (s1 & Ls1 & -> & Hs1 & Hc). simpl. destruct (IH s1 Ls1 Hs1) as (s' & ->). simpl.
    rewrite (bag_run_perm _ _ ops Hc). eauto.
  - destruct (skip_erase_spec s Ls t Hs) as (s1 & -> & Hs1). simpl. destruct (IH s1 _ Hs1) as (s' & ->). simpl.
    rewrite contents_erase. eauto.
  - rewrite (serach_spec s Ls t Hs). simpl. destruct (IH s Ls Hs) as (s' & ->). simpl. eauto.
Qed.

Lemma skip_make_inv : skip_inv SkipList_make [{| lhead := 0; items := [] |}].
Proof.
  split; simpl; [|by apply NoDup_singleton| |done].
  - split_and!; [|by constructor|done]. exists 0%Z, None. split_and!; [done|done|constructor].
  - intros a ->%list_elem_of_singleton. simpl. apply Nat.lt_0_1.
Qed.

(** C21: The skip list is a bag.  For every history of insertions, erasures and searches
    (repeated values included) and all random choices of tower heights, no deleted or
    missing node is read, every walk ends, and each search and erasure answers whether the
    value is in the bag of values inserted and not erased since. *)
Theorem skip_list_is_bag (ops : list skip_op) :
  ∃ s, run_out skip_step SkipList_make ops = Some (s, bag_run [] ops).
Proof. apply (skip_run _ _ ops skip_make_inv). Qed.

Example skip_list_demo :
  snd <$> run_out skip_step SkipList_make
    [Insert 3 [true; true]; Insert 1 []; Insert 3 [true]; Serach 3; Erase 3; Serach 3; Erase 3; Serach 3; Serach 1]%Z =
  Some [None; None; None; Some true; Some true; Some true; Some true; Some false; Some true].
Proof. vm_compute. reflexivity. Qed.
