(* ===== verification/Monitors.v ===== *)
(** * Monitors

    Programs of the shape most exercises of [src/concurrency] have: one mutex, one
    condition variable, and threads that repeat
    [while (loop) { lock; cv.wait(guard); body; notify; }].  A step is the test of the loop
    condition, one stay in the mutex, or a spurious wake-up; a thread in [cv.wait] sleeps
    until it is notified or wakes up spuriously, and then tests its guard again.

    The section proves for every such program what its threads rely on: a sleeping thread's
    guard is false (no wake-up is lost), so the program is not stuck as long as the guard of
    some unfinished thread is true; and if the rounds are bounded, it terminates.  The
    programs themselves are in [ThreadExercises]. *)
From S2P Require Import Prelude.
Local Open Scope nat_scope.

Inductive Notify := NotifyNone | NotifyOne | NotifyAll.

Inductive Mode := Head | Enter | Waiting | Done.

#[export] Instance Mode_eq_dec : EqDecision Mode.
Proof. solve_decision. Defined.

(** Where a thread is in its loop: before the test of the condition, after it, or out. *)
Inductive Stage := AtHead | Inside | Finished.

Definition stage (m : Mode) : Stage := match m with Head => AtHead | Enter | Waiting => Inside | Done => Finished end.

(** [L] is a thread's local state, [S] the state the mutex protects, [Out] what is
    printed.  A body that answers [None] breaks out of the loop. *)
Record Program (L S Out : Type) := {
  loop : L → S → bool;
  guard : L → S → bool;
  body : L → S → option (L * S * list Out * Notify)
}.
Arguments loop {L S Out}.
Arguments guard {L S Out}.
Arguments body {L S Out}.

Record Sys (L S Out : Type) := { shared : S; threads : list (L * Mode); output : list Out }.
Arguments shared {L S Out}.
Arguments threads {L S Out}.
Arguments output {L S Out}.
Arguments Build_Sys {L S Out}.

Section monitor.
Context {L S Out : Type} (P : Program L S Out).
Implicit Types (s : Sys L S Out) (ths : list (L * Mode)).

Definition start_sys (sh : S) (ls : list L) : Sys L S Out :=
  {| shared := sh; threads := (λ l, (l, Head)) <$> ls; output := [] |}.

Definition wake (x : L * Mode) : L * Mode := match x with (l, Waiting) => (l, Enter) | _ => x end.

(** [cv.notify_all()] *)
Definition wake_all ths : list (L * Mode) := wake <$> ths.

(** [cv.notify_one()] wakes a thread that sleeps, if there is one: [w] if it does. *)
Fixpoint wake_first ths : list (L * Mode) :=
  match ths with
  | [] => []
  | (l, Waiting) :: ths => (l, Enter) :: ths
  | x :: ths => x :: wake_first ths
  end.

Definition wake_one ths (w : nat) : list (L * Mode) :=
  match ths !! w with Some (l, Waiting) => <[w := (l, Enter)]> ths | _ => wake_first ths end.

Definition notify (n : Notify) (w : nat) ths : list (L * Mode) :=
  match n with NotifyNone => ths | NotifyOne => wake_one ths w | NotifyAll => wake_all ths end.

(** A turn of thread [t]; [w] is the thread a [notify_one] would choose. *)
Definition turn s (tw : nat * nat) : Sys L S Out :=
  let '(t, w) := tw in
  match threads s !! t with
  | None => s
  | Some (l, m) =>
      let goto l m := {| shared := shared s; threads := <[t := (l, m)]> (threads s); output := output s |} in
      match m with
      | Head => goto l (if loop P l (shared s) then Enter else Done)
      | Enter =>
          if guard P l (shared s) then
            match body P l (shared s) with
            | None => goto l Done
            | Some (l', sh', out, n) =>
                {| shared := sh'; threads := notify n w (<[t := (l', Head)]> (threads s)); output := output s ++ out |}
            end
          else goto l Waiting
      | Waiting => goto l Enter
      | Done => s
      end
  end.

Definition run s (sched : list (nat * nat)) : Sys L S Out := fold_left turn sched s.

(** A turn that is not a spurious wake-up and does something. *)
Definition enabled s (t : nat) : bool :=
  match threads s !! t with Some (_, Head) | Some (_, Enter) => true | _ => false end.

Definition finished s : Prop := Forall (λ x, x.2 = Done) (threads s).

(** Threads are left, and none of them can move without a spurious wake-up. *)
Definition stuck s : Prop := ¬ finished s ∧ ∀ t, enabled s t = false.

(** The turns of a schedule that are not spurious wake-ups. *)
Fixpoint work s (sched : list (nat * nat)) : nat :=
  match sched with
  | [] => 0
  | tw :: sched => (if enabled s tw.1 then 1 else 0) + work (turn s tw) sched
  end.

(** Locals and the stage of each thread, whether it sleeps or not. *)
Definition locals ths : list (L * Stage) := (λ x, (x.1, stage x.2)) <$> ths.

Lemma locals_insert t l m ths : locals (<[t := (l, m)]> ths) = <[t := (l, stage m)]> (locals ths).
Proof. unfold locals. by rewrite list_fmap_insert. Qed.

Lemma locals_same t l m m' ths :
  ths !! t = Some (l, m) → stage m = stage m' → locals (<[t := (l, m')]> ths) = locals ths.
Proof.
  intros Ht Hm. rewrite locals_insert, list_insert_id; [done|]. unfold locals. rewrite list_lookup_fmap, Ht. simpl. by rewrite Hm.
Qed.

Lemma locals_wake ths : locals (wake_all ths) = locals ths.
Proof. unfold locals, wake_all. rewrite <-list_fmap_compose. apply list_fmap_ext. by intros ? [? []] ?. Qed.

Lemma locals_wake_first ths : locals (wake_first ths) = locals ths.
Proof. induction ths as [|[l []] ths IH]; simpl; [done|by rewrite IH..|done|by rewrite IH]. Qed.

Lemma locals_notify n w ths : locals (notify n w ths) = locals ths.
Proof.
  destruct n; simpl; [done| |apply locals_wake]. unfold wake_one. destruct (ths !! w) as [[l []]|] eqn:E; try apply locals_wake_first.
  by apply (locals_same w l Waiting Enter).
Qed.

(** ** Invariants *)

Section invariant.
Context (I : S → list (L * Stage) → list Out → Prop).

(** What a program has to show: the bodies keep the invariant, and a thread may leave its
    loop where it does. *)
Class Invariant := {
  inv_enter sh ls out t l :
    I sh ls out → ls !! t = Some (l, AtHead) → loop P l sh = true → I sh (<[t := (l, Inside)]> ls) out;
  inv_leave sh ls out t l :
    I sh ls out → ls !! t = Some (l, AtHead) → loop P l sh = false → I sh (<[t := (l, Finished)]> ls) out;
  inv_break sh ls out t l :
    I sh ls out → ls !! t = Some (l, Inside) → guard P l sh = true → body P l sh = None → I sh (<[t := (l, Finished)]> ls) out;
  inv_body sh ls out t l l' sh' o n :
    I sh ls out → ls !! t = Some (l, Inside) → guard P l sh = true → body P l sh = Some (l', sh', o, n) →
    I sh' (<[t := (l', AtHead)]> ls) (out ++ o)
}.
Context `{!Invariant}.

Definition holds s : Prop := I (shared s) (locals (threads s)) (output s).

Lemma locals_lookup ths t l m : ths !! t = Some (l, m) → locals ths !! t = Some (l, stage m).
Proof. intros Ht. unfold locals. by rewrite list_lookup_fmap, Ht. Qed.

Lemma turn_holds s tw : holds s → holds (turn s tw).
Proof.
  destruct tw as [t w]. unfold turn, holds. destruct (threads s !! t) as [[l m]|] eqn:Ht; [|done].
  intros HI. pose proof (locals_lookup _ _ _ _ Ht) as Hl. destruct m; cbn [shared threads output].
  - rewrite locals_insert. destruct (loop P l (shared s)) eqn:El; [eapply inv_enter|eapply inv_leave]; eauto.
  - destruct (guard P l (shared s)) eqn:Eg; cbn [shared threads output]; [|by rewrite (locals_same t l Enter)].
    destruct (body P l (shared s)) as [[[[l' sh'] o] n]|] eqn:Eb; cbn [shared threads output].
    + rewrite locals_notify, locals_insert. eapply inv_body; eauto.
    + rewrite locals_insert. eapply inv_break; eauto.
  - by rewrite (locals_same t l Waiting).
  - done.
Qed.

Lemma run_holds s sched : holds s → holds (run s sched).
Proof. apply fold_left_invariant. apply turn_holds. Qed.

Lemma start_holds sh ls : I sh ((λ l, (l, AtHead)) <$> ls) [] → holds (start_sys sh ls).
Proof. intros HI. unfold holds, start_sys. simpl. unfold locals. by rewrite <-list_fmap_compose. Qed.
End invariant.

(** ** No lost wake-up *)

(** A sleeping thread's guard is false. *)
Definition asleep_blocked s : Prop := ∀ t l, threads s !! t = Some (l, Waiting) → guard P l (shared s) = false.

(** Every body that can make a guard true wakes everybody; with two threads, waking one
    is waking everybody else. *)
Definition notifies (N : nat) : Prop := ∀ l sh l' sh' o n,
  guard P l sh = true → body P l sh = Some (l', sh', o, n) →
  n = NotifyAll ∨ (n = NotifyOne ∧ N ≤ 2) ∨ (∀ l2, guard P l2 sh' = true → guard P l2 sh = true).

Lemma length_wake_first ths : length (wake_first ths) = length ths.
Proof. induction ths as [|[l []] ths IH]; simpl; by rewrite ?IH. Qed.

Lemma length_notify n w ths : length (notify n w ths) = length ths.
Proof.
  destruct n; simpl; [done| |unfold wake_all; by rewrite length_fmap]. unfold wake_one. repeat case_match; subst;
    rewrite ?length_insert; try done; apply length_wake_first.
Qed.

Lemma length_turn s tw : length (threads (turn s tw)) = length (threads s).
Proof.
  destruct tw as [t w]. unfold turn. repeat case_match; subst; simpl; rewrite ?length_notify, ?length_insert; done.
Qed.

Lemma wake_all_waiting ths t l : wake_all ths !! t ≠ Some (l, Waiting).
Proof. unfold wake_all. rewrite list_lookup_fmap. by destruct (ths !! t) as [[? []]|]. Qed.

(** Of two threads, one of which does not sleep, [notify_one] leaves none asleep. *)
Lemma wake_one_waiting ths t w l' u l :
  length ths ≤ 2 → ths !! t = Some (l', Head) → wake_one ths w !! u ≠ Some (l, Waiting).
Proof.
  intros Hlen Ht. destruct ths as [|[l1 m1] [|[l2 m2] [|? ?]]]; simpl in Hlen; try lia; [done|..].
  - destruct t as [|t]; simplify_eq/=. unfold wake_one. destruct w as [|[|]], u as [|[|]]; simpl; congruence.
  - destruct t as [|[|t]]; simplify_eq/=; [destruct m2|destruct m1]; unfold wake_one;
      destruct w as [|[|[|]]], u as [|[|[|]]]; simpl; congruence.
Qed.

Lemma turn_blocked s tw : notifies (length (threads s)) → asleep_blocked s → asleep_blocked (turn s tw).
Proof.
  intros HN Hb. destruct tw as [t w]. unfold turn. destruct (threads s !! t) as [[l m]|] eqn:Ht; [|done].
  assert (∀ m', m' ≠ Waiting → asleep_blocked {| shared := shared s; threads := <[t := (l, m')]> (threads s); output := output s |}) as Hgo.
  { intros m' Hm' u lu Hu. simpl in *. apply list_lookup_insert_Some in Hu as [(_ & Heq & _)|[_ Hu]]; [by simplify_eq|by apply Hb in Hu]. }
  destruct m; [by destruct (loop P l (shared s)); apply Hgo| |by apply Hgo|done].
  destruct (guard P l (shared s)) eqn:Eg.
  - destruct (body P l (shared s)) as [[[[l' sh'] o] n]|] eqn:Eb; [|by apply Hgo]. intros u lu Hu. simpl in *.
    assert (<[t := (l', Head)]> (threads s) !! t = Some (l', Head)) as Hself by (apply list_lookup_insert_eq; by eapply lookup_lt_Some).
    destruct (HN l (shared s) l' sh' o n Eg Eb) as [->|[[-> Hlen]|Hg]].
    + by apply wake_all_waiting in Hu.
    + simpl in Hu. apply (wake_one_waiting _ t w l') in Hu; [done|by rewrite length_insert|done].
    + destruct (guard P lu sh') eqn:Egu; [|done]. exfalso. apply Hg in Egu.
      assert (threads s !! u = Some (lu, Waiting)) as Hu'; [|apply Hb in Hu'; congruence].
      assert (<[t := (l', Head)]> (threads s) !! u = Some (lu, Waiting)) as Hu'.
      { clear -Hu. revert Hu. generalize (<[t := (l', Head)]> (threads s)). intros ths Hu. destruct n; simpl in Hu; [done| |by apply wake_all_waiting in Hu].
        unfold wake_one in Hu. assert (∀ ths u, wake_first ths !! u = Some (lu, Waiting) → ths !! u = Some (lu, Waiting)) as Hwf.
        { clear. induction ths as [|[l []] ths IH]; intros [|u]; simpl; try done; apply IH. }
        destruct (ths !! w) as [[lw []]|]; try (by apply Hwf).
        apply list_lookup_insert_Some in Hu as [(_ & [= ] & _)|[_ Hu]]; done. }
      by apply list_lookup_insert_Some in Hu' as [(_ & [= ] & _)|[_ Hu']].
  - intros u lu Hu. simpl in *. apply list_lookup_insert_Some in Hu as [(_ & Heq & _)|[_ Hu]]; [by simplify_eq|by apply Hb in Hu].
Qed.

Lemma run_blocked s sched : notifies (length (threads s)) → asleep_blocked s → asleep_blocked (run s sched).
Proof.
  revert s. induction sched as [|tw sched IH]; intros s HN Hb; simpl; [done|]. apply IH; [by rewrite length_turn|by apply turn_blocked].
Qed.

Lemma start_blocked sh ls : asleep_blocked (start_sys sh ls).
Proof. intros t l Ht. simpl in Ht. apply list_lookup_fmap_Some in Ht as (? & [= ] & _). Qed.

(** The program is not stuck where the guard of some unfinished thread is true. *)
Lemma not_stuck s :
  asleep_blocked s → (¬ finished s → ∃ t l, locals (threads s) !! t = Some (l, AtHead) ∨
     (locals (threads s) !! t = Some (l, Inside) ∧ guard P l (shared s) = true)) → ¬ stuck s.
Proof.
  intros Hb Hg [Hnf Hno]. destruct (Hg Hnf) as (t & l & Hl). specialize (Hno t). unfold enabled, locals in *.
  rewrite !list_lookup_fmap in Hl. destruct (threads s !! t) as [[l' m]|] eqn:Ht; simpl in Hl; [|naive_solver].
  destruct Hl as [[= -> Hm]|[[= -> Hm] Hgt]]; destruct m; try done. apply Hb in Ht. congruence.
Qed.

Lemma not_finished s : ¬ finished s ↔ ∃ t l st, locals (threads s) !! t = Some (l, st) ∧ st ≠ Finished.
Proof.
  unfold finished, locals. split.
  - intros Hn. apply not_Forall_Exists in Hn; [|intros x; apply Mode_eq_dec].
    apply Exists_exists in Hn as ([l m] & [t Ht]%list_elem_of_lookup_1 & Hm). exists t, l, (stage m).
    rewrite list_lookup_fmap, Ht. split; [done|]. destruct m; try done. by destruct Hm.
  - intros (t & l & st & Ht & Hst) Hall. rewrite list_lookup_fmap in Ht. destruct (threads s !! t) as [[l' m]|] eqn:E; [|done].
    simpl in Ht. injection Ht as -> <-. apply Hst. rewrite Forall_forall in Hall.
    specialize (Hall (l, m) (list_elem_of_lookup_2 _ _ _ E)). simpl in Hall. by subst.
Qed.

Lemma finished_stage s t l st : finished s → locals (threads s) !! t = Some (l, st) → st = Finished.
Proof.
  intros Hf Ht. destruct st; [| |done]; (destruct (proj2 (not_finished s)); [|done]; by do 3 eexists).
Qed.

(** ** Termination *)

Section termination.
Context (I : S → list (L * Stage) → list Out → Prop) `{!Invariant I} (rank : S → list (L * Stage) → nat).

(** Every round uses up some of a bounded number of rounds. *)
Class Ranked := {
  rank_body sh ls out t l l' sh' o n :
    I sh ls out → ls !! t = Some (l, Inside) → guard P l sh = true → body P l sh = Some (l', sh', o, n) →
    rank sh' (<[t := (l', AtHead)]> ls) < rank sh ls;
  rank_move sh ls out t l st st' :
    I sh ls out → ls !! t = Some (l, st) → rank sh (<[t := (l, st')]> ls) ≤ rank sh ls
}.
Context `{!Ranked}.

Definition mode_weight (x : L * Mode) : nat := match x.2 with Head => 3 | Enter => 2 | _ => 0 end.

Definition weight ths : nat := sum_list_with mode_weight ths.

(** The rounds left, each of which may wake every thread, and the turns up to the next
    wait. *)
Definition potential s : nat :=
  rank (shared s) (locals (threads s)) * (2 * length (threads s) + 3) + weight (threads s).

Lemma weight_insert ths t x y : ths !! t = Some x → weight (<[t := y]> ths) + mode_weight x = weight ths + mode_weight y.
Proof.
  unfold weight. revert t. induction ths as [|z ths IH]; intros [|t] Ht; simpl in *; simplify_eq; [lia|]. specialize (IH t Ht). lia.
Qed.

Lemma weight_notify n w ths : weight (notify n w ths) ≤ weight ths + 2 * length ths.
Proof.
  assert (∀ ths, weight (wake_first ths) ≤ weight ths + 2 * length ths) as Hf.
  { unfold weight. clear. induction ths as [|[l []] ths IH]; simpl in *; lia. }
  destruct n; simpl; [lia| |].
  - unfold wake_one. destruct (ths !! w) as [[l m]|] eqn:E; [|apply Hf]. destruct m; try apply Hf.
    pose proof (weight_insert ths w (l, Waiting) (l, Enter) E). pose proof (lookup_lt_Some _ _ _ E). simpl in *.
    unfold mode_weight in *. simpl in *. lia.
  - assert (∀ x : L * Mode, mode_weight (wake x) ≤ mode_weight x + 2) as Hx by (by intros [? []]; unfold mode_weight; simpl; lia).
    unfold weight, wake_all. induction ths as [|x ths IH]; [simpl; lia|]. specialize (Hx x). csimpl. lia.
Qed.

Lemma turn_potential s t w : holds I s → enabled s t = true → potential (turn s (t, w)) < potential s.
Proof.
  intros HI He. unfold enabled in He. destruct (threads s !! t) as [[l m]|] eqn:Ht; [|done].
  pose proof (locals_lookup _ _ _ _ Ht) as Hl. unfold turn. rewrite Ht.
  assert (∀ m', mode_weight (l, m') < mode_weight (l, m) →
    potential {| shared := shared s; threads := <[t := (l, m')]> (threads s); output := output s |} < potential s) as Hgo.
  { intros m' Hw. unfold potential. simpl. rewrite length_insert. pose proof (weight_insert (threads s) t _ (l, m') Ht).
    assert (rank (shared s) (locals (<[t := (l, m')]> (threads s))) ≤ rank (shared s) (locals (threads s))) as Hr.
    { rewrite locals_insert. eapply rank_move; [exact HI|exact Hl]. }
    pose proof (Nat.mul_le_mono_r _ _ (2 * length (threads s) + 3) Hr). simpl in *. lia. }
  destruct m; try done.
  - destruct (loop P l (shared s)); apply Hgo; unfold mode_weight; simpl; (done || lia).
  - destruct (guard P l (shared s)) eqn:Eg; [|apply Hgo; unfold mode_weight; simpl; (done || lia)].
    destruct (body P l (shared s)) as [[[[l' sh'] o] n]|] eqn:Eb; [|apply Hgo; unfold mode_weight; simpl; (done || lia)].
    unfold potential. cbn [shared threads]. rewrite length_notify, locals_notify, length_insert, locals_insert.
    pose proof (rank_body (shared s) _ _ t l l' sh' o n HI Hl Eg Eb) as Hr.
    pose proof (weight_notify n w (<[t := (l', Head)]> (threads s))) as Hw. rewrite length_insert in Hw.
    pose proof (weight_insert (threads s) t _ (l', Head) Ht) as Hi. unfold mode_weight in Hi. simpl in Hi.
    change (stage Head) with AtHead.
    pose proof (Nat.mul_le_mono_r _ _ (2 * length (threads s) + 3) Hr). simpl in *. lia.
Qed.

(** Spurious wake-ups put a thread back to its test, once each. *)
Fixpoint spurious s (sched : list (nat * nat)) : nat :=
  match sched with
  | [] => 0
  | tw :: sched =>
      (match threads s !! tw.1 with Some (_, Waiting) => 1 | _ => 0 end) + spurious (turn s tw) sched
  end.

Lemma turn_idle s t w : enabled s t = false →
  potential (turn s (t, w)) ≤ potential s + 2 * match threads s !! t with Some (_, Waiting) => 1 | _ => 0 end.
Proof.
  unfold enabled, turn. destruct (threads s !! t) as [[l []]|] eqn:Ht; intros; try done; [|lia..].
  unfold potential. simpl. rewrite length_insert, (locals_same t l Waiting) by done.
  pose proof (weight_insert (threads s) t _ (l, Enter) Ht) as Hi. unfold mode_weight in Hi. simpl in Hi. lia.
Qed.

Lemma work_bound s sched : holds I s → work s sched ≤ potential s + 2 * spurious s sched.
Proof.
  revert s. induction sched as [|[t w] sched IH]; intros s HI; [simpl; lia|]. cbn [work spurious fst].
  specialize (IH (turn s (t, w)) ltac:(by apply turn_holds)). destruct (enabled s t) eqn:He.
  - pose proof (turn_potential s t w HI He). lia.
  - pose proof (turn_idle s t w He). lia.
Qed.

(** Everything together, for the threads of a program from its start: whatever the
    schedule, the invariant holds, the threads are never stuck, and apart from spurious
    wake-ups they make a bounded number of turns. *)
Lemma monitor_total sh ls sched :
  I sh ((λ l, (l, AtHead)) <$> ls) [] → notifies (length ls) →
  (∀ sh ls out, I sh ls out → (∃ t l st, ls !! t = Some (l, st) ∧ st ≠ Finished) →
     ∃ t l, ls !! t = Some (l, AtHead) ∨ (ls !! t = Some (l, Inside) ∧ guard P l sh = true)) →
  let s := run (start_sys sh ls) sched in
  I (shared s) (locals (threads s)) (output s) ∧ ¬ stuck s ∧
  work (start_sys sh ls) sched ≤
    rank sh ((λ l, (l, AtHead)) <$> ls) * (2 * length ls + 3) + 3 * length ls + 2 * spurious (start_sys sh ls) sched.
Proof.
  intros HI HN Hlive s. pose proof (start_holds I sh ls HI) as H0. pose proof (run_holds I _ sched H0) as Hs. split_and!; [done| |].
  - apply not_stuck; [apply run_blocked; [|apply start_blocked]; simpl; by rewrite length_fmap|].
    intros Hnf%not_finished. by apply (Hlive _ _ _ Hs).
  - pose proof (work_bound _ sched H0) as Hw. etrans; [exact Hw|]. unfold potential, start_sys, locals. simpl.
    rewrite length_fmap, <-list_fmap_compose. assert (weight ((λ l, (l, Head)) <$> ls) = 3 * length ls) as ->.
    { unfold weight. clear. induction ls as [|l ls IH]; [done|]. csimpl. rewrite IH. unfold mode_weight. simpl. lia. }
    done.
Qed.
End termination.
End monitor.
