(* ===== verification/ThreadExercises.v ===== *)
(** * Thread exercises

    Programs of [src/concurrency] whose threads take turns under one mutex and one condition
    variable: [print_alternate_foo_bar.cpp], [print_even_odd.cpp],
    [print_first_second_third.cpp], [print_fizz_buzz_divisibility.cpp],
    [print_zero_even_zero_odd_sequence.cpp], [buildingH2O.cpp],
    [CyclicBarrier_ThreadSafe.cpp].  Each is a [Program] of [Monitors], with an invariant
    that ties what was printed to the shared state, and a rank that bounds its rounds. *)
From S2P Require Import Prelude Monitors.
Local Open Scope nat_scope.

(** What every theorem below says of a schedule of a program: never stuck, and a bounded
    number of turns that are not spurious wake-ups. *)
Definition no_deadlock {L S Out} (P : Program L S Out) (s0 : Sys L S Out) (bound : nat) (sched : list (nat * nat)) : Prop :=
  ¬ stuck (run P s0 sched) ∧ work P s0 sched ≤ bound + 2 * spurious P s0 sched.

(** The first [k] elements of a sequence. *)
Definition prefix_of {A} (f : nat → A) (k : nat) : list A := f <$> seq 0 k.

Lemma prefix_snoc {A} (f : nat → A) k : prefix_of f k ++ [f k] = prefix_of f (S k).
Proof. unfold prefix_of. by rewrite seq_S, fmap_app. Qed.

Lemma prefix_0 {A} (f : nat → A) : prefix_of f 0 = [].
Proof. done. Qed.

Lemma length_prefix {A} (f : nat → A) k : length (prefix_of f k) = k.
Proof. unfold prefix_of. by rewrite length_fmap, length_seq. Qed.

#[local] Opaque prefix_of.

(** ** Alternating Foo and Bar *)

Module FooBar.

Inductive Role := Foo | Bar.

(** The thread's method and its loop counter [i]. *)
Record Local := { role : Role; i : nat }.

Section foobar.
Context (max : Z).

(** [Foo] and [Bar]; the shared state is [foo_turn]. *)
Definition FooBarPrinter : Program Local bool string := {|
  loop l _ := (Z.of_nat (i l) <? max)%Z;
  guard l foo_turn := match role l with Foo => foo_turn | Bar => negb foo_turn end;
  body l _ :=
    match role l with
    | Foo => Some ({| role := Foo; i := S (i l) |}, false, ["Foo"%string], NotifyOne)
    | Bar => Some ({| role := Bar; i := S (i l) |}, true, ["Bar"%string], NotifyOne)
    end
|}.

Definition main : Sys Local bool string := start_sys true [{| role := Foo; i := 0 |}; {| role := Bar; i := 0 |}].

Definition word (k : nat) : string := if Nat.even k then "Foo" else "Bar".

Lemma word_twice b : word (b + b) = "Foo"%string ∧ word (S (b + b)) = "Bar"%string.
Proof.
  replace (b + b) with (2 * b) by lia. unfold word. rewrite Nat.even_succ. split; [by rewrite Nat.even_mul|by rewrite Nat.odd_mul].
Qed.

(** Where a loop of [max] rounds is, by its counter. *)
Definition loop_at (st : Stage) (k : nat) : Prop :=
  match st with AtHead => k ≤ Z.to_nat max | Inside => k < Z.to_nat max | Finished => k = Z.to_nat max end.

(** Both loops have counted what was printed; [foo_turn] tells whose turn it is. *)
Definition foobar_inv (foo_turn : bool) (ls : list (Local * Stage)) (out : list string) : Prop :=
  ∃ a b sa sb, ls = [({| role := Foo; i := a |}, sa); ({| role := Bar; i := b |}, sb)] ∧
    a = (if foo_turn then b else S b) ∧ loop_at sa a ∧ loop_at sb b ∧ out = prefix_of word (a + b).

#[local] Instance foobar_invariant : Invariant FooBarPrinter foobar_inv.
Proof.
  split.
  - intros ft ls out t l (a & b & sa & sb & -> & Ha & Hsa & Hsb & ->) Ht Hl. destruct t as [|[|t]]; simplify_eq/=;
      apply Z.ltb_lt in Hl; do 4 eexists; (split_and!; [done|done| | |done]); simpl in *; (done || lia).
  - intros ft ls out t l (a & b & sa & sb & -> & Ha & Hsa & Hsb & ->) Ht Hl. destruct t as [|[|t]]; simplify_eq/=;
      apply Z.ltb_ge in Hl; do 4 eexists; (split_and!; [done|done| | |done]); simpl in *; (done || lia).
  - intros ft ls out t l (a & b & sa & sb & -> & Ha & Hsa & Hsb & ->) Ht Hg Hb. destruct t as [|[|t]]; simplify_eq/=.
  - intros ft ls out t l l' ft' o n (a & b & sa & sb & -> & Ha & Hsa & Hsb & ->) Ht Hg Hb. destruct t as [|[|t]]; simplify_eq/=.
    + exists (S b), b, AtHead, sb. split_and!; try done; simpl in *; try lia.
      rewrite <-(proj1 (word_twice b)). apply prefix_snoc.
    + destruct ft; [done|]. exists (S b), (S b), sa, AtHead. split_and!; try done; simpl in *; try lia.
      rewrite Nat.add_succ_r, <-(proj2 (word_twice b)). apply prefix_snoc.
Qed.

Definition foobar_rank (_ : bool) (ls : list (Local * Stage)) : nat := sum_list_with (λ x, Z.to_nat max - i x.1) ls.

#[local] Instance foobar_ranked : Ranked FooBarPrinter foobar_inv foobar_rank.
Proof.
  split.
  - intros ft ls out t l l' ft' o n (a & b & sa & sb & -> & Ha & Hsa & Hsb & ->) Ht Hg Hb.
    destruct t as [|[|t]]; simplify_eq/=; unfold foobar_rank; simpl; lia.
  - intros ft ls out t l st st' (a & b & sa & sb & -> & _) Ht. destruct t as [|[|t]]; simplify_eq/=; unfold foobar_rank; simpl; lia.
Qed.

Lemma foobar_live ft ls out :
  foobar_inv ft ls out → (∃ t l st, ls !! t = Some (l, st) ∧ st ≠ Finished) →
  ∃ t l, ls !! t = Some (l, AtHead) ∨ (ls !! t = Some (l, Inside) ∧ guard FooBarPrinter l ft = true).
Proof.
  intros (a & b & sa & sb & -> & Ha & Hsa & Hsb & ->) (t & l & st & Ht & Hst).
  destruct sa, sb; try (exists 0; eexists; left; reflexivity); try (exists 1; eexists; left; reflexivity); destruct ft; simpl in *.
  - exists 0. eexists. right. done.
  - exists 1. eexists. right. done.
  - lia.
  - lia.
  - lia.
  - exists 1. eexists. right. done.
  - destruct t as [|[|t]]; simplify_eq/=.
  - destruct t as [|[|t]]; simplify_eq/=.
Qed.

(** Whatever the schedule, Foo and Bar alternate, the threads are never stuck, they make
    a bounded number of turns, and when both are done each word was printed [max] times. *)
Lemma foo_bar_alternate (sched : list (nat * nat)) :
  let s := run FooBarPrinter main sched in
  (∃ k, output s = prefix_of word k) ∧ no_deadlock FooBarPrinter main (14 * Z.to_nat max + 6) sched ∧
  (finished s → output s = prefix_of word (2 * Z.to_nat max)).
Proof.
  intros s. destruct (monitor_total FooBarPrinter foobar_inv foobar_rank true
    [{| role := Foo; i := 0 |}; {| role := Bar; i := 0 |}] sched) as (HI & Hns & Hw).
  - exists 0, 0, AtHead, AtHead. simpl. split_and!; (done || lia).
  - intros l sh l' sh' o n _ Hb. right. left. simpl in Hb. destruct (role l); simplify_eq; split; (done || simpl; lia).
  - apply foobar_live.
  - destruct HI as (a & b & sa & sb & Hls & Ha & Hsa & Hsb & Hout). split_and!; [by eexists| |].
    + split; [done|]. etrans; [exact Hw|]. fold main. cbn [length fmap list_fmap]. unfold foobar_rank. cbn [sum_list_with i fst]. lia.
    + intros Hfin. assert (sa = Finished ∧ sb = Finished) as [-> ->].
      { split; [eapply (finished_stage s 0 _ _ Hfin)|eapply (finished_stage s 1 _ _ Hfin)]; unfold s, main; by rewrite Hls. }
      simpl in *. subst a b. unfold s, main. rewrite Hout. f_equal. lia.
Qed.
End foobar.
End FooBar.

(** ** Threads that share a counter

    The loop of three programs:
    [while (count <= max) { lock; wait(count > max || mine); if (count > max) break; print; count++; notify }]. *)

Section turns.
Context {R S : Type}.
Context (over : S → bool) (owns : R → S → bool) (next : R → S → S) (label : R → S → string) (signal : Notify).

Definition TurnTaker : Program R S string := {|
  loop _ s := negb (over s);
  guard r s := over s || owns r s;
  body r s := if over s then None else Some (r, next r s, [label r s], signal)
|}.

(** What the program prints: [word 0], [word 1], ... up to [total]; [pos] is how far the
    shared state is. *)
Context (roles : list R) (ok : S → Prop) (pos : S → nat) (total : nat) (word : nat → string).

Class TakesTurns := {
  turns_over s : ok s → over s = bool_decide (total ≤ pos s);
  turns_next r s : ok s → over s = false → owns r s = true → ok (next r s) ∧ pos (next r s) = Datatypes.S (pos s) ∧ label r s = word (pos s);
  turns_covered s : ok s → over s = false → ∃ j r, roles !! j = Some r ∧ owns r s = true;
  turns_signal : signal = NotifyAll ∨ (signal = NotifyOne ∧ length roles ≤ 2)
}.
Context `{!TakesTurns}.

Definition turns_inv (s : S) (ls : list (R * Stage)) (out : list string) : Prop :=
  ls.*1 = roles ∧ ok s ∧ out = prefix_of word (pos s) ∧ pos s ≤ total ∧
  ∀ t r, ls !! t = Some (r, Finished) → total ≤ pos s.

Lemma fst_insert (ls : list (R * Stage)) t r st st' : ls !! t = Some (r, st) → (<[t := (r, st')]> ls).*1 = ls.*1.
Proof. intros Ht. rewrite list_fmap_insert. apply list_insert_id. by rewrite list_lookup_fmap, Ht. Qed.

#[local] Instance turns_invariant : Invariant TurnTaker turns_inv.
Proof.
  assert (∀ s ls out t r st st', turns_inv s ls out → ls !! t = Some (r, st) → (st' = Finished → total ≤ pos s) →
    turns_inv s (<[t := (r, st')]> ls) out) as Hmove.
  { intros s ls out t r st st' (Hr & Hok & Hout & Hpos & Hfin) Ht Hst. split_and!; try done; [by rewrite (fst_insert ls t r st)|].
    intros u ru Hu. apply list_lookup_insert_Some in Hu as [(_ & [= _ ->] & _)|[_ Hu]]; [auto|eauto]. }
  split.
  - intros s ls out t r HI Ht _. by eapply Hmove.
  - intros s ls out t r HI Ht Hl. eapply Hmove; [done|done|]. intros _. destruct HI as (_ & Hok & _). simpl in Hl.
    apply negb_false_iff in Hl. rewrite turns_over in Hl by done. by apply bool_decide_eq_true in Hl.
  - intros s ls out t r HI Ht _ Hb. eapply Hmove; [done|done|]. intros _. destruct HI as (_ & Hok & _). simpl in Hb.
    rewrite turns_over in Hb by done. by case_bool_decide.
  - intros s ls out t r r' s' o n (Hr & Hok & Hout & Hpos & Hfin) Ht Hg Hb. simpl in *.
    destruct (over s) eqn:Eo; simplify_eq. simpl in Hg. destruct (turns_next r' s Hok Eo Hg) as (Hok' & Hp & Hl).
    rewrite turns_over in Eo by done. apply bool_decide_eq_false in Eo. split_and!; [|done| |lia|].
    + by rewrite (fst_insert ls t r' Inside).
    + rewrite Hp, Hl. apply prefix_snoc.
    + intros u ru Hu. apply list_lookup_insert_Some in Hu as [(_ & [= ] & _)|[_ Hu]]. apply Hfin in Hu. lia.
Qed.

Definition turns_rank (s : S) (_ : list (R * Stage)) : nat := total - pos s.

#[local] Instance turns_ranked : Ranked TurnTaker turns_inv turns_rank.
Proof.
  split; [|done]. intros s ls out t r r' s' o n (Hr & Hok & Hout & Hpos & Hfin) Ht Hg Hb. simpl in *.
  destruct (over s) eqn:Eo; simplify_eq. simpl in Hg. destruct (turns_next r' s Hok Eo Hg) as (Hok' & Hp & Hl).
  rewrite turns_over in Eo by done. apply bool_decide_eq_false in Eo. unfold turns_rank. lia.
Qed.

Lemma turns_live s ls out :
  turns_inv s ls out → (∃ t r st, ls !! t = Some (r, st) ∧ st ≠ Finished) →
  ∃ t r, ls !! t = Some (r, AtHead) ∨ (ls !! t = Some (r, Inside) ∧ guard TurnTaker r s = true).
Proof.
  intros (Hr & Hok & Hout & Hpos & Hfin) (t & r & st & Ht & Hst). simpl. destruct (over s) eqn:Eo.
  - exists t, r. destruct st; [by left|by right|done].
  - destruct (turns_covered s Hok Eo) as (j & r' & Hj & Ho). rewrite <-Hr, list_lookup_fmap in Hj.
    destruct (ls !! j) as [[r'' st']|] eqn:E; simplify_eq/=. exists j, r'. rewrite turns_over in Eo by done.
    apply bool_decide_eq_false in Eo. destruct st'; [by left|by right|]. exfalso. apply Eo. by eapply Hfin.
Qed.

(** What the three programs promise. *)
Lemma turns_correct (s0 : S) (sched : list (nat * nat)) :
  ok s0 → pos s0 = 0 →
  let s := run TurnTaker (start_sys s0 roles) sched in
  (∃ k, k ≤ total ∧ output s = prefix_of word k) ∧
  no_deadlock TurnTaker (start_sys s0 roles) (total * (2 * length roles + 3) + 3 * length roles) sched ∧
  (finished s → roles ≠ [] → output s = prefix_of word total).
Proof.
  intros Hok Hp s. destruct (monitor_total TurnTaker turns_inv turns_rank s0 roles sched) as (HI & Hns & Hw).
  - split_and!; [by rewrite <-list_fmap_compose, list_fmap_id|done|by rewrite Hp, prefix_0|lia|].
    intros t r Ht. by apply list_lookup_fmap_Some in Ht as (? & [= ] & _).
  - intros r sh r' sh' o n _ Hb. simpl in Hb. destruct (over sh); simplify_eq. destruct turns_signal as [->|?]; auto.
  - apply turns_live.
  - fold s in HI. destruct HI as (Hr & Hoks & Hout & Hpos & Hfin). split_and!; [by eexists| |].
    + split; [done|]. etrans; [exact Hw|]. unfold turns_rank. rewrite Hp. lia.
    + intros Hf Hne. rewrite Hout. f_equal. destruct roles as [|r0 rs]; [done|].
      destruct (locals (threads s)) as [|[r st] ls] eqn:El; [done|]. assert (total ≤ pos (shared s)); [|lia].
      apply (Hfin 0 r). simpl. do 2 f_equal. apply (finished_stage s 0 r st Hf). by rewrite El.
Qed.
End turns.

(** *** Even and odd numbers *)

Module EvenOdd.

Inductive Role := Even | Odd.

(** [printEven] and [printOdd]; the shared state is [current]. *)
Definition owns (r : Role) (current : Z) : bool :=
  match r with Even => (Z.rem current 2 =? 0)%Z | Odd => (Z.rem current 2 =? 1)%Z end.

Definition label (r : Role) (current : Z) : string :=
  match r with Even => "Even : " +:+ pretty current | Odd => "Odd : " +:+ pretty current end.

Definition EvenOddPrinter (max : Z) : Program Role Z string :=
  TurnTaker (λ current, max <? current)%Z owns (λ _ current, current + 1)%Z label NotifyOne.

Definition main : Sys Role Z string := start_sys 1%Z [Even; Odd].

(** Odd : 1, Even : 2, Odd : 3, ... *)
Definition word (k : nat) : string :=
  (if Nat.even k then "Odd : " else "Even : ") +:+ pretty (Z.of_nat k + 1)%Z.

Lemma label_word (r : Role) (c : Z) : (1 ≤ c)%Z → owns r c = true → label r c = word (Z.to_nat (c - 1)).
Proof.
  intros Hc. unfold word. replace (Z.of_nat (Z.to_nat (c - 1)) + 1)%Z with c by lia.
  assert (Nat.even (Z.to_nat (c - 1)) = Z.odd c) as ->.
  { apply Bool.eq_iff_eq_true. rewrite Nat.even_spec, Z.odd_spec. split; intros [m Hm].
    - exists (Z.of_nat m). lia.
    - exists (Z.to_nat m). lia. }
  destruct r; simpl; rewrite Z.eqb_eq, Z.rem_mod_nonneg, Zmod_odd by lia; destruct (Z.odd c); done.
Qed.

#[export] Instance EvenOdd_turns max :
  TakesTurns (λ current, max <? current)%Z owns (λ _ current, current + 1)%Z label NotifyOne [Even; Odd]
    (λ c, 1 ≤ c)%Z (λ c, Z.to_nat (c - 1)) (Z.to_nat max) word.
Proof.
  split.
  - intros c Hc. destruct (Z.ltb_spec max c); symmetry; [apply bool_decide_eq_true|apply bool_decide_eq_false]; lia.
  - intros r c Hc _ Ho. split_and!; [lia|lia|]. by apply label_word.
  - intros c Hc _. pose proof (Z.mod_pos_bound c 2 ltac:(lia)).
    destruct (decide (c mod 2 = 0)%Z) as [E|E]; [exists 0, Even|exists 1, Odd]; simpl; rewrite Z.rem_mod_nonneg by lia; split; (done || lia).
  - by right.
Qed.
End EvenOdd.

(** *** FizzBuzz *)

Module FizzBuzz.

Inductive Role := Fizz | Buzz | Fizzbuzz | Remainder.

(** The guards of [fizz], [buzz], [fizzbuzz] and [remainder]; the shared state is [count]. *)
Definition owns (r : Role) (count : Z) : bool :=
  let by3 := (Z.rem count 3 =? 0)%Z in
  let by5 := (Z.rem count 5 =? 0)%Z in
  match r with
  | Fizz => by3 && negb by5
  | Buzz => by5 && negb by3
  | Fizzbuzz => by3 && by5
  | Remainder => negb by3 && negb by5
  end.

Definition label (r : Role) (count : Z) : string :=
  match r with Fizz => "Fizz" | Buzz => "Buzz" | Fizzbuzz => "FizzBuzz" | Remainder => pretty count end.

Definition FizzBuzzDivisibilityPrinter (max : Z) : Program Role Z string :=
  TurnTaker (λ count, max <? count)%Z owns (λ _ count, count + 1)%Z label NotifyAll.

Definition main : Sys Role Z string := start_sys 1%Z [Fizz; Buzz; Fizzbuzz; Remainder].

(** The game: a number, or a word for the multiples of 3 and 5. *)
Definition word (k : nat) : string :=
  let n := (Z.of_nat k + 1)%Z in
  if decide (n mod 15 = 0)%Z then "FizzBuzz"
  else if decide (n mod 3 = 0)%Z then "Fizz"
  else if decide (n mod 5 = 0)%Z then "Buzz" else pretty n.

Lemma mod_15 (n : Z) : (n mod 15 = 0 ↔ n mod 3 = 0 ∧ n mod 5 = 0)%Z.
Proof. split; intros; [split|]; Z.to_euclidean_division_equations; lia. Qed.

#[export] Instance FizzBuzz_turns max :
  TakesTurns (λ count, max <? count)%Z owns (λ _ count, count + 1)%Z label NotifyAll [Fizz; Buzz; Fizzbuzz; Remainder]
    (λ c, 1 ≤ c)%Z (λ c, Z.to_nat (c - 1)) (Z.to_nat max) word.
Proof.
  split.
  - intros c Hc. destruct (Z.ltb_spec max c); symmetry; [apply bool_decide_eq_true|apply bool_decide_eq_false]; lia.
  - intros r c Hc _ Ho. split_and!; [lia|lia|]. unfold word. replace (Z.of_nat (Z.to_nat (c - 1)) + 1)%Z with c by lia.
    unfold owns in Ho. rewrite !Z.rem_mod_nonneg in Ho by lia. pose proof (mod_15 c).
    destruct (Z.eqb_spec (c mod 3) 0), (Z.eqb_spec (c mod 5) 0), r; simpl in *; try done; repeat case_decide; try done; tauto.
  - intros c Hc _. unfold owns. destruct (Z.rem c 3 =? 0)%Z eqn:E3, (Z.rem c 5 =? 0)%Z eqn:E5.
    + by exists 2, Fizzbuzz.
    + by exists 0, Fizz.
    + by exists 1, Buzz.
    + by exists 3, Remainder.
  - by left.
Qed.
End FizzBuzz.

(** *** Zero, even, zero, odd *)

Module ZeroEvenOdd.

Inductive Role := Zero | Even | Odd.

Record Shared := { count : Z; printZero : bool }.

(** The guards of [zero], [even] and [odd]. *)
Definition owns (r : Role) (s : Shared) : bool :=
  match r with
  | Zero => printZero s
  | Even => negb (printZero s) && (Z.rem (count s) 2 =? 0)%Z
  | Odd => negb (printZero s) && (Z.rem (count s) 2 =? 1)%Z
  end.

Definition next (r : Role) (s : Shared) : Shared :=
  match r with Zero => {| count := count s; printZero := false |} | _ => {| count := count s + 1; printZero := true |} end.

Definition label (r : Role) (s : Shared) : string := match r with Zero => "0" | _ => pretty (count s) end.

Definition ZeroEvenZeroOddPrinter (max : Z) : Program Role Shared string :=
  TurnTaker (λ s, max <? count s)%Z owns next label NotifyAll.

Definition main : Sys Role Shared string := start_sys {| count := 1; printZero := true |} [Zero; Even; Odd].

(** 0 1 0 2 0 3 ... *)
Definition word (k : nat) : string := if Nat.even k then "0" else pretty (Z.of_nat (Nat.div2 k) + 1)%Z.

Definition pos (s : Shared) : nat := 2 * Z.to_nat (count s - 1) + if printZero s then 0 else 1.

#[export] Instance ZeroEvenOdd_turns max :
  TakesTurns (λ s, max <? count s)%Z owns next label NotifyAll [Zero; Even; Odd]
    (λ s, 1 ≤ count s ∧ (printZero s = false → count s ≤ max))%Z pos (2 * Z.to_nat max) word.
Proof.
  split.
  - intros [c z] [Hc Hz]. unfold pos. simpl in *. destruct (Z.ltb_spec max c); symmetry; [apply bool_decide_eq_true|apply bool_decide_eq_false];
      destruct z; try specialize (Hz eq_refl); lia.
  - intros r [c z] [Hc Hz] Ho Hw. unfold pos, word, owns, next, label in *. cbn [count printZero] in *. apply Z.ltb_ge in Ho.
    assert (Nat.even (2 * Z.to_nat (c - 1)) = true ∧ Nat.even (2 * Z.to_nat (c - 1) + 1) = false) as [Ev Od].
    { rewrite Nat.add_1_r, Nat.even_succ, Nat.odd_mul, Nat.even_mul. done. }
    assert (Nat.div2 (2 * Z.to_nat (c - 1) + 1) = Z.to_nat (c - 1)) as Hd by (rewrite Nat.add_1_r; apply Nat.div2_succ_double).
    destruct r; cbn [count printZero].
    + subst z. rewrite Nat.add_0_r, Ev. split_and!; [done|done|lia|done].
    + destruct z; [done|]. rewrite Od, Hd. split_and!; [lia|done|lia|]. f_equal. lia.
    + destruct z; [done|]. rewrite Od, Hd. split_and!; [lia|done|lia|]. f_equal. lia.
  - intros [c z] [Hc Hz] _. destruct z; [by exists 0, Zero|]. simpl in *. pose proof (Z.mod_pos_bound c 2 ltac:(lia)).
    destruct (decide (c mod 2 = 0)%Z); [exists 1, Even|exists 2, Odd]; unfold owns; simpl; rewrite Z.rem_mod_nonneg by lia; split; (done || lia).
  - by left.
Qed.
End ZeroEvenOdd.

(** ** First, second, third *)

Module FirstSecondThird.

Inductive Role := First | Second | Third.

(** Each method is called once. *)
Record Local := { role : Role; fired : bool }.

(** The shared state is [count]; [third] neither counts nor notifies. *)
Definition FirstSecondThirdPrinter : Program Local Z string := {|
  loop l _ := negb (fired l);
  guard l count := match role l with First => true | Second => (count =? 2)%Z | Third => (count =? 3)%Z end;
  body l count :=
    let l' := {| role := role l; fired := true |} in
    match role l with
    | First => Some (l', (count + 1)%Z, ["First"%string], NotifyAll)
    | Second => Some (l', (count + 1)%Z, ["Second"%string], NotifyAll)
    | Third => Some (l', count, ["Third"%string], NotifyNone)
    end
|}.

Definition new (r : Role) : Local := {| role := r; fired := false |}.

Definition main : Sys Local Z string := start_sys 1%Z [new First; new Second; new Third].

Definition words : list string := ["First"; "Second"; "Third"]%string.

Definition once (st : Stage) (fired : bool) : Prop :=
  match st with AtHead => True | Inside => fired = false | Finished => fired = true end.

Definition fst_inv (count : Z) (ls : list (Local * Stage)) (out : list string) : Prop :=
  ∃ f1 f2 f3 s1 s2 s3,
    ls = [({| role := First; fired := f1 |}, s1); ({| role := Second; fired := f2 |}, s2); ({| role := Third; fired := f3 |}, s3)] ∧
    once s1 f1 ∧ once s2 f2 ∧ once s3 f3 ∧
    ((f1 = false ∧ f2 = false ∧ f3 = false ∧ count = 1%Z ∧ out = []) ∨
     (f1 = true ∧ f2 = false ∧ f3 = false ∧ count = 2%Z ∧ out = take 1 words) ∨
     (f1 = true ∧ f2 = true ∧ f3 = false ∧ count = 3%Z ∧ out = take 2 words) ∨
     (f1 = true ∧ f2 = true ∧ f3 = true ∧ count = 3%Z ∧ out = words)).

#[local] Instance fst_invariant : Invariant FirstSecondThirdPrinter fst_inv.
Proof.
  split.
  - intros c ls out t l (f1 & f2 & f3 & s1 & s2 & s3 & -> & H1 & H2 & H3 & Hc) Ht Hl. destruct t as [|[|[|t]]]; simplify_eq/=;
      apply negb_true_iff in Hl; do 6 eexists; (split_and!; [done|done..|exact Hc]).
  - intros c ls out t l (f1 & f2 & f3 & s1 & s2 & s3 & -> & H1 & H2 & H3 & Hc) Ht Hl. destruct t as [|[|[|t]]]; simplify_eq/=;
      apply negb_false_iff in Hl; do 6 eexists; (split_and!; [done|done..|exact Hc]).
  - intros c ls out t l (f1 & f2 & f3 & s1 & s2 & s3 & -> & _) Ht Hg Hb. destruct t as [|[|[|t]]]; simplify_eq/=.
  - intros c ls out t l l' c' o n (f1 & f2 & f3 & s1 & s2 & s3 & -> & H1 & H2 & H3 & Hc) Ht Hg Hb.
    destruct t as [|[|[|t]]]; simplify_eq/=; try apply Z.eqb_eq in Hg;
      destruct Hc as [(?&?&?&?&?)|[(?&?&?&?&?)|[(?&?&?&?&?)|(?&?&?&?&?)]]]; simplify_eq; do 6 eexists; (split_and!; [done|done..|]); simpl; tauto.
Qed.

Definition fst_rank (_ : Z) (ls : list (Local * Stage)) : nat := length (filter (λ x, fired x.1 = false) ls).

#[local] Instance fst_ranked : Ranked FirstSecondThirdPrinter fst_inv fst_rank.
Proof.
  split.
  - intros c ls out t l l' c' o n (f1 & f2 & f3 & s1 & s2 & s3 & -> & H1 & H2 & H3 & Hc) Ht Hg Hb.
    destruct t as [|[|[|t]]]; simplify_eq/=; subst; unfold fst_rank; simpl; destruct f1 || idtac; try destruct f2; try destruct f3; simpl; lia.
  - intros c ls out t l st st' (f1 & f2 & f3 & s1 & s2 & s3 & -> & _) Ht. destruct t as [|[|[|t]]]; simplify_eq/=; destruct f1, f2, f3; unfold fst_rank; simpl; lia.
Qed.

Lemma fst_live c ls out :
  fst_inv c ls out → (∃ t l st, ls !! t = Some (l, st) ∧ st ≠ Finished) →
  ∃ t l, ls !! t = Some (l, AtHead) ∨ (ls !! t = Some (l, Inside) ∧ guard FirstSecondThirdPrinter l c = true).
Proof.
  intros (f1 & f2 & f3 & s1 & s2 & s3 & -> & H1 & H2 & H3 & Hc) (t & l & st & Ht & Hst).
  destruct s1; [by exists 0; eexists; left|by exists 0; eexists; right|].
  destruct s2; [by exists 1; eexists; left| |].
  - exists 1. eexists. right. split; [reflexivity|]. simpl in *. apply Z.eqb_eq. naive_solver.
  - destruct s3; [by exists 2; eexists; left| |].
    + exists 2. eexists. right. split; [reflexivity|]. simpl in *. apply Z.eqb_eq. naive_solver.
    + destruct t as [|[|[|t]]]; simplify_eq/=.
Qed.

(** The three words are printed in order, once each, and every thread finishes. *)
Lemma first_second_third_ordered (sched : list (nat * nat)) :
  let s := run FirstSecondThirdPrinter main sched in
  (∃ k, output s = take k words) ∧ no_deadlock FirstSecondThirdPrinter main 36 sched ∧ (finished s → output s = words).
Proof.
  intros s. destruct (monitor_total FirstSecondThirdPrinter fst_inv fst_rank 1%Z [new First; new Second; new Third] sched)
    as (HI & Hns & Hw).
  - do 6 eexists. split_and!; [reflexivity|done..|]. by left.
  - intros l c l' c' o n _ Hb. simpl in Hb. destruct (role l); simplify_eq; auto.
  - apply fst_live.
  - destruct HI as (f1 & f2 & f3 & s1 & s2 & s3 & Hls & H1 & H2 & H3 & Hc). split_and!.
    + destruct Hc as [(?&?&?&?&Ho)|[(?&?&?&?&Ho)|[(?&?&?&?&Ho)|(?&?&?&?&Ho)]]];
        [exists 0|exists 1|exists 2|exists 3]; exact Ho.
    + split; [done|]. exact Hw.
    + intros Hf. pose proof (finished_stage s 2 _ s3 Hf ltac:(unfold s, main; by rewrite Hls)) as ->. simpl in H3. subst f3.
      naive_solver.
Qed.
End FirstSecondThird.

(** ** Building water *)

Module H2O.

Inductive Role := Hydrogen | Oxygen.

Record Local := { role : Role; fired : bool }.

#[global] Instance Role_eq_dec : EqDecision Role.
Proof. solve_decision. Defined.

(** [hydrogen] and [oxygen]; the shared state is [hydrogenCount]. *)
Definition H2O : Program Local Z string := {|
  loop l _ := negb (fired l);
  guard l hydrogenCount := match role l with Hydrogen => (hydrogenCount <? 2)%Z | Oxygen => (hydrogenCount =? 2)%Z end;
  body l hydrogenCount :=
    let l' := {| role := role l; fired := true |} in
    match role l with
    | Hydrogen => Some (l', (hydrogenCount + 1)%Z, ["H"%string], NotifyAll)
    | Oxygen => Some (l', 0%Z, ["O"%string], NotifyAll)
    end
|}.

Definition new (r : Role) : Local := {| role := r; fired := false |}.

(** H H O H H O ... *)
Definition word (k : nat) : string := if decide (k mod 3 = 2) then "O" else "H".

(** The threads of a kind that have not fired. *)
Definition unfired (r : Role) (ls : list (Local * Stage)) : nat := length (filter (λ x, role x.1 = r ∧ fired x.1 = false) ls).

Section water.
Context (molecules : nat).

Definition once (x : Local * Stage) : Prop :=
  match x.2 with AtHead => True | Inside => fired x.1 = false | Finished => fired x.1 = true end.

Definition h2o_inv (hydrogenCount : Z) (ls : list (Local * Stage)) (out : list string) : Prop :=
  ∃ q r, r < 3 ∧ hydrogenCount = Z.of_nat r ∧ out = prefix_of word (3 * q + r) ∧ Forall once ls ∧
    unfired Hydrogen ls + 2 * q + r = 2 * molecules ∧ unfired Oxygen ls + q = molecules.

Lemma unfired_move r ls t l st st' : ls !! t = Some (l, st) → unfired r (<[t := (l, st')]> ls) = unfired r ls.
Proof.
  intros Ht. unfold unfired. pose proof (filter_insert_length (λ x, role x.1 = r ∧ fired x.1 = false) ls t (l, st) (l, st') Ht) as E.
  simpl in E. destruct (decide (role l = r ∧ fired l = false)); lia.
Qed.

Lemma unfired_fire r ls t l st st' :
  ls !! t = Some (l, st) → fired l = false →
  unfired r (<[t := ({| role := role l; fired := true |}, st')]> ls) + (if decide (role l = r) then 1 else 0) = unfired r ls.
Proof.
  intros Ht Hf. unfold unfired.
  pose proof (filter_insert_length (λ x, role x.1 = r ∧ fired x.1 = false) ls t (l, st) ({| role := role l; fired := true |}, st') Ht) as E.
  simpl in E. rewrite (decide_False (P := role l = r ∧ true = false)) in E by naive_solver.
  destruct (decide (role l = r)); [rewrite decide_True in E by done|rewrite decide_False in E by naive_solver]; lia.
Qed.

Lemma h2o_move h ls out t l st st' : h2o_inv h ls out → ls !! t = Some (l, st) → once (l, st') → h2o_inv h (<[t := (l, st')]> ls) out.
Proof.
  intros (q & r & Hr & Hh & Ho & Hf & H1 & H2) Ht Hst. exists q, r. rewrite !(unfired_move _ ls t l st st' Ht). split_and!; try done.
  by apply Forall_insert.
Qed.

Lemma word_at q r : r < 3 → word (3 * q + r) = if decide (r = 2) then "O"%string else "H"%string.
Proof.
  intros Hr. unfold word. replace ((3 * q + r) mod 3) with r; [done|]. symmetry.
  rewrite Nat.mul_comm, Nat.add_comm, Nat.Div0.mod_add. by apply Nat.mod_small.
Qed.

#[local] Instance h2o_invariant : Invariant H2O h2o_inv.
Proof.
  split.
  - intros h ls out t l HI Ht Hl. eapply h2o_move; [done|done|]. by apply negb_true_iff in Hl.
  - intros h ls out t l HI Ht Hl. eapply h2o_move; [done|done|]. by apply negb_false_iff in Hl.
  - intros h ls out t l HI Ht Hg Hb. simpl in Hb. by destruct (role l).
  - intros h ls out t l l' h' o n (q & r & Hr & -> & -> & Hf & H1 & H2) Ht Hg Hb.
    assert (fired l = false) as Hfl by (apply (proj1 (Forall_lookup _ _) Hf t (l, Inside) Ht)).
    pose proof (unfired_fire Hydrogen ls t l Inside AtHead Ht Hfl) as EH. pose proof (unfired_fire Oxygen ls t l Inside AtHead Ht Hfl) as EO.
    simpl in *. destruct (role l) eqn:Er; simplify_eq; simpl in EH, EO.
    + apply Z.ltb_lt in Hg. exists q, (S r). split_and!; [lia|lia| |by apply Forall_insert|lia|lia].
      rewrite Nat.add_succ_r, <-prefix_snoc, word_at by done. by rewrite decide_False by lia.
    + apply Z.eqb_eq in Hg. assert (r = 2) as -> by lia. exists (S q), 0. split_and!; [lia|done| |by apply Forall_insert|lia|lia].
      replace (3 * S q + 0) with (S (3 * q + 2)) by lia. by rewrite <-prefix_snoc, word_at by done.
Qed.

Definition h2o_rank (_ : Z) (ls : list (Local * Stage)) : nat := unfired Hydrogen ls + unfired Oxygen ls.

#[local] Instance h2o_ranked : Ranked H2O h2o_inv h2o_rank.
Proof.
  split.
  - intros h ls out t l l' h' o n (q & r & Hr & -> & -> & Hf & H1 & H2) Ht Hg Hb.
    assert (fired l = false) as Hfl by (apply (proj1 (Forall_lookup _ _) Hf t (l, Inside) Ht)).
    pose proof (unfired_fire Hydrogen ls t l Inside AtHead Ht Hfl) as EH. pose proof (unfired_fire Oxygen ls t l Inside AtHead Ht Hfl) as EO.
    unfold h2o_rank. simpl in *. destruct (role l) eqn:Er; simplify_eq; simpl in EH, EO; lia.
  - intros h ls out t l st st' _ Ht. unfold h2o_rank. by rewrite !(unfired_move _ ls t l st st' Ht).
Qed.

Lemma unfired_exists r ls : 0 < unfired r ls → ∃ t l st, ls !! t = Some (l, st) ∧ role l = r ∧ fired l = false.
Proof.
  unfold unfired. intros Hp. destruct (filter (λ x, role x.1 = r ∧ fired x.1 = false) ls) as [|[l st] rest] eqn:E; simpl in Hp; [lia|].
  assert ((l, st) ∈ filter (λ x, role x.1 = r ∧ fired x.1 = false) ls) as Hin by (rewrite E; by left).
  apply list_elem_of_filter in Hin as [[Hr Hfl] [t Ht]%list_elem_of_lookup_1]. eauto 6.
Qed.

Lemma h2o_live h ls out :
  h2o_inv h ls out → (∃ t l st, ls !! t = Some (l, st) ∧ st ≠ Finished) →
  ∃ t l, ls !! t = Some (l, AtHead) ∨ (ls !! t = Some (l, Inside) ∧ guard H2O l h = true).
Proof.
  intros (q & r & Hr & -> & -> & Hf & H1 & H2) (t & l & st & Ht & Hst). destruct st; [by exists t, l; left| |done].
  pose proof (proj1 (Forall_lookup _ _) Hf t (l, Inside) Ht) as Hfl. simpl in Hfl.
  assert (0 < unfired (role l) ls) as Hun.
  { pose proof (unfired_fire (role l) ls t l Inside AtHead Ht Hfl) as E. rewrite decide_True in E by done. lia. }
  assert (0 < unfired (if decide (r = 2) then Oxygen else Hydrogen) ls) as (u & lu & su & Hu & Hru & Hfu)%unfired_exists.
  { case_decide; [lia|]. destruct (role l); [done|]. lia. }
  pose proof (proj1 (Forall_lookup _ _) Hf u (lu, su) Hu) as Hsu. exists u, lu. destruct su; [by left| |unfold once in Hsu; simpl in Hsu; congruence].
  right. split; [done|]. simpl. rewrite Hru. case_decide; [apply Z.eqb_eq; lia|apply Z.ltb_lt; lia].
Qed.

(** Threads for [molecules] molecules, in any order of creation. *)
Lemma water_molecules (roles : list Role) (sched : list (nat * nat)) :
  length (filter (λ r, r = Hydrogen) roles) = 2 * molecules → length (filter (λ r, r = Oxygen) roles) = molecules →
  let s := run H2O (start_sys 0%Z (new <$> roles)) sched in
  (∃ k, output s = prefix_of word k) ∧
  no_deadlock H2O (start_sys 0%Z (new <$> roles)) (3 * molecules * (6 * molecules + 3) + 9 * molecules) sched ∧
  (finished s → output s = prefix_of word (3 * molecules)).
Proof.
  intros HH HO s.
  assert (∀ r, unfired r ((λ l, (l, AtHead)) <$> (new <$> roles)) = length (filter (λ x, x = r) roles)) as Hun.
  { intros r. unfold unfired. rewrite <-list_fmap_compose, filter_map, length_fmap. f_equal. apply filter_agree. intros x _. simpl. naive_solver. }
  assert (length roles = 3 * molecules) as Hlen.
  { clear -HH HO. assert (∀ roles, length roles = length (filter (λ r, r = Hydrogen) roles) + length (filter (λ r, r = Oxygen) roles)) as E.
    - clear. induction roles as [|[] roles IH]; [done|..]; rewrite !filter_cons; simpl; lia.
    - rewrite E. lia. }
  destruct (monitor_total H2O h2o_inv h2o_rank 0%Z (new <$> roles) sched) as (HI & Hns & Hw).
  - exists 0, 0. rewrite !Hun. split_and!; [lia|done|by rewrite prefix_0| |lia|lia]. by apply Forall_fmap, Forall_true.
  - intros l c l' c' o n _ Hb. simpl in Hb. left. by destruct (role l); simplify_eq.
  - apply h2o_live.
  - destruct HI as (q & r & Hr & Hh & Ho & Hf & H1 & H2). fold s in Ho, Hf, H1, H2. split_and!; [by eexists| |].
    + split; [done|]. etrans; [exact Hw|]. unfold h2o_rank. rewrite !Hun, length_fmap, Hlen. lia.
    + intros Hfin. assert (∀ r, unfired r (locals (threads s)) = 0) as H0.
      { intros r'. destruct (unfired r' (locals (threads s))) eqn:E; [done|].
        destruct (unfired_exists r' (locals (threads s))) as (t & l & st & Ht & _ & Hfl); [lia|].
        pose proof (proj1 (Forall_lookup _ _) Hf t (l, st) Ht) as Hon. rewrite (finished_stage s t l st Hfin Ht) in Hon. unfold once in Hon. simpl in Hon. congruence. }
      rewrite H0 in H1, H2. rewrite Ho. f_equal. lia.
Qed.
End water.
End H2O.

(** ** The cyclic barrier *)

Module CyclicBarrier.

(** A worker that calls [await] a number of times: the calls it has completed, and
    [ongoing_generation] while it waits in one. *)
Record Local := { passed : nat; ongoing_generation : option Z }.

Record Shared := { count : Z; generation : Z }.

Section barrier.
Context (parties rounds : nat).

(** [await], from its start to its wait, and from its wait to its end; the last thread to
    arrive runs the barrier action (it is printed with its generation). *)
Definition CyclicBarrier : Program Local Shared Z := {|
  loop l _ := passed l <? rounds;
  guard l s := match ongoing_generation l with None => true | Some g => negb (generation s =? g)%Z end;
  body l s :=
    match ongoing_generation l with
    | None =>
        if decide (count s - 1 = 0)%Z then
          Some ({| passed := S (passed l); ongoing_generation := None |},
                {| count := Z.of_nat parties; generation := generation s + 1 |}, [generation s], NotifyAll)
        else Some ({| passed := passed l; ongoing_generation := Some (generation s) |},
                   {| count := count s - 1; generation := generation s |}, [], NotifyNone)
    | Some _ => Some ({| passed := S (passed l); ongoing_generation := None |}, s, [], NotifyNone)
    end
|}.

Definition main : Sys Local Shared Z :=
  start_sys {| count := Z.of_nat parties; generation := 0 |} (replicate parties {| passed := 0; ongoing_generation := None |}).

(** A thread in generation [G]: it has not arrived, it waits, or it was released from the
    generation before and has not noticed yet. *)
Definition in_generation (G : nat) (x : Local * Stage) : Prop :=
  (x.1 = {| passed := G; ongoing_generation := None |} ∨ x.1 = {| passed := G; ongoing_generation := Some (Z.of_nat G) |} ∨
   (∃ G', G = S G' ∧ x.1 = {| passed := G'; ongoing_generation := Some (Z.of_nat G') |})) ∧
  match x.2 with
  | AtHead => passed x.1 ≤ rounds ∧ (ongoing_generation x.1 ≠ None → passed x.1 < rounds)
  | Inside => passed x.1 < rounds
  | Finished => passed x.1 = rounds ∧ ongoing_generation x.1 = None
  end.

Definition waits (G : nat) (x : Local * Stage) : Prop := ongoing_generation x.1 = Some (Z.of_nat G).

#[local] Instance waits_dec G x : Decision (waits G x).
Proof. unfold waits. apply _. Defined.

Definition waiting (G : nat) (ls : list (Local * Stage)) : nat := length (filter (waits G) ls).

Definition barrier_inv (s : Shared) (ls : list (Local * Stage)) (out : list Z) : Prop :=
  ∃ G, generation s = Z.of_nat G ∧ Forall (in_generation G) ls ∧ length ls = parties ∧
    (count s = parties - waiting G ls)%Z ∧ (1 ≤ count s)%Z ∧ out = prefix_of Z.of_nat G.

Lemma waiting_insert G ls t x y :
  ls !! t = Some x →
  waiting G (<[t := y]> ls) + (if decide (waits G x) then 1 else 0) = waiting G ls + (if decide (waits G y) then 1 else 0).
Proof. apply filter_insert_length. Qed.

Lemma waiting_move G ls t l st st' : ls !! t = Some (l, st) → waiting G (<[t := (l, st')]> ls) = waiting G ls.
Proof.
  intros Ht. pose proof (waiting_insert G ls t _ (l, st') Ht) as Hw.
  destruct (decide (waits G (l, st))) as [w|w], (decide (waits G (l, st'))) as [w'|w']; try lia; exfalso; [exact (w' w)|exact (w w')].
Qed.

Lemma all_wait G ls : waiting G ls = length ls → ∀ u y, ls !! u = Some y → waits G y.
Proof.
  unfold waiting. induction ls as [|z ls IH]; intros E [|u] y Hu; simplify_eq/=; rewrite filter_cons in E;
    pose proof (length_filter (waits G) ls); case_decide; simpl in E; try lia; [done|]. eapply IH; [lia|done].
Qed.

(** When all threads but one wait, the others do. *)
Lemma waiting_all_but G ls t x :
  ls !! t = Some x → ¬ waits G x → S (waiting G ls) = length ls → ∀ u y, ls !! u = Some y → u ≠ t → waits G y.
Proof.
  intros Ht Hx Hw u y Hu Hne. pose proof (lookup_lt_Some _ _ _ Ht) as Hlt.
  pose proof (filter_delete_length (waits G) ls t x Ht) as Hd. rewrite decide_False in Hd by done.
  assert (waiting G (delete t ls) = length (delete t ls)) as E by (unfold waiting in *; rewrite length_delete by eauto; lia).
  destruct (decide (u < t)) as [Hl|Hl].
  - apply (all_wait G _ E u). by rewrite list_lookup_delete_lt.
  - apply (all_wait G _ E (u - 1)). rewrite list_lookup_delete_ge by lia. by replace (S (u - 1)) with u by lia.
Qed.

Lemma waiting_some G ls k : waiting G ls = S k → ∃ u y, ls !! u = Some y ∧ waits G y.
Proof.
  unfold waiting. intros E. destruct (filter (waits G) ls) as [|y l] eqn:El; [done|].
  assert (y ∈ filter (waits G) ls) as [Hy [u Hu]%list_elem_of_lookup_1]%list_elem_of_filter by (rewrite El; by left). eauto.
Qed.

#[local] Instance barrier_invariant : Invariant CyclicBarrier barrier_inv.
Proof.
  assert (∀ s ls out t l st st', barrier_inv s ls out → ls !! t = Some (l, st) →
    (∀ G, in_generation G (l, st) → in_generation G (l, st')) → barrier_inv s (<[t := (l, st')]> ls) out) as Hmove.
  { intros s ls out t l st st' (G & Hg & Hf & Hlen & Hc & H1 & Ho) Ht Hst. exists G.
    rewrite length_insert, (waiting_move G ls t l st st' Ht). split_and!; try done.
    apply Forall_insert; [done|]. apply Hst. by apply (proj1 (Forall_lookup _ _) Hf t). }
  split.
  - intros s ls out t l HI Ht Hl. eapply Hmove; [done|done|]. intros G [H1 H2]. split; [done|]. simpl in *. by apply Nat.ltb_lt in Hl.
  - intros s ls out t l HI Ht Hl. eapply Hmove; [done|done|]. intros G [H1 [H2 H3]]. split; [done|]. simpl in *. apply Nat.ltb_ge in Hl.
    split; [lia|]. destruct (ongoing_generation l); [|done]. exfalso. specialize (H3 ltac:(done)). lia.
  - intros s ls out t l HI Ht Hg Hb. simpl in Hb. destruct (ongoing_generation l); [done|]. by case_decide.
  - intros s ls out t l l' s' o n (G & Hg & Hf & Hlen & Hc & H1 & Ho) Ht Hgd Hb.
    pose proof (proj1 (Forall_lookup _ _) Hf t (l, Inside) Ht) as [Hl Hin]. simpl in Hl, Hin, Hgd, Hb.
    destruct Hl as [->|[->|(G' & -> & ->)]]; simpl in *.
    + pose proof (waiting_insert G ls t (_, Inside) (l', AtHead) Ht) as Hw. rewrite (decide_False (P := waits G _)) in Hw by done.
      destruct (decide (count s - 1 = 0)%Z) as [Hlast|Hlast]; simplify_eq.
      * assert (∀ u y, ls !! u = Some y → u ≠ t → waits G y) as Hall
          by (eapply (waiting_all_but G ls t); [done|done|lia]).
        exists (S G). simpl. rewrite length_insert. split_and!; [lia| |done| |lia|].
        -- apply Forall_lookup. intros u y Hu. apply list_lookup_insert_Some in Hu as [(_ & <- & _)|[Hne Hu]].
           { split; [by left|]. simpl. split; [lia|done]. }
           destruct (proj1 (Forall_lookup _ _) Hf u y Hu) as [Hy1 Hy2]. specialize (Hall u y Hu ltac:(done)). unfold waits in Hall.
           split; [|done]. right. right. exists G. split; [done|]. destruct Hy1 as [E|[E|(G' & -> & E)]]; rewrite E in *; simpl in *; [done|done|].
           simplify_eq. lia.
        -- assert (waiting (S G) (<[t := ({| passed := S G; ongoing_generation := None |}, AtHead)]> ls) = 0) as ->; [|lia].
           destruct (waiting (S G) _) as [|k] eqn:E; [done|]. exfalso. apply waiting_some in E as (u & y & Hu & Hy).
           apply list_lookup_insert_Some in Hu as [(_ & <- & _)|[Hne Hu]]; [done|]. specialize (Hall u y Hu ltac:(done)).
           unfold waits in *. rewrite Hall in Hy. injection Hy as Hy. lia.
        -- rewrite Hg. apply prefix_snoc.
      * rewrite (decide_True (P := waits G _)) in Hw by (unfold waits; simpl; by rewrite Hg).
        exists G. simpl. rewrite length_insert, app_nil_r. split_and!; [done| |done|lia|lia|done].
        apply Forall_insert; [done|]. split; simpl; [right; left; by rewrite Hg|]. split; [lia|done].
    + apply negb_true_iff, Z.eqb_neq in Hgd. by rewrite Hg in Hgd.
    + simplify_eq. pose proof (waiting_insert (S G') ls t (_, Inside) ({| passed := S G'; ongoing_generation := None |}, AtHead) Ht) as Hw.
      rewrite !(decide_False (P := waits (S G') _)) in Hw by (unfold waits; simpl; (done || intros [= ?]; lia)).
      exists (S G'). rewrite length_insert, app_nil_r. split_and!; try done; [|lia].
      apply Forall_insert; [done|]. split; [by left|]. simpl. split; [lia|done].
Qed.

Definition local_rank (l : Local) : nat :=
  2 * (rounds - passed l) - match ongoing_generation l with Some _ => 1 | None => 0 end.

Definition barrier_rank (_ : Shared) (ls : list (Local * Stage)) : nat := sum_list_with (λ x, local_rank x.1) ls.

Lemma rank_insert ls t x y :
  ls !! t = Some x →
  sum_list_with (λ x : Local * Stage, local_rank x.1) (<[t := y]> ls) + local_rank x.1 =
  sum_list_with (λ x : Local * Stage, local_rank x.1) ls + local_rank y.1.
Proof. revert t. induction ls as [|z ls IH]; intros [|t] Ht; simpl in *; simplify_eq; [lia|]. specialize (IH t Ht). lia. Qed.

#[local] Instance barrier_ranked : Ranked CyclicBarrier barrier_inv barrier_rank.
Proof.
  split.
  - intros s ls out t l l' s' o n (G & Hg & Hf & _) Ht _ Hb. pose proof (rank_insert ls t _ (l', AtHead) Ht) as Hr.
    pose proof (proj1 (Forall_lookup _ _) Hf t (l, Inside) Ht) as [_ Hin]. unfold barrier_rank, local_rank in *. simpl in *.
    destruct (ongoing_generation l); [simplify_eq; simpl in *; lia|]. case_decide; simplify_eq; simpl in *; lia.
  - intros s ls out t l st st' _ Ht. pose proof (rank_insert ls t _ (l, st') Ht) as Hr. unfold barrier_rank. simpl in *. lia.
Qed.

Lemma barrier_live s ls out :
  barrier_inv s ls out → (∃ t l st, ls !! t = Some (l, st) ∧ st ≠ Finished) →
  ∃ t l, ls !! t = Some (l, AtHead) ∨ (ls !! t = Some (l, Inside) ∧ guard CyclicBarrier l s = true).
Proof.
  intros (G & Hg & Hf & Hlen & Hc & H1 & Ho) (t & l & st & Ht & Hst). destruct st; [by exists t, l; left| |done].
  destruct (proj1 (Forall_lookup _ _) Hf t (l, Inside) Ht) as [Hl Hin]. simpl in Hl, Hin.
  destruct (decide (waiting G ls = length ls)) as [E|E]; [lia|].
  assert (passed l = G ∨ guard CyclicBarrier l s = true) as [HG|Hgo]; [|  |exists t, l; by right].
  { destruct Hl as [->|[->|(G' & -> & ->)]]; simpl; auto. right. apply negb_true_iff, Z.eqb_neq. lia. }
  assert (∃ u y, ls !! u = Some y ∧ ¬ waits G y) as (u & [lu su] & Hu & Hy).
  { destruct (decide (Forall (waits G) ls)) as [Hall|Hnot%not_Forall_Exists].
    - exfalso. apply E. unfold waiting. by rewrite filter_all.
    - apply Exists_exists in Hnot as (y & [u Hu]%list_elem_of_lookup_1 & Hy). eauto.
    - apply _. }
  destruct (proj1 (Forall_lookup _ _) Hf u _ Hu) as [Hlu Hsu]. simpl in Hlu, Hsu. exists u, lu.
  destruct su; [by left| |].
  - right. split; [done|]. simpl. destruct Hlu as [->|[->|(G' & -> & ->)]]; simpl; [done| |].
    + by destruct Hy.
    + apply negb_true_iff, Z.eqb_neq. lia.
  - exfalso. destruct Hsu as [Hp Hn]. destruct Hlu as [->|[->|(G'' & ? & ->)]]; simplify_eq/=; lia.
Qed.

(** No thread passes the barrier for the [r]-th time before every thread has arrived for
    the [r]-th time, and the action of each generation runs once, in order; the threads are
    never stuck, and when they are done the barrier was passed [rounds] times. *)
Lemma cyclic_barrier_synchronises (sched : list (nat * nat)) :
  1 ≤ parties →
  let s := run CyclicBarrier main sched in
  (∃ G, output s = prefix_of Z.of_nat G ∧
    ∀ t l st, locals (threads s) !! t = Some (l, st) →
      passed l = G ∨ (S (passed l) = G ∧ ongoing_generation l = Some (Z.of_nat (passed l)))) ∧
  no_deadlock CyclicBarrier main (2 * parties * rounds * (2 * parties + 3) + 3 * parties) sched ∧
  (finished s → output s = prefix_of Z.of_nat rounds).
Proof.
  intros Hp s. destruct (monitor_total CyclicBarrier barrier_inv barrier_rank {| count := Z.of_nat parties; generation := 0 |}
    (replicate parties {| passed := 0; ongoing_generation := None |}) sched) as (HI & Hns & Hw).
  - assert (waiting 0 ((λ l, (l, AtHead)) <$> replicate parties {| passed := 0; ongoing_generation := None |}) = 0) as E.
    { destruct (waiting 0 _) eqn:E; [done|]. apply waiting_some in E as (u & y & Hu & Hy).
      apply list_lookup_fmap_Some in Hu as (l & -> & [-> _]%lookup_replicate). done. }
    exists 0. rewrite E, length_fmap, length_replicate. simpl. split_and!; [done| |done|lia|lia|by rewrite prefix_0].
    apply Forall_lookup. intros u y Hu. apply list_lookup_fmap_Some in Hu as (l & -> & [-> _]%lookup_replicate).
    split; [by left|]. simpl. split; [lia|done].
  - intros l c l' c' o n _ Hb. simpl in Hb. destruct (ongoing_generation l) as [g|]; simplify_eq; [by right; right|].
    case_decide; simplify_eq; [by left|]. right. right. done.
  - apply barrier_live.
  - fold main in HI. fold s in HI. destruct HI as (G & Hg & Hf & Hlen & Hc & H1 & Ho). split_and!.
    + exists G. split; [done|]. intros t l st Ht. destruct (proj1 (Forall_lookup _ _) Hf t _ Ht) as [Hl _]. simpl in Hl.
      destruct Hl as [->|[->|(G' & -> & ->)]]; simpl; auto.
    + split; [done|]. etrans; [exact Hw|]. fold main. rewrite length_replicate.
      assert (barrier_rank {| count := Z.of_nat parties; generation := 0 |}
        ((λ l, (l, AtHead)) <$> replicate parties {| passed := 0; ongoing_generation := None |}) = 2 * parties * rounds) as ->.
      { unfold barrier_rank. clear. generalize parties. intros k. induction k as [|k IH]; [done|]. csimpl. rewrite IH. unfold local_rank. simpl. lia. }
      done.
    + intros Hfin. rewrite Ho. f_equal. destruct (locals (threads s)) as [|[l st] ls] eqn:El; [simpl in Hlen; lia|].
      pose proof (finished_stage s 0 l st Hfin ltac:(by rewrite El)) as ->. apply Forall_cons in Hf as [[Hl [Hr Hn]] _]. simpl in *.
      destruct Hl as [->|[->|(G' & -> & ->)]]; simpl in *; done.
Qed.
End barrier.
End CyclicBarrier.

(** ** The programs that print in turns *)


(** The cyclic barrier synchronises its threads.  For any number of parties and
    rounds and any schedule: a thread completes its [r]-th [await] only after every thread
    has arrived for the [r]-th time (their numbers of completed rounds differ by at most one,
    and a thread that lags is one that has arrived and was released); the action runs once
    per generation, in order; no wake-up is lost, the threads are never stuck and make a
    bounded number of turns; and at the end the action ran [rounds] times. *)
Theorem cyclic_barrier_correct (parties rounds : nat) (sched : list (nat * nat)) :
  1 ≤ parties →
  let P := CyclicBarrier.CyclicBarrier parties rounds in
  let s0 := CyclicBarrier.main parties in
  let s := run P s0 sched in
  (∃ G, output s = prefix_of Z.of_nat G ∧
    ∀ t l st, locals (threads s) !! t = Some (l, st) →
      CyclicBarrier.passed l = G ∨
      (S (CyclicBarrier.passed l) = G ∧ CyclicBarrier.ongoing_generation l = Some (Z.of_nat (CyclicBarrier.passed l)))) ∧
  no_deadlock P s0 (2 * parties * rounds * (2 * parties + 3) + 3 * parties) sched ∧
  (finished s → output s = prefix_of Z.of_nat rounds).
Proof. intros Hp. by apply CyclicBarrier.cyclic_barrier_synchronises. Qed.

Lemma cyclic_barrier_correct_witness :
  1 ≤ 3 ∧ no_deadlock (CyclicBarrier.CyclicBarrier 3 2) (CyclicBarrier.main 3) 117 [(0, 0); (0, 0); (1, 0); (1, 0); (2, 0); (2, 0)].
Proof.
  split; [lia|].
  destruct (cyclic_barrier_correct 3 2 [(0, 0); (0, 0); (1, 0); (1, 0); (2, 0); (2, 0)]) as (_ & H & _); [lia|]. exact H.
Defined.

(** Water is built molecule by molecule.  Threads for [n] molecules, [2 n] hydrogen
    and [n] oxygen in any order of creation, print H H O H H O ... under every schedule; no
    wake-up is lost, they are never stuck, and when all are done [n] molecules were built. *)
Theorem h2o_builds_water (n : nat) (roles : list H2O.Role) (sched : list (nat * nat)) :
  length (filter (λ r, r = H2O.Hydrogen) roles) = 2 * n → length (filter (λ r, r = H2O.Oxygen) roles) = n →
  let s := run H2O.H2O (start_sys 0%Z (H2O.new <$> roles)) sched in
  (∃ k, output s = prefix_of H2O.word k) ∧
  no_deadlock H2O.H2O (start_sys 0%Z (H2O.new <$> roles)) (3 * n * (6 * n + 3) + 9 * n) sched ∧
  (finished s → output s = prefix_of H2O.word (3 * n)).
Proof. apply H2O.water_molecules. Qed.

Lemma h2o_builds_water_witness :
  ∃ k, output (run H2O.H2O (start_sys 0%Z (H2O.new <$> [H2O.Oxygen; H2O.Hydrogen; H2O.Hydrogen]))
    [(0, 0); (0, 0); (1, 0); (1, 0); (2, 0); (2, 0); (0, 0)]) = prefix_of H2O.word k.
Proof.
  destruct (h2o_builds_water 1 [H2O.Oxygen; H2O.Hydrogen; H2O.Hydrogen] [(0, 0); (0, 0); (1, 0); (1, 0); (2, 0); (2, 0); (0, 0)])
    as (H & _); [reflexivity|reflexivity|]. exact H.
Defined.
