(* ===== verification/Pools.v ===== *)
(** * The thread pool and the connection pool

    [src/concurrency/ThreadPool_TaskExecution.cpp] and [src/concurrency/ConnectionPool.cpp]:
    a queue under a mutex with one condition variable, on which workers wait for tasks and
    clients for connections.  Both notify after they have left the critical section, so
    that other threads run in between.  A step is one stay of a thread in the mutex, one
    notification, one task or one use of a connection; a thread that sleeps may wake up
    spuriously.

    For both: what is handed out, in which order and to whom; no wake-up is lost, so that
    when nothing can move there is nothing left to do; and the number of turns is bounded. *)
From S2P Require Import Prelude.
Local Open Scope nat_scope.

(** ** The thread pool *)

Module ThreadPool.
Section pool.
Context {Task : Type}.

(** A worker is about to test the predicate of its wait, sleeps in it, runs a task, or has
    returned. *)
Inductive Worker := Checking | Asleep | Running (task : Task) | Returned.

(** [owed] counts the calls of [submit] that have left the critical section and not
    notified yet; [owed_all] is the destructor between its critical section and its
    [notify_all].  [submitted], [started] and [executed] record what happened. *)
Record ThreadPool := {
  Qtasks : list Task;
  stop : bool;
  worker_threads : list Worker;
  owed : nat;
  owed_all : bool;
  submitted : list Task;
  started : list Task;
  executed : list Task
}.

Definition ThreadPool_make (numThreads : nat) : ThreadPool :=
  {| Qtasks := []; stop := false; worker_threads := replicate numThreads Checking; owed := 0; owed_all := false;
     submitted := []; started := []; executed := [] |}.

Definition set_worker (p : ThreadPool) (t : nat) (w : Worker) : ThreadPool :=
  {| Qtasks := Qtasks p; stop := stop p; worker_threads := <[t := w]> (worker_threads p); owed := owed p;
     owed_all := owed_all p; submitted := submitted p; started := started p; executed := executed p |}.

(** A turn of worker [t]: the critical section, the task, or a spurious wake-up. *)
Definition worker (p : ThreadPool) (t : nat) : ThreadPool :=
  match worker_threads p !! t with
  | Some Checking =>
      match stop p, Qtasks p with
      | true, [] => set_worker p t Returned
      | false, [] => set_worker p t Asleep
      | _, task :: Q =>
          {| Qtasks := Q; stop := stop p; worker_threads := <[t := Running task]> (worker_threads p); owed := owed p;
             owed_all := owed_all p; submitted := submitted p; started := started p ++ [task]; executed := executed p |}
      end
  | Some (Running task) =>
      {| Qtasks := Qtasks p; stop := stop p; worker_threads := <[t := Checking]> (worker_threads p); owed := owed p;
         owed_all := owed_all p; submitted := submitted p; started := started p; executed := executed p ++ [task] |}
  | Some Asleep => set_worker p t Checking
  | Some Returned | None => p
  end.

(** [submit] up to the end of its critical section. *)
Definition submit (p : ThreadPool) (task : Task) : ThreadPool :=
  {| Qtasks := Qtasks p ++ [task]; stop := stop p; worker_threads := worker_threads p; owed := S (owed p);
     owed_all := owed_all p; submitted := submitted p ++ [task]; started := started p; executed := executed p |}.

Definition wake (w : Worker) : Worker := match w with Asleep => Checking | _ => w end.

(** Its [cv.notify_one()], which wakes worker [w] if it sleeps, else one that does. *)
Fixpoint wake_first (ws : list Worker) : list Worker :=
  match ws with [] => [] | Asleep :: ws => Checking :: ws | w :: ws => w :: wake_first ws end.

Definition submit_notify (p : ThreadPool) (w : nat) : ThreadPool :=
  {| Qtasks := Qtasks p; stop := stop p;
     worker_threads := match worker_threads p !! w with
                       | Some Asleep => <[w := Checking]> (worker_threads p)
                       | _ => wake_first (worker_threads p)
                       end;
     owed := pred (owed p); owed_all := owed_all p; submitted := submitted p; started := started p; executed := executed p |}.

(** [~ThreadPool]: the critical section, then [cv.notify_all()]; then it joins the
    workers. *)
Definition destroy (p : ThreadPool) : ThreadPool :=
  {| Qtasks := Qtasks p; stop := true; worker_threads := worker_threads p; owed := owed p; owed_all := true;
     submitted := submitted p; started := started p; executed := executed p |}.

Definition destroy_notify (p : ThreadPool) : ThreadPool :=
  {| Qtasks := Qtasks p; stop := stop p; worker_threads := wake <$> worker_threads p; owed := owed p; owed_all := false;
     submitted := submitted p; started := started p; executed := executed p |}.

Inductive Turn := Work (t : nat) | Submit (task : Task) | SubmitNotify (w : nat) | Destroy | DestroyNotify.

(** Nobody calls [submit] on a pool that is being destroyed. *)
Definition turn (p : ThreadPool) (u : Turn) : option ThreadPool :=
  match u with
  | Work t => Some (worker p t)
  | Submit task => if stop p then None else Some (submit p task)
  | SubmitNotify w => if decide (owed p = 0) then None else Some (submit_notify p w)
  | Destroy => if stop p then None else Some (destroy p)
  | DestroyNotify => if owed_all p then Some (destroy_notify p) else None
  end.

(** A turn that the pool makes by itself: not a call, and not a spurious wake-up. *)
Definition internal (p : ThreadPool) (u : Turn) : bool :=
  match u with
  | Work t => match worker_threads p !! t with Some Checking | Some (Running _) => true | _ => false end
  | SubmitNotify _ => negb (owed p =? 0)
  | DestroyNotify => owed_all p
  | Submit _ | Destroy => false
  end.

(** The tasks being run. *)
Definition task_of (w : Worker) : list Task := match w with Running task => [task] | _ => [] end.
Definition running (p : ThreadPool) : list Task := (worker_threads p ≫= task_of).

Definition is_awake (w : Worker) : nat := match w with Checking | Running _ => 1 | _ => 0 end.

(** Workers that will test their predicate again. *)
Definition awake (p : ThreadPool) : nat := sum_list_with is_awake (worker_threads p).

Record pool_inv (p : ThreadPool) : Prop := {
  pool_fifo : submitted p = started p ++ Qtasks p;
  pool_once : (executed p ++ running p) ≡ₚ started p;
  pool_wakeups : Asleep ∈ worker_threads p → length (Qtasks p) ≤ owed p + awake p;
  pool_returned : Returned ∈ worker_threads p → stop p = true ∧ Qtasks p = [];
  pool_stopping : owed_all p = true → stop p = true;
  pool_stopped : stop p = true → owed_all p = false → Asleep ∉ worker_threads p
}.

Lemma pool_wake_first (ws : list Worker) :
  ((Asleep ∉ ws) ∧ wake_first ws = ws) ∨ ∃ t, ws !! t = Some Asleep ∧ wake_first ws = <[t := Checking]> ws.
Proof.
  induction ws as [|w ws IH]; [left; split; [set_solver|done]|].
  destruct w; simpl; [|by right; exists 0| |];
    (destruct IH as [[Hn ->]|(t & Ht & ->)]; [left; split; [set_solver|done]|right; by exists (S t)]).
Qed.

(** A notification wakes a sleeper, if there is one. *)
Lemma submit_notify_spec p w :
  ((Asleep ∉ worker_threads p) ∧ worker_threads (submit_notify p w) = worker_threads p) ∨
  ∃ t, worker_threads p !! t = Some Asleep ∧ worker_threads (submit_notify p w) = <[t := Checking]> (worker_threads p).
Proof.
  unfold submit_notify. simpl. destruct (worker_threads p !! w) as [[]|] eqn:E; try apply pool_wake_first. right. by exists w.
Qed.

(** What a worker that changes from [x] to [y] does to the two measures. *)
Lemma set_worker_measures (ws : list Worker) t x y :
  ws !! t = Some x →
  sum_list_with is_awake (<[t := y]> ws) + is_awake x = sum_list_with is_awake ws + is_awake y ∧
  (<[t := y]> ws ≫= task_of) ++ task_of x ≡ₚ (ws ≫= task_of) ++ task_of y.
Proof. intros Ht. split; [by apply sum_insert|by apply bind_insert_perm]. Qed.

(** Worker [t] goes from [x] to [y]. *)
Lemma worker_moves p p' t x y :
  pool_inv p → worker_threads p !! t = Some x → worker_threads p' = <[t := y]> (worker_threads p) →
  stop p' = stop p → owed_all p' = owed_all p → owed p' = owed p →
  submitted p' = started p' ++ Qtasks p' →
  executed p' ++ task_of y ++ started p ≡ₚ executed p ++ task_of x ++ started p' →
  (y = Asleep → Qtasks p' = [] ∧ stop p = false) → (y = Returned → stop p = true) →
  (Qtasks p = [] → Qtasks p' = []) → (y = Returned → Qtasks p' = []) →
  (y ≠ Asleep → y ≠ Returned → length (Qtasks p') + is_awake x ≤ length (Qtasks p) + is_awake y) →
  pool_inv p'.
Proof.
  intros [Hf Ho Hw Hr Hs Hd] Et Ews Es Eoa Eow Hsub Hex Hya Hyr HQ HyQ Hlen.
  destruct (set_worker_measures _ t x y Et) as [Hm Hp]. split; rewrite ?Es, ?Eoa, ?Ews; try done.
  - unfold running in *. rewrite Ews. rewrite <-Ho in Hex. apply (Permutation_app_inv_r (task_of x ++ executed p)).
    transitivity (executed p' ++ task_of y ++ executed p ++ (worker_threads p ≫= task_of)); [|rewrite Hex; solve_Permutation].
    transitivity (executed p' ++ executed p ++ (<[t:=y]> (worker_threads p) ≫= task_of) ++ task_of x); [solve_Permutation|].
    rewrite Hp. solve_Permutation.
  - intros Hx. unfold awake in *. rewrite Ews, Eow. destruct (decide (Qtasks p' = [])) as [->|HQ']; [simpl; lia|].
    assert (y ≠ Asleep) as Hy1 by naive_solver. assert (y ≠ Returned) as Hy2 by naive_solver.
    specialize (Hlen Hy1 Hy2). apply elem_of_insert_inv in Hx as [?|Hx]; [done|]. specialize (Hw Hx). lia.
  - intros [<-|Hx]%elem_of_insert_inv; [auto|]. destruct (Hr Hx). auto.
  - intros Est Hoa [<-|Hx]%elem_of_insert_inv; [|by apply Hd]. destruct (Hya eq_refl). congruence.
Qed.

Lemma worker_inv p t : pool_inv p → pool_inv (worker p t).
Proof.
  intros Hi. pose proof Hi as [Hf Ho Hw Hr Hs Hd]. unfold worker. destruct (worker_threads p !! t) as [w|] eqn:Et; [|done].
  destruct w as [| |task|]; [|unfold set_worker| |done].
  - destruct (stop p) eqn:Es, (Qtasks p) as [|task Q] eqn:EQ;
      [eapply (worker_moves p _ t Checking Returned)|eapply (worker_moves p _ t Checking (Running task))
      |eapply (worker_moves p _ t Checking Asleep)|eapply (worker_moves p _ t Checking (Running task))];
      try done; simpl; rewrite ?EQ; try done; try solve_Permutation; try (by rewrite <-(assoc_L (++))); simpl; lia.
  - eapply (worker_moves p _ t Asleep Checking); try done; simpl; try lia.
  - eapply (worker_moves p _ t (Running task) Checking); try done; simpl; try lia. solve_Permutation.
Qed.

Lemma submit_notify_inv p w : pool_inv p → owed p ≠ 0 → pool_inv (submit_notify p w).
Proof.
  intros Hi Ho. assert (submit_notify p w = submit_notify p w) as _ by done.
  destruct (submit_notify_spec p w) as [[Hn E]|(t & Ht & E)]; destruct Hi as [Hf Hon Hw Hr Hs Hd].
  - split; unfold running, awake in *; rewrite ?E; try done.
  - destruct (set_worker_measures _ t _ Checking Ht) as [Hm Hp]. simpl in Hp. rewrite !app_nil_r in Hp.
    split; unfold running, awake in *; rewrite ?E; try done.
    + by rewrite Hp.
    + intros [?|Hx]%elem_of_insert_inv; [done|]. specialize (Hw Hx). simpl in *. lia.
    + by intros [?|Hx]%elem_of_insert_inv; [done|]; apply Hr.
    + by intros Hst Hoa [?|Hx]%elem_of_insert_inv; [done|]; apply Hd.
Qed.

Lemma wake_none (ws : list Worker) : Asleep ∉ wake <$> ws.
Proof. intros (w & Hw & _)%list_elem_of_fmap. by destruct w. Qed.

Lemma destroy_notify_inv p : pool_inv p → owed_all p = true → pool_inv (destroy_notify p).
Proof.
  intros [Hf Hon Hw Hr Hs Hd] Ho. split; unfold running, awake in *; simpl; try done.
  - rewrite <-Hon. f_equiv. clear. induction (worker_threads p) as [|[] ws IH]; simpl; by rewrite ?IH.
  - by intros ?%wake_none.
  - intros (w & Hx & Hin)%list_elem_of_fmap. destruct w; try done. by apply Hr.
  - intros _ _. apply wake_none.
Qed.

Lemma pool_turn_inv p u p' : pool_inv p → turn p u = Some p' → pool_inv p'.
Proof.
  intros Hi. destruct u as [t|task|w| |]; simpl; intros Ht.
  - simplify_eq. by apply worker_inv.
  - destruct (stop p) eqn:Es; simplify_eq. destruct Hi as [Hf Hon Hw Hr Hs Hd].
    split; unfold running, awake in *; simpl; rewrite ?Es; try done.
    + by rewrite Hf, (assoc_L (++)).
    + rewrite length_app. simpl. intros Hx. specialize (Hw Hx). lia.
    + intros Hx. destruct (Hr Hx). congruence.
    + intros Hx. by rewrite <-Hs.
  - case_decide; simplify_eq. by apply submit_notify_inv.
  - destruct (stop p) eqn:Es; simplify_eq. destruct Hi as [Hf Hon Hw Hr Hs Hd]. split; try done.
    intros Hx. destruct (Hr Hx). congruence.
  - destruct (owed_all p) eqn:Eo; simplify_eq. by apply destroy_notify_inv.
Qed.

Lemma pool_make_inv n : pool_inv (ThreadPool_make n).
Proof.
  split; unfold running, awake; simpl; try done.
  - by induction n.
  - lia.
  - intros Hx. by apply elem_of_replicate in Hx as [? _].
Qed.

(** *** Progress *)

Definition weight (w : Worker) : nat := match w with Running _ => 2 | Checking => 1 | _ => 0 end.

(** The turns the pool can still make before it has to wait for a call. *)
Definition potential (p : ThreadPool) : nat :=
  2 * length (Qtasks p) + sum_list_with weight (worker_threads p) + 2 * owed p +
  if owed_all p then S (length (worker_threads p)) else 0.

Definition internal_step (p p' : ThreadPool) : Prop := ∃ u, internal p u = true ∧ turn p u = Some p'.

Lemma pool_decreases p p' : internal_step p p' → potential p' < potential p.
Proof.
  intros (u & Hu & Ht). destruct u as [t|task|w| |]; simpl in *; simplify_eq.
  - unfold potential, worker. destruct (worker_threads p !! t) as [w|] eqn:Et; [|done].
    pose proof (λ y, sum_insert weight _ t w y Et) as Hm. destruct w as [| |task|]; try done.
    + destruct (stop p), (Qtasks p) as [|task Q] eqn:EQ; simpl; rewrite ?EQ, length_insert;
        [specialize (Hm Returned)|specialize (Hm (Running task))|specialize (Hm Asleep)|specialize (Hm (Running task))];
        simpl in *; lia.
    + simpl. rewrite length_insert. specialize (Hm Checking). simpl in *. lia.
  - case_decide; simplify_eq. unfold potential.
    destruct (submit_notify_spec p w) as [[Hn ->]|(t & Ht & ->)]; simpl; [lia|].
    pose proof (sum_insert weight _ t _ Checking Ht). simpl in *. rewrite length_insert. lia.
  - rewrite Hu in Ht. simplify_eq. unfold potential. simpl. rewrite Hu.
    assert (sum_list_with weight (wake <$> worker_threads p) ≤ sum_list_with weight (worker_threads p) + length (worker_threads p)) as Hle.
    { clear. induction (worker_threads p) as [|[] ws IH]; csimpl; lia. }
    lia.
Qed.

(** When nothing can move, nothing is left to do. *)
Lemma pool_quiescent p :
  pool_inv p → 0 < length (worker_threads p) → (∀ u, internal p u = false) →
  Qtasks p = [] ∧ executed p ≡ₚ submitted p ∧
  Forall (λ w, w = if stop p then Returned else Asleep) (worker_threads p).
Proof.
  intros [Hf Hon Hw Hr Hs Hd] Hn Hq.
  assert (owed p = 0) as Eo by (pose proof (Hq (SubmitNotify 0)) as H; simpl in H; destruct (owed p); done).
  assert (owed_all p = false) as Ea by exact (Hq DestroyNotify).
  assert (∀ w, w ∈ worker_threads p → w = Asleep ∨ w = Returned) as Hws.
  { intros w [t Ht]%list_elem_of_lookup. pose proof (Hq (Work t)) as H. simpl in H. rewrite Ht in H. destruct w; auto; done. }
  assert (awake p = 0) as Eaw.
  { unfold awake. clear -Hws. induction (worker_threads p) as [|w ws IH]; [done|]. simpl. rewrite IH by set_solver.
    by destruct (Hws w ltac:(set_solver)) as [-> | ->]. }
  assert (running p = []) as Erun.
  { unfold running. clear -Hws. induction (worker_threads p) as [|w ws IH]; [done|]. csimpl. rewrite IH by set_solver.
    by destruct (Hws w ltac:(set_solver)) as [-> | ->]. }
  assert (Qtasks p = []) as EQ.
  { destruct (worker_threads p) as [|w ws]; [simpl in Hn; lia|]. destruct (Hws w ltac:(set_solver)) as [-> | ->].
    - apply nil_length_inv. specialize (Hw ltac:(set_solver)). lia.
    - by destruct (Hr ltac:(set_solver)). }
  rewrite Erun, app_nil_r in Hon. rewrite EQ, app_nil_r in Hf. split_and!; [done|by rewrite Hf|].
  apply Forall_forall. intros w Hin. destruct (Hws w Hin) as [-> | ->].
  - destruct (stop p) eqn:Es; [|done]. by destruct (Hd eq_refl Ea).
  - by destruct (Hr Hin) as [-> _].
Qed.

Lemma pool_length_turn p u p' : turn p u = Some p' → length (worker_threads p') = length (worker_threads p).
Proof.
  destruct u as [t|task|w| |]; simpl; intros Ht; repeat case_match; simplify_eq; try done.
  - unfold worker. repeat case_match; simpl; by rewrite ?length_insert.
  - destruct (submit_notify_spec p w) as [[_ ->]|(t & _ & ->)]; by rewrite ?length_insert.
  - simpl. by rewrite length_fmap.
Qed.

Lemma pool_length_run p us p' : run_ops turn p us = Some p' → length (worker_threads p') = length (worker_threads p).
Proof.
  revert p. induction us as [|u us IH]; simpl; intros p Hr; [by simplify_eq|].
  destruct (turn p u) as [p1|] eqn:E; [|done]. rewrite (IH p1 Hr). by apply pool_length_turn in E.
Qed.
End pool.
End ThreadPool.

(** ** The connection pool *)

Module ConnectionPool.

(** A client of the pool repeats [acquire], the use of the connection, and [release], a
    number of times.  It is about to test the predicate of the wait, sleeps in it, uses a
    connection, has released it and not notified yet, or is done. *)
Inductive Client := Checking | Asleep | Using (conn : Z) | Notifying | Done.

#[global] Instance Client_eq_dec : EqDecision Client.
Proof. solve_decision. Defined.

Record ConnectionPool := { available_connections : list Z; clients : list (nat * Client) }.

Definition ConnectionPool_make (max_connections : nat) : list Z := Z.of_nat <$> seq 1 max_connections.

(** [clients] makes its clients use the pool [rounds] times each. *)
Definition start_clients (max_connections rounds : nat) (n : nat) : ConnectionPool :=
  {| available_connections := ConnectionPool_make max_connections;
     clients := replicate n (rounds, if decide (rounds = 0) then Done else Checking) |}.

(** The critical section of [acquire], when its predicate is true, else the wait. *)
Definition acquire (p : ConnectionPool) (t n : nat) : ConnectionPool :=
  match available_connections p with
  | [] => {| available_connections := []; clients := <[t := (n, Asleep)]> (clients p) |}
  | conn :: rest => {| available_connections := rest; clients := <[t := (n, Using conn)]> (clients p) |}
  end.

(** [release]: the critical section, then [cv.notify_one()]. *)
Definition release (p : ConnectionPool) (t n : nat) (conn : Z) : ConnectionPool :=
  {| available_connections := available_connections p ++ [conn]; clients := <[t := (n, Notifying)]> (clients p) |}.

Fixpoint wake_first (cs : list (nat * Client)) : list (nat * Client) :=
  match cs with [] => [] | (n, Asleep) :: cs => (n, Checking) :: cs | c :: cs => c :: wake_first cs end.

Definition release_notify (p : ConnectionPool) (t n w : nat) : ConnectionPool :=
  let cs := <[t := (pred n, if decide (pred n = 0) then Done else Checking)]> (clients p) in
  {| available_connections := available_connections p;
     clients := match cs !! w with Some (m, Asleep) => <[w := (m, Checking)]> cs | _ => wake_first cs end |}.

(** A turn of client [t]; [w] is the client a notification would choose. *)
Definition turn (p : ConnectionPool) (tw : nat * nat) : ConnectionPool :=
  let '(t, w) := tw in
  match clients p !! t with
  | Some (n, Checking) => acquire p t n
  | Some (n, Using conn) => release p t n conn
  | Some (n, Notifying) => release_notify p t n w
  | Some (n, Asleep) => {| available_connections := available_connections p; clients := <[t := (n, Checking)]> (clients p) |}
  | Some (_, Done) | None => p
  end.

(** A turn that is not a spurious wake-up. *)
Definition enabled (p : ConnectionPool) (t : nat) : bool :=
  match clients p !! t with Some (_, Checking) | Some (_, Using _) | Some (_, Notifying) => true | _ => false end.

(** The connections in use. *)
Definition conn_of (c : nat * Client) : list Z := match c.2 with Using conn => [conn] | _ => [] end.
Definition in_use (p : ConnectionPool) : list Z := (clients p ≫= conn_of).

Definition is_coming (c : nat * Client) : nat := match c.2 with Checking | Notifying => 1 | _ => 0 end.
Definition is_asleep (c : nat * Client) : Prop := c.2 = Asleep.

Definition client_ok (c : nat * Client) : Prop := c.1 = 0 ↔ c.2 = Done.

(** Every connection is in the pool or with one client; as long as a client sleeps, the
    connections in the pool are matched by clients that will take one or notify. *)
Record conn_inv (max : nat) (p : ConnectionPool) : Prop := {
  conn_once : available_connections p ++ in_use p ≡ₚ ConnectionPool_make max;
  conn_wakeups : Exists is_asleep (clients p) → length (available_connections p) ≤ sum_list_with is_coming (clients p);
  conn_rounds : Forall client_ok (clients p)
}.

Lemma conn_wake_first (cs : list (nat * Client)) :
  (¬ Exists is_asleep cs ∧ wake_first cs = cs) ∨
  ∃ t n, cs !! t = Some (n, Asleep) ∧ wake_first cs = <[t := (n, Checking)]> cs.
Proof.
  induction cs as [|[n c] cs IH]; [left; split; [by intros ?%Exists_nil|done]|].
  destruct c; simpl; [|by right; exists 0; eexists| | |];
    (destruct IH as [[Hn ->]|(t & m & Ht & ->)];
     [left; split; [intros [?|?]%Exists_cons; [done|auto]|done]|right; exists (S t), m; done]).
Qed.

(** The clients after [release_notify]: [t] goes on, and a sleeper is woken if there is
    one. *)
Lemma release_notify_spec p t n w :
  let cs := <[t := (pred n, if decide (pred n = 0) then Done else Checking)]> (clients p) in
  (¬ Exists is_asleep cs ∧ clients (release_notify p t n w) = cs) ∨
  ∃ u m, cs !! u = Some (m, Asleep) ∧ clients (release_notify p t n w) = <[u := (m, Checking)]> cs.
Proof.
  intros cs. unfold release_notify. fold cs. simpl.
  destruct (cs !! w) as [[m []]|] eqn:E; try apply conn_wake_first. right. by exists w, m.
Qed.

Lemma Exists_insert_inv (cs : list (nat * Client)) t y : Exists is_asleep (<[t := y]> cs) → is_asleep y ∨ Exists is_asleep cs.
Proof. rewrite !Exists_exists. intros (c & [-> | Hc]%elem_of_insert_inv & Ha); eauto. Qed.

(** Client [t] goes from [x] to [y]. *)
Lemma client_moves max p p' t x y :
  conn_inv max p → clients p !! t = Some x → clients p' = <[t := y]> (clients p) → client_ok y →
  available_connections p' ++ conn_of y ≡ₚ available_connections p ++ conn_of x →
  (is_asleep y → available_connections p' = []) →
  (¬ is_asleep y → length (available_connections p') + is_coming x ≤ length (available_connections p) + is_coming y) →
  conn_inv max p'.
Proof.
  intros [Ho Hw Hr] Et Ec Hy Hp Hya Hlen.
  pose proof (bind_insert_perm conn_of _ t x y Et) as Hb. pose proof (sum_insert is_coming _ t x y Et) as Hs.
  split; unfold in_use in *; rewrite Ec.
  - rewrite <-Ho. apply (Permutation_app_inv_r (conn_of x)). rewrite <-(assoc_L (++)), Hb.
    rewrite (Permutation_app_comm (clients p ≫= conn_of) (conn_of y)), (assoc_L (++)), Hp. solve_Permutation.
  - intros Hx. destruct (decide (y.2 = Asleep)) as [Ha|Ha]; [rewrite Hya by done; simpl; lia|].
    apply Exists_insert_inv in Hx as [?|Hx]; [done|]. specialize (Hw Hx). specialize (Hlen Ha). lia.
  - by apply Forall_insert.
Qed.

Lemma release_notify_inv max p t n w :
  conn_inv max p → clients p !! t = Some (n, Notifying) → conn_inv max (release_notify p t n w).
Proof.
  intros [Ho Hw Hr] Et. set (y := (pred n, if decide (pred n = 0) then Done else Checking)).
  assert (conn_of y = [] ∧ client_ok y ∧ ¬ is_asleep y) as (Hc & Hy & Hna).
  { unfold y, conn_of, client_ok, is_asleep. simpl. by destruct (decide (pred n = 0)). }
  pose proof (bind_insert_perm conn_of _ t _ y Et) as Hb. rewrite Hc in Hb. simpl in Hb. rewrite !app_nil_r in Hb.
  pose proof (sum_insert is_coming _ t _ y Et) as Hs. simpl in Hs.
  pose proof (Forall_insert _ _ t _ Hr Hy) as Hr'.
  destruct (release_notify_spec p t n w) as [[Hn E]|(u & m & Hu & E)]; fold y in E.
  - split; unfold in_use in *; rewrite ?E; [by rewrite Hb|done|done].
  - fold y in Hu. pose proof (bind_insert_perm conn_of _ u _ (m, Checking) Hu) as Hb2. simpl in Hb2. rewrite !app_nil_r in Hb2.
    pose proof (sum_insert is_coming _ u _ (m, Checking) Hu) as Hs2. simpl in Hs2.
    split; unfold in_use in *; rewrite ?E.
    + by rewrite Hb2, Hb.
    + intros [?|[?|Hx]%Exists_insert_inv]%Exists_insert_inv; [done..|]. specialize (Hw Hx).
      change (available_connections (release_notify p t n w)) with (available_connections p).
      unfold is_coming in Hs at 2, Hs2 at 2 4. simpl in Hs, Hs2. lia.
    + apply Forall_insert; [done|]. pose proof (Forall_lookup_1 _ _ _ _ Hr' Hu) as [Hm1 Hm2].
      split; simpl in *; [|done]. intros ->. by specialize (Hm1 eq_refl).
Qed.

Lemma conn_turn_inv max p tw : conn_inv max p → conn_inv max (turn p tw).
Proof.
  destruct tw as [t w]. intros Hi. unfold turn. destruct (clients p !! t) as [[n c]|] eqn:Et; [|done].
  assert (client_ok (n, c)) as Hok by (destruct Hi as [_ _ Hr]; exact (Forall_lookup_1 _ _ _ _ Hr Et)).
  destruct c as [| |conn| |]; unfold client_ok in Hok; simpl in Hok.
  - unfold acquire. destruct (available_connections p) as [|conn rest] eqn:Ea.
    + eapply (client_moves max p _ t _ (n, Asleep)); try done; [split; simpl; naive_solver|by rewrite Ea].
    + eapply (client_moves max p _ t _ (n, Using conn)); try done; rewrite ?Ea; simpl;
        [split; simpl; naive_solver|rewrite app_nil_r; solve_Permutation|unfold is_coming; simpl; lia].
  - eapply (client_moves max p _ t _ (n, Checking)); try done; [split; simpl; naive_solver|unfold is_coming; simpl; lia].
  - eapply (client_moves max p _ t _ (n, Notifying)); try done; simpl;
      [split; simpl; naive_solver|by rewrite app_nil_r|rewrite length_app; unfold is_coming; simpl; lia].
  - by apply release_notify_inv.
  - done.
Qed.

Lemma conn_start_inv max rounds n : conn_inv max (start_clients max rounds n).
Proof.
  split; unfold in_use; simpl.
  - assert (∀ r, (replicate n (r, if decide (r = 0) then Done else Checking) ≫= conn_of) = []) as ->; [|by rewrite app_nil_r].
    intros r. induction n as [|n IH]; [done|]. csimpl. rewrite IH. by destruct (decide (r = 0)).
  - rewrite Exists_exists. intros (c & [-> _]%elem_of_replicate & Ha). unfold is_asleep in Ha. simpl in Ha. by destruct (decide _).
  - apply Forall_replicate. unfold client_ok. simpl. by destruct (decide (rounds = 0)).
Qed.

(** *** Progress *)

Definition weight (c : nat * Client) : nat :=
  match c.2 with Checking => 4 * c.1 | Asleep | Using _ => 4 * c.1 - 1 | Notifying => 4 * c.1 - 2 | Done => 0 end.

(** The turns left, apart from spurious wake-ups. *)
Definition potential (p : ConnectionPool) : nat := sum_list_with weight (clients p).

Definition enabled_step (p p' : ConnectionPool) : Prop := ∃ t w, enabled p t = true ∧ p' = turn p (t, w).

Lemma enabled_decreases max p p' : conn_inv max p → enabled_step p p' → potential p' < potential p.
Proof.
  intros [_ _ Hr] (t & w & Hen & ->). unfold enabled, turn in *. destruct (clients p !! t) as [[n c]|] eqn:Et; [|done].
  pose proof (λ y, sum_insert weight _ t _ y Et) as Hs. pose proof (Forall_lookup_1 _ _ _ _ Hr Et) as [Hn _]. simpl in Hn.
  assert (n ≠ 0) as Hn0 by (intros ->; by rewrite Hn in Hen). destruct c as [| |conn| |]; try done; unfold potential.
  - unfold acquire. destruct (available_connections p) as [|conn rest]; simpl;
      [specialize (Hs (n, Asleep))|specialize (Hs (n, Using conn))]; unfold weight in Hs at 2 4; simpl in Hs; lia.
  - specialize (Hs (n, Notifying)). unfold weight in Hs at 2 4. simpl in *. lia.
  - specialize (Hs (pred n, if decide (pred n = 0) then Done else Checking)).
    assert (weight (pred n, if decide (pred n = 0) then Done else Checking) ≤ 4 * n - 4) as Hw
      by (unfold weight; simpl; destruct (decide (pred n = 0)); simpl; lia).
    assert (weight (n, Notifying) = 4 * n - 2) as Hw2 by done.
    destruct (release_notify_spec p t n w) as [[Hna E]|(u & m & Hu & E)]; rewrite E; [lia|].
    pose proof (sum_insert weight _ u _ (m, Checking) Hu) as Hs2. unfold weight in Hs2 at 2 4. cbn [fst snd] in Hs2. lia.
Qed.

Lemma conn_quiescent max p :
  conn_inv max p → 0 < max → (∀ t, enabled p t = false) → Forall (λ c, c.2 = Done) (clients p).
Proof.
  intros [Ho Hw Hr] Hm Hq. apply Forall_forall. intros c [t Ht]%list_elem_of_lookup. destruct c as [n c]. simpl.
  assert (∀ c, c ∈ clients p → is_coming c = 0 ∧ conn_of c = []) as Hcs.
  { intros [m c'] [u Hu]%list_elem_of_lookup. specialize (Hq u). unfold enabled in Hq. rewrite Hu in Hq. by destruct c'. }
  pose proof (Hq t) as Hqt. unfold enabled in Hqt. rewrite Ht in Hqt. destruct c; try done.
  assert (Exists is_asleep (clients p)) as Hex by (apply Exists_exists; exists (n, Asleep); split; [by eapply list_elem_of_lookup_2|done]).
  specialize (Hw Hex). exfalso. apply Permutation_length in Ho. unfold ConnectionPool_make in Ho.
  rewrite length_app, length_fmap, length_seq in Ho. unfold in_use in Ho.
  assert (sum_list_with is_coming (clients p) = 0 ∧ (clients p ≫= conn_of) = []) as [E1 E2]; [|rewrite E2 in Ho; simpl in Ho; lia].
  clear -Hcs. induction (clients p) as [|c cs IH]; [done|]. csimpl.
  destruct (Hcs c ltac:(set_solver)) as [-> ->], IH as [-> ->]; [set_solver|done].
Qed.
End ConnectionPool.

(** ** What the pools promise *)

(** C33: Every task submitted to the thread pool is run once.  Under every schedule: the
    tasks are started in the order of their submission and each is finished or with one
    worker; no wake-up is lost, so that when no thread can move (but for new calls and
    spurious wake-ups) the queue is empty, every task was run, and all workers sleep, or,
    if the pool is being destroyed, have returned; and the pool cannot run for ever
    without a new call. *)
Theorem thread_pool_runs_tasks {Task} (numThreads : nat) (us : list (ThreadPool.Turn (Task := Task))) p :
  0 < numThreads → run_ops ThreadPool.turn (ThreadPool.ThreadPool_make numThreads) us = Some p →
  ThreadPool.submitted p = ThreadPool.started p ++ ThreadPool.Qtasks p ∧
  ThreadPool.executed p ++ ThreadPool.running p ≡ₚ ThreadPool.started p ∧
  ((∀ u, ThreadPool.internal p u = false) →
    ThreadPool.Qtasks p = [] ∧ ThreadPool.executed p ≡ₚ ThreadPool.submitted p ∧
    Forall (λ w, w = if ThreadPool.stop p then ThreadPool.Returned else ThreadPool.Asleep) (ThreadPool.worker_threads p)) ∧
  (∀ k p', nsteps ThreadPool.internal_step k p p' → k ≤ ThreadPool.potential p).
Proof.
  intros Hn Hr. pose proof (run_ops_preserves _ _ _ _ _ ThreadPool.pool_turn_inv (ThreadPool.pool_make_inv numThreads) Hr) as Hi.
  pose proof Hi as [Hf Ho _ _ _ _]. split_and!; [done|done| |].
  - apply ThreadPool.pool_quiescent; [done|]. apply ThreadPool.pool_length_run in Hr. rewrite Hr. simpl. by rewrite length_replicate.
  - intros k p'. apply (nsteps_decreasing ThreadPool.potential). apply ThreadPool.pool_decreases.
Qed.

Lemma thread_pool_runs_tasks_witness :
  ∃ p, run_ops ThreadPool.turn (ThreadPool.ThreadPool_make 2)
    [ThreadPool.Work 0; ThreadPool.Submit "a"; ThreadPool.Destroy; ThreadPool.SubmitNotify 1; ThreadPool.DestroyNotify;
     ThreadPool.Work 1; ThreadPool.Work 0; ThreadPool.Work 1; ThreadPool.Work 1] = Some p ∧
    ThreadPool.executed p ++ ThreadPool.running p ≡ₚ ThreadPool.started p.
Proof.
  eexists. split; [reflexivity|].
  apply (thread_pool_runs_tasks 2 [ThreadPool.Work 0; ThreadPool.Submit "a"; ThreadPool.Destroy; ThreadPool.SubmitNotify 1;
    ThreadPool.DestroyNotify; ThreadPool.Work 1; ThreadPool.Work 0; ThreadPool.Work 1; ThreadPool.Work 1]); [lia|reflexivity].
Defined.

(** Clients share the connections.  Under every schedule every connection is in the
    pool or with exactly one client, no client is left waiting (when no thread can move but
    by a spurious wake-up, every client is done), and the number of turns is bounded. *)
Theorem connection_pool_shares (max rounds n : nat) (sched : list (nat * nat)) :
  0 < max →
  let p := fold_left ConnectionPool.turn sched (ConnectionPool.start_clients max rounds n) in
  ConnectionPool.available_connections p ++ ConnectionPool.in_use p ≡ₚ ConnectionPool.ConnectionPool_make max ∧
  ((∀ t, ConnectionPool.enabled p t = false) → Forall (λ c, c.2 = ConnectionPool.Done) (ConnectionPool.clients p)) ∧
  (∀ k p', nsteps ConnectionPool.enabled_step k p p' → k ≤ ConnectionPool.potential p).
Proof.
  intros Hm p. assert (ConnectionPool.conn_inv max p) as Hi.
  { apply fold_left_invariant; [intros; by apply ConnectionPool.conn_turn_inv|apply ConnectionPool.conn_start_inv]. }
  pose proof Hi as [Ho _ _]. split_and!; [done|by apply (ConnectionPool.conn_quiescent max)|].
  intros k p'. apply (nsteps_decreasing_inv (ConnectionPool.conn_inv max) ConnectionPool.potential); [| |done].
  - intros x y. apply ConnectionPool.enabled_decreases.
  - intros x y Hx (t & w & _ & ->). by apply ConnectionPool.conn_turn_inv.
Qed.
