(* ===== verification/TaskSchedulers.v ===== *)
(** * The task schedulers

    [src/concurrency/TaskScheduler_periodic_execution.cpp] and
    [src/concurrency/TaskScheduler_single_execution.cpp]: worker threads take tasks from a
    queue ordered by execution time, sleep until the first is due, run it, and put a
    periodic task back.  The clock is part of the state and advances by steps of its own;
    the time a task takes is the time that passes while its worker runs it.  A step of a
    worker is one stay in the mutex, one task, or a wake-up by time-out, notification or
    for no reason.

    [std::priority_queue] does not say which of several tasks with the same time comes
    first: the queue is an interface with the laws of a heap. *)
From S2P Require Import Prelude.
Local Open Scope Z_scope.

Section scheduler.
Context {F : Type}.

Record Task := { task_id : Z; func : F; executeAt : Z; periodic : bool; interval_milliseconds : Z }.

(** [pq.top()] and [pq.pop()]. *)
Class PriorityQueue := {
  extract : list Task → option (Task * list Task);
  extract_nil : extract [] = None;
  extract_cons l : l ≠ [] → is_Some (extract l);
  extract_min l t l' : extract l = Some (t, l') → l ≡ₚ t :: l' ∧ Forall (λ u, executeAt t ≤ executeAt u) l'
}.
Context `{!PriorityQueue}.

(** A worker: about to test the predicate of its first wait; asleep in it; in
    [wait_until(executeAt)], asleep or about to test its predicate; running a task; about
    to put a periodic task back; about to notify after that; returned. *)
Inductive Worker :=
  | Checking | Asleep | Until (et : Z) (awake : bool)
  | Running (task : Task) | Requeue (task : Task) | Notifying | Returned.

(** [owed] and [owed_all]: notifications of [schedule] and [shutDown] still to come.
    [scheduled] and [starts] record the tasks scheduled, and each execution with the time
    of its start. *)
Record TaskScheduler := {
  pq : list Task;
  cancelledTasks : gset Z;
  stop : bool;
  threads : list Worker;
  next_task_id : Z;
  now : Z;
  owed : nat;
  owed_all : bool;
  scheduled : list Task;
  starts : list (Task * Z)
}.

Definition TaskScheduler_make (numThreads : nat) (now : Z) : TaskScheduler :=
  {| pq := []; cancelledTasks := ∅; stop := false; threads := replicate numThreads Checking; next_task_id := 1;
     now := now; owed := 0; owed_all := false; scheduled := []; starts := [] |}.

Definition set_threads (s : TaskScheduler) (ths : list Worker) : TaskScheduler :=
  {| pq := pq s; cancelledTasks := cancelledTasks s; stop := stop s; threads := ths; next_task_id := next_task_id s;
     now := now s; owed := owed s; owed_all := owed_all s; scheduled := scheduled s; starts := starts s |}.

Definition set_pq (s : TaskScheduler) (q : list Task) : TaskScheduler :=
  {| pq := q; cancelledTasks := cancelledTasks s; stop := stop s; threads := threads s; next_task_id := next_task_id s;
     now := now s; owed := owed s; owed_all := owed_all s; scheduled := scheduled s; starts := starts s |}.

Definition start_task (s : TaskScheduler) (task : Task) : TaskScheduler :=
  {| pq := pq s; cancelledTasks := cancelledTasks s; stop := stop s; threads := threads s; next_task_id := next_task_id s;
     now := now s; owed := owed s; owed_all := owed_all s; scheduled := scheduled s; starts := starts s ++ [(task, now s)] |}.

Definition asleep (w : Worker) : bool := match w with Asleep | Until _ false => true | _ => false end.

(** A notified worker leaves the wait, or tests the predicate of the timed one. *)
Definition wake (w : Worker) : Worker := match w with Asleep => Checking | Until et _ => Until et true | _ => w end.

Fixpoint wake_first (ws : list Worker) : list Worker :=
  match ws with [] => [] | w :: ws => if asleep w then wake w :: ws else w :: wake_first ws end.

(** [cv.notify_one()], which wakes [w] if it sleeps, else a worker that does. *)
Definition notify_one (ws : list Worker) (w : nat) : list Worker :=
  match ws !! w with Some x => if asleep x then <[w := wake x]> ws else wake_first ws | None => wake_first ws end.

(** The critical section of [worker]: steps 1 to 5. *)
Definition worker_select (s : TaskScheduler) (t : nat) : TaskScheduler :=
  match extract (pq s) with
  | None => set_threads s (<[t := if stop s then Returned else Asleep]> (threads s))
  | Some (task, rest) =>
      if now s <? executeAt task then
        if stop s then s else set_threads s (<[t := Until (executeAt task) false]> (threads s))
      else if bool_decide (task_id task ∈ cancelledTasks s) then set_pq s rest
      else start_task (set_threads (set_pq s rest) (<[t := Running task]> (threads s))) task
  end.

(** After the task (step 7): whether it is put back, and for when. *)
Definition worker_finish (s : TaskScheduler) (task : Task) : Worker :=
  if periodic task && negb (bool_decide (task_id task ∈ cancelledTasks s)) then
    Requeue {| task_id := task_id task; func := func task; executeAt := now s + interval_milliseconds task;
               periodic := periodic task; interval_milliseconds := interval_milliseconds task |}
  else Checking.

(** A turn of worker [t]. *)
Definition worker (s : TaskScheduler) (t w : nat) : TaskScheduler :=
  match threads s !! t with
  | Some Checking => worker_select s t
  | Some Asleep => set_threads s (<[t := Checking]> (threads s))
  | Some (Until et false) => set_threads s (<[t := Until et true]> (threads s))
  | Some (Until et true) =>
      set_threads s (<[t := if stop s || (et <=? now s) then Checking else Until et false]> (threads s))
  | Some (Running task) => set_threads s (<[t := worker_finish s task]> (threads s))
  | Some (Requeue task) => set_threads (set_pq s (pq s ++ [task])) (<[t := Notifying]> (threads s))
  | Some Notifying => set_threads s (notify_one (<[t := Checking]> (threads s)) w)
  | Some Returned | None => s
  end.

(** [schedule] up to the end of its critical section; it returns the identifier. *)
Definition schedule (s : TaskScheduler) (func : F) (delayInMillisecond : Z) (periodic : bool) (interval_milliseconds : Z)
  : TaskScheduler * Z :=
  let task := {| task_id := next_task_id s; func := func; executeAt := now s + delayInMillisecond;
                 periodic := periodic; interval_milliseconds := interval_milliseconds |} in
  ({| pq := pq s ++ [task]; cancelledTasks := cancelledTasks s; stop := stop s; threads := threads s;
      next_task_id := next_task_id s + 1; now := now s; owed := S (owed s); owed_all := owed_all s;
      scheduled := scheduled s ++ [task]; starts := starts s |}, next_task_id s).

Definition schedule_notify (s : TaskScheduler) (w : nat) : TaskScheduler :=
  {| pq := pq s; cancelledTasks := cancelledTasks s; stop := stop s; threads := notify_one (threads s) w;
     next_task_id := next_task_id s; now := now s; owed := pred (owed s); owed_all := owed_all s;
     scheduled := scheduled s; starts := starts s |}.

Definition cancelTask (s : TaskScheduler) (id : Z) : TaskScheduler :=
  {| pq := pq s; cancelledTasks := {[id]} ∪ cancelledTasks s; stop := stop s; threads := threads s;
     next_task_id := next_task_id s; now := now s; owed := owed s; owed_all := owed_all s;
     scheduled := scheduled s; starts := starts s |}.

(** [shutDown]: the critical section, [cv.notify_all()]; then it joins the workers. *)
Definition shutDown (s : TaskScheduler) : TaskScheduler :=
  {| pq := pq s; cancelledTasks := cancelledTasks s; stop := true; threads := threads s; next_task_id := next_task_id s;
     now := now s; owed := owed s; owed_all := true; scheduled := scheduled s; starts := starts s |}.

Definition shutDown_notify (s : TaskScheduler) : TaskScheduler :=
  {| pq := pq s; cancelledTasks := cancelledTasks s; stop := stop s; threads := wake <$> threads s;
     next_task_id := next_task_id s; now := now s; owed := owed s; owed_all := false;
     scheduled := scheduled s; starts := starts s |}.

Definition tick (s : TaskScheduler) (d : Z) : TaskScheduler :=
  {| pq := pq s; cancelledTasks := cancelledTasks s; stop := stop s; threads := threads s; next_task_id := next_task_id s;
     now := now s + d; owed := owed s; owed_all := owed_all s; scheduled := scheduled s; starts := starts s |}.

Inductive Turn :=
  | Work (t w : nat) | Schedule (func : F) (delay : Z) (periodic : bool) (interval : Z) | ScheduleNotify (w : nat)
  | Cancel (id : Z) | ShutDown | ShutDownNotify | Tick (d : Z).

(** The clock does not go back; nothing is scheduled once [shutDown] has begun. *)
Definition turn (s : TaskScheduler) (u : Turn) : option TaskScheduler :=
  match u with
  | Work t w => Some (worker s t w)
  | Schedule f delay periodic interval => if stop s then None else Some (schedule s f delay periodic interval).1
  | ScheduleNotify w => if decide (owed s = 0%nat) then None else Some (schedule_notify s w)
  | Cancel id => Some (cancelTask s id)
  | ShutDown => if stop s then None else Some (shutDown s)
  | ShutDownNotify => if owed_all s then Some (shutDown_notify s) else None
  | Tick d => if 0 <=? d then Some (tick s d) else None
  end.

(** ** What a scheduler does, without threads

    Tasks wait, run, and may wait again.  The order in which tasks wait is not part of the
    specification, except that a task that starts is due. *)
Record Spec := mkSpec {
  waiting : list Task;
  running : list Task;
  log : list (Task * Z);
  cancelled : gset Z;
  known : list Task;
  next_id : Z;
  clock : Z
}.

(** The next execution of a periodic task. *)
Definition next_run (task : Task) (n : Z) : Task :=
  {| task_id := task_id task; func := func task; executeAt := n + interval_milliseconds task;
     periodic := periodic task; interval_milliseconds := interval_milliseconds task |}.

Inductive spec_step : Spec → Spec → Prop :=
  | spec_stay wt wt' rn rn' lg ca kn nx n :
      wt ≡ₚ wt' → rn ≡ₚ rn' → spec_step (mkSpec wt rn lg ca kn nx n) (mkSpec wt' rn' lg ca kn nx n)
  | spec_start task wt wt' rn rn' lg ca kn nx n :
      wt ≡ₚ task :: wt' → rn' ≡ₚ task :: rn → executeAt task ≤ n → task_id task ∉ ca →
      spec_step (mkSpec wt rn lg ca kn nx n) (mkSpec wt' rn' (lg ++ [(task, n)]) ca kn nx n)
  | spec_drop task wt wt' rn lg ca kn nx n :
      wt ≡ₚ task :: wt' → task_id task ∈ ca →
      spec_step (mkSpec wt rn lg ca kn nx n) (mkSpec wt' rn lg ca kn nx n)
  | spec_finish task wt rn rn' lg ca kn nx n :
      rn ≡ₚ task :: rn' → periodic task = false ∨ task_id task ∈ ca →
      spec_step (mkSpec wt rn lg ca kn nx n) (mkSpec wt rn' lg ca kn nx n)
  | spec_again task wt wt' rn rn' lg ca kn nx n :
      rn ≡ₚ task :: rn' → periodic task = true → wt' ≡ₚ next_run task n :: wt →
      spec_step (mkSpec wt rn lg ca kn nx n) (mkSpec wt' rn' lg ca kn nx n)
  | spec_schedule task wt wt' rn lg ca kn nx n :
      task_id task = nx → wt' ≡ₚ task :: wt →
      spec_step (mkSpec wt rn lg ca kn nx n) (mkSpec wt' rn lg ca (kn ++ [task]) (nx + 1) n)
  | spec_cancel id wt rn lg ca kn nx n :
      spec_step (mkSpec wt rn lg ca kn nx n) (mkSpec wt rn lg ({[id]} ∪ ca) kn nx n)
  | spec_tick d wt rn lg ca kn nx n :
      0 ≤ d → spec_step (mkSpec wt rn lg ca kn nx n) (mkSpec wt rn lg ca kn nx (n + d)).

(** *** The threads implement it *)

Definition requeued (w : Worker) : list Task := match w with Requeue task => [task] | _ => [] end.
Definition run_by (w : Worker) : list Task := match w with Running task => [task] | _ => [] end.

Definition abs (s : TaskScheduler) : Spec :=
  mkSpec (pq s ++ (threads s ≫= requeued)) (threads s ≫= run_by) (starts s) (cancelledTasks s) (scheduled s) (next_task_id s) (now s).

(** Waking up changes no task. *)
Lemma wake_tasks w : requeued (wake w) = requeued w ∧ run_by (wake w) = run_by w.
Proof. by destruct w as [| |? []| | | |]. Qed.

Lemma sched_wake_first (ws : list Worker) :
  ((∀ w, w ∈ ws → asleep w = false) ∧ wake_first ws = ws) ∨
  ∃ t w, ws !! t = Some w ∧ asleep w = true ∧ wake_first ws = <[t := wake w]> ws.
Proof.
  induction ws as [|w ws IH]; [left; split; [set_solver|done]|]. simpl. destruct (asleep w) eqn:E; [right; by exists 0%nat, w|].
  destruct IH as [[Hn ->]|(t & x & Ht & Hx & ->)]; [left|right; by exists (S t), x].
  split; [|done]. intros x [->|Hx]%elem_of_cons; auto.
Qed.

Lemma notify_one_spec (ws : list Worker) w :
  ((∀ w, w ∈ ws → asleep w = false) ∧ notify_one ws w = ws) ∨
  ∃ t x, ws !! t = Some x ∧ asleep x = true ∧ notify_one ws w = <[t := wake x]> ws.
Proof.
  unfold notify_one. destruct (ws !! w) as [x|] eqn:E; [|apply sched_wake_first].
  destruct (asleep x) eqn:Ex; [|apply sched_wake_first]. right. by exists w, x.
Qed.

(** Worker [t] changes from [x] to [y], and with it the tasks of the threads. *)
Lemma bind_same {B} (f : Worker → list B) (ws : list Worker) t x y :
  ws !! t = Some x → f x = f y → (<[t := y]> ws ≫= f) = (ws ≫= f).
Proof.
  intros Ht Hf. revert t Ht. induction ws as [|w ws IH]; intros [|t] Ht; simplify_eq/=; [by rewrite Hf|]. by rewrite IH.
Qed.

Lemma bind_notify {B} (f : Worker → list B) ws w :
  (∀ x, f (wake x) = f x) → (notify_one ws w ≫= f) = (ws ≫= f).
Proof.
  intros Hf. destruct (notify_one_spec ws w) as [[_ ->]|(t & x & Ht & _ & ->)]; [done|]. by apply (bind_same f ws t x).
Qed.

Lemma move_stays s t x y :
  threads s !! t = Some x → requeued x = requeued y → run_by x = run_by y →
  spec_step (abs s) (abs (set_threads s (<[t := y]> (threads s)))).
Proof.
  intros Ht Hq Hr. unfold abs, set_threads. simpl. rewrite (bind_same requeued _ t x y) by done.
  rewrite (bind_same run_by _ t x y) by done. by apply spec_stay.
Qed.

Lemma select_refines s t : threads s !! t = Some Checking → spec_step (abs s) (abs (worker_select s t)).
Proof.
  intros Ht. unfold worker_select. destruct (extract (pq s)) as [[task rest]|] eqn:Ex.
  2: { apply (move_stays s t Checking); [done|by destruct (stop s)..]. }
  destruct (Z.ltb_spec (now s) (executeAt task)) as [_|Hdue].
  { destruct (stop s); [by apply spec_stay|by apply (move_stays s t Checking)]. }
  apply extract_min in Ex as [Hp _]. destruct (bool_decide_reflect (task_id task ∈ cancelledTasks s)) as [Hc|Hc]; unfold abs; simpl.
  - apply (spec_drop task); [by rewrite Hp|done].
  - apply (spec_start task); [| |done|done].
    + rewrite Hp, (bind_same requeued _ t Checking) by done. done.
    + pose proof (bind_insert_perm run_by _ t _ (Running task) Ht) as Hb. simpl in Hb. rewrite app_nil_r in Hb. rewrite Hb. solve_Permutation.
Qed.

Lemma finish_refines s t task :
  threads s !! t = Some (Running task) → spec_step (abs s) (abs (set_threads s (<[t := worker_finish s task]> (threads s)))).
Proof.
  intros Ht. unfold worker_finish.
  destruct (periodic task && negb (bool_decide (task_id task ∈ cancelledTasks s))) eqn:Eb; unfold abs, set_threads; simpl.
  - apply andb_true_iff in Eb as [Hper _]. fold (next_run task (now s)).
    pose proof (bind_insert_perm run_by _ t _ (Requeue (next_run task (now s))) Ht) as Hr.
    pose proof (bind_insert_perm requeued _ t _ (Requeue (next_run task (now s))) Ht) as Hq. simpl in Hr, Hq. rewrite app_nil_r in Hr, Hq.
    apply (spec_again task); [rewrite <-Hr; solve_Permutation|done|]. rewrite Hq. solve_Permutation.
  - pose proof (bind_insert_perm run_by _ t _ Checking Ht) as Hr. simpl in Hr. rewrite app_nil_r in Hr.
    rewrite (bind_same requeued _ t (Running task)) by done.
    apply (spec_finish task); [rewrite <-Hr; solve_Permutation|]. apply andb_false_iff in Eb as [?|Eb]; [by left|right].
    apply negb_false_iff, bool_decide_eq_true in Eb. done.
Qed.

Lemma worker_refines s t w : spec_step (abs s) (abs (worker s t w)).
Proof.
  unfold worker. destruct (threads s !! t) as [x|] eqn:Ht; [|by apply spec_stay].
  destruct x as [| |et [|]|task|task| |].
  - by apply select_refines.
  - by apply (move_stays s t Asleep).
  - apply (move_stays s t (Until et true)); [done|by destruct (stop s || (et <=? now s))..].
  - by apply (move_stays s t (Until et false)).
  - by apply finish_refines.
  - unfold abs. simpl. pose proof (bind_insert_perm requeued _ t _ Notifying Ht) as Hq. simpl in Hq. rewrite app_nil_r in Hq.
    rewrite (bind_same run_by _ t (Requeue task)) by done. apply spec_stay; [|done]. rewrite <-Hq. solve_Permutation.
  - unfold abs. simpl. rewrite !bind_notify by (intros; apply wake_tasks).
    rewrite !(bind_same _ _ t Notifying) by done. by apply spec_stay.
  - by apply spec_stay.
Qed.

(** Every turn is a step of the specification. *)
Lemma turn_refines s u s' : turn s u = Some s' → spec_step (abs s) (abs s').
Proof.
  destruct u as [t w|f delay per iv|w|id| | |d]; simpl; intros Ht; repeat case_match; simplify_eq.
  - apply worker_refines.
  - unfold abs. simpl. apply spec_schedule; [done|]. solve_Permutation.
  - unfold abs, schedule_notify. simpl. rewrite !bind_notify by (intros; apply wake_tasks). by apply spec_stay.
  - apply spec_cancel.
  - by apply spec_stay.
  - unfold abs, shutDown_notify. simpl. rewrite !list_fmap_bind. apply spec_stay.
    + f_equiv. apply reflexive_eq. apply list_bind_ext; [|done]. intros x. symmetry. apply wake_tasks.
    + apply reflexive_eq. apply list_bind_ext; [|done]. intros x. symmetry. apply wake_tasks.
  - apply spec_tick. lia.
Qed.

(** *** What the specification guarantees *)

Definition live (A : Spec) : list Task := waiting A ++ running A.

Definition same_task (t u : Task) : Prop :=
  task_id t = task_id u ∧ periodic t = periodic u ∧ interval_milliseconds t = interval_milliseconds u.

(** Two executions of the same task: only a periodic one has them, an interval apart. *)
Definition spaced (p q : Task * Z) : Prop :=
  task_id p.1 = task_id q.1 → periodic q.1 = true ∧ p.2 + interval_milliseconds q.1 ≤ q.2.

Record spec_inv (A : Spec) : Prop := {
  si_due : ∀ p, p ∈ log A → executeAt p.1 ≤ p.2 ≤ clock A;
  si_ids : NoDup (task_id <$> live A);
  si_known_ids : NoDup (task_id <$> known A);
  si_bound : ∀ t, t ∈ known A → task_id t < next_id A;
  si_origin : ∀ u, u ∈ live A ∨ u ∈ (log A).*1 → ∃ t, t ∈ known A ∧ same_task t u;
  si_next : ∀ u p, u ∈ waiting A → p ∈ log A → task_id p.1 = task_id u →
    periodic u = true ∧ p.2 + interval_milliseconds u ≤ executeAt u;
  si_log : StronglySorted spaced (log A);
  si_running : ∀ u, u ∈ running A → u ∈ (log A).*1;
  si_account : ∀ t, t ∈ known A →
    task_id t ∈ cancelled A ∨ task_id t ∈ task_id <$> live A ∨ (periodic t = false ∧ task_id t ∈ task_id <$> (log A).*1)
}.

(** Nothing but the order of the tasks changes. *)
Lemma spec_inv_stay wt wt' rn rn' lg ca kn nx n :
  wt ≡ₚ wt' → rn ≡ₚ rn' → spec_inv (mkSpec wt rn lg ca kn nx n) → spec_inv (mkSpec wt' rn' lg ca kn nx n).
Proof.
  intros Hw Hr [H1 H2 H3 H4 H5 H6 H7 H8 H9]. split; unfold live in *; simpl in *; try done.
  - by rewrite <-Hw, <-Hr.
  - intros u. rewrite <-Hw, <-Hr. apply H5.
  - intros u p. rewrite <-Hw. apply H6.
  - intros u. rewrite <-Hr. apply H8.
  - intros t. rewrite <-Hw, <-Hr. apply H9.
Qed.

Lemma spec_inv_start task wt rn lg ca kn nx n :
  executeAt task ≤ n → spec_inv (mkSpec (task :: wt) rn lg ca kn nx n) →
  spec_inv (mkSpec wt (task :: rn) (lg ++ [(task, n)]) ca kn nx n).
Proof.
  intros Hd [H1 H2 H3 H4 H5 H6 H7 H8 H9]. unfold live in *; simpl in *.
  assert (wt ++ task :: rn ≡ₚ task :: wt ++ rn) as Hp by solve_Permutation.
  assert (∀ u, u ∈ wt → task_id task ≠ task_id u) as Hne.
  { intros u Hu E. apply NoDup_cons in H2 as [H2 _]. apply H2. rewrite E. apply list_elem_of_fmap_2. set_solver. }
  split; unfold live; simpl; try done.
  - intros p [Hp'| ->%list_elem_of_singleton]%elem_of_app; [by apply H1|]. simpl. lia.
  - by rewrite Hp.
  - intros u Hu. apply H5. rewrite Hp in Hu. rewrite fmap_app in Hu. set_solver.
  - intros u p Hu [Hp'| ->%list_elem_of_singleton]%elem_of_app E; [apply H6; set_solver|]. simpl in E. by destruct (Hne u Hu).
  - apply StronglySorted_app. split_and!; [|done|repeat constructor].
    intros p q Hp' ->%list_elem_of_singleton E. simpl in *. destruct (H6 task p ltac:(set_solver) Hp' E). split; [done|lia].
  - rewrite fmap_app. set_solver.
  - intros t Ht. rewrite Hp, fmap_app, fmap_app. destruct (H9 t Ht) as [?|[?|[? ?]]]; [by left|by right; left|right; right; set_solver].
Qed.

Lemma spec_inv_drop task wt rn lg ca kn nx n :
  task_id task ∈ ca → spec_inv (mkSpec (task :: wt) rn lg ca kn nx n) → spec_inv (mkSpec wt rn lg ca kn nx n).
Proof.
  intros Hc [H1 H2 H3 H4 H5 H6 H7 H8 H9]. unfold live in *; simpl in *. split; unfold live; simpl; try done.
  - by apply NoDup_cons in H2 as [_ H2].
  - intros u [Hu|Hu]; apply H5; [left; by apply elem_of_cons; right|by right].
  - intros u p Hu. apply H6. by apply elem_of_cons; right.
  - intros t Ht. destruct (H9 t Ht) as [?|[[->|?]%elem_of_cons|?]]; auto.
Qed.

(** The attributes of a task that has a known identifier. *)
Lemma same_known A t u : spec_inv A → t ∈ known A → (u ∈ live A ∨ u ∈ (log A).*1) → task_id t = task_id u → same_task t u.
Proof.
  intros Hi Ht Hu E. destruct (si_origin A Hi u Hu) as (t0 & Ht0 & Hs). destruct Hs as (E0 & Hs).
  assert (t = t0) as ->; [|done]. apply list_elem_of_lookup in Ht as [i Hti]. apply list_elem_of_lookup in Ht0 as [j Htj].
  assert (i = j) as ->; [|congruence]. eapply NoDup_lookup; [apply (si_known_ids A Hi)| |].
  - rewrite list_lookup_fmap, Hti. reflexivity.
  - rewrite list_lookup_fmap, Htj. simpl. congruence.
Qed.

Lemma spec_inv_finish task wt rn lg ca kn nx n :
  periodic task = false ∨ task_id task ∈ ca →
  spec_inv (mkSpec wt (task :: rn) lg ca kn nx n) → spec_inv (mkSpec wt rn lg ca kn nx n).
Proof.
  intros Hc Hi. pose proof (λ t, same_known _ t task Hi) as Hsame. destruct Hi as [H1 H2 H3 H4 H5 H6 H7 H8 H9].
  unfold live in *; simpl in *. assert (wt ++ task :: rn ≡ₚ task :: wt ++ rn) as Hp by solve_Permutation.
  split; unfold live; simpl; try done.
  - rewrite Hp in H2. by apply NoDup_cons in H2 as [_ H2].
  - intros u [Hu|Hu]; apply H5; [left; rewrite Hp; by apply elem_of_cons; right|by right].
  - intros u Hu. apply H8. by apply elem_of_cons; right.
  - intros t Ht. destruct (H9 t Ht) as [?|[Hx|?]]; [by left| |by right; right].
    rewrite Hp in Hx. apply elem_of_cons in Hx as [E|?]; [|by right; left].
    destruct Hc as [Hc|Hc]; [|left; by rewrite E]. right. right.
    destruct (Hsame t Ht) as (_ & Hper & _); [left; rewrite Hp; by apply elem_of_cons; left|done|].
    split; [congruence|]. rewrite E. apply list_elem_of_fmap_2, H8. by apply elem_of_cons; left.
Qed.

Lemma spec_inv_again task wt rn lg ca kn nx n :
  periodic task = true → spec_inv (mkSpec wt (task :: rn) lg ca kn nx n) →
  spec_inv (mkSpec (next_run task n :: wt) rn lg ca kn nx n).
Proof.
  intros Hper [H1 H2 H3 H4 H5 H6 H7 H8 H9]. unfold live in *; simpl in *.
  assert (wt ++ task :: rn ≡ₚ task :: wt ++ rn) as Hp by solve_Permutation.
  rewrite Hp in H2. simpl in H2. split; unfold live; simpl; try done.
  - intros u [[->|Hu]%elem_of_cons|Hu]; [|apply H5; left; rewrite Hp; by apply elem_of_cons; right|apply H5; by right].
    destruct (H5 task) as (t & Ht & Hs); [left; rewrite Hp; by apply elem_of_cons; left|]. by exists t.
  - intros u p [->|Hu]%elem_of_cons Hlg E; [|by apply H6]. simpl. split; [done|]. specialize (H1 p Hlg). lia.
  - intros u Hu. apply H8. by apply elem_of_cons; right.
  - intros t Ht. specialize (H9 t Ht). by rewrite Hp in H9.
Qed.

Lemma spec_inv_schedule task wt rn lg ca kn nx n :
  task_id task = nx → spec_inv (mkSpec wt rn lg ca kn nx n) →
  spec_inv (mkSpec (task :: wt) rn lg ca (kn ++ [task]) (nx + 1) n).
Proof.
  intros <- [H1 H2 H3 H4 H5 H6 H7 H8 H9]. unfold live in *; simpl in *.
  assert (∀ u, u ∈ wt ++ rn ∨ u ∈ lg.*1 → task_id u ≠ task_id task) as Hfresh.
  { intros u Hu E. destruct (H5 u Hu) as (t & Ht & E' & _). specialize (H4 t Ht). lia. }
  split; unfold live; simpl; try done.
  - apply NoDup_cons. split; [|done]. intros (u & E & Hu)%list_elem_of_fmap. apply (Hfresh u); [by left|done].
  - rewrite fmap_app. apply NoDup_app. split_and!; [done| |apply NoDup_singleton].
    intros i (t & -> & Ht)%list_elem_of_fmap E%list_elem_of_singleton. specialize (H4 t Ht). lia.
  - intros t [Ht| ->%list_elem_of_singleton]%elem_of_app; [specialize (H4 t Ht)|]; lia.
  - intros u Hu. assert (u = task ∨ (u ∈ wt ++ rn ∨ u ∈ lg.*1)) as [->|Hu'] by (rewrite elem_of_cons in Hu; tauto).
    + exists task. split; [apply elem_of_app; right; by apply list_elem_of_singleton|done].
    + destruct (H5 u Hu') as (t & Ht & Hs). exists t. split; [apply elem_of_app; by left|done].
  - intros u p [->|Hu]%elem_of_cons Hlg E; [|by apply H6]. destruct (Hfresh p.1); [right; by apply list_elem_of_fmap_2|done].
  - intros t [Ht| ->%list_elem_of_singleton]%elem_of_app.
    + destruct (H9 t Ht) as [?|[?|?]]; [by left|right; left; by apply elem_of_cons; right|by right; right].
    + right. left. by apply elem_of_cons; left.
Qed.

Lemma spec_step_inv A B : spec_inv A → spec_step A B → spec_inv B.
Proof.
  intros Hi Hs. destruct Hs as [wt wt' rn rn' lg ca kn nx n Hw Hr|task wt wt' rn rn' lg ca kn nx n Hw Hr Hd Hc
    |task wt wt' rn lg ca kn nx n Hw Hc|task wt rn rn' lg ca kn nx n Hr Hc|task wt wt' rn rn' lg ca kn nx n Hr Hper Hw
    |task wt wt' rn lg ca kn nx n Hid Hw|id wt rn lg ca kn nx n|d wt rn lg ca kn nx n Hd].
  - by eapply spec_inv_stay.
  - eapply spec_inv_stay; [reflexivity|symmetry; exact Hr|]. apply spec_inv_start; [done|]. by eapply spec_inv_stay.
  - apply (spec_inv_drop task); [done|]. by eapply spec_inv_stay.
  - apply (spec_inv_finish task); [done|]. by eapply spec_inv_stay.
  - eapply spec_inv_stay; [symmetry; exact Hw|reflexivity|]. apply spec_inv_again; [done|]. by eapply spec_inv_stay.
  - eapply spec_inv_stay; [symmetry; exact Hw|reflexivity|]. by apply spec_inv_schedule.
  - destruct Hi as [H1 H2 H3 H4 H5 H6 H7 H8 H9]. split; try done. intros t Ht. simpl.
    destruct (H9 t Ht) as [?|?]; [left; by apply elem_of_union; right|by right].
  - destruct Hi as [H1 H2 H3 H4 H5 H6 H7 H8 H9]. split; try done. intros p Hp. specialize (H1 p Hp). simpl in *. lia.
Qed.

(** ** No task is forgotten *)

(** A worker that will look at the queue again without being notified. *)
Definition active (w : Worker) : bool := match w with Asleep | Returned => false | _ => true end.

Definition some_active (ws : list Worker) : Prop := ∃ w, w ∈ ws ∧ active w = true.

Record live_inv (s : TaskScheduler) : Prop := {
  li_awake : pq s ≠ [] → some_active (threads s) ∨ (owed s ≠ 0%nat ∧ (Returned ∉ threads s));
  li_returned : Returned ∈ threads s → stop s = true;
  li_stopping : owed_all s = true → stop s = true;
  li_stopped : stop s = true → owed_all s = false → ∀ w, w ∈ threads s → asleep w = false;
  li_threads : threads s ≠ []
}.

Lemma active_insert ws t x y : ws !! t = Some x → active y = true → some_active (<[t := y]> ws).
Proof. intros Ht Hy. exists y. split; [|done]. apply list_elem_of_lookup. exists t. apply list_lookup_insert_eq. by eapply lookup_lt_Some. Qed.

Lemma active_wake w : asleep w = true → active (wake w) = true.
Proof. by destruct w as [| |? []| | | |]. Qed.

Lemma active_notify ws w : some_active ws → some_active (notify_one ws w).
Proof.
  intros Hs. destruct (notify_one_spec ws w) as [[_ ->]|(t & x & Ht & Hx & ->)]; [done|].
  eapply active_insert; [done|by apply active_wake].
Qed.

(** A notification is not lost: a sleeper is active afterwards, or nobody slept. *)
Lemma notify_one_active ws w : ws ≠ [] → Returned ∉ ws → some_active (notify_one ws w).
Proof.
  intros Hne Hr. destruct (notify_one_spec ws w) as [[Hn ->]|(t & x & Ht & Hx & ->)].
  - destruct ws as [|x ws]; [done|]. exists x. split; [by apply elem_of_cons; left|].
    specialize (Hn x ltac:(by apply elem_of_cons; left)). destruct x as [| |? []| | | |]; try done. exfalso. apply Hr. by apply elem_of_cons; left.
  - eapply active_insert; [done|by apply active_wake].
Qed.

Lemma notify_one_elem ws w y : y ∈ notify_one ws w → y ∈ ws ∨ ∃ x, x ∈ ws ∧ asleep x = true ∧ y = wake x.
Proof.
  destruct (notify_one_spec ws w) as [[_ ->]|(t & x & Ht & Hx & ->)]; [auto|].
  intros [->|?]%elem_of_insert_inv; [|auto]. right. exists x. split; [by eapply list_elem_of_lookup_2|done].
Qed.

Lemma notify_one_not_nil ws w : ws ≠ [] → notify_one ws w ≠ [].
Proof.
  destruct (notify_one_spec ws w) as [[_ ->]|(t & x & Ht & Hx & ->)]; [done|].
  intros Hne E. apply Hne. apply nil_length_inv. by rewrite <-(length_insert ws t (wake x)), E.
Qed.

Lemma wake_not_returned w : wake w = Returned → w = Returned.
Proof. by destruct w as [| |? []| | | |]. Qed.

Lemma wake_not_asleep w : asleep (wake w) = false.
Proof. by destruct w as [| |? []| | | |]. Qed.

(** Worker [t] goes from [x] to [y] and the queue becomes [q]. *)
Lemma move_live s t x y q :
  live_inv s → threads s !! t = Some x → (active y = true ∨ q = []) → (y = Returned → stop s = true) →
  (asleep y = true → stop s = false) → live_inv (set_threads (set_pq s q) (<[t := y]> (threads s))).
Proof.
  intros [H1 H2 H3 H4 H5] Ht Hy Hr Ha. split; simpl; try done.
  - intros Hq. destruct Hy as [Hy|]; [|done]. left. by eapply active_insert.
  - intros [<-|?]%elem_of_insert_inv; auto.
  - intros Hs Ho w [->|Hw]%elem_of_insert_inv; [|auto]. destruct (asleep y); [|done]. by rewrite Ha in Hs.
  - intros E. apply H5, nil_length_inv. by rewrite <-(length_insert (threads s) t y), E.
Qed.

Lemma set_pq_id s : set_pq s (pq s) = s.
Proof. by destruct s. Qed.

Lemma move_live_same s t x y :
  live_inv s → threads s !! t = Some x → active y = true → (asleep y = true → stop s = false) →
  live_inv (set_threads s (<[t := y]> (threads s))).
Proof.
  intros Hi Ht Hy Ha. pose proof (move_live s t x y (pq s) Hi Ht (or_introl Hy)) as Hm. rewrite set_pq_id in Hm. apply Hm; [|done].
  intros ->. done.
Qed.

Lemma start_task_live s task : live_inv s → live_inv (start_task s task).
Proof. by intros [H1 H2 H3 H4 H5]; split. Qed.

Lemma select_live s t : live_inv s → threads s !! t = Some Checking → live_inv (worker_select s t).
Proof.
  intros Hi Ht. unfold worker_select. destruct (extract (pq s)) as [[task rest]|] eqn:Ex.
  2: { assert (pq s = []) as Eq.
       { destruct (pq s) as [|a q] eqn:E; [done|]. destruct (extract_cons (a :: q)) as [? Hx]; [done|]. congruence. }
       rewrite <-(set_pq_id s) at 1. eapply move_live; try done; [by right|by destruct (stop s)..]. }
  destruct (now s <? executeAt task).
  { destruct (stop s) eqn:Es; [done|]. by eapply move_live_same. }
  case_bool_decide; [|apply start_task_live; eapply move_live; try done; by left].
  destruct Hi as [H1 H2 H3 H4 H5]. split; simpl; try done. intros _. left. exists Checking.
  split; [by eapply list_elem_of_lookup_2|done].
Qed.

Lemma worker_live s t w : live_inv s → live_inv (worker s t w).
Proof.
  intros Hi. unfold worker. destruct (threads s !! t) as [x|] eqn:Ht; [|done].
  destruct x as [| |et [|]|task|task| |].
  - by apply select_live.
  - by eapply move_live_same.
  - eapply move_live_same; try done; destruct (stop s) eqn:Es; simpl; try done; by destruct (et <=? now s).
  - by eapply move_live_same.
  - eapply move_live_same; try done; unfold worker_finish; by destruct (_ && _).
  - eapply move_live; try done. by left.
  - destruct (move_live_same s t Notifying Checking Hi Ht) as [H1 H2 H3 H4 H5]; [done..|]. split; simpl in *; try done.
    + intros _. left. apply active_notify. by eapply active_insert.
    + intros [?|(y & Hy & _ & E)]%notify_one_elem; [auto|]. symmetry in E. apply wake_not_returned in E. subst y. auto.
    + intros Hs Ho y [?|(z & _ & _ & ->)]%notify_one_elem; [auto|apply wake_not_asleep].
    + by apply notify_one_not_nil.
  - done.
Qed.

Lemma turn_live s u s' : live_inv s → turn s u = Some s' → live_inv s'.
Proof.
  intros Hi. destruct u as [t w|f delay per iv|w|id| | |d]; simpl; intros Ht; repeat case_match; simplify_eq.
  - by apply worker_live.
  - destruct Hi as [H1 H2 H3 H4 H5]. split; simpl; try done; [intros _; right; split; [done|]|..]; try (intros Hr; specialize (H2 Hr); congruence). intros Ho. by rewrite <-H0, <-(H3 Ho).
  - destruct Hi as [H1 H2 H3 H4 H5]. split; simpl; try done.
    + intros Hq. left. destruct (H1 Hq) as [Ha|[_ Hr]]; [by apply active_notify|by apply notify_one_active].
    + intros [?|(y & Hy & _ & E)]%notify_one_elem; [auto|]. symmetry in E. apply wake_not_returned in E. subst y. auto.
    + intros Hs Ho y [?|(z & _ & _ & ->)]%notify_one_elem; [by apply H4|apply wake_not_asleep].
    + by apply notify_one_not_nil.
  - destruct Hi as [H1 H2 H3 H4 H5]. by split.
  - destruct Hi as [H1 H2 H3 H4 H5]. by split.
  - destruct Hi as [H1 H2 H3 H4 H5]. split; simpl; try done.
    + intros Hq. destruct (H1 Hq) as [(x & Hx & Ha)|[Ho Hr]].
      * left. exists (wake x). split; [by apply list_elem_of_fmap_2|by destruct x as [| |? []| | | |]].
      * right. split; [done|]. intros (x & E & Hx)%list_elem_of_fmap. symmetry in E. apply wake_not_returned in E. by subst x.
    + intros (x & E & Hx)%list_elem_of_fmap. symmetry in E. apply wake_not_returned in E. subst x. auto.
    + intros _ _ w (x & -> & Hx)%list_elem_of_fmap. apply wake_not_asleep.
    + by destruct (threads s).
  - destruct Hi as [H1 H2 H3 H4 H5]. by split.
Qed.

(** A turn the scheduler makes by itself at the current time: not a call, not a wake-up
    for no reason, and not a test that changes nothing. *)
Definition internal (s : TaskScheduler) (u : Turn) : bool :=
  match u with
  | Work t _ =>
      match threads s !! t with
      | Some Checking =>
          match extract (pq s) with Some (task, _) => negb (stop s && (now s <? executeAt task)) | None => true end
      | Some (Until et false) => et <=? now s
      | Some (Until _ true) | Some (Running _) | Some (Requeue _) | Some Notifying => true
      | _ => false
      end
  | ScheduleNotify _ => negb (owed s =? 0)%nat
  | ShutDownNotify => owed_all s
  | _ => false
  end.

(** A worker waits for a time that has not come: asleep, or, once [stop] is set, testing
    again and again. *)
Definition waits_for_later (s : TaskScheduler) : Prop :=
  (∃ et, Until et false ∈ threads s ∧ now s < et) ∨ Forall (λ t, now s < executeAt t) (pq s).

(** When nothing happens until the clock moves on, no task runs, and the queue is empty
    or a worker is waiting for a later time. *)
Lemma quiescent s :
  live_inv s → (∀ u, internal s u = false) → running (abs s) = [] ∧ waiting (abs s) = pq s ∧ (pq s = [] ∨ waits_for_later s).
Proof.
  intros [H1 H2 H3 H4 H5] Hq.
  assert (∀ t w, threads s !! t = Some w → run_by w = [] ∧ requeued w = [] ∧
    (active w = true → waits_for_later s)) as Hw.
  { intros t w Ht. pose proof (Hq (Work t 0)) as Hi. simpl in Hi. rewrite Ht in Hi.
    destruct w as [| |et [|]|task|task| |]; try done; (split; [done|split; [done|]]); try done; intros _.
    - destruct (extract (pq s)) as [[task rest]|] eqn:Ex; [|done]. apply extract_min in Ex as [Hp Hf].
      apply negb_false_iff, andb_true_iff in Hi as [_ Hlt]. right. rewrite Hp. apply Forall_cons. split; [lia|].
      eapply Forall_impl; [done|]. simpl. intros u Hu. lia.
    - left. exists et. split; [by eapply list_elem_of_lookup_2|lia]. }
  assert ((threads s ≫= run_by) = [] ∧ (threads s ≫= requeued) = []) as [E1 E2].
  { assert (∀ w, w ∈ threads s → run_by w = [] ∧ requeued w = []) as Hall.
    { intros w [t Ht]%list_elem_of_lookup. destruct (Hw t w Ht) as (? & ? & _). done. }
    clear -Hall. induction (threads s) as [|w ws IH]; [done|]. csimpl.
    destruct (Hall w) as [-> ->]; [by apply elem_of_cons; left|]. apply IH. intros x Hx. apply Hall. by apply elem_of_cons; right. }
  simpl. rewrite E1, E2, app_nil_r. split_and!; [done..|].
  assert (pq s = [] ∨ pq s ≠ []) as [?|Hne] by (destruct (pq s); auto); [by left|right].
  assert (owed s = 0%nat) as Ho by (pose proof (Hq (ScheduleNotify 0)) as Hi; simpl in Hi; destruct (owed s); done).
  destruct (H1 Hne) as [(w & [t Ht]%list_elem_of_lookup & Ha)|[? _]]; [|done]. destruct (Hw t w Ht) as (_ & _ & Hl). auto.
Qed.

(** *** The scheduler does not run for ever at one time *)

Definition due (n : Z) (task : Task) : nat := if executeAt task <=? n then 1 else 0.

Definition weight (n : Z) (w : Worker) : nat :=
  match w with
  | Asleep | Returned => 0
  | Checking => 2
  | Until _ true => 3
  | Until et false => if et <=? n then 4 else 0
  | Running _ => 8
  | Requeue task => 7 + 7 * due n task
  | Notifying => 6
  end.

(** The turns left before the clock has to move. *)
Definition potential (s : TaskScheduler) : nat :=
  7 * sum_list_with (due (now s)) (pq s) + sum_list_with (weight (now s)) (threads s) + 4 * owed s +
  if owed_all s then 3 * length (threads s) + 1 else 0.

Definition internal_step (s s' : TaskScheduler) : Prop := ∃ u, internal s u = true ∧ turn s u = Some s'.

(** The intervals of periodic tasks are positive. *)
Definition positive_intervals (s : TaskScheduler) : Prop :=
  ∀ t, t ∈ scheduled s → periodic t = true → 0 < interval_milliseconds t.

Lemma weight_wake n w : (weight n (wake w) ≤ weight n w + 3)%nat.
Proof. destruct w as [| |? []| | | |]; simpl; try lia. Qed.

Lemma sched_weight_notify n ws w : (sum_list_with (weight n) (notify_one ws w) ≤ sum_list_with (weight n) ws + 3)%nat.
Proof.
  destruct (notify_one_spec ws w) as [[_ ->]|(t & x & Ht & _ & ->)]; [lia|].
  pose proof (sum_insert (weight n) ws t x (wake x) Ht). pose proof (weight_wake n x). lia.
Qed.

Lemma weight_wake_all n ws : (sum_list_with (weight n) (wake <$> ws) ≤ sum_list_with (weight n) ws + 3 * length ws)%nat.
Proof. induction ws as [|w ws IH]; csimpl; [lia|]. pose proof (weight_wake n w). lia. Qed.

Lemma length_notify_one (ws : list Worker) w : length (notify_one ws w) = length ws.
Proof. destruct (notify_one_spec ws w) as [[_ ->]|(t & x & _ & _ & ->)]; by rewrite ?length_insert. Qed.

Lemma sum_perm {A} (f : A → nat) (l k : list A) : l ≡ₚ k → sum_list_with f l = sum_list_with f k.
Proof. induction 1; simpl; lia. Qed.

(** Worker [t] goes from [x] to [y], of less weight, with the queue [q]. *)
Lemma move_decreases s t x y q :
  threads s !! t = Some x →
  (7 * sum_list_with (due (now s)) q + weight (now s) y < 7 * sum_list_with (due (now s)) (pq s) + weight (now s) x)%nat →
  (potential (set_threads (set_pq s q) (<[t := y]> (threads s))) < potential s)%nat.
Proof.
  intros Ht Hlt. pose proof (sum_insert (weight (now s)) _ t x y Ht) as Hs. unfold potential.
  cbn [pq threads owed owed_all now set_threads set_pq]. rewrite length_insert. destruct (owed_all s); lia.
Qed.

Lemma select_decreases s t w :
  threads s !! t = Some Checking → internal s (Work t w) = true → (potential (worker_select s t) < potential s)%nat.
Proof.
  intros Ht Hi. simpl in Hi. rewrite Ht in Hi. unfold worker_select. destruct (extract (pq s)) as [[task rest]|] eqn:Ex.
  2: { rewrite <-(set_pq_id s) at 1. eapply move_decreases; [done|]. destruct (stop s); simpl; lia. }
  apply extract_min in Ex as [Hp _]. pose proof (sum_perm (due (now s)) _ _ Hp) as Hq. simpl in Hq.
  destruct (Z.ltb_spec (now s) (executeAt task)) as [Hlt|Hge].
  - destruct (stop s); [done|]. rewrite <-(set_pq_id s) at 1. eapply move_decreases; [done|]. cbn [weight].
    destruct (Z.leb_spec (executeAt task) (now s)); lia.
  - assert (due (now s) task = 1%nat) as Hd by (unfold due; by destruct (Z.leb_spec (executeAt task) (now s)); [|lia]).
    case_bool_decide.
    + unfold potential. cbn [pq threads owed owed_all now set_pq]. lia.
    + change (potential (start_task ?s _)) with (potential s). eapply move_decreases; [done|]. cbn [weight]. lia.
Qed.

Lemma finish_weight s task :
  (periodic task = true → 0 < interval_milliseconds task) → (weight (now s) (worker_finish s task) ≤ 7)%nat.
Proof.
  intros Hpos. unfold worker_finish. destruct (periodic task) eqn:E; simpl; [|lia]. case_bool_decide; simpl; [lia|].
  specialize (Hpos eq_refl). unfold due. simpl. destruct (Z.leb_spec (now s + interval_milliseconds task) (now s)); lia.
Qed.

Lemma sched_decreases s s' : spec_inv (abs s) → positive_intervals s → internal_step s s' → (potential s' < potential s)%nat.
Proof.
  intros Hsi Hpos (u & Hi & Ht). destruct u as [t w|f delay per iv|w|id| | |d]; try done; simpl in Ht; simplify_eq.
  - unfold worker. pose proof Hi as Hi'. simpl in Hi. destruct (threads s !! t) as [x|] eqn:Et; [|done].
    destruct x as [| |et [|]|task|task| |]; try done.
    + by eapply select_decreases.
    + rewrite <-(set_pq_id s) at 1. eapply move_decreases; [done|]. destruct (stop s); simpl; [lia|].
      destruct (et <=? now s) eqn:E; simpl; rewrite ?E; lia.
    + rewrite <-(set_pq_id s) at 1. eapply move_decreases; [done|]. cbn [weight]. rewrite Hi. lia.
    + rewrite <-(set_pq_id s) at 1. eapply move_decreases; [done|]. cbn [set_pq pq now]. change (worker_finish (set_pq s (pq s))) with (worker_finish s).
      enough (weight (now s) (worker_finish s task) ≤ 7)%nat by (simpl; lia). apply finish_weight.
      assert (task ∈ running (abs s)) as Hrun.
      { simpl. apply list_elem_of_bind. exists (Running task). split; [by apply list_elem_of_singleton|by eapply list_elem_of_lookup_2]. }
      destruct (si_origin _ Hsi task) as (t0 & Ht0 & E & Eper & Eiv); [left; apply elem_of_app; by right|].
      rewrite <-Eper, <-Eiv. apply Hpos. exact Ht0.
    + eapply move_decreases; [done|]. cbn [weight]. rewrite sum_list_with_app. simpl. lia.
    + unfold potential. cbn [pq threads owed owed_all now set_threads]. rewrite length_notify_one, length_insert.
      pose proof (sched_weight_notify (now s) (<[t:=Checking]> (threads s)) w) as H1.
      pose proof (sum_insert (weight (now s)) _ t _ Checking Et) as H2. cbn [weight] in H2. lia.
  - case_decide; simplify_eq. unfold potential, schedule_notify. cbn [pq threads owed owed_all now]. rewrite length_notify_one.
    pose proof (sched_weight_notify (now s) (threads s) w). lia.
  - simpl in Hi. rewrite Hi in Ht. simplify_eq. unfold potential, shutDown_notify. cbn [pq threads owed owed_all now].
    rewrite Hi. pose proof (weight_wake_all (now s) (threads s)). lia.
Qed.

Lemma internal_scheduled s s' : internal_step s s' → scheduled s' = scheduled s.
Proof.
  intros (u & Hi & Ht). destruct u as [t w|f delay per iv|w|id| | |d]; try done; simpl in Ht; repeat case_match; simplify_eq; try done.
  unfold worker, worker_select. repeat case_match; done.
Qed.

(** *** Cancelled tasks do not start *)

Lemma turn_starts s u s' :
  turn s u = Some s' → starts s' = starts s ∨ ∃ task, starts s' = starts s ++ [(task, now s)] ∧ task_id task ∉ cancelledTasks s.
Proof.
  destruct u as [t w|f delay per iv|w|id| | |d]; simpl; intros Ht; repeat case_match; simplify_eq; try (by left).
  unfold worker, worker_select. repeat case_match; try (by left). simpl. right. eexists. split; [done|]. by eapply bool_decide_eq_false_1.
Qed.

Lemma turn_cancelled s u s' id : turn s u = Some s' → id ∈ cancelledTasks s → id ∈ cancelledTasks s'.
Proof.
  intros Ht Hid. destruct u as [t w|f delay per iv|w|id'| | |d]; simpl in Ht; repeat case_match; simplify_eq; try done.
  - unfold worker, worker_select. repeat case_match; done.
  - simpl. apply elem_of_union. by right.
Qed.

Lemma cancelled_never_starts s us s' id :
  run_ops turn s us = Some s' → id ∈ cancelledTasks s →
  filter (λ p, task_id p.1 = id) (starts s') = filter (λ p, task_id p.1 = id) (starts s).
Proof.
  revert s. induction us as [|u us IH]; simpl; intros s Hr Hid; [by simplify_eq|].
  destruct (turn s u) as [s1|] eqn:E; [|done]. rewrite (IH s1 Hr (turn_cancelled _ _ _ _ E Hid)).
  destruct (turn_starts _ _ _ E) as [->|(task & -> & Hn)]; [done|]. rewrite filter_app, filter_cons_False, filter_nil, app_nil_r; [done|].
  simpl. intros E'. by rewrite E' in Hn.
Qed.
End scheduler.
Arguments Task : clear implicits.
Arguments Worker : clear implicits.
Arguments TaskScheduler : clear implicits.
Arguments Turn : clear implicits.
Arguments PriorityQueue : clear implicits.

(** A queue with these laws: the first of the tasks that come first. *)
Fixpoint extract_first {F} (l : list (Task F)) : option (Task F * list (Task F)) :=
  match l with
  | [] => None
  | t :: l =>
      match extract_first l with
      | None => Some (t, l)
      | Some (u, l') => if executeAt t <=? executeAt u then Some (t, l) else Some (u, t :: l')
      end
  end.

#[export, refine] Instance first_queue {F} : PriorityQueue F := {| extract := extract_first |}.
Proof.
  - done.
  - intros [|t l] Hl; [done|]. simpl. destruct (extract_first l) as [[u l']|]; [|done]. by destruct (_ <=? _).
  - intros l. induction l as [|x l IH]; intros t l' Ht; [done|]. simpl in Ht.
    destruct (extract_first l) as [[u k]|] eqn:E.
    + destruct (IH u k eq_refl) as [Hp Hf]. destruct (Z.leb_spec (executeAt x) (executeAt u)); simplify_eq.
      * split; [done|]. rewrite Hp. apply Forall_cons. split; [done|]. eapply Forall_impl; [done|]. simpl. intros v Hv. lia.
      * split; [rewrite Hp; solve_Permutation|]. apply Forall_cons. split; [lia|done].
    + simplify_eq. destruct l' as [|y l']; [done|]. simpl in E. destruct (extract_first l') as [[??]|]; [|done]. by destruct (_ <=? _).
Defined.

(** ** What the schedulers promise *)

Lemma make_spec_inv {F} n now : spec_inv (abs (TaskScheduler_make (F := F) n now)).
Proof.
  assert ((replicate n (@Checking F) ≫= requeued) = [] ∧ (replicate n (@Checking F) ≫= run_by) = []) as [E1 E2].
  { by induction n. }
  split; unfold live; simpl; rewrite ?E1, ?E2; simpl; try (intros; by set_solver); try constructor.
Qed.

Lemma make_live_inv {F} n now : n ≠ 0%nat → live_inv (TaskScheduler_make (F := F) n now).
Proof.
  intros Hn. split; simpl; try done.
  - intros [? _]%elem_of_replicate. done.
  - by destruct n.
Qed.

Section theorems.
Context {F : Type} `{!PriorityQueue F}.

(** Both invariants hold in every state the scheduler reaches. *)
Lemma sched_reachable n now us (s : TaskScheduler F) :
  n ≠ 0%nat → run_ops turn (TaskScheduler_make n now) us = Some s → spec_inv (abs s) ∧ live_inv s.
Proof.
  intros Hn Hr. apply (run_ops_preserves turn (λ s, spec_inv (abs s) ∧ live_inv s) (TaskScheduler_make n now) us); [| |done].
  - intros s1 u s2 [H1 H2] Ht. split; [by eapply spec_step_inv, turn_refines|by eapply turn_live].
  - split; [apply make_spec_inv|by apply make_live_inv].
Qed.


(** A periodic task that is not cancelled keeps [shutDown] (and the destructor) waiting: as
    long as there is one, some worker has not returned. *)
Theorem periodic_task_blocks_shutdown (n : nat) (t0 : Z) us (s : TaskScheduler F) (task : Task F) :
  n ≠ 0%nat → run_ops turn (TaskScheduler_make n t0) us = Some s →
  task ∈ scheduled s → periodic task = true → task_id task ∉ cancelledTasks s →
  ¬ Forall (λ w, w = Returned) (threads s).
Proof.
  intros Hn Hr Ht Hper Hc Hall. destruct (sched_reachable n t0 us s Hn Hr) as [Hsi Hli].
  assert ((threads s ≫= requeued) = [] ∧ (threads s ≫= run_by) = []) as [E1 E2].
  { clear -Hall. induction Hall as [|w ws -> _ IH]; [done|]. by csimpl. }
  destruct (si_account _ Hsi task Ht) as [?|[Hl|[? _]]]; [done| |congruence].
  unfold live in Hl. simpl in Hl. rewrite E1, E2, !app_nil_r in Hl.
  destruct (li_awake _ Hli) as [(w & Hw & Ha)|[_ Hr']]; [by intros E; rewrite E in Hl; apply not_elem_of_nil in Hl| |].
  - apply (proj1 (Forall_forall _ _) Hall) in Hw. by subst w.
  - destruct (threads s) as [|w ws] eqn:E; [by destruct (li_threads _ Hli)|]. apply Hr'.
    apply Forall_cons in Hall as [-> _]. by apply elem_of_cons; left.
Qed.

(** ** One-time execution

    The other program has neither identifiers nor periodic tasks; its tasks are numbered
    here too, so that executions can be told apart. *)

(** The critical section of [worker]. *)
Definition Single_select (s : TaskScheduler F) (t : nat) : TaskScheduler F :=
  match extract (pq s) with
  | None => set_threads s (<[t := if stop s then Returned else Asleep]> (threads s))
  | Some (task, rest) =>
      if now s <? executeAt task then
        if stop s then s else set_threads s (<[t := Until (executeAt task) false]> (threads s))
      else start_task (set_threads (set_pq s rest) (<[t := Running task]> (threads s))) task
  end.

Definition Single_worker (s : TaskScheduler F) (t : nat) : TaskScheduler F :=
  match threads s !! t with
  | Some Checking => Single_select s t
  | Some Asleep | Some (Running _) => set_threads s (<[t := Checking]> (threads s))
  | Some (Until et false) => set_threads s (<[t := Until et true]> (threads s))
  | Some (Until et true) =>
      set_threads s (<[t := if stop s || (et <=? now s) then Checking else Until et false]> (threads s))
  | _ => s
  end.

Definition Single_schedule (s : TaskScheduler F) (func : F) (delayInMillisecond : Z) : TaskScheduler F :=
  (schedule s func delayInMillisecond false 0).1.

Inductive Single_Turn :=
  | SWork (t : nat) | SSchedule (func : F) (delay : Z) | SScheduleNotify (w : nat) | SShutDown | SShutDownNotify | STick (d : Z).

Definition Single_turn (s : TaskScheduler F) (u : Single_Turn) : option (TaskScheduler F) :=
  match u with
  | SWork t => Some (Single_worker s t)
  | SSchedule f delay => if stop s then None else Some (Single_schedule s f delay)
  | SScheduleNotify w => if decide (owed s = 0%nat) then None else Some (schedule_notify s w)
  | SShutDown => if stop s then None else Some (shutDown s)
  | SShutDownNotify => if owed_all s then Some (shutDown_notify s) else None
  | STick d => if 0 <=? d then Some (tick s d) else None
  end.

(** The same turn of the other scheduler. *)
Definition embed (u : Single_Turn) : Turn F :=
  match u with
  | SWork t => Work t 0
  | SSchedule f delay => Schedule f delay false 0
  | SScheduleNotify w => ScheduleNotify w
  | SShutDown => ShutDown
  | SShutDownNotify => ShutDownNotify
  | STick d => Tick d
  end.

Definition single_worker_ok (w : Worker F) : Prop :=
  match w with Running task => periodic task = false | Requeue _ | Notifying => False | _ => True end.

Record single_ok (s : TaskScheduler F) : Prop := {
  so_cancelled : cancelledTasks s = ∅;
  so_pq : ∀ t, t ∈ pq s → periodic t = false;
  so_threads : ∀ w, w ∈ threads s → single_worker_ok w;
  so_known : ∀ t, t ∈ scheduled s → periodic t = false
}.

Lemma single_step_embeds s u : single_ok s → Single_turn s u = turn s (embed u).
Proof.
  intros [Hc Hq Ht Hk]. destruct u as [t| | | | |]; try done. simpl. f_equal. unfold Single_worker, worker.
  destruct (threads s !! t) as [w|] eqn:E; [|done]. specialize (Ht w (list_elem_of_lookup_2 _ _ _ E)).
  destruct w as [| |et [|]|task|task| |]; try done.
  - unfold Single_select, worker_select. destruct (extract (pq s)) as [[task rest]|]; [|done].
    destruct (now s <? executeAt task); [done|]. by rewrite Hc, bool_decide_eq_false_2 by apply not_elem_of_empty.
  - simpl in Ht. unfold worker_finish. by rewrite Ht.
Qed.

Lemma single_ok_wake w : single_worker_ok w → single_worker_ok (wake w).
Proof. by destruct w as [| |? []| | | |]. Qed.

Lemma single_ok_notify ws w : (∀ x, x ∈ ws → single_worker_ok x) → ∀ x, x ∈ notify_one ws w → single_worker_ok x.
Proof. intros Hw x [?|(y & Hy & _ & ->)]%notify_one_elem; [auto|]. by apply single_ok_wake, Hw. Qed.

Lemma single_ok_move s t y q :
  single_ok s → single_worker_ok y → (∀ u, u ∈ q → periodic u = false) → single_ok (set_threads (set_pq s q) (<[t := y]> (threads s))).
Proof. intros [Hc Hq Ht Hk] Hy Hq'. split; simpl; try done. intros w [->|?]%elem_of_insert_inv; auto. Qed.

Lemma single_ok_same s t y : single_ok s → single_worker_ok y → single_ok (set_threads s (<[t := y]> (threads s))).
Proof. intros Hs Hy. pose proof (single_ok_move s t y (pq s) Hs Hy (so_pq s Hs)) as Hm. by rewrite set_pq_id in Hm. Qed.

Lemma single_select_ok s t : single_ok s → single_ok (Single_select s t).
Proof.
  intros Hs. unfold Single_select. destruct (extract (pq s)) as [[task rest]|] eqn:E; [|apply single_ok_same; [done|by destruct (stop s)]].
  destruct (now s <? executeAt task); [destruct (stop s); [done|by apply single_ok_same]|].
  apply extract_min in E as [Hp _]. pose proof (so_pq s Hs) as Hq. setoid_rewrite Hp in Hq.
  destruct (single_ok_move s t (Running task) rest Hs) as [? ? ? ?]; [|intros u Hu|by split].
  - apply Hq. by apply elem_of_cons; left.
  - apply Hq. by apply elem_of_cons; right.
Qed.

Lemma single_turn_ok s u s' : single_ok s → Single_turn s u = Some s' → single_ok s'.
Proof.
  intros Hs Ht. destruct u as [t|f delay|w| | |d]; simpl in Ht; repeat case_match; simplify_eq.
  - unfold Single_worker. destruct (threads s !! t) as [w|]; [|done].
    destruct w as [| |et [|]|task|task| |]; try done; try (by apply single_ok_same); [by apply single_select_ok|].
    apply single_ok_same; [done|]. by destruct (stop s || _).
  - destruct Hs as [Hc Hq Ht Hk]. split; simpl; try done; intros u [?| ->%list_elem_of_singleton]%elem_of_app; auto.
  - destruct Hs as [Hc Hq Ht Hk]. split; simpl; try done. by apply single_ok_notify.
  - destruct Hs as [Hc Hq Ht Hk]. by split.
  - destruct Hs as [Hc Hq Ht Hk]. split; simpl; try done. intros w (x & -> & Hx)%list_elem_of_fmap. by apply single_ok_wake, Ht.
  - destruct Hs as [Hc Hq Ht Hk]. by split.
Qed.

Lemma single_make_ok n t0 : single_ok (TaskScheduler_make n t0).
Proof. split; simpl; [done|set_solver| |set_solver]. by intros w [-> _]%elem_of_replicate. Qed.

Lemma single_runs_embed s us s' :
  single_ok s → run_ops Single_turn s us = Some s' → run_ops turn s (embed <$> us) = Some s' ∧ single_ok s'.
Proof.
  revert s. induction us as [|u us IH]; simpl; intros s Hs Hr; [by simplify_eq|].
  destruct (Single_turn s u) as [s1|] eqn:E; [|done]. rewrite <-single_step_embeds, E by done. simpl.
  apply IH; [by eapply single_turn_ok|done].
Qed.

(** The scheduler of one-time tasks: no task starts early, none twice, none is forgotten;
    when nothing can happen until the clock moves, all tasks have been started or a worker
    waits for a later time. *)
Theorem single_scheduler_correct (n : nat) (t0 : Z) us (s : TaskScheduler F) :
  n ≠ 0%nat → run_ops Single_turn (TaskScheduler_make n t0) us = Some s →
  (∀ p, p ∈ starts s → executeAt p.1 ≤ p.2) ∧
  NoDup (task_id <$> (starts s).*1) ∧
  (∀ t, t ∈ scheduled s → task_id t ∈ task_id <$> waiting (abs s) ++ running (abs s) ∨ task_id t ∈ task_id <$> (starts s).*1) ∧
  ((∀ u, internal s u = false) →
    (∀ t, t ∈ scheduled s → task_id t ∈ task_id <$> (starts s).*1) ∨ waits_for_later s).
Proof.
  intros Hn Hr. destruct (single_runs_embed _ _ _ (single_make_ok n t0) Hr) as [Hr' Hs].
  destruct (sched_reachable n t0 _ s Hn Hr') as [Hsi Hli].
  assert (∀ t, t ∈ scheduled s → task_id t ∈ task_id <$> waiting (abs s) ++ running (abs s) ∨ task_id t ∈ task_id <$> (starts s).*1) as Hacc.
  { intros t Ht. destruct (si_account _ Hsi t Ht) as [Hc|[?|[_ ?]]]; [|by left|by right].
    simpl in Hc. rewrite (so_cancelled s Hs) in Hc. by apply not_elem_of_empty in Hc. }
  split_and!; [intros p Hp; by apply (si_due _ Hsi)| |done|].
  - assert (∀ p, p ∈ starts s → periodic p.1 = false) as Hper.
    { intros p Hp. destruct (si_origin _ Hsi p.1) as (t & Ht & _ & <- & _); [right; by apply list_elem_of_fmap_2|]. by apply (so_known s Hs). }
    pose proof (si_log _ Hsi) as Hlog. simpl in Hlog. clear -Hlog Hper. induction Hlog as [|p l _ IH Hf]; csimpl; [constructor|].
    constructor; [|apply IH; intros q Hq; apply Hper; by apply elem_of_cons; right].
    rewrite <-list_fmap_compose. intros (q & E & Hq)%list_elem_of_fmap. apply (proj1 (Forall_forall _ _) Hf) in Hq as Hsp.
    destruct (Hsp E) as [Hp _]. rewrite Hper in Hp; [done|by apply elem_of_cons; right].
  - intros Hq. destruct (quiescent s Hli Hq) as (E1 & E2 & [E3|Hw]); [left|by right].
    intros t Ht. destruct (Hacc t Ht) as [Hl|?]; [|done]. rewrite E1, E2, E3 in Hl. by apply not_elem_of_nil in Hl.
Qed.
End theorems.

(** A scheduler with one worker, a periodic task and a cancelled one. *)
Definition demo_turns : list (Turn string) :=
  [Work 0 0; Schedule "beat" 10 true 30; ScheduleNotify 0; Work 0 0; Work 0 0; Schedule "late" 50 false 0; ScheduleNotify 0; Work 0 0;
   Tick 10; Work 0 0; Work 0 0; Work 0 0; Work 0 0; Work 0 0; Work 0 0; Cancel 2; Tick 60; Work 0 0; Work 0 0; Work 0 0]%string.


(** The predicate of [wait_until] is [stop]: a worker that is notified of a task that comes
    first goes back to sleep until the time of the task it was waiting for.  Here a task
    for time 100 has not been started at time 500, and nothing will happen before 1000. *)
Lemma scheduler_misses_earlier_task :
  ∃ s : TaskScheduler string,
    run_ops turn (TaskScheduler_make 1 0)
      [Work 0 0; Schedule "A" 1000 false 0; ScheduleNotify 0; Work 0 0; Work 0 0;
       Schedule "B" 100 false 0; ScheduleNotify 0; Work 0 0; Tick 500]%string = Some s ∧
    (∀ u, internal s u = false) ∧ starts s = [] ∧ Exists (λ t, executeAt t = 100) (pq s) ∧ now s = 500.
Proof.
  eexists. split; [vm_compute; reflexivity|]. split_and!; [|done| |done].
  - intros [[|t] w| | | | | |]; done.
  - apply Exists_cons; right. apply Exists_cons. by left.
Qed.
