(* ===== verification/Deadlocks.v ===== *)
(** * Mutexes taken together: the dining philosophers

    [src/concurrency/DiningPhilosophers.cpp] and [src/concurrency/Deadlock_create_fix.cpp]:
    threads that hold more than one mutex.  A thread is the list of its actions: it locks
    mutexes, one by one or together by [std::lock], prints, and unlocks what its guards
    hold where they go out of scope.  [std::lock] blocks until it has all its mutexes and
    holds none of them while it is blocked.  Printing under the print mutex is one action.

    Threads that hold mutexes only between one [std::lock] and the end of its scope are
    never deadlocked, whatever their number, their mutexes and the schedule; the threads
    that lock one by one can be. *)
From S2P Require Import Prelude.
Local Open Scope nat_scope.

Section mutexes.
Context {Msg : Type}.

Inductive Action := Lock (ms : list nat) | Say (msg : Msg) | Unlock (ms : list nat).

Record Sys := { owner : gmap nat nat; threads : list (list Action); output : list (nat * Msg) }.

Definition start (ths : list (list Action)) : Sys := {| owner := ∅; threads := ths; output := [] |}.

Definition acquire (t : nat) (ms : list nat) (o : gmap nat nat) : gmap nat nat := foldr (λ m, <[m := t]>) o ms.
Definition release (ms : list nat) (o : gmap nat nat) : gmap nat nat := foldr delete o ms.

(** Whether the next action of a thread is possible. *)
Definition possible (s : Sys) (a : Action) : bool :=
  match a with Lock ms => bool_decide (Forall (λ m, owner s !! m = None) ms) | _ => true end.

Definition perform (s : Sys) (t : nat) (a : Action) (rest : list Action) : Sys :=
  {| owner := match a with Lock ms => acquire t ms (owner s) | Unlock ms => release ms (owner s) | Say _ => owner s end;
     threads := <[t := rest]> (threads s);
     output := match a with Say msg => output s ++ [(t, msg)] | _ => output s end |}.

Definition enabled (s : Sys) (t : nat) : bool := match threads s !! t with Some (a :: _) => possible s a | _ => false end.

(** A turn of thread [t]; a thread that is blocked does nothing. *)
Definition turn (s : Sys) (t : nat) : Sys :=
  match threads s !! t with Some (a :: rest) => if possible s a then perform s t a rest else s | _ => s end.

Definition run (s : Sys) (sched : list nat) : Sys := fold_left turn sched s.

Definition finished (s : Sys) : Prop := Forall (λ th, th = []) (threads s).

Definition deadlocked (s : Sys) : Prop := ¬ finished s ∧ ∀ t, enabled s t = false.

(** The turns of a schedule that do something. *)
Fixpoint work (s : Sys) (sched : list nat) : nat :=
  match sched with [] => 0 | t :: sched => (if enabled s t then 1 else 0) + work (turn s t) sched end.

Definition says (acts : list Action) : list Msg := omap (λ a, match a with Say msg => Some msg | _ => None end) acts.

(** A thread that holds [held] and locks again only when it holds nothing. *)
Fixpoint together (held : list nat) (acts : list Action) : Prop :=
  match acts with
  | [] => held = []
  | Say _ :: acts => together held acts
  | Lock ms :: acts => held = [] ∧ NoDup ms ∧ together ms acts
  | Unlock ms :: acts => ms ≡ₚ held ∧ together [] acts
  end.

Lemma together_app acts1 acts2 held : together held acts1 → together [] acts2 → together held (acts1 ++ acts2).
Proof. revert held. induction acts1 as [|[ms|msg|ms] acts IH]; simpl; intros held; [by intros ->|naive_solver..]. Qed.

Lemma lookup_acquire t ms o m : acquire t ms o !! m = if decide (m ∈ ms) then Some t else o !! m.
Proof.
  induction ms as [|x ms IH]; [done|]. simpl. destruct (decide (x = m)) as [->|Hx].
  - rewrite lookup_insert_eq, decide_True; [done|by apply elem_of_cons; left].
  - rewrite lookup_insert_ne, IH by done. apply decide_ext. rewrite elem_of_cons. naive_solver.
Qed.

Lemma lookup_release ms o m : release ms o !! m = if decide (m ∈ ms) then None else o !! m.
Proof.
  induction ms as [|x ms IH]; [done|]. simpl. destruct (decide (x = m)) as [->|Hx].
  - rewrite lookup_delete_eq, decide_True; [done|by apply elem_of_cons; left].
  - rewrite lookup_delete_ne, IH by done. apply decide_ext. rewrite elem_of_cons. naive_solver.
Qed.

(** [held] says what each thread holds; a mutex has one owner. *)
Record inv (held : list (list nat)) (s : Sys) : Prop := {
  inv_together : Forall2 together held (threads s);
  inv_owner m t : owner s !! m = Some t ↔ ∃ ms, held !! t = Some ms ∧ m ∈ ms
}.

Lemma inv_insert held s t ms acts o out :
  inv held s → t < length held → together ms acts →
  (∀ m u, o !! m = Some u ↔ if decide (u = t) then m ∈ ms else owner s !! m = Some u) →
  inv (<[t := ms]> held) {| owner := o; threads := <[t := acts]> (threads s); output := out |}.
Proof.
  intros [H1 H2] Hlt Ht Ho. split; simpl; [by apply Forall2_insert|]. intros m u. rewrite Ho. destruct (decide (u = t)) as [->|Hu].
  - rewrite list_lookup_insert_eq by done. naive_solver.
  - rewrite list_lookup_insert_ne by done. apply H2.
Qed.

Lemma mutex_turn_inv held s t : inv held s → ∃ held', inv held' (turn s t).
Proof.
  intros Hi. unfold turn. destruct (threads s !! t) as [[|a rest]|] eqn:Et; [by exists held| |by exists held].
  destruct (possible s a) eqn:Ep; [|by exists held]. pose proof Hi as [H1 H2].
  destruct (Forall2_lookup_r _ _ _ _ _ H1 Et) as (ms0 & Hh & Htg). pose proof (lookup_lt_Some _ _ _ Hh) as Hlt.
  assert (∀ m, owner s !! m = Some t ↔ m ∈ ms0) as Hown by (intros m; rewrite H2; naive_solver).
  destruct a as [ms|msg|ms]; simpl in Ep, Htg.
  - destruct Htg as (-> & Hnd & Htg). apply bool_decide_eq_true in Ep. exists (<[t := ms]> held). apply inv_insert; try done.
    intros m u. rewrite lookup_acquire. destruct (decide (m ∈ ms)) as [Hm|Hm].
    + pose proof (proj1 (Forall_forall _ _) Ep m Hm) as Hf. rewrite Hf. destruct (decide (u = t)) as [->|]; naive_solver.
    + destruct (decide (u = t)) as [->|]; [|done]. rewrite Hown. split; [by intros ?%not_elem_of_nil|done].
  - exists (<[t := ms0]> held). apply inv_insert; try done. intros m u. destruct (decide (u = t)) as [->|]; [apply Hown|done].
  - destruct Htg as [Hp Htg]. exists (<[t := []]> held). apply inv_insert; try done. intros m u. rewrite lookup_release.
    destruct (decide (m ∈ ms)) as [Hm|Hm]; rewrite Hp, <-Hown in Hm; destruct (decide (u = t)) as [->|Hu].
    + split; [done|by intros ?%not_elem_of_nil].
    + rewrite Hm. naive_solver.
    + split; [done|by intros ?%not_elem_of_nil].
    + done.
Qed.

Lemma run_inv held s sched : inv held s → ∃ held', inv held' (run s sched).
Proof.
  revert held s. induction sched as [|t sched IH]; intros held s Hi; [by exists held|]. simpl.
  destruct (mutex_turn_inv held s t Hi) as [held' Hi']. by apply (IH held').
Qed.

Lemma mutex_start_inv ths : Forall (together []) ths → inv (replicate (length ths) []) (start ths).
Proof.
  intros Hall. split; simpl.
  - induction Hall; simpl; by constructor.
  - intros m t. rewrite lookup_empty. split; [done|]. intros (ms & [-> _]%lookup_replicate & ?%not_elem_of_nil). done.
Qed.

(** The thread that holds something can go on; if no thread does, any can. *)
Lemma inv_not_deadlocked held s : inv held s → ¬ deadlocked s.
Proof.
  intros [H1 H2] [Hnf Hen]. apply Hnf. apply Forall_forall. intros th [t Ht]%list_elem_of_lookup.
  destruct th as [|a rest]; [done|]. exfalso.
  assert (∀ u ms acts, held !! u = Some ms → threads s !! u = Some acts → ms = []) as Hnone.
  { intros u ms acts Hu Ha. specialize (Hen u). unfold enabled in Hen. rewrite Ha in Hen.
    pose proof (Forall2_lookup_lr _ _ _ _ _ _ H1 Hu Ha) as Htg. destruct acts as [|[ms'|msg|ms'] acts]; simpl in *; try done. naive_solver. }
  specialize (Hen t). unfold enabled in Hen. rewrite Ht in Hen. destruct a as [ms|msg|ms]; simpl in Hen; try done.
  apply bool_decide_eq_false in Hen. apply Hen, Forall_forall. intros m _. destruct (owner s !! m) as [u|] eqn:E; [|done].
  apply H2 in E as (ms' & Hu & Hm). destruct (Forall2_lookup_l _ _ _ _ _ H1 Hu) as (acts & Ha & _).
  rewrite (Hnone u ms' acts Hu Ha) in Hm. by apply not_elem_of_nil in Hm.
Qed.

(** What thread [t] has printed. *)
Definition said_by (t : nat) (out : list (nat * Msg)) : list Msg := (filter (λ p, p.1 = t) out).*2.

(** A thread performs its actions in order, and prints what they say. *)
Lemma turn_performs s u t acts :
  threads s !! t = Some acts →
  ∃ before rest, acts = before ++ rest ∧ threads (turn s u) !! t = Some rest ∧
    said_by t (output (turn s u)) = said_by t (output s) ++ says before.
Proof.
  intros Ht. assert (∃ before rest, acts = before ++ rest ∧ threads s !! t = Some rest ∧
    said_by t (output s) = said_by t (output s) ++ says before) as Hstay.
  { exists [], acts. simpl. by rewrite app_nil_r. }
  unfold turn. destruct (threads s !! u) as [[|a rest]|] eqn:Eu; try exact Hstay. destruct (possible s a); [|exact Hstay].
  unfold perform. simpl. destruct (decide (u = t)) as [->|Hne].
  - rewrite Ht in Eu. simplify_eq. exists [a], rest. rewrite list_lookup_insert_eq by by eapply lookup_lt_Some. split_and!; [done..|].
    destruct a; simpl; rewrite ?app_nil_r; try done. unfold said_by. by rewrite filter_app, fmap_app, filter_cons_True.
  - exists [], acts. rewrite list_lookup_insert_ne by done. split_and!; [done..|]. rewrite app_nil_r. destruct a; try done.
    unfold said_by. by rewrite filter_app, filter_cons_False, filter_nil, app_nil_r.
Qed.

Lemma run_performs s sched t acts :
  threads s !! t = Some acts →
  ∃ before rest, acts = before ++ rest ∧ threads (run s sched) !! t = Some rest ∧
    said_by t (output (run s sched)) = said_by t (output s) ++ says before.
Proof.
  revert s acts. induction sched as [|u sched IH]; intros s acts Ht; [exists [], acts; simpl; by rewrite app_nil_r|]. simpl.
  destruct (turn_performs s u t acts Ht) as (b1 & r1 & -> & H1 & E1). destruct (IH _ _ H1) as (b2 & r2 & -> & H2 & E2).
  exists (b1 ++ b2), r2. split_and!; [by rewrite (assoc_L (++))|done|]. rewrite E2, E1. unfold says. by rewrite omap_app, (assoc_L (++)).
Qed.

(** Every turn that does something uses up an action. *)
Lemma actions_bound s sched : work s sched ≤ sum_list_with length (threads s).
Proof.
  revert s. induction sched as [|t sched IH]; intros s; simpl; [lia|]. specialize (IH (turn s t)). revert IH.
  unfold enabled, turn. destruct (threads s !! t) as [[|a rest]|] eqn:Et; [lia| |lia].
  destruct (possible s a); [|lia]. simpl. pose proof (sum_insert length _ t _ rest Et). simpl in *. lia.
Qed.
End mutexes.
Arguments Action : clear implicits.
Arguments Sys : clear implicits.

(** ** The dining philosophers *)

Inductive Msg := Thinking | Eating | FinishedEating.

(** [think] and [eat]. *)
Definition think : list (Action Msg) := [Say Thinking].

Definition eat (leftFork rightFork : nat) : list (Action Msg) :=
  [Lock [leftFork; rightFork]; Say Eating; Say FinishedEating; Unlock [rightFork; leftFork]].

(** [philosopher] at a table of [n]: three meals. *)
Definition philosopher (n philosopher_id : nat) : list (Action Msg) :=
  let leftFork := philosopher_id in
  let rightFork := (philosopher_id + 1) mod n in
  let meal := think ++ eat leftFork rightFork in
  meal ++ meal ++ meal.

Definition table (n : nat) : Sys Msg := start (philosopher n <$> seq 0 n).

Definition eating (s : Sys Msg) (i : nat) : Prop := last (said_by i (output s)) = Some Eating.

Lemma neighbour_ne n i : 2 ≤ n → i < n → i ≠ (i + 1) mod n.
Proof.
  intros Hn Hi. destruct (decide (i + 1 = n)) as [E|?]; [rewrite E, Nat.Div0.mod_same; lia|rewrite Nat.mod_small; lia].
Qed.

Lemma philosopher_together n i : 2 ≤ n → i < n → together [] (philosopher n i).
Proof.
  intros Hn Hi. assert (i ≠ (i + 1) mod n) as Hne.
  { apply neighbour_ne; lia. }
  assert (NoDup [i; (i + 1) mod n]) as Hnd.
  { repeat constructor; rewrite ?list_elem_of_singleton; [done|]. apply not_elem_of_nil. }
  unfold philosopher, think, eat. simpl. assert ([(i + 1) mod n; i] ≡ₚ [i; (i + 1) mod n]) as Hp by apply perm_swap. tauto.
Qed.

Lemma total_actions n : sum_list_with length (threads (table n)) ≤ 15 * n.
Proof.
  assert (∀ l, sum_list_with length (philosopher n <$> l) = 15 * length l) as Hs; [|unfold table; simpl; rewrite Hs, length_seq; lia].
  intros l. induction l as [|a l IH]; [done|]. rewrite fmap_cons. cbn [sum_list_with]. rewrite IH.
  change (length (philosopher n a)) with 15. cbn [length]. lia.
Qed.

(** While a philosopher eats, it holds its forks. *)
Lemma eating_holds n i before rest held :
  philosopher n i = before ++ rest → last (says before) = Some Eating → together held rest → held ≡ₚ [i; (i + 1) mod n].
Proof.
  intros Hp Hl Ht. assert (before = take (length before) (philosopher n i)) as Eb by by rewrite Hp, take_app_length.
  assert (rest = drop (length before) (philosopher n i)) as Er by by rewrite Hp, drop_app_length.
  assert (length before ≤ 15) as Hlen.
  { assert (length (philosopher n i) = 15) as E15 by done. rewrite Hp, length_app in E15. lia. }
  rewrite Eb in Hl. rewrite Er in Ht. remember (length before) as k eqn:Ek. clear -Hl Ht Hlen.
  unfold philosopher, think, eat in *. remember ((i + 1) mod n) as r eqn:Er.
  do 16 (destruct k as [|k]; [simpl in Hl, Ht; try done; destruct Ht as [Ht _]; rewrite <-Ht; apply perm_swap|]). lia.
Qed.

(** ** Two threads and two mutexes *)

Definition m1 : nat := 1.
Definition m2 : nat := 2.

Definition deadlockThread_1 : list (Action string) := [Lock [m1]; Lock [m2]; Say "Thread_1 done"; Unlock [m2]; Unlock [m1]]%string.
Definition deadlockThread_2 : list (Action string) := [Lock [m2]; Lock [m1]; Say "Thread_2 done"; Unlock [m1]; Unlock [m2]]%string.
Definition safeThread_1 : list (Action string) := [Lock [m1; m2]; Say "Safe execution_1"; Unlock [m2; m1]]%string.
Definition safeThread_2 : list (Action string) := [Lock [m2; m1]; Say "Safe execution_2"; Unlock [m1; m2]]%string.

(** The first pair deadlocks, the second never does. *)
Lemma threads_deadlock : deadlocked (run (start [deadlockThread_1; deadlockThread_2]) [0; 1]).
Proof.
  split; [by intros Hf; apply Forall_cons in Hf as [? _]|]. by intros [|[|t]].
Qed.

Lemma safe_threads_never_deadlock sched : ¬ deadlocked (run (start [safeThread_1; safeThread_2]) sched).
Proof.
  destruct (run_inv (replicate 2 []) (start [safeThread_1; safeThread_2]) sched) as [held Hi]; [|by eapply inv_not_deadlocked].
  apply (mutex_start_inv [safeThread_1; safeThread_2]). assert ([1; 2] ≡ₚ [2; 1]) as Hp by apply perm_swap.
  repeat constructor; simpl; try done; try (by rewrite list_elem_of_singleton); by apply not_elem_of_nil.
Qed.

(** ** What the philosophers do *)


