(* ===== verification/Tries.v ===== *)
(** * Tries

    [src/Trie]: words with their frequencies ([prefix_tree_with_frequency.cpp]), the
    shortest dictionary prefix of a word ([replace_with_shortest_dictionary_prefix.cpp]),
    the best completions of a prefix ([search_AutoComplete.cpp]) and the greatest
    exclusive-or of two numbers ([maximum_XOR_of_2_numbers.cpp]).

    The four programs walk and extend the same structure: a node with its data and a child
    for some of the symbols.  Nodes are not shared, so a trie is a tree; a null child is
    [None].  What a program keeps at the node of a path is determined by the words inserted
    so far ([data_grow]). *)
From Stdlib Require Import Ascii String.
From stdpp Require Import functions.
From S2P Require Import Prelude Streams.
Local Open Scope nat_scope.

Section trie.
Context {K V : Type} `{EqDecision K} (fresh : V).

Inductive TrieNode := Node (data : V) (children : K → option TrieNode).

Definition data (p : TrieNode) : V := match p with Node v _ => v end.
Definition children (p : TrieNode) : K → option TrieNode := match p with Node _ ch => ch end.

(** [new TrieNode()] *)
Definition new_node : TrieNode := Node fresh (λ _, None).

(** [p = p->children[c]] along a word. *)
Fixpoint walk (word : list K) (p : TrieNode) : option TrieNode :=
  match word with [] => Some p | c :: word => q ← children p c; walk word q end.

(** The loop of the insertions: missing nodes are created, every node entered is changed by
    [enter] and the last one by [finish]. *)
Fixpoint grow (enter finish : V → V) (word : list K) (p : TrieNode) : TrieNode :=
  match word with
  | [] => Node (finish (data p)) (children p)
  | c :: word =>
      let q := default new_node (children p c) in
      Node (data p) (<[c := Some (grow enter finish word (Node (enter (data q)) (children q)))]> (children p))
  end.

(** The data at the end of a path. *)
Definition data_at (path : list K) (p : TrieNode) : option V := data <$> walk path p.

Lemma data_at_cons c path p : data_at (c :: path) p = (q ← children p c; data_at path q).
Proof. unfold data_at. simpl. by destruct (children p c). Qed.

Lemma data_at_new c path : data_at (c :: path) new_node = None.
Proof. done. Qed.

(** An insertion changes the data of the prefixes of the word and of nothing else. *)
Lemma data_grow enter finish word path p :
  data_at path (grow enter finish word p) =
  if decide (path `prefix_of` word) then
    let v := if decide (path = []) then data p else enter (default fresh (data_at path p)) in
    Some (if decide (path = word) then finish v else v)
  else data_at path p.
Proof.
  revert path p. induction word as [|c word IH]; intros path p.
  - destruct path as [|x path]; [done|]. by rewrite decide_False by by intros ?%prefix_nil_inv.
  - destruct path as [|x path].
    { rewrite decide_True by apply prefix_nil. by simpl. }
    rewrite data_at_cons. simpl. destruct (decide (x = c)) as [->|Hx].
    + rewrite fn_lookup_insert. cbn [mbind option_bind]. rewrite IH, data_at_cons.
      rewrite (decide_ext (c :: path `prefix_of` c :: word) (path `prefix_of` word))
        by (split; [apply prefix_cons_inv_2|apply prefix_cons]).
      rewrite (decide_ext (c :: path = c :: word) (path = word)) by naive_solver.
      destruct path as [|y path].
      { rewrite !decide_True by (done || apply prefix_nil). simpl. by destruct (children p c). }
      rewrite !data_at_cons. simpl. destruct (children p c) as [q|]; simpl; by rewrite ?data_at_cons.
    + rewrite fn_lookup_insert_ne by done. rewrite decide_False; [by rewrite data_at_cons|].
      intros H. by apply prefix_cons_inv_1 in H.
Qed.
End trie.
Arguments TrieNode : clear implicits.
Arguments new_node {K V}.

(** What a trie says of a path: its data, or that of a new node. *)
Definition at_path {K V} (fresh : V) (path : list K) (p : TrieNode K V) : V := default fresh (data_at path p).

Lemma at_path_grow {K V} `{EqDecision K} (fresh : V) enter finish word path (p : TrieNode K V) :
  at_path fresh path (grow fresh enter finish word p) =
  if decide (path `prefix_of` word) then
    let v := if decide (path = []) then at_path fresh path p else enter (at_path fresh path p) in
    if decide (path = word) then finish v else v
  else at_path fresh path p.
Proof.
  unfold at_path. rewrite data_grow. destruct (decide (path `prefix_of` word)); [|done]. simpl.
  destruct (decide (path = [])) as [->|]; done.
Qed.

(** The index [ch - 'a'] into [children\[ALPHABET_SIZE\]]: another character is out of range. *)
Definition ALPHABET_SIZE : nat := 26.

Definition in_alphabet (ch : ascii) : bool := (97 <=? nat_of_ascii ch) && (nat_of_ascii ch <? 97 + ALPHABET_SIZE).

Definition letters (word : string) : option (list ascii) :=
  let w := list_ascii_of_string word in if forallb in_alphabet w then Some w else None.

(** ** Words with frequencies *)

Module Frequency.
Local Open Scope Z_scope.

Record Counts := { wordCount : Z; prefixCount : Z }.

Definition zero : Counts := {| wordCount := 0; prefixCount := 0 |}.

Abbreviation Trie := (TrieNode ascii Counts).

Definition Trie_make : Trie := new_node zero.

(** [findNode]: [None] is undefined behaviour, [Some None] a null pointer. *)
Definition findNode (t : Trie) (word : string) : option (option Trie) := w ← letters word; Some (walk w t).

Definition countWordsEqualTo (t : Trie) (word : string) : option Z :=
  node ← findNode t word; Some (match node with Some p => wordCount (data p) | None => 0 end).

Definition countWordsStartingWith (t : Trie) (prefix : string) : option Z :=
  node ← findNode t prefix; Some (match node with Some p => prefixCount (data p) | None => 0 end).

Definition add_prefix (d : Z) (c : Counts) : Counts := {| wordCount := wordCount c; prefixCount := prefixCount c + d |}.
Definition add_word (d : Z) (c : Counts) : Counts := {| wordCount := wordCount c + d; prefixCount := prefixCount c |}.

Definition insert (t : Trie) (word : string) : option Trie :=
  w ← letters word; Some (grow zero (add_prefix 1) (add_word 1) w t).

(** [erase] does not test for null. *)
Fixpoint erase_loop (word : list ascii) (p : Trie) : option Trie :=
  match word with
  | [] => Some (Node (add_word (-1) (data p)) (children p))
  | ch :: word =>
      q ← children p ch;
      q' ← erase_loop word (Node (add_prefix (-1) (data q)) (children q));
      Some (Node (data p) (<[ch := Some q']> (children p)))
  end.

Definition erase (t : Trie) (word : string) : option Trie := w ← letters word; erase_loop w t.

(** *** Correctness *)

(** On a path that exists, [erase] counts down where [insert] counts up. *)
Lemma erase_loop_grow word p :
  is_Some (walk word p) → erase_loop word p = Some (grow zero (add_prefix (-1)) (add_word (-1)) word p).
Proof.
  revert p. induction word as [|c word IH]; intros p Hw; [done|]. simpl in *. destruct (children p c) as [q|]; simpl in *; [|by destruct Hw].
  rewrite IH; [done|]. by destruct word.
Qed.

Inductive Op := Insert (word : string) | Erase (word : string).

Definition step (t : Trie) (o : Op) : option Trie :=
  match o with Insert word => insert t word | Erase word => erase t word end.

Definition op_word (o : Op) : string := match o with Insert word | Erase word => word end.

(** How many of the words in the tree satisfy [P], by the history of the operations. *)
Fixpoint net (P : string → Prop) `{∀ w, Decision (P w)} (ops : list Op) : Z :=
  match ops with
  | [] => 0
  | Insert word :: ops => (if decide (P word) then 1 else 0) + net P ops
  | Erase word :: ops => (if decide (P word) then -1 else 0) + net P ops
  end.

(** Words of letters, and only words that are in the tree are erased. *)
Fixpoint valid (before ops : list Op) : Prop :=
  match ops with
  | [] => True
  | o :: ops =>
      is_Some (letters (op_word o)) ∧
      match o with Insert _ => True | Erase word => 0 < net (λ w, w = word) before end ∧ valid (before ++ [o]) ops
  end.

Lemma net_app (P : string → Prop) `{∀ w, Decision (P w)} ops1 ops2 : net P (ops1 ++ ops2) = net P ops1 + net P ops2.
Proof. induction ops1 as [|[w|w] ops1 IH]; simpl; rewrite ?IH; lia. Qed.

(** [p] starts [w]. *)
Definition starts (p : string) (w : string) : Prop := list_ascii_of_string p `prefix_of` list_ascii_of_string w.

#[global] Instance starts_dec p w : Decision (starts p w) := decide_rel prefix _ _.

(** The counts of every path are those of the history. *)
Definition counts_inv (ops : list Op) (t : Trie) : Prop := ∀ path : string,
  wordCount (at_path zero (list_ascii_of_string path) t) = net (λ w, w = path) ops ∧
  (path ≠ EmptyString → prefixCount (at_path zero (list_ascii_of_string path) t) = net (starts path) ops).

Lemma list_ascii_inj (a b : string) : list_ascii_of_string a = list_ascii_of_string b → a = b.
Proof. intros E. by rewrite <-(string_of_list_ascii_of_string a), E, string_of_list_ascii_of_string. Qed.

Lemma counts_grow ops t word d o :
  counts_inv ops t → (∀ P `{∀ w, Decision (P w)}, net P [o] = if decide (P word) then d else 0) →
  counts_inv (ops ++ [o]) (grow zero (add_prefix d) (add_word d) (list_ascii_of_string word) t).
Proof.
  intros Hi Hd path. specialize (Hi path) as [H1 H2]. rewrite at_path_grow, !net_app, !Hd.
  rewrite (decide_ext (list_ascii_of_string path `prefix_of` list_ascii_of_string word) (starts path word)) by done.
  destruct (decide (starts path word)) as [Hp|Hp].
  - assert (list_ascii_of_string path = [] ↔ path = EmptyString) as Hnil by by destruct path.
    destruct (decide (list_ascii_of_string path = list_ascii_of_string word)) as [E|E].
    + apply list_ascii_inj in E as Ew. rewrite (decide_True (P := word = path)) by done.
      destruct (decide (list_ascii_of_string path = [])) as [E0|E0]; simpl; (split; [lia|]); intros Hne; [by apply Hnil in E0|].
      specialize (H2 Hne). lia.
    + rewrite (decide_False (P := word = path)) by by intros ->.
      destruct (decide (list_ascii_of_string path = [])) as [E0|E0]; simpl; (split; [lia|]); intros Hne; [by apply Hnil in E0|].
      specialize (H2 Hne). lia.
  - rewrite (decide_False (P := word = path)) by (intros ->; apply Hp; by unfold starts). split; [lia|]. intros Hne. specialize (H2 Hne). lia.
Qed.

Lemma step_counts ops t o :
  counts_inv ops t → is_Some (letters (op_word o)) →
  match o with Insert _ => True | Erase word => 0 < net (λ w, w = word) ops end →
  ∃ t', step t o = Some t' ∧ counts_inv (ops ++ [o]) t'.
Proof.
  intros Hi [w Hw] Ho. assert (w = list_ascii_of_string (op_word o)) as ->.
  { unfold letters in Hw. by destruct (forallb _ _); simplify_eq. }
  destruct o as [word|word]; simpl in Hw |- *; unfold insert, erase; rewrite Hw; simpl.
  - eexists. split; [done|]. apply counts_grow; [done|]. intros P ?. simpl. case_decide; lia.
  - rewrite erase_loop_grow.
    + eexists. split; [done|]. apply counts_grow; [done|]. intros P ?. simpl. case_decide; lia.
    + destruct (Hi word) as [H1 _]. unfold at_path, data_at in H1. destruct (walk (list_ascii_of_string word) t); [done|]. simpl in H1. lia.
Qed.

Lemma run_counts before t ops :
  counts_inv before t → valid before ops → ∃ t', run_ops step t ops = Some t' ∧ counts_inv (before ++ ops) t'.
Proof.
  revert before t. induction ops as [|o ops IH]; intros before t Hi Hv; simpl; [exists t; by rewrite app_nil_r|].
  destruct Hv as (Hl & Ho & Hv). destruct (step_counts before t o Hi Hl Ho) as (t1 & E & Hi1). rewrite E. simpl.
  destruct (IH _ _ Hi1 Hv) as (t2 & E2 & Hi2). exists t2. by rewrite E2, <-(assoc_L (++)) in *.
Qed.

Lemma make_counts : counts_inv [] Trie_make.
Proof. intros path. unfold at_path. destruct path as [|c path]; done. Qed.
End Frequency.

(** ** The shortest dictionary prefix *)

Module Dictionary.

(** The data of a node is [isLeaf]. *)
Abbreviation Trie := (TrieNode ascii bool).

Definition Trie_make : Trie := new_node false.

Definition insert (t : Trie) (word : string) : option Trie :=
  w ← letters word; Some (grow false id (λ _, true) w t).

(** The loop of [findRoot]: a prefix, or nothing after a [break] or at the end. *)
Fixpoint findRoot_loop (word : list ascii) (p : Trie) (result : list ascii) : option (option (list ascii)) :=
  match word with
  | [] => Some None
  | ch :: word =>
      if in_alphabet ch then
        match children p ch with
        | None => Some None
        | Some q => if data q then Some (Some (result ++ [ch])) else findRoot_loop word q (result ++ [ch])
        end
      else None
  end.

Definition findRoot (t : Trie) (word : string) : option string :=
  r ← findRoot_loop (list_ascii_of_string word) t [];
  Some (match r with Some r => string_of_list_ascii r | None => word end).

(** [while (ss >> word)]: every word is at least one character, so the length of the
    sentence is fuel enough. *)
Fixpoint replace_loop (fuel : nat) (t : Trie) (ss : string) (result : string) : option string :=
  match fuel with
  | O => None
  | S fuel =>
      match read_word ss with
      | None => Some result
      | Some (word, ss) =>
          root ← findRoot t word;
          replace_loop fuel t ss ((if decide (result = EmptyString) then result else result +:+ " ") +:+ root)
      end
  end.

Definition replaceWords (t : Trie) (dictionary : list string) (sentence : string) : option string :=
  t ← run_ops insert t dictionary; replace_loop (S (String.length sentence)) t sentence "".

(** *** Correctness *)

(** The shortest prefix of [pre ++ word], longer than [pre], in the dictionary. *)
Fixpoint shortest (D : list (list ascii)) (pre word : list ascii) : option (list ascii) :=
  match word with
  | [] => None
  | c :: word => if decide (pre ++ [c] ∈ D) then Some (pre ++ [c]) else shortest D (pre ++ [c]) word
  end.

Lemma shortest_spec D pre word :
  match shortest D pre word with
  | Some r => r ∈ D ∧ r `prefix_of` pre ++ word ∧ length pre < length r ∧
      ∀ d, d ∈ D → d `prefix_of` pre ++ word → length pre < length d → length r ≤ length d
  | None => ∀ d, d ∈ D → d `prefix_of` pre ++ word → length d ≤ length pre
  end.
Proof.
  revert pre. induction word as [|c word IH]; intros pre; simpl.
  - intros d _ Hd. rewrite app_nil_r in Hd. by apply prefix_length.
  - assert (pre ++ c :: word = (pre ++ [c]) ++ word) as E by by rewrite <-(assoc_L (++)).
    destruct (decide (pre ++ [c] ∈ D)) as [Hin|Hn].
    + rewrite length_app. simpl. split_and!; [done|rewrite E; by apply prefix_app_r|lia|]. intros d _ _. lia.
    + assert (∀ d, d ∈ D → d `prefix_of` pre ++ c :: word → length pre < length d → length (pre ++ [c]) < length d) as Hlong.
      { intros d Hd Hp Hlt. destruct (decide (length d = length (pre ++ [c]))) as [El|]; [|rewrite length_app in *; simpl in *; lia].
        exfalso. apply Hn. rewrite E in Hp. assert (d = pre ++ [c]) as <-; [|done].
        destruct Hp as [k Hk]. by apply app_inj_1 in Hk as [Hk _]. }
      specialize (IH (pre ++ [c])). rewrite <-E in IH. destruct (shortest D (pre ++ [c]) word) as [r|].
      * destruct IH as (H1 & H2 & H3 & H4). split_and!; [done|done|rewrite length_app in H3; simpl in H3; lia|]. auto.
      * intros d Hd Hp. destruct (decide (length d ≤ length pre)) as [|Hlt]; [done|]. specialize (IH d Hd Hp).
        specialize (Hlong d Hd Hp ltac:(lia)). lia.
Qed.

(** The nodes are the prefixes of the words, the leaves the words. *)
Definition dict_inv (D : list (list ascii)) (t : Trie) : Prop := ∀ path : list ascii,
  (is_Some (data_at path t) ↔ path = [] ∨ ∃ d, d ∈ D ∧ path `prefix_of` d) ∧ (data_at path t = Some true ↔ path ∈ D).

Lemma insert_dict D t word w :
  dict_inv D t → letters word = Some w → ∃ t', insert t word = Some t' ∧ dict_inv (D ++ [w]) t'.
Proof.
  intros Hi Hw. unfold insert. rewrite Hw. simpl. eexists. split; [done|]. intros path. destruct (Hi path) as [H1 H2].
  rewrite data_grow. setoid_rewrite elem_of_app. setoid_rewrite list_elem_of_singleton.
  destruct (decide (path `prefix_of` w)) as [Hp|Hp].
  - split; [split; [intros _; right; exists w; by split; [right|]|intros _; by eexists]|].
    destruct (decide (path = w)) as [->|Hne]; [split; [by right|done]|]. simpl.
    destruct (decide (path = [])) as [->|Hn0].
    + unfold data_at in H2. simpl in H2. rewrite H2. naive_solver.
    + destruct (data_at path t) as [b|] eqn:E; simpl in *; [rewrite H2; naive_solver|].
      split; [done|]. intros [Hin| ->]; [|done]. by apply H2 in Hin.
  - rewrite H1, H2. split; [split|split]; [naive_solver| |naive_solver|].
    + intros [->|(d & [Hd| ->] & Hpd)]; [by left|right; by exists d|done].
    + intros [?| ->]; [done|]. by destruct Hp.
Qed.

Lemma make_dict : dict_inv [] Trie_make.
Proof.
  intros [|c path]; unfold data_at; simpl.
  - split; split; [by left|by eexists|done|by intros ?%not_elem_of_nil].
  - split; split; [by intros [? ?]| |done|by intros ?%not_elem_of_nil]. by intros [?|(d & ?%not_elem_of_nil & _)].
Qed.

Lemma build_dict t D dictionary ws :
  dict_inv D t → Forall2 (λ word w, letters word = Some w) dictionary ws →
  ∃ t', run_ops insert t dictionary = Some t' ∧ dict_inv (D ++ ws) t'.
Proof.
  intros Hi Hall. revert t D Hi. induction Hall as [|word w dictionary ws Hw _ IH]; intros t D Hi; simpl.
  - exists t. by rewrite app_nil_r.
  - destruct (insert_dict D t word w Hi Hw) as (t1 & -> & Hi1). simpl. destruct (IH t1 _ Hi1) as (t2 & E & Hi2).
    exists t2. by rewrite <-(assoc_L (++)) in Hi2.
Qed.

Lemma findRoot_loop_spec D t p pre word :
  dict_inv D t → walk pre t = Some p → forallb in_alphabet word = true →
  findRoot_loop word p pre = Some (shortest D pre word).
Proof.
  intros Hi. revert p pre. induction word as [|c word IH]; intros p pre Hw Hall; [done|]. simpl in *.
  apply andb_true_iff in Hall as [-> Hall].
  assert (∀ path, data_at (pre ++ path) t = data_at path p) as Hat.
  { intros path. unfold data_at. f_equal. clear -Hw. revert t Hw. induction pre as [|x pre IH]; simpl; intros t Hw; [by simplify_eq|].
    destruct (children t x); simpl in *; [by apply IH|done]. }
  destruct (Hi (pre ++ [c])) as [H1 H2]. rewrite Hat, data_at_cons in H1, H2. destruct (children p c) as [q|] eqn:E; simpl in H1, H2.
  - unfold data_at in H2. simpl in H2. destruct (data q) eqn:Ed.
    + rewrite decide_True by by apply H2. done.
    + rewrite decide_False by by (intros ?%H2; congruence). apply IH; [|done].
      clear -Hw E. revert t Hw. induction pre as [|x pre IH]; simpl; intros t Hw; [simplify_eq; simpl; by rewrite E|].
      destruct (children t x); simpl in *; [by apply IH|done].
  - f_equal. assert (∀ d, d ∈ D → ¬ pre ++ [c] `prefix_of` d) as Hno.
    { intros d Hd Hp. destruct H1 as [_ H1]. destruct H1 as [? ?]; [right; by exists d|done]. }
    clear -Hno. change (None = shortest D pre (c :: word)). pose proof (shortest_spec D pre (c :: word)) as Hs.
    destruct (shortest D pre (c :: word)) as [r|]; [|done]. destruct Hs as (Hr & Hp & Hlt & _). exfalso. apply (Hno r Hr).
    replace (pre ++ c :: word) with ((pre ++ [c]) ++ word) in Hp by by rewrite <-(assoc_L (++)).
    destruct (prefix_weak_total (pre ++ [c]) r ((pre ++ [c]) ++ word)) as [?|Hp2]; [by apply prefix_app_r|done|done|].
    assert (r = pre ++ [c]) as ->; [|done]. apply prefix_length_eq; [done|]. rewrite length_app. simpl. lia.
Qed.

(** What [findRoot] answers: the shortest word of the dictionary that starts the word, or
    the word itself. *)
Definition root_of (D : list string) (word root : string) : Prop :=
  (root ∈ D ∧ root ≠ EmptyString ∧ Frequency.starts root word ∧
    ∀ d, d ∈ D → d ≠ EmptyString → Frequency.starts d word → String.length root ≤ String.length d) ∨
  (root = word ∧ ∀ d, d ∈ D → d ≠ EmptyString → ¬ Frequency.starts d word).

Lemma length_list_ascii (s : string) : length (list_ascii_of_string s) = String.length s.
Proof. induction s; simpl; congruence. Qed.

Lemma letters_list dictionary ws : Forall2 (λ word w, letters word = Some w) dictionary ws → ws = list_ascii_of_string <$> dictionary.
Proof.
  induction 1 as [|word w dictionary ws Hw _ ->]; [done|]. csimpl. f_equal. unfold letters in Hw. by destruct (forallb _ _); simplify_eq.
Qed.

Lemma findRoot_spec dictionary t word :
  dict_inv (list_ascii_of_string <$> dictionary) t → is_Some (letters word) →
  ∃ root, findRoot t word = Some root ∧ root_of dictionary word root.
Proof.
  intros Hi [w Hw]. unfold letters in Hw. destruct (forallb in_alphabet _) eqn:Hall; simplify_eq. unfold findRoot.
  rewrite (findRoot_loop_spec _ t t [] _ Hi eq_refl Hall). simpl. eexists. split; [done|].
  pose proof (shortest_spec (list_ascii_of_string <$> dictionary) [] (list_ascii_of_string word)) as Hs.
  assert (∀ d, d ≠ EmptyString → 0 < length (list_ascii_of_string d)) as Hne by (intros [|c d] ?; [done|simpl; lia]).
  destruct (shortest _ _ _) as [r|]; [left|right].
  - destruct Hs as (Hr & Hp & Hlt & Hmin). apply list_elem_of_fmap in Hr as (d & -> & Hd). rewrite string_of_list_ascii_of_string.
    split_and!; [done|intros ->; simpl in Hlt; lia|done|]. intros d' Hd' Hn Hp'. rewrite <-!length_list_ascii.
    apply Hmin; [by apply list_elem_of_fmap_2|done|by apply Hne].
  - split; [done|]. intros d Hd Hn Hp. specialize (Hs _ (list_elem_of_fmap_2 _ _ _ Hd) Hp). specialize (Hne d Hn). simpl in Hs. lia.
Qed.

(** The words of a sentence. *)
Fixpoint read_words (fuel : nat) (ss : string) : list string :=
  match fuel with
  | O => []
  | S fuel => match read_word ss with Some (word, ss) => word :: read_words fuel ss | None => [] end
  end.

Definition words (sentence : string) : list string := read_words (S (String.length sentence)) sentence.

Lemma read_word_nonempty ss word rest : read_word ss = Some (word, rest) → word ≠ EmptyString.
Proof. unfold read_word. intros E. by destruct (take_word (skip_ws ss)) as [[|c w] r]; simplify_eq. Qed.

Lemma string_app_nonempty (a b : string) : b ≠ EmptyString → a +:+ b ≠ EmptyString.
Proof. by destruct a. Qed.

Lemma replace_loop_spec dictionary t fuel ss result :
  dict_inv (list_ascii_of_string <$> dictionary) t → String.length ss < fuel →
  Forall (λ word, is_Some (letters word)) (read_words fuel ss) →
  ∃ roots, Forall2 (root_of dictionary) (read_words fuel ss) roots ∧
    replace_loop fuel t ss result =
    Some (match roots with [] => result | _ => (if decide (result = EmptyString) then result else result +:+ " ") +:+ String.concat " " roots end).
Proof.
  intros Hi. revert ss result. induction fuel as [|fuel IH]; intros ss result Hlen Hall; [lia|]. simpl in *.
  destruct (read_word ss) as [[word rest]|] eqn:Er; [|by exists []]. apply Forall_cons in Hall as [Hw Hall].
  destruct (findRoot_spec dictionary t word Hi Hw) as (root & -> & Hroot). simpl.
  assert (root ≠ EmptyString) as Hne.
  { destruct Hroot as [(_ & ? & _)|[-> _]]; [done|by eapply read_word_nonempty]. }
  pose proof (read_word_length _ _ _ Er). edestruct (IH rest) as (roots & Hroots & ->); [lia|done|].
  exists (root :: roots). split; [by constructor|]. f_equal. destruct roots as [|r2 roots]; [done|].
  rewrite decide_False by by apply string_app_nonempty. simpl. rewrite !string_app_assoc. by destruct roots.
Qed.
End Dictionary.

(** ** Completions *)

(** [std::sort] with a comparison that is a strict weak order on the elements: it does not
    say in which order it leaves equivalent elements. *)
Class StdSort := {
  std_sort : (nat → nat → bool) → list nat → list nat;
  std_sort_perm lt l : std_sort lt l ≡ₚ l;
  std_sort_sorted lt l :
    (∀ a b c, a ∈ l → b ∈ l → c ∈ l → lt b a = false → lt c b = false → lt c a = false) →
    (∀ a b, a ∈ l → b ∈ l → lt a b = true → lt b a = false) →
    StronglySorted (λ a b, lt b a = false) (std_sort lt l)
}.

Module Autocomplete.

Definition K : nat := 3.

Record Sentence := { text : string; frequency : Z }.

(** The data of a node is [topK]. *)
Record AutocompleteSystem := { sentences : list Sentence; root : TrieNode ascii (list nat) }.

(** [better]; the indices are those of sentences. *)
Definition better (ss : list Sentence) (a b : nat) : bool :=
  match ss !! a, ss !! b with
  | Some x, Some y =>
      if decide (frequency x = frequency y) then String.ltb (text x) (text y) else (frequency y <? frequency x)%Z
  | _, _ => false
  end.

Section system.
Context `{!StdSort}.

Definition update (ss : list Sentence) (id : nat) (topK : list nat) : list nat :=
  let topK := std_sort (better ss) (topK ++ [id]) in
  if K <? length topK then removelast topK else topK.

Definition insert (s : AutocompleteSystem) (i : nat) : option AutocompleteSystem :=
  x ← sentences s !! i;
  Some {| sentences := sentences s; root := grow [] (update (sentences s) i) id (list_ascii_of_string (text x)) (root s) |}.

(** The constructor; [f\[i\]] is out of range if there are fewer frequencies. *)
Fixpoint zip_sentences (s : list string) (f : list Z) : option (list Sentence) :=
  match s, f with
  | [], _ => Some []
  | x :: s, n :: f => ss ← zip_sentences s f; Some ({| text := x; frequency := n |} :: ss)
  | _ :: _, [] => None
  end.

Definition AutocompleteSystem_make (s : list string) (f : list Z) : option AutocompleteSystem :=
  ss ← zip_sentences s f; run_ops insert {| sentences := ss; root := new_node [] |} (seq 0 (length ss)).

Definition input (s : AutocompleteSystem) (prefix : string) : option (list string) :=
  match walk (list_ascii_of_string prefix) (root s) with
  | None => Some []
  | Some p => mapM (λ i, text <$> sentences s !! i) (data p)
  end.

(** *** The ranking *)

(** Higher frequency first, then the smaller text. *)
Definition rank (x y : Sentence) : Prop :=
  (frequency y < frequency x)%Z ∨ (frequency x = frequency y ∧ String.le (text x) (text y)).

#[global] Instance rank_dec x y : Decision (rank x y).
Proof. unfold rank. apply _. Defined.

#[global] Instance rank_trans : Transitive rank.
Proof. intros x y z [?|[? Hxy]] [?|[? Hyz]]; [left; lia..|right]. split; [lia|]. by etrans. Qed.

#[global] Instance rank_total : Total rank.
Proof.
  intros x y. unfold rank. destruct (Z.lt_trichotomy (frequency x) (frequency y)) as [?|[?|?]]; [right; by left| |left; by left].
  destruct (total String.le (text x) (text y)); [left|right]; right; split; congruence.
Qed.

#[global] Instance rank_antisymm : AntiSymm (=) rank.
Proof.
  intros [tx fx] [ty fy] [?|[? H1]] [?|[? H2]]; simpl in *; try lia. f_equal; [|done]. by apply (anti_symm String.le).
Qed.

Lemma better_rank ss a b x y : ss !! a = Some x → ss !! b = Some y → better ss b a = false ↔ rank x y.
Proof.
  intros Ha Hb. unfold better, rank. rewrite Ha, Hb. destruct (decide (frequency y = frequency x)) as [E|E].
  - rewrite E. unfold String.ltb, String.le, String.leb. rewrite (String.compare_antisym (text y) (text x)).
    destruct (String.compare (text x) (text y)); simpl.
    1,2: split; [intros _; by right|done].
    split; [done|]. intros [?|[_ []]]; lia.
  - rewrite Z.ltb_ge. split; [intros; left; lia|intros [?|[? ?]]; lia].
Qed.

(** The sentences with the given indices. *)
Definition look (ss : list Sentence) (ids : list nat) : list Sentence := omap (ss !!.) ids.

Definition in_range (ss : list Sentence) (ids : list nat) : Prop := ∀ i, i ∈ ids → is_Some (ss !! i).

Lemma look_elem ss ids i x : ss !! i = Some x → i ∈ ids → x ∈ look ss ids.
Proof. intros Hi Hin. apply list_elem_of_omap. by exists i. Qed.

Lemma look_sorted ss ids :
  in_range ss ids → StronglySorted (λ a b, better ss b a = false) ids → StronglySorted rank (look ss ids).
Proof.
  intros Hr Hs. induction Hs as [|a ids _ IH Hf]; [constructor|]. unfold look. csimpl.
  destruct (Hr a ltac:(by apply elem_of_cons; left)) as [x Hx]. rewrite Hx.
  constructor; [apply IH; intros i Hi; apply Hr; by apply elem_of_cons; right|].
  apply Forall_forall. intros y (b & Hb & Hy)%list_elem_of_omap. eapply better_rank; [done..|]. by apply (proj1 (Forall_forall _ _) Hf).
Qed.

Lemma look_perm ss ids ids' : ids ≡ₚ ids' → look ss ids ≡ₚ look ss ids'.
Proof. unfold look. by intros ->. Qed.

(** Whatever [std::sort] does with equivalent indices, the sentences are in order. *)
Lemma look_sort ss ids : in_range ss ids → look ss (std_sort (better ss) ids) = merge_sort rank (look ss ids).
Proof.
  intros Hr. apply (StronglySorted_unique rank).
  - apply look_sorted; [intros i; rewrite std_sort_perm; apply Hr|]. apply std_sort_sorted.
    + intros a b c Ha Hb Hc H1 H2. destruct (Hr a Ha) as [x Hx], (Hr b Hb) as [y Hy], (Hr c Hc) as [z Hz].
      apply (better_rank ss a b x y) in H1; [|done..]. apply (better_rank ss b c y z) in H2; [|done..].
      apply (better_rank ss a c x z); [done..|]. by trans y.
    + intros a b Ha Hb H1. destruct (Hr a Ha) as [x Hx], (Hr b Hb) as [y Hy].
      apply (better_rank ss a b x y); [done..|]. destruct (total rank x y) as [?|Hyx]; [done|].
      apply (better_rank ss b a y x) in Hyx; [|done..]. congruence.
  - apply (StronglySorted_merge_sort rank).
  - rewrite (merge_sort_Permutation rank). apply look_perm, std_sort_perm.
Qed.

(** *** The best of a growing list *)

Fixpoint place (x : Sentence) (l : list Sentence) : list Sentence :=
  match l with [] => [x] | y :: l => if decide (rank y x) then y :: place x l else x :: y :: l end.

Lemma place_perm x l : place x l ≡ₚ l ++ [x].
Proof. induction l as [|y l IH]; simpl; [done|]. destruct (decide (rank y x)); [by rewrite IH|solve_Permutation]. Qed.

Lemma place_sorted x l : StronglySorted rank l → StronglySorted rank (place x l).
Proof.
  induction 1 as [|y l Hl IH Hf]; simpl; [by repeat constructor|]. destruct (decide (rank y x)) as [Hyx|Hyx].
  - constructor; [done|]. rewrite place_perm. apply Forall_app. split; [done|]. by apply Forall_singleton.
  - assert (rank x y) as Hxy by by destruct (total rank x y).
    constructor; [by constructor|]. apply Forall_cons. split; [done|]. eapply Forall_impl; [done|]. intros z Hz. by trans y.
Qed.

Lemma sort_place x l : StronglySorted rank l → merge_sort rank (l ++ [x]) = place x l.
Proof.
  intros Hl. apply (StronglySorted_unique rank); [apply (StronglySorted_merge_sort rank)|by apply place_sorted|].
  by rewrite (merge_sort_Permutation rank), place_perm.
Qed.

Lemma place_take k x l : take k (place x (take k l)) = take k (place x l).
Proof.
  revert k. induction l as [|y l IH]; intros [|k]; simpl; [done..|]. destruct (decide (rank y x)); simpl; [by rewrite IH|].
  f_equal. destruct k; [done|]. simpl. by rewrite take_take, Nat.min_l by lia.
Qed.

(** Keeping the best [k] of the list, and adding one, keeps the best [k] of the longer list. *)
Lemma best_of_more k l x :
  take k (merge_sort rank (take k (merge_sort rank l) ++ [x])) = take k (merge_sort rank (l ++ [x])).
Proof.
  assert (StronglySorted rank (take k (merge_sort rank l))) as Hs.
  { eapply StronglySorted_app_1_l. rewrite take_drop. apply (StronglySorted_merge_sort rank). }
  rewrite sort_place, place_take by done. rewrite <-sort_place by apply (StronglySorted_merge_sort rank). f_equal.
  apply (StronglySorted_unique rank); [apply (StronglySorted_merge_sort rank)..|].
  by rewrite !(merge_sort_Permutation rank).
Qed.

Lemma removelast_take {A} (l : list A) n : length l = S n → removelast l = take n l.
Proof. intros Hl. rewrite removelast_firstn_len, Hl. done. Qed.

Lemma look_take ss ids k : in_range ss ids → look ss (take k ids) = take k (look ss ids).
Proof.
  revert k. induction ids as [|i ids IH]; intros [|k] Hr; simpl; [done..|]. unfold look. csimpl.
  destruct (Hr i ltac:(by apply elem_of_cons; left)) as [x ->]. simpl. f_equal. apply IH. intros j Hj. apply Hr. by apply elem_of_cons; right.
Qed.

Lemma length_look ss ids : in_range ss ids → length (look ss ids) = length ids.
Proof.
  induction ids as [|i ids IH]; intros Hr; [done|]. unfold look. csimpl.
  destruct (Hr i ltac:(by apply elem_of_cons; left)) as [x ->]. simpl. f_equal. apply IH. intros j Hj. apply Hr. by apply elem_of_cons; right.
Qed.

Lemma update_best ss ids l i x :
  in_range ss ids → look ss ids = take K (merge_sort rank l) → ss !! i = Some x →
  in_range ss (update ss i ids) ∧ look ss (update ss i ids) = take K (merge_sort rank (l ++ [x])).
Proof.
  intros Hr Hl Hi. assert (in_range ss (ids ++ [i])) as Hr'.
  { intros j [?| ->%list_elem_of_singleton]%elem_of_app; [auto|by eexists]. }
  assert (in_range ss (std_sort (better ss) (ids ++ [i]))) as Hr2 by (intros j; rewrite std_sort_perm; apply Hr').
  assert (length (std_sort (better ss) (ids ++ [i])) = S (length ids)) as Hlen by (rewrite std_sort_perm, length_app; simpl; lia).
  assert (length ids ≤ K) as HK by (rewrite <-(length_look ss ids Hr), Hl, length_take; lia).
  assert (update ss i ids = take K (std_sort (better ss) (ids ++ [i]))) as ->.
  { unfold update. destruct (Nat.ltb_spec K (length (std_sort (better ss) (ids ++ [i])))) as [Hlt|Hge].
    - apply removelast_take. lia.
    - by rewrite take_ge. }
  split; [intros j Hj; apply Hr2; eapply elem_of_take in Hj as (? & Hj & _); by eapply list_elem_of_lookup_2|].
  rewrite look_take, look_sort by done. unfold look. rewrite omap_app. simpl. rewrite Hi. fold (look ss ids). rewrite Hl. apply best_of_more.
Qed.

(** *** The nodes of the trie *)

(** The best sentences that start with a path. *)
Definition best (ss : list Sentence) (path : list ascii) : list Sentence :=
  take K (merge_sort rank (filter (λ x, path `prefix_of` list_ascii_of_string (text x)) ss)).

(** After the first [n] sentences. *)
Definition node_inv (ss : list Sentence) (n : nat) (t : TrieNode ascii (list nat)) : Prop := ∀ path,
  in_range ss (at_path [] path t) ∧ look ss (at_path [] path t) = if decide (path = []) then [] else best (take n ss) path.

Lemma insert_inv ss n t :
  node_inv ss n t → n < length ss →
  ∃ s', insert {| sentences := ss; root := t |} n = Some s' ∧ sentences s' = ss ∧ node_inv ss (S n) (root s').
Proof.
  intros Hi Hn. apply lookup_lt_is_Some in Hn as [x Hx]. unfold insert. simpl. rewrite Hx. simpl. eexists. split_and!; [done..|].
  simpl. intros path. destruct (Hi path) as [H1 H2]. rewrite at_path_grow, (take_S_r _ _ x) by done. unfold best. rewrite filter_app.
  destruct (decide (path `prefix_of` list_ascii_of_string (text x))) as [Hp|Hp].
  - rewrite (filter_cons_True _ x), filter_nil by done. destruct (decide (path = list_ascii_of_string (text x))) as [E|E];
      (destruct (decide (path = [])) as [E0|E0]; [done|]); unfold id; by apply update_best.
  - rewrite (filter_cons_False _ x), filter_nil, app_nil_r by done. done.
Qed.

Lemma inserts_inv ss n k t :
  node_inv ss n t → n + k = length ss →
  ∃ s', run_ops insert {| sentences := ss; root := t |} (seq n k) = Some s' ∧ sentences s' = ss ∧ node_inv ss (n + k) (root s').
Proof.
  revert n t. induction k as [|k IH]; intros n t Hi Hk; simpl; [eexists; split_and!; [done..|by rewrite Nat.add_0_r]|].
  destruct (insert_inv ss n t Hi) as ([ss' t'] & -> & Hs & Hi'); [lia|]. simpl in *. subst ss'.
  destruct (IH (S n) t' Hi') as (s2 & E & Hs2 & Hi2); [lia|]. exists s2. by rewrite Nat.add_succ_r.
Qed.

Lemma mapM_look ss ids : in_range ss ids → mapM (λ i, text <$> ss !! i) ids = Some (text <$> look ss ids).
Proof.
  intros Hr. apply mapM_Some_2. induction ids as [|i ids IH]; [constructor|]. unfold look. csimpl.
  destruct (Hr i ltac:(by apply elem_of_cons; left)) as [x Hx]. rewrite Hx. csimpl.
  constructor; [by rewrite Hx|]. apply IH. intros j Hj. apply Hr. by apply elem_of_cons; right.
Qed.

Lemma zip_sentences_spec s f :
  length s ≤ length f → ∃ ss, zip_sentences s f = Some ss ∧ text <$> ss = s ∧ frequency <$> ss = take (length s) f.
Proof.
  revert f. induction s as [|x s IH]; intros [|n f] Hl; simpl in *; [by exists []..|lia|].
  destruct (IH f) as (ss & -> & E1 & E2); [lia|]. eexists. split_and!; [done|..]; csimpl; congruence.
Qed.

(** What the system answers. *)
Lemma input_spec s f :
  length s ≤ length f →
  ∃ sys, AutocompleteSystem_make s f = Some sys ∧ text <$> sentences sys = s ∧ frequency <$> sentences sys = take (length s) f ∧
    ∀ prefix, input sys prefix =
      Some (if decide (prefix = EmptyString) then [] else text <$> best (sentences sys) (list_ascii_of_string prefix)).
Proof.
  intros Hl. destruct (zip_sentences_spec s f Hl) as (ss & Hz & E1 & E2). unfold AutocompleteSystem_make. rewrite Hz. simpl.
  destruct (inserts_inv ss 0 (length ss) (new_node [])) as ([ss' t] & -> & Hs & Hi); [|done|].
  { intros path. unfold at_path. destruct path as [|c path]; simpl; (split; [by intros i ?%not_elem_of_nil|done]). }
  simpl in Hs, Hi. subst ss'. eexists. split_and!; [done..|]. intros prefix. unfold input. simpl.
  destruct (Hi (list_ascii_of_string prefix)) as [Hr Hb]. rewrite take_ge in Hb by lia. unfold at_path, data_at in *.
  assert (list_ascii_of_string prefix = [] ↔ prefix = EmptyString) as Hnil by by destruct prefix.
  rewrite (decide_ext (list_ascii_of_string prefix = []) (prefix = EmptyString)) in Hb by done. destruct (walk (list_ascii_of_string prefix) t) as [p|]; simpl in *.
  - rewrite mapM_look, Hb by done. by destruct (decide (prefix = EmptyString)).
  - destruct (decide (prefix = EmptyString)); [done|]. by rewrite <-Hb.
Qed.
End system.
End Autocomplete.

(** ** The greatest exclusive-or *)

Module MaximumXOR.
Local Open Scope Z_scope.

(** Nodes have no data; a child is chosen by a bit. *)
Abbreviation Trie := (TrieNode bool unit).

(** The bits [n - 1], ..., 0 of a number: [(num >> bit) & 1]. *)
Fixpoint low_bits (n : nat) (num : Z) : list bool :=
  match n with O => [] | S n => Z.testbit num (Z.of_nat n) :: low_bits n num end.

Definition insert (t : Trie) (num : Z) : Trie := grow tt id id (low_bits 32 num) t.

(** The loop of [getMaxXOR], from bit [n - 1] down; a null [p] is dereferenced. *)
Fixpoint max_loop (n : nat) (p : Trie) (num ans : Z) : option Z :=
  match n with
  | O => Some ans
  | S bit =>
      let b := Z.testbit num (Z.of_nat bit) in
      match children p (negb b) with
      | Some q => max_loop bit q num (Z.lor ans (int32 (Z.shiftl 1 (Z.of_nat bit))))
      | None => q ← children p b; max_loop bit q num ans
      end
  end.

Definition getMaxXOR (t : Trie) (num : Z) : option Z := max_loop 32 t num 0.

Fixpoint best_loop (t : Trie) (nums : list Z) (ans : Z) : option Z :=
  match nums with [] => Some ans | num :: nums => x ← getMaxXOR t num; best_loop t nums (Z.max ans x) end.

Definition findMaximumXOR (t : Trie) (nums : list Z) : option Z :=
  let t := fold_left insert nums t in best_loop t nums 0.

(** *** Correctness *)

(** The paths are the prefixes of the words inserted. *)
Definition has (D : list (list bool)) (t : Trie) : Prop := ∀ path,
  is_Some (walk path t) ↔ path = [] ∨ ∃ d, d ∈ D ∧ path `prefix_of` d.

Lemma grow_has D t w : has D t → has (D ++ [w]) (grow tt id id w t).
Proof.
  intros Hi path. specialize (Hi path).
  pose proof (data_grow tt id id w path t) as Hg. unfold data_at in Hg. rewrite <-(fmap_is_Some data), Hg.
  destruct (decide (path `prefix_of` w)) as [Hp|Hp].
  - split; [|by eexists]. intros _. right. exists w. split; [apply elem_of_app; right; by apply list_elem_of_singleton|done].
  - rewrite fmap_is_Some, Hi. split; intros [?|(d & Hd & Hpd)]; auto; right.
    + exists d. split; [apply elem_of_app; by left|done].
    + apply elem_of_app in Hd as [Hd| ->%list_elem_of_singleton]; [by exists d|done].
Qed.

Lemma grows_has D t ws : has D t → has (D ++ ws) (fold_left (λ t w, grow tt id id w t) ws t).
Proof.
  revert D t. induction ws as [|w ws IH]; intros D t Hi; simpl; [by rewrite app_nil_r|].
  apply (grow_has _ _ w) in Hi. apply IH in Hi. by rewrite <-(assoc_L (++)) in Hi.
Qed.

Lemma inserts_grow (f : Z → list bool) nums t :
  fold_left (λ t num, grow tt id id (f num) t) nums t = fold_left (λ t w, grow tt id id w t) (f <$> nums) t.
Proof. revert t. induction nums as [|num nums IH]; intros t; [done|]. apply IH. Qed.

Lemma new_has : has [] (new_node tt).
Proof.
  intros [|b path]; simpl; split; [by left|by eexists|by intros [? ?]|]. by intros [?|(d & ?%not_elem_of_nil & _)].
Qed.

Lemma inserts_has nums : has (low_bits 32 <$> nums) (fold_left insert nums (new_node tt)).
Proof.
  unfold insert. generalize (low_bits 32). intros f. rewrite inserts_grow. apply (grows_has []), new_has.
Qed.

(** The number a list of bits stands for, most significant first. *)
Fixpoint val (s : list bool) : Z := match s with [] => 0 | b :: s => Z.b2z b * 2 ^ Z.of_nat (length s) + val s end.

Lemma val_bound s : 0 ≤ val s < 2 ^ Z.of_nat (length s).
Proof.
  induction s as [|b s IH]; [done|]. cbn [val length]. rewrite Nat2Z.inj_succ, Z.pow_succ_r by lia. destruct b; simpl Z.b2z; lia.
Qed.

Lemma length_low_bits n num : length (low_bits n num) = n.
Proof. induction n; simpl; congruence. Qed.

Lemma val_low_bits n num : val (low_bits n num) = num mod 2 ^ Z.of_nat n.
Proof.
  induction n as [|n IH]; [by rewrite Z.mod_1_r|]. cbn [low_bits val]. rewrite length_low_bits, IH.
  rewrite Nat2Z.inj_succ, Z.pow_succ_r, (Z.mul_comm 2), Z.rem_mul_r, <-Z.testbit_spec' by lia. lia.
Qed.

Lemma low_bits_lxor n a b : zip_with xorb (low_bits n a) (low_bits n b) = low_bits n (Z.lxor a b).
Proof. induction n as [|n IH]; simpl; [done|]. by rewrite IH, Z.lxor_spec. Qed.

(** A trie all of whose paths go on to length [n]. *)
Definition regular (n : nat) (p : Trie) : Prop := ∀ path,
  (length path < n)%nat → is_Some (walk path p) → ∃ b, is_Some (walk (path ++ [b]) p).

Lemma regular_child n p b q : regular (S n) p → children p b = Some q → regular n q.
Proof.
  intros Hr Hq path Hl Hw. destruct (Hr (b :: path)) as [b' Hb']; [simpl; lia|simpl; by rewrite Hq|]. exists b'. simpl in Hb'. by rewrite Hq in Hb'.
Qed.

Lemma lor_add ans n : ans mod 2 ^ Z.of_nat (S n) = 0 → Z.lor ans (2 ^ Z.of_nat n) = ans + 2 ^ Z.of_nat n.
Proof.
  intros Hm. assert (Z.land ans (2 ^ Z.of_nat n) = 0) as Hl.
  { apply Z.bits_inj'. intros k Hk. rewrite Z.land_spec, Z.bits_0, Z.pow2_bits_eqb by lia.
    destruct (Z.eqb_spec (Z.of_nat n) k) as [<-|]; [|by rewrite andb_false_r].
    rewrite <-(Z.mod_pow2_bits_low ans (Z.of_nat (S n))) by lia. by rewrite Hm, Z.bits_0. }
  rewrite Z.add_nocarry_lxor by done. by rewrite Z.lxor_lor.
Qed.

Lemma int32_pow2 n : (n < 31)%nat → int32 (Z.shiftl 1 (Z.of_nat n)) = 2 ^ Z.of_nat n.
Proof.
  intros Hn. rewrite Z.shiftl_1_l. apply int32_id. assert (2 ^ Z.of_nat n ≤ 2 ^ 30) by (apply Z.pow_le_mono_r; lia).
  assert (0 < 2 ^ Z.of_nat n) by (apply Z.pow_pos_nonneg; lia). unfold int_ok, INT_MIN, INT_MAX. change (2 ^ 30) with 1073741824 in *. lia.
Qed.

(** The exclusive-or of the low bits of [num] with a path. *)
Definition against (n : nat) (num : Z) (s : list bool) : Z := val (zip_with xorb (low_bits n num) s).

Lemma against_bound n num s : length s = n → 0 ≤ against n num s < 2 ^ Z.of_nat n.
Proof.
  intros Hs. unfold against. pose proof (val_bound (zip_with xorb (low_bits n num) s)) as Hb.
  rewrite length_zip_with, length_low_bits, Hs, Nat.min_id in Hb. done.
Qed.

Lemma against_cons n num b s :
  length s = n → against (S n) num (b :: s) = Z.b2z (xorb (Z.testbit num (Z.of_nat n)) b) * 2 ^ Z.of_nat n + against n num s.
Proof. intros Hs. unfold against. simpl. by rewrite length_zip_with, length_low_bits, Hs, Nat.min_id. Qed.

(** Taking the opposite bit where there is one finds the best path. *)
Lemma max_loop_spec n p num ans :
  (n ≤ 31)%nat → regular n p → ans mod 2 ^ Z.of_nat n = 0 →
  ∃ s, length s = n ∧ is_Some (walk s p) ∧ max_loop n p num ans = Some (ans + against n num s) ∧
    ∀ s', length s' = n → is_Some (walk s' p) → against n num s' ≤ against n num s.
Proof.
  revert p ans. induction n as [|n IH]; intros p ans Hn Hreg Hans.
  { exists []. split_and!; [done|by eexists|simpl; f_equal; unfold against; simpl; lia|]. by intros []. }
  assert (ans mod 2 ^ Z.of_nat n = 0) as Hans'.
  { rewrite Nat2Z.inj_succ, Z.pow_succ_r in Hans by lia. apply Z.mod_divide; [lia|]. apply Z.mod_divide in Hans; [|lia].
    etrans; [|exact Hans]. by apply Z.divide_factor_r. }
  assert (0 < 2 ^ Z.of_nat n) as Hpos by lia. cbn [max_loop]. set (b := Z.testbit num (Z.of_nat n)).
  destruct (children p (negb b)) as [q|] eqn:Eq.
  - rewrite int32_pow2, lor_add by (done || lia).
    destruct (IH q (ans + 2 ^ Z.of_nat n)) as (s & Hl & Hw & -> & Hmax); [lia|by eapply regular_child| |].
    { rewrite <-Zplus_mod_idemp_l, Hans', Z.add_0_l. apply Z_mod_same_full. }
    exists (negb b :: s). rewrite against_cons by done. fold b. split_and!; [simpl; lia|simpl; by rewrite Eq|f_equal; destruct b; simpl; lia|].
    intros [|b' s'] Hl' Hw'; [done|]. simpl in Hl', Hw'. rewrite against_cons by lia. fold b.
    destruct (children p b') as [q'|] eqn:Eq'; [|by destruct Hw']. simpl in Hw'.
    pose proof (against_bound n num s Hl). pose proof (against_bound n num s' ltac:(lia)).
    destruct (decide (b' = negb b)) as [->|Hne].
    + rewrite Eq in Eq'. simplify_eq. specialize (Hmax s' ltac:(lia) Hw'). lia.
    + assert (b' = b) as -> by by destruct b, b'. destruct b; simpl; lia.
  - destruct (Hreg []) as [b' Hb']; [simpl; lia|by eexists|]. simpl in Hb'.
    assert (∃ q, children p b = Some q) as [q Eqb].
    { destruct (decide (b' = negb b)) as [->|Hne]; [rewrite Eq in Hb'; by destruct Hb'|].
      assert (b' = b) as -> by by destruct b, b'. destruct (children p b) as [q|]; [by exists q|by destruct Hb']. }
    rewrite Eqb. cbn [mbind option_bind].
    destruct (IH q ans) as (s & Hl & Hw & -> & Hmax); [lia|by eapply regular_child|done|].
    exists (b :: s). rewrite against_cons by done. fold b.
    split_and!; [simpl; lia|simpl; by rewrite Eqb|f_equal; destruct b; simpl; lia|].
    intros [|b2 s'] Hl' Hw'; [done|]. simpl in Hl', Hw'. rewrite against_cons by lia. fold b.
    assert (b2 = b) as -> by (destruct (decide (b2 = negb b)) as [->|]; [rewrite Eq in Hw'; by destruct Hw'|by destruct b, b2]).
    rewrite Eqb in Hw'. specialize (Hmax s' ltac:(lia) Hw'). lia.
Qed.

Lemma testbit_top x n : 0 ≤ x < 2 ^ Z.of_nat n → Z.testbit x (Z.of_nat n) = false.
Proof.
  intros [H0 Hx]. destruct (Z.eq_dec x 0) as [->|Hne]; [apply Z.bits_0|]. apply Z.bits_above_log2; [lia|]. apply Z.log2_lt_pow2; lia.
Qed.

Lemma lxor_small a b n : 0 ≤ a < 2 ^ Z.of_nat n → 0 ≤ b < 2 ^ Z.of_nat n → 0 ≤ Z.lxor a b < 2 ^ Z.of_nat n.
Proof.
  intros Ha Hb. split; [apply Z.lxor_nonneg; lia|]. destruct (Z.eq_dec (Z.lxor a b) 0) as [->|Hne]; [lia|].
  assert (0 < Z.lxor a b) as Hpos by (assert (0 ≤ Z.lxor a b) by (apply Z.lxor_nonneg; lia); lia).
  apply Z.log2_lt_pow2; [done|]. assert (∀ x, 0 ≤ x < 2 ^ Z.of_nat n → x ≠ 0 → Z.log2 x < Z.of_nat n) as Hlog.
  { intros x [? ?] ?. apply Z.log2_lt_pow2; lia. }
  pose proof (Z.log2_lxor a b ltac:(lia) ltac:(lia)) as Hl.
  destruct (Z.eq_dec a 0) as [->|Ha0]; destruct (Z.eq_dec b 0) as [->|Hb0]; [done| | |].
  - specialize (Hlog b Hb Hb0). rewrite Z.lxor_0_l. done.
  - specialize (Hlog a Ha Ha0). rewrite Z.lxor_0_r. done.
  - specialize (Hlog a Ha Ha0) as H1. specialize (Hlog b Hb Hb0) as H2. lia.
Qed.

(** The walk over all [n + 1] bits, on numbers of [n] bits. *)
Lemma full_loop_spec n t nums num :
  (n ≤ 31)%nat → has (low_bits (S n) <$> nums) t → nums ≠ [] →
  (∀ x, x ∈ nums → 0 ≤ x < 2 ^ Z.of_nat n) → 0 ≤ num < 2 ^ Z.of_nat n →
  ∃ y, y ∈ nums ∧ max_loop (S n) t num 0 = Some (Z.lxor num y) ∧ ∀ y', y' ∈ nums → Z.lxor num y' ≤ Z.lxor num y.
Proof.
  intros Hn Hhas Hne Hb Hnum.
  assert (regular (S n) t) as Hreg.
  { intros path Hl Hw. apply Hhas in Hw as Hp. assert (∃ d, d ∈ low_bits (S n) <$> nums ∧ path `prefix_of` d) as (d & Hd & k & ->).
    { destruct Hp as [->|?]; [|done]. destruct nums as [|x nums]; [done|]. exists (low_bits (S n) x).
      split; [by apply elem_of_cons; left|apply prefix_nil]. }
    assert (length (path ++ k) = S n) as El.
    { apply list_elem_of_fmap in Hd as (x & -> & _). apply length_low_bits. }
    destruct k as [|b k]; [rewrite app_nil_r in El; lia|]. exists b. apply Hhas. right. exists (path ++ b :: k). split; [done|].
    exists k. by rewrite <-(assoc_L (++)). }
  assert (∀ b q s, children t b = Some q → length s = n → is_Some (walk s q) ↔ ∃ y, y ∈ nums ∧ b :: s = low_bits (S n) y) as Hwalk.
  { intros b q s Eb Hs. transitivity (is_Some (walk (b :: s) t)); [simpl; by rewrite Eb|]. rewrite (Hhas (b :: s)). split.
    - intros [?|(d & (y & -> & Hy)%list_elem_of_fmap & Hp)]; [done|]. exists y. split; [done|].
      apply prefix_length_eq; [done|]. rewrite length_low_bits. simpl. lia.
    - intros (y & Hy & E). right. exists (low_bits (S n) y). split; [by apply list_elem_of_fmap_2|by rewrite E]. }
  assert (children t true = None) as Et.
  { destruct (children t true) as [q|] eqn:E; [|done]. exfalso.
    destruct (proj1 (Hhas [true])) as [?|(d & (y & -> & Hy)%list_elem_of_fmap & Hp)]; [simpl; by rewrite E|done|].
    cbn [low_bits] in Hp. apply prefix_cons_inv_1 in Hp. rewrite testbit_top in Hp by auto. done. }
  assert (∃ q, children t false = Some q) as [q Ef].
  { destruct (Hreg []) as [b Hw]; [simpl; lia|by eexists|]. simpl in Hw. destruct b; [rewrite Et in Hw; by destruct Hw|].
    destruct (children t false) as [q|]; [by exists q|by destruct Hw]. }
  assert (∀ y, y ∈ nums → against n num (low_bits n y) = Z.lxor num y) as Hag.
  { intros y Hy. unfold against. rewrite low_bits_lxor, val_low_bits. apply Z.mod_small. apply lxor_small; auto. }
  cbn [max_loop]. rewrite (testbit_top num n Hnum). simpl negb. rewrite Et, Ef. cbn [mbind option_bind].
  destruct (max_loop_spec n q num 0 Hn) as (s & Hl & Hw & -> & Hmax); [by eapply regular_child|done|].
  apply (Hwalk false q s Ef Hl) in Hw as (y & Hy & E). cbn [low_bits] in E. injection E as _ ->. rewrite Hag in * by done.
  exists y. split_and!; [done|by rewrite Z.add_0_l|]. intros y' Hy'. rewrite <-(Hag y' Hy'). apply Hmax; [apply length_low_bits|].
  apply (Hwalk false q _ Ef); [apply length_low_bits|]. exists y'. split; [done|]. cbn [low_bits]. by rewrite testbit_top by auto.
Qed.

Lemma best_loop_spec t (nums l : list Z) ans :
  (∀ num, num ∈ nums → ∃ y, y ∈ nums ∧ getMaxXOR t num = Some (Z.lxor num y) ∧ ∀ y', y' ∈ nums → Z.lxor num y' ≤ Z.lxor num y) →
  (∀ x, x ∈ l → x ∈ nums) →
  ∃ r, best_loop t l ans = Some r ∧ ans ≤ r ∧ (∀ x y, x ∈ l → y ∈ nums → Z.lxor x y ≤ r) ∧
    (r = ans ∨ ∃ x y, x ∈ l ∧ y ∈ nums ∧ r = Z.lxor x y).
Proof.
  intros Hget. revert ans. induction l as [|num l IH]; intros ans Hl.
  { exists ans. split_and!; [done|lia|by intros ? ? ?%not_elem_of_nil|by left]. }
  destruct (Hget num) as (y & Hy & E & Hmax); [apply Hl; by apply elem_of_cons; left|].
  cbn [best_loop]. rewrite E. cbn [mbind option_bind].
  destruct (IH (Z.max ans (Z.lxor num y))) as (r & -> & Hle & Hall & Hr); [intros x ?; apply Hl; by apply elem_of_cons; right|].
  exists r. split_and!; [done|lia| |].
  - intros x z [->|Hx]%elem_of_cons Hz; [specialize (Hmax z Hz); lia|by apply Hall].
  - destruct Hr as [->|(x & z & Hx & Hz & ->)]; [|right; exists x, z; split; [by apply elem_of_cons; right|done]].
    destruct (Z.max_spec ans (Z.lxor num y)) as [[_ ->]|[_ ->]]; [right; exists num, y; split; [by apply elem_of_cons; left|done]|by left].
Qed.
End MaximumXOR.

(** ** What the programs compute *)

(** The frequency tree counts.  After any history of insertions, and of erasures of
    words that are in the tree, [countWordsEqualTo] is the number of copies of the word in the
    tree, and [countWordsStartingWith] the number of words that start with a prefix that is
    not empty. *)
Theorem prefix_tree_counts (ops : list Frequency.Op) :
  Frequency.valid [] ops →
  ∃ t, run_ops Frequency.step Frequency.Trie_make ops = Some t ∧
    ∀ word, is_Some (letters word) →
      Frequency.countWordsEqualTo t word = Some (Frequency.net (λ w, w = word) ops) ∧
      (word ≠ EmptyString → Frequency.countWordsStartingWith t word = Some (Frequency.net (Frequency.starts word) ops)).
Proof.
  intros Hv. destruct (Frequency.run_counts [] _ ops Frequency.make_counts Hv) as (t & Ht & Hi). exists t. split; [done|].
  intros word [w Hw]. destruct (Hi word) as [H1 H2]. unfold Frequency.countWordsEqualTo, Frequency.countWordsStartingWith, Frequency.findNode.
  rewrite Hw. assert (w = list_ascii_of_string word) as -> by (unfold letters in Hw; by destruct (forallb _ _); simplify_eq).
  simpl. unfold at_path, data_at in H1, H2. split; [|intros Hne; specialize (H2 Hne); clear H1];
    destruct (walk (list_ascii_of_string word) t); simpl in *; by f_equal.
Qed.

Lemma prefix_tree_counts_witness :
  ∃ t, run_ops Frequency.step Frequency.Trie_make
      [Frequency.Insert "apple"; Frequency.Insert "apply"; Frequency.Insert "apple"; Frequency.Erase "apple"]%string = Some t ∧
    Frequency.countWordsStartingWith t "app"%string = Some 2%Z.
Proof.
  destruct (prefix_tree_counts [Frequency.Insert "apple"; Frequency.Insert "apply"; Frequency.Insert "apple"; Frequency.Erase "apple"]%string)
    as (t & Ht & Hc).
  - repeat split; try (by eexists); vm_compute; done.
  - exists t. split; [exact Ht|]. destruct (Hc "app"%string) as [_ Hp]; [by eexists|]. apply Hp. done.
Defined.

(** The empty prefix is not counted: the loop increments [prefixCount] only below the
    root. *)
Lemma empty_prefix_not_counted :
  (t ← Frequency.insert Frequency.Trie_make "a"%string; Frequency.countWordsStartingWith t EmptyString) = Some 0%Z.
Proof. reflexivity. Qed.

(** Words of letters are replaced by the shortest word of the dictionary that starts
    them, or kept, and joined by blanks. *)
Theorem replace_words_correct (dictionary : list string) (sentence : string) :
  Forall (λ w, is_Some (letters w)) dictionary → Forall (λ w, is_Some (letters w)) (Dictionary.words sentence) →
  ∃ roots, Forall2 (Dictionary.root_of dictionary) (Dictionary.words sentence) roots ∧
    Dictionary.replaceWords Dictionary.Trie_make dictionary sentence = Some (String.concat " " roots).
Proof.
  intros Hd Hs. assert (∃ ws, Forall2 (λ word w, letters word = Some w) dictionary ws) as [ws Hws].
  { clear -Hd. induction Hd as [|w d [x Hx] _ [ws Hws]]; [by exists []|]. exists (x :: ws). by constructor. }
  destruct (Dictionary.build_dict _ [] dictionary ws Dictionary.make_dict Hws) as (t & Ht & Hi).
  rewrite (Dictionary.letters_list _ _ Hws) in Hi. unfold Dictionary.replaceWords. rewrite Ht. cbn [mbind option_bind].
  destruct (Dictionary.replace_loop_spec dictionary t (S (String.length sentence)) sentence "" Hi) as (roots & Hr & E); [lia|done|].
  exists roots. split; [done|]. rewrite E. by destruct roots.
Qed.

(** The completions are the best three.  For a prefix that is not empty, [input]
    answers the texts of the first three, in the order of the ranking (higher frequency
    first, then the smaller text), of all sentences that start with the prefix. *)
Theorem autocomplete_top_k `{!StdSort} (s : list string) (f : list Z) :
  length s ≤ length f →
  ∃ sys, Autocomplete.AutocompleteSystem_make s f = Some sys ∧
    Autocomplete.text <$> Autocomplete.sentences sys = s ∧ Autocomplete.frequency <$> Autocomplete.sentences sys = take (length s) f ∧
    ∀ prefix, prefix ≠ EmptyString →
      Autocomplete.input sys prefix =
      Some (Autocomplete.text <$> take 3 (merge_sort Autocomplete.rank
        (filter (λ x, Frequency.starts prefix (Autocomplete.text x)) (Autocomplete.sentences sys)))).
Proof.
  intros Hl. destruct (Autocomplete.input_spec s f Hl) as (sys & Hm & E1 & E2 & Hin). exists sys. split_and!; [done..|].
  intros prefix Hne. rewrite Hin, decide_False by done. done.
Qed.

(** An implementation of [std::sort]. *)
Fixpoint sort_place_one (lt : nat → nat → bool) (x : nat) (l : list nat) : list nat :=
  match l with [] => [x] | y :: l => if lt x y then x :: y :: l else y :: sort_place_one lt x l end.

Definition insertion_sort (lt : nat → nat → bool) (l : list nat) : list nat := foldr (sort_place_one lt) [] l.

Lemma sort_place_one_perm lt x l : sort_place_one lt x l ≡ₚ x :: l.
Proof. induction l as [|y l IH]; simpl; [done|]. destruct (lt x y); [done|]. rewrite IH. apply perm_swap. Qed.

#[export, refine] Instance insertion_std_sort : StdSort := {| std_sort := insertion_sort |}.
Proof.
  - intros lt l. induction l as [|x l IH]; simpl; [done|]. by rewrite sort_place_one_perm, IH.
  - intros lt l. assert (insertion_sort lt l ≡ₚ l) as Hp.
    { induction l as [|x l IH]; simpl; [done|]. by rewrite sort_place_one_perm, IH. }
    revert Hp. induction l as [|x l IH]; intros Hp Ht Ha; simpl; [constructor|].
    assert (insertion_sort lt l ≡ₚ l) as Hpl.
    { simpl in Hp. rewrite sort_place_one_perm in Hp. by apply Permutation_cons_inv in Hp. }
    assert (StronglySorted (λ a b, lt b a = false) (insertion_sort lt l)) as Hs.
    { apply IH; [done|intros a b c ? ? ?; apply Ht; by apply elem_of_cons; right|intros a b ? ?; apply Ha; by apply elem_of_cons; right]. }
    assert (∀ y, y ∈ insertion_sort lt l → y ∈ x :: l) as Hin by (intros y; rewrite Hpl; intros; by apply elem_of_cons; right).
    clear IH Hp Hpl. induction Hs as [|y k Hk IHk Hf]; simpl; [by repeat constructor|].
    assert (x ∈ x :: l) as Hx by by apply elem_of_cons; left. assert (y ∈ x :: l) as Hy by (apply Hin; by apply elem_of_cons; left).
    assert (∀ z, z ∈ k → z ∈ x :: l) as Hz by (intros z ?; apply Hin; by apply elem_of_cons; right).
    destruct (lt x y) eqn:E.
    + constructor; [by constructor|]. apply Forall_cons. split; [by apply Ha|]. apply Forall_forall. intros z Hzk.
      apply (Ht x y z); auto. by apply (proj1 (Forall_forall _ _) Hf).
    + constructor; [by apply IHk|]. rewrite sort_place_one_perm. apply Forall_cons. by split.
Defined.

Lemma autocomplete_top_k_witness :
  ∃ sys, Autocomplete.AutocompleteSystem_make ["i love you"; "island"; "ironman"; "i love leetcode"]%string [5; 3; 2; 2]%Z = Some sys ∧
    Autocomplete.input sys "i"%string = Some ["i love you"; "island"; "i love leetcode"]%string.
Proof.
  destruct (autocomplete_top_k ["i love you"; "island"; "ironman"; "i love leetcode"]%string [5; 3; 2; 2]%Z) as (sys & Hm & _ & _ & Hin);
    [simpl; lia|].
  exists sys. split; [exact Hm|]. vm_compute in Hm. simplify_eq. rewrite Hin by done. vm_compute. reflexivity.
Defined.

(** The trie finds the greatest exclusive-or.  For numbers that are not negative,
    [findMaximumXOR] is the exclusive-or of two of them and no two have a greater one. *)
Theorem maximum_xor_correct (nums : list Z) :
  nums ≠ [] → Forall (λ x, 0 ≤ x ≤ INT_MAX)%Z nums →
  ∃ x y, x ∈ nums ∧ y ∈ nums ∧ MaximumXOR.findMaximumXOR (new_node tt) nums = Some (Z.lxor x y) ∧
    ∀ x' y', x' ∈ nums → y' ∈ nums → (Z.lxor x' y' ≤ Z.lxor x y)%Z.
Proof.
  intros Hne Hb. assert (∀ x, x ∈ nums → (0 ≤ x < 2 ^ Z.of_nat 31)%Z) as Hb'.
  { intros x Hx. apply (proj1 (Forall_forall _ _) Hb) in Hx. change (2 ^ Z.of_nat 31)%Z with 2147483648%Z. unfold INT_MAX in Hx. lia. }
  assert (∀ num, num ∈ nums → ∃ y, y ∈ nums ∧
    MaximumXOR.getMaxXOR (fold_left MaximumXOR.insert nums (new_node tt)) num = Some (Z.lxor num y) ∧
    ∀ y', y' ∈ nums → (Z.lxor num y' ≤ Z.lxor num y)%Z) as Hget.
  { intros num Hn. apply (MaximumXOR.full_loop_spec 31); [lia|apply MaximumXOR.inserts_has|done|done|by apply Hb']. }
  unfold MaximumXOR.findMaximumXOR. generalize dependent (fold_left MaximumXOR.insert nums (new_node tt)). intros t Hget.
  destruct (MaximumXOR.best_loop_spec t nums nums 0 Hget) as (r & -> & _ & Hmax & Hr); [done|].
  destruct Hr as [->|(x & y & Hx & Hy & ->)]; [|by exists x, y]. destruct nums as [|x nums]; [done|].
  assert (x ∈ x :: nums) as Hx by by apply elem_of_cons; left. exists x, x. rewrite Z.lxor_nilpotent. done.
Qed.

Lemma maximum_xor_correct_witness :
  ∃ x y, x ∈ [3; 10; 5; 25; 2; 8]%Z ∧ y ∈ [3; 10; 5; 25; 2; 8]%Z ∧
    MaximumXOR.findMaximumXOR (new_node tt) [3; 10; 5; 25; 2; 8]%Z = Some (Z.lxor x y).
Proof.
  destruct (maximum_xor_correct [3; 10; 5; 25; 2; 8]%Z) as (x & y & Hx & Hy & E & _).
  - done.
  - repeat constructor; unfold INT_MAX; lia.
  - exists x, y. split; [exact Hx|split; [exact Hy|exact E]].
Defined.

(** With a negative number the sign bit decides: the walk prefers the path that makes the
    result negative, and the greatest exclusive-or, 7 of 5 and 2, is not found. *)
Lemma maximum_xor_negative : MaximumXOR.findMaximumXOR (new_node tt) [5; 2; -1]%Z = Some 0%Z.
Proof. vm_compute. reflexivity. Qed.
