(* ===== verification/FileSystemTrie.v ===== *)
(** * The file system of the tries

    [src/Trie/In-memory_file_system.cpp]: the tree of [FileTree], whose nodes carry a name
    and the content of a file.  [mkdir] makes nodes without a name, [addContentToFile]
    names the nodes it makes and turns the last one into a file.  A path that leads nowhere
    is a null pointer, which [ls] and [readContentFromFile] dereference ([None]). *)
From S2P Require Import Prelude Streams FileTree.
Local Open Scope nat_scope.

Abbreviation Data := (string * string)%type.

Record FileSystem := { root : FileNode Data }.

Definition FileSystem_make : FileSystem := {| root := mkNode false ("/"%string, EmptyString) ∅ |}.

(** [traverse_filepath] *)
Definition traverse_filepath (fs : FileSystem) (path : string) : option (FileNode Data) := walk (root fs) (tokenize path).

(** The names of the children, in the order of the map. *)
Definition child_names (n : FileNode Data) : list string := (map_sorted String.le (children n)).*1.

Definition ls (fs : FileSystem) (path : string) : option (list string) :=
  node ← traverse_filepath fs path;
  Some (if is_file node then [(info node).1] else child_names node).

Definition readContentFromFile (fs : FileSystem) (path : string) : option string :=
  node ← traverse_filepath fs path; Some (info node).2.

(** [new TrieNode()]: no name, not a file. *)
Definition nameless (_ : bool) (u : unit) : FileNode Data * unit := (mkNode false (EmptyString, EmptyString) ∅, u).

Definition mkdir (fs : FileSystem) (path : string) : FileSystem :=
  {| root := (create_loop nameless tt (root fs) (tokenize path)).1 |}.

(** The loop of [addContentToFile], and what it does to the node it ends at. *)
Fixpoint add_loop (content : string) (n : FileNode Data) (parts : list string) : FileNode Data :=
  match parts with
  | [] => mkNode true ((info n).1, (info n).2 +:+ content) (children n)
  | part :: parts =>
      let c := match children n !! part with
               | Some c => c
               | None => mkNode (bool_decide (parts = [])) (part, EmptyString) ∅
               end in
      set_child n part (add_loop content c parts)
  end.

Definition addContentToFile (fs : FileSystem) (path content : string) : FileSystem :=
  {| root := add_loop content (root fs) (tokenize path) |}.

Inductive op := Mkdir (path : string) | AddContent (path content : string).

Definition step (fs : FileSystem) (o : op) : FileSystem :=
  match o with Mkdir path => mkdir fs path | AddContent path content => addContentToFile fs path content end.

Definition run (ops : list op) : FileSystem := fold_left step ops FileSystem_make.

(** ** A map from paths *)

Abbreviation paths := (list string → option (bool * Data)).

Definition name_of (q : list string) : string := default EmptyString (last q).

(** The path of the file and the prefixes that are missing. *)
Definition add_content (m : paths) (p : list string) (content : string) (q : list string) : option (bool * Data) :=
  match m q with
  | Some (b, (name, old)) => Some (if decide (q = p) then (true, (name, old +:+ content)) else (b, (name, old)))
  | None =>
      if decide (q `prefix_of` p) then
        Some (if decide (q = p) then (true, (name_of q, content)) else (false, (name_of q, EmptyString)))
      else None
  end.

Definition spec_step (m : paths) (o : op) : paths :=
  match o with
  | Mkdir path => add_path m (tokenize path) (false, (EmptyString, EmptyString)) (false, (EmptyString, EmptyString))
  | AddContent path content => add_content m (tokenize path) content
  end.

Definition spec_make : paths := λ q, if decide (q = []) then Some (false, ("/"%string, EmptyString)) else None.

Definition spec_run (ops : list op) : paths := fold_left spec_step ops spec_make.

Lemma name_of_cons t q : q ≠ [] → name_of (t :: q) = name_of q.
Proof. intros Hq. unfold name_of. by destruct q. Qed.

Lemma view_add_loop content n ts q : view (add_loop content n ts) q = add_content (view n) ts content q.
Proof.
  unfold add_content. revert n q. induction ts as [|t ts IH]; intros n q.
  - destruct q as [|t' q]; [unfold view, label; simpl; by destruct (info n)|].
    simpl. rewrite !view_cons. simpl. destruct (children n !! t') as [c|]; simpl.
    + by destruct (view c q) as [[b [nm ct]]|].
    + done.
  - cbn [add_loop]. rewrite view_set_child. destruct q as [|t' q].
    { unfold view. cbn [walk fmap option_fmap option_map]. destruct (label n) as [b [nm ct]]. by rewrite decide_False. }
    rewrite (view_cons n t' q). destruct (decide (t' = t)) as [->|Hne].
    2: { rewrite (decide_False (P := t' :: q `prefix_of` t :: ts)) by (rewrite prefix_cons_iff; naive_solver).
         destruct (mbind _ _) as [[b [nm ct]]|]; [|done]. rewrite decide_False; [done|congruence]. }
    rewrite (decide_ext (t :: q `prefix_of` t :: ts) (q `prefix_of` ts)) by (rewrite prefix_cons_iff; naive_solver).
    rewrite IH.
    assert (∀ A (x y : A), (if decide (t :: q = t :: ts) then x else y) = if decide (q = ts) then x else y) as Hd.
    { intros A x y. apply decide_ext. naive_solver. }
    rewrite !Hd. destruct (children n !! t) as [c|]; cbn [mbind option_bind].
    + destruct (view c q) as [[b [nm ct]]|] eqn:Ev; [by rewrite Hd|].
      assert (q ≠ []) as Hq by (intros ->; unfold view in Ev; done). by rewrite name_of_cons.
    + rewrite view_leaf. destruct (decide (q = [])) as [->|Hq].
      * rewrite (decide_True (P := [] `prefix_of` ts)) by apply prefix_nil. simpl. destruct (decide ([] = ts)) as [<-|Hts]; [done|].
        by rewrite bool_decide_eq_false_2 by congruence.
      * by rewrite name_of_cons.
Qed.

Lemma nameless_allocator : allocator nameless (λ _, (false, (EmptyString, EmptyString))) (λ _, (false, (EmptyString, EmptyString))) id.
Proof. split; by intros []. Qed.

Lemma step_refines m fs o : (∀ q, view (root fs) q = m q) → ∀ q, view (root (step fs o)) q = spec_step m o q.
Proof.
  intros Hv q. destruct o as [path|path content]; simpl.
  - pose proof (create_loop_spec nameless _ _ _ tt (root fs) (tokenize path) nameless_allocator) as Hc.
    destruct (create_loop _ _ _ _) as [n' s']. destruct Hc as [Hc _]. simpl. rewrite Hc. unfold add_path. by rewrite Hv.
  - rewrite view_add_loop. unfold add_content. by rewrite Hv.
Qed.

Lemma run_refines ops q : view (root (run ops)) q = spec_run ops q.
Proof.
  unfold run, spec_run. revert q. enough (∀ fs m, (∀ q, view (root fs) q = m q) → ∀ q,
    view (root (fold_left step ops fs)) q = fold_left spec_step ops m q) as H.
  { apply H. intros [|t q]; [done|]. simpl. by rewrite view_cons. }
  induction ops as [|o ops IH]; intros fs m Hv; simpl; [done|]. apply IH. by apply step_refines.
Qed.

Lemma child_names_spec n p c :
  walk n p = Some c → StronglySorted String.le (child_names c) ∧ NoDup (child_names c) ∧
    ∀ t, t ∈ child_names c ↔ is_Some (view n (p ++ [t])).
Proof.
  intros Hw. unfold child_names. split_and!; [|apply map_sorted_NoDup|].
  - pose proof (map_sorted_sorted String.le (children c)) as Hs. induction Hs as [|x l _ IH Hf]; simpl; constructor; [done|].
    apply Forall_fmap. by apply Hf.
  - intros t. rewrite <-(walk_children n p c t Hw), list_elem_of_fmap. split.
    + intros ([t' c'] & -> & Hin). apply elem_of_map_sorted in Hin. simpl. by rewrite Hin.
    + intros [c' Hc']. exists (t, c'). split; [done|]. by apply elem_of_map_sorted.
Qed.

(** The file system is a map from paths: after any history of [mkdir] and
    [addContentToFile], [readContentFromFile] returns what was added to the path, and [ls]
    the name of a file, or the components below a directory in order; on a path that is not
    in the map both dereference a null pointer. *)
Theorem trie_fs_refines_paths (ops : list op) (path : string) :
  let m := spec_run ops in let p := tokenize path in
  readContentFromFile (run ops) path = (λ x, x.2.2) <$> m p ∧
  match m p with
  | None => ls (run ops) path = None
  | Some (true, (name, _)) => ls (run ops) path = Some [name]
  | Some (false, _) => ∃ names, ls (run ops) path = Some names ∧ StronglySorted String.le names ∧ NoDup names ∧
      ∀ t, t ∈ names ↔ is_Some (m (p ++ [t]))
  end.
Proof.
  intros m p. pose proof (run_refines ops) as Hv. fold m in Hv. pose proof (Hv p) as Hp.
  unfold readContentFromFile, ls, traverse_filepath. fold p. unfold view in Hp.
  destruct (walk (root (run ops)) p) as [c|] eqn:Hw; rewrite <-Hp; [|done]. simpl. unfold label. split; [done|].
  destruct (is_file c); [by destruct (info c)|]. exists (child_names c). split; [done|].
  destruct (child_names_spec _ _ _ Hw) as (H1 & H2 & H3). split_and!; [done..|]. intros t. by rewrite H3, Hv.
Qed.

(** A file in place of a directory that [mkdir] made has no name. *)
Lemma nameless_file : ls (run [Mkdir "/a"; AddContent "/a" "x"]) "/a" = Some [EmptyString].
Proof. vm_compute. reflexivity. Qed.
