(* ===== verification/Coordination.v ===== *)
(** * Coordination

    [src/database-internals/2PC_Coordinator.cpp]: two-phase commit;
    [src/database-internals/HeartbeatManager.cpp]: which nodes are alive;
    [src/database-internals/RPC_Dispatcher.cpp]: a table of handlers;
    [src/storage/BackupScheduler.cpp]: jobs, their policies and retries. *)
From S2P Require Import Prelude.
Local Open Scope Z_scope.

(** ** Two-phase commit *)

Module TwoPhase.

Inductive Txnstate := INIT | PREPARED | COMMITTED | ABORTED.

#[global] Instance Txnstate_eq_dec : EqDecision Txnstate.
Proof. solve_decision. Defined.

(** The messages the participants get, with their answer to [prepare]. *)
Inductive Event := Prepare (p : nat) (vote : bool) | Commit (p : nat) | Abort (p : nat).

(** What the coordinator relies on: a participant answers [prepare] with its vote.  The
    vote may depend on what happened before. *)
Class Participants := vote : nat → list Event → bool.

(** The participants of the program vote yes. *)
#[global] Instance Participant_prepare : Participants := λ _ _, true.

Record Coordinator := { participants : list nat; state : Txnstate; log : list Event }.

Definition Coordinator_make : Coordinator := {| participants := []; state := INIT; log := [] |}.

Definition addParticipant (c : Coordinator) (p : nat) : Coordinator :=
  {| participants := participants c ++ [p]; state := state c; log := log c |}.

Definition abort (c : Coordinator) : Coordinator :=
  {| participants := participants c; state := ABORTED; log := log c ++ (Abort <$> participants c) |}.

(** The loop of [prepare]: the log, and whether all voted yes; it stops at the first no. *)
Fixpoint prepare_loop `{Participants} (ps : list nat) (l : list Event) : list Event * bool :=
  match ps with
  | [] => (l, true)
  | p :: ps => if vote p l then prepare_loop ps (l ++ [Prepare p true]) else (l ++ [Prepare p false], false)
  end.

Definition prepare `{Participants} (c : Coordinator) : Coordinator * bool :=
  let '(l, yes) := prepare_loop (participants c) (log c) in
  if yes then ({| participants := participants c; state := PREPARED; log := l |}, true)
  else (abort {| participants := participants c; state := state c; log := l |}, false).

Definition commit (c : Coordinator) : Coordinator :=
  if decide (state c = PREPARED) then
    {| participants := participants c; state := COMMITTED; log := log c ++ (Commit <$> participants c) |}
  else c.

Inductive Call := CPrepare | CCommit | CAbort.

Definition call `{Participants} (c : Coordinator) (o : Call) : Coordinator :=
  match o with CPrepare => (prepare c).1 | CCommit => commit c | CAbort => abort c end.

(** Whether the last thing participant [p] did was to vote yes. *)
Definition ready_after (p : nat) (b : bool) (e : Event) : bool :=
  match e with
  | Prepare q v => if decide (q = p) then v else b
  | Commit q | Abort q => if decide (q = p) then false else b
  end.

Definition ready (p : nat) (l : list Event) : bool := fold_left (ready_after p) l false.

(** Nobody is told to commit who has not just voted yes. *)
Fixpoint justified (before l : list Event) : Prop :=
  match l with
  | [] => True
  | e :: l => match e with Commit p => ready p before = true | _ => True end ∧ justified (before ++ [e]) l
  end.

Lemma ready_app p l1 l2 : ready p (l1 ++ l2) = fold_left (ready_after p) l2 (ready p l1).
Proof. unfold ready. by rewrite fold_left_app. Qed.

Lemma justified_app before l1 l2 : justified before (l1 ++ l2) ↔ justified before l1 ∧ justified (before ++ l1) l2.
Proof.
  revert before. induction l1 as [|e l1 IH]; intros before; simpl; [rewrite app_nil_r; tauto|].
  rewrite IH, <-(assoc_L (++)). simpl. tauto.
Qed.

Lemma justified_aborts before ps : justified before (Abort <$> ps).
Proof. revert before. induction ps as [|p ps IH]; intros before; csimpl; [done|]. by split. Qed.

Lemma justified_commits before ps :
  NoDup ps → (∀ p, p ∈ ps → ready p before = true) → justified before (Commit <$> ps).
Proof.
  intros Hnd. revert before. induction Hnd as [|p ps Hp Hnd IH]; intros before Hr; csimpl; [done|].
  split; [apply Hr; by apply elem_of_cons; left|]. apply IH. intros q Hq. rewrite ready_app. simpl.
  rewrite decide_False by (intros ->; done). apply Hr. by apply elem_of_cons; right.
Qed.

Lemma prepare_loop_spec `{Participants} ps before l l' yes :
  prepare_loop ps l = (l', yes) → justified before l →
  justified before l' ∧ (yes = true → ∀ p, (ready p l = true ∨ p ∈ ps) → ready p l' = true).
Proof.
  revert l. induction ps as [|p ps IH]; intros l E Hj; simpl in E; simplify_eq.
  { split; [done|]. intros _ p [?|?%not_elem_of_nil]; done. }
  destruct (vote p l); simplify_eq.
  - apply IH in E as [Hj' Hr]; [|apply justified_app; done]. split; [done|]. intros Hy q Hq. apply Hr; [done|].
    rewrite ready_app. simpl. destruct (decide (p = q)) as [->|Hne]; [by left|]. destruct Hq as [?|[->|?]%elem_of_cons]; auto.
  - split; [by apply justified_app|done].
Qed.

Record tp_inv (c : Coordinator) : Prop := {
  tp_nodup : NoDup (participants c);
  tp_justified : justified [] (log c);
  tp_prepared : state c = PREPARED → ∀ p, p ∈ participants c → ready p (log c) = true
}.

Lemma call_inv `{Participants} c o : tp_inv c → tp_inv (call c o).
Proof.
  intros [Hn Hj Hp]. destruct o; simpl.
  - unfold prepare. destruct (prepare_loop (participants c) (log c)) as [l yes] eqn:E.
    apply (prepare_loop_spec _ []) in E as [Hj' Hr]; [|done]. destruct yes; split; simpl; try done.
    + intros _ p Hin. apply Hr; auto.
    + apply justified_app. split; [done|apply justified_aborts].
  - unfold commit. destruct (decide (state c = PREPARED)) as [Hs|]; [|done]. split; simpl; try done.
    apply justified_app. split; [done|]. apply justified_commits; auto.
  - split; simpl; try done. apply justified_app. split; [done|apply justified_aborts].
Qed.

Lemma call_participants `{Participants} c o : participants (call c o) = participants c.
Proof.
  destruct o; simpl; [|unfold commit; by destruct (decide _)|done]. unfold prepare. destruct (prepare_loop _ _) as [l []]; done.
Qed.
End TwoPhase.



(** [abort] has no guard: a transaction that was committed can be aborted. *)
Lemma abort_after_commit :
  TwoPhase.log (fold_left TwoPhase.call [TwoPhase.CPrepare; TwoPhase.CCommit; TwoPhase.CAbort] (TwoPhase.addParticipant TwoPhase.Coordinator_make 1)) =
  [TwoPhase.Prepare 1 true; TwoPhase.Commit 1; TwoPhase.Abort 1].
Proof. reflexivity. Qed.

(** A participant added between the phases is told to commit without a vote. *)
Lemma late_participant_commits :
  TwoPhase.log (TwoPhase.commit (TwoPhase.addParticipant (TwoPhase.prepare (TwoPhase.addParticipant TwoPhase.Coordinator_make 1)).1 2)) =
  [TwoPhase.Prepare 1 true; TwoPhase.Commit 1; TwoPhase.Commit 2].
Proof. reflexivity. Qed.

(** ** Heartbeats *)

Module Heartbeat.

Record HeartbeatManager := { timeout : Z; last_Heartbeat : gmap string Z }.

Definition HeartbeatManager_make (timeout : Z) : HeartbeatManager := {| timeout := timeout; last_Heartbeat := ∅ |}.

Definition receive_heartbeat (m : HeartbeatManager) (node_id : string) (timestamp : Z) : HeartbeatManager :=
  {| timeout := timeout m; last_Heartbeat := <[node_id := timestamp]> (last_Heartbeat m) |}.

(** [curr_time - last_seen] is [int] arithmetic. *)
Definition is_alive (m : HeartbeatManager) (node_id : string) (curr_time : Z) : option bool :=
  match last_Heartbeat m !! node_id with
  | None => Some false
  | Some last_seen => d ← checked (curr_time - last_seen); Some (d <=? timeout m)
  end.

Fixpoint dead_loop (timeout curr_time : Z) (nodes : list (string * Z)) : option (list string) :=
  match nodes with
  | [] => Some []
  | (node_id, last_seen) :: nodes =>
      d ← checked (curr_time - last_seen);
      dead ← dead_loop timeout curr_time nodes;
      Some (if timeout <? d then node_id :: dead else dead)
  end.

Definition check_dead_nodes (m : HeartbeatManager) (curr_time : Z) : option (list string) :=
  dead_loop (timeout m) curr_time (map_to_list (last_Heartbeat m)).

Lemma dead_loop_spec to now nodes :
  (∀ n t, (n, t) ∈ nodes → int_ok (now - t)) →
  dead_loop to now nodes = Some (filter (λ p, to < now - p.2) nodes).*1.
Proof.
  induction nodes as [|[n t] nodes IH]; intros Hok; simpl; [done|].
  rewrite checked_ok by (apply (Hok n); by apply elem_of_cons; left). cbn [mbind option_bind].
  rewrite IH by (intros n' t' ?; apply (Hok n'); by apply elem_of_cons; right). cbn [mbind option_bind]. rewrite filter_cons. simpl.
  by destruct (Z.ltb_spec to (now - t)); [rewrite decide_True by lia|rewrite decide_False by lia].
Qed.

(** The last heartbeat of each node. *)
Fixpoint last_seen (hs : list (string * Z)) (node : string) : option Z :=
  match hs with
  | [] => None
  | (n, t) :: hs => match last_seen hs node with Some t' => Some t' | None => if decide (n = node) then Some t else None end
  end.

Lemma receive_all m hs node :
  last_Heartbeat (fold_left (λ m h, receive_heartbeat m h.1 h.2) hs m) !! node =
  match last_seen hs node with Some t => Some t | None => last_Heartbeat m !! node end.
Proof.
  revert m. induction hs as [|[n t] hs IH]; intros m; simpl; [done|]. rewrite IH. destruct (last_seen hs node); [done|]. simpl.
  destruct (decide (n = node)) as [->|]; [by rewrite lookup_insert_eq|by rewrite lookup_insert_ne].
Qed.

Lemma receive_timeout m hs : timeout (fold_left (λ m h, receive_heartbeat m h.1 h.2) hs m) = timeout m.
Proof. revert m. induction hs as [|h hs IH]; intros m; simpl; [done|]. by rewrite IH. Qed.

(** A node is alive if its last heartbeat is at most [timeout] old; the dead nodes are those
    that have sent one and are not alive; a node that never did is neither. *)
Theorem heartbeat_classifies (to now : Z) (hs : list (string * Z)) :
  0 ≤ now ≤ INT_MAX → Forall (λ h, 0 ≤ h.2 ≤ INT_MAX) hs →
  let m := fold_left (λ m h, receive_heartbeat m h.1 h.2) hs (HeartbeatManager_make to) in
  (∀ node, is_alive m node now = Some (match last_seen hs node with Some t => bool_decide (now - t ≤ to) | None => false end)) ∧
  ∃ dead, check_dead_nodes m now = Some dead ∧ NoDup dead ∧
    ∀ node, node ∈ dead ↔ ∃ t, last_seen hs node = Some t ∧ to < now - t.
Proof.
  intros Hn Hall m. assert (∀ node, last_Heartbeat m !! node = last_seen hs node) as Hl.
  { intros node. unfold m. rewrite receive_all. by destruct (last_seen hs node). }
  assert (timeout m = to) as Et by apply receive_timeout.
  assert (∀ node t, last_seen hs node = Some t → int_ok (now - t)) as Hok.
  { intros node t Ht. assert (0 ≤ t ≤ INT_MAX); [|int_bounds]. clear -Hall Ht. induction Hall as [|[n x] hs Hx _ IH]; [done|]. simpl in *.
    destruct (last_seen hs node); [by apply IH|]. destruct (decide (n = node)); by simplify_eq. }
  split.
  - intros node. unfold is_alive. rewrite Hl. destruct (last_seen hs node) as [t|] eqn:E; [|done]. rewrite checked_ok by eauto.
    cbn [mbind option_bind]. rewrite Et. f_equal. destruct (Z.leb_spec (now - t) to); symmetry;
      [apply bool_decide_eq_true|apply bool_decide_eq_false]; lia.
  - unfold check_dead_nodes. rewrite dead_loop_spec, Et.
    + eexists. split; [done|]. split.
      * eapply sublist_NoDup; [apply (NoDup_fst_map_to_list (last_Heartbeat m))|]. apply fmap_sublist, sublist_filter.
      * intros node. rewrite list_elem_of_fmap. split.
        -- intros ([n t] & -> & [Hlt Hin]%list_elem_of_filter). apply elem_of_map_to_list in Hin. exists t. by rewrite <-Hl.
        -- intros (t & Ht & Hlt). exists (node, t). split; [done|]. apply list_elem_of_filter. split; [done|].
           apply elem_of_map_to_list. by rewrite Hl.
    + intros n t Hin%elem_of_map_to_list. rewrite Hl in Hin. eauto.
Qed.
End Heartbeat.

(** ** The dispatcher *)

Module Rpc.

(** A handler is what it prints. *)
Record RPC_Dispatcher := { handlers : gmap string (list string) }.

Definition RPC_Dispatcher_make : RPC_Dispatcher := {| handlers := ∅ |}.

Definition register_service (r : RPC_Dispatcher) (method : string) (handler : list string) : RPC_Dispatcher :=
  {| handlers := <[method := handler]> (handlers r) |}.

(** What a call prints; [inl] is the message for a method that is not registered. *)
Definition dispatch (r : RPC_Dispatcher) (method : string) : string + list string :=
  match handlers r !! method with None => inl method | Some handler => inr handler end.

(** The handler of a method is the one registered last; without one the call is an error and
    nothing runs. *)
Lemma dispatch_last_registered (regs : list (string * list string)) (method : string) :
  dispatch (fold_left (λ r x, register_service r x.1 x.2) regs RPC_Dispatcher_make) method =
  match last (filter (λ x, x.1 = method) regs) with Some x => inr x.2 | None => inl method end.
Proof.
  induction regs as [|[m h] regs IH] using rev_ind; [done|]. rewrite fold_left_app, filter_app. simpl. unfold dispatch, register_service in *.
  rewrite filter_cons. simpl. destruct (decide (m = method)) as [->|Hne].
  - by rewrite lookup_insert_eq, filter_nil, last_snoc.
  - by rewrite lookup_insert_ne, filter_nil, app_nil_r.
Qed.
End Rpc.

(** ** Backup jobs *)

Module Backup.

(** [DailyPolicy] and [WeeklyPolicy]. *)
Inductive BackupPolicy := DailyPolicy | WeeklyPolicy.

Definition shouldRun (p : BackupPolicy) (day : Z) : bool :=
  match p with DailyPolicy => true | WeeklyPolicy => Z.rem day 7 =? 0 end.

Inductive Status := PENDING | SUCCESS | FAILED.

#[global] Instance Status_eq_dec : EqDecision Status.
Proof. solve_decision. Defined.

Record BackupJob := { job_id : Z; job_name : string; policy : BackupPolicy; status : Status }.

Definition BackupJob_make (id : Z) (name : string) (pol : BackupPolicy) : BackupJob :=
  {| job_id := id; job_name := name; policy := pol; status := PENDING |}.

Definition set_status (j : BackupJob) (s : Status) : BackupJob :=
  {| job_id := job_id j; job_name := job_name j; policy := policy j; status := s |}.

Definition job_run (j : BackupJob) (day : Z) : BackupJob :=
  if shouldRun (policy j) day then set_status j (if Z.rem (job_id j) 2 =? 0 then SUCCESS else FAILED) else j.

Definition retry (j : BackupJob) : BackupJob := if decide (status j = FAILED) then set_status j SUCCESS else j.

(** The scheduler holds pointers: [jobs] are addresses in the heap of jobs, perhaps the
    same one twice; a pointer to no job is undefined behaviour. *)
Record BackupScheduler := { heap : gmap nat BackupJob; jobs : list nat }.

Definition addJob (s : BackupScheduler) (a : nat) : BackupScheduler := {| heap := heap s; jobs := jobs s ++ [a] |}.

Fixpoint for_jobs (f : BackupJob → BackupJob) (h : gmap nat BackupJob) (l : list nat) : option (gmap nat BackupJob) :=
  match l with [] => Some h | a :: l => j ← h !! a; for_jobs f (<[a := f j]> h) l end.

Definition schedule (s : BackupScheduler) (day : Z) : option BackupScheduler :=
  h ← for_jobs (λ j, job_run j day) (heap s) (jobs s); Some {| heap := h; jobs := jobs s |}.

Definition retryFailedJobs (s : BackupScheduler) : option BackupScheduler :=
  h ← for_jobs retry (heap s) (jobs s); Some {| heap := h; jobs := jobs s |}.

(** Running a job twice is running it once, so a job listed twice makes no difference. *)
Lemma for_jobs_spec f h l :
  (∀ j, f (f j) = f j) → (∀ a, a ∈ l → is_Some (h !! a)) →
  ∃ h', for_jobs f h l = Some h' ∧ ∀ a, h' !! a = if decide (a ∈ l) then f <$> h !! a else h !! a.
Proof.
  intros Hf. revert h. induction l as [|a l IH]; intros h Hl; simpl.
  { exists h. split; [done|]. done. }
  destruct (Hl a) as [j Hj]; [by apply elem_of_cons; left|]. rewrite Hj. simpl.
  destruct (IH (<[a := f j]> h)) as (h' & -> & Hh').
  { intros b Hb. destruct (decide (a = b)) as [->|]; [rewrite lookup_insert_eq; by eexists|rewrite lookup_insert_ne by done].
    apply Hl. by apply elem_of_cons; right. }
  exists h'. split; [done|]. intros b. rewrite Hh'. destruct (decide (a = b)) as [<-|Hne].
  - rewrite lookup_insert_eq, (decide_True (P := a ∈ a :: l)) by by apply elem_of_cons; left.
    rewrite Hj. simpl. rewrite Hf. by destruct (decide (a ∈ l)).
  - rewrite lookup_insert_ne by done. apply decide_ext. rewrite elem_of_cons. naive_solver.
Qed.

Lemma job_run_idem day j : job_run (job_run j day) day = job_run j day.
Proof. unfold job_run. destruct (shouldRun (policy j) day) eqn:E; simpl; by rewrite E. Qed.

Lemma retry_idem j : retry (retry j) = retry j.
Proof. unfold retry. destruct (decide (status j = FAILED)) as [E|E]; [done|by rewrite decide_False]. Qed.

(** A day of backups: every job of the scheduler whose policy says so has succeeded after
    the failed ones were retried, the other jobs only lose a failure of an earlier day, and
    no job of the scheduler is left failed. *)
Theorem backup_day (s : BackupScheduler) (day : Z) :
  (∀ a, a ∈ jobs s → is_Some (heap s !! a)) →
  ∃ s1 s2, schedule s day = Some s1 ∧ retryFailedJobs s1 = Some s2 ∧
    ∀ a j, heap s !! a = Some j → ∃ j', heap s2 !! a = Some j' ∧
      status j' = if decide (a ∈ jobs s) then
                    if shouldRun (policy j) day then SUCCESS else if decide (status j = FAILED) then SUCCESS else status j
                  else status j.
Proof.
  intros Hl. destruct (for_jobs_spec (λ j, job_run j day) (heap s) (jobs s) (job_run_idem day) Hl) as (h1 & E1 & H1).
  destruct (for_jobs_spec retry h1 (jobs s) retry_idem) as (h2 & E2 & H2).
  { intros a Ha. rewrite H1, decide_True by done. apply fmap_is_Some. auto. }
  unfold schedule, retryFailedJobs. rewrite E1. cbn [mbind option_bind heap jobs]. do 2 eexists. split_and!; [done|simpl; by rewrite E2|].
  simpl. intros a j Hj. rewrite H2, H1, Hj. destruct (decide (a ∈ jobs s)); simpl; [|by exists j].
  eexists. split; [done|]. unfold retry, job_run. destruct (shouldRun (policy j) day); simpl.
  - destruct (Z.rem (job_id j) 2 =? 0); done.
  - by destruct (decide (status j = FAILED)).
Qed.
End Backup.
