(* ===== verification/QueryPlans.v ===== *)
(** * Query plans

    [src/database-internals/QueryPlanTree.cpp] and
    [src/database-internals/QueryExecutionFramework.cpp] (the same classes under other
    names): a plan is a tree of operators that each compute the rows of their children.
    [src/database-internals/QueryOptimizer.cpp]: plans that print their steps, and a list of
    rules that is applied in order.

    The operators satisfy the laws a planner uses to move them: a filter goes through a
    join and is done once, and an aggregate of a join is the aggregate of the aggregates. *)
From S2P Require Import Prelude.
Local Open Scope Z_scope.

Inductive PlanNode :=
  | Scan (data : list Z)
  | Filter (child : PlanNode)
  | Join (lhs rhs : PlanNode)
  | Aggregate (child : PlanNode).

(** [value % 2 == 0] *)
Definition even_value (value : Z) : bool := Z.rem value 2 =? 0.

Fixpoint filter_loop (values output : list Z) : list Z :=
  match values with [] => output | value :: values => filter_loop values (if even_value value then output ++ [value] else output) end.

(** [sum += value] is [int] arithmetic. *)
Fixpoint sum_loop (values : list Z) (sum : Z) : option Z :=
  match values with [] => Some sum | value :: values => sum ← checked (sum + value); sum_loop values sum end.

Fixpoint execute (n : PlanNode) : option (list Z) :=
  match n with
  | Scan data => Some data
  | Filter child => rows ← execute child; Some (filter_loop rows [])
  | Join lhs rhs => result ← execute lhs; right_data ← execute rhs; Some (result ++ right_data)
  | Aggregate child => rows ← execute child; sum ← sum_loop rows 0; Some [sum]
  end.

(** The classes of the other program. *)
Definition QueryOperator_execute : PlanNode → option (list Z) := execute.

(** ** The operators *)

Definition total (rows : list Z) : Z := foldr Z.add 0 rows.

(** No partial sum leaves the range of [int]. *)
Fixpoint sums_fit (sum : Z) (rows : list Z) : Prop :=
  match rows with [] => True | r :: rows => int_ok (sum + r) ∧ sums_fit (sum + r) rows end.

Lemma filter_loop_spec rows output : filter_loop rows output = output ++ filter (λ v, even_value v = true) rows.
Proof.
  revert output. induction rows as [|v rows IH]; intros output; simpl; [by rewrite app_nil_r|]. rewrite IH, filter_cons.
  destruct (even_value v); simpl; [by rewrite <-(assoc_L (++))|done].
Qed.

Lemma sum_loop_spec rows sum : sums_fit sum rows → sum_loop rows sum = Some (sum + total rows).
Proof.
  revert sum. induction rows as [|v rows IH]; intros sum Hfit; simpl in *; [f_equal; lia|]. destruct Hfit as [Hok Hfit].
  rewrite checked_ok by done. cbn [mbind option_bind]. rewrite IH by done. f_equal. lia.
Qed.

Lemma sum_loop_app rows1 rows2 sum : sum_loop (rows1 ++ rows2) sum = s ← sum_loop rows1 sum; sum_loop rows2 s.
Proof.
  revert sum. induction rows1 as [|v rows1 IH]; intros sum; simpl; [done|]. destruct (checked (sum + v)); simpl; [apply IH|done].
Qed.

Definition plan_eq (p q : PlanNode) : Prop := execute p = execute q.

#[export] Instance plan_eq_equiv : Equivalence plan_eq.
Proof. split; unfold plan_eq; [by intros ?|by intros ? ?|intros ? ? ?; congruence]. Qed.

(** Equal plans can replace each other anywhere in a plan. *)
#[export] Instance Filter_proper : Proper (plan_eq ==> plan_eq) Filter.
Proof. intros p q E. unfold plan_eq in *. simpl. by rewrite E. Qed.

#[export] Instance Join_proper : Proper (plan_eq ==> plan_eq ==> plan_eq) Join.
Proof. intros p q E p' q' E'. unfold plan_eq in *. simpl. by rewrite E, E'. Qed.

#[export] Instance Aggregate_proper : Proper (plan_eq ==> plan_eq) Aggregate.
Proof. intros p q E. unfold plan_eq in *. simpl. by rewrite E. Qed.

Lemma filter_filter (p : PlanNode) : plan_eq (Filter (Filter p)) (Filter p).
Proof.
  unfold plan_eq. simpl. destruct (execute p) as [rows|]; simpl; [|done]. f_equal. rewrite !filter_loop_spec. simpl.
  rewrite list_filter_filter. apply list_filter_iff. intros v. tauto.
Qed.

Lemma filter_join (p q : PlanNode) : plan_eq (Filter (Join p q)) (Join (Filter p) (Filter q)).
Proof.
  unfold plan_eq. simpl. destruct (execute p) as [rows|]; simpl; [|done]. destruct (execute q) as [rows'|]; simpl; [|done].
  f_equal. rewrite !filter_loop_spec. simpl. apply filter_app.
Qed.

Lemma join_assoc (p q r : PlanNode) : plan_eq (Join (Join p q) r) (Join p (Join q r)).
Proof.
  unfold plan_eq. simpl. destruct (execute p); simpl; [|done]. destruct (execute q); simpl; [|done].
  destruct (execute r); simpl; [|done]. by rewrite <-(assoc_L (++)).
Qed.

(** Pushing filters down to the scans, the rewriting the optimizer's rule is named after. *)
Fixpoint push (p : PlanNode) : PlanNode :=
  match p with
  | Filter child => push_filter child
  | Scan data => Scan data
  | Join lhs rhs => Join (push lhs) (push rhs)
  | Aggregate child => Aggregate (push child)
  end
with push_filter (p : PlanNode) : PlanNode :=
  match p with
  | Filter child => push_filter child
  | Join lhs rhs => Join (push_filter lhs) (push_filter rhs)
  | Scan data => Filter (Scan data)
  | Aggregate child => Filter (Aggregate (push child))
  end.

(** Predicate pushdown is sound: a plan whose filters are pushed below joins, with
    repeated filters merged, computes the same rows, and fails on the same sums. *)
Theorem predicate_pushdown (p : PlanNode) : execute (push p) = execute p ∧ execute (push_filter p) = execute (Filter p).
Proof.
  induction p as [data|child [IH1 IH2]|lhs [IHl1 IHl2] rhs [IHr1 IHr2]|child [IH1 IH2]].
  - done.
  - split; [exact IH2|]. cbn [push_filter]. rewrite IH2. symmetry. apply filter_filter.
  - split.
    + cbn [push execute]. by rewrite IHl1, IHr1.
    + transitivity (execute (Join (Filter lhs) (Filter rhs))); [|symmetry; apply filter_join].
      cbn [push_filter]. change (execute (Join ?a ?b)) with (x ← execute a; y ← execute b; Some (x ++ y)). by rewrite IHl2, IHr2.
  - split; cbn [push push_filter execute]; by rewrite IH1.
Qed.

(** The aggregate of a join is the sum of the parts, where no sum overflows. *)
Lemma aggregate_join (p q : PlanNode) rows rows' :
  execute p = Some rows → execute q = Some rows' → sums_fit 0 (rows ++ rows') →
  execute (Aggregate (Join p q)) = Some [total rows + total rows'].
Proof.
  intros Hp Hq Hfit. simpl. rewrite Hp, Hq. cbn [mbind option_bind]. rewrite sum_loop_spec by done. cbn [mbind option_bind].
  do 2 f_equal. unfold total. rewrite foldr_app. generalize (foldr Z.add 0 rows'). intros z. clear.
  induction rows as [|r rows IH]; simpl; lia.
Qed.

(** ** Plans that print *)

Module Optimizer.

Inductive PlanNode := Scan | Filter (child : PlanNode) | Join (lhs rhs : PlanNode) | Aggregate (child : PlanNode).

(** What [execute] prints: the children first. *)
Fixpoint execute (n : PlanNode) : list string :=
  match n with
  | Scan => ["Scan"%string]
  | Filter child => execute child ++ ["Filter"%string]
  | Join lhs rhs => execute lhs ++ execute rhs ++ ["Join"%string]
  | Aggregate child => execute child ++ ["Aggregate"%string]
  end.

Inductive OptimizerRule := PredicatePushdown | ProjectionPruning.

Definition apply (r : OptimizerRule) : string :=
  match r with PredicatePushdown => "Applying Predicate Pushdown" | ProjectionPruning => "Applying Projection Pruning" end.

Definition addRule (rules : list OptimizerRule) (rule : OptimizerRule) : list OptimizerRule := rules ++ [rule].

Definition optimize (rules : list OptimizerRule) : list string := ("----Optimizing Query Plan----" :: (apply <$> rules))%string.

Fixpoint nodes (n : PlanNode) : nat :=
  match n with Scan => 1 | Filter c | Aggregate c => S (nodes c) | Join l r => S (nodes l + nodes r) end.

(** Every operator runs once, the root last. *)
Lemma execute_once n : length (execute n) = nodes n.
Proof. induction n; simpl; rewrite ?length_app; simpl; lia. Qed.

(** The rules are applied in the order in which they were added. *)
Lemma optimize_in_order rules : tail (optimize (fold_left addRule rules [])) = apply <$> rules.
Proof.
  unfold optimize. simpl. f_equal. enough (∀ l, fold_left addRule rules l = l ++ rules) as H by apply (H []).
  induction rules as [|r rules IH]; intros l; simpl; [by rewrite app_nil_r|]. rewrite IH. unfold addRule. by rewrite <-(assoc_L (++)).
Qed.
End Optimizer.
