(* ===== verification/PubSub.v ===== *)
(** * Publishers and subscribers

    [src/storage/EventBus.cpp] and [src/storage/Notifier-MessageBroker_MessageQueue.cpp]
    (the same table of subscribers per topic), [src/storage/Notifier-NotificationSystem.cpp]
    (a thread per channel) and the blob store of
    [src/storage/BlobStore_wrapper_multiCloudProviders.cpp].

    Subscribers are pointers, compared by identity; what they print is recorded as the
    list of deliveries. *)
From Stdlib Require Import Ascii String.
From S2P Require Import Prelude Streams.
Local Open Scope nat_scope.

(** ** Topics and their subscribers *)

(** A subscriber is known by its address. *)
Abbreviation Subscriber := nat.

Definition EventBus : Type := gmap string (list Subscriber).

Definition Delivery : Type := Subscriber * string * string.

(** [topicSubscribers\[eventType\]] makes an empty list where there is none. *)
Definition subscribers_of (b : EventBus) (eventType : string) : list Subscriber := default [] ((b : gmap string _) !! eventType).

Definition subscribe (b : EventBus) (eventType : string) (s : Subscriber) : EventBus :=
  <[eventType := subscribers_of b eventType ++ [s]]> (b : gmap string _).

(** [erase(remove(...))]: all occurrences. *)
Definition unsubscribe (b : EventBus) (eventType : string) (s : Subscriber) : EventBus :=
  <[eventType := filter (λ x, x ≠ s) (subscribers_of b eventType)]> (b : gmap string _).

Definition publish (b : EventBus) (eventType message : string) : list Delivery :=
  if decide ((b : gmap string (list Subscriber)) !! eventType = None) then []
  else (λ s, (s, eventType, message)) <$> subscribers_of b eventType.

(** [Publisher::publish] *)
Definition Publisher_publish : EventBus → string → string → list Delivery := publish.

(** The broker of the other program. *)
Definition Broker_subscribe : EventBus → string → Subscriber → EventBus := subscribe.
Definition Broker_unsubscribe : EventBus → string → Subscriber → EventBus := unsubscribe.
Definition Broker_publish : EventBus → string → string → list Delivery := publish.

Inductive Op := Subscribe (t : string) (s : Subscriber) | Unsubscribe (t : string) (s : Subscriber) | Publish (t m : string).

Definition bus_step (b : EventBus) (o : Op) : EventBus * list Delivery :=
  match o with
  | Subscribe t s => (subscribe b t s, [])
  | Unsubscribe t s => (unsubscribe b t s, [])
  | Publish t m => (b, publish b t m)
  end.

Fixpoint bus_run (b : EventBus) (ops : list Op) : EventBus * list Delivery :=
  match ops with
  | [] => (b, [])
  | o :: ops => let '(b, d) := bus_step b o in let '(b, ds) := bus_run b ops in (b, d ++ ds)
  end.

(** How often [s] is subscribed to [t] after a history. *)
Definition count_op (t : string) (s : Subscriber) (n : nat) (o : Op) : nat :=
  match o with
  | Subscribe t' s' => if decide (t' = t ∧ s' = s) then S n else n
  | Unsubscribe t' s' => if decide (t' = t ∧ s' = s) then 0 else n
  | Publish _ _ => n
  end.

Definition subscriptions (ops : list Op) (t : string) (s : Subscriber) : nat := fold_left (count_op t s) ops 0.

Definition copies (s : Subscriber) (l : list Subscriber) : nat := length (filter (λ x, x = s) l).

Lemma copies_app s l k : copies s (l ++ k) = copies s l + copies s k.
Proof. unfold copies. by rewrite filter_app, length_app. Qed.

Lemma subscribers_insert (b : EventBus) t l t' :
  subscribers_of (<[t := l]> (b : gmap string _)) t' = if decide (t = t') then l else subscribers_of b t'.
Proof.
  unfold subscribers_of. destruct (decide (t = t')) as [->|]; [by rewrite lookup_insert_eq|by rewrite lookup_insert_ne].
Qed.

Lemma step_copies b o t s : copies s (subscribers_of (bus_step b o).1 t) = count_op t s (copies s (subscribers_of b t)) o.
Proof.
  destruct o as [t' s'|t' s'|t' m]; simpl; [| |done]; unfold subscribe, unsubscribe; rewrite subscribers_insert.
  - destruct (decide (t' = t)) as [->|Hne]; [|by rewrite decide_False by naive_solver]. rewrite copies_app. unfold copies at 2.
    rewrite filter_cons, filter_nil. destruct (decide (s' = s)) as [->|Hs]; simpl.
    + rewrite decide_True by done. lia.
    + rewrite decide_False by naive_solver. lia.
  - destruct (decide (t' = t)) as [->|Hne]; [|by rewrite decide_False by naive_solver]. unfold copies. rewrite list_filter_filter.
    destruct (decide (s' = s)) as [->|Hs].
    + rewrite decide_True by done. apply length_zero_iff_nil, elem_of_nil_inv. intros x [Hx _]%list_elem_of_filter. naive_solver.
    + rewrite decide_False by naive_solver. f_equal. apply list_filter_iff. naive_solver.
Qed.

Lemma run_copies b ops t s :
  copies s (subscribers_of (bus_run b ops).1 t) = fold_left (count_op t s) ops (copies s (subscribers_of b t)).
Proof.
  revert b. induction ops as [|o ops IH]; intros b; [done|]. cbn [bus_run fold_left]. rewrite <-step_copies.
  destruct (bus_step b o) as [b1 d]. cbn [fst]. rewrite <-IH. by destruct (bus_run b1 ops).
Qed.

Lemma publish_subscribers b t m : publish b t m = (λ s, (s, t, m)) <$> subscribers_of b t.
Proof. unfold publish, subscribers_of. case_decide as E; [by rewrite E|done]. Qed.

(** The deliveries of [s] among those of [t]. *)
Definition received (s : Subscriber) (ds : list Delivery) : list (string * string) :=
  (λ d, (d.1.2, d.2)) <$> filter (λ d, d.1.1 = s) ds.

(** What subscriber [s] should get: each message as often as it is subscribed when it is
    published. *)
Fixpoint expected (before ops : list Op) (s : Subscriber) : list (string * string) :=
  match ops with
  | [] => []
  | o :: ops =>
      match o with Publish t m => replicate (subscriptions before t s) (t, m) | _ => [] end ++ expected (before ++ [o]) ops s
  end.

Lemma received_app s d1 d2 : received s (d1 ++ d2) = received s d1 ++ received s d2.
Proof. unfold received. by rewrite filter_app, fmap_app. Qed.

Lemma received_publish s t m l : received s ((λ x, (x, t, m)) <$> l) = replicate (copies s l) (t, m).
Proof.
  unfold received, copies. induction l as [|x l IH]; [done|]. rewrite fmap_cons, !filter_cons. cbn [fst snd].
  destruct (decide (x = s)) as [->|]; [|exact IH]. rewrite fmap_cons. cbn [length replicate fst snd]. by rewrite <-IH.
Qed.

Lemma run_received before b ops s :
  (∀ t, copies s (subscribers_of b t) = subscriptions before t s) →
  received s (bus_run b ops).2 = expected before ops s.
Proof.
  revert before b. induction ops as [|o ops IH]; intros before b Hb; [done|]. cbn [bus_run expected].
  pose proof (λ t, step_copies b o t s) as Hstep. destruct (bus_step b o) as [b1 d] eqn:E. cbn [fst] in Hstep.
  specialize (IH (before ++ [o]) b1). destruct (bus_run b1 ops) as [b2 ds]. cbn [snd] in *. rewrite received_app, IH.
  - f_equal. destruct o as [t' s'|t' s'|t' m]; simpl in E; simplify_eq; [done..|].
    by rewrite publish_subscribers, received_publish, Hb.
  - intros t. rewrite Hstep, Hb. unfold subscriptions. by rewrite fold_left_app.
Qed.

(** Subscribers get what they subscribed to.  In any history of subscriptions,
    cancellations and messages, every subscriber receives exactly the messages of the
    topics it is subscribed to at the moment they are published, in the order of
    publication, once for each subscription made since it last cancelled. *)
Theorem subscribers_receive (ops : list Op) (s : Subscriber) :
  received s (bus_run ∅ ops).2 = expected [] ops s.
Proof. apply run_received. intros t. done. Qed.

(** *** What subscribers print *)

Inductive Service := InventoryService | AnalyticsService | NotificationService.

Definition onEvent (s : Service) (eventType message : string) : string :=
  match s with InventoryService => "[Inventory] " | AnalyticsService => "[Analytics] " | NotificationService => "[Notification] " end
  +:+ eventType +:+ " -> " +:+ message +:+ newline.

Inductive BrokerSubscriber := EmailSubscriber (email : string) | SMSSubscriber (phone : string) | PushSubscriber.

Definition Broker_notify (s : BrokerSubscriber) (message : string) : string :=
  match s with
  | EmailSubscriber email => "Email to " +:+ email +:+ " : " +:+ message +:+ newline
  | SMSSubscriber phone => "SMS to " +:+ phone +:+ " : " +:+ message +:+ newline
  | PushSubscriber => "Push notification : " +:+ message +:+ newline
  end.

(** The lines of a history, for the objects at the addresses. *)
Definition print_deliveries {A} (objects : list A) (line : A → string → string → string) (ds : list Delivery) : string :=
  String.concat EmptyString (omap (λ d, (λ o, line o d.1.2 d.2) <$> objects !! d.1.1) ds).

(** [main] of both programs. *)
Definition bus_main : string :=
  let bus := (bus_run ∅ [Subscribe "OrderCreated" 0; Subscribe "OrderCreated" 1; Subscribe "OrderCreated" 2;
                         Subscribe "PaymentSuccess" 1; Subscribe "PaymentSuccess" 2]).1 in
  let print := print_deliveries [InventoryService; AnalyticsService; NotificationService] onEvent in
  "----- Order Created -----" +:+ newline +:+ print (Publisher_publish bus "OrderCreated" "Order #101 created") +:+
  newline +:+ "----- Payment Success -----" +:+ newline +:+ print (Publisher_publish bus "PaymentSuccess" "Payment received for Order #101") +:+
  newline +:+ "----- Unsubscribe Analytics -----" +:+ newline +:+
  let bus := unsubscribe bus "OrderCreated" 1 in
  print (Publisher_publish bus "OrderCreated" "Order #102 created").

Definition broker_main : string :=
  let broker := Broker_subscribe (Broker_subscribe (Broker_subscribe ∅ "Orders" 0) "Orders" 1) "Orders" 2 in
  let print := print_deliveries [EmailSubscriber "abc@gmail.com"; SMSSubscriber "9999999999"; PushSubscriber] (λ o _ m, Broker_notify o m) in
  print (Broker_publish broker "Orders" "Order #101 created") +:+ newline +:+
  let broker := Broker_unsubscribe broker "Orders" 1 in
  print (Broker_publish broker "Orders" "Order #102 created").

Example bus_main_output :
  bus_main = String.concat newline
    ["----- Order Created -----"; "[Inventory] OrderCreated -> Order #101 created"; "[Analytics] OrderCreated -> Order #101 created"; "[Notification] OrderCreated -> Order #101 created";
     ""; "----- Payment Success -----"; "[Analytics] PaymentSuccess -> Payment received for Order #101"; "[Notification] PaymentSuccess -> Payment received for Order #101";
     ""; "----- Unsubscribe Analytics -----"; "[Inventory] OrderCreated -> Order #102 created"; "[Notification] OrderCreated -> Order #102 created"; ""]%string.
Proof. vm_compute. reflexivity. Qed.

(** The output in the comment of the source. *)
Example broker_main_output :
  broker_main = String.concat newline
    ["Email to abc@gmail.com : Order #101 created"; "SMS to 9999999999 : Order #101 created"; "Push notification : Order #101 created"; "";
     "Email to abc@gmail.com : Order #102 created"; "Push notification : Order #102 created"; ""]%string.
Proof. vm_compute. reflexivity. Qed.

(** ** One thread per channel *)

Inductive NotificationChannel := Email (email : string) | SMS (phone : string) | Push.

(** What a thread prints, insertion by insertion. *)
Definition notify (c : NotificationChannel) (message : string) : list string :=
  match c with
  | Email email => ["Email to "; email; " : "; message; newline]
  | SMS phone => ["SMS to "; phone; " : "; message; newline]
  | Push => ["Push notification : "; message; newline]
  end%string.

Definition addChannel (channels : list NotificationChannel) (c : NotificationChannel) : list NotificationChannel := channels ++ [c].

(** The threads in the order in which they get to print their next insertion: what is printed
    by which thread, and what they have left. *)
Fixpoint prints (threads : list (list string)) (schedule : list nat) : list (nat * string) * list (list string) :=
  match schedule with
  | [] => ([], threads)
  | t :: schedule =>
      match threads !! t with
      | Some (piece :: rest) => let '(out, todo) := prints (<[t := rest]> threads) schedule in ((t, piece) :: out, todo)
      | _ => prints threads schedule
      end
  end.

(** [sendNotification] returns when all threads have been joined. *)
Definition sendNotification (channels : list NotificationChannel) (message : string) (schedule : list nat) : option (list (nat * string)) :=
  let '(out, todo) := prints ((λ c, notify c message) <$> channels) schedule in
  if forallb (λ rest, match rest with [] => true | _ => false end) todo then Some out else None.

(** The insertions of one thread. *)
Definition of_thread (t : nat) (out : list (nat * string)) : list string := (filter (λ x, x.1 = t) out).*2.

Lemma prints_threads threads schedule t :
  default [] (threads !! t) = of_thread t (prints threads schedule).1 ++ default [] ((prints threads schedule).2 !! t).
Proof.
  revert threads. induction schedule as [|u schedule IH]; intros threads; cbn [prints]; [done|].
  destruct (threads !! u) as [[|piece rest]|] eqn:Hu; [apply IH| |apply IH].
  specialize (IH (<[u := rest]> threads)). destruct (prints (<[u := rest]> threads) schedule) as [out todo]. cbn [fst snd] in *.
  unfold of_thread in *. rewrite filter_cons. cbn [fst]. destruct (decide (u = t)) as [->|Hne].
  - rewrite Hu. rewrite list_lookup_insert_eq in IH by (by eapply lookup_lt_Some). rewrite fmap_cons. simpl in *. by rewrite IH.
  - by rewrite list_lookup_insert_ne in IH by done.
Qed.

Lemma prints_all threads : ∃ schedule, Forall (λ rest, rest = []) (prints threads schedule).2.
Proof.
  remember (sum_list_with length threads) as n eqn:Hn. revert threads Hn. induction n as [n IH] using lt_wf_ind; intros threads ->.
  destruct (decide (Forall (λ rest : list string, rest = []) threads)) as [|H]; [by exists []|].
  apply not_Forall_Exists in H; [|intros ?; apply _]. apply Exists_exists in H as (l & (t & Ht)%list_elem_of_lookup & Hl). destruct l as [|piece rest]; [by destruct Hl|].
  destruct (IH (sum_list_with length (<[t := rest]> threads))) with (threads := <[t := rest]> threads) as (schedule & Hs); [|done|].
  - clear -Ht. revert t Ht. induction threads as [|x threads IH]; intros [|t] Ht; simplify_eq/=; [lia|]. specialize (IH t Ht). lia.
  - exists (t :: schedule). cbn [prints]. rewrite Ht. by destruct (prints (<[t := rest]> threads) schedule).
Qed.

(** However the threads interleave, what each of them has printed when [sendNotification]
    returns is its notification, and it can return. *)
Lemma all_channels_notified channels message :
  (∃ schedule out, sendNotification channels message schedule = Some out) ∧
  ∀ schedule out t c, sendNotification channels message schedule = Some out → channels !! t = Some c → of_thread t out = notify c message.
Proof.
  split.
  - destruct (prints_all ((λ c, notify c message) <$> channels)) as (schedule & Hs). exists schedule. unfold sendNotification.
    destruct (prints _ schedule) as [out todo]. exists out. cbn [snd] in Hs. rewrite (proj2 (forallb_forall _ _)); [done|]. intros x Hx%list_elem_of_In. rewrite Forall_forall in Hs. by rewrite (Hs x Hx).
  - intros schedule out t c Hs Ht. pose proof (prints_threads ((λ c, notify c message) <$> channels) schedule t) as H. unfold sendNotification in Hs.
    destruct (prints _ schedule) as [out' todo]. cbn [fst snd] in *. destruct (forallb _ todo) eqn:E; [|done]. injection Hs as ->.
    rewrite list_lookup_fmap, Ht in H. cbn [fmap option_fmap option_map default] in H. change (id (notify c message)) with (notify c message) in H. rewrite H. destruct (todo !! t) as [l|] eqn:El; [|symmetry; apply app_nil_r].
    rewrite forallb_forall in E. specialize (E l). rewrite <-list_elem_of_In in E. specialize (E (list_elem_of_lookup_2 _ _ _ El)). destruct l; [symmetry; apply app_nil_r|done].
Qed.

(** The output in the comment of the source, where the first two threads interleave. *)
Example interleaved_output :
  (String.concat EmptyString ∘ fmap snd) <$>
    sendNotification (addChannel (addChannel (addChannel [] (Email "abc@gmail.com")) (SMS "9999999999")) Push) "Backup Compeleted"
      [0; 2; 2; 2; 0; 0; 0; 0; 1; 1; 1; 1; 1] =
  Some (String.concat newline ["Email to Push notification : Backup Compeleted"; "abc@gmail.com : Backup Compeleted"; "SMS to 9999999999 : Backup Compeleted"; ""])%string.
Proof. vm_compute. reflexivity. Qed.

(** ** Blobs *)

Module Blobs.

Inductive CloudProvider := AWS | AZURE | GCP.

#[global] Instance CloudProvider_eq_dec : EqDecision CloudProvider.
Proof. solve_decision. Defined.

Record UploadRequest := { provider : CloudProvider; sourcePath : string; destinationBlob : string; async : bool }.

(** [S3BlobStore] *)
Abbreviation BlobStore := (gmap string string).

Definition store_upload (st : BlobStore) (blob_name file_path : string) : BlobStore := <[blob_name := file_path]> st.
Definition store_download (st : BlobStore) (blob_name : string) : string := default EmptyString (st !! blob_name).
Definition store_delete (st : BlobStore) (blob_name : string) : BlobStore := delete blob_name st.

(** [blob_name.find(prefix) == 0] *)
Definition starts_with (p name : string) : bool := String.prefix p name.

Definition store_list (st : BlobStore) (p : string) : list string := filter (λ n, starts_with p n = true) (map_to_list st).*1.

(** The service has one store, for AWS; [stores\[provider\]] of another is a null pointer. *)
Record BlobService := { aws : BlobStore }.

Definition BlobService_make : BlobService := {| aws := ∅ |}.

Definition stores (s : BlobService) (p : CloudProvider) : option BlobStore := match p with AWS => Some (aws s) | _ => None end.

Definition upload (s : BlobService) (req : UploadRequest) : option BlobService :=
  if async req then Some s
  else st ← stores s (provider req); Some {| aws := store_upload st (destinationBlob req) (sourcePath req) |}.

Definition download (s : BlobService) (p : CloudProvider) (blob_name : string) : option string :=
  st ← stores s p; Some (store_download st blob_name).

Definition delete_blob (s : BlobService) (p : CloudProvider) (blob_name : string) : option BlobService :=
  st ← stores s p; Some {| aws := store_delete st blob_name |}.

Definition list_blobs (s : BlobService) (p : CloudProvider) (pre : string) : option (list string) :=
  st ← stores s p; Some (store_list st pre).

Inductive Op := Upload (req : UploadRequest) | Delete (p : CloudProvider) (blob : string).

Definition step (s : BlobService) (o : Op) : option BlobService :=
  match o with Upload req => upload s req | Delete p blob => delete_blob s p blob end.

(** The path last uploaded to a blob, if it was not deleted since. *)
Definition note (blob : string) (x : option string) (o : Op) : option string :=
  match o with
  | Upload req => if negb (async req) && bool_decide (destinationBlob req = blob) then Some (sourcePath req) else x
  | Delete _ b => if decide (b = blob) then None else x
  end.

Definition on_aws (o : Op) : Prop := match o with Upload req => provider req = AWS | Delete p _ => p = AWS end.

Lemma step_note s o blob : on_aws o → ∃ s', step s o = Some s' ∧ aws s' !! blob = note blob (aws s !! blob) o.
Proof.
  intros Ho. destruct o as [req|p b]; simpl in *; unfold upload, delete_blob; rewrite ?Ho; simpl.
  - destruct (async req); simpl; [by exists s|]. eexists. split; [done|]. simpl. unfold store_upload.
    case_bool_decide as E; [by rewrite E, lookup_insert_eq|by rewrite lookup_insert_ne].
  - eexists. split; [done|]. simpl. unfold store_delete. destruct (decide (b = blob)) as [->|]; [by rewrite lookup_delete_eq|by rewrite lookup_delete_ne].
Qed.

(** The service for AWS is a map from blobs to paths: [download] returns the path that was
    last uploaded and not deleted, or the empty string, and [list] the blobs that start with
    the prefix.  An asynchronous upload stores nothing. *)
Theorem blob_service_is_map (ops : list Op) :
  Forall on_aws ops →
  ∃ s, run_ops step BlobService_make ops = Some s ∧
    (∀ blob, download s AWS blob = Some (default EmptyString (fold_left (note blob) ops None))) ∧
    ∀ pre, ∃ names, list_blobs s AWS pre = Some names ∧ NoDup names ∧
      ∀ blob, blob ∈ names ↔ is_Some (fold_left (note blob) ops None) ∧ String.prefix pre blob = true.
Proof.
  intros Hall. assert (∃ s, run_ops step BlobService_make ops = Some s ∧ ∀ blob, aws s !! blob = fold_left (note blob) ops None) as (s & Hr & Hs).
  { enough (∀ s0, ∃ s, run_ops step s0 ops = Some s ∧ ∀ blob, aws s !! blob = fold_left (note blob) ops (aws s0 !! blob)) as H by apply H.
    induction Hall as [|o ops Ho _ IH]; intros s0; [by exists s0|]. cbn [run_ops fold_left].
    destruct (step_note s0 o EmptyString Ho) as (s1 & E & _). rewrite E. cbn [mbind option_bind]. destruct (IH s1) as (s & -> & Hs).
    exists s. split; [done|]. intros blob. rewrite Hs. destruct (step_note s0 o blob Ho) as (s1' & E' & En). rewrite E in E'. simplify_eq. by rewrite En. }
  exists s. split_and!; [done| |].
  - intros blob. unfold download, store_download. simpl. by rewrite Hs.
  - intros pre. eexists. split; [done|]. split; [apply NoDup_filter, NoDup_fst_map_to_list|]. intros blob.
    unfold store_list. rewrite list_elem_of_filter, list_elem_of_fmap, <-Hs. unfold starts_with. split.
    + intros (Hp & [b x] & -> & Hin%elem_of_map_to_list). simpl in *. by rewrite Hin.
    + intros ([x Hx] & Hp). split; [done|]. exists (blob, x). split; [done|]. by apply elem_of_map_to_list.
Qed.

(** Another provider: the null pointer is dereferenced. *)
Lemma other_provider_undefined :
  upload BlobService_make {| provider := AZURE; sourcePath := "f"; destinationBlob := "b"; async := false |} = None.
Proof. reflexivity. Qed.
End Blobs.
