(* ===== verification/Frameworks.v ===== *)
(** * Frameworks of strategies

    [src/oop-framework/RateLimiter_Framework.cpp]: token and leaky buckets behind one
    interface; [src/oop-framework/CloudTiering_LifecyclePolicyManager.cpp]: snapshots moved
    by a provider, with retries; [src/oop-framework/ReplicationFramework.cpp]: writes to the
    replicas that are alive; [src/oop-framework/TransactionManager.cpp]: a table of
    transaction objects.

    An abstract class is a type class; what its users rely on is a class of laws, and the
    theorems about the services hold for every implementation that has them. *)
From S2P Require Import Prelude.
Local Open Scope Z_scope.

(** ** Rate limiting *)

(** [RateLimiterStrategy]: [allowRequest] and [onTimer]. *)
Class RateLimiterStrategy (S : Type) := {
  allowRequest : S → string → option (S * bool);
  onTimer : S → S
}.

(** A strategy gives every client a credit: a request is allowed if there is some and
    uses up one; the timer adds at most [gain]. *)
Class StrategyLaws (S : Type) `{RateLimiterStrategy S} := {
  ok : S → Prop;
  credit : S → string → Z;
  gain : S → Z;
  credit_nonneg s c : ok s → 0 ≤ credit s c;
  allow_spec s c : ok s → ∃ s', allowRequest s c = Some (s', bool_decide (0 < credit s c)) ∧ ok s' ∧ gain s' = gain s ∧
    ∀ c', credit s' c' = credit s c' - if decide (c' = c ∧ 0 < credit s c) then 1 else 0;
  timer_spec s : ok s → ok (onTimer s) ∧ gain (onTimer s) = gain s ∧
    ∀ c, credit s c ≤ credit (onTimer s) c ≤ credit s c + gain s
}.

(** *** The token bucket *)

Record TokenBucket := { tokens : gmap string Z; tb_capacity : Z }.

Definition TokenBucket_make (cap : Z) : TokenBucket := {| tokens := ∅; tb_capacity := cap |}.

Definition token_allow (b : TokenBucket) (client : string) : option (TokenBucket * bool) :=
  let ts := match tokens b !! client with None => <[client := tb_capacity b]> (tokens b) | Some _ => tokens b end in
  let n := default 0 (ts !! client) in
  if n =? 0 then Some ({| tokens := ts; tb_capacity := tb_capacity b |}, false)
  else n' ← checked (n - 1); Some ({| tokens := <[client := n']> ts; tb_capacity := tb_capacity b |}, true).

Definition token_timer (b : TokenBucket) : TokenBucket :=
  {| tokens := (λ _, tb_capacity b) <$> tokens b; tb_capacity := tb_capacity b |}.

#[export] Instance TokenBucket_strategy : RateLimiterStrategy TokenBucket := {| allowRequest := token_allow; onTimer := token_timer |}.

(** *** The leaky bucket *)

Record LeakyBucket := { per_client_queue : gmap string Z; lb_capacity : Z }.

Definition LeakyBucket_make (cap : Z) : LeakyBucket := {| per_client_queue := ∅; lb_capacity := cap |}.

(** [per_client_queue\[client\]] is zero for a new client. *)
Definition leaky_allow (b : LeakyBucket) (client : string) : option (LeakyBucket * bool) :=
  let n := default 0 (per_client_queue b !! client) in
  if n =? lb_capacity b then Some ({| per_client_queue := <[client := n]> (per_client_queue b); lb_capacity := lb_capacity b |}, false)
  else n' ← checked (n + 1); Some ({| per_client_queue := <[client := n']> (per_client_queue b); lb_capacity := lb_capacity b |}, true).

Definition leaky_timer (b : LeakyBucket) : LeakyBucket :=
  {| per_client_queue := (λ pending, if 0 <? pending then pending - 1 else pending) <$> per_client_queue b;
     lb_capacity := lb_capacity b |}.

#[export] Instance LeakyBucket_strategy : RateLimiterStrategy LeakyBucket := {| allowRequest := leaky_allow; onTimer := leaky_timer |}.

(** *** Both have the laws *)

Definition token_ok (b : TokenBucket) : Prop :=
  0 ≤ tb_capacity b ≤ INT_MAX ∧ ∀ c n, tokens b !! c = Some n → 0 ≤ n ≤ tb_capacity b.

Definition token_credit (b : TokenBucket) (c : string) : Z := default (tb_capacity b) (tokens b !! c).

Lemma token_credit_bound b c : token_ok b → 0 ≤ token_credit b c ≤ tb_capacity b.
Proof.
  intros [Hc Ht]. unfold token_credit. destruct (tokens b !! c) as [n|] eqn:E; simpl; [by eapply Ht|lia].
Qed.

Lemma token_allow_spec b c :
  token_ok b → ∃ b', token_allow b c = Some (b', bool_decide (0 < token_credit b c)) ∧ token_ok b' ∧ tb_capacity b' = tb_capacity b ∧
    ∀ c', token_credit b' c' = token_credit b c' - if decide (c' = c ∧ 0 < token_credit b c) then 1 else 0.
Proof.
  intros Hok. pose proof (token_credit_bound b c Hok) as Hb. destruct Hok as [Hcap Ht]. unfold token_allow.
  set (ts := match tokens b !! c with None => <[c := tb_capacity b]> (tokens b) | Some _ => tokens b end).
  assert (ts !! c = Some (token_credit b c)) as Hts.
  { unfold ts, token_credit. destruct (tokens b !! c) eqn:E; simpl; [done|apply lookup_insert_eq]. }
  assert (∀ c', c' ≠ c → ts !! c' = tokens b !! c') as Hne.
  { intros c' Hc'. unfold ts. destruct (tokens b !! c); [done|by rewrite lookup_insert_ne]. }
  rewrite Hts. simpl. assert (∀ c' n, ts !! c' = Some n → 0 ≤ n ≤ tb_capacity b) as Hts'.
  { intros c' n Hn. destruct (decide (c' = c)) as [->|]; [rewrite Hts in Hn; simplify_eq; lia|]. rewrite Hne in Hn by done. by eapply Ht. }
  destruct (Z.eqb_spec (token_credit b c) 0) as [E|E].
  - rewrite bool_decide_eq_false_2 by lia. eexists. split_and!; [done|done|done|]. intros c'. unfold token_credit at 1. simpl.
    rewrite decide_False by (rewrite E; lia). destruct (decide (c' = c)) as [->|Hc']; [rewrite Hts; simpl; lia|rewrite Hne by done]. unfold token_credit. lia.
  - rewrite checked_ok by int_bounds. rewrite bool_decide_eq_true_2 by lia. eexists. split_and!; [done|split; [done|]|done|].
    + simpl. intros c' n. rewrite lookup_insert_Some. intros [[<- <-]|[? Hn]]; [lia|by eapply Hts'].
    + intros c'. unfold token_credit at 1. simpl. destruct (decide (c' = c)) as [->|Hc'].
      * rewrite lookup_insert_eq, decide_True by (split; [done|lia]). done.
      * rewrite lookup_insert_ne, Hne, decide_False by naive_solver. unfold token_credit. lia.
Qed.

#[export, refine] Instance TokenBucket_laws : StrategyLaws TokenBucket := {| ok := token_ok; credit := token_credit; gain := tb_capacity |}.
Proof.
  - intros b c Hok. by apply token_credit_bound.
  - intros b c Hok. destruct (token_allow_spec b c Hok) as (b' & ? & ? & ? & ?). by exists b'.
  - intros b Hok. pose proof (λ c, token_credit_bound b c Hok) as Hb. destruct Hok as [Hcap Ht]. split_and!.
    + split; [done|]. simpl. intros c n. rewrite lookup_fmap_Some. intros (x & <- & _). lia.
    + done.
    + intros c. specialize (Hb c). unfold token_credit in *. simpl. rewrite lookup_fmap. destruct (tokens b !! c); simpl in *; lia.
Defined.

Definition leaky_ok (b : LeakyBucket) : Prop :=
  0 ≤ lb_capacity b ≤ INT_MAX ∧ ∀ c n, per_client_queue b !! c = Some n → 0 ≤ n ≤ lb_capacity b.

Definition leaky_credit (b : LeakyBucket) (c : string) : Z := lb_capacity b - default 0 (per_client_queue b !! c).

Lemma leaky_credit_bound b c : leaky_ok b → 0 ≤ leaky_credit b c ≤ lb_capacity b.
Proof.
  intros [Hc Ht]. unfold leaky_credit. destruct (per_client_queue b !! c) as [n|] eqn:E; simpl; [apply Ht in E; lia|lia].
Qed.

Lemma leaky_allow_spec b c :
  leaky_ok b → ∃ b', leaky_allow b c = Some (b', bool_decide (0 < leaky_credit b c)) ∧ leaky_ok b' ∧
    ∀ c', leaky_credit b' c' = leaky_credit b c' - if decide (c' = c ∧ 0 < leaky_credit b c) then 1 else 0.
Proof.
  intros Hok. pose proof (leaky_credit_bound b c Hok) as Hb. destruct Hok as [Hcap Ht]. unfold leaky_allow.
  assert (default 0 (per_client_queue b !! c) = lb_capacity b - leaky_credit b c) as -> by (unfold leaky_credit; lia).
  destruct (Z.eqb_spec (lb_capacity b - leaky_credit b c) (lb_capacity b)) as [E|E].
  - rewrite bool_decide_eq_false_2 by lia. eexists. split_and!; [done|split; [done|]|].
    + simpl. intros c' n. rewrite lookup_insert_Some. intros [[<- <-]|[? Hn]]; [lia|by eapply Ht].
    + intros c'. rewrite decide_False by lia. unfold leaky_credit at 1. simpl. destruct (decide (c' = c)) as [->|Hc'].
      * rewrite lookup_insert_eq. simpl. lia.
      * rewrite lookup_insert_ne by done. unfold leaky_credit. lia.
  - rewrite checked_ok by int_bounds. rewrite bool_decide_eq_true_2 by lia. eexists. split_and!; [done|split; [done|]|].
    + simpl. intros c' n. rewrite lookup_insert_Some. intros [[<- <-]|[? Hn]]; [lia|by eapply Ht].
    + intros c'. unfold leaky_credit at 1. simpl. destruct (decide (c' = c)) as [->|Hc'].
      * rewrite lookup_insert_eq, decide_True by (split; [done|lia]). simpl. lia.
      * rewrite lookup_insert_ne, decide_False by naive_solver. unfold leaky_credit. lia.
Qed.

#[export, refine] Instance LeakyBucket_laws : StrategyLaws LeakyBucket := {| ok := leaky_ok; credit := leaky_credit; gain := λ _, 1 |}.
Proof.
  - intros b c Hok. by apply leaky_credit_bound.
  - intros b c Hok. destruct (leaky_allow_spec b c Hok) as (b' & ? & ? & ?). by exists b'.
  - intros b Hok. destruct Hok as [Hcap Ht]. split_and!.
    + split; [done|]. simpl. intros c n. rewrite lookup_fmap_Some. intros (x & <- & Hx). apply Ht in Hx. destruct (Z.ltb_spec 0 x); lia.
    + done.
    + intros c. unfold leaky_credit. simpl. rewrite lookup_fmap. destruct (per_client_queue b !! c) as [n|] eqn:E; simpl; [|lia].
      destruct (Z.ltb_spec 0 n); lia.
Defined.

(** *** The service *)

Inductive Req := Request (client : string) | Timer.

#[export] Instance Req_eq_dec : EqDecision Req.
Proof. solve_decision. Defined.

Section service.
Context {S : Type} `{StrategyLaws S}.

(** [RateLimiterService]: a call, and what it answers. *)
Definition service_step (s : S) (r : Req) : option (S * bool) :=
  match r with Request client => allowRequest s client | Timer => Some (onTimer s, false) end.

Definition is_request (c : string) (r : Req) : bool := match r with Request c' => bool_decide (c' = c) | Timer => false end.

Definition requests (c : string) (rs : list Req) : Z := length (filter (λ r, is_request c r = true) rs).

Definition timers (rs : list Req) : Z := length (filter (λ r, r = Timer) rs).

(** The requests of a client that were allowed. *)
Definition allowed (c : string) (rs : list Req) (answers : list bool) : Z :=
  length (filter (λ x, is_request c x.1 = true ∧ x.2 = true) (zip rs answers)).

Lemma allowed_cons c r rs b bs : allowed c (r :: rs) (b :: bs) = (if is_request c r && b then 1 else 0) + allowed c rs bs.
Proof.
  unfold allowed. cbn [zip zip_with]. rewrite filter_cons. cbn [fst snd]. destruct (is_request c r), b; case_decide; simpl length; naive_solver lia.
Qed.

Lemma requests_cons c r rs : requests c (r :: rs) = (if is_request c r then 1 else 0) + requests c rs.
Proof. unfold requests. rewrite filter_cons. destruct (is_request c r); case_decide; simpl length; naive_solver lia. Qed.

Lemma timers_cons r rs : timers (r :: rs) = (if decide (r = Timer) then 1 else 0) + timers rs.
Proof. unfold timers. rewrite filter_cons. case_decide; simpl length; lia. Qed.

Lemma service_run s rs c :
  ok s → ∃ s' answers, run_out service_step s rs = Some (s', answers) ∧ ok s' ∧
    allowed c rs answers ≤ credit s c + gain s * timers rs ∧ Z.min (requests c rs) (credit s c) ≤ allowed c rs answers.
Proof.
  revert s. induction rs as [|r rs IH]; intros s Hok.
  { pose proof (credit_nonneg s c Hok). exists s, []. split_and!; [done|done|unfold allowed, timers; simpl; lia|unfold requests, allowed; simpl; lia]. }
  pose proof (credit_nonneg s c Hok) as Hnn. assert (0 ≤ requests c rs) as Hrn by (unfold requests; lia). cbn [run_out]. rewrite requests_cons, timers_cons. destruct r as [client|]; cbn [service_step is_request].
  - destruct (allow_spec s client Hok) as (s1 & -> & Hok1 & Hg & Hcr). specialize (Hcr c). cbn [mbind option_bind].
    destruct (IH s1 Hok1) as (s' & answers & -> & Hok' & Hle & Hge). cbn [mbind option_bind]. rewrite Hg in Hle.
    exists s', (bool_decide (0 < credit s client) :: answers). rewrite allowed_cons. cbn [is_request]. rewrite (decide_False (P := Request client = Timer)) by done.
    destruct (decide (client = c)) as [->|Hne].
    + rewrite (bool_decide_eq_true_2 (c = c)) by done. cbn [andb]. case_bool_decide as Hpos.
      * rewrite decide_True in Hcr by done. split_and!; [done|done|lia|lia].
      * rewrite decide_False in Hcr by naive_solver. split_and!; [done|done|lia|lia].
    + rewrite (bool_decide_eq_false_2 (client = c)) by done. cbn [andb]. rewrite decide_False in Hcr by naive_solver. split_and!; [done|done|lia|lia].
  - destruct (timer_spec s Hok) as (Hok1 & Hg & Hcr). specialize (Hcr c). cbn [mbind option_bind].
    destruct (IH (onTimer s) Hok1) as (s' & answers & -> & Hok' & Hle & Hge). cbn [mbind option_bind]. rewrite Hg in Hle.
    exists s', (false :: answers). rewrite allowed_cons. cbn [is_request andb]. rewrite decide_True by done. split_and!; [done|done|lia|lia].
Qed.
End service.

(** The rate limiters limit, and only that.  For any history of requests and timer
    ticks, and every client: a token bucket allows at most [cap] requests per timer period,
    a leaky bucket at most [cap] plus one per tick; and both allow the first [cap] requests
    of a client, so nobody is refused early or for the requests of others. *)
Theorem rate_strategies_limit (cap : Z) (rs : list Req) (c : string) :
  0 ≤ cap ≤ INT_MAX →
  (∃ s answers, run_out (service_step (S := TokenBucket)) (TokenBucket_make cap) rs = Some (s, answers) ∧
    Z.min (requests c rs) cap ≤ allowed c rs answers ≤ cap * (timers rs + 1)) ∧
  (∃ s answers, run_out (service_step (S := LeakyBucket)) (LeakyBucket_make cap) rs = Some (s, answers) ∧
    Z.min (requests c rs) cap ≤ allowed c rs answers ≤ cap + timers rs).
Proof.
  intros Hcap. split.
  - destruct (service_run (TokenBucket_make cap) rs c) as (s & answers & E & _ & Hle & Hge); [by split|].
    exists s, answers. split; [done|].
    change (credit (TokenBucket_make cap) c) with cap in *. change (gain (TokenBucket_make cap)) with cap in *. nia.
  - destruct (service_run (LeakyBucket_make cap) rs c) as (s & answers & E & _ & Hle & Hge); [by split|].
    exists s, answers. split; [done|].
    change (credit (LeakyBucket_make cap) c) with (cap - 0) in *. change (gain (LeakyBucket_make cap)) with 1 in *. lia.
Qed.

Lemma rate_strategies_limit_witness :
  0 ≤ 2 ≤ INT_MAX ∧
  ∃ s answers, run_out (service_step (S := TokenBucket)) (TokenBucket_make 2)
    [Request "a"; Request "a"; Request "a"; Timer; Request "a"]%string = Some (s, answers) ∧
    allowed "a" [Request "a"; Request "a"; Request "a"; Timer; Request "a"]%string answers ≤ 4.
Proof.
  split; [unfold INT_MAX; lia|].
  destruct (rate_strategies_limit 2 [Request "a"; Request "a"; Request "a"; Timer; Request "a"]%string "a") as [(s & answers & E & _ & Hle) _];
    [unfold INT_MAX; lia|].
  exists s, answers. split; [exact E|]. unfold timers in Hle. simpl in Hle. lia.
Defined.

(** A negative capacity is never equal to zero tokens: every request is allowed. *)
Lemma negative_capacity_allows :
  snd <$> run_out (service_step (S := TokenBucket)) (TokenBucket_make (-1)) [Request "a"; Request "a"; Request "a"]%string = Some [true; true; true].
Proof. reflexivity. Qed.

(** ** Lifecycle policies *)

Module Tiering.

Record Snapshot := { id : string; age : Z; currentTier : string }.

Definition setTier (s : Snapshot) (tier : string) : Snapshot := {| id := id s; age := age s; currentTier := tier |}.

(** [CloudProvider::move]: whether the move succeeded, and the snapshot; [n] is the number of
    moves the provider was asked for before. *)
Class CloudProvider := move : nat → Snapshot → Snapshot * bool.

(** The providers of the program always succeed. *)
Definition AWS : CloudProvider := λ _ s, (setTier s "AWS Glacier", true).
Definition Azure : CloudProvider := λ _ s, (setTier s "Azure Archive", true).
Definition GCP : CloudProvider := λ _ s, (setTier s "GCP Archive", true).

(** [AgePolicy::shouldMove] *)
Definition shouldMove (thresholdDays : Z) (s : Snapshot) : bool := thresholdDays <? age s.

Section retry.
Context `{CloudProvider}.

(** The loop of [RetryPolicy::execute] with [todo] attempts to go; the seconds slept are
    recorded.  [delay *= 2] is [int] arithmetic. *)
Fixpoint retry_loop (todo attempt : nat) (delay : Z) (s : Snapshot) (slept : list Z) : option (Snapshot * bool * list Z) :=
  match todo with
  | O => Some (s, false, slept)
  | S todo =>
      let '(s, success) := move attempt s in
      if success then Some (s, true, slept)
      else delay' ← checked (delay * 2); retry_loop todo (S attempt) delay' s (slept ++ [delay])
  end.

Definition execute (maxRetries : nat) (s : Snapshot) : option (Snapshot * bool * list Z) := retry_loop maxRetries 0 1 s [].

(** [PolicyManager::evaluate], with the default of three attempts. *)
Definition evaluate (thresholdDays : Z) (s : Snapshot) : option Snapshot :=
  if shouldMove thresholdDays s then '(s, _, _) ← execute 3 s; Some s else Some s.

(** The snapshot after [n] attempts that failed. *)
Fixpoint after (attempt n : nat) (s : Snapshot) : Snapshot :=
  match n with O => s | S n => after (S attempt) n (move attempt s).1 end.

Fixpoint all_fail (attempt n : nat) (s : Snapshot) : Prop :=
  match n with O => True | S n => (move attempt s).2 = false ∧ all_fail (S attempt) n (move attempt s).1 end.

Lemma retry_loop_spec n attempt k s slept :
  (n + k ≤ 30)%nat →
  ∃ s' b m, retry_loop n attempt (2 ^ Z.of_nat k) s slept = Some (s', b, slept ++ ((λ i, 2 ^ Z.of_nat i) <$> seq k m)) ∧
    all_fail attempt m s ∧
    if b then (m < n)%nat ∧ (move (attempt + m) (after attempt m s)) = (s', true) else m = n ∧ s' = after attempt n s.
Proof.
  revert attempt k s slept. induction n as [|n IH]; intros attempt k s slept Hk.
  { exists s, false, 0%nat. simpl. by rewrite app_nil_r. }
  cbn [retry_loop]. destruct (move attempt s) as [s1 b] eqn:Em. destruct b.
  { exists s1, true, 0%nat. simpl. rewrite app_nil_r, Nat.add_0_r. split_and!; [done|done|lia|done]. }
  assert (2 ^ Z.of_nat k * 2 = 2 ^ Z.of_nat (S k)) as E2 by (rewrite Nat2Z.inj_succ, Z.pow_succ_r by lia; lia).
  rewrite E2, checked_ok.
  2: { assert (2 ^ Z.of_nat (S k) ≤ 2 ^ 30) by (apply Z.pow_le_mono_r; lia). assert (0 ≤ 2 ^ Z.of_nat (S k)) by (apply Z.pow_nonneg; lia).
       change (2 ^ 30) with 1073741824 in *. int_bounds. }
  cbn [mbind option_bind].
  destruct (IH (S attempt) (S k) s1 (slept ++ [2 ^ Z.of_nat k])) as (s' & b & m & -> & Hf & Hb); [lia|].
  exists s', b, (S m). cbn [all_fail after seq]. rewrite Em. cbn [fst snd]. rewrite <-(assoc_L (++)), fmap_cons. split_and!; [done..|].
  destruct b; [|naive_solver]. rewrite Nat.add_succ_r. split; [lia|naive_solver].
Qed.

(** Up to [maxRetries] attempts (at most 30), each after twice the time of the one before:
    the first that succeeds ends the loop, and if none does the answer is false after all
    of them. *)
Theorem retry_policy (maxRetries : nat) (s : Snapshot) :
  (maxRetries ≤ 30)%nat →
  ∃ s' b m, execute maxRetries s = Some (s', b, (λ i, 2 ^ Z.of_nat i) <$> seq 0 m) ∧ all_fail 0 m s ∧
    if b then (m < maxRetries)%nat ∧ move m (after 0 m s) = (s', true) else m = maxRetries ∧ s' = after 0 maxRetries s.
Proof. intros Hm. destruct (retry_loop_spec maxRetries 0 0 s []) as (s' & b & m & E & Hf & Hb); [lia|]. by exists s', b, m. Qed.
End retry.

(** With the providers of the program, old snapshots move on the first attempt and the
    others stay where they are. *)
Lemma evaluate_moves_old (threshold : Z) (s : Snapshot) :
  evaluate (H := AWS) threshold s = Some (if threshold <? age s then setTier s "AWS Glacier" else s) ∧
  evaluate (H := Azure) threshold s = Some (if threshold <? age s then setTier s "Azure Archive" else s) ∧
  evaluate (H := GCP) threshold s = Some (if threshold <? age s then setTier s "GCP Archive" else s).
Proof. unfold evaluate, shouldMove. by destruct (threshold <? age s). Qed.
End Tiering.

(** ** Replicas *)

Module Replication.

Record Replica := { replica_id : Z; alive : bool; written : list string }.

Definition write (r : Replica) (data : string) : Replica :=
  {| replica_id := replica_id r; alive := alive r; written := written r ++ [data] |}.

Definition Replica_make (id : Z) : Replica := {| replica_id := id; alive := true; written := [] |}.

Definition setAlive (r : Replica) (status : bool) : Replica := {| replica_id := replica_id r; alive := status; written := written r |}.

(** [ReplicationStrategy] *)
Class ReplicationStrategy := replicate : list Replica → string → list Replica.

(** [SyncReplication] and [AsyncReplication] write to the replicas that are alive, the
    second after printing. *)
Definition sync_replicate (rs : list Replica) (data : string) : list Replica :=
  (λ r, if alive r then write r data else r) <$> rs.
Definition async_replicate (rs : list Replica) (data : string) : list Replica :=
  (λ r, if alive r then write r data else r) <$> rs.

(** What happens to a service: [addReplica], [replicate], and a replica that fails or comes
    back. *)
Inductive Op := Add (id : Z) | Write (data : string) | SetAlive (i : nat) (status : bool).

Definition service_step `{ReplicationStrategy} (rs : list Replica) (o : Op) : list Replica :=
  match o with
  | Add id => rs ++ [Replica_make id]
  | Write data => replicate rs data
  | SetAlive i status => alter (λ r, setAlive r status) i rs
  end.

(** The writes made while replica [i] was alive. *)
Definition seen (i : nat) (x : bool * list string) (o : Op) : bool * list string :=
  match o with
  | Add _ => x
  | Write data => (x.1, if x.1 then x.2 ++ [data] else x.2)
  | SetAlive j status => if decide (j = i) then (status, x.2) else x
  end.

Lemma service_step_seen (strategy : ReplicationStrategy) rs o i r :
  strategy = sync_replicate ∨ strategy = async_replicate → rs !! i = Some r →
  ∃ r', service_step rs o !! i = Some r' ∧ (alive r', written r') = seen i (alive r, written r) o.
Proof.
  intros Hs Hr. destruct o as [id|data|j status]; simpl.
  - exists r. split; [by apply lookup_app_l_Some|done].
  - assert (replicate rs data = sync_replicate rs data) as -> by (by destruct Hs as [->| ->]).
    unfold sync_replicate. rewrite list_lookup_fmap, Hr. simpl. eexists. split; [done|]. by destruct (alive r) eqn:E; simpl; rewrite ?E.
  - destruct (decide (j = i)) as [->|Hne]; [rewrite list_lookup_alter_eq, Hr|rewrite list_lookup_alter_ne, Hr by done]; by eexists.
Qed.

(** A replica has the writes made while it was alive, in order, under either strategy: what
    it missed while it was dead is not repaired. *)
Theorem replica_contents (strategy : ReplicationStrategy) (rs : list Replica) (ops : list Op) (i : nat) (r : Replica) :
  strategy = sync_replicate ∨ strategy = async_replicate → rs !! i = Some r →
  ∃ r', fold_left service_step ops rs !! i = Some r' ∧ (alive r', written r') = fold_left (seen i) ops (alive r, written r).
Proof.
  intros Hs. revert rs r. induction ops as [|o ops IH]; intros rs r Hr; [by exists r|]. cbn [fold_left].
  destruct (service_step_seen strategy rs o i r Hs Hr) as (r1 & E1 & E2). rewrite <-E2. by apply IH.
Qed.
End Replication.

(** ** Transaction objects *)

Module TxnObjects.

Inductive State := ACTIVE | COMMITTED | ABORTED.

#[global] Instance State_eq_dec : EqDecision State.
Proof. solve_decision. Defined.

(** The manager owns the objects: an identifier in the table is an object on the heap,
    [delete] takes it away.  [decided] records how transactions ended. *)
Record TransactionManager := { transactions : gmap Z nat; heap : gmap nat State; next : nat; decided : list (Z * State) }.

Definition TransactionManager_make : TransactionManager := {| transactions := ∅; heap := ∅; next := 0; decided := [] |}.

(** [Transaction::commit] and [Transaction::rollback]. *)
Definition txn_end (final : State) (st : State) : State := if decide (st = ACTIVE) then final else st.

Definition begin (m : TransactionManager) (txn_id : Z) : TransactionManager * nat :=
  match transactions m !! txn_id with
  | Some a => (m, a)
  | None =>
      ({| transactions := <[txn_id := next m]> (transactions m); heap := <[next m := ACTIVE]> (heap m); next := S (next m);
          decided := decided m |}, next m)
  end.

(** [commit] and [rollback]: the object decides, and is deleted; [None] is a dangling
    pointer. *)
Definition finish (final : State) (m : TransactionManager) (txn_id : Z) : option TransactionManager :=
  match transactions m !! txn_id with
  | None => Some m
  | Some a =>
      st ← heap m !! a;
      Some {| transactions := delete txn_id (transactions m); heap := delete a (heap m); next := next m;
              decided := decided m ++ [(txn_id, txn_end final st)] |}
  end.

Definition commit : TransactionManager → Z → option TransactionManager := finish COMMITTED.
Definition rollback : TransactionManager → Z → option TransactionManager := finish ABORTED.

Inductive Op := Begin (id : Z) | Commit (id : Z) | Rollback (id : Z).

Definition step (m : TransactionManager) (o : Op) : option TransactionManager :=
  match o with Begin id => Some (begin m id).1 | Commit id => commit m id | Rollback id => rollback m id end.

(** Which transactions are active, and how those that ended ended. *)
Definition spec_step (x : gset Z * list (Z * State)) (o : Op) : gset Z * list (Z * State) :=
  let '(active, ended) := x in
  match o with
  | Begin id => ({[id]} ∪ active, ended)
  | Commit id => if decide (id ∈ active) then (active ∖ {[id]}, ended ++ [(id, COMMITTED)]) else x
  | Rollback id => if decide (id ∈ active) then (active ∖ {[id]}, ended ++ [(id, ABORTED)]) else x
  end.

Record table_inv (x : gset Z * list (Z * State)) (m : TransactionManager) : Prop := {
  ti_active : dom (transactions m) = x.1;
  ti_decided : decided m = x.2;
  ti_heap id a : transactions m !! id = Some a → heap m !! a = Some ACTIVE ∧ (a < next m)%nat;
  ti_inj id id' a : transactions m !! id = Some a → transactions m !! id' = Some a → id = id';
  ti_owned a : is_Some (heap m !! a) → ∃ id, transactions m !! id = Some a
}.

Lemma finish_inv final x m id :
  table_inv x m → final ≠ ACTIVE →
  ∃ m', finish final m id = Some m' ∧
    table_inv (if decide (id ∈ x.1) then (x.1 ∖ {[id]}, x.2 ++ [(id, final)]) else x) m'.
Proof.
  intros [H1 H2 H3 H4 H5] Hf. unfold finish. destruct (transactions m !! id) as [a|] eqn:Ea.
  - destruct (H3 id a Ea) as [Hh Hlt]. rewrite Hh. cbn [mbind option_bind]. eexists. split; [done|].
    rewrite decide_True by (rewrite <-H1; by apply elem_of_dom_2 in Ea). split; simpl.
    + by rewrite dom_delete_L, H1.
    + rewrite H2. unfold txn_end. by rewrite decide_True.
    + intros id' a' Hl. apply lookup_delete_Some in Hl as [Hne Hl]. destruct (H3 id' a' Hl). rewrite lookup_delete_ne; [done|].
      intros ->. by destruct (H4 id id' a').
    + intros id1 id2 a' Hl1 Hl2. apply lookup_delete_Some in Hl1 as [_ Hl1]. apply lookup_delete_Some in Hl2 as [_ Hl2]. by eapply H4.
    + intros a' [st Hst]. apply lookup_delete_Some in Hst as [Hne Hst]. destruct (H5 a') as [id' Hid']; [by eexists|]. exists id'.
      rewrite lookup_delete_ne; [done|]. intros ->. congruence.
  - exists m. split; [done|]. rewrite decide_False; [by split|]. rewrite <-H1. by apply not_elem_of_dom.
Qed.

Lemma table_step_inv x m o : table_inv x m → ∃ m', step m o = Some m' ∧ table_inv (spec_step x o) m'.
Proof.
  intros Hi. destruct x as [active ended]. destruct o as [id|id|id]; simpl; [|by apply (finish_inv COMMITTED (active, ended))|by apply (finish_inv ABORTED (active, ended))].
  eexists. split; [done|]. destruct Hi as [H1 H2 H3 H4 H5]. simpl in *. unfold begin.
  destruct (transactions m !! id) as [a|] eqn:Ea; simpl.
  - split; try done. simpl. rewrite H1. apply elem_of_dom_2 in Ea. set_solver.
  - assert (∀ id' a, transactions m !! id' = Some a → a ≠ next m) as Hfresh by (intros id' a Ha; destruct (H3 id' a Ha); lia).
    split; simpl.
    + rewrite dom_insert_L. set_solver.
    + done.
    + intros id' a. rewrite lookup_insert_Some. intros [[<- <-]|[? Ha]]; [by rewrite lookup_insert_eq; split; [|lia]|].
      destruct (H3 id' a Ha). rewrite lookup_insert_ne by (by apply not_eq_sym, (Hfresh id')). split; [done|lia].
    + intros id1 id2 a. rewrite !lookup_insert_Some. intros [[<- <-]|[? Ha]] [[<- E]|[? Hb]]; [done|by apply Hfresh in Hb|by apply Hfresh in Ha; subst|by eapply H4].
    + intros a. rewrite lookup_insert_is_Some. intros [<-|[? Ha]]; [exists id; by rewrite lookup_insert_eq|].
      destruct (H5 a Ha) as [id' Hid']. exists id'. rewrite lookup_insert_ne; [done|]. intros ->. congruence.
Qed.

(** The table keeps exactly the active transactions, without leaks or dangling pointers:
    every history is defined, the objects on the heap are those of the transactions begun
    and not ended, all of them ACTIVE, and each transaction ends once, as committed or
    aborted; ending an unknown one changes nothing. *)
Theorem transaction_table_correct (ops : list Op) :
  ∃ m, run_ops step TransactionManager_make ops = Some m ∧
    let '(active, ended) := fold_left spec_step ops (∅, []) in
    dom (transactions m) = active ∧ decided m = ended ∧ (∀ a, is_Some (heap m !! a) ↔ ∃ id, transactions m !! id = Some a) ∧
    ∀ a st, heap m !! a = Some st → st = ACTIVE.
Proof.
  assert (∃ m, run_ops step TransactionManager_make ops = Some m ∧ table_inv (fold_left spec_step ops (∅, [])) m) as (m & Hr & Hi).
  { assert (table_inv (∅, []) TransactionManager_make) as H0.
    { split; simpl; try done. by intros a [? ?]. }
    revert H0. generalize (∅ : gset Z, [] : list (Z * State)) TransactionManager_make. induction ops as [|o ops IH]; intros x m0 H0; [by exists m0|].
    destruct (table_step_inv x m0 o H0) as (m1 & E & H1). simpl. rewrite E. cbn [mbind option_bind]. by apply IH. }
  exists m. split; [done|]. destruct (fold_left spec_step ops (∅, [])) as [active ended]. destruct Hi as [H1 H2 H3 H4 H5]. simpl in *.
  split_and!; [done|done| |].
  - intros a. split; [apply H5|]. intros [id Hid]. destruct (H3 id a Hid). by eexists.
  - intros a st Ha. destruct (H5 a) as [id Hid]; [by eexists|]. destruct (H3 id a Hid) as [Ha' _]. congruence.
Qed.
End TxnObjects.
