(* ===== verification/Workers.v ===== *)
(** * Worker threads over a shared queue

    The shape of the pipelines, crawlers and simulations: a queue under a mutex, one
    condition variable, a flag that asks the threads to stop, and workers that repeat
    [lock; cv.wait(stop || !queue.empty()); if (stop && queue.empty()) return; take; unlock;
    process].  Processing a task is a sequence of steps, each one critical section or one
    piece of output, and a step may put new tasks into the queue.

    A [Program] says how many tasks a worker takes at a time, how it starts, what its steps
    do and what calls from outside do.  Notifications are made after the critical section,
    so that other threads run in between; one made inside it is the special case where none
    does.  A thread that sleeps may wake up spuriously.

    For every program: tasks are taken in order and once; no wake-up is lost, so that when
    nothing can move the queue is empty, nobody is busy and, after a stop, all workers have
    returned (which is what [join] waits for); and if the tasks are bounded so is the number
    of turns.  The programs are in [WorkerPrograms] and [Pipelines]. *)
From S2P Require Import Prelude.
Local Open Scope nat_scope.

(** What a step does after its critical section: one [notify_one] for each task it pushed,
    a [notify_all], or a [notify_all] after it has set the stop flag. *)
Inductive Signal := Each | Everyone | StopEveryone.

Record Outcome (Task K Sh Out : Type) := {
  goes_on : option K;
  leaves : Sh;
  pushes : list Task;
  emits : list Out;
  signal : Signal
}.
Arguments goes_on {Task K Sh Out}.
Arguments leaves {Task K Sh Out}.
Arguments pushes {Task K Sh Out}.
Arguments emits {Task K Sh Out}.
Arguments signal {Task K Sh Out}.
Arguments Build_Outcome {Task K Sh Out}.

(** [K] is what a busy worker still has to do, [Sh] the data that the mutex protects beside
    the queue, [Call] the calls from outside. *)
Record Program (Task K Sh Out Call : Type) := {
  batch : nat;
  start : list Task → Sh → K * Sh;
  step : K → Sh → Outcome Task K Sh Out;
  call : Call → Sh → Sh * list Task * Signal;
  stoppable : bool
}.
Arguments batch {Task K Sh Out Call}.
Arguments start {Task K Sh Out Call}.
Arguments step {Task K Sh Out Call}.
Arguments call {Task K Sh Out Call}.
Arguments stoppable {Task K Sh Out Call}.

(** A worker is about to test the predicate of its wait, sleeps in it, is busy, or has
    returned. *)
Inductive Worker (K : Type) := Checking | Asleep | Busy (k : K) | Returned.
Arguments Checking {K}.
Arguments Asleep {K}.
Arguments Busy {K}.
Arguments Returned {K}.

(** [owed] and [owed_all] count notifications that are still to be made; [called],
    [entered], [taken] and [output] record what happened. *)
Record Pool (Task K Sh Out Call : Type) := {
  queue : list Task;
  stop : bool;
  shared : Sh;
  workers : list (Worker K);
  owed : nat;
  owed_all : nat;
  called : list Call;
  entered : list Task;
  taken : list Task;
  output : list Out
}.
Arguments queue {Task K Sh Out Call}.
Arguments stop {Task K Sh Out Call}.
Arguments shared {Task K Sh Out Call}.
Arguments workers {Task K Sh Out Call}.
Arguments owed {Task K Sh Out Call}.
Arguments owed_all {Task K Sh Out Call}.
Arguments called {Task K Sh Out Call}.
Arguments entered {Task K Sh Out Call}.
Arguments taken {Task K Sh Out Call}.
Arguments output {Task K Sh Out Call}.
Arguments Build_Pool {Task K Sh Out Call}.

Inductive Turn (Call : Type) := Work (t : nat) | Notify (w : nat) | NotifyAll | CallIn (c : Call) | Shutdown.
Arguments Work {Call}.
Arguments Notify {Call}.
Arguments NotifyAll {Call}.
Arguments CallIn {Call}.
Arguments Shutdown {Call}.

Section workers.
Context {Task K Sh Out Call : Type} (P : Program Task K Sh Out Call).
Implicit Types (p : Pool Task K Sh Out Call) (ws : list (Worker K)).

Definition pool_make (numThreads : nat) (sh : Sh) (q : list Task) : Pool Task K Sh Out Call :=
  {| queue := q; stop := false; shared := sh; workers := replicate numThreads Checking; owed := 0; owed_all := 0;
     called := []; entered := q; taken := []; output := [] |}.

Definition stops_now (g : Signal) : bool := match g with StopEveryone => true | _ => false end.
Definition owes_one (g : Signal) (ts : list Task) : nat := match g with Each => length ts | _ => 0 end.
Definition owes_all (g : Signal) : nat := match g with Each => 0 | _ => 1 end.

Definition set_worker p (t : nat) (w : Worker K) : Pool Task K Sh Out Call :=
  {| queue := queue p; stop := stop p; shared := shared p; workers := <[t := w]> (workers p); owed := owed p;
     owed_all := owed_all p; called := called p; entered := entered p; taken := taken p; output := output p |}.

(** A turn of worker [t]: the critical section at the top of its loop, a step of the task it
    is busy with, or a spurious wake-up. *)
Definition work p (t : nat) : Pool Task K Sh Out Call :=
  match workers p !! t with
  | Some Checking =>
      match queue p with
      | [] => set_worker p t (if stop p then Returned else Asleep)
      | q =>
          let '(k, sh) := start P (take (batch P) q) (shared p) in
          {| queue := drop (batch P) q; stop := stop p; shared := sh; workers := <[t := Busy k]> (workers p);
             owed := owed p; owed_all := owed_all p; called := called p; entered := entered p;
             taken := taken p ++ take (batch P) q; output := output p |}
      end
  | Some (Busy k) =>
      let o := step P k (shared p) in
      {| queue := queue p ++ pushes o; stop := stop p || stops_now (signal o); shared := leaves o;
         workers := <[t := match goes_on o with Some k' => Busy k' | None => Checking end]> (workers p);
         owed := owed p + owes_one (signal o) (pushes o); owed_all := owed_all p + owes_all (signal o);
         called := called p; entered := entered p ++ pushes o; taken := taken p; output := output p ++ emits o |}
  | Some Asleep => set_worker p t Checking
  | Some Returned | None => p
  end.

Definition wake (w : Worker K) : Worker K := match w with Asleep => Checking | _ => w end.

Fixpoint wake_first ws : list (Worker K) :=
  match ws with [] => [] | Asleep :: ws => Checking :: ws | w :: ws => w :: wake_first ws end.

(** [cv.notify_one()] wakes worker [w] if it sleeps, else one that does. *)
Definition notify_one p (w : nat) : Pool Task K Sh Out Call :=
  {| queue := queue p; stop := stop p; shared := shared p;
     workers := match workers p !! w with Some Asleep => <[w := Checking]> (workers p) | _ => wake_first (workers p) end;
     owed := pred (owed p); owed_all := owed_all p; called := called p; entered := entered p; taken := taken p;
     output := output p |}.

Definition notify_all p : Pool Task K Sh Out Call :=
  {| queue := queue p; stop := stop p; shared := shared p; workers := wake <$> workers p; owed := owed p;
     owed_all := pred (owed_all p); called := called p; entered := entered p; taken := taken p; output := output p |}.

(** A call from outside, up to the end of its critical section. *)
Definition call_in p (c : Call) : Pool Task K Sh Out Call :=
  let '(sh, ts, g) := call P c (shared p) in
  {| queue := queue p ++ ts; stop := stop p || stops_now g; shared := sh; workers := workers p;
     owed := owed p + owes_one g ts; owed_all := owed_all p + owes_all g; called := called p ++ [c];
     entered := entered p ++ ts; taken := taken p; output := output p |}.

(** The destructor or [shutdown]: the flag under the mutex, then [cv.notify_all()], then it
    joins the workers. *)
Definition shutdown p : Pool Task K Sh Out Call :=
  {| queue := queue p; stop := true; shared := shared p; workers := workers p; owed := owed p;
     owed_all := S (owed_all p); called := called p; entered := entered p; taken := taken p; output := output p |}.

(** Nobody calls in after the stop. *)
Definition turn p (u : Turn Call) : option (Pool Task K Sh Out Call) :=
  match u with
  | Work t => Some (work p t)
  | Notify w => if decide (owed p = 0) then None else Some (notify_one p w)
  | NotifyAll => if decide (owed_all p = 0) then None else Some (notify_all p)
  | CallIn c => if stop p then None else Some (call_in p c)
  | Shutdown => if stop p || negb (stoppable P) then None else Some (shutdown p)
  end.

Definition run p (us : list (Turn Call)) : option (Pool Task K Sh Out Call) := run_ops turn p us.

(** A turn the program makes by itself: not a call, not a spurious wake-up. *)
Definition internal p (u : Turn Call) : bool :=
  match u with
  | Work t => match workers p !! t with Some Checking | Some (Busy _) => true | _ => false end
  | Notify _ => negb (owed p =? 0)
  | NotifyAll => negb (owed_all p =? 0)
  | CallIn _ | Shutdown => false
  end.

Definition internal_step p p' : Prop := ∃ u, internal p u = true ∧ turn p u = Some p'.

(** Nothing can move without a call. *)
Definition quiescent p : Prop := ∀ u, internal p u = false.

(** What each worker is busy with. *)
Definition held (w : Worker K) : option K := match w with Busy k => Some k | _ => None end.

Definition is_awake (w : Worker K) : nat := match w with Checking | Busy _ => 1 | _ => 0 end.

(** Workers that will test their predicate again. *)
Definition awake ws : nat := sum_list_with is_awake ws.

(** ** The queue and the wake-ups *)

Record pool_inv p : Prop := {
  pool_fifo : entered p = taken p ++ queue p;
  pool_wakeups : Asleep ∈ workers p → owed_all p ≠ 0 ∨ length (queue p) ≤ owed p + awake (workers p);
  pool_returned : Returned ∈ workers p → stop p = true;
  pool_stopped : stop p = true → owed_all p = 0 → Asleep ∉ workers p;
  pool_alive : queue p ≠ [] → workers p ≠ [] → Exists (λ w, w ≠ Returned) (workers p)
}.

Lemma workers_wake_first ws :
  ((Asleep ∉ ws) ∧ wake_first ws = ws) ∨ ∃ t, ws !! t = Some Asleep ∧ wake_first ws = <[t := Checking]> ws.
Proof.
  induction ws as [|w ws IH]; [left; split; [set_solver|done]|].
  destruct w; simpl; [|by right; exists 0| |];
    (destruct IH as [[Hn ->]|(t & Ht & ->)]; [left; split; [set_solver|done]|right; by exists (S t)]).
Qed.

(** A notification wakes a sleeper, if there is one. *)
Lemma notify_one_wakes p w :
  ((Asleep ∉ workers p) ∧ workers (notify_one p w) = workers p) ∨
  ∃ t, workers p !! t = Some Asleep ∧ workers (notify_one p w) = <[t := Checking]> (workers p).
Proof. unfold notify_one. simpl. destruct (workers p !! w) as [[]|] eqn:E; try apply workers_wake_first. right. by exists w. Qed.

Lemma Exists_insert_here {A} (Q : A → Prop) (l : list A) t x y : l !! t = Some x → Q y → Exists Q (<[t := y]> l).
Proof.
  intros Ht Hy. apply Exists_exists. exists y. split; [|done]. eapply list_elem_of_lookup_2, list_lookup_insert_eq. by eapply lookup_lt_Some.
Qed.

(** Worker [t] goes from [x] to [y], which is not [Asleep] or [Returned]; [g] says what the
    turn owes. *)
Lemma worker_goes p p' t x y g ts :
  pool_inv p → workers p !! t = Some x → workers p' = <[t := y]> (workers p) → is_awake y = 1 →
  entered p' = taken p' ++ queue p' →
  length (queue p') ≤ length (queue p) + length ts →
  owed p' = owed p + owes_one g ts → owed_all p' = owed_all p + owes_all g → stop p' = stop p || stops_now g →
  pool_inv p'.
Proof.
  intros [Hf Hw Hr Hd Ha] Et Ews Hy He Hlen Eo Eoa Es. pose proof (sum_insert is_awake _ t x y Et) as Hm.
  assert (is_awake x ≤ 1) as Hx by (destruct x; simpl; lia).
  split; rewrite ?Ews, ?Es, ?Eo, ?Eoa.
  - done.
  - intros [<-|Hin]%elem_of_insert_inv; [done|]. unfold awake in *. destruct (Hw Hin) as [?|?]; [left; lia|].
    destruct g; simpl; [right; lia|left; lia|left; lia].
  - intros [<-|Hin]%elem_of_insert_inv; [done|]. by rewrite Hr.
  - intros Hs Hoa [<-|Hin]%elem_of_insert_inv; [done|]. destruct g; simpl in *; try lia. rewrite orb_false_r in Hs. apply Hd; [done|lia|done].
  - intros _ _. eapply Exists_insert_here; [done|]. by intros ->.
Qed.

Lemma work_inv p t : 0 < batch P → pool_inv p → pool_inv (work p t).
Proof.
  intros Hb Hi. unfold work. destruct (workers p !! t) as [w|] eqn:Et; [|done]. destruct w as [| |k|]; [| | |done].
  - destruct (queue p) as [|x q] eqn:EQ.
    + pose proof Hi as [Hf Hw Hr Hd Ha]. split; simpl; rewrite ?EQ in *; try done.
      * intros _. right. simpl. lia.
      * intros [Hx|Hin]%elem_of_insert_inv; [|by apply Hr]. by destruct (stop p).
      * intros Hs Hoa. rewrite Hs. intros [?|Hin]%elem_of_insert_inv; [done|]. by apply Hd.
    + rewrite <-EQ. destruct (start P (take (batch P) (queue p)) (shared p)) as [k sh].
      eapply (worker_goes p _ t Checking (Busy k) Each []); try done; simpl.
      * rewrite <-(assoc_L (++)), take_drop. apply Hi.
      * rewrite length_drop. lia.
      * by rewrite orb_false_r.
  - eapply (worker_goes p _ t Asleep Checking Each []); try done; simpl; try lia; [apply Hi|by rewrite orb_false_r].
  - set (o := step P k (shared p)). eapply (worker_goes p _ t (Busy k) _ (signal o) (pushes o)); try done; simpl.
    + by destruct (goes_on o).
    + rewrite (pool_fifo p Hi). by rewrite (assoc_L (++)).
    + by rewrite length_app.
Qed.

Lemma notify_one_inv p w : pool_inv p → owed p ≠ 0 → pool_inv (notify_one p w).
Proof.
  intros [Hf Hw Hr Hd Ha] Ho. destruct (notify_one_wakes p w) as [[Hn E]|(t & Ht & E)]; split; rewrite ?E; try done.
  - intros [?|Hx]%elem_of_insert_inv; [done|]. pose proof (sum_insert is_awake _ t _ Checking Ht) as Hm. unfold awake in *. simpl in *.
    destruct (Hw Hx); [by left|right; lia].
  - by intros [?|Hx]%elem_of_insert_inv; [done|]; apply Hr.
  - by intros Hst Hoa [?|Hx]%elem_of_insert_inv; [done|]; apply Hd.
  - intros _ _. by eapply Exists_insert_here.
Qed.

Lemma wake_no_sleeper ws : Asleep ∉ wake <$> ws.
Proof. intros (w & Hw & _)%list_elem_of_fmap. by destruct w. Qed.

Lemma notify_everyone_inv p : pool_inv p → pool_inv (notify_all p).
Proof.
  intros [Hf Hw Hr Hd Ha]. split; simpl; try done.
  - by intros ?%wake_no_sleeper.
  - intros (w & Hx & Hin)%list_elem_of_fmap. destruct w; try done. by apply Hr.
  - intros _ _. apply wake_no_sleeper.
  - intros HQ Hn. assert (workers p ≠ []) as Hn' by (by intros E; rewrite E in Hn). specialize (Ha HQ Hn').
    apply Exists_exists in Ha as (w & Hin & Hw'). apply Exists_exists. exists (wake w). split; [by apply list_elem_of_fmap_2|by destruct w].
Qed.

Lemma not_returned p : pool_inv p → stop p = false → workers p ≠ [] → Exists (λ w, w ≠ Returned) (workers p).
Proof.
  intros Hi Hs Hn. destruct (workers p) as [|w ws] eqn:E; [done|]. left. intros ->.
  pose proof (pool_returned p Hi) as Hr. rewrite E in Hr. rewrite Hr in Hs by (by left). done.
Qed.

Lemma call_in_inv p c : pool_inv p → stop p = false → pool_inv (call_in p c).
Proof.
  intros Hi Hs. pose proof (not_returned p Hi Hs) as Hnr. destruct Hi as [Hf Hw Hr Hd Ha].
  unfold call_in. destruct (call P c (shared p)) as [[sh ts] g]. split; simpl; rewrite ?Hs; try done.
  - by rewrite Hf, (assoc_L (++)).
  - intros Hx. rewrite length_app. destruct (Hw Hx); [left; lia|]. destruct g; simpl; [right; lia|left; lia|left; lia].
  - intros Hx. apply Hr in Hx. congruence.
  - intros ? ?. destruct g; simpl in *; (done || lia).
Qed.

Lemma workers_turn_inv p u p' : 0 < batch P → pool_inv p → turn p u = Some p' → pool_inv p'.
Proof.
  intros Hb Hi. destruct u as [t|w| |c|]; simpl; intros Ht.
  - simplify_eq. by apply work_inv.
  - case_decide; simplify_eq. by apply notify_one_inv.
  - case_decide; simplify_eq. by apply notify_everyone_inv.
  - destruct (stop p) eqn:Es; simplify_eq. by apply call_in_inv.
  - destruct (stop p) eqn:Es; [done|]. destruct (stoppable P); simplify_eq/=. pose proof Hi as [Hf Hw Hr Hd Ha].
    split; simpl; try done. intros _. by left.
Qed.

Lemma pool_make_ok n sh q : pool_inv (pool_make n sh q).
Proof.
  split; simpl; try done.
  - intros Hx. by apply elem_of_replicate in Hx as [? _].
  - intros Hx. by apply elem_of_replicate in Hx as [? _].
  - intros _ Hn. destruct n; [done|]. by left.
Qed.

Lemma workers_quiescent p :
  pool_inv p → workers p ≠ [] → quiescent p →
  queue p = [] ∧ taken p = entered p ∧ Forall (λ w, w = if stop p then Returned else Asleep) (workers p).
Proof.
  intros [Hf Hw Hr Hd Ha] Hn Hq.
  assert (owed p = 0) as Eo by (pose proof (Hq (Notify 0)) as H; simpl in H; destruct (owed p); done).
  assert (owed_all p = 0) as Ea by (pose proof (Hq NotifyAll) as H; simpl in H; destruct (owed_all p); done).
  assert (∀ w, w ∈ workers p → w = Asleep ∨ w = Returned) as Hws.
  { intros w [t Ht]%list_elem_of_lookup. pose proof (Hq (Work t)) as H. simpl in H. rewrite Ht in H. destruct w; auto; done. }
  assert (awake (workers p) = 0) as Eaw.
  { unfold awake. clear -Hws. induction (workers p) as [|w ws IH]; [done|]. simpl. rewrite IH by set_solver.
    by destruct (Hws w ltac:(set_solver)) as [-> | ->]. }
  assert (queue p = []) as EQ.
  { destruct (decide (queue p = [])) as [|HQ]; [done|]. specialize (Ha HQ Hn). apply Exists_exists in Ha as (w & Hin & Hnr).
    destruct (Hws w Hin) as [-> | ->]; [|done]. apply nil_length_inv. destruct (Hw Hin); lia. }
  rewrite EQ, app_nil_r in Hf. split_and!; [done|done|]. apply Forall_forall. intros w Hin. destruct (Hws w Hin) as [-> | ->].
  - destruct (stop p) eqn:Es; [|done]. by destruct (Hd eq_refl Ea).
  - by rewrite (Hr Hin).
Qed.

Lemma workers_length_turn p u p' : turn p u = Some p' → length (workers p') = length (workers p).
Proof.
  destruct u as [t|w| |c|]; simpl; intros Ht; repeat case_match; simplify_eq; try done.
  - unfold work. repeat case_match; simpl; by rewrite ?length_insert.
  - destruct (notify_one_wakes p w) as [[_ ->]|(t & _ & ->)]; by rewrite ?length_insert.
  - simpl. by rewrite length_fmap.
  - unfold call_in. by destruct (call P c (shared p)) as [[sh ts] g].
Qed.

(** ** Invariants of a program *)

Section invariant.
(** The stop flag, the shared data, the calls, the tasks that entered the queue, those that
    were taken, what the workers are busy with, and the output. *)
Context (I : bool → Sh → list Call → list Task → list Task → list (option K) → list Out → Prop).

(** What a program has to show. *)
Class Invariant := {
  inv_batch : 0 < batch P;
  inv_start st sh cs ts q hs out t k sh' :
    q ≠ [] → I st sh cs (ts ++ q) ts hs out → hs !! t = Some None → start P (take (batch P) q) sh = (k, sh') →
    I st sh' cs (ts ++ q) (ts ++ take (batch P) q) (<[t := Some k]> hs) out;
  inv_step st sh cs es ts hs out t k :
    let o := step P k sh in
    ts `prefix_of` es → I st sh cs es ts hs out → hs !! t = Some (Some k) →
    I (st || stops_now (signal o)) (leaves o) cs (es ++ pushes o) ts (<[t := goes_on o]> hs) (out ++ emits o);
  inv_call sh cs es ts hs out c sh' ts' g :
    I false sh cs es ts hs out → call P c sh = (sh', ts', g) → I (stops_now g) sh' (cs ++ [c]) (es ++ ts') ts hs out;
  inv_shutdown sh cs es ts hs out :
    stoppable P = true → I false sh cs es ts hs out → I true sh cs es ts hs out
}.
Context `{!Invariant}.

Definition holds p : Prop := I (stop p) (shared p) (called p) (entered p) (taken p) (held <$> workers p) (output p).

Lemma held_insert ws t w : held <$> <[t := w]> ws = <[t := held w]> (held <$> ws).
Proof. by rewrite list_fmap_insert. Qed.

Lemma held_same ws t x y : ws !! t = Some x → held x = held y → held <$> <[t := y]> ws = held <$> ws.
Proof. intros Ht E. rewrite held_insert, list_insert_id; [done|]. by rewrite list_lookup_fmap, Ht, <-E. Qed.

Lemma held_lookup ws t x : ws !! t = Some x → (held <$> ws) !! t = Some (held x).
Proof. intros Ht. by rewrite list_lookup_fmap, Ht. Qed.

Lemma held_wake ws : held <$> (wake <$> ws) = held <$> ws.
Proof. rewrite <-list_fmap_compose. apply list_fmap_ext. by intros ? [] ?. Qed.

Lemma work_holds p t : pool_inv p → holds p → holds (work p t).
Proof.
  intros Hi HI. unfold work, holds in *. destruct (workers p !! t) as [w|] eqn:Et; [|done].
  pose proof (held_lookup _ _ _ Et) as Hl. destruct w as [| |k|]; simpl in Hl; [| | |done].
  - destruct (queue p) as [|x q] eqn:EQ; [|rewrite <-EQ].
    + simpl. rewrite (held_same _ t Checking); [done|done|by destruct (stop p)].
    + destruct (start P (take (batch P) (queue p)) (shared p)) as [k sh] eqn:Es. cbn. rewrite held_insert.
      pose proof (pool_fifo p Hi) as Hf. rewrite Hf in *. eapply inv_start; [by rewrite EQ|done|done|done].
  - simpl. by rewrite (held_same _ t Asleep).
  - cbn. rewrite held_insert.
    replace (held match goes_on (step P k (shared p)) with Some k' => Busy k' | None => Checking end) with (goes_on (step P k (shared p)))
      by (by destruct (goes_on (step P k (shared p)))).
    apply inv_step; [|done|done]. rewrite (pool_fifo p Hi). by apply prefix_app_r.
Qed.

Lemma workers_turn_holds p u p' : pool_inv p → holds p → turn p u = Some p' → holds p'.
Proof.
  intros Hi HI. destruct u as [t|w| |c|]; simpl; intros Ht.
  - simplify_eq. by apply work_holds.
  - case_decide; simplify_eq. unfold holds. simpl. change (holds (notify_one p w)). unfold holds.
    destruct (notify_one_wakes p w) as [[_ ->]|(t & Et & ->)]; [done|]. by rewrite (held_same _ t Asleep).
  - case_decide; simplify_eq. unfold holds. simpl. by rewrite held_wake.
  - destruct (stop p) eqn:Es; simplify_eq. unfold holds, call_in in *. rewrite Es in HI.
    destruct (call P c (shared p)) as [[sh ts] g] eqn:Ec. simpl. rewrite Es. by eapply inv_call.
  - destruct (stop p) eqn:Es; [done|]. destruct (stoppable P) eqn:Ep; simplify_eq/=. unfold holds in *. rewrite Es in HI. simpl.
    by apply inv_shutdown.
Qed.

Lemma workers_run n sh q us p :
  I false sh [] q [] (replicate n None) [] → run (pool_make n sh q) us = Some p →
  pool_inv p ∧ holds p ∧ length (workers p) = n.
Proof.
  intros HI Hr. apply (run_ops_preserves turn (λ p, pool_inv p ∧ holds p ∧ length (workers p) = n) (pool_make n sh q) us p); [| |done].
  - intros p1 u p2 (Hi & Hh & Hl) Hu. split_and!; [by eapply workers_turn_inv; [apply inv_batch| |]|by eapply workers_turn_holds|].
    by rewrite (workers_length_turn p1 u).
  - split_and!; [apply pool_make_ok| |simpl; by rewrite length_replicate]. unfold holds. simpl. by rewrite fmap_replicate.
Qed.

(** When nothing can move any more, everything that entered was taken and nobody is busy. *)
Lemma workers_end n sh q us p :
  0 < n → I false sh [] q [] (replicate n None) [] → run (pool_make n sh q) us = Some p → quiescent p →
  I (stop p) (shared p) (called p) (entered p) (entered p) (replicate n None) (output p) ∧
  Forall (λ w, w = if stop p then Returned else Asleep) (workers p).
Proof.
  intros Hn HI Hr Hq. destruct (workers_run n sh q us p HI Hr) as (Hi & Hh & Hl).
  assert (workers p ≠ []) as Hw by (intros E; rewrite E in Hl; simpl in Hl; lia).
  destruct (workers_quiescent p Hi Hw Hq) as (HQ & Ht & Hf). split; [|done]. unfold holds in Hh. rewrite Ht in Hh.
  replace (replicate n None) with (held <$> workers p); [done|]. rewrite <-Hl. clear -Hf.
  induction Hf as [|w ws -> _ IH]; [done|]. csimpl. rewrite IH. by destruct (stop p).
Qed.

(** ** Termination *)

Section termination.
Context (task_weight : Task → nat) (busy_weight : Sh → list (option K) → nat).

(** Starting and every step use up some weight; what is pushed is paid for. *)
Class Ranked := {
  rank_start st sh cs ts q hs out t k sh' :
    q ≠ [] → I st sh cs (ts ++ q) ts hs out → hs !! t = Some None → start P (take (batch P) q) sh = (k, sh') →
    busy_weight sh' (<[t := Some k]> hs) ≤ sum_list_with task_weight (take (batch P) q) + busy_weight sh hs;
  rank_step st sh cs es ts hs out t k :
    let o := step P k sh in
    I st sh cs es ts hs out → hs !! t = Some (Some k) →
    busy_weight (leaves o) (<[t := goes_on o]> hs) + sum_list_with task_weight (pushes o) + length (pushes o) < busy_weight sh hs
}.
Context `{!Ranked}.

Definition mode_weight (w : Worker K) : nat := match w with Checking => 1 | _ => 0 end.

Definition load p : nat := sum_list_with task_weight (queue p) + busy_weight (shared p) (held <$> workers p).

(** The turns a program can make before it has to wait for a call. *)
Definition potential p : nat :=
  (length (workers p) + 5) * load p + 2 * owed p + S (length (workers p)) * owed_all p + sum_list_with mode_weight (workers p).

Lemma workers_decrease p p' : pool_inv p → holds p → internal_step p p' → potential p' < potential p.
Proof.
  intros Hi HI (u & Hu & Ht). destruct u as [t|w| |c|]; simpl in Hu, Ht; try done.
  - simplify_eq. unfold work. destruct (workers p !! t) as [w|] eqn:Et; [|done]. unfold holds in HI.
    pose proof (λ y, sum_insert mode_weight _ t w y Et) as Hm. pose proof (held_lookup _ _ _ Et) as Hl. destruct w as [| |k|]; try done.
    + destruct (queue p) as [|x q] eqn:EQ; [|rewrite <-EQ].
      * unfold potential, load. simpl. rewrite EQ, length_insert, (held_same _ t Checking) by (done || by destruct (stop p)).
        specialize (Hm (if stop p then Returned else Asleep)). destruct (stop p); simpl in *; lia.
      * destruct (start P (take (batch P) (queue p)) (shared p)) as [k sh] eqn:Es. unfold potential, load. cbn.
        rewrite length_insert, held_insert. specialize (Hm (Busy k)). simpl in Hm.
        pose proof (pool_fifo p Hi) as Hf. rewrite Hf in HI. assert (queue p ≠ []) as Hne by (by rewrite EQ).
        pose proof (rank_start _ _ _ _ _ _ _ _ _ _ Hne HI Hl Es) as Hw.
        assert (sum_list_with task_weight (queue p) = sum_list_with task_weight (take (batch P) (queue p)) + sum_list_with task_weight (drop (batch P) (queue p))) as E
          by (by rewrite <-sum_list_with_app, take_drop). rewrite E. cbn [held]. nia.
    + pose proof (rank_step _ _ _ _ _ _ _ _ _ HI Hl) as Hw. cbn zeta in Hw. set (o := step P k (shared p)) in *.
      unfold potential, load. cbn. rewrite length_insert, sum_list_with_app, held_insert.
      set (w' := match goes_on o with Some k' => Busy k' | None => Checking end).
      specialize (Hm w'). assert (held w' = goes_on o) as -> by (by unfold w'; destruct (goes_on o)).
      assert (mode_weight w' ≤ 1) as Hm' by (unfold w'; destruct (goes_on o); simpl; lia). simpl in Hm.
      destruct (signal o); simpl; nia.
  - case_decide; simplify_eq. unfold potential, load. destruct (notify_one_wakes p w) as [[Hn ->]|(t & Ht & ->)]; simpl; [lia|].
    pose proof (sum_insert mode_weight _ t _ Checking Ht). rewrite (held_same _ t Asleep) by done. simpl in *. rewrite length_insert. nia.
  - case_decide; simplify_eq. unfold potential, load. simpl. rewrite length_fmap.
    assert (sum_list_with mode_weight (wake <$> workers p) ≤ sum_list_with mode_weight (workers p) + length (workers p)) as Hle.
    { clear. induction (workers p) as [|[] ws IH]; csimpl; lia. }
    rewrite held_wake. destruct (owed_all p) as [|m]; [done|]. simpl. lia.
Qed.

(** However the threads are scheduled, the program stops after [potential] turns of its
    own. *)
Lemma workers_terminate n sh q us p k p' :
  I false sh [] q [] (replicate n None) [] → run (pool_make n sh q) us = Some p → nsteps internal_step k p p' → k ≤ potential p.
Proof.
  intros HI Hr. destruct (workers_run n sh q us p HI Hr) as (Hi & Hh & _).
  apply (nsteps_decreasing_inv (λ p, pool_inv p ∧ holds p)); [| |done].
  - intros x y [??] ?. by apply workers_decrease.
  - intros x y [??] (u & _ & Hu). split; [by eapply workers_turn_inv; [apply inv_batch| |]|by eapply workers_turn_holds].
Qed.

(** From every state that can be reached, some run of the program on its own ends where
    nothing can move. *)
Lemma workers_finish n sh q us p :
  I false sh [] q [] (replicate n None) [] → run (pool_make n sh q) us = Some p →
  ∃ us' p', run p us' = Some p' ∧ quiescent p' ∧ called p' = called p.
Proof.
  intros HI Hr. destruct (workers_run n sh q us p HI Hr) as (Hi & Hh & _). clear us Hr HI sh q n.
  remember (potential p) as m eqn:Em. revert p Hi Hh Em. induction (lt_wf m) as [m _ IH]. intros p Hi Hh ->.
  assert (quiescent p ∨ ∃ u, internal p u = true) as [Hq|[u Hu]].
  { destruct (decide (owed p = 0)) as [Eo|Eo]; [|right; exists (Notify 0); simpl; by destruct (owed p)].
    destruct (decide (owed_all p = 0)) as [Ea|Ea]; [|right; exists NotifyAll; simpl; by destruct (owed_all p)].
    assert ((∃ t w, workers p !! t = Some w ∧ is_awake w = 1) ∨ ∀ t w, workers p !! t = Some w → is_awake w ≠ 1) as [(t & w & Ht & Hw)|Hno].
    { clear. induction (workers p) as [|w ws IH]; [right; by intros []|]. destruct (decide (is_awake w = 1)); [left; by exists 0, w|].
      destruct IH as [(t & w' & ? & ?)|Hno]; [left; by exists (S t), w'|]. right. intros [|t] w' Ht; simpl in *; [by simplify_eq|by eapply Hno]. }
    - right. exists (Work t). simpl. rewrite Ht. by destruct w.
    - left. intros [t|w| |c|]; simpl; [|by rewrite Eo|by rewrite Ea|done|done]. destruct (workers p !! t) as [w|] eqn:Et; [|done].
      specialize (Hno t w Et). by destruct w. }
  { by exists [], p. }
  assert (∃ p1, turn p u = Some p1 ∧ called p1 = called p) as (p1 & E1 & Ec).
  { destruct u as [t|w| |c|]; simpl in *; try done; [|case_decide as E; [by rewrite E in Hu|by eexists]..].
    eexists. split; [done|]. unfold work. repeat case_match; done. }
  destruct (IH (potential p1)) with (p := p1) as (us' & p' & Hr & Hq & Hc);
    [apply workers_decrease; [done|done|by exists u]|by eapply workers_turn_inv; [apply inv_batch| |]|by eapply workers_turn_holds|done|].
  exists (u :: us'), p'. unfold run in *. simpl. rewrite E1. split_and!; [done|done|congruence].
Qed.

(** A reachable state settles: see [settles]. *)
Lemma workers_settle n sh q us p :
  I false sh [] q [] (replicate n None) [] → run (pool_make n sh q) us = Some p →
  (∃ bound, ∀ k p', nsteps internal_step k p p' → k ≤ bound) ∧ ∃ us' p', run p us' = Some p' ∧ quiescent p' ∧ called p' = called p.
Proof.
  intros HI Hr. split; [|by eapply workers_finish]. exists (potential p). intros k p'. by eapply workers_terminate.
Qed.
End termination.

(** The usual weight: what each worker has to do, and a weight of the shared data. *)
Section weighted.
Context (task_weight : Task → nat) (todo : K → nat) (shared_weight : Sh → nat).

Definition todo_of (h : option K) : nat := match h with Some k => todo k | None => 0 end.

Definition plain_weight (sh : Sh) (hs : list (option K)) : nat := sum_list_with todo_of hs + shared_weight sh.

Class Weighted := {
  weight_start st sh cs ts q hs out k sh' :
    q ≠ [] → I st sh cs (ts ++ q) ts hs out → start P (take (batch P) q) sh = (k, sh') →
    todo k + shared_weight sh' ≤ sum_list_with task_weight (take (batch P) q) + shared_weight sh;
  weight_step st sh cs es ts hs out t k :
    let o := step P k sh in
    I st sh cs es ts hs out → hs !! t = Some (Some k) →
    todo_of (goes_on o) + sum_list_with task_weight (pushes o) + length (pushes o) + shared_weight (leaves o) < todo k + shared_weight sh
}.

#[global] Instance weighted_ranked : Weighted → Ranked task_weight plain_weight.
Proof.
  intros HW. split.
  - intros st sh cs ts q hs out t k sh' Hq HI Hh E. pose proof (weight_start _ _ _ _ _ _ _ _ _ Hq HI E) as Hw.
    pose proof (sum_insert todo_of hs t None (Some k) Hh) as Hs. unfold plain_weight. simpl in Hs. lia.
  - intros st sh cs es ts hs out t k o HI Hh. pose proof (weight_step _ _ _ _ _ _ _ _ _ HI Hh) as Hw. fold o in Hw. cbn zeta in Hw.
    pose proof (sum_insert todo_of hs t (Some k) (goes_on o) Hh) as Hs. unfold plain_weight. simpl in Hs. lia.
Qed.
End weighted.
End invariant.

(** On its own, the program makes a bounded number of turns, and can go on until nothing can
    move. *)
Definition settles p : Prop :=
  (∃ bound, ∀ k p', nsteps internal_step k p p' → k ≤ bound) ∧ ∃ us p', run p us = Some p' ∧ quiescent p' ∧ called p' = called p.
End workers.

(** ** What the workers hold *)

Section held_items.
Context {K A : Type} (f : option K → list A).

Lemma held_insert_new (hs : list (option K)) t x y v : hs !! t = Some x → v ∈ (<[t := y]> hs ≫= f) → v ∈ (hs ≫= f) ∨ v ∈ f y.
Proof.
  intros Ht Hv. assert (v ∈ (hs ≫= f) ++ f y) as H; [|by apply elem_of_app in H].
  rewrite <-(bind_insert_perm f hs t x y Ht). apply elem_of_app. by left.
Qed.

Lemma held_insert_old (hs : list (option K)) t x y v :
  hs !! t = Some x → v ∈ (hs ≫= f) ++ f y → v ∈ (<[t := y]> hs ≫= f) ∨ v ∈ f x.
Proof. intros Ht Hv. rewrite <-(bind_insert_perm f hs t x y Ht) in Hv. by apply elem_of_app in Hv. Qed.

Lemma held_none n : f None = [] → replicate n None ≫= f = [].
Proof. intros E. induction n as [|n IH]; [done|]. csimpl. by rewrite E, IH. Qed.

Lemma held_lookup_elem (hs : list (option K)) t x v : hs !! t = Some x → v ∈ f x → v ∈ hs ≫= f.
Proof. intros Ht Hv. apply list_elem_of_bind. exists x. split; [done|by eapply list_elem_of_lookup_2]. Qed.

Lemma held_insert_in (hs : list (option K)) t x y v : hs !! t = Some x → v ∈ f y → v ∈ (<[t := y]> hs ≫= f).
Proof. intros Ht Hv. apply (held_lookup_elem _ t y); [apply list_lookup_insert_eq; by eapply lookup_lt_Some|done]. Qed.

(** What worker [t] held before is replaced. *)
Lemma held_insert_replace (hs : list (option K)) t x y v :
  hs !! t = Some x → v ∈ (hs ≫= f) → v ∈ (<[t := y]> hs ≫= f) ∨ v ∈ f x.
Proof. intros Ht Hv. apply (held_insert_old hs t x y v Ht), elem_of_app. by left. Qed.
End held_items.
