(* ===== verification/WorkerPrograms.v ===== *)
(** * Programs of worker threads

    Instances of [Workers]: the parallel breadth-first search
    ([src/algorithms/multiThreadedBFS.cpp]), the web crawler
    ([src/distributed/WebCrawler_multiThreaded.cpp]), the backup pipeline with retries
    ([src/multi-stage-pipeline/Cloud_Backup_Pipeline.cpp]) and the indexer of the search engine
    ([src/multi-stage-pipeline/SearchEngineIndexing.cpp]).

    Each module has the data under the mutex, what a worker does with a task step by step,
    and the calls from outside; the loop of the workers, the notifications and the shutdown
    are those of [Workers].  A theorem says what the program has computed when nothing can
    move any more, whatever the number of threads and their schedule, and that it gets
    there. *)
From Stdlib Require Import Ascii.
From S2P Require Import Prelude Streams Workers.
Local Open Scope nat_scope.

(** ** Breadth-first search *)

Module BFS.

(** [graph\[u\]] of a node without edges is an empty list. *)
Abbreviation Graph := (gmap Z (list Z)).

Definition neighbours (graph : Graph) (node : Z) : list Z := default [] (graph !! node).

Definition addEdge (graph : Graph) (u v : Z) : Graph :=
  let graph := <[u := neighbours graph u ++ [v]]> graph in
  <[v := neighbours graph v ++ [u]]> graph.

(** What a worker that has taken a node still does: print it and visit its neighbours. *)
Inductive Doing := Printing (node : Z) | Visiting (ns : list Z).

(** A step of [process_node]; [visited] is under the mutex. *)
Definition process_node (graph : Graph) (k : Doing) (visited : gset Z) : Outcome Z Doing (gset Z) Z :=
  match k with
  | Printing node => {| goes_on := Some (Visiting (neighbours graph node)); leaves := visited; pushes := []; emits := [node]; signal := Each |}
  | Visiting [] => {| goes_on := None; leaves := visited; pushes := []; emits := []; signal := Each |}
  | Visiting (neighbour :: ns) =>
      if decide (neighbour ∈ visited) then {| goes_on := Some (Visiting ns); leaves := visited; pushes := []; emits := []; signal := Each |}
      else {| goes_on := Some (Visiting ns); leaves := {[neighbour]} ∪ visited; pushes := [neighbour]; emits := []; signal := Each |}
  end.

Definition startBFS (source : Z) (visited : gset Z) : gset Z * list Z * Signal := ({[source]} ∪ visited, [source], Everyone).

Definition Multi_threaded_BFS (graph : Graph) : Program Z Doing (gset Z) Z Z :=
  {| batch := 1; start := λ ts visited, (Printing (hd 0%Z ts), visited); step := process_node graph; call := startBFS; stoppable := true |}.

Section bfs.
Context (graph : Graph).
Abbreviation P := (Multi_threaded_BFS graph).

Definition edge (u v : Z) : Prop := v ∈ neighbours graph u.

Definition pending (h : option Doing) : list Z :=
  match h with Some (Printing node) => neighbours graph node | Some (Visiting ns) => ns | None => [] end.

Definition printing (h : option Doing) : list Z := match h with Some (Printing node) => [node] | _ => [] end.

Record bfs_inv (st : bool) (visited : gset Z) (cs es ts : list Z) (hs : list (option Doing)) (out : list Z) : Prop := {
  bfs_visited v : v ∈ visited ↔ v ∈ es;
  bfs_closed n v : n ∈ ts → edge n v → v ∈ visited ∨ v ∈ (hs ≫= pending);
  bfs_pending v : v ∈ (hs ≫= pending) → ∃ n, n ∈ ts ∧ edge n v;
  bfs_printed : out ++ (hs ≫= printing) ≡ₚ ts;
  bfs_taken n : n ∈ ts → n ∈ es;
  bfs_sources s : s ∈ cs → s ∈ visited;
  bfs_reach v : v ∈ visited → ∃ s, s ∈ cs ∧ rtc edge s v;
  bfs_once : (cs = [] → es = []) ∧ (length cs = 1 → NoDup es)
}.

(** The worker goes from [x] to [y] without printing. *)
Lemma bfs_printing hs t x y out ts :
  hs !! t = Some x → printing x = [] → printing y = [] → out ++ (hs ≫= printing) ≡ₚ ts → out ++ (<[t := y]> hs ≫= printing) ≡ₚ ts.
Proof. intros Hh Ex Ey <-. pose proof (bind_insert_perm printing hs t x y Hh) as E. rewrite Ex, Ey, !app_nil_r in E. by rewrite E. Qed.

Lemma bfs_visit st visited cs es ts hs out t neighbour ns :
  bfs_inv st visited cs es ts hs out → hs !! t = Some (Some (Visiting (neighbour :: ns))) →
  bfs_inv st ({[neighbour]} ∪ visited) cs (es ++ if decide (neighbour ∈ visited) then [] else [neighbour]) ts
    (<[t := Some (Visiting ns)]> hs) out.
Proof.
  intros [Hv Hc Hp Hpr Ht Hs Hr Ho] Hh. set (more := if decide (neighbour ∈ visited) then [] else [neighbour]).
  assert (neighbour ∈ hs ≫= pending) as Hnb by (eapply (held_lookup_elem pending hs t); [done|by left]).
  destruct (Hp neighbour Hnb) as (n0 & Hn0 & Hedge). split.
  - intros v. rewrite elem_of_union, elem_of_singleton, elem_of_app, Hv. unfold more. case_decide as Hin; rewrite Hv in Hin; set_solver.
  - intros n v Hn Hvn. destruct (Hc n v Hn Hvn) as [|Hx]; [set_solver|].
    destruct (held_insert_replace pending hs t _ (Some (Visiting ns)) v Hh Hx) as [|[->|Hx']%elem_of_cons]; [by right|set_solver|].
    right. by eapply held_insert_in.
  - intros v Hx. apply Hp. destruct (held_insert_new pending hs t _ (Some (Visiting ns)) v Hh Hx) as [|Hx']; [done|].
    eapply (held_lookup_elem pending hs t); [done|by right].
  - by eapply bfs_printing.
  - intros n Hn. apply elem_of_app. left. auto.
  - set_solver.
  - intros v [->%elem_of_singleton|Hin]%elem_of_union; [|auto].
    destruct (Hr n0) as (s & Hs0 & Hreach); [by apply Hv, Ht|]. exists s. split; [done|]. by eapply rtc_r.
  - destruct Ho as [Ho1 Ho2]. unfold more. case_decide as Hin; [by rewrite app_nil_r|]. split.
    + intros ->. destruct (Hr n0) as (s & Hs0 & _); [by apply Hv, Ht|]. by apply not_elem_of_nil in Hs0.
    + intros Hl. apply NoDup_app. split_and!; [auto|intros x Hx ->%list_elem_of_singleton; by apply Hin, Hv|apply NoDup_singleton].
Qed.

#[global] Instance bfs_invariant : Invariant P bfs_inv.
Proof.
  split.
  - simpl. lia.
  - intros st visited cs ts q hs out t k sh' Hq [Hv Hc Hp Hpr Ht Hs Hr Ho] Hh E. destruct q as [|n q]; [done|]. simpl in E. simplify_eq. simpl.
    rewrite take_0. split; try done.
    + intros n0 v [Hn0|Hn0%list_elem_of_singleton]%elem_of_app He.
      * destruct (Hc n0 v Hn0 He) as [|Hx]; [by left|]. destruct (held_insert_replace pending hs t _ (Some (Printing n)) v Hh Hx) as [|Hx']; [by right|].
        by apply not_elem_of_nil in Hx'.
      * subst n0. right. by eapply held_insert_in.
    + intros v Hx. destruct (held_insert_new pending hs t _ _ v Hh Hx) as [Hx'|Hx']; [destruct (Hp v Hx') as (n0 & ? & ?); exists n0; set_solver|].
      exists n. split; [set_solver|done].
    + pose proof (bind_insert_perm printing hs t _ (Some (Printing n)) Hh) as Ep. simpl in Ep. rewrite app_nil_r in Ep. by rewrite Ep, (assoc_L (++)), Hpr.
    + set_solver.
  - intros st visited cs es ts hs out t k o Hpre Hi Hh. subst o. destruct k as [node|[|neighbour ns]]; simpl.
    + rewrite orb_false_r, app_nil_r. destruct Hi as [Hv Hc Hp Hpr Ht Hs Hr Ho]. split; try done.
      * intros n v Hn He. destruct (Hc n v Hn He) as [|Hx]; [by left|].
        destruct (held_insert_replace pending hs t _ (Some (Visiting (neighbours graph node))) v Hh Hx) as [|Hx']; [by right|].
        right. by eapply held_insert_in.
      * intros v Hx. apply Hp. destruct (held_insert_new pending hs t _ _ v Hh Hx) as [|Hx']; [done|]. by eapply (held_lookup_elem pending hs t).
      * rewrite <-Hpr. pose proof (bind_insert_perm printing hs t _ (Some (Visiting (neighbours graph node))) Hh) as Ep. simpl in Ep. rewrite app_nil_r in Ep.
        rewrite <-Ep. solve_Permutation.
    + rewrite orb_false_r, !app_nil_r. destruct Hi as [Hv Hc Hp Hpr Ht Hs Hr Ho]. split; try done.
      * intros n v Hn He. destruct (Hc n v Hn He) as [|Hx]; [by left|].
        destruct (held_insert_replace pending hs t _ None v Hh Hx) as [|Hx']; [by right|]. by apply not_elem_of_nil in Hx'.
      * intros v Hx. apply Hp. destruct (held_insert_new pending hs t _ _ v Hh Hx) as [|Hx']; [done|]. by apply not_elem_of_nil in Hx'.
      * by eapply bfs_printing.
    + pose proof (bfs_visit _ _ _ _ _ _ _ _ _ _ Hi Hh) as Hi'. case_decide as Hin; simpl; rewrite orb_false_r, ?app_nil_r in *; [|done].
      by replace ({[neighbour]} ∪ visited) with visited in Hi' by set_solver.
  - intros visited cs es ts hs out c sh' ts' g [Hv Hc Hp Hpr Ht Hs Hr Ho] E. unfold call, P, startBFS in E. simplify_eq. simpl. split; try done.
    + set_solver.
    + intros n v Hn He. destruct (Hc n v Hn He); [left; set_solver|by right].
    + set_solver.
    + set_solver.
    + intros v [->%elem_of_singleton|Hin]%elem_of_union; [exists c; split; [set_solver|done]|]. destruct (Hr v Hin) as (s & ? & ?). exists s. split; [set_solver|done].
    + split; [by intros []%app_nil|]. rewrite length_app. simpl. intros Hl. destruct cs; [|simpl in Hl; lia]. rewrite (proj1 Ho eq_refl). apply NoDup_singleton.
  - by intros visited cs es ts hs out _ [].
Qed.

(** The nodes that may still be pushed weigh what processing them takes. *)
Definition node_weight (n : Z) : nat := 2 + length (neighbours graph n).

Definition doing_weight (k : Doing) : nat := match k with Printing n => node_weight n | Visiting ns => S (length ns) end.

Definition all_neighbours : list Z := mjoin (map_to_list graph).*2.

Definition unvisited_weight (visited : gset Z) : nat :=
  sum_list_with (λ v, if decide (v ∈ visited) then 0 else S (node_weight v)) all_neighbours.

Lemma edge_all n v : edge n v → v ∈ all_neighbours.
Proof.
  unfold edge, neighbours. destruct (graph !! n) as [l|] eqn:E; simpl; [|by intros ?%not_elem_of_nil]. intros Hv.
  apply list_elem_of_join. exists l. split; [done|]. apply list_elem_of_fmap. exists (n, l). split; [done|]. by apply elem_of_map_to_list.
Qed.

Lemma unvisited_drops (visited : gset Z) v (l : list Z) :
  v ∈ l → v ∉ visited →
  sum_list_with (λ v', if decide (v' ∈ {[v]} ∪ visited) then 0 else S (node_weight v')) l + S (node_weight v) ≤
  sum_list_with (λ v', if decide (v' ∈ visited) then 0 else S (node_weight v')) l.
Proof.
  intros Hin Hv. assert (∀ l, sum_list_with (λ v', if decide (v' ∈ {[v]} ∪ visited) then 0 else S (node_weight v')) l ≤
    sum_list_with (λ v', if decide (v' ∈ visited) then 0 else S (node_weight v')) l) as Hle.
  { induction l0 as [|x l0 IH]; [done|]. simpl. repeat case_decide; try set_solver; lia. }
  induction l as [|x l IH]; [by apply not_elem_of_nil in Hin|]. cbn [sum_list_with]. destruct (decide (x = v)) as [->|Hne].
  - rewrite decide_True by set_solver. rewrite decide_False by done. specialize (Hle l). lia.
  - apply elem_of_cons in Hin as [->|Hin]; [done|]. specialize (IH Hin). repeat case_decide; try set_solver; lia.
Qed.

#[global] Instance bfs_weighted : Weighted P bfs_inv node_weight doing_weight unvisited_weight.
Proof.
  split.
  - intros st visited cs ts q hs out k sh' Hq _ E. destruct q as [|n q]; [done|]. simpl in *. simplify_eq. simpl. lia.
  - intros st visited cs es ts hs out t k o Hi Hh. subst o. destruct k as [node|[|neighbour ns]]; simpl; [unfold node_weight; lia|lia|].
    case_decide as Hin; simpl; [lia|].
    assert (neighbour ∈ all_neighbours) as Hall.
    { destruct (bfs_pending _ _ _ _ _ _ _ Hi neighbour) as (n & _ & He); [eapply (held_lookup_elem pending hs t); [done|by left]|by eapply edge_all]. }
    pose proof (unvisited_drops visited neighbour all_neighbours Hall Hin). unfold unvisited_weight, node_weight in *. lia.
Qed.

Lemma bfs_start n : bfs_inv false ∅ [] [] [] (replicate n None) [].
Proof.
  split; rewrite ?held_none by done; try done; try set_solver.
Qed.
End bfs.

(** C16: The parallel breadth-first search visits what can be reached.  For every graph,
    number of threads, calls of [startBFS] and schedule: the workers settle after a bounded
    number of turns, and then the nodes printed are exactly those reachable from the
    sources, each once if there is one source; after [shutdown] every worker has returned,
    also those that were busy when it was called. *)
Theorem parallel_bfs_correct (graph : Graph) (num_threads : nat) (us : list (Turn Z)) p :
  0 < num_threads → run (Multi_threaded_BFS graph) (pool_make num_threads ∅ []) us = Some p →
  settles (Multi_threaded_BFS graph) p ∧
  (quiescent p →
    (∀ v, v ∈ output p ↔ ∃ s, s ∈ called p ∧ rtc (edge graph) s v) ∧
    (length (called p) = 1 → NoDup (output p)) ∧
    Forall (λ w, w = if stop p then Returned else Asleep) (workers p)).
Proof.
  intros Hn Hr. split; [by eapply (workers_settle _ (bfs_inv graph)), Hr; [apply _..|apply bfs_start]|].
  intros Hq. destruct (workers_end _ (bfs_inv graph) num_threads ∅ [] us p Hn (bfs_start graph _) Hr Hq) as [[Hv Hc Hp Hpr Ht Hs Hreach Ho] Hw].
  rewrite held_none, app_nil_r in Hpr by done. rewrite held_none in Hc by done. split_and!; [|by rewrite Hpr; apply Ho|done].
  intros v. rewrite Hpr, <-Hv. split; [apply Hreach|]. intros (s & Hs0 & Hsv). specialize (Hs s Hs0).
  clear Hs0. induction Hsv as [|x y z He _ IH]; [done|]. apply IH. apply Hv in Hs. by destruct (Hc x y Hs He) as [|[]%not_elem_of_nil].
Qed.

(** The graph of [main] has the same shape: a cycle and a node nobody reaches. *)
Definition small_graph : Graph := addEdge (addEdge (addEdge ∅ 1 2) 2 3) 4 5.

Definition small_schedule : list (Turn Z) :=
  [CallIn 1%Z; Work 0; Work 1; NotifyAll; Work 0; Work 0; Notify 1; Work 0; Work 1; Work 1; Work 1; Work 0; Shutdown; NotifyAll; Work 1; Notify 0]
  ++ concat (replicate 6 [Work 0; Work 1]).

Lemma parallel_bfs_correct_witness :
  ∃ p, run (Multi_threaded_BFS small_graph) (pool_make 2 ∅ []) small_schedule = Some p ∧ quiescent p ∧
    (∀ v, v ∈ output p ↔ ∃ s, s ∈ called p ∧ rtc (edge small_graph) s v).
Proof.
  destruct (run (Multi_threaded_BFS small_graph) (pool_make 2 ∅ []) small_schedule) as [p|] eqn:E; [|vm_compute in E; discriminate].
  exists p. split; [done|]. assert (quiescent p) as Hq.
  { vm_compute in E. injection E as <-. intros [[|[|t]]|w| |c|]; reflexivity. }
  split; [done|]. destruct (parallel_bfs_correct small_graph 2 small_schedule p) as [_ H]; [lia|done|]. by destruct (H Hq) as [H1 _].
Defined.
End BFS.

(** ** The web crawler *)

Module Crawler.

Record UrlTask := { url : string; depth : Z }.

Definition addUrls (u : string) (d : Z) (visited : gset string) : gset string * list UrlTask * Signal :=
  if decide (u ∈ visited) then (visited, [], Each) else ({[u]} ∪ visited, [{| url := u; depth := d |}], Each).

(** What a worker that has taken a URL still does: print it, and add the links found. *)
Inductive Doing := Crawling (task : UrlTask) | Adding (urls : list string) (d : Z).

(** The links of a page are simulated. *)
Definition discovered_urls (u : string) : list string := [u +:+ "/about"; u +:+ "/contact"].

Definition crawl (max_depth : Z) (k : Doing) (visited : gset string) : Outcome UrlTask Doing (gset string) UrlTask :=
  match k with
  | Crawling task =>
      {| goes_on := if (max_depth <=? depth task)%Z then None else Some (Adding (discovered_urls (url task)) (depth task + 1));
         leaves := visited; pushes := []; emits := [task]; signal := Each |}
  | Adding [] _ => {| goes_on := None; leaves := visited; pushes := []; emits := []; signal := Each |}
  | Adding (next_url :: us) d =>
      let '(visited, ts, g) := addUrls next_url d visited in
      {| goes_on := Some (Adding us d); leaves := visited; pushes := ts; emits := []; signal := g |}
  end.

Definition WebCrawler (max_depth : Z) : Program UrlTask Doing (gset string) UrlTask UrlTask :=
  {| batch := 1; start := λ ts visited, (Crawling (hd {| url := ""; depth := 0 |} ts), visited); step := crawl max_depth;
     call := λ c, addUrls (url c) (depth c); stoppable := true |}.

Section crawler.
Context (max_depth : Z).

(** The page [d] links away from [u]. *)
Definition links (x y : UrlTask) : Prop :=
  (depth x < max_depth)%Z ∧ url y ∈ discovered_urls (url x) ∧ depth y = (depth x + 1)%Z.

Definition pending (h : option Doing) : list UrlTask :=
  match h with
  | Some (Crawling x) => if (max_depth <=? depth x)%Z then [] else (λ u, {| url := u; depth := depth x + 1 |}) <$> discovered_urls (url x)
  | Some (Adding us d) => (λ u, {| url := u; depth := d |}) <$> us
  | None => []
  end.

Definition printing (h : option Doing) : list UrlTask := match h with Some (Crawling x) => [x] | _ => [] end.

Record crawl_inv (st : bool) (visited : gset string) (cs es ts : list UrlTask) (hs : list (option Doing)) (out : list UrlTask) : Prop := {
  crawl_visited u : u ∈ visited ↔ u ∈ url <$> es;
  crawl_once : NoDup (url <$> es);
  crawl_closed x y : x ∈ ts → links x y → url y ∈ visited ∨ y ∈ (hs ≫= pending);
  crawl_pending y : y ∈ (hs ≫= pending) → ∃ x, x ∈ ts ∧ links x y;
  crawl_printed : out ++ (hs ≫= printing) ≡ₚ ts;
  crawl_taken x : x ∈ ts → x ∈ es;
  crawl_seeds x : x ∈ cs → url x ∈ visited;
  crawl_found x : x ∈ es → ∃ s, s ∈ cs ∧ rtc links s x
}.

Lemma pending_links x y : y ∈ pending (Some (Crawling x)) ↔ links x y.
Proof.
  unfold links. simpl. destruct (Z.leb_spec max_depth (depth x)); simpl; [rewrite elem_of_nil; lia|]. destruct y as [u d]. simpl. split.
  - set_unfold. intros [[= -> ->]|[[= -> ->]|[]]]; split_and!; (lia || auto).
  - intros (_ & Hu & ->). set_unfold. naive_solver.
Qed.

(** A call of [addUrls] for [y], which is a link of a page that was taken, or a new seed. *)
Lemma addUrls_inv st visited cs cs' es ts hs out y visited' ts' g :
  crawl_inv st visited cs es ts hs out → cs ⊆ cs' → (∀ x, x ∈ cs' → x ∈ cs ∨ x = y) → (∃ s, s ∈ cs' ∧ rtc links s y) →
  addUrls (url y) (depth y) visited = (visited', ts', g) →
  url y ∈ visited' ∧ g = Each ∧ crawl_inv st visited' cs' (es ++ ts') ts hs out.
Proof.
  intros [Hv Hn Hc Hp Hpr Ht Hs Hf] Hsub Hcs Hy E.
  assert (visited' = {[url y]} ∪ visited ∧ ts' = (if decide (url y ∈ visited) then [] else [y]) ∧ g = Each) as (-> & -> & ->).
  { unfold addUrls in E. case_decide as Hin; simplify_eq; split_and!; try done; [|by destruct y]. set_unfold. intros u. naive_solver. }
  clear E. split; [by apply elem_of_union; left; apply elem_of_singleton|]. split; [done|]. split; try done.
  - intros u. rewrite fmap_app, elem_of_app, elem_of_union, elem_of_singleton. case_decide as Hin; simpl; rewrite <-Hv.
    + rewrite elem_of_nil. naive_solver.
    + rewrite list_elem_of_singleton. naive_solver.
  - rewrite fmap_app. apply NoDup_app. case_decide as Hin; simpl; split_and!; [done|by intros ? _ []%not_elem_of_nil|apply NoDup_nil_2|done| |apply NoDup_singleton].
    intros u Hu ->%list_elem_of_singleton. by apply Hin, Hv.
  - intros x z Hx Hl. destruct (Hc x z Hx Hl); [left; by apply elem_of_union; right|by right].
  - intros x Hx. apply elem_of_app. left. auto.
  - intros x Hx. apply elem_of_union. destruct (Hcs x Hx) as [| ->]; [right; auto|left; by apply elem_of_singleton].
  - intros x [Hx|Hx]%elem_of_app; [destruct (Hf x Hx) as (s & ? & ?); exists s; split; [by apply Hsub|done]|].
    case_decide; [by apply not_elem_of_nil in Hx|]. apply list_elem_of_singleton in Hx. by subst.
Qed.

(** The worker goes from [x] to [y] and has dealt with what it no longer has to do. *)
Lemma crawler_moves st visited cs es ts hs out t x y :
  crawl_inv st visited cs es ts hs out → hs !! t = Some x →
  (∀ v, v ∈ pending y → v ∈ pending x) → (∀ v, v ∈ pending x → url v ∈ visited ∨ v ∈ pending y) →
  ∀ o, printing x = o ++ printing y → crawl_inv st visited cs es ts (<[t := y]> hs) (out ++ o).
Proof.
  intros [Hv Hn Hc Hp Hpr Ht Hs Hf] Hh Hyx Hxy o Ho. split; try done.
  - intros n v Hx Hl. destruct (Hc n v Hx Hl) as [|Hin]; [by left|].
    destruct (held_insert_replace pending hs t x y v Hh Hin) as [|Hin']; [by right|]. destruct (Hxy v Hin'); [by left|].
    right. by eapply held_insert_in.
  - intros v Hin. apply Hp. destruct (held_insert_new pending hs t x y v Hh Hin) as [|Hin']; [done|].
    eapply (held_lookup_elem pending hs t); [done|auto].
  - rewrite <-Hpr. pose proof (bind_insert_perm printing hs t x y Hh) as E. rewrite Ho in E.
    apply (Permutation_app_inv_r (printing y)). rewrite <-!(assoc_L (++)), <-E. solve_Permutation.
Qed.

#[global] Instance crawl_invariant : Invariant (WebCrawler max_depth) crawl_inv.
Proof.
  split.
  - simpl. lia.
  - intros st visited cs ts q hs out t k sh' Hq [Hv Hn Hc Hp Hpr Ht Hs Hf] Hh E. destruct q as [|n q]; [done|]. simpl in E. simplify_eq. simpl.
    rewrite take_0. split; try done.
    + intros n0 v [Hn0|Hn0%list_elem_of_singleton]%elem_of_app He.
      * destruct (Hc n0 v Hn0 He) as [|Hx]; [by left|]. destruct (held_insert_replace pending hs t _ (Some (Crawling n)) v Hh Hx) as [|Hx']; [by right|].
        by apply not_elem_of_nil in Hx'.
      * subst n0. right. eapply held_insert_in; [done|]. by apply pending_links.
    + intros v Hx. destruct (held_insert_new pending hs t _ _ v Hh Hx) as [Hx'|Hx'%pending_links]; [destruct (Hp v Hx') as (n0 & ? & ?); exists n0; set_solver|].
      exists n. split; [set_solver|done].
    + pose proof (bind_insert_perm printing hs t _ (Some (Crawling n)) Hh) as Ep. simpl in Ep. rewrite app_nil_r in Ep. by rewrite Ep, (assoc_L (++)), Hpr.
    + set_solver.
  - intros st visited cs es ts hs out t k o Hpre Hi Hh. subst o. destruct k as [x|[|u us] d]; simpl.
    + rewrite orb_false_r, app_nil_r. apply (crawler_moves _ _ _ _ _ _ _ t (Some (Crawling x))); [done|done| | |].
      * simpl. by destruct (max_depth <=? depth x)%Z.
      * simpl. destruct (max_depth <=? depth x)%Z; auto.
      * by destruct (max_depth <=? depth x)%Z.
    + rewrite orb_false_r, app_nil_r. by apply (crawler_moves _ _ _ _ _ _ _ t (Some (Adding [] d))); [|done|set_solver|set_solver|].
    + destruct (addUrls u d visited) as [[visited' ts'] g] eqn:Ea. simpl.
      pose proof (held_lookup_elem pending hs t _ {| url := u; depth := d |} Hh ltac:(by left)) as Hin.
      destruct (crawl_pending _ _ _ _ _ _ _ Hi _ Hin) as (x & Hx & Hl).
      destruct (crawl_found _ _ _ _ _ _ _ Hi x) as (s & Hs & Hsx); [by eapply crawl_taken|].
      destruct (addUrls_inv _ _ _ cs _ _ _ _ {| url := u; depth := d |} _ _ _ Hi ltac:(done) ltac:(auto) ltac:(exists s; split; [done|by eapply rtc_r]) Ea) as (Hu & -> & Hi').
      rewrite orb_false_r. apply (crawler_moves _ _ _ _ _ _ _ t (Some (Adding (u :: us) d))); [done|done| | |done].
      * intros v Hv'. by right.
      * intros v [->|Hv']%elem_of_cons; [by left|by right].
  - intros visited cs es ts hs out c sh' ts' g Hi E. simpl in E.
    destruct (addUrls_inv _ _ _ (cs ++ [c]) _ _ _ _ c sh' ts' g Hi) as (_ & -> & Hi'); [set_solver..| |done|done].
    exists c. split; [set_solver|done].
  - by intros visited cs es ts hs out _ [].
Qed.

(** The turns that a page takes, with everything below it. *)
Fixpoint page_weight (k : nat) : nat := match k with O => 1 | S k => 2 * page_weight k + 6 end.

Definition task_weight (x : UrlTask) : nat := page_weight (Z.to_nat (max_depth - depth x)).

Definition doing_weight (k : Doing) : nat :=
  match k with Crawling x => task_weight x | Adding us d => 1 + length us * (page_weight (Z.to_nat (max_depth - d)) + 2) end.

#[global] Instance crawl_weighted : Weighted (WebCrawler max_depth) crawl_inv task_weight doing_weight (λ _, 0).
Proof.
  split.
  - intros st visited cs ts q hs out k sh' Hq _ E. destruct q as [|n q]; [done|]. simpl in *. simplify_eq. simpl. lia.
  - intros st visited cs es ts hs out t k o Hi Hh. subst o. destruct k as [x|[|u us] d]; simpl; [|lia|].
    + unfold task_weight. destruct (Z.leb_spec max_depth (depth x)) as [Hle|Hlt]; cbn [todo_of].
      * replace (Z.to_nat (max_depth - depth x)) with 0 by lia. simpl. lia.
      * replace (Z.to_nat (max_depth - depth x)) with (S (Z.to_nat (max_depth - (depth x + 1)))) by lia. cbn [page_weight doing_weight discovered_urls length]. lia.
    + unfold addUrls, task_weight. case_decide; simpl; lia.
Qed.

Lemma crawl_start n : crawl_inv false ∅ [] [] [] (replicate n None) [].
Proof. split; rewrite ?held_none by done; try done; try set_solver. apply NoDup_nil_2. Qed.

(** *** Pages below a seed *)

Definition segment (about : bool) : string := if about then "/about" else "/contact".

Definition page (u : string) (path : list bool) : string := fold_left (λ u b, u +:+ segment b) path u.

Lemma page_snoc u path b : page u (path ++ [b]) = page u path +:+ segment b.
Proof. unfold page. by rewrite fold_left_app. Qed.

Lemma segment_inj u1 u2 b1 b2 : u1 +:+ segment b1 = u2 +:+ segment b2 → u1 = u2 ∧ b1 = b2.
Proof.
  assert (∀ u v, String.list_ascii_of_string (u +:+ v) = String.list_ascii_of_string u ++ String.list_ascii_of_string v) as Happ
    by (induction u as [|a u IH]; intros v; simpl; [done|by rewrite IH]).
  intros E. apply (f_equal String.list_ascii_of_string) in E. rewrite !Happ in E.
  destruct (decide (b1 = b2)) as [<-|Hne].
  - apply app_inv_tail, (f_equal String.string_of_list_ascii) in E. by rewrite !String.string_of_list_ascii_of_string in E.
  - apply (f_equal reverse) in E. rewrite !reverse_app in E. by destruct b1, b2.
Qed.

Lemma page_length u path : (String.length u + 6 * length path ≤ String.length (page u path))%nat.
Proof.
  induction path as [|b path IH] using rev_ind; [simpl; lia|]. rewrite page_snoc, string_app_length, length_app.
  destruct b; simpl in *; lia.
Qed.

Lemma page_inj u path path' : page u path = page u path' → path = path'.
Proof.
  revert path'. induction path as [|b path IH] using rev_ind; intros path'; destruct path' as [|b' path' _] using rev_ind; intros E; [done|..].
  - pose proof (page_length u (path' ++ [b'])) as Hl. rewrite <-E, length_app in Hl. simpl in Hl. lia.
  - pose proof (page_length u (path ++ [b])) as Hl. rewrite E, length_app in Hl. simpl in Hl. lia.
  - rewrite !page_snoc in E. apply segment_inj in E as [E ->]. f_equal. by apply IH.
Qed.

Lemma discovered_segment u v : v ∈ discovered_urls u ↔ ∃ b, v = u +:+ segment b.
Proof.
  unfold discovered_urls. rewrite !elem_of_cons, elem_of_nil. split; [intros [->|[->|[]]]; [by exists true|by exists false]|].
  intros [[] ->]; auto.
Qed.

(** The pages found from a seed have one depth each. *)
Lemma links_path s x :
  rtc links s x → ∃ path, url x = page (url s) path ∧ depth x = (depth s + length path)%Z ∧ (Z.of_nat (length path) ≤ 0 `max` (max_depth - depth s))%Z.
Proof.
  revert x. apply rtc_ind_r; [exists []; split_and!; [done|simpl; lia|simpl; lia]|].
  intros y z _ (Hd & Hu & Hdz) (path & Hy & Hdy & Hl). apply discovered_segment in Hu as [b Hz]. exists (path ++ [b]).
  rewrite page_snoc, <-Hy, length_app. simpl. split_and!; [done|lia|lia].
Qed.

(** From one seed, a set of pages that is found from it, holds it and is closed under links
    is the set of pages within the depth. *)
Lemma single_seed u d (out : list UrlTask) :
  (∀ x, x ∈ out → rtc links {| url := u; depth := d |} x) → u ∈ url <$> out →
  (∀ x y, x ∈ out → links x y → url y ∈ url <$> out) → ∀ v,
  v ∈ url <$> out ↔ ∃ path, v = page u path ∧ (Z.of_nat (length path) ≤ 0 `max` (max_depth - d))%Z.
Proof.
  intros Hf Hu Hc v. split.
  - intros (x & -> & Hx)%list_elem_of_fmap. destruct (links_path _ _ (Hf x Hx)) as (path & E & _ & Hl). by exists path.
  - intros (path & -> & Hl). induction path as [|b path IH] using rev_ind; [done|]. rewrite length_app in Hl. simpl in Hl.
    destruct (proj1 (list_elem_of_fmap _ _ _) (IH ltac:(lia))) as (x & Ex & Hx).
    destruct (links_path _ _ (Hf x Hx)) as (path' & Ex' & Hd & _). simpl in *. rewrite Ex' in Ex. apply page_inj in Ex as <-.
    apply (Hc x {| url := page u (path ++ [b]); depth := depth x + 1 |} Hx). split_and!; simpl; [lia| |done].
    apply discovered_segment. exists b. by rewrite page_snoc, Ex'.
Qed.
End crawler.

(** The crawler finds what is linked, once.  For every maximal depth, number of threads,
    seeds and schedule: the workers settle, and then no URL was crawled twice, every seed
    was, every page crawled is a seed or linked from a page crawled at the depth before, and
    the links of a page above the maximal depth were crawled.  From a single seed [u] at
    depth [d] exactly the pages at most [max_depth - d] links below [u] were crawled,
    whatever the order. *)
Theorem crawler_correct (max_depth : Z) (num_threads : nat) (us : list (Turn UrlTask)) p :
  0 < num_threads → run (WebCrawler max_depth) (pool_make num_threads ∅ []) us = Some p →
  settles (WebCrawler max_depth) p ∧
  (quiescent p →
    NoDup (url <$> output p) ∧
    (∀ s, s ∈ called p → url s ∈ url <$> output p) ∧
    (∀ x, x ∈ output p → ∃ s, s ∈ called p ∧ rtc (links max_depth) s x) ∧
    (∀ x y, x ∈ output p → links max_depth x y → url y ∈ url <$> output p) ∧
    (∀ u d, called p = [{| url := u; depth := d |}] → ∀ v,
       v ∈ url <$> output p ↔ ∃ path, v = page u path ∧ (Z.of_nat (length path) ≤ 0 `max` (max_depth - d))%Z) ∧
    Forall (λ w, w = if stop p then Returned else Asleep) (workers p)).
Proof.
  intros Hn Hr. split; [by eapply (workers_settle _ (crawl_inv max_depth)), Hr; [apply _..|apply crawl_start]|].
  intros Hq. destruct (workers_end _ (crawl_inv max_depth) num_threads ∅ [] us p Hn (crawl_start max_depth _) Hr Hq) as [[Hv Ho Hc Hp Hpr Ht Hs Hf] Hw].
  rewrite held_none, app_nil_r in Hpr by done. rewrite held_none in Hc by done.
  assert (∀ u, u ∈ url <$> output p ↔ u ∈ shared p) as Hout by (intros u; by rewrite Hpr, <-Hv).
  assert (∀ s, s ∈ called p → url s ∈ url <$> output p) as Hseeds by (intros s Hs'; by apply Hout, Hs).
  assert (∀ x, x ∈ output p → ∃ s, s ∈ called p ∧ rtc (links max_depth) s x) as Hfound by (intros x Hx; apply Hf; by rewrite <-Hpr).
  assert (∀ x y, x ∈ output p → links max_depth x y → url y ∈ url <$> output p) as Hclosed.
  { intros x y Hx Hl. apply Hout. rewrite Hpr in Hx. by destruct (Hc x y Hx Hl) as [|[]%not_elem_of_nil]. }
  split_and!; [by rewrite Hpr|done..| |done]. intros u d Hcall. apply (single_seed max_depth u d (output p)); [|apply (Hseeds {| url := u; depth := d |}); rewrite Hcall; by left|done].
  intros x Hx. destruct (Hfound x Hx) as (s & Hs' & Hsx). rewrite Hcall in Hs'. apply list_elem_of_singleton in Hs'. by subst.
Qed.

Definition seed : UrlTask := {| url := "a"; depth := 0 |}.

Definition crawl_schedule : list (Turn UrlTask) :=
  [CallIn seed; Notify 0; Work 0; Work 0; Work 0; Work 0; Work 0; Notify 0; Notify 0; Work 0; Work 0; Work 0; Work 0; Work 0].

Lemma crawler_correct_witness :
  ∃ p, run (WebCrawler 1) (pool_make 1 ∅ []) crawl_schedule = Some p ∧ quiescent p ∧
    ("a/about" ∈ url <$> output p)%string.
Proof.
  destruct (run (WebCrawler 1) (pool_make 1 ∅ []) crawl_schedule) as [p|] eqn:E; [|vm_compute in E; discriminate].
  exists p. split; [done|]. assert (quiescent p ∧ called p = [seed]) as [Hq Hc].
  { vm_compute in E. injection E as <-. split; [|done]. intros [[|t]|w| |c|]; reflexivity. }
  split; [done|]. destruct (crawler_correct 1 1 _ p ltac:(lia) E) as [_ H]. destruct (H Hq) as (_ & _ & _ & _ & Hs & _).
  apply (Hs "a"%string 0%Z Hc). exists [true]. split; [reflexivity|simpl; lia].
Defined.
End Crawler.

(** ** The backup pipeline *)

Module Backup.

Inductive Status := PENDING | RUNNING | SUCCESS | FAILED.

#[global] Instance Status_eq_dec : EqDecision Status.
Proof. solve_decision. Defined.

Record BackupJob := { job_id : Z; file_name : string; retry_count : Z; status : Status }.

Definition set_status (j : BackupJob) (st : Status) : BackupJob :=
  {| job_id := job_id j; file_name := file_name j; retry_count := retry_count j; status := st |}.

(** The stages; the upload of a job with an odd identifier fails the first time. *)
Definition read (j : BackupJob) : bool := true.
Definition chunk (j : BackupJob) : bool := true.
Definition compress (j : BackupJob) : bool := true.
Definition encrypt (j : BackupJob) : bool := true.
Definition upload (j : BackupJob) : bool := negb ((Z.rem (job_id j) 2 =? 1)%Z && (retry_count j =? 0)%Z).

Definition process_backup (j : BackupJob) : BackupJob :=
  let j := set_status j RUNNING in
  if negb (read j) || negb (chunk j) || negb (compress j) || negb (encrypt j) || negb (upload j) then set_status j FAILED
  else set_status j SUCCESS.

Inductive Doing := Processing (j : BackupJob) | Resubmitting (j : BackupJob).

(** What a worker does with a job: [process_backup] outside the mutex, and a retry. *)
Definition worker_step (k : Doing) (sh : ()) : Outcome BackupJob Doing () BackupJob :=
  match k with
  | Processing j =>
      let j := process_backup j in
      {| goes_on := if bool_decide (status j = FAILED) && (retry_count j <? 3)%Z
                    then Some (Resubmitting {| job_id := job_id j; file_name := file_name j; retry_count := retry_count j + 1; status := status j |})
                    else None;
         leaves := sh; pushes := []; emits := [j]; signal := Each |}
  | Resubmitting j => {| goes_on := None; leaves := sh; pushes := [j]; emits := []; signal := Each |}
  end.

Definition submit_job (j : BackupJob) (sh : ()) : () * list BackupJob * Signal := (sh, [j], Each).

Definition no_job : BackupJob := {| job_id := 0; file_name := ""; retry_count := 0; status := PENDING |}.

Definition CloudBackupPipeline : Program BackupJob Doing () BackupJob BackupJob :=
  {| batch := 1; start := λ ts sh, (Processing (hd no_job ts), sh); step := worker_step; call := submit_job; stoppable := true |}.

(** The results of a job: a first attempt that fails is followed by one that succeeds. *)
Definition fails (j : BackupJob) : bool := (Z.rem (job_id j) 2 =? 1)%Z && (retry_count j =? 0)%Z.

Definition again (j : BackupJob) : BackupJob :=
  {| job_id := job_id j; file_name := file_name j; retry_count := retry_count j + 1; status := FAILED |}.

Definition attempts (j : BackupJob) : list BackupJob :=
  if fails j then [set_status j FAILED; set_status (again j) SUCCESS] else [set_status j SUCCESS].

Definition results (h : option Doing) : list BackupJob :=
  match h with Some (Processing j) | Some (Resubmitting j) => attempts j | None => [] end.

Definition backup_inv (st : bool) (sh : ()) (cs es ts : list BackupJob) (hs : list (option Doing)) (out : list BackupJob) : Prop :=
  ∃ q, es = ts ++ q ∧ out ++ (hs ≫= results) ++ (q ≫= attempts) ≡ₚ (cs ≫= attempts).

(** What the step that processes a job does. *)
Lemma processing_step j :
  worker_step (Processing j) () =
  {| goes_on := if fails j then Some (Resubmitting (again j)) else None; leaves := (); pushes := [];
     emits := [set_status j (if fails j then FAILED else SUCCESS)]; signal := Each |} ∧
  attempts j = set_status j (if fails j then FAILED else SUCCESS) :: if fails j then attempts (again j) else [].
Proof.
  assert (process_backup j = set_status j (if fails j then FAILED else SUCCESS)) as E.
  { unfold process_backup, fails. simpl. unfold upload. simpl. by destruct (Z.rem (job_id j) 2 =? 1)%Z, (retry_count j =? 0)%Z. }
  unfold worker_step. rewrite E. unfold attempts. destruct (fails j) eqn:Ef; simpl.
  - unfold fails in Ef. apply andb_prop in Ef as [_ Er]. apply Z.eqb_eq in Er. rewrite Er. simpl. unfold again, fails. simpl. rewrite Er.
    split; [done|]. rewrite andb_false_r. done.
  - done.
Qed.

#[global] Instance backup_invariant : Invariant CloudBackupPipeline backup_inv.
Proof.
  split.
  - simpl. lia.
  - intros st [] cs ts q hs out t k [] Hq (q' & E & HP) Hh Es. apply app_inv_head in E as <-. destruct q as [|j q]; [done|]. simpl in *. simplify_eq.
    rewrite take_0. exists q. split; [by rewrite <-(assoc_L (++))|]. rewrite <-HP.
    pose proof (bind_insert_perm results hs t _ (Some (Processing j)) Hh) as Ep. simpl in Ep. rewrite app_nil_r in Ep. rewrite Ep. solve_Permutation.
  - intros st [] cs es ts hs out t k o Hpre (q & -> & HP) Hh. subst o. destruct k as [j|j].
    + change (step CloudBackupPipeline) with worker_step. destruct (processing_step j) as [-> Ea]. simpl. rewrite app_nil_r. exists q. split; [done|]. rewrite <-HP.
      pose proof (bind_insert_perm results hs t _ (if fails j then Some (Resubmitting (again j)) else None) Hh) as Ep. simpl in Ep. rewrite Ea in Ep.
      assert ((hs ≫= results) ≡ₚ set_status j (if fails j then FAILED else SUCCESS) :: (<[t:=if fails j then Some (Resubmitting (again j)) else None]> hs ≫= results)) as ->.
      { destruct (fails j); simpl in *; apply (Permutation_app_inv_r (attempts (again j))) || idtac; [rewrite <-Ep; solve_Permutation|]. rewrite app_nil_r in Ep. rewrite <-Ep. solve_Permutation. }
      solve_Permutation.
    + simpl. rewrite app_nil_r. exists (q ++ [j]). split; [by rewrite (assoc_L (++))|]. rewrite <-HP, bind_app.
      pose proof (bind_insert_perm results hs t _ None Hh) as Ep. simpl in Ep. rewrite app_nil_r in Ep. rewrite <-Ep. simpl. rewrite app_nil_r. solve_Permutation.
  - intros [] cs es ts hs out j sh' ts' g (q & -> & HP) E. unfold call, CloudBackupPipeline, submit_job in E. simplify_eq. exists (q ++ [j]).
    split; [by rewrite (assoc_L (++))|]. rewrite !bind_app, <-HP. simpl. rewrite app_nil_r. solve_Permutation.
  - done.
Qed.

Definition job_weight (j : BackupJob) : nat := 4 * length (attempts j).

Definition doing_weight (k : Doing) : nat := match k with Processing j => job_weight j | Resubmitting j => job_weight j + 2 end.

#[global] Instance backup_weighted : Weighted CloudBackupPipeline backup_inv job_weight doing_weight (λ _, 0).
Proof.
  split.
  - intros st sh cs ts q hs out k sh' Hq _ E. destruct q as [|n q]; [done|]. simpl in *. simplify_eq. simpl. lia.
  - intros st [] cs es ts hs out t k o Hi Hh. subst o. destruct k as [j|j]; [|simpl; lia].
    change (step CloudBackupPipeline) with worker_step. destruct (processing_step j) as [-> Ea]. cbn [goes_on pushes leaves sum_list_with length doing_weight].
    unfold job_weight. rewrite Ea. destruct (fails j); cbn [todo_of doing_weight length]; unfold job_weight; lia.
Qed.

(** C32: Every backup is made.  Whatever the number of threads and the schedule, the pipeline
    settles, and then the results are, job by job, those of its attempts: one success for
    every job submitted, after one failure if the identifier is odd and it was fresh; after
    the destructor all workers have returned, retries included. *)
Theorem backup_pipeline_completes (numThreads : nat) (us : list (Turn BackupJob)) p :
  0 < numThreads → run CloudBackupPipeline (pool_make numThreads () []) us = Some p →
  settles CloudBackupPipeline p ∧
  (quiescent p →
    output p ≡ₚ (called p ≫= attempts) ∧
    job_id <$> filter (λ j, status j = SUCCESS) (output p) ≡ₚ job_id <$> called p ∧
    Forall (λ w, w = if stop p then Returned else Asleep) (workers p)).
Proof.
  intros Hn Hr. assert (backup_inv false () [] [] [] (replicate numThreads None) []) as H0 by (exists []; by rewrite held_none).
  split; [by eapply (workers_settle _ backup_inv), Hr; [apply _..|]|]. intros Hq.
  destruct (workers_end _ backup_inv numThreads () [] us p Hn H0 Hr Hq) as [(q & E & HP) Hw].
  assert (q = []) as -> by (apply (app_inv_head (entered p)); by rewrite app_nil_r).
  rewrite held_none in HP by done. rewrite !app_nil_r in HP. split_and!; [done| |done]. rewrite HP. clear.
  induction (called p) as [|j cs IH]; [done|]. csimpl. rewrite filter_app, fmap_app, IH.
  unfold attempts. by destruct (fails j).
Qed.

Definition odd_job : BackupJob := {| job_id := 7; file_name := "f"; retry_count := 0; status := PENDING |}.

Definition backup_schedule : list (Turn BackupJob) :=
  [CallIn odd_job; Notify 0; Work 0; Shutdown; Work 0; Work 1; Work 0; NotifyAll; Notify 1; Work 0; Work 0; Work 0; Work 1].

Lemma backup_pipeline_completes_witness :
  ∃ p, run CloudBackupPipeline (pool_make 2 () []) backup_schedule = Some p ∧ quiescent p ∧ output p ≡ₚ attempts odd_job.
Proof.
  destruct (run CloudBackupPipeline (pool_make 2 () []) backup_schedule) as [p|] eqn:E; [|vm_compute in E; discriminate].
  exists p. split; [done|]. assert (quiescent p ∧ called p = [odd_job]) as [Hq Hc].
  { vm_compute in E. injection E as <-. split; [|done]. intros [[|[|t]]|w| |c|]; reflexivity. }
  split; [done|]. destruct (backup_pipeline_completes 2 _ p ltac:(lia) E) as [_ H]. destruct (H Hq) as (HP & _ & _). rewrite Hc in HP. exact HP.
Defined.
End Backup.

(** ** The indexer of the search engine *)

Module Search.

(** [isalnum] in the C locale, for characters that are not negative. *)
Definition isalnum (c : ascii) : bool :=
  let n := Ascii.nat_of_ascii c in is_digit c || ((65 <=? n) && (n <=? 90)) || ((97 <=? n) && (n <=? 122)).

(** The loop of [tokenize]: the word being read and the words found. *)
Definition tokenize_loop (x : string * list string) (c : ascii) : string * list string :=
  let '(word, words) := x in
  if isalnum c then (word +:+ String c EmptyString, words)
  else if decide (word = EmptyString) then (word, words) else (EmptyString, words ++ [word]).

Definition tokenize (doc_text : string) : list string :=
  let '(word, words) := fold_left tokenize_loop (String.list_ascii_of_string doc_text) (EmptyString, []) in
  if decide (word = EmptyString) then words else words ++ [word].

(** [inverted_index\[term\].insert(document)] for every word. *)
Definition insert_terms (doc : Z) (words : list string) (index : gmap string (gset Z)) : gmap string (gset Z) :=
  fold_left (λ index term, <[term := {[doc]} ∪ default ∅ (index !! term)]> index) words index.

(** What is printed. *)
Inductive Message := Indexing (doc : Z) | Finished (doc : Z).

Inductive Doing := Tokenizing (doc_text : Z * string) | Inserting (doc_text : Z * string) (words : list string) | Finishing (doc : Z).

Definition worker_step (k : Doing) (index : gmap string (gset Z)) : Outcome (Z * string) Doing (gmap string (gset Z)) Message :=
  match k with
  | Tokenizing dt =>
      {| goes_on := Some (Inserting dt (tokenize dt.2)); leaves := index; pushes := []; emits := [Indexing dt.1]; signal := Each |}
  | Inserting dt words =>
      {| goes_on := Some (Finishing dt.1); leaves := insert_terms dt.1 words index; pushes := []; emits := []; signal := Each |}
  | Finishing doc => {| goes_on := None; leaves := index; pushes := []; emits := [Finished doc]; signal := Each |}
  end.

Definition add_document (dt : Z * string) (index : gmap string (gset Z)) : gmap string (gset Z) * list (Z * string) * Signal :=
  (index, [dt], Each).

Definition SearchEngine : Program (Z * string) Doing (gmap string (gset Z)) Message (Z * string) :=
  {| batch := 1; start := λ ts index, (Tokenizing (hd (0%Z, EmptyString) ts), index); step := worker_step; call := add_document; stoppable := true |}.

(** [serach]: the documents of a term in increasing order. *)
Definition serach (index : gmap string (gset Z)) (term : string) : list Z :=
  match index !! term with None => [] | Some docs => merge_sort Z.le (elements docs) end.

Lemma sorted_nodup_lt (l : list Z) : StronglySorted Z.le l → NoDup l → StronglySorted Z.lt l.
Proof.
  induction 1 as [|x l _ IH Hx]; intros Hn; constructor; apply NoDup_cons in Hn as [Hn ?]; [auto|].
  rewrite Forall_forall in *. intros y Hy. specialize (Hx y Hy). assert (y ≠ x) by (by intros ->). lia.
Qed.

(** *** Words *)

Definition alnum_word (w : string) : Prop := w ≠ EmptyString ∧ Forall (λ c, isalnum c = true) (String.list_ascii_of_string w).

Lemma string_to_list_app (s1 s2 : string) :
  String.list_ascii_of_string (s1 +:+ s2) = String.list_ascii_of_string s1 ++ String.list_ascii_of_string s2.
Proof. induction s1 as [|c s1 IH]; simpl; [done|by rewrite IH]. Qed.

Lemma tokenize_word (w : string) cs word words :
  Forall (λ c, isalnum c = true) (String.list_ascii_of_string w) →
  fold_left tokenize_loop (String.list_ascii_of_string w ++ cs) (word, words) = fold_left tokenize_loop cs (word +:+ w, words).
Proof.
  revert word. induction w as [|c w IH]; intros word Hw; simpl; [by rewrite string_app_nil_r|]. apply Forall_cons in Hw as [Hc Hw].
  rewrite Hc, IH by done. by rewrite string_app_assoc.
Qed.

(** A document is words separated by characters that are not alphanumeric. *)
Definition document (ws : list (string * ascii)) (last : string) : string :=
  foldr (λ x doc, x.1 +:+ String x.2 doc) last ws.

Lemma tokenize_document_loop ws last words :
  Forall (λ x, Forall (λ c, isalnum c = true) (String.list_ascii_of_string x.1) ∧ isalnum x.2 = false) ws →
  Forall (λ c, isalnum c = true) (String.list_ascii_of_string last) →
  fold_left tokenize_loop (String.list_ascii_of_string (document ws last)) (EmptyString, words) =
  (last, words ++ filter (λ w, w ≠ EmptyString) ws.*1).
Proof.
  revert words. induction ws as [|[w c] ws IH]; intros words Hws Hl; simpl.
  { rewrite app_nil_r. pose proof (tokenize_word last [] EmptyString words Hl) as E. by rewrite app_nil_r in E. }
  apply Forall_cons in Hws as [[Hw Hc] Hws]. simpl in *. rewrite string_to_list_app, tokenize_word by done. simpl. rewrite Hc.
  rewrite filter_cons. case_decide as Hw'; [subst|].
  - rewrite IH by done. by rewrite decide_False by naive_solver.
  - rewrite IH by done. rewrite decide_True by done. by rewrite <-(assoc_L (++)).
Qed.

(** [tokenize] finds the words of a document, in order. *)
Lemma tokenize_document ws last :
  Forall (λ x, Forall (λ c, isalnum c = true) (String.list_ascii_of_string x.1) ∧ isalnum x.2 = false) ws →
  Forall (λ c, isalnum c = true) (String.list_ascii_of_string last) →
  tokenize (document ws last) = filter (λ w, w ≠ EmptyString) (ws.*1 ++ [last]).
Proof.
  intros Hws Hl. unfold tokenize. rewrite (tokenize_document_loop ws last [] Hws Hl). simpl. rewrite filter_app, filter_cons, filter_nil.
  case_decide; [rewrite decide_False by naive_solver; by rewrite app_nil_r|by rewrite decide_True].
Qed.

(** *** The index *)

Definition indexed (index : gmap string (gset Z)) (term : string) (doc : Z) : Prop := doc ∈ default ∅ (index !! term).

Lemma insert_terms_spec doc words index term d :
  indexed (insert_terms doc words index) term d ↔ indexed index term d ∨ (d = doc ∧ term ∈ words).
Proof.
  unfold insert_terms. revert index. induction words as [|w words IH]; intros index; simpl; [rewrite elem_of_nil; naive_solver|].
  rewrite IH. unfold indexed. destruct (decide (w = term)) as [->|Hne].
  - rewrite lookup_insert_eq. simpl. rewrite elem_of_union, elem_of_singleton, elem_of_cons. naive_solver.
  - rewrite lookup_insert_ne by done. rewrite elem_of_cons. naive_solver.
Qed.

Definition unindexed (h : option Doing) : list (Z * string) :=
  match h with Some (Tokenizing dt) | Some (Inserting dt _) => [dt] | _ => [] end.

Record index_inv (st : bool) (index : gmap string (gset Z)) (cs es ts : list (Z * string)) (hs : list (option Doing)) (out : list Message) : Prop := {
  ix_entered : es = cs;
  ix_sound term d : indexed index term d → ∃ text, (d, text) ∈ ts ∧ term ∈ tokenize text;
  ix_complete term d text : (d, text) ∈ ts → term ∈ tokenize text → indexed index term d ∨ (d, text) ∈ (hs ≫= unindexed);
  ix_words t dt words : hs !! t = Some (Some (Inserting dt words)) → words = tokenize dt.2;
  ix_pending dt : dt ∈ (hs ≫= unindexed) → dt ∈ ts
}.

(** A worker goes from [x] to [y]; what it was to index is indexed or still to be. *)
Lemma indexer_moves st index index' cs es ts hs out out' t x y :
  index_inv st index cs es ts hs out → hs !! t = Some x →
  (∀ dt words, y = Some (Inserting dt words) → words = tokenize dt.2) →
  (∀ dt, dt ∈ unindexed y → dt ∈ unindexed x) →
  (∀ dt term, dt ∈ unindexed x → term ∈ tokenize dt.2 → indexed index' term dt.1 ∨ dt ∈ unindexed y) →
  (∀ term d, indexed index term d → indexed index' term d) →
  (∀ term d, indexed index' term d → indexed index term d ∨ ∃ text, (d, text) ∈ unindexed x ∧ term ∈ tokenize text) →
  index_inv st index' cs es ts (<[t := y]> hs) out'.
Proof.
  intros [He Hs Hc Hw Hp] Hh Hy Hyx Hxy Hmono Hnew. split; try done.
  - intros term d Hd. destruct (Hnew term d Hd) as [|(text & Hin & ?)]; [auto|]. exists text. split; [|done]. apply Hp.
    by eapply (held_lookup_elem unindexed hs t).
  - intros term d text Hin Ht. destruct (Hc term d text Hin Ht) as [|Hin']; [left; auto|].
    destruct (held_insert_replace unindexed hs t x y _ Hh Hin') as [|Hx]; [by right|].
    destruct (Hxy _ term Hx Ht); [by left|]. right. by eapply held_insert_in.
  - intros u dt words Hu. apply list_lookup_insert_Some in Hu as [(_ & E & _)|[_ Hu]]; [by apply Hy|by eapply Hw].
  - intros dt Hin. apply Hp. destruct (held_insert_new unindexed hs t x y dt Hh Hin) as [|Hin']; [done|].
    eapply (held_lookup_elem unindexed hs t); [done|auto].
Qed.

#[global] Instance index_invariant : Invariant SearchEngine index_inv.
Proof.
  split.
  - simpl. lia.
  - intros st index cs ts q hs out t k sh' Hq [He Hs Hc Hw Hp] Hh E. destruct q as [|dt q]; [done|]. simpl in E. simplify_eq. simpl. rewrite take_0.
    split; try done.
    + intros term d Hd. destruct (Hs term d Hd) as (text & ? & ?). exists text. split; [by apply elem_of_app; left|done].
    + intros term d text [Hin|<-%list_elem_of_singleton]%elem_of_app Ht; [|right; eapply held_insert_in; [done|by left]].
      destruct (Hc term d text Hin Ht) as [|Hin']; [by left|].
      destruct (held_insert_replace unindexed hs t _ (Some (Tokenizing dt)) _ Hh Hin') as [|Hx]; [by right|by apply not_elem_of_nil in Hx].
    + intros u dt' words Hu. apply list_lookup_insert_Some in Hu as [(_ & E & _)|[_ Hu]]; [done|by eapply Hw].
    + intros dt' Hin. apply elem_of_app. destruct (held_insert_new unindexed hs t _ _ dt' Hh Hin) as [|Hin']; [left; auto|by right].
  - intros st index cs es ts hs out t k o Hpre Hi Hh. subst o. destruct k as [dt|dt words|doc]; cbn [step SearchEngine worker_step goes_on leaves pushes emits signal];
      rewrite orb_false_r, app_nil_r.
    + apply (indexer_moves st index _ _ _ _ _ out _ t _ _ Hi Hh); [naive_solver|done|by right|done|by left].
    + pose proof (ix_words _ _ _ _ _ _ _ Hi t dt words Hh) as ->.
      apply (indexer_moves st index _ _ _ _ _ out _ t _ _ Hi Hh); [done|by intros ? []%not_elem_of_nil| | |].
      * intros dt' term ->%list_elem_of_singleton Ht. left. apply insert_terms_spec. auto.
      * intros term d Hd. apply insert_terms_spec. auto.
      * intros term d [|[-> Ht]]%insert_terms_spec; [by left|]. right. exists dt.2. split; [destruct dt; by left|done].
    + apply (indexer_moves st index _ _ _ _ _ out _ t _ _ Hi Hh); [done|by intros ? []%not_elem_of_nil|by intros ? ? []%not_elem_of_nil|done|by left].
  - intros index cs es ts hs out c sh' ts' g [He Hs Hc Hw Hp] E. unfold call, SearchEngine, add_document in E. simplify_eq. by split.
  - by intros index cs es ts hs out _ [].
Qed.

Definition doing_weight (k : Doing) : nat := match k with Tokenizing _ => 3 | Inserting _ _ => 2 | Finishing _ => 1 end.

#[global] Instance index_weighted : Weighted SearchEngine index_inv (λ _, 3) doing_weight (λ _, 0).
Proof.
  split.
  - intros st sh cs ts q hs out k sh' Hq _ E. destruct q as [|n q]; [done|]. simpl in *. simplify_eq. simpl. lia.
  - intros st index cs es ts hs out t k o Hi Hh. subst o. destruct k; simpl; lia.
Qed.


Definition search_schedule : list (Turn (Z * string)) :=
  [CallIn (2%Z, "to be"%string); CallIn (1%Z, "be, so"%string); Notify 0; Notify 0; Work 0; Work 1; Work 0; Work 1; Work 0; Work 1;
   Work 0; Work 1; Work 0; Work 1].

End Search.
