(* ===== verification/Pipelines.v ===== *)
(** * Pipelines with one worker

    Instances of [Workers] with a single thread that works in order: the asynchronous logger
    ([src/distributed/asyncLogger_Kafka.cpp]), the log pipeline with batches
    ([src/multi-stage-pipeline/LogIngestion_ProcessingPipeline.cpp]), the video pipeline
    ([src/multi-stage-pipeline/YoutubeVideoProcessingPipeline.cpp]) and the elevator
    ([src/simulations/ElevatorSystem_multiThreaded.cpp]).

    [InOrder] says what such a program has to show; it follows that the output is that of the
    calls in their order, complete when the worker has returned.  The elevator also reads the
    floor that the request before has left. *)
From S2P Require Import Prelude Workers.
Local Open Scope nat_scope.

Lemma bind_one {A} (l : list A) : (l ≫= λ x, [x]) = l.
Proof. induction l as [|x l IH]; [done|]. csimpl. by rewrite IH. Qed.

Lemma bind_join {A} (l : list (list A)) : (l ≫= id) = mjoin l.
Proof. induction l as [|x l IH]; [done|]. csimpl. by rewrite IH. Qed.

(** ** Working in order *)

Section in_order.
Context {Task K Sh Out Call X : Type} (P : Program Task K Sh Out Call).
(** [full ts] is the output of the tasks [ts], seen through [view]; [rest] what a busy worker
    will still print; [settled] the shared data after the tasks, and [after] what a busy
    worker makes of them. *)
Context (view : Out → list X) (task : Call → Task) (full : list Task → list X) (rest : K → Sh → list X)
  (settled : list Task → Sh) (after : K → Sh → Sh).

Definition rest_of (h : option K) (sh : Sh) : list X := match h with Some k => rest k sh | None => [] end.
Definition after_of (h : option K) (sh : Sh) : Sh := match h with Some k => after k sh | None => sh end.

Class InOrder := {
  io_batch : 0 < batch P;
  io_empty : full [] = [];
  io_start ts b k sh' :
    b ≠ [] → length b ≤ batch P → start P b (settled ts) = (k, sh') →
    full (ts ++ b) = full ts ++ rest k sh' ∧ after k sh' = settled (ts ++ b);
  io_step k sh :
    let o := step P k sh in
    pushes o = [] ∧ signal o = Each ∧
    rest k sh = (emits o ≫= view) ++ rest_of (goes_on o) (leaves o) ∧ after_of (goes_on o) (leaves o) = after k sh;
  io_call c sh : call P c sh = (sh, [task c], Each)
}.
Context `{!InOrder}.

Definition in_order_inv (st : bool) (sh : Sh) (cs : list Call) (es ts : list Task) (hs : list (option K)) (out : list Out) : Prop :=
  es = task <$> cs ∧ ts `prefix_of` es ∧ ∃ h, hs = [h] ∧ (out ≫= view) ++ rest_of h sh = full ts ∧ after_of h sh = settled ts.

#[global] Instance in_order_invariant : Invariant P in_order_inv.
Proof.
  split.
  - apply io_batch.
  - intros st sh cs ts q hs out t k sh' Hq (He & _ & h & -> & Hout & Haft) Ht Es.
    destruct t as [|t]; simpl in Ht; simplify_eq. simpl in *. rewrite app_nil_r in Hout. subst sh. split_and!; [done| |].
    + apply prefix_app. exists (drop (batch P) q). by rewrite take_drop.
    + exists (Some k). split; [done|]. pose proof io_batch as Hb. destruct (io_start ts (take (batch P) q) k sh') as [-> <-]; [|rewrite length_take; lia|done|].
      { destruct q; [done|]. by destruct (batch P); [lia|]. }
      simpl. by rewrite Hout.
  - intros st sh cs es ts hs out t k o _ (He & Hp & h & -> & Hout & Haft) Ht. destruct t as [|t]; simpl in Ht; simplify_eq.
    destruct (io_step k sh) as (Ep & Eg & Er & Ea). fold o in Ep, Eg, Er, Ea. rewrite Ep, app_nil_r. split_and!; [done|done|].
    exists (goes_on o). split; [done|]. simpl in *. split; [|by rewrite Ea]. by rewrite bind_app, <-Hout, Er, (assoc_L (++)).
  - intros sh cs es ts hs out c sh' ts' g (He & Hp & Hh) E. rewrite io_call in E. simplify_eq. split_and!; [by rewrite fmap_app| |done].
    by apply prefix_app_r.
  - by intros sh cs es ts hs out _ [].
Qed.

Lemma in_order_start : in_order_inv false (settled []) [] [] [] [None] [].
Proof. split_and!; [done|done|]. exists None. split_and!; [done|by rewrite io_empty|done]. Qed.

(** At every moment the output is the beginning of that of the calls; when nothing can move,
    all of it. *)
Lemma in_order_output tw bw us p :
  Ranked P in_order_inv tw bw → (∀ ts ts', full ts `prefix_of` full (ts ++ ts')) →
  run P (pool_make 1 (settled []) []) us = Some p →
  settles P p ∧ (output p ≫= view) `prefix_of` full (task <$> called p) ∧
  (quiescent p → (output p ≫= view) = full (task <$> called p) ∧ workers p = [if stop p then Returned else Asleep]).
Proof.
  intros Hrk Hmono Hr. split; [by apply (workers_settle P in_order_inv tw bw 1 (settled []) [] us p in_order_start)|]. destruct (workers_run P in_order_inv 1 (settled []) [] us p in_order_start Hr) as (Hi & (He & Hp & h & Eh & Hout & Haft) & Hl). split.
  - rewrite <-He. destruct Hp as [q ->]. etrans; [|apply Hmono]. rewrite <-Hout. by apply prefix_app_r.
  - intros Hq. destruct (workers_end P in_order_inv 1 (settled []) [] us p ltac:(lia) in_order_start Hr Hq) as [(He' & _ & h' & Eh' & Hout' & _) Hw].
    injection Eh' as <-. simpl in Hout'. rewrite app_nil_r in Hout'. rewrite <-He'. split; [done|].
    destruct (workers p) as [|w [|]]; simplify_eq/=. apply Forall_cons in Hw as [-> _]. done.
Qed.
End in_order.

(** Weights of the worker's remaining steps, for a program with one worker. *)
Definition single_weight {K Sh} (todo : K → Sh → nat) (sh : Sh) (hs : list (option K)) : nat :=
  match hs with [Some k] => todo k sh | _ => 0 end.

(** ** The asynchronous logger *)

Module AsyncLogger.

(** A worker that has taken a message writes it to the file, as one line. *)
Definition process_logs (msg : string) (sh : ()) : Outcome string string () string :=
  {| goes_on := None; leaves := sh; pushes := []; emits := [msg]; signal := Each |}.

Definition log (msg : string) (sh : ()) : () * list string * Signal := (sh, [msg], Each).

Definition AsyncLogger : Program string string () string string :=
  {| batch := 1; start := λ ts sh, (hd EmptyString ts, sh); step := process_logs; call := log; stoppable := true |}.

#[global] Instance logger_in_order : InOrder AsyncLogger (λ m, [m]) id id (λ m _, [m]) (λ _, ()) (λ _ sh, sh).
Proof.
  split; simpl; try done; [lia|]. intros ts [|m [|]] k [] Hb Hl E; simpl in *; simplify_eq; [done|lia].
Qed.

#[global] Instance logger_ranked : Ranked AsyncLogger (in_order_inv (λ m, [m]) id id (λ m _, [m]) (λ _, ()) (λ _ sh, sh)) (λ _, 1) (single_weight (λ _ _, 1)).
Proof.
  split.
  - intros st sh cs ts q hs out t k sh' Hq (_ & _ & h & -> & _) Hh _. destruct t as [|t]; simplify_eq/=. destruct q; simpl; [done|lia].
  - intros st sh cs es ts hs out t k o (_ & _ & h & -> & _) Hh. destruct t as [|t]; simplify_eq/=. lia.
Qed.

(** The log file has the messages in the order of the calls: at every moment a beginning of
    them, and all when the worker has returned. *)
Theorem async_logger_complete (us : list (Turn string)) p :
  run AsyncLogger (pool_make 1 () []) us = Some p →
  settles AsyncLogger p ∧ output p `prefix_of` called p ∧ (quiescent p → output p = called p ∧ workers p = [if stop p then Returned else Asleep]).
Proof.
  intros Hr. destruct (in_order_output AsyncLogger (λ m, [m]) id id (λ m _, [m]) (λ _, ()) (λ _ sh, sh) (λ _, 1) (single_weight (λ _ _, 1)) us p)
    as (Hs & H1 & H2); [apply _|intros; by apply prefix_app_r|done|].
  rewrite bind_one, list_fmap_id in H1, H2. done.
Qed.
End AsyncLogger.

(** ** The log pipeline *)

Module LogPipeline.

Definition BATCH_SIZE : nat := 3.

(** [process_logs] hands a batch to the sink. *)
Definition process_logs (logs : list string) (sh : ()) : Outcome string (list string) () (list string) :=
  {| goes_on := None; leaves := sh; pushes := []; emits := [logs]; signal := Each |}.

Definition ingest (msg : string) (sh : ()) : () * list string * Signal := (sh, [msg], Each).

Definition LogPipeline : Program string (list string) () (list string) string :=
  {| batch := BATCH_SIZE; start := λ ts sh, (ts, sh); step := process_logs; call := ingest; stoppable := true |}.

#[global] Instance pipeline_in_order : InOrder LogPipeline id id id (λ logs _, logs) (λ _, ()) (λ _ sh, sh).
Proof.
  split; simpl; try done; [unfold BATCH_SIZE; lia|by intros ts b k [] _ _ [= <-]|]. intros k sh. by rewrite !app_nil_r.
Qed.

#[global] Instance pipeline_ranked : Ranked LogPipeline (in_order_inv id id id (λ logs _, logs) (λ _, ()) (λ _ sh, sh)) (λ _, 1) (single_weight (λ _ _, 1)).
Proof.
  split.
  - intros st sh cs ts q hs out t k sh' Hq (_ & _ & h & -> & _) Hh _. destruct t as [|t]; simplify_eq/=. destruct q; simpl; [done|lia].
  - intros st sh cs es ts hs out t k o (_ & _ & h & -> & _) Hh. destruct t as [|t]; simplify_eq/=. lia.
Qed.

(** Batches have one to three entries. *)
Definition good_batch (logs : list string) : Prop := 0 < length logs ≤ BATCH_SIZE.

#[global] Instance pipeline_batches : Invariant LogPipeline (λ _ _ _ _ _ hs out, Forall good_batch out ∧ ∀ t logs, hs !! t = Some (Some logs) → good_batch logs).
Proof.
  split.
  - simpl. unfold BATCH_SIZE. lia.
  - intros st sh cs ts q hs out t k sh' Hq [Ho Hb] Hh E. simpl in E. injection E as <- <-. split; [done|]. intros u logs Hu.
    apply list_lookup_insert_Some in Hu as [(_ & [= <-] & _)|[_ Hu]]; [|by eapply Hb]. unfold good_batch. rewrite length_take.
    change (batch LogPipeline) with 3. unfold BATCH_SIZE. destruct q; [done|]. cbn [length]. lia.
  - intros st sh cs es ts hs out t k o _ [Ho Hb] Hh. simpl. split; [apply Forall_app; split; [done|apply Forall_singleton; by eapply Hb]|].
    intros u logs Hu. apply list_lookup_insert_Some in Hu as [(_ & E & _)|[_ Hu]]; [done|by eapply Hb].
  - done.
  - done.
Qed.

(** No log line is lost, repeated or reordered.  At every moment the sink has got a
    beginning of the lines that were ingested, in batches of one to three; without further
    calls the worker settles, and then it has got all of them and, after the destructor, has
    returned. *)
Theorem log_pipeline_complete (us : list (Turn string)) p :
  run LogPipeline (pool_make 1 () []) us = Some p →
  settles LogPipeline p ∧ mjoin (output p) `prefix_of` called p ∧ Forall good_batch (output p) ∧
  (quiescent p → mjoin (output p) = called p ∧ workers p = [if stop p then Returned else Asleep]).
Proof.
  intros Hr. destruct (in_order_output LogPipeline id id id (λ logs _, logs) (λ _, ()) (λ _ sh, sh) (λ _, 1) (single_weight (λ _ _, 1)) us p)
    as (Hs & H1 & H2); [apply _|intros; by apply prefix_app_r|done|].
  rewrite bind_join, list_fmap_id in H1, H2. split_and!; [done|done| |done].
  eapply (workers_run LogPipeline (λ _ _ _ _ _ hs out, Forall good_batch out ∧ ∀ t logs, hs !! t = Some (Some logs) → good_batch logs)) in Hr as (_ & [Hg _] & _); [done|].
  split; [done|]. intros [|t] logs; simpl; (done || by rewrite lookup_nil).
Qed.

Definition ingest_five : list (Turn string) :=
  (CallIn <$> ["a"; "b"; "c"; "d"; "e"]%string) ++ [Work 0; Work 0; Shutdown; Work 0; Work 0; Work 0] ++ replicate 5 (Notify 0) ++ [NotifyAll].

Lemma log_pipeline_complete_witness :
  ∃ p, run LogPipeline (pool_make 1 () []) ingest_five = Some p ∧ quiescent p ∧ mjoin (output p) = ["a"; "b"; "c"; "d"; "e"]%string.
Proof.
  destruct (run LogPipeline (pool_make 1 () []) ingest_five) as [p|] eqn:E; [|vm_compute in E; discriminate].
  exists p. split; [done|]. assert (quiescent p ∧ called p = ["a"; "b"; "c"; "d"; "e"]%string) as [Hq Hc].
  { vm_compute in E. injection E as <-. split; [|done]. intros [[|t]|w| |c|]; reflexivity. }
  split; [done|]. destruct (log_pipeline_complete ingest_five p E) as (_ & _ & _ & H). destruct (H Hq) as [-> _]. exact Hc.
Defined.
End LogPipeline.

(** ** The video pipeline *)

Module VideoPipeline.

Record Video := { id : Z; title : string }.

(** The stages print; their outputs are the events of a video. *)
Inductive Event := Transcoded (v : Video) | Thumbnail (v : Video) | Published (v : Video).

Inductive Doing := Transcode (v : Video) | Generate (v : Video) | Publish (v : Video).

Definition process_video (k : Doing) (sh : ()) : Outcome Video Doing () Event :=
  match k with
  | Transcode v => {| goes_on := Some (Generate v); leaves := sh; pushes := []; emits := [Transcoded v]; signal := Each |}
  | Generate v => {| goes_on := Some (Publish v); leaves := sh; pushes := []; emits := [Thumbnail v]; signal := Each |}
  | Publish v => {| goes_on := None; leaves := sh; pushes := []; emits := [Published v]; signal := Each |}
  end.

Definition upload (v : Video) (sh : ()) : () * list Video * Signal := (sh, [v], Each).

Definition VideoPipeline : Program Video Doing () Event Video :=
  {| batch := 1; start := λ ts sh, (Transcode (hd {| id := 0; title := "" |} ts), sh); step := process_video; call := upload; stoppable := true |}.

Definition events (v : Video) : list Event := [Transcoded v; Thumbnail v; Published v].

Definition events_left (k : Doing) (sh : ()) : list Event :=
  match k with Transcode v => events v | Generate v => [Thumbnail v; Published v] | Publish v => [Published v] end.

#[global] Instance video_in_order : InOrder VideoPipeline (λ e, [e]) Datatypes.id (λ vs, vs ≫= events) events_left (λ _, ()) (λ _ sh, sh).
Proof.
  split; simpl; try done; [lia| |by intros []]. intros ts [|v [|]] k [] Hb Hl E; simpl in *; simplify_eq; [|lia]. by rewrite bind_app.
Qed.

#[global] Instance video_ranked : Ranked VideoPipeline (in_order_inv (λ e, [e]) Datatypes.id (λ vs, vs ≫= events) events_left (λ _, ()) (λ _ sh, sh))
  (λ _, 3) (single_weight (λ k sh, length (events_left k sh))).
Proof.
  split.
  - intros st sh cs ts q hs out t k sh' Hq (_ & _ & h & -> & _) Hh E. destruct t as [|t]; simplify_eq/=. destruct q; simpl; [done|lia].
  - intros st sh cs es ts hs out t k o (_ & _ & h & -> & _) Hh. destruct t as [|t]; simplify_eq/=. destruct k; simpl; lia.
Qed.

(** Every video uploaded goes through the three stages, one after the other, in the order of
    the uploads. *)
Theorem video_pipeline_complete (us : list (Turn Video)) p :
  run VideoPipeline (pool_make 1 () []) us = Some p →
  settles VideoPipeline p ∧ output p `prefix_of` (called p ≫= events) ∧
  (quiescent p → output p = (called p ≫= events) ∧ workers p = [if stop p then Returned else Asleep]).
Proof.
  intros Hr. destruct (in_order_output VideoPipeline (λ e, [e]) Datatypes.id (λ vs, vs ≫= events) events_left (λ _, ()) (λ _ sh, sh)
    (λ _, 3) (single_weight (λ k sh, length (events_left k sh))) us p) as (Hs & H1 & H2); [apply _|intros; rewrite bind_app; by apply prefix_app_r|done|].
  rewrite bind_one, list_fmap_id in H1, H2. done.
Qed.
End VideoPipeline.

(** ** The elevator *)

Module Elevator.
Local Open Scope Z_scope.

Record ElevatorRequest := { person_id : Z; source_floor : Z; destination_floor : Z }.

(** What the elevator prints: its floor, and the persons it picks up and drops. *)
Inductive Event := AtFloor (floor : Z) | Picked (person floor : Z) | Dropped (person floor : Z).

(** The elevator moves to the source of a request, then to its destination. *)
Inductive Doing := ToSource (req : ElevatorRequest) | ToDestination (req : ElevatorRequest).

(** One round of the loop of [moveToFloor]. *)
Definition moveToFloor (targetFloor current_floor : Z) : Z := if targetFloor <? current_floor then current_floor - 1 else current_floor + 1.

(** A step of the loop of [run]; [current_floor] is only used by the elevator thread. *)
Definition run_step (k : Doing) (current_floor : Z) : Outcome ElevatorRequest Doing Z Event :=
  match k with
  | ToSource req =>
      if current_floor =? source_floor req
      then {| goes_on := Some (ToDestination req); leaves := current_floor; pushes := []; emits := [Picked (person_id req) (source_floor req)]; signal := Each |}
      else let f := moveToFloor (source_floor req) current_floor in
           {| goes_on := Some (ToSource req); leaves := f; pushes := []; emits := [AtFloor f]; signal := Each |}
  | ToDestination req =>
      if current_floor =? destination_floor req
      then {| goes_on := None; leaves := current_floor; pushes := []; emits := [Dropped (person_id req) (destination_floor req)]; signal := Each |}
      else let f := moveToFloor (destination_floor req) current_floor in
           {| goes_on := Some (ToDestination req); leaves := f; pushes := []; emits := [AtFloor f]; signal := Each |}
  end.

Definition requestLift (req : ElevatorRequest) (current_floor : Z) : Z * list ElevatorRequest * Signal := (current_floor, [req], Each).

Definition no_request : ElevatorRequest := {| person_id := 0; source_floor := 0; destination_floor := 0 |}.

Definition ElevatorSystem : Program ElevatorRequest Doing Z Event ElevatorRequest :=
  {| batch := 1; start := λ ts f, (ToSource (hd no_request ts), f); step := run_step; call := requestLift; stoppable := true |}.

(** The floors passed from [a] to [b], one by one. *)
Definition walk (a b : Z) : list Event :=
  (λ i, AtFloor (if a <? b then a + Z.of_nat i else a - Z.of_nat i)) <$> seq 1 (Z.to_nat (Z.abs (b - a))).

Definition ride (floor : Z) (req : ElevatorRequest) : list Event :=
  walk floor (source_floor req) ++ [Picked (person_id req) (source_floor req)] ++
  walk (source_floor req) (destination_floor req) ++ [Dropped (person_id req) (destination_floor req)].

(** The rides of a list of requests, from the floor where the one before has ended. *)
Fixpoint rides (floor : Z) (reqs : list ElevatorRequest) : list Event :=
  match reqs with [] => [] | req :: reqs => ride floor req ++ rides (destination_floor req) reqs end.

Definition final_floor (floor : Z) (reqs : list ElevatorRequest) : Z := fold_left (λ _ req, destination_floor req) reqs floor.

Definition events_left (k : Doing) (floor : Z) : list Event :=
  match k with
  | ToSource req => ride floor req
  | ToDestination req => walk floor (destination_floor req) ++ [Dropped (person_id req) (destination_floor req)]
  end.

Definition arrives (k : Doing) (floor : Z) : Z := match k with ToSource req | ToDestination req => destination_floor req end.

Lemma walk_here a : walk a a = [].
Proof. unfold walk. by rewrite Z.sub_diag. Qed.

Lemma walk_step a b : a ≠ b → walk a b = AtFloor (moveToFloor b a) :: walk (moveToFloor b a) b.
Proof.
  intros Hab. unfold walk, moveToFloor. destruct (Z.ltb_spec b a).
  - replace (Z.to_nat (Z.abs (b - a))) with (S (Z.to_nat (Z.abs (b - (a - 1))))) by lia. cbn [seq fmap list_fmap].
    destruct (Z.ltb_spec a b); [lia|]. destruct (Z.ltb_spec (a - 1) b); [lia|]. f_equal.
    rewrite <-(seq_shift _ 1), <-list_fmap_compose. apply list_fmap_ext. intros i x Hx. simpl. f_equal. lia.
  - replace (Z.to_nat (Z.abs (b - a))) with (S (Z.to_nat (Z.abs (b - (a + 1))))) by lia. cbn [seq fmap list_fmap].
    destruct (Z.ltb_spec a b); [|lia]. f_equal.
    rewrite <-(seq_shift _ 1), <-list_fmap_compose. apply list_fmap_ext. intros i x Hx. apply lookup_seq in Hx as [-> Hi]. simpl.
    destruct (Z.ltb_spec (a + 1) b); [f_equal; lia|lia].
Qed.

Lemma rides_app floor r1 r2 : rides floor (r1 ++ r2) = rides floor r1 ++ rides (final_floor floor r1) r2.
Proof. revert floor. induction r1 as [|r r1 IH]; intros floor; [done|]. cbn [rides app]. by rewrite IH, (assoc_L (++)). Qed.

#[global] Instance elevator_in_order : InOrder ElevatorSystem (λ e, [e]) id (rides 0) events_left (final_floor 0) arrives.
Proof.
  split; try done.
  - simpl. lia.
  - intros ts [|r [|]] k f Hb Hl E; simpl in *; simplify_eq; [|lia]. split; [by rewrite rides_app; simpl; rewrite app_nil_r|unfold final_floor; by rewrite fold_left_app].
  - intros [req|req] floor; simpl.
    + destruct (Z.eqb_spec floor (source_floor req)) as [->|Hne]; simpl; [unfold ride; by rewrite walk_here|].
      split_and!; [done|done| |done]. unfold ride. by rewrite (walk_step floor).
    + destruct (Z.eqb_spec floor (destination_floor req)) as [->|Hne]; simpl; [by rewrite walk_here|].
      split_and!; [done|done| |done]. by rewrite (walk_step floor).
Qed.

Lemma ride_length floor req : length (ride floor req) = (Z.to_nat (Z.abs (source_floor req - floor)) + Z.to_nat (Z.abs (destination_floor req - source_floor req)) + 2)%nat.
Proof. unfold ride, walk. rewrite !length_app, !length_fmap, !length_seq. simpl. lia. Qed.

(** The distance to the source depends on where the ride before ends: a request weighs its
    ride from there, and the idle elevator the rides of nobody. *)
Definition abs_weight (req : ElevatorRequest) : nat :=
  (Z.to_nat (Z.abs (source_floor req)) + Z.to_nat (Z.abs (destination_floor req - source_floor req)) + Z.to_nat (Z.abs (destination_floor req)) + 2)%nat.

Definition floor_weight (k : Doing) (floor : Z) : nat := (length (events_left k floor) + Z.to_nat (Z.abs (arrives k floor)))%nat.

Definition elevator_weight (floor : Z) (hs : list (option Doing)) : nat :=
  match hs with [Some k] => floor_weight k floor | _ => Z.to_nat (Z.abs floor) end.

#[global] Instance elevator_ranked : Ranked ElevatorSystem (in_order_inv (λ e, [e]) id (rides 0) events_left (final_floor 0) arrives) abs_weight elevator_weight.
Proof.
  split.
  - intros st floor cs ts q hs out t k sh' Hq (_ & _ & h & -> & _) Hh E. destruct t as [|t]; simplify_eq/=. destruct q as [|r q]; [done|].
    simpl in *. unfold floor_weight, abs_weight. simpl. rewrite ride_length. lia.
  - intros st floor cs es ts hs out t k o (_ & _ & h & -> & _) Hh. destruct t as [|t]; simplify_eq/=.
    destruct (@io_step _ _ _ _ _ _ _ _ _ _ _ _ _ elevator_in_order k floor) as (Ep & _ & Er & Ea). subst o. cbn [step ElevatorSystem] in *. rewrite Ep. cbn [sum_list_with length].
    unfold floor_weight. rewrite Er, length_app, bind_one. assert (0 < length (emits (run_step k floor)))%nat as He by (destruct k; simpl; repeat case_match; simpl; lia).
    unfold elevator_weight, floor_weight. destruct (goes_on (run_step k floor)) as [k'|] eqn:Eg; simpl in *; rewrite <-Ea; simpl; lia.
Qed.

(** The elevator serves everybody, in order.  The rides are those of the requests in the
    order of the calls: from the floor where the ride before has ended it passes, one by one,
    the floors to the source, picks the person up, passes the floors to the destination and
    drops the person there; at every moment a beginning of that has been printed, without
    calls it settles, and then everybody was served. *)
Theorem elevator_serves_in_order (us : list (Turn ElevatorRequest)) p :
  run ElevatorSystem (pool_make 1 0 []) us = Some p →
  settles ElevatorSystem p ∧ output p `prefix_of` rides 0 (called p) ∧
  (quiescent p → output p = rides 0 (called p) ∧ workers p = [if stop p then Returned else Asleep]).
Proof.
  intros Hr. destruct (in_order_output ElevatorSystem (λ e, [e]) id (rides 0) events_left (final_floor 0) arrives abs_weight elevator_weight us p)
    as (Hs & H1 & H2); [apply _|intros; rewrite rides_app; by apply prefix_app_r|done|].
  rewrite bind_one, list_fmap_id in H1, H2. done.
Qed.

Definition two_rides : list (Turn ElevatorRequest) :=
  [CallIn {| person_id := 1; source_floor := 1; destination_floor := 0 |}; Notify 0] ++ replicate 8 (Work 0%nat).

Lemma elevator_serves_in_order_witness :
  ∃ p, run ElevatorSystem (pool_make 1 0 []) two_rides = Some p ∧ quiescent p ∧
    output p = [AtFloor 1; Picked 1 1; AtFloor 0; Dropped 1 0].
Proof.
  destruct (run ElevatorSystem (pool_make 1 0 []) two_rides) as [p|] eqn:E; [|vm_compute in E; discriminate].
  exists p. split; [done|]. assert (quiescent p ∧ called p = [{| person_id := 1; source_floor := 1; destination_floor := 0 |}]) as [Hq Hc].
  { vm_compute in E. injection E as <-. split; [|done]. intros [[|t]|w| |c|]; reflexivity. }
  split; [done|]. destruct (elevator_serves_in_order two_rides p E) as (_ & _ & H). destruct (H Hq) as [-> _]. rewrite Hc. reflexivity.
Defined.
End Elevator.
