(* ===== verification/BuildSystem.v ===== *)
(** * The build system

    [src/multi-stage-pipeline/BuildSystem_Make_Bazel.cpp]: targets are built by worker threads
    in topological order (Kahn's algorithm).  The loop of the workers is that of [Workers];
    the workers themselves set the stop flag [done], when all targets are processed or
    nothing is left that could be. *)
From S2P Require Import Prelude Workers.
Local Open Scope Z_scope.

(** ** Dependencies *)

Record BuildSystem := { graph : gmap string (list string); indegree : gmap string Z }.

Definition BuildSystem_make : BuildSystem := {| graph := ∅; indegree := ∅ |}.

(** [graph\[d\]] and [indegree\[t\]] with [operator\[\]]. *)
Definition children (g : gmap string (list string)) (d : string) : list string := default [] (g !! d).
Definition degree (ind : gmap string Z) (t : string) : Z := default 0 (ind !! t).

Definition add_dependency (bs : BuildSystem) (target dependency : string) : BuildSystem :=
  let ind := <[target := degree (indegree bs) target + 1]> (indegree bs) in
  {| graph := <[dependency := children (graph bs) dependency ++ [target]]> (graph bs);
     indegree := match ind !! dependency with None => <[dependency := 0]> ind | Some _ => ind end |}.

(** [d] has to be built before [t]. *)
Definition dep (g : gmap string (list string)) (d t : string) : Prop := t ∈ children g d.

(** Every target has its number of dependencies, counted with repetitions. *)
Record deps_ok (bs : BuildSystem) : Prop := {
  deps_count t n : indegree bs !! t = Some n → n = refs_in id (graph bs) t;
  deps_targets d t : dep (graph bs) d t → is_Some (indegree bs !! t) ∧ is_Some (indegree bs !! d);
  deps_none t : indegree bs !! t = None → refs_in id (graph bs) t = 0
}.

Lemma refs_in_children (g : gmap string (list string)) d l t :
  refs_in id (<[d := l]> g) t = refs_in id g t - occ t (children g d) + occ t l.
Proof.
  unfold children. destruct (g !! d) as [l0|] eqn:E; simpl.
  - rewrite (refs_in_delete id (<[d := l]> g) d l) by apply lookup_insert_eq. rewrite delete_insert_eq.
    rewrite (refs_in_delete id g d l0) by done. simpl. lia.
  - rewrite refs_in_insert by done. change (occ t []) with 0. simpl. lia.
Qed.

Lemma refs_in_occ (g : gmap string (list string)) d t : occ t (children g d) ≤ refs_in id g t.
Proof.
  unfold children. destruct (g !! d) as [l|] eqn:E; simpl; [|apply refs_in_nonneg].
  rewrite (refs_in_delete id g d l) by done. pose proof (refs_in_nonneg id (delete d g) t). simpl. lia.
Qed.

Lemma add_dependency_ok bs target dependency : deps_ok bs → deps_ok (add_dependency bs target dependency).
Proof.
  intros [Hc Ht Hn]. set (ind := <[target := degree (indegree bs) target + 1]> (indegree bs)).
  assert (∀ t, refs_in id (graph (add_dependency bs target dependency)) t = refs_in id (graph bs) t + if decide (t = target) then 1 else 0) as Hrefs.
  { intros t. simpl. rewrite refs_in_children, occ_app, occ_cons. change (occ t []) with 0. lia. }
  assert (∀ t n, ind !! t = Some n → n = refs_in id (graph bs) t + if decide (t = target) then 1 else 0) as Hind.
  { intros t n. unfold ind. rewrite lookup_insert_Some. unfold degree. intros [[<- <-]|[Hne Hl]].
    - rewrite decide_True by done. destruct (indegree bs !! target) as [m|] eqn:E; simpl; [by rewrite (Hc _ _ E)|by rewrite (Hn _ E)].
    - rewrite decide_False by done. rewrite (Hc _ _ Hl). lia. }
  assert (∀ t, ind !! t = None → refs_in id (graph bs) t = 0 ∧ t ≠ target) as Hnone.
  { intros t. unfold ind. rewrite lookup_insert_None. intros [? ?]. auto. }
  assert (∀ t, is_Some (ind !! t) → is_Some (indegree (add_dependency bs target dependency) !! t)) as Hsome.
  { intros t Hs. simpl. fold ind. destruct (ind !! dependency) eqn:E; [done|]. rewrite lookup_insert_is_Some. destruct (decide (dependency = t)); auto. }
  split.
  - intros t n Hl. rewrite Hrefs. simpl in Hl. fold ind in Hl. destruct (ind !! dependency) as [m|] eqn:E; [by apply Hind|].
    apply lookup_insert_Some in Hl as [[<- <-]|[_ Hl]]; [|by apply Hind]. destruct (Hnone _ E) as [-> ?]. by rewrite decide_False.
  - intros d t Hd. unfold dep, children in Hd. simpl in Hd. assert (∀ u, is_Some (indegree bs !! u) → is_Some (ind !! u)) as Hold.
    { intros u Hu. unfold ind. apply lookup_insert_is_Some. destruct (decide (target = u)); auto. }
    assert (is_Some (indegree (add_dependency bs target dependency) !! dependency)) as Hdep.
    { simpl. fold ind. destruct (ind !! dependency) eqn:E; [by rewrite E|]. rewrite lookup_insert_eq. done. }
    destruct (decide (d = dependency)) as [->|Hne].
    + split; [|done]. rewrite lookup_insert_eq in Hd. simpl in Hd. apply elem_of_app in Hd as [Hd| ->%list_elem_of_singleton].
      * apply Hsome, Hold. by apply (Ht dependency).
      * apply Hsome. unfold ind. rewrite lookup_insert_eq. done.
    + rewrite lookup_insert_ne in Hd by done. destruct (Ht d t Hd). auto.
  - intros t Hl. rewrite Hrefs. simpl in Hl. fold ind in Hl.
    assert (ind !! t = None) as E.
    { destruct (ind !! dependency) as [m|] eqn:E; [done|]. by apply lookup_insert_None in Hl as [? _]. }
    destruct (Hnone t E) as [-> ?]. by rewrite decide_False.
Qed.

Definition add_all (deps : list (string * string)) : BuildSystem :=
  fold_left (λ bs x, add_dependency bs x.1 x.2) deps BuildSystem_make.

Lemma add_all_ok deps : deps_ok (add_all deps).
Proof.
  unfold add_all. apply fold_left_invariant; [intros bs [t d]; apply add_dependency_ok|].
  split; simpl; try done. intros d t. unfold dep, children. simpl. rewrite lookup_empty. simpl. by intros []%not_elem_of_nil.
Qed.

(** ** The workers *)

(** What [mtx] protects beside the ready queue; [ready_size] is [ready_queue.size()]. *)
Record Counters := { degrees : gmap string Z; processed_targets : Z; total_targets : Z; active_workers : Z; ready_size : Z }.

Inductive Event := Building (t : string) | Finished (t : string).

(** A worker that has taken a target prints, builds, prints, and then enters the mutex. *)
Inductive Doing := Announcing (t : string) | Compiling (t : string) | Completing (t : string).

(** The loop over [graph\[target\]]: the degrees, and the targets that become ready. *)
Fixpoint release (cs : list string) (ind : gmap string Z) : gmap string Z * list string :=
  match cs with
  | [] => (ind, [])
  | child :: cs =>
      let n := degree ind child - 1 in
      let '(ind, ready) := release cs (<[child := n]> ind) in
      (ind, (if n =? 0 then [child] else []) ++ ready)
  end.

Definition worker_step (g : gmap string (list string)) (k : Doing) (c : Counters) : Outcome string Doing Counters Event :=
  match k with
  | Announcing t => {| goes_on := Some (Compiling t); leaves := c; pushes := []; emits := [Building t]; signal := Each |}
  | Compiling t => {| goes_on := Some (Completing t); leaves := c; pushes := []; emits := [Finished t]; signal := Each |}
  | Completing t =>
      let '(ind, ready) := release (children g t) (degrees c) in
      let c := {| degrees := ind; processed_targets := processed_targets c + 1; total_targets := total_targets c;
                  active_workers := active_workers c - 1; ready_size := ready_size c + length ready |} in
      {| goes_on := None; leaves := c; pushes := ready; emits := [];
         signal := if (processed_targets c =? total_targets c) || ((ready_size c =? 0) && (active_workers c =? 0)) then StopEveryone else Everyone |}
  end.

(** A worker takes the front of the queue. *)
Definition worker_take (ts : list string) (c : Counters) : Doing * Counters :=
  (Announcing (hd EmptyString ts),
   {| degrees := degrees c; processed_targets := processed_targets c; total_targets := total_targets c;
      active_workers := active_workers c + 1; ready_size := ready_size c - 1 |}).

(** Nobody calls in while [build] runs, and nobody else stops the workers. *)
Definition worker (g : gmap string (list string)) : Program string Doing Counters Event Empty_set :=
  {| batch := 1; start := worker_take; step := worker_step g; call := λ c : Empty_set, match c with end; stoppable := false |}.

(** The targets without dependencies, in the order in which [build] meets them. *)
Definition sources (bs : BuildSystem) (ready : list string) : Prop := NoDup ready ∧ ∀ t, t ∈ ready ↔ indegree bs !! t = Some 0.

(** [build] up to the creation of the threads. *)
Definition build (bs : BuildSystem) (ready : list string) (numThreads : nat) : Pool string Doing Counters Event Empty_set :=
  pool_make numThreads
    {| degrees := indegree bs; processed_targets := 0; total_targets := size (indegree bs); active_workers := 0; ready_size := length ready |}
    ready.

(** What [build] prints after it has joined the threads. *)
Definition successful (c : Counters) : bool := processed_targets c =? total_targets c.

(** *** Releasing the children of a target *)

Lemma release_spec cs ind :
  (∀ t, occ t cs ≤ degree ind t) → (∀ t, t ∈ cs → is_Some (ind !! t)) →
  let '(ind', ready) := release cs ind in
  dom ind' = dom ind ∧ (∀ t, degree ind' t = degree ind t - occ t cs) ∧ NoDup ready ∧ (∀ t, t ∈ ready ↔ t ∈ cs ∧ degree ind' t = 0).
Proof.
  revert ind. induction cs as [|child cs IH]; intros ind Hocc Hdom; simpl.
  { split_and!; [done|intros t; change (occ t []) with 0; lia|apply NoDup_nil_2|]. intros t. rewrite elem_of_nil. naive_solver. }
  set (n := degree ind child - 1). set (ind1 := <[child := n]> ind).
  assert (∀ t, degree ind1 t = degree ind t - if decide (t = child) then 1 else 0) as Hdeg.
  { intros t. unfold ind1, degree. case_decide; [subst; by rewrite lookup_insert_eq|rewrite lookup_insert_ne by done; lia]. }
  assert (dom ind1 = dom ind) as Hd1.
  { unfold ind1. rewrite dom_insert_L. apply subseteq_union_1_L, singleton_subseteq_l, elem_of_dom, Hdom. by left. }
  specialize (IH ind1). destruct (release cs ind1) as [ind' ready]. destruct IH as (Hd & Hdg & Hnd & Hrd).
  - intros t. rewrite Hdeg. specialize (Hocc t). rewrite occ_cons in Hocc. lia.
  - intros t Ht. apply elem_of_dom. rewrite Hd1. apply elem_of_dom, Hdom. by right.
  - assert (∀ t, degree ind' t = degree ind t - occ t (child :: cs)) as Hdg'.
    { intros t. rewrite Hdg, Hdeg, occ_cons. lia. }
    assert (n = 0 → child ∉ cs) as Hlast.
    { intros Hn0 Hin. apply occ_elem in Hin. specialize (Hocc child). rewrite occ_cons, decide_True in Hocc by done. unfold n in Hn0. lia. }
    split_and!; [by rewrite Hd|done| |].
    + destruct (Z.eqb_spec n 0) as [E|E]; [|done]. apply NoDup_cons. split; [|done]. rewrite Hrd. intros [Hin _]. by apply Hlast.
    + intros t. rewrite elem_of_app, Hrd, elem_of_cons. destruct (Z.eqb_spec n 0) as [E|E].
      * rewrite list_elem_of_singleton. split; [|naive_solver]. intros [->|[? ?]]; [|naive_solver]. split; [by left|].
        rewrite Hdg'. rewrite occ_cons, decide_True by done. specialize (Hlast E).
        rewrite occ_not_elem by done. unfold n in E. lia.
      * rewrite elem_of_nil. split; [naive_solver|]. intros [[->|Hin] H0]; [|naive_solver]. right. split; [|done].
        destruct (decide (child ∈ cs)) as [|Hnin]; [done|]. exfalso. rewrite Hdg', occ_cons, decide_True in H0 by done.
        rewrite occ_not_elem in H0 by done. unfold n in E. lia.
Qed.

(** The targets with dependencies left. *)
Definition blocked (ind : gmap string Z) : gset string := dom (filter (λ x, x.2 ≠ 0) ind).

Lemma elem_of_blocked ind t : t ∈ blocked ind ↔ is_Some (ind !! t) ∧ degree ind t ≠ 0.
Proof.
  unfold blocked, degree. rewrite elem_of_dom. split.
  - intros [n [Hn Hz]%map_lookup_filter_Some]. rewrite Hn. split; [by eexists|done].
  - intros [[n Hn] Hz]. rewrite Hn in Hz. exists n. by apply map_lookup_filter_Some.
Qed.

Lemma release_blocked cs ind :
  (∀ t, occ t cs ≤ degree ind t) → (∀ t, t ∈ cs → is_Some (ind !! t)) →
  let '(ind', ready) := release cs ind in (size (blocked ind') + length ready ≤ size (blocked ind))%nat.
Proof.
  intros Hocc Hdom. pose proof (release_spec cs ind Hocc Hdom) as Hrel. destruct (release cs ind) as [ind' ready]. destruct Hrel as (Hd & Hdeg & Hn & Hr).
  rewrite <-(size_list_to_set (C := gset string) ready) by done. rewrite <-size_union.
  - apply subseteq_size. intros t [Ht|Ht]%elem_of_union; apply elem_of_blocked.
    + apply elem_of_blocked in Ht as [Hs Hz]. split; [apply elem_of_dom; rewrite <-Hd; by apply elem_of_dom|]. rewrite Hdeg in Hz.
      pose proof (occ_nonneg t cs). specialize (Hocc t). lia.
    + apply elem_of_list_to_set, Hr in Ht as [Ht _]. split; [auto|]. apply occ_elem in Ht. specialize (Hocc t). lia.
  - intros t Ht1 Ht2. apply elem_of_blocked in Ht1 as [_ Hz]. apply elem_of_list_to_set, Hr in Ht2 as [_ ?]. done.
Qed.

(** *** The invariant of a build *)

Section build.
Context (bs : BuildSystem) (Hbs : deps_ok bs).
Abbreviation g := (graph bs).

(** The dependencies on targets that are not complete. *)
Definition left_over (C : list string) : gmap string (list string) := filter (λ x, x.1 ∉ C) g.

Definition target_of (h : option Doing) : list string :=
  match h with Some (Announcing t) | Some (Compiling t) | Some (Completing t) => [t] | None => [] end.

(** Targets that were taken, but not announced or not finished yet. *)
Definition unannounced (h : option Doing) : list string := match h with Some (Announcing t) => [t] | _ => [] end.
Definition unfinished (h : option Doing) : list string := match h with Some (Announcing t) | Some (Compiling t) => [t] | _ => [] end.

Definition building (e : Event) : list string := match e with Building t => [t] | _ => [] end.
Definition finished (e : Event) : list string := match e with Finished t => [t] | _ => [] end.

(** The output so far is in order. *)
Definition ordered (out : list Event) : Prop :=
  ∀ i t d, out !! i = Some (Building t) → dep g d t → Finished d ∈ take i out.

Record build_inv (st : bool) (c : Counters) (cs : list Empty_set) (es ts : list string) (hs : list (option Doing)) (out : list Event)
    (C q : list string) : Prop := {
  bi_queue : es = ts ++ q;
  bi_once : NoDup es;
  bi_held : ts ≡ₚ C ++ (hs ≫= target_of);
  bi_counts : processed_targets c = length C ∧ total_targets c = size (indegree bs) ∧
    active_workers c = length (hs ≫= target_of) ∧ ready_size c = length q;
  bi_dom : dom (degrees c) = dom (indegree bs);
  bi_degree t : degree (degrees c) t = refs_in id (left_over C) t;
  bi_ready t : t ∈ es ↔ degrees c !! t = Some 0;
  bi_done : st = true ↔ C ≠ [] ∧ q = [] ∧ (hs ≫= target_of) = [];
  bi_acc t : t ∈ es → Acc (dep g) t;
  bi_building : (out ≫= building) ++ (hs ≫= unannounced) ≡ₚ ts;
  bi_finished : (out ≫= finished) ++ (hs ≫= unfinished) ≡ₚ ts;
  bi_ordered : ordered out
}.

Lemma left_over_snoc C t : left_over (C ++ [t]) = delete t (left_over C).
Proof.
  apply map_eq. intros d. unfold left_over. destruct (decide (t = d)) as [->|Hne].
  - rewrite lookup_delete_eq. apply map_lookup_filter_None. right. intros x _ Hx. apply Hx. apply elem_of_app. right. by left.
  - rewrite lookup_delete_ne by done. apply option_eq. intros l. rewrite !map_lookup_filter_Some. simpl. rewrite not_elem_of_app, list_elem_of_singleton. naive_solver.
Qed.

Lemma left_over_children C t : t ∉ C → children (left_over C) t = children g t.
Proof.
  intros Ht. unfold children. f_equal. destruct (g !! t) as [l|] eqn:E.
  - apply map_lookup_filter_Some. done.
  - apply map_lookup_filter_None. by left.
Qed.

Lemma refs_left_snoc C t u : t ∉ C → refs_in id (left_over (C ++ [t])) u = refs_in id (left_over C) u - occ u (children g t).
Proof.
  intros Ht. rewrite left_over_snoc, <-(left_over_children C t Ht). unfold children. destruct (left_over C !! t) as [l|] eqn:E; simpl.
  - rewrite (refs_in_delete id (left_over C) t l) by done. simpl. lia.
  - rewrite delete_id by done. change (occ u []) with 0. lia.
Qed.

(** A target without dependencies left: all it depends on is complete. *)
Lemma no_refs_complete C d t : refs_in id (left_over C) t = 0 → dep g d t → d ∈ C.
Proof.
  intros Hr Hd. destruct (decide (d ∈ C)) as [|Hn]; [done|]. unfold dep in Hd. rewrite <-(left_over_children C d Hn) in Hd.
  apply occ_elem in Hd. pose proof (refs_in_occ (left_over C) d t). lia.
Qed.

Lemma refs_in_zero (m : gmap string (list string)) t : (∀ d l, m !! d = Some l → t ∉ l) → refs_in id m t = 0.
Proof.
  induction m as [|d l m Hd IH] using map_ind; intros Hm; [done|]. rewrite refs_in_insert by done. rewrite IH.
  - rewrite occ_not_elem; [done|]. apply (Hm d). by rewrite lookup_insert_eq.
  - intros d' l' Hl'. apply (Hm d'). rewrite lookup_insert_ne; [done|]. intros ->. congruence.
Qed.

(** If all it depends on is complete, a target has no dependencies left. *)
Lemma complete_no_refs C t : (∀ d, dep g d t → d ∈ C) → refs_in id (left_over C) t = 0.
Proof.
  intros Hd. apply refs_in_zero. intros d l [Hl Hn]%map_lookup_filter_Some Ht. apply Hn, Hd. unfold dep, children. simpl in *. by rewrite Hl.
Qed.

Lemma degree_zero c t : is_Some (degrees c !! t) → degree (degrees c) t = 0 ↔ degrees c !! t = Some 0.
Proof. intros [n Hn]. unfold degree. rewrite Hn. simpl. split; [by intros ->|by intros [= ->]]. Qed.

(** What was complete was finished before. *)
Lemma complete_finished st c cs es ts hs out C q d : build_inv st c cs es ts hs out C q → d ∈ C → Finished d ∈ out.
Proof.
  intros Hi Hd. pose proof (bi_once _ _ _ _ _ _ _ _ _ Hi) as Hn. rewrite (bi_queue _ _ _ _ _ _ _ _ _ Hi) in Hn. apply NoDup_app in Hn as [Hn _].
  pose proof (bi_held _ _ _ _ _ _ _ _ _ Hi) as Hh. pose proof (bi_finished _ _ _ _ _ _ _ _ _ Hi) as Hf.
  assert (d ∈ (out ≫= finished) ++ (hs ≫= unfinished)) as Hin by (rewrite Hf, Hh; apply elem_of_app; by left).
  apply elem_of_app in Hin as [Hin|Hin].
  - apply list_elem_of_bind in Hin as ([u|u] & Hu & He); simpl in Hu; [by apply not_elem_of_nil in Hu|]. apply list_elem_of_singleton in Hu. by subst.
  - exfalso. rewrite Hh in Hn. apply NoDup_app in Hn as (_ & Hn & _). apply (Hn d Hd). apply list_elem_of_bind in Hin as (h & Hx & Hh').
    apply list_elem_of_bind. exists h. split; [|done]. destruct h as [[]|]; simpl in *; done || by apply not_elem_of_nil in Hx.
Qed.

Lemma nodup_size (l : list string) (m : gmap string Z) : NoDup l → (∀ x, x ∈ l → is_Some (m !! x)) → Z.of_nat (length l) ≤ size m.
Proof.
  intros Hn Hl. rewrite <-size_dom. rewrite <-(size_list_to_set (C := gset string) l) by done.
  assert (list_to_set l ⊆ dom m) as Hsub by (intros x Hx; apply elem_of_dom, Hl; by apply elem_of_list_to_set in Hx).
  apply subseteq_size in Hsub. lia.
Qed.

(** A worker that goes from [x] to [y] and does not change what it holds. *)
Lemma held_perm {A} (f : option Doing → list A) hs t x y : hs !! t = Some x → (<[t := y]> hs ≫= f) ++ f x ≡ₚ (hs ≫= f) ++ f y.
Proof. apply bind_insert_perm. Qed.

Lemma held_same_target (f : option Doing → list string) hs t x y : hs !! t = Some x → f x = f y → (<[t := y]> hs ≫= f) ≡ₚ (hs ≫= f).
Proof. intros Hh E. pose proof (held_perm f hs t x y Hh) as Hp. rewrite E in Hp. by apply Permutation_app_inv_r in Hp. Qed.

Lemma ordered_snoc out e : ordered out → (∀ t d, e = Building t → dep g d t → Finished d ∈ out) → ordered (out ++ [e]).
Proof.
  intros Ho He i t d Hi Hd. apply lookup_app_Some in Hi as [Hi|[Hlen Hi]].
  - rewrite take_app_le by (apply lookup_lt_Some in Hi; lia). by eapply Ho.
  - destruct (i - length out)%nat eqn:E; simpl in Hi; [|done]. simplify_eq. rewrite take_app_ge by lia. apply elem_of_app. left. by eapply He.
Qed.

(** The steps that print. *)
Lemma build_prints st c cs es ts hs out C q t x y e :
  build_inv st c cs es ts hs out C q → hs !! t = Some x → target_of x = target_of y →
  unannounced x = building e ++ unannounced y → unfinished x = finished e ++ unfinished y →
  (∀ t d, e = Building t → dep g d t → Finished d ∈ out) →
  build_inv st c cs es ts (<[t := y]> hs) (out ++ [e]) C q.
Proof.
  intros [H1 H2 H3 (H4a & H4b & H4c & H4d) H5 H6 H7 H8 H9 H10 H11 H12] Hh Et Ea Ef He.
  pose proof (held_same_target target_of hs t x y Hh Et) as Hp. split; try done.
  - by rewrite Hp.
  - by rewrite Hp.
  - rewrite H8. split; intros (? & ? & E); split_and!; try done; apply Permutation_nil_r; by rewrite <-E, Hp.
  - rewrite bind_app. simpl. rewrite app_nil_r, <-H10. pose proof (held_perm unannounced hs t x y Hh) as Hq. rewrite Ea in Hq.
    apply (Permutation_app_inv_r (unannounced y)). rewrite <-!(assoc_L (++)), <-Hq. solve_Permutation.
  - rewrite bind_app. simpl. rewrite app_nil_r, <-H11. pose proof (held_perm unfinished hs t x y Hh) as Hq. rewrite Ef in Hq.
    apply (Permutation_app_inv_r (unfinished y)). rewrite <-!(assoc_L (++)), <-Hq. solve_Permutation.
  - by apply ordered_snoc.
Qed.

(** After a release the queued targets are again those of degree zero, each once. *)
Lemma release_ready ch deg ind ready es :
  (∀ v, occ v ch ≤ degree deg v) → (∀ v, v ∈ ch → is_Some (deg !! v)) → dom ind = dom deg →
  (∀ v, degree ind v = degree deg v - occ v ch) → NoDup ready → (∀ v, v ∈ ready ↔ v ∈ ch ∧ degree ind v = 0) →
  NoDup es → (∀ v, v ∈ es ↔ deg !! v = Some 0) → NoDup (es ++ ready) ∧ ∀ v, v ∈ es ++ ready ↔ ind !! v = Some 0.
Proof.
  intros Hocc Hsome Hdom Hdeg Hrn Hrd H2 H7.
  assert (∀ v, is_Some (ind !! v) ↔ is_Some (deg !! v)) as Hiff by (intros v; rewrite <-!elem_of_dom, Hdom; done).
  assert (∀ (m : gmap string Z) v, is_Some (m !! v) → degree m v = 0 → m !! v = Some 0) as Hz.
  { intros m v [n Hn]. unfold degree. rewrite Hn. simpl. by intros ->. }
  assert (∀ v, v ∈ es → v ∉ ch) as Hnew.
  { intros v Hv Hc. apply H7 in Hv. apply occ_elem in Hc. specialize (Hocc v). unfold degree in Hocc. rewrite Hv in Hocc. simpl in Hocc. lia. }
  split.
  - apply NoDup_app. split_and!; [done| |done]. intros v Hv Hr. apply Hrd in Hr as [? _]. by eapply Hnew.
  - intros v. rewrite elem_of_app, Hrd. split.
    + intros [Hv|[Hv H0]]; [|apply Hz; [by apply Hiff, Hsome|done]]. pose proof (proj1 (H7 v) Hv) as Hl. apply Hz; [apply Hiff; by eexists|].
      rewrite Hdeg, occ_not_elem by (by apply Hnew). unfold degree. by rewrite Hl.
    + intros Hl. assert (degree ind v = 0) as H0 by (unfold degree; by rewrite Hl). destruct (decide (v ∈ ch)) as [|Hn]; [by right|]. left. apply H7.
      apply Hz; [apply Hiff; by eexists|]. rewrite Hdeg, occ_not_elem in H0 by done. lia.
Qed.

(** The test for the end: all targets are processed, or nobody has anything to do; the
    second follows from the first. *)
Lemma end_test (processed total waiting active : nat) :
  (processed + active + waiting ≤ total)%nat →
  (Z.of_nat processed =? total) || ((Z.of_nat waiting =? 0) && (Z.of_nat active =? 0)) = true ↔ waiting = 0%nat ∧ active = 0%nat.
Proof. intros H. rewrite orb_true_iff, andb_true_iff, !Z.eqb_eq. lia. Qed.

Lemma build_completes st c cs es ts hs out C q t u :
  build_inv st c cs es ts hs out C q → hs !! t = Some (Some (Completing u)) →
  let o := worker_step g (Completing u) c in
  build_inv (st || stops_now (signal o)) (leaves o) cs (es ++ pushes o) ts (<[t := goes_on o]> hs) (out ++ emits o) (C ++ [u]) (q ++ pushes o).
Proof.
  intros [H1 H2 H3 (H4a & H4b & H4c & H4d) H5 H6 H7 H8 H9 H10 H11 H12] Hh. cbn [worker_step].
  pose proof (held_perm target_of hs t _ None Hh) as Hp. cbn [target_of] in Hp. rewrite app_nil_r in Hp.
  assert (NoDup (C ++ (hs ≫= target_of))) as Hnd by (rewrite <-H3; rewrite H1 in H2; by apply NoDup_app in H2 as [? _]).
  assert (u ∉ C) as HuC.
  { intros HC. apply NoDup_app in Hnd as (_ & Hnd & _). apply (Hnd u HC). rewrite <-Hp. apply elem_of_app. right. by left. }
  assert (∀ v, occ v (children g u) ≤ degree (degrees c) v) as Hocc.
  { intros v. rewrite H6, <-(left_over_children C u HuC). apply refs_in_occ. }
  assert (∀ v, v ∈ children g u → is_Some (degrees c !! v)) as Hsome.
  { intros v Hv. apply elem_of_dom. rewrite H5. apply elem_of_dom. by apply (deps_targets bs Hbs u v). }
  pose proof (release_spec (children g u) (degrees c) Hocc Hsome) as Hrel. destruct (release (children g u) (degrees c)) as [ind ready].
  destruct Hrel as (Hdom & Hdeg & Hrn & Hrd). cbn [goes_on leaves pushes emits signal processed_targets total_targets active_workers ready_size degrees].
  rewrite app_nil_r.
  assert (∀ v, degree ind v = refs_in id (left_over (C ++ [u])) v) as Hdeg' by (intros v; rewrite Hdeg, H6, refs_left_snoc by done; done).
  destruct (release_ready (children g u) (degrees c) ind ready es Hocc Hsome Hdom Hdeg Hrn Hrd H2 H7) as [Hnd' Hready].
  assert (st = false) as ->.
  { destruct st; [|done]. destruct (proj1 H8 eq_refl) as (_ & _ & E). rewrite E in Hp. by apply Permutation_nil_r, app_nil in Hp as [_ ?]. }
  assert (processed_targets c + 1 = length (C ++ [u])) as Eproc by (rewrite length_app; simpl; lia).
  assert (active_workers c - 1 = length (<[t := None]> hs ≫= target_of)) as Eact.
  { apply Permutation_length in Hp. rewrite length_app in Hp. simpl in Hp. lia. }
  assert (ready_size c + length ready = length (q ++ ready)) as Erd by (rewrite length_app; lia).
  assert (ts ≡ₚ (C ++ [u]) ++ (<[t := None]> hs ≫= target_of)) as Hts by (rewrite H3, <-Hp; solve_Permutation).
  split; cbn [processed_targets total_targets active_workers ready_size degrees].
  - by rewrite H1, (assoc_L (++)).
  - exact Hnd'.
  - exact Hts.
  - split_and!; [exact Eproc|exact H4b|exact Eact|exact Erd].
  - by rewrite Hdom.
  - exact Hdeg'.
  - exact Hready.
  - simpl. rewrite Eproc, Erd, Eact, H4b.
    assert (Z.of_nat (length (es ++ ready)) ≤ size (indegree bs)) as Hsz.
    { apply nodup_size; [done|]. intros v Hv. rewrite <-elem_of_dom, <-H5, <-Hdom, elem_of_dom. apply Hready in Hv. by eexists. }
    assert (length (es ++ ready) = length (C ++ [u]) + length (<[t := None]> hs ≫= target_of) + length (q ++ ready))%nat as Hlen.
    { rewrite H1, <-(assoc_L (++)), length_app, Hts, !length_app. lia. }
    assert (∀ b : bool, stops_now (if b then StopEveryone else Everyone) = b) as -> by (by intros []). rewrite (end_test _ (size (indegree bs))) by lia.
    split; [intros [E1 E2]; split_and!; [by destruct C|by apply nil_length_inv|by apply nil_length_inv]|by intros (_ & -> & ->)].
  - intros v [Hv|Hv]%elem_of_app; [auto|]. constructor. intros d Hd. apply H9. rewrite H1. apply elem_of_app. left. rewrite Hts. apply elem_of_app. left.
    eapply no_refs_complete; [|done]. rewrite <-Hdeg'. by apply Hrd in Hv as [_ ?].
  - rewrite <-H10. f_equiv. by eapply held_same_target.
  - rewrite <-H11. f_equiv. by eapply held_same_target.
  - exact H12.
Qed.

Definition build_ok (st : bool) (c : Counters) (cs : list Empty_set) (es ts : list string) (hs : list (option Doing)) (out : list Event) : Prop :=
  ∃ C q, build_inv st c cs es ts hs out C q.

Lemma build_takes st c cs ts x q hs out t C :
  build_inv st c cs (ts ++ x :: q) ts hs out C (x :: q) → hs !! t = Some None →
  build_inv st (worker_take [x] c).2 cs (ts ++ x :: q) (ts ++ [x]) (<[t := Some (Announcing x)]> hs) out C q.
Proof.
  intros [H1 H2 H3 (H4a & H4b & H4c & H4d) H5 H6 H7 H8 H9 H10 H11 H12] Hh.
  pose proof (λ f, held_perm (A := string) f hs t None (Some (Announcing x)) Hh) as Hp.
  assert (∀ f, f None = [] → f (Some (Announcing x)) = [x] → (<[t := Some (Announcing x)]> hs ≫= f) ≡ₚ (hs ≫= f) ++ [x]) as Hf.
  { intros f E1 E2. specialize (Hp f). by rewrite E1, E2, app_nil_r in Hp. }
  split; cbn [worker_take snd degrees processed_targets total_targets active_workers ready_size].
  - by rewrite <-(assoc_L (++)).
  - exact H2.
  - rewrite Hf, H3 by done. solve_Permutation.
  - rewrite Hf, length_app by done. simpl in H4d. simpl. split_and!; [exact H4a|exact H4b|lia|lia].
  - exact H5.
  - exact H6.
  - exact H7.
  - rewrite H8. split; [by intros (_ & ? & _)|]. intros (_ & _ & E). pose proof (Hf target_of eq_refl eq_refl) as E'. rewrite E in E'.
    apply Permutation_nil_l in E'. symmetry in E'. by apply app_nil in E' as [_ ?].
  - exact H9.
  - rewrite Hf, (assoc_L (++)), H10 by done. done.
  - rewrite Hf, (assoc_L (++)), H11 by done. done.
  - exact H12.
Qed.

Lemma build_invariant : Invariant (worker g) build_ok.
Proof.
  split.
  - simpl. lia.
  - intros st c cs ts q hs out t k c' Hq (C & q' & Hi) Hh E. pose proof (bi_queue _ _ _ _ _ _ _ _ _ Hi) as Eq. apply app_inv_head in Eq as <-.
    destruct q as [|x q]; [done|]. simpl in *. rewrite take_0 in *. unfold worker_take in E. injection E as <- <-. exists C, q. by apply build_takes.
  - intros st c cs es ts hs out t k o _ (C & q & Hi) Hh. subst o. destruct k as [u|u|u].
    + simpl. rewrite orb_false_r, app_nil_r. exists C, q. eapply build_prints; [done|done|done|done|done|].
      intros u' d [= <-] Hd. eapply complete_finished; [done|]. eapply no_refs_complete; [|done].
      assert (u ∈ es) as Hu.
      { rewrite (bi_queue _ _ _ _ _ _ _ _ _ Hi). apply elem_of_app. left. rewrite (bi_held _ _ _ _ _ _ _ _ _ Hi). apply elem_of_app. right.
        eapply (held_lookup_elem target_of hs t); [done|by left]. }
      apply (bi_ready _ _ _ _ _ _ _ _ _ Hi) in Hu. rewrite <-(bi_degree _ _ _ _ _ _ _ _ _ Hi). unfold degree. by rewrite Hu.
    + simpl. rewrite orb_false_r, app_nil_r. exists C, q. by eapply build_prints.
    + exists (C ++ [u]). eexists. by apply build_completes.
  - done.
  - done.
Qed.

Definition doing_weight (k : Doing) : nat := match k with Announcing _ => 3 | Compiling _ => 2 | Completing _ => 1 end.

Definition blocked_weight (c : Counters) : nat := 4 * size (blocked (degrees c)).

Lemma build_weighted : Weighted (worker g) build_ok (λ _, 3%nat) doing_weight blocked_weight.
Proof.
  split.
  - intros st c cs ts q hs out k c' Hq _ E. destruct q as [|x q]; [done|]. simpl in E. unfold worker_take in E. injection E as <- <-. unfold blocked_weight. simpl. lia.
  - intros st c cs es ts hs out t k o (C & q & Hi) Hh. subst o. destruct k as [u|u|u]; [simpl; lia|simpl; lia|].
    assert (u ∉ C) as HuC.
    { destruct Hi as [H1 H2 H3 _ _ _ _ _ _ _ _ _]. rewrite H1 in H2. apply NoDup_app in H2 as [H2 _]. rewrite H3 in H2. apply NoDup_app in H2 as (_ & H2 & _).
      intros HC. apply (H2 u HC). eapply (held_lookup_elem target_of hs t); [done|by left]. }
    pose proof (release_blocked (children g u) (degrees c)) as Hr. cbn [step worker worker_step].
    destruct (release (children g u) (degrees c)) as [ind ready]. cbn [goes_on pushes leaves todo_of].
    assert (size (blocked ind) + length ready ≤ size (blocked (degrees c)))%nat as Hle.
    { apply Hr.
      - intros v. rewrite (bi_degree _ _ _ _ _ _ _ _ _ Hi), <-(left_over_children C u HuC). apply refs_in_occ.
      - intros v Hv. apply elem_of_dom. rewrite (bi_dom _ _ _ _ _ _ _ _ _ Hi). apply elem_of_dom. by apply (deps_targets bs Hbs u v). }
    assert (sum_list_with (λ _ : string, 3%nat) ready = 3 * length ready)%nat as -> by (clear; induction ready; simpl; lia).
    unfold blocked_weight. simpl. lia.
Qed.

Lemma build_start n ready : sources bs ready →
  build_ok false {| degrees := indegree bs; processed_targets := 0; total_targets := size (indegree bs); active_workers := 0; ready_size := length ready |}
    [] ready [] (replicate n None) [].
Proof.
  intros [Hnd Hr]. exists [], ready.
  split; rewrite ?held_none by reflexivity; cbn [degrees processed_targets total_targets active_workers ready_size app mbind list_bind].
  - reflexivity.
  - exact Hnd.
  - reflexivity.
  - split_and!; reflexivity.
  - reflexivity.
  - intros t. unfold left_over. rewrite map_filter_id by (intros; apply not_elem_of_nil). unfold degree.
    destruct (indegree bs !! t) as [m|] eqn:E; simpl; [by apply (deps_count bs Hbs)|by rewrite (deps_none bs Hbs)].
  - exact Hr.
  - split; [discriminate|]. by intros [? _].
  - intros t Ht. constructor. intros d Hd. apply Hr, (deps_count bs Hbs) in Ht. unfold dep in Hd. apply occ_elem in Hd.
    pose proof (refs_in_occ g d t). lia.
  - reflexivity.
  - reflexivity.
  - intros i t d Hi. by rewrite lookup_nil in Hi.
Qed.

(** Where everything that entered was taken and nobody is busy. *)
Lemma build_end st c cs es n out ready C q :
  sources bs ready → ready ≠ [] → build_inv st c cs es es (replicate n None) out C q →
  st = true ∧ (∀ t, Finished t ∈ out ↔ is_Some (indegree bs !! t) ∧ Acc (dep g) t) ∧
  (successful c = true ↔ ∀ t, is_Some (indegree bs !! t) → Acc (dep g) t).
Proof.
  intros [_ Hsrc] Hne [H1 H2 H3 (H4a & H4b & _ & _) H5 H6 H7 H8 H9 _ H11 _].
  rewrite held_none in * by done. rewrite app_nil_r in H3, H11.
  assert (q = []) as -> by (apply (app_inv_head es); by rewrite app_nil_r).
  assert (∀ t, is_Some (indegree bs !! t) → (∀ d, dep g d t → d ∈ C) → t ∈ es) as Henter.
  { intros t Ht Hd. apply H7, degree_zero; [apply elem_of_dom; rewrite H5; by apply elem_of_dom|]. rewrite H6. by apply complete_no_refs. }
  assert (∀ t, t ∈ es → is_Some (indegree bs !! t)) as Htarget.
  { intros t Ht. apply elem_of_dom. rewrite <-H5. apply elem_of_dom. apply H7 in Ht. by eexists. }
  assert (∀ t, is_Some (indegree bs !! t) → Acc (dep g) t → t ∈ es) as Hall.
  { intros t Ht Hacc. induction Hacc as [t _ IH]. apply Henter; [done|]. intros d Hd. rewrite <-H3. apply IH; [done|]. by apply (deps_targets bs Hbs d t). }
  split_and!.
  - apply H8. split_and!; [|done|done]. intros ->. destruct ready as [|r ready]; [done|].
    assert (indegree bs !! r = Some 0) as Hr by (apply Hsrc; by left).
    assert (r ∈ es) as Hin; [|rewrite H3 in Hin; by apply not_elem_of_nil in Hin].
    apply Henter; [by eexists|]. intros d Hd. apply (deps_count bs Hbs) in Hr. apply occ_elem in Hd. pose proof (refs_in_occ g d r). lia.
  - intros t. transitivity (t ∈ es); [|naive_solver]. rewrite <-H11. rewrite list_elem_of_bind. split.
    + intros He. exists (Finished t). split; [by left|done].
    + intros ([u|u] & Hu & He); simpl in Hu; [by apply not_elem_of_nil in Hu|]. apply list_elem_of_singleton in Hu. by subst.
  - unfold successful. rewrite Z.eqb_eq, H4a, H4b, <-H3. split.
    + intros Hsz t Ht. apply H9. assert (list_to_set es = dom (indegree bs)) as E.
      { apply set_subseteq_size_eq.
        - intros x Hx. apply elem_of_dom, Htarget. by apply elem_of_list_to_set in Hx.
        - rewrite size_list_to_set, size_dom by done. lia. }
      apply elem_of_dom in Ht. rewrite <-E in Ht. by apply elem_of_list_to_set in Ht.
    + intros Hacc. rewrite <-size_dom, <-(size_list_to_set (C := gset string) es) by done. f_equal. f_equal.
      apply set_eq. intros t. rewrite elem_of_list_to_set, elem_of_dom. naive_solver.
Qed.
End build.

(** C15: The build is in topological order, builds everything that can be built, and reports
    cycles.  For every list of dependencies such that some target has none, every number of
    threads and every schedule: no target is announced twice, and none before all it depends
    on is finished; the workers settle, and then they have returned, the targets finished are
    exactly those that do not depend on a cycle ([Acc]), each once, and [build] reports
    success exactly if no target does. *)
Theorem build_topological (deps : list (string * string)) (ready : list string) (numThreads : nat) us p :
  let bs := add_all deps in
  (0 < numThreads)%nat → sources bs ready → ready ≠ [] → run (worker (graph bs)) (build bs ready numThreads) us = Some p →
  NoDup (output p ≫= building) ∧ ordered bs (output p) ∧ settles (worker (graph bs)) p ∧
  (quiescent p →
    stop p = true ∧ Forall (λ w, w = Returned) (workers p) ∧ NoDup (output p ≫= finished) ∧
    (∀ t, Finished t ∈ output p ↔ is_Some (indegree bs !! t) ∧ Acc (dep (graph bs)) t) ∧
    (successful (shared p) = true ↔ ∀ t, is_Some (indegree bs !! t) → Acc (dep (graph bs)) t)).
Proof.
  intros bs Hn Hs Hne Hr. pose proof (add_all_ok deps) as Hbs. fold bs in Hbs.
  pose proof (build_invariant bs Hbs) as HI. pose proof (build_weighted bs Hbs) as HW. pose proof (build_start bs Hbs numThreads ready Hs) as H0.
  destruct (workers_run (worker (graph bs)) (build_ok bs) numThreads _ ready us p H0 Hr) as (Hi & (C & q & Hb) & Hl).
  assert (NoDup (taken p)) as Hnd.
  { pose proof (bi_once _ _ _ _ _ _ _ _ _ _ Hb) as Ho. rewrite (bi_queue _ _ _ _ _ _ _ _ _ _ Hb) in Ho. by apply NoDup_app in Ho as [? _]. }
  split_and!.
  - rewrite <-(bi_building _ _ _ _ _ _ _ _ _ _ Hb) in Hnd. by apply NoDup_app in Hnd as [? _].
  - exact (bi_ordered _ _ _ _ _ _ _ _ _ _ Hb).
  - exact (workers_settle (worker (graph bs)) (build_ok bs) (λ _, 3%nat) (plain_weight doing_weight blocked_weight) numThreads _ ready us p H0 Hr).
  - intros Hq. destruct (workers_end (worker (graph bs)) (build_ok bs) numThreads _ ready us p Hn H0 Hr Hq) as [(C' & q' & Hb') Hw].
    clear Hb C q. rename Hb' into Hb. rename C' into C. rename q' into q.
    destruct (build_end bs Hbs _ _ _ _ _ _ ready C q Hs Hne Hb) as (Hst & Hfin & Hsucc).
    rewrite Hst in Hw. split_and!; [done|done| |done|done].
    pose proof (bi_finished _ _ _ _ _ _ _ _ _ _ Hb) as Hf. rewrite held_none, app_nil_r in Hf by done. rewrite Hf. apply (bi_once _ _ _ _ _ _ _ _ _ _ Hb).
Qed.

(** The dependencies of [main], built by two threads. *)
Definition main_deps : list (string * string) := [("parser", "lexer"); ("parser", "ast"); ("main", "parser"); ("main", "utils")]%string.

Definition main_ready : list string := ["utils"; "ast"; "lexer"]%string.

Definition main_schedule : list (Turn Empty_set) :=
  replicate 12 (Work 0%nat) ++ [NotifyAll] ++ replicate 10 (Work 1%nat) ++ [NotifyAll; NotifyAll; NotifyAll; NotifyAll; Work 0%nat; Work 1%nat].

Lemma build_topological_witness :
  ∃ p, run (worker (graph (add_all main_deps))) (build (add_all main_deps) main_ready 2) main_schedule = Some p ∧ quiescent p ∧
    stop p = true ∧ ordered (add_all main_deps) (output p).
Proof.
  assert (sources (add_all main_deps) main_ready) as Hs.
  { split; [apply (bool_decide_unpack (NoDup main_ready)); vm_compute; exact I|]. intros t. unfold main_ready.
    assert (indegree (add_all main_deps) = {["parser" := 2; "lexer" := 0; "ast" := 0; "main" := 2; "utils" := 0]}%string) as -> by (vm_compute; reflexivity).
    rewrite !elem_of_cons, elem_of_nil. repeat rewrite lookup_insert_Some. rewrite lookup_singleton_Some. naive_solver. }
  destruct (run (worker (graph (add_all main_deps))) (build (add_all main_deps) main_ready 2) main_schedule) as [p|] eqn:E; [|vm_compute in E; discriminate].
  exists p. split; [done|]. assert (quiescent p) as Hq.
  { vm_compute in E. injection E as <-. intros [[|[|t]]|w| |c|]; reflexivity. }
  split; [done|]. destruct (build_topological main_deps main_ready 2 main_schedule p ltac:(lia) Hs ltac:(done) E) as (_ & Ho & _ & H).
  destruct (H Hq) as [Hst _]. exact (conj Hst Ho).
Defined.

(** If every target has a dependency, the queue is empty from the start: nobody ever sets
    [done], and [build] waits for its workers for ever instead of reporting the cycle. *)
Theorem build_without_source_hangs (bs : BuildSystem) (numThreads : nat) us p :
  (0 < numThreads)%nat → run (worker (graph bs)) (build bs [] numThreads) us = Some p →
  stop p = false ∧ Forall (λ w, w = Checking ∨ w = Asleep) (workers p).
Proof.
  intros Hn Hr.
  assert (queue p = [] ∧ stop p = false ∧ owed_all p = 0%nat ∧ Forall (λ w, w = Checking ∨ w = Asleep) (workers p)) as (_ & ? & _ & ?); [|done].
  eapply (run_ops_preserves (turn (worker (graph bs)))
    (λ p, queue p = [] ∧ stop p = false ∧ owed_all p = 0%nat ∧ Forall (λ w, w = Checking ∨ w = Asleep) (workers p))); [| |exact Hr].
  - clear. intros p u p' (HQ & Hs & Hoa & Hw) Hu. destruct u as [t|w| |[]|]; simpl in Hu.
    + injection Hu as <-. unfold work. destruct (workers p !! t) as [w|] eqn:E; [|done]. pose proof (Forall_lookup_1 _ _ _ _ Hw E) as [-> | ->].
      * rewrite HQ, Hs. unfold set_worker. simpl. split_and!; [done..|]. apply Forall_insert; [done|by right].
      * unfold set_worker. simpl. split_and!; [done..|]. apply Forall_insert; [done|by left].
    + case_decide; simplify_eq. split_and!; [done..|]. destruct (notify_one_wakes p w) as [[_ ->]|(t & _ & ->)]; [done|]. apply Forall_insert; [done|by left].
    + rewrite Hoa in Hu. done.
    + rewrite Hs in Hu. done.
  - split_and!; [done..|]. apply Forall_replicate. by left.
Qed.
