(* ===== verification/ExternalSort.v ===== *)
(** * Large files

    [src/large-scale-processing]: merging sorted files with a priority queue
    ([merge_k_sorted_files.cpp]), sorting a file in runs that fit into memory
    ([sort_1TB_file_with_1GB_RAM.cpp]), and two scripts that partition a file into buckets by
    the hash of its words: the most frequent words ([top_100IP_in_500GB_logs.cpp]) and the
    repeated ones ([detect_duplicates_in_500GB_logs.cpp]).

    The file system is a map from paths to contents; a stream is what has not been read yet.
    The files of a program are taken to be distinct (an output is not also an input).  The
    order in which a [priority_queue] delivers equal entries, [std::hash] and the order of
    an [unordered_map] are parameters. *)
From Stdlib Require Import Ascii.
From S2P Require Import Prelude Streams.
Local Open Scope nat_scope.

(** ** Lines and words *)

Definition nl : ascii := Ascii.ascii_of_N 10.

(** [getline(in, line)]: the text up to the next newline; it fails at the end of the file. *)
Fixpoint take_line (s : string) : string * string :=
  match s with
  | EmptyString => (EmptyString, EmptyString)
  | String c r => if Ascii.eqb c nl then (EmptyString, r) else let '(line, rest) := take_line r in (String c line, rest)
  end.

Definition read_line (s : string) : option (string * string) := match s with EmptyString => None | _ => Some (take_line s) end.

Definition lines : string → list string := getlines nl.

(** [while (in >> word)] *)
Fixpoint words_fuel (fuel : nat) (s : string) : list string :=
  match fuel with
  | O => []
  | S fuel => match read_word s with None => [] | Some (w, rest) => w :: words_fuel fuel rest end
  end.

Definition words (s : string) : list string := words_fuel (String.length s) s.

(** [out << x << '\n'] for every [x]. *)
Definition unlines (l : list string) : string := foldr (λ x s, x +:+ String nl s) EmptyString l.

(** A reader delivers the items of a text one after the other. *)
Class Reader := { read_next : string → option (string * string); items : string → list string }.

Class ReaderLaws `{Reader} := {
  read_next_none s : read_next s = None → items s = [];
  read_next_some s x r : read_next s = Some (x, r) → items s = x :: items r ∧ String.length r < String.length s
}.

Definition LineReader : Reader := {| read_next := read_line; items := lines |}.
Definition WordReader : Reader := {| read_next := read_word; items := words |}.

Lemma take_line_spec s : s ≠ EmptyString → let '(line, rest) := take_line s in lines s = line :: lines rest ∧ String.length rest < String.length s.
Proof.
  unfold lines. induction s as [|c s IH]; intros Hs; [done|]. cbn [take_line getlines]. destruct (Ascii.eqb c nl) eqn:E; [split; [done|simpl; lia]|].
  destruct s as [|c' s]; [simpl; split; [done|lia]|].
  specialize (IH ltac:(done)). destruct (take_line (String c' s)) as [line rest]. destruct IH as [-> Hl]. split; [done|]. simpl in *. lia.
Qed.

Lemma line_reader_laws : @ReaderLaws LineReader.
Proof.
  split; simpl.
  - intros s. by destruct s.
  - intros s x r Hs. destruct s as [|c s]; [done|]. change (Some (take_line (String c s)) = Some (x, r)) in Hs.
    pose proof (take_line_spec (String c s) ltac:(done)) as Hl. destruct (take_line (String c s)). by simplify_eq.
Qed.

Lemma words_fuel_enough fuel s : String.length s ≤ fuel → words_fuel fuel s = words s.
Proof.
  assert (∀ n fuel s, String.length s ≤ n → n ≤ fuel → words_fuel fuel s = words_fuel n s) as H.
  { intros n. induction n as [|n IH]; intros fuel0 s0 Hs Hf.
    - destruct s0; [|simpl in Hs; lia]. by destruct fuel0.
    - destruct fuel0 as [|fuel0]; [lia|]. simpl. destruct (read_word s0) as [[w r]|] eqn:E; [|done]. apply read_word_length in E. f_equal. apply IH; lia. }
  intros Hf. by apply H.
Qed.

Lemma word_reader_laws : @ReaderLaws WordReader.
Proof.
  split; simpl; unfold words.
  - intros s Hs. destruct s as [|c s]; [done|]. cbn [String.length words_fuel]. by rewrite Hs.
  - intros s x r Hs. pose proof (read_word_length s x r Hs) as Hl. split; [|done]. destruct s as [|c s]; [simpl in Hl; lia|].
    cbn [String.length words_fuel]. rewrite Hs. f_equal. apply words_fuel_enough. simpl in Hl. lia.
Qed.

Lemma lines_unlines (l : list string) : Forall (λ x, all_chars (λ c, negb (Ascii.eqb c nl)) x = true) l → lines (unlines l) = l.
Proof.
  intros Hl. induction Hl as [|x l Hx _ IH]; [done|]. unfold lines in *. simpl. induction x as [|c x IHx]; simpl in *; [by rewrite IH|].
  apply andb_true_iff in Hx as [Hc Hx]. apply negb_true_iff in Hc. rewrite Hc, IHx by done. done.
Qed.

Lemma lines_clean (s : string) : Forall (λ x, all_chars (λ c, negb (Ascii.eqb c nl)) x = true) (lines s).
Proof.
  unfold lines. induction s as [|c s IH]; simpl; [constructor|]. destruct (Ascii.eqb c nl) eqn:E; [by constructor|].
  destruct (getlines nl s) as [|t ts]; [constructor; [simpl; by rewrite E|constructor]|]. apply Forall_cons in IH as [Ht Hts]. constructor; [simpl; by rewrite E|done].
Qed.

(** ** Priority queues *)

(** [std::priority_queue] with a comparator: the element on top is one that no other precedes;
    which of several is up to the library. *)
Class MinHeap {A} (le : relation A) := {
  pop : list A → option (A * list A);
  pop_empty : pop [] = None;
  pop_some l : l ≠ [] → ∃ x r, pop l = Some (x, r) ∧ l ≡ₚ x :: r ∧ Forall (le x) l
}.

(** One that scans a list. *)
Section scan.
Context {A : Type} (le : relation A) `{!RelDecision le, !Total le, !Transitive le, !Reflexive le}.

Fixpoint scan_min (x : A) (l : list A) : A * list A :=
  match l with
  | [] => (x, [])
  | y :: l => if decide (le x y) then let '(m, r) := scan_min x l in (m, y :: r) else let '(m, r) := scan_min y l in (m, x :: r)
  end.

Lemma scan_min_spec x l : let '(m, r) := scan_min x l in x :: l ≡ₚ m :: r ∧ Forall (le m) (x :: l).
Proof.
  revert x. induction l as [|y l IH]; intros x; simpl; [split; [done|by constructor]|]. case_decide as Hxy.
  - specialize (IH x). destruct (scan_min x l) as [m r]. destruct IH as [Hp Hf]. split; [rewrite Permutation_swap, Hp; apply Permutation_swap|].
    apply Forall_cons in Hf as [Hx Hf]. constructor; [done|]. constructor; [by etrans|done].
  - specialize (IH y). destruct (scan_min y l) as [m r]. destruct IH as [Hp Hf]. split; [rewrite Hp; apply Permutation_swap|].
    constructor; [|done]. apply Forall_cons in Hf as [Hy _]. destruct (total le x y); [done|]. by etrans.
Qed.

Definition ScanHeap : MinHeap le.
Proof.
  refine {| pop := λ l, match l with [] => None | x :: l => Some (scan_min x l) end |}; [done|].
  intros [|x l]; [done|]. intros _. pose proof (scan_min_spec x l) as Hs. destruct (scan_min x l) as [m r]. exists m, r. by destruct Hs.
Defined.
End scan.

(** ** Merging sorted files *)

Record Entry := { value : string; file_index : nat }.

(** [Compare]: by the value only. *)
Definition entry_le (a b : Entry) : Prop := String.le (value a) (value b).

#[export] Instance entry_le_dec : RelDecision entry_le.
Proof. intros a b. unfold entry_le. apply _. Defined.
#[export] Instance entry_le_total : Total entry_le.
Proof. intros a b. unfold entry_le. apply total, _. Qed.
#[export] Instance entry_le_trans : Transitive entry_le.
Proof. intros a b c. unfold entry_le. apply transitivity. Qed.
#[export] Instance entry_le_refl : Reflexive entry_le.
Proof. intros a. unfold entry_le. reflexivity. Qed.

Section merge.
Context `{R : Reader} `{Heap : !MinHeap entry_le}.

(** The first item of every file goes into the queue. *)
Fixpoint fill (i : nat) (inputs : list string) : list string * list Entry :=
  match inputs with
  | [] => ([], [])
  | s :: inputs =>
      let '(rest, pq) := fill (S i) inputs in
      match read_next s with
      | Some (x, s) => (s :: rest, {| value := x; file_index := i |} :: pq)
      | None => (s :: rest, pq)
      end
  end.

(** The loop: the least entry is written, and the next item of its file takes its place. *)
Fixpoint merge_loop (fuel : nat) (inputs : list string) (pq : list Entry) (output : list string) : option (list string) :=
  match pop pq with
  | None => Some output
  | Some (e, pq) =>
      match fuel with
      | O => None
      | S fuel =>
          s ← inputs !! file_index e;
          match read_next s with
          | Some (x, s) => merge_loop fuel (<[file_index e := s]> inputs) (pq ++ [{| value := x; file_index := file_index e |}]) (output ++ [value e])
          | None => merge_loop fuel inputs pq (output ++ [value e])
          end
      end
  end.

(** Every item is written once: the number of characters bounds the number of items. *)
Definition merge_K_sorted_files (contents : list string) : option string :=
  let '(inputs, pq) := fill 0 contents in
  unlines <$> merge_loop (S (sum_list_with String.length contents)) inputs pq [].

Context `{Laws : !ReaderLaws}.

(** The items that are still to be written. *)
Definition left_items (inputs : list string) (pq : list Entry) : list string := (value <$> pq) ++ (inputs ≫= items).

(** An entry in the queue is the last item read of its file; a file without one is at its
    end. *)
Record merge_inv (inputs : list string) (pq : list Entry) : Prop := {
  mi_index : NoDup (file_index <$> pq);
  mi_range e : e ∈ pq → file_index e < length inputs;
  mi_end i s : inputs !! i = Some s → i ∉ file_index <$> pq → items s = []
}.

Definition sorted_inv (inputs : list string) (pq : list Entry) : Prop :=
  ∀ e s, e ∈ pq → inputs !! file_index e = Some s → StronglySorted String.le (value e :: items s).

#[local] Instance merge_inv_proper inputs : Proper ((≡ₚ) ==> iff) (merge_inv inputs).
Proof.
  assert (∀ pq pq', pq ≡ₚ pq' → merge_inv inputs pq → merge_inv inputs pq') as H.
  { intros pq pq' HP [H1 H2 H3]. split; [by rewrite <-HP|intros e He; apply H2; by rewrite HP|intros i s Hi Hn; apply (H3 i s Hi); by rewrite HP]. }
  intros pq pq' HP. split; apply H; done.
Qed.

Lemma pop_left_le inputs e pq v :
  merge_inv inputs pq → sorted_inv inputs pq → Forall (entry_le e) pq → v ∈ left_items inputs pq → String.le (value e) v.
Proof.
  intros [_ Hr He] Hs Hf Hv. rewrite Forall_forall in Hf. apply elem_of_app in Hv as [(e' & -> & He')%list_elem_of_fmap|Hv]; [by apply Hf|].
  apply list_elem_of_bind in Hv as (s & Hv & [i Hi]%list_elem_of_lookup).
  destruct (decide (i ∈ file_index <$> pq)) as [Hin|Hn]; [|rewrite (He i s Hi Hn) in Hv; by apply not_elem_of_nil in Hv].
  apply list_elem_of_fmap in Hin as (e' & -> & He'). specialize (Hs e' s He' Hi). apply StronglySorted_inv in Hs as [_ Hs]. rewrite Forall_forall in Hs.
  transitivity (value e'); [by apply Hf|by apply Hs].
Qed.

(** One round: the invariants, and what is left. *)
Lemma merge_round inputs e pq s :
  merge_inv inputs (e :: pq) → inputs !! file_index e = Some s →
  match read_next s with
  | Some (x, s') =>
      let inputs' := <[file_index e := s']> inputs in let pq' := pq ++ [{| value := x; file_index := file_index e |}] in
      merge_inv inputs' pq' ∧ left_items inputs (e :: pq) ≡ₚ value e :: left_items inputs' pq' ∧
      length pq' + sum_list_with String.length inputs' < S (length pq) + sum_list_with String.length inputs ∧
      (sorted_inv inputs (e :: pq) → sorted_inv inputs' pq')
  | None => merge_inv inputs pq ∧ (sorted_inv inputs (e :: pq) → sorted_inv inputs pq)
  end.
Proof.
  intros [H1 H2 H3] Hs. apply NoDup_cons in H1 as [Hne H1]. destruct (read_next s) as [[x s']|] eqn:E.
  - apply read_next_some in E as [Ei El]. pose proof (sum_insert String.length inputs (file_index e) s s' Hs) as Hsum. intros inputs' pq'. split_and!.
    + split; unfold inputs', pq'.
      * rewrite fmap_app. apply NoDup_app. split_and!; [done|intros i Hi ->%list_elem_of_singleton; done|apply NoDup_singleton].
      * intros e' [He'| ->%list_elem_of_singleton]%elem_of_app; rewrite length_insert; [apply H2; by right|simpl; by eapply lookup_lt_Some].
      * intros i s0 Hi Hn. rewrite fmap_app, not_elem_of_app in Hn. destruct Hn as [Hn1 Hn2]. apply list_lookup_insert_Some in Hi as [(<- & _ & _)|[Hne' Hi]].
        { destruct Hn2. by left. }
        apply (H3 i s0 Hi). simpl. rewrite elem_of_cons. naive_solver.
    + unfold left_items, inputs', pq'. pose proof (bind_insert_perm items inputs (file_index e) s s' Hs) as Hp. rewrite Ei in Hp.
      rewrite fmap_app, fmap_cons. csimpl. constructor. apply (Permutation_app_inv_r (items s')). rewrite <-!(assoc_L (++)), <-Hp. solve_Permutation.
    + unfold inputs', pq'. rewrite length_app. simpl. lia.
    + intros Hso e' s0. unfold inputs', pq'. intros [He'| ->%list_elem_of_singleton]%elem_of_app Hl.
      * apply list_lookup_insert_Some in Hl as [(Hi & _ & _)|[Hne' Hl]]; [exfalso; apply Hne, list_elem_of_fmap; exists e'; split; congruence|]. apply (Hso e'); [by right|done].
      * simpl in *. rewrite list_lookup_insert_eq in Hl by (by eapply lookup_lt_Some). injection Hl as <-.
        specialize (Hso e s ltac:(by left) Hs). rewrite Ei in Hso. by apply StronglySorted_inv in Hso as [? _].
  - apply read_next_none in E. split.
    + split; [done|intros e' He'; apply H2; by right|]. intros i s0 Hi Hn. destruct (decide (i = file_index e)) as [->|Hne']; [congruence|].
      apply (H3 i s0 Hi). simpl. rewrite elem_of_cons. naive_solver.
    + intros Hso e' s0 He'. apply Hso. by right.
Qed.

Lemma nothing_left inputs : merge_inv inputs [] → left_items inputs [] = [].
Proof.
  intros [_ _ He]. unfold left_items. simpl. assert (∀ s, s ∈ inputs → items s = []) as H by (intros s [i Hi]%list_elem_of_lookup; by eapply He, not_elem_of_nil).
  clear He. induction inputs as [|s inputs IH]; [done|]. csimpl. rewrite H by (by left). apply IH. intros s' Hs'. apply H. by right.
Qed.

Lemma merge_files_loop fuel inputs pq output :
  merge_inv inputs pq → length pq + sum_list_with String.length inputs ≤ fuel →
  ∃ l, merge_loop fuel inputs pq output = Some (output ++ l) ∧ l ≡ₚ left_items inputs pq ∧ (sorted_inv inputs pq → StronglySorted String.le l).
Proof.
  revert inputs pq output. induction fuel as [|fuel IH]; intros inputs pq output Hi Hf; cbn [merge_loop];
    (destruct (decide (pq = [])) as [->|Hne]; [rewrite pop_empty; exists []; rewrite app_nil_r, nothing_left by done; split_and!; [done|done|constructor]|]);
    destruct (pop_some pq Hne) as (e & r & -> & Hp & Hmin); pose proof (Permutation_length Hp) as Hlen; simpl in Hlen; [lia|].
  pose proof Hi as Hi'. rewrite Hp in Hi'.
  destruct (lookup_lt_is_Some_2 inputs (file_index e)) as [s Hs]; [apply (mi_range _ _ Hi'); by left|]. rewrite Hs. cbn [mbind option_bind].
  assert (sorted_inv inputs pq → sorted_inv inputs (e :: r)) as Hso by (intros H e' s' He'; apply H; by rewrite Hp).
  assert (∀ l, l ⊆ left_items inputs pq → sorted_inv inputs pq → Forall (String.le (value e)) l) as Hle.
  { intros l Hl Hs'. apply Forall_forall. intros v Hv. eapply pop_left_le; [exact Hi|done|done|by apply Hl]. }
  assert (left_items inputs pq ≡ₚ left_items inputs (e :: r)) as Hleft by (unfold left_items; by rewrite Hp).
  pose proof (merge_round inputs e r s Hi' Hs) as Hround. destruct (read_next s) as [[x s']|].
  - destruct Hround as (Hi1 & HP & Hlt & Hs1). destruct (IH _ _ (output ++ [value e]) Hi1 ltac:(lia)) as (l & -> & Hl & Hls).
    exists (value e :: l). rewrite <-(assoc_L (++)). split_and!; [done|by rewrite Hl, Hleft, HP|]. intros H. constructor; [auto|].
    apply Hle; [|done]. intros v Hv. rewrite Hleft, HP. right. by rewrite <-Hl.
  - destruct Hround as [Hi1 Hs1]. destruct (IH _ _ (output ++ [value e]) Hi1 ltac:(lia)) as (l & -> & Hl & Hls).
    exists (value e :: l). rewrite <-(assoc_L (++)). split_and!; [done|by rewrite Hl, Hleft|]. intros H. constructor; [auto|].
    apply Hle; [|done]. intros v Hv. rewrite Hleft. right. by rewrite <-Hl.
Qed.

Lemma fill_spec i contents :
  let '(inputs, pq) := fill i contents in
  length inputs = length contents ∧ (∀ e, e ∈ pq → i ≤ file_index e < i + length contents) ∧ NoDup (file_index <$> pq) ∧
  (∀ j s, inputs !! j = Some s → (i + j) ∉ file_index <$> pq → items s = []) ∧
  left_items inputs pq ≡ₚ (contents ≫= items) ∧
  length pq + sum_list_with String.length inputs ≤ sum_list_with String.length contents ∧
  (Forall (λ s, StronglySorted String.le (items s)) contents →
     ∀ e s, e ∈ pq → inputs !! (file_index e - i) = Some s → StronglySorted String.le (value e :: items s)).
Proof.
  revert i. induction contents as [|s contents IH]; intros i; simpl.
  { split_and!; [done|by intros e []%not_elem_of_nil|constructor|done|done|lia|by intros _ e s []%not_elem_of_nil]. }
  specialize (IH (S i)). destruct (fill (S i) contents) as [inputs pq]. destruct IH as (H1 & H2 & H3 & H4 & H5 & H6 & H7).
  destruct (read_next s) as [[x s']|] eqn:E; simpl.
  - apply read_next_some in E as [Ei El]. split_and!.
    + by rewrite H1.
    + intros e [->|He]%elem_of_cons; simpl; [lia|]. specialize (H2 e He). lia.
    + constructor; [|done]. intros (e & E & He)%list_elem_of_fmap. specialize (H2 e He). simpl in E. lia.
    + intros [|j] s0 Hj Hn; simpl in Hj; [destruct Hn; rewrite Nat.add_0_r; by left|]. apply (H4 j s0 Hj). intros Hin. apply Hn. right. by rewrite <-Nat.add_succ_comm.
    + rewrite <-H5. unfold left_items. csimpl. rewrite Ei. solve_Permutation.
    + lia.
    + intros [Hs Hc]%Forall_cons e s0 [->|He]%elem_of_cons Hl.
      * simpl in Hl. rewrite Nat.sub_diag in Hl. simpl in Hl. injection Hl as <-. simpl. by rewrite <-Ei.
      * specialize (H2 e He). replace (file_index e - i) with (S (file_index e - S i)) in Hl by lia. by apply (H7 Hc e s0 He).
  - apply read_next_none in E. split_and!.
    + by rewrite H1.
    + intros e He. specialize (H2 e He). lia.
    + done.
    + intros [|j] s0 Hj Hn; simpl in Hj; [by simplify_eq|]. apply (H4 j s0 Hj). intros Hin. apply Hn. by rewrite <-Nat.add_succ_comm.
    + rewrite <-H5. unfold left_items. csimpl. by rewrite E.
    + lia.
    + intros [_ Hc]%Forall_cons e s0 He Hl. specialize (H2 e He). replace (file_index e - i) with (S (file_index e - S i)) in Hl by lia. by apply (H7 Hc e s0 He).
Qed.

(** The output has every item of the inputs, and is sorted if they are. *)
Lemma merge_files_spec contents :
  ∃ l, merge_K_sorted_files contents = Some (unlines l) ∧ l ≡ₚ (contents ≫= items) ∧
    (Forall (λ s, StronglySorted String.le (items s)) contents → StronglySorted String.le l).
Proof.
  unfold merge_K_sorted_files. pose proof (fill_spec 0 contents) as Hf. destruct (fill 0 contents) as [inputs pq]. destruct Hf as (H1 & H2 & H3 & H4 & H5 & H6 & H7).
  destruct (merge_files_loop (S (sum_list_with String.length contents)) inputs pq []) as (l & -> & Hl & Hs); [|lia|].
  { split; [done| |exact H4]. intros e He. rewrite H1. specialize (H2 e He). lia. }
  exists l. split_and!; [done|by rewrite Hl|]. intros Hc. apply Hs. intros e s He Hes. apply (H7 Hc e s He). by rewrite Nat.sub_0_r.
Qed.
End merge.

(** Merging sorted lists of words with any queue gives the sorted list of all of them. *)
Theorem merge_k_files_sorted `{Heap : !MinHeap entry_le} (contents : list string) :
  Forall (λ s, StronglySorted String.le (words s)) contents →
  merge_K_sorted_files (R := WordReader) contents = Some (unlines (merge_sort String.le (contents ≫= words))).
Proof.
  intros Hs. destruct (merge_files_spec (R := WordReader) (Laws := word_reader_laws) contents) as (l & -> & Hl & Hsort). specialize (Hsort Hs).
  do 2 f_equal. apply (StronglySorted_unique String.le); [done|apply StronglySorted_merge_sort; apply _|]. by rewrite merge_sort_Permutation, Hl.
Qed.

(** ** Sorting in runs *)

Section runs.
Context `{Heap : !MinHeap entry_le} (chunk_size : nat).

(** [files] is the file system. *)
Record RunState := { files : gmap string string; run_files : list string; chunk : list string; run_id : Z }.

Definition run_name (id : Z) : string := "run_" +:+ show_int id +:+ ".txt".

(** A sorted chunk is written to a new run file. *)
Definition write_run (st : RunState) : RunState :=
  {| files := <[run_name (run_id st) := unlines (merge_sort String.le (chunk st))]> (files st);
     run_files := run_files st ++ [run_name (run_id st)]; chunk := []; run_id := (run_id st + 1)%Z |}.

Definition add_line (st : RunState) (line : string) : RunState :=
  let st := {| files := files st; run_files := run_files st; chunk := chunk st ++ [line]; run_id := run_id st |} in
  if chunk_size <=? length (chunk st) then write_run st else st.

Definition create_sorted_runs (fs : gmap string string) (input_file : string) : gmap string string * list string :=
  let st := fold_left add_line (lines (default EmptyString (fs !! input_file))) {| files := fs; run_files := []; chunk := []; run_id := 0 |} in
  let st := if decide (chunk st = []) then st else write_run st in
  (files st, run_files st).

(** [main]: runs, then the merge of their lines. *)
Definition sort_file (fs : gmap string string) (input_file output_file : string) : option (gmap string string) :=
  let '(fs, in_files) := create_sorted_runs fs input_file in
  out ← merge_K_sorted_files (R := LineReader) ((λ f, default EmptyString (fs !! f)) <$> in_files);
  Some (<[output_file := out]> fs).

Lemma run_name_inj i j : int_ok i → int_ok j → (0 ≤ i)%Z → (0 ≤ j)%Z → run_name i = run_name j → i = j.
Proof.
  intros Hi Hj Hi0 Hj0 E. unfold run_name in E. simpl in E. injection E as E.
  pose proof (read_show_int i ".txt" Hi0 Hi eq_refl) as E1. pose proof (read_show_int j ".txt" Hj0 Hj eq_refl) as E2. rewrite E in E1. congruence.
Qed.

(** The runs written so far are the chunks [cks], sorted. *)
Record runs_inv (read : list string) (cks : list (list string)) (st : RunState) : Prop := {
  ri_read : mjoin cks ++ chunk st = read;
  ri_id : run_id st = length cks;
  ri_names : run_files st = (λ i : nat, run_name i) <$> seq 0 (length cks);
  ri_files (i : nat) ck : cks !! i = Some ck → files st !! run_name i = Some (unlines (merge_sort String.le ck));
  ri_chunks : Forall (λ ck, ck ≠ []) cks
}.

Lemma chunks_length (cks : list (list string)) : Forall (λ ck, ck ≠ []) cks → length cks ≤ length (mjoin cks).
Proof. induction 1 as [|ck cks Hck _ IH]; [done|]. csimpl. rewrite length_app. destruct ck; [done|]. simpl. lia. Qed.

Lemma write_run_inv read cks st :
  (Z.of_nat (length read) ≤ INT_MAX)%Z → chunk st ≠ [] → runs_inv read cks st → runs_inv read (cks ++ [chunk st]) (write_run st).
Proof.
  intros Hlen Hne [H1 H2 H3 H4 H5]. pose proof (chunks_length cks H5) as Hcl. rewrite <-H1, length_app in Hlen.
  split; simpl.
  - rewrite app_nil_r, <-H1. unfold mjoin. rewrite join_app. simpl. by rewrite app_nil_r.
  - rewrite H2, length_app. simpl. lia.
  - rewrite length_app. simpl. rewrite seq_app, fmap_app, H3, H2. done.
  - intros i ck Hi. apply lookup_app_Some in Hi as [Hi|[Hge Hi]].
    + rewrite lookup_insert_ne; [by apply H4|]. apply lookup_lt_Some in Hi. rewrite H2. intros E. apply run_name_inj in E; [lia|int_bounds..].
    + destruct (i - length cks) as [|n] eqn:E; simpl in Hi; [|done]. injection Hi as <-. replace i with (length cks) by lia. rewrite H2. apply lookup_insert_eq.
  - apply Forall_app. split; [done|by constructor].
Qed.

Lemma add_line_inv read cks st line :
  (Z.of_nat (length (read ++ [line])) ≤ INT_MAX)%Z → runs_inv read cks st → ∃ cks', runs_inv (read ++ [line]) cks' (add_line st line).
Proof.
  intros Hlen Hi. set (st1 := {| files := files st; run_files := run_files st; chunk := chunk st ++ [line]; run_id := run_id st |}).
  assert (runs_inv (read ++ [line]) cks st1) as Hi1.
  { destruct Hi as [H1 H2 H3 H4 H5]. split; try done. simpl. by rewrite <-H1, (assoc_L (++)). }
  unfold add_line. fold st1. destruct (chunk_size <=? length (chunk st1)); [|by exists cks]. eexists. apply write_run_inv; [done| |done].
  simpl. by destruct (chunk st).
Qed.

(** The runs hold the lines of the input, each run sorted. *)
Lemma create_runs_spec fs input :
  let ls := lines (default EmptyString (fs !! input)) in
  (Z.of_nat (length ls) ≤ INT_MAX)%Z →
  ∃ cks, mjoin cks = ls ∧
    let '(fs', in_files) := create_sorted_runs fs input in
    ((λ f, default EmptyString (fs' !! f)) <$> in_files) = (λ ck, unlines (merge_sort String.le ck)) <$> cks.
Proof.
  intros ls Hlen. unfold create_sorted_runs. fold ls. set (st0 := {| files := fs; run_files := []; chunk := []; run_id := 0 |}).
  assert (∃ cks, runs_inv ls cks (fold_left add_line ls st0)) as (cks & Hi).
  { assert (∀ rest read cks st, read ++ rest = ls → runs_inv read cks st → ∃ cks', runs_inv ls cks' (fold_left add_line rest st)) as H.
    { induction rest as [|line rest IH]; intros read cks st E Hi; simpl; [rewrite app_nil_r in E; subst; by exists cks|].
      destruct (add_line_inv read cks st line) as [cks' Hi']; [|done|].
      { rewrite <-E in Hlen. rewrite length_app in *. simpl in *. lia. }
      apply (IH (read ++ [line]) cks'); [by rewrite <-(assoc_L (++))|done]. }
    apply (H ls [] [] st0); [done|]. split; done. }
  assert (∃ cks, runs_inv ls cks (if decide (chunk (fold_left add_line ls st0) = []) then fold_left add_line ls st0 else write_run (fold_left add_line ls st0)) ∧
    chunk (if decide (chunk (fold_left add_line ls st0) = []) then fold_left add_line ls st0 else write_run (fold_left add_line ls st0)) = []) as (cks' & Hi' & Hc).
  { case_decide; [by exists cks|]. eexists. split; [by apply write_run_inv|done]. }
  revert Hi' Hc. generalize (if decide (chunk (fold_left add_line ls st0) = []) then fold_left add_line ls st0 else write_run (fold_left add_line ls st0)).
  intros st [H1 _ H3 H4 _] Hc. exists cks'. rewrite Hc, app_nil_r in H1. split; [done|]. rewrite H3, <-list_fmap_compose.
  apply list_eq. intros i. rewrite !list_lookup_fmap. destruct (cks' !! i) as [ck|] eqn:E; simpl.
  - rewrite lookup_seq_lt by (by eapply lookup_lt_Some). simpl. by rewrite (H4 i ck E).
  - rewrite lookup_seq_ge by (by apply lookup_ge_None in E). done.
Qed.

Lemma sort_file_spec fs input_file output_file :
  let ls := lines (default EmptyString (fs !! input_file)) in
  (Z.of_nat (length ls) ≤ INT_MAX)%Z →
  ∃ fs', sort_file fs input_file output_file = Some fs' ∧ fs' !! output_file = Some (unlines (merge_sort String.le ls)).
Proof.
  intros ls Hlen. destruct (create_runs_spec fs input_file Hlen) as (cks & Hj & Hc). fold ls in Hj. unfold sort_file.
  destruct (create_sorted_runs fs input_file) as [fs1 in_files]. rewrite Hc.
  set (contents := (λ ck, unlines (merge_sort String.le ck)) <$> cks).
  assert (∀ ck, ck ∈ cks → lines (unlines (merge_sort String.le ck)) = merge_sort String.le ck) as Hlines.
  { intros ck Hck. apply lines_unlines. rewrite merge_sort_Permutation. apply Forall_forall. intros x Hx.
    pose proof (lines_clean (default EmptyString (fs !! input_file))) as Hclean. rewrite Forall_forall in Hclean. apply Hclean. change (x ∈ ls). rewrite <-Hj. apply list_elem_of_join. by exists ck. }
  destruct (merge_files_spec (R := LineReader) (Laws := line_reader_laws) contents) as (l & -> & Hl & Hs). cbn [mbind option_bind].
  eexists. split; [done|]. rewrite lookup_insert_eq. do 2 f_equal.
  apply (StronglySorted_unique String.le); [|apply StronglySorted_merge_sort; apply _|].
  - apply Hs. apply Forall_fmap, Forall_forall. intros ck Hck. simpl. rewrite Hlines by done. apply StronglySorted_merge_sort; apply _.
  - rewrite Hl, merge_sort_Permutation, <-Hj. unfold contents. clear -Hlines. induction cks as [|ck cks IH]; [done|]. csimpl.
    rewrite Hlines by (by left). rewrite merge_sort_Permutation, IH; [done|]. intros ck' Hck'. apply Hlines. by right.
Qed.
End runs.

Definition CHUNK_SIZE : nat := Z.to_nat 100000.

(** C27: The external sort sorts.  For every file of at most [INT_MAX] lines, other than its
    run files, the output has the lines of the input in increasing order, whatever the size
    of the chunks (100000 in the program) and however the priority queue orders equal lines;
    every run is read to its end, so nothing is lost or repeated. *)
Theorem external_sort_sorts `{Heap : !MinHeap entry_le} (chunk_size : nat) (fs : gmap string string) (input_file output_file : string) :
  (∀ id, input_file ≠ run_name id ∧ output_file ≠ run_name id) → input_file ≠ output_file →
  let ls := lines (default EmptyString (fs !! input_file)) in
  (Z.of_nat (length ls) ≤ INT_MAX)%Z →
  ∃ fs', sort_file chunk_size fs input_file output_file = Some fs' ∧ fs' !! output_file = Some (unlines (merge_sort String.le ls)) ∧
    lines (unlines (merge_sort String.le ls)) = merge_sort String.le ls.
Proof.
  intros Hdist Hio ls Hlen. destruct (sort_file_spec chunk_size fs input_file output_file Hlen) as (fs' & -> & Hout). exists fs'.
  split_and!; [done|done|]. apply lines_unlines. rewrite merge_sort_Permutation. apply lines_clean.
Qed.

Definition three_lines : gmap string string := {["in" := "b" +:+ String nl ("a" +:+ String nl "c")]}%string.

Lemma external_sort_sorts_witness :
  ∃ fs', sort_file (Heap := ScanHeap entry_le) 2 three_lines "in" "out" = Some fs' ∧ fs' !! "out"%string = Some (unlines ["a"; "b"; "c"]%string).
Proof.
  destruct (external_sort_sorts (Heap := ScanHeap entry_le) 2 three_lines "in" "out") as (fs' & H1 & H2 & _).
  - intros id. by split.
  - done.
  - vm_compute. discriminate.
  - exists fs'. split; [exact H1|]. rewrite H2. vm_compute. reflexivity.
Defined.
