(* ===== verification/Buckets.v ===== *)
(** * Partitioning large files by hash

    [src/large-scale-processing/top_100IP_in_500GB_logs.cpp] and
    [src/large-scale-processing/detect_duplicates_in_500GB_logs.cpp]: the words of a file are
    written to bucket files by their hash, so that all occurrences of a word are in one
    bucket, and the buckets are processed one after the other in memory.  [std::hash], the
    order of an [unordered_map] and the order of equal entries in a [priority_queue] are
    parameters.  That opening a bucket file may fail is in the model of the second, which looks
    at it; in that of the first it is taken to succeed. *)
From Stdlib Require Import Ascii.
From S2P Require Import Prelude Streams ExternalSort.
Local Open Scope nat_scope.

(** ** Buckets *)

Section buckets.
Context (hash : string → Z) (NUM_BUCKETS : nat).

(** [hash<string>{}(key) % NUM_BUCKETS]; the hash is a [size_t]. *)
Definition bucket_of (key : string) : nat := Z.to_nat (to_size_t (hash key) mod NUM_BUCKETS).

(** [buckets\[id\] << key << '\n'] *)
Definition write_key (buckets : list string) (key : string) : option (list string) :=
  b ← buckets !! bucket_of key; Some (<[bucket_of key := b +:+ (key +:+ String nl EmptyString)]> buckets).

Definition partition_file (input : string) : option (list string) :=
  run_ops write_key (replicate NUM_BUCKETS EmptyString) (words input).

(** The words of a bucket, in the order of the input. *)
Definition bucket_words (i : nat) (ws : list string) : list string := filter (λ w, bucket_of w = i) ws.

Lemma unlines_snoc l x : unlines (l ++ [x]) = unlines l +:+ (x +:+ String nl EmptyString).
Proof. induction l as [|y l IH]; simpl; [done|]. rewrite IH. rewrite string_app_assoc. done. Qed.

Lemma bucket_of_lt key : 0 < NUM_BUCKETS → bucket_of key < NUM_BUCKETS.
Proof. intros Hn. unfold bucket_of. pose proof (Z.mod_pos_bound (to_size_t (hash key)) NUM_BUCKETS). lia. Qed.

Lemma write_key_spec ws w :
  0 < NUM_BUCKETS →
  write_key ((λ i, unlines (bucket_words i ws)) <$> seq 0 NUM_BUCKETS) w =
  Some ((λ i, unlines (bucket_words i (ws ++ [w]))) <$> seq 0 NUM_BUCKETS).
Proof.
  intros Hn. pose proof (bucket_of_lt w Hn) as Hlt. unfold write_key. rewrite list_lookup_fmap, lookup_seq_lt by done.
  cbn [fmap option_fmap option_map mbind option_bind]. f_equal. apply list_eq. intros i. rewrite !list_lookup_fmap.
  destruct (decide (i = bucket_of w)) as [->|Hne].
  - rewrite list_lookup_insert_eq by (by rewrite length_fmap, length_seq). rewrite lookup_seq_lt by done. simpl.
    unfold bucket_words. rewrite filter_app, filter_cons_True by done. rewrite filter_nil. by rewrite unlines_snoc.
  - rewrite list_lookup_insert_ne by done. rewrite list_lookup_fmap. destruct (seq 0 NUM_BUCKETS !! i) as [j|] eqn:Ej; [|done]. simpl.
    apply lookup_seq in Ej as [-> _]. unfold bucket_words. rewrite filter_app, filter_cons_False by done. by rewrite filter_nil, app_nil_r.
Qed.

Lemma partition_spec input :
  0 < NUM_BUCKETS → partition_file input = Some ((λ i, unlines (bucket_words i (words input))) <$> seq 0 NUM_BUCKETS).
Proof.
  intros Hn. unfold partition_file.
  assert (∀ ws ws0, run_ops write_key ((λ i, unlines (bucket_words i ws0)) <$> seq 0 NUM_BUCKETS) ws =
    Some ((λ i, unlines (bucket_words i (ws0 ++ ws))) <$> seq 0 NUM_BUCKETS)) as H.
  { induction ws as [|w ws IH]; intros ws0; cbn [run_ops]; [by rewrite app_nil_r|]. rewrite write_key_spec by done. cbn [mbind option_bind].
    by rewrite (cons_middle w ws0 ws), (assoc_L (++)), <-IH. }
  etrans; [|exact (H (words input) [])]. f_equal. clear. generalize 0.
  induction NUM_BUCKETS as [|n IH]; intros k; [done|]. csimpl. f_equal. apply IH.
Qed.
End buckets.

(** Words that were read are words again when they are written and read back. *)
Lemma take_word_is_word s w r : take_word s = (w, r) → all_chars (λ c, negb (is_space c)) w = true.
Proof.
  revert w r. induction s as [|c s IH]; simpl; intros w r Hs; simplify_eq/=; [done|]. destruct (is_space c) eqn:Ec; simplify_eq/=; [done|].
  destruct (take_word s) as [w' r'] eqn:E. simplify_eq/=. rewrite Ec. by eapply IH.
Qed.

Lemma read_word_is_word s w r : read_word s = Some (w, r) → is_word w.
Proof.
  unfold read_word. destruct (take_word (skip_ws s)) as [w' r'] eqn:E. pose proof (take_word_is_word _ _ _ E) as Hw.
  destruct w' as [|c w']; [done|]. intros [= <- <-]. unfold is_word, wordb. by rewrite Hw.
Qed.

Lemma words_are_words s : Forall is_word (words s).
Proof.
  unfold words. generalize (String.length s). intros n. revert s. induction n as [|n IH]; intros s; simpl; [constructor|].
  destruct (read_word s) as [[w r]|] eqn:E; [|constructor]. constructor; [by eapply read_word_is_word|done].
Qed.

Lemma words_nl s : words (String nl s) = words s.
Proof. rewrite <-(words_fuel_enough (S (String.length s)) s) by lia. unfold words. cbn [String.length words_fuel]. by rewrite read_word_skip. Qed.

Lemma words_unlines (l : list string) : Forall is_word l → words (unlines l) = l.
Proof.
  induction 1 as [|w l Hw _ IH]; [done|]. simpl.
  destruct (@read_next_some WordReader word_reader_laws (w +:+ String nl (unlines l)) w (String nl (unlines l))) as [E _]; [by apply read_word_app|].
  simpl in E. rewrite E, words_nl, IH. done.
Qed.

(** All occurrences of a word are in its bucket. *)
Lemma occ_bucket hash n i ws w : occ w (bucket_words hash n i ws) = if decide (bucket_of hash n w = i) then occ w ws else 0%Z.
Proof.
  unfold bucket_words. induction ws as [|x ws IH]; [by case_decide|]. destruct (decide (bucket_of hash n x = i)) as [Hx|Hx].
  - rewrite filter_cons_True, !occ_cons, IH by done. repeat case_decide; subst; (done || lia).
  - rewrite filter_cons_False, occ_cons, IH by done. repeat case_decide; subst; (done || lia).
Qed.

(** ** Repeated words *)

(** One bucket: a word that was seen before and not printed yet is printed. *)
Definition dup_step (x : gset string * gset string * list string) (key : string) : gset string * gset string * list string :=
  let '(seen, printed, out) := x in
  if decide (key ∈ seen) then
    if decide (key ∈ printed) then (seen, printed, out) else (seen, {[key]} ∪ printed, out ++ [key])
  else ({[key]} ∪ seen, printed, out).

Definition find_in_bucket (bucket : string) : list string := (fold_left dup_step (words bucket) (∅, ∅, [])).2.

Definition findDuplicates (buckets : list string) : list string := buckets ≫= find_in_bucket.

Lemma dup_steps ws : let '(seen, printed, out) := fold_left dup_step ws (∅, ∅, []) in
  (∀ w, w ∈ seen ↔ (1 ≤ occ w ws)%Z) ∧ (∀ w, w ∈ printed ↔ w ∈ out) ∧ NoDup out ∧ (∀ w, w ∈ out ↔ (2 ≤ occ w ws)%Z).
Proof.
  induction ws as [|x ws IH] using rev_ind; [|].
  { simpl. split_and!; [|intros w; by rewrite elem_of_empty, elem_of_nil|constructor|]; intros w; change (occ w []) with 0%Z;
      rewrite ?elem_of_empty, ?elem_of_nil; lia. }
  rewrite fold_left_app. cbn [fold_left]. destruct (fold_left dup_step ws (∅, ∅, [])) as [[seen printed] out]. destruct IH as (H1 & H2 & H3 & H4).
  assert (∀ w, occ w (ws ++ [x]) = (occ w ws + if decide (w = x) then 1 else 0)%Z) as Hocc.
  { intros w. rewrite occ_app, occ_cons. change (occ w []) with 0%Z. lia. }
  pose proof (λ w, occ_nonneg w ws) as Hnn. unfold dup_step. destruct (decide (x ∈ seen)) as [Hs|Hs]; [destruct (decide (x ∈ printed)) as [Hp|Hp]|].
  - split_and!; [|done|done|]; intros w; rewrite ?H1, ?H4, Hocc; case_decide; subst; try lia.
    + apply H1 in Hs. lia.
    + apply H2, H4 in Hp. lia.
  - apply H1 in Hs. rewrite H2, H4 in Hp. split_and!.
    + intros w. rewrite H1, Hocc. case_decide; subst; lia.
    + intros w. rewrite elem_of_union, elem_of_singleton, elem_of_app, list_elem_of_singleton, H2. naive_solver.
    + apply NoDup_app. split_and!; [done|intros w Hw ->%list_elem_of_singleton; by apply H4 in Hw|apply NoDup_singleton].
    + intros w. rewrite elem_of_app, list_elem_of_singleton, H4, Hocc. case_decide; subst; [|naive_solver lia]. split; [lia|by right].
  - rewrite H1 in Hs. split_and!; [|done|done|]; intros w; rewrite ?elem_of_union, ?elem_of_singleton, ?H1, ?H4, Hocc; specialize (Hnn w); case_decide; subst;
      naive_solver lia.
Qed.

Lemma find_in_bucket_spec l w : Forall is_word l → (w ∈ find_in_bucket (unlines l) ↔ (2 ≤ occ w l)%Z) ∧ NoDup (find_in_bucket (unlines l)).
Proof.
  intros Hl. unfold find_in_bucket. rewrite words_unlines by done. pose proof (dup_steps l) as H. destruct (fold_left dup_step l (∅, ∅, [])) as [[seen printed] out].
  simpl. naive_solver.
Qed.

(** [NUM_BUCKETS] of the two programs. *)
Definition DUP_BUCKETS : nat := 50.
Definition TOP_BUCKETS : nat := 100.

(** Lists for every bucket, whose elements belong to it. *)
Lemma NoDup_bind_seq {A} (f : nat → list A) (key : A → nat) a n :
  (∀ i, NoDup (f i)) → (∀ i x, x ∈ f i → key x = i) → NoDup (seq a n ≫= f).
Proof.
  intros Hf Hk. revert a. induction n as [|n IH]; intros a; [constructor|]. csimpl. apply NoDup_app. split_and!; [done| |done].
  intros x Hx (i & Hi & Hs)%list_elem_of_bind. apply elem_of_seq in Hs. apply Hk in Hx. apply Hk in Hi. lia.
Qed.

Lemma bind_fmap {A B C} (f : A → B) (h : B → list C) (l : list A) : ((f <$> l) ≫= h) = (l ≫= λ x, h (f x)).
Proof. induction l as [|x l IH]; [done|]. csimpl. by rewrite IH. Qed.

(** The repeated words of a file are printed, each once. *)
Theorem duplicates_found (hash : string → Z) (n : nat) (input : string) :
  0 < n → ∃ buckets, partition_file hash n input = Some buckets ∧ NoDup (findDuplicates buckets) ∧
    ∀ w, w ∈ findDuplicates buckets ↔ (2 ≤ occ w (words input))%Z.
Proof.
  intros Hn. eexists. split; [by apply partition_spec|]. unfold findDuplicates. rewrite bind_fmap.
  assert (∀ i, Forall is_word (bucket_words hash n i (words input))) as Hw.
  { intros i. unfold bucket_words. pose proof (words_are_words input) as H. rewrite Forall_forall in *. intros w [_ Hw]%list_elem_of_filter. auto. }
  assert (∀ i w, w ∈ find_in_bucket (unlines (bucket_words hash n i (words input))) ↔ bucket_of hash n w = i ∧ (2 ≤ occ w (words input))%Z) as Hf.
  { intros i w. rewrite (proj1 (find_in_bucket_spec _ w (Hw i))), occ_bucket. case_decide; naive_solver lia. }
  split.
  - apply (NoDup_bind_seq _ (bucket_of hash n)); [intros i; by apply find_in_bucket_spec|]. intros i w Hin. by apply Hf in Hin as [? _].
  - intros w. rewrite list_elem_of_bind. split; [intros (i & Hin & _); by apply Hf in Hin as [_ ?]|]. intros H2. exists (bucket_of hash n w).
    split; [by apply Hf|]. apply elem_of_seq. pose proof (bucket_of_lt hash n w Hn). lia.
Qed.

(** *** The files of the program

    The bucket files may be there from an earlier run, and opening one may fail. *)

Section dup_files.
Context (hash : string → Z) (NUM_BUCKETS : nat).

(** The loop that opens, and empties, the bucket files, up to the first failure. *)
Fixpoint open_buckets (n i : nat) (opens : nat → bool) (files : list (option string)) : list (option string) * bool :=
  match n with
  | O => (files, true)
  | S n => if opens i then open_buckets n (S i) opens (<[i := Some EmptyString]> files) else (files, false)
  end.

(** A file that is not there is read as an empty one. *)
Definition contents (files : list (option string)) : list string := (λ f : option string, default EmptyString f) <$> files.

Definition partitionFile (opens : nat → bool) (input : option string) (files : list (option string)) : option (list (option string)) :=
  let '(files, ok) := open_buckets NUM_BUCKETS 0 opens files in
  if ok then
    match input with
    | None => Some files
    | Some input => buckets ← run_ops (write_key hash NUM_BUCKETS) (contents files) (words input); Some (Some <$> (buckets : list string))
    end
  else Some files.

(** [main]: the exit status and the words printed. *)
Definition dup_main (argc : Z) (opens : nat → bool) (input : option string) (files : list (option string)) : option (Z * list string) :=
  if (argc =? 2)%Z then files ← partitionFile opens input files; Some (0%Z, findDuplicates (contents files))
  else Some ((-1)%Z, []).

Lemma open_buckets_all n i opens files :
  (∀ j, i ≤ j < i + n → opens j = true) → i + n = length files → open_buckets n i opens files = (take i files ++ replicate n (Some EmptyString), true).
Proof.
  revert i files. induction n as [|n IH]; intros i files Ho Hl; cbn [open_buckets replicate]; [by rewrite take_ge, app_nil_r by lia|].
  rewrite Ho by lia. rewrite IH; [|intros j Hj; apply Ho; lia|rewrite length_insert; lia]. f_equal. rewrite insert_take_drop by lia.
  rewrite take_app_ge by (rewrite length_take; lia). rewrite length_take, Nat.min_l by lia. replace (S i - i) with 1 by lia. cbn [take]. rewrite take_0. by rewrite <-(assoc_L (++)).
Qed.

Lemma open_buckets_fails n i opens files k :
  i ≤ k < i + n → (∀ j, i ≤ j < k → opens j = true) → opens k = false → i + n = length files →
  open_buckets n i opens files = (take i files ++ replicate (k - i) (Some EmptyString) ++ drop k files, false).
Proof.
  revert i files. induction n as [|n IH]; intros i files Hk Ho Hf Hl; [lia|]. cbn [open_buckets]. destruct (decide (i = k)) as [->|Hne].
  - rewrite Hf, Nat.sub_diag. simpl. by rewrite take_drop.
  - rewrite Ho by lia. rewrite IH; [|lia|intros j Hj; apply Ho; lia|done|rewrite length_insert; lia]. f_equal. rewrite drop_insert_lt by lia.
    rewrite insert_take_drop by lia. rewrite take_app_ge by (rewrite length_take; lia). rewrite length_take, Nat.min_l by lia. replace (S i - i) with 1 by lia.
    cbn [take]. rewrite take_0. replace (k - i) with (S (k - S i)) by lia. cbn [replicate]. by rewrite <-!(assoc_L (++)).
Qed.

Lemma default_replicate n : contents (replicate n (Some EmptyString)) = replicate n EmptyString.
Proof. unfold contents. by rewrite fmap_replicate. Qed.

Lemma bucket_contents_app l k : contents (l ++ k) = contents l ++ contents k.
Proof. apply fmap_app. Qed.

Lemma contents_some l : contents (Some <$> l) = l.
Proof. unfold contents. rewrite <-list_fmap_compose. apply list_fmap_id. Qed.

Lemma findDuplicates_empty n : findDuplicates (replicate n EmptyString) = [].
Proof. induction n as [|n IH]; [done|]. exact IH. Qed.

Lemma findDuplicates_app l k : findDuplicates (l ++ k) = findDuplicates l ++ findDuplicates k.
Proof. apply bind_app. Qed.

(** The program.  If all files can be opened the repeated words of the input are printed, each
    once, whatever an earlier run left behind; without an input nothing is.  But if a bucket
    file cannot be opened, the words printed are those of an earlier run, in the buckets from
    that one on.  The status is 0 in all cases. *)
Theorem duplicates_program opens input files :
  0 < NUM_BUCKETS → length files = NUM_BUCKETS →
  ((∀ i, i < NUM_BUCKETS → opens i = true) →
    match input with
    | Some input => ∃ buckets, partition_file hash NUM_BUCKETS input = Some buckets ∧ dup_main 2 opens (Some input) files = Some (0%Z, findDuplicates buckets)
    | None => dup_main 2 opens None files = Some (0%Z, [])
    end) ∧
  ∀ k, k < NUM_BUCKETS → (∀ i, i < k → opens i = true) → opens k = false →
    dup_main 2 opens input files = Some (0%Z, findDuplicates (contents (drop k files))).
Proof.
  intros Hn Hl. unfold dup_main, partitionFile. simpl Z.eqb. cbv iota. split.
  - intros Ho. rewrite open_buckets_all; [|intros j Hj; apply Ho; lia|done]. rewrite take_0. cbn [app]. destruct input as [input|].
    + rewrite default_replicate. fold (partition_file hash NUM_BUCKETS input). rewrite partition_spec by done. cbn [mbind option_bind]. eexists. split; [done|].
      by rewrite contents_some.
    + cbn [mbind option_bind]. by rewrite default_replicate, findDuplicates_empty.
  - intros k Hk Ho Hf. rewrite (open_buckets_fails _ _ _ _ k); [|lia|intros j Hj; apply Ho; lia|done|done]. rewrite take_0, Nat.sub_0_r. cbn [app mbind option_bind].
    by rewrite bucket_contents_app, default_replicate, findDuplicates_app, findDuplicates_empty.
Qed.
End dup_files.

(** Two buckets, the second of which cannot be opened and is left from an earlier run. *)
Example stale_duplicates :
  dup_main (λ _, 0%Z) 2 2 (λ i, i =? 0) (Some "a"%string) [None; Some (unlines ["x"; "x"]%string)] = Some (0%Z, ["x"%string]).
Proof. vm_compute. reflexivity. Qed.

(** ** The most frequent words *)

Record Count := { ip : string; count : Z }.

Definition count_le (a b : Count) : Prop := (count a ≤ count b)%Z.

#[export] Instance count_le_dec : RelDecision count_le.
Proof. intros a b. unfold count_le. apply _. Defined.
#[export] Instance count_le_total : Total count_le.
Proof. intros a b. unfold count_le. lia. Qed.
#[export] Instance count_le_trans : Transitive count_le.
Proof. intros a b c. unfold count_le. lia. Qed.
#[export] Instance count_le_refl : Reflexive count_le.
Proof. intros a. unfold count_le. lia. Qed.

(** [freq\[ip\]++] *)
Definition count_word (freq : gmap string Z) (w : string) : option (gmap string Z) :=
  n ← checked (default 0%Z (freq !! w) + 1); Some (<[w := n]> freq).

Section top.
Context `{Heap : !MinHeap count_le} (iterate : gmap string Z → list (string * Z)).

(** [pq.push(e); if (pq.size() > K) pq.pop();] *)
Definition keep (K : Z) (pq : list Count) (e : Count) : list Count :=
  let pq := pq ++ [e] in
  if (to_size_t K <? length pq)%Z then match pop pq with Some (_, r) => r | None => pq end else pq.

Fixpoint top_loop (K : Z) (buckets : list string) (pq : list Count) : option (list Count) :=
  match buckets with
  | [] => Some pq
  | b :: buckets =>
      freq ← run_ops count_word ∅ (words b);
      top_loop K buckets (fold_left (keep K) ((λ x, {| ip := x.1; count := x.2 |}) <$> iterate freq) pq)
  end.

(** Emptying the queue. *)
Fixpoint drain (fuel : nat) (pq : list Count) : list Count :=
  match fuel with O => [] | S fuel => match pop pq with None => [] | Some (e, r) => e :: drain fuel r end end.

Definition top_K_IPs (K : Z) (buckets : list string) : option (list Count) :=
  pq ← top_loop K buckets []; Some (reverse (drain (length pq) pq)).

Lemma drain_spec fuel pq : length pq ≤ fuel → drain fuel pq ≡ₚ pq ∧ StronglySorted count_le (drain fuel pq).
Proof.
  revert pq. induction fuel as [|fuel IH]; intros pq Hl; simpl; [assert (pq = []) as -> by (apply nil_length_inv; lia); split; [done|constructor]|].
  destruct (decide (pq = [])) as [->|Hne]; [rewrite pop_empty; split; [done|constructor]|].
  destruct (pop_some pq Hne) as (e & r & -> & Hp & Hmin). pose proof (Permutation_length Hp) as Hlen. simpl in Hlen.
  destruct (IH r ltac:(lia)) as [H1 H2]. split; [by rewrite H1|]. constructor; [done|]. rewrite H1. rewrite Hp in Hmin. by apply Forall_cons in Hmin as [_ ?].
Qed.

(** The queue holds the [K] largest of the entries met so far. *)
Record top_inv (K : nat) (all pq dropped : list Count) : Prop := {
  top_all : pq ++ dropped ≡ₚ all;
  top_size : length pq = K `min` length all;
  top_rest d e : d ∈ dropped → e ∈ pq → count_le d e
}.

Lemma keep_inv (K : nat) all pq dropped e :
  (Z.of_nat K ≤ INT_MAX)%Z → top_inv K all pq dropped → ∃ dropped', top_inv K (all ++ [e]) (keep K pq e) dropped'.
Proof.
  intros HK [H1 H2 H3]. pose proof (Permutation_length H1) as Hlen. rewrite length_app in Hlen. unfold keep. rewrite to_size_t_id by lia. rewrite length_app. simpl.
  destruct (Z.ltb_spec K (length pq + 1)%nat) as [Hlt|Hge].
  - destruct (pop_some (pq ++ [e])) as (x & r & -> & Hp & Hmin); [by destruct pq|]. pose proof (Permutation_length Hp) as Hl. rewrite length_app in Hl. simpl in Hl.
    exists (x :: dropped). rewrite Forall_forall in Hmin. split.
    + rewrite <-H1. transitivity ((x :: r) ++ dropped); [solve_Permutation|]. rewrite <-Hp. solve_Permutation.
    + rewrite length_app. simpl. lia.
    + intros d e' [->|Hd]%elem_of_cons He'; [apply Hmin; rewrite Hp; by right|].
      assert (x ∈ pq ++ [e]) as Hx by (rewrite Hp; by left). apply elem_of_app in Hx as [Hx| ->%list_elem_of_singleton].
      * transitivity x; [auto|]. apply Hmin. rewrite Hp. by right.
      * apply H3; [done|]. assert (e :: r ≡ₚ e :: pq) as Hr by (rewrite <-Hp; solve_Permutation). apply Permutation_cons_inv in Hr. by rewrite <-Hr.
  - assert (dropped = []) as -> by (apply nil_length_inv; lia). exists []. rewrite app_nil_r in H1. split; [by rewrite app_nil_r, H1|rewrite !length_app; simpl; lia|].
    by intros d e' []%not_elem_of_nil.
Qed.

Lemma keep_all_inv (K : nat) all pq dropped es :
  (Z.of_nat K ≤ INT_MAX)%Z → top_inv K all pq dropped → ∃ dropped', top_inv K (all ++ es) (fold_left (keep K) es pq) dropped'.
Proof.
  intros HK. revert all pq dropped. induction es as [|e es IH]; intros all pq dropped Hi; simpl; [rewrite app_nil_r; eauto|].
  destruct (keep_inv K all pq dropped e HK Hi) as [d' Hi']. destruct (IH _ _ _ Hi') as [d'' Hi'']. exists d''. by rewrite <-(assoc_L (++)) in Hi''.
Qed.

(** The counts of a bucket. *)
Definition counted (ws : list string) (freq : gmap string Z) : Prop := ∀ w n, freq !! w = Some n ↔ n = occ w ws ∧ (0 < n)%Z.

Lemma count_words_spec ws : (Z.of_nat (length ws) ≤ INT_MAX)%Z → ∃ freq, run_ops count_word ∅ ws = Some freq ∧ counted ws freq.
Proof.
  induction ws as [|w ws IH] using rev_ind; intros Hl.
  { exists ∅. split; [done|]. intros w n. rewrite lookup_empty. change (occ w []) with 0%Z. split; [done|lia]. }
  rewrite length_app in Hl. simpl in Hl. destruct IH as (freq & Hr & Hc); [lia|]. rewrite run_ops_app, Hr. cbn [mbind option_bind run_ops]. unfold count_word.
  assert (default 0%Z (freq !! w) = occ w ws) as ->.
  { destruct (freq !! w) as [n|] eqn:E; simpl; [by apply Hc in E as [-> _]|]. pose proof (occ_nonneg w ws). destruct (decide (occ w ws = 0)%Z); [done|].
    assert (freq !! w = Some (occ w ws)) by (apply Hc; lia). congruence. }
  assert (occ w ws ≤ length ws)%Z as Hle by (unfold occ; pose proof (length_filter (w =.) ws); lia).
  pose proof (occ_nonneg w ws). rewrite checked_ok by int_bounds. cbn [mbind option_bind]. eexists. split; [done|]. intros v n.
  rewrite occ_app, occ_cons. change (occ v []) with 0%Z. rewrite lookup_insert_Some. case_decide as E; subst.
  - split; [intros [[_ <-]|[? _]]; [lia|done]|]. intros [-> _]. left. split; [done|lia].
  - rewrite (Hc v n). split; [intros [[-> _]|[_ ?]]; [done|lia]|]. intros [-> ?]. right. split; [done|lia].
Qed.

Context (Hiter : ∀ m, iterate m ≡ₚ map_to_list m).

(** The entries of a bucket with the words [ws]. *)
Lemma bucket_entries ws freq : counted ws freq →
  ∀ e, e ∈ ((λ x, {| ip := x.1; count := x.2 |}) <$> iterate freq) ↔ count e = occ (ip e) ws ∧ (0 < count e)%Z.
Proof.
  intros Hc e. rewrite Hiter, list_elem_of_fmap. split.
  - intros ([w n] & -> & Hx). apply elem_of_map_to_list, Hc in Hx. done.
  - intros He. exists (ip e, count e). split; [by destruct e|]. by apply elem_of_map_to_list, Hc.
Qed.

Lemma bucket_entries_once freq : NoDup (ip <$> ((λ x, {| ip := x.1; count := x.2 |}) <$> iterate freq)).
Proof. rewrite Hiter, <-list_fmap_compose. apply NoDup_fst_map_to_list. Qed.

Lemma top_loop_spec (K : nat) (bss : list (list string)) all pq dropped :
  (Z.of_nat K ≤ INT_MAX)%Z → Forall (λ ws, Forall is_word ws ∧ (Z.of_nat (length ws) ≤ INT_MAX)%Z) bss → top_inv K all pq dropped →
  ∃ ess pq' dropped', top_loop K (unlines <$> bss) pq = Some pq' ∧ top_inv K (all ++ mjoin ess) pq' dropped' ∧
    Forall2 (λ ws es, NoDup (ip <$> es) ∧ ∀ e, e ∈ es ↔ count e = occ (ip e) ws ∧ (0 < count e)%Z) bss ess.
Proof.
  intros HK Hbs. revert all pq dropped. induction Hbs as [|ws bss [Hw Hl] _ IH]; intros all pq dropped Hi.
  { exists [], pq, dropped. split_and!; [done|simpl; by rewrite app_nil_r|constructor]. }
  rewrite fmap_cons. cbn [top_loop]. rewrite words_unlines by done. destruct (count_words_spec ws Hl) as (freq & -> & Hc). cbn [mbind option_bind].
  destruct (keep_all_inv K all pq dropped ((λ x, {| ip := x.1; count := x.2 |}) <$> iterate freq) HK Hi) as [d1 Hi1].
  destruct (IH _ _ _ Hi1) as (ess & pq' & d' & -> & Hi' & Hf). eexists (_ :: ess), pq', d'. split_and!; [done| |].
  - csimpl. by rewrite (assoc_L (++)).
  - constructor; [|done]. split; [apply bucket_entries_once|by apply bucket_entries].
Qed.
End top.

(** The entries of all buckets. *)
Lemma entries_all hash n ws a m ess :
  Forall2 (λ ws es, NoDup (ip <$> es) ∧ ∀ e, e ∈ es ↔ count e = occ (ip e) ws ∧ (0 < count e)%Z) ((λ i, bucket_words hash n i ws) <$> seq a m) ess →
  NoDup (ip <$> mjoin ess) ∧ ∀ e, e ∈ mjoin ess ↔ a ≤ bucket_of hash n (ip e) < a + m ∧ count e = occ (ip e) ws ∧ (0 < count e)%Z.
Proof.
  revert a ess. induction m as [|m IH]; intros a ess Hf; [apply Forall2_nil_inv_l in Hf as ->; split; [constructor|]; intros e; csimpl; rewrite elem_of_nil; lia|].
  csimpl in Hf. apply Forall2_cons_inv_l in Hf as (es & ess' & (Hn & He) & Hf & ->). destruct (IH (S a) ess' Hf) as [Hn' He'].
  assert (∀ e, e ∈ es ↔ bucket_of hash n (ip e) = a ∧ count e = occ (ip e) ws ∧ (0 < count e)%Z) as He2.
  { intros e. rewrite He, occ_bucket. case_decide; naive_solver lia. }
  csimpl. split.
  - rewrite fmap_app. apply NoDup_app. split_and!; [done| |done]. intros w (e & -> & H1)%list_elem_of_fmap (e' & E & H2)%list_elem_of_fmap.
    apply He2 in H1 as [H1 _]. apply He' in H2 as [H2 _]. rewrite <-E in H2. lia.
  - intros e. rewrite elem_of_app, He2, He'. naive_solver lia.
Qed.

Lemma sorted_reverse {A} (R : relation A) (l : list A) : StronglySorted R l → StronglySorted (flip R) (reverse l).
Proof.
  induction 1 as [|x l _ IH Hx]; [constructor|]. rewrite reverse_cons. apply StronglySorted_app. split_and!; [|done|repeat constructor].
  intros y z Hy ->%list_elem_of_singleton. rewrite elem_of_reverse in Hy. rewrite Forall_forall in Hx. by apply Hx.
Qed.

(** C35: The most frequent words are found.  For every hash, order of the hash maps and
    priority queue, every file of at most [INT_MAX] words and every [K] from 0: the program
    answers [K] words, or all if there are fewer, each with the number of its occurrences in
    the file, by decreasing number, and no other word of the file occurs more often than one
    of them. *)
Theorem top_k_correct `{Heap : !MinHeap count_le} (iterate : gmap string Z → list (string * Z)) (hash : string → Z) (n : nat) (input : string) (K : nat) :
  (∀ m, iterate m ≡ₚ map_to_list m) → 0 < n → (Z.of_nat K ≤ INT_MAX)%Z → (Z.of_nat (length (words input)) ≤ INT_MAX)%Z →
  ∃ buckets result, partition_file hash n input = Some buckets ∧ top_K_IPs iterate K buckets = Some result ∧
    NoDup (ip <$> result) ∧ StronglySorted (flip count_le) result ∧
    length result = K `min` size (list_to_set (words input) : gset string) ∧
    (∀ e, e ∈ result → count e = occ (ip e) (words input)) ∧
    (∀ w e, w ∈ words input → w ∉ ip <$> result → e ∈ result → (occ w (words input) ≤ count e)%Z).
Proof.
  intros Hiter Hn HK Hlen. set (ws := words input) in *. set (bss := (λ i, bucket_words hash n i ws) <$> seq 0 n).
  assert (Forall (λ l, Forall is_word l ∧ (Z.of_nat (length l) ≤ INT_MAX)%Z) bss) as Hbss.
  { apply Forall_fmap, Forall_forall. intros i _. simpl. unfold bucket_words. pose proof (words_are_words input) as H. rewrite !Forall_forall in *.
    split; [intros w [_ Hw]%list_elem_of_filter; auto|]. pose proof (length_filter (λ w, bucket_of hash n w = i) ws). lia. }
  destruct (top_loop_spec iterate Hiter K bss [] [] [] HK Hbss) as (ess & pq & dropped & Hloop & [H1 H2 H3] & Hf); [split; [done|simpl; lia|by intros d e []%not_elem_of_nil]|].
  simpl in H1, H2. exists ((λ i, unlines (bucket_words hash n i ws)) <$> seq 0 n), (reverse (drain (length pq) pq)).
  split; [by apply partition_spec|]. unfold top_K_IPs.
  replace ((λ i, unlines (bucket_words hash n i ws)) <$> seq 0 n) with (unlines <$> bss) by (unfold bss; by rewrite <-list_fmap_compose).
  rewrite Hloop. cbn [mbind option_bind]. destruct (drain_spec (length pq) pq ltac:(lia)) as [Hd Hs]. rewrite <-reverse_Permutation in Hd.
  destruct (entries_all hash n ws 0 n ess Hf) as [Hnd Hin].
  assert (∀ e, e ∈ mjoin ess ↔ count e = occ (ip e) ws ∧ (0 < count e)%Z) as Hall.
  { intros e. rewrite Hin. pose proof (bucket_of_lt hash n (ip e) Hn). naive_solver lia. }
  split_and!; [done| |by apply sorted_reverse| | |].
  - rewrite Hd. rewrite <-H1, fmap_app in Hnd. by apply NoDup_app in Hnd as [? _].
  - rewrite Hd, H2. f_equal. rewrite <-(length_fmap ip), <-(size_list_to_set (C := gset string)) by done. f_equal. apply set_eq. intros w.
    rewrite !elem_of_list_to_set, list_elem_of_fmap. split.
    + intros (e & -> & [He H0]%Hall). destruct (decide (ip e ∈ ws)) as [|Hw]; [done|]. rewrite occ_not_elem in He by done. lia.
    + intros Hw. exists {| ip := w; count := occ w ws |}. split; [done|]. apply Hall. split; [done|]. by apply occ_elem.
  - intros e He. rewrite Hd in He. apply Hall. rewrite <-H1. apply elem_of_app. by left.
  - intros w e Hw Hnot He. rewrite Hd in He, Hnot. apply (H3 {| ip := w; count := occ w ws |}); [|done].
    assert ({| ip := w; count := occ w ws |} ∈ mjoin ess) as Hm by (apply Hall; split; [done|by apply occ_elem]). rewrite <-H1 in Hm.
    apply elem_of_app in Hm as [Hm|]; [|done]. destruct Hnot. apply list_elem_of_fmap. by exists {| ip := w; count := occ w ws |}.
Qed.

Lemma top_k_correct_witness :
  ∃ buckets result, partition_file (λ s, Z.of_nat (String.length s)) 3 "a bb a" = Some buckets ∧
    top_K_IPs (Heap := ScanHeap count_le) (λ m, map_to_list m) 1 buckets = Some result ∧ length result = 1.
Proof.
  destruct (top_k_correct (Heap := ScanHeap count_le) (λ m, map_to_list m) (λ s, Z.of_nat (String.length s)) 3 "a bb a" 1) as (buckets & result & H1 & H2 & _ & _ & H3 & _).
  - done.
  - lia.
  - vm_compute. discriminate.
  - vm_compute. discriminate.
  - exists buckets, result. split; [exact H1|]. split; [exact H2|]. rewrite H3. vm_compute. reflexivity.
Defined.
