(* ===== verification/TextTools.v ===== *)
(** * Text tools

    [src/unix-tools/my_grep.cpp], [src/unix-tools/my_tail.cpp] and
    [src/storage/Parallel_FileSearch.cpp].  A file is its contents, as a string for the tools
    that read lines and as a list of bytes for [tail], which reads blocks; reads of a file
    that is open are complete.  The directory walk of the parallel search is a parameter: the
    list of its entries. *)
From Stdlib Require Import Ascii.
From S2P Require Import Prelude Streams Workers ExternalSort.
Local Open Scope nat_scope.

(** ** Substrings *)

Fixpoint starts_with (pattern line : string) : bool :=
  match pattern, line with
  | EmptyString, _ => true
  | String a p, String b l => Ascii.eqb a b && starts_with p l
  | String _ _, EmptyString => false
  end.

(** [line.find(pattern) != string::npos] *)
Fixpoint found (pattern line : string) : bool :=
  starts_with pattern line || match line with EmptyString => false | String _ l => found pattern l end.

Lemma starts_with_spec p l : starts_with p l = true ↔ ∃ b, l = p +:+ b.
Proof.
  revert l. induction p as [|a p IH]; intros l; simpl; [split; [by exists l|done]|]. destruct l as [|b l]; [split; [done|by intros [? ?]]|].
  rewrite andb_true_iff, IH, Ascii.eqb_eq. split; [intros [-> [r ->]]; by exists r|]. intros [r [= -> ->]]. split; [done|by exists r].
Qed.

Lemma found_spec p l : found p l = true ↔ ∃ a b, l = a +:+ p +:+ b.
Proof.
  induction l as [|c l IH]; cbn [found]; rewrite orb_true_iff, starts_with_spec.
  - split; [intros [[b ->]|?]; [by exists EmptyString, b|done]|]. intros ([|c a] & b & E); [left; by exists b|done].
  - rewrite IH. split.
    + intros [[b ->]|(a & b & ->)]; [by exists EmptyString, b|by exists (String c a), b].
    + intros ([|c' a] & b & E); [left; by exists b|]. simpl in E. injection E as <- ->. right. by exists a, b.
Qed.

(** ** grep *)

(** [grep_file_pattern]: the answer and the lines printed. *)
Definition grep_file_pattern (fs : gmap string string) (filename pattern : string) : Z * list string :=
  match fs !! filename with
  | None => ((-1)%Z, [])
  | Some contents => (0%Z, filter (λ line, found pattern line = true) (lines contents))
  end.

(** The lines printed are those of the file that have the pattern in them, in order. *)
Lemma grep_lines fs filename pattern line :
  line ∈ (grep_file_pattern fs filename pattern).2 ↔
  ∃ contents, fs !! filename = Some contents ∧ line ∈ lines contents ∧ ∃ a b, line = a +:+ pattern +:+ b.
Proof.
  unfold grep_file_pattern. destruct (fs !! filename) as [contents|]; simpl.
  - rewrite list_elem_of_filter, found_spec. naive_solver.
  - rewrite elem_of_nil. naive_solver.
Qed.

(** ** tail *)

Section tail.
Context (BLOCK_SIZE line_number : nat).

(** The loop over a block from its end: the new [line_count], or the index after the newline
    before which printing starts. *)
Fixpoint scan_block (buffer : list ascii) (i : nat) (line_count : nat) : nat + nat :=
  match i with
  | O => inl line_count
  | S i =>
      if bool_decide (buffer !! i = Some nl) then
        if line_number <? S line_count then inr (S i) else scan_block buffer i (S line_count)
      else scan_block buffer i line_count
  end.

(** The loop over the blocks, from the end of the file: where printing starts. *)
Fixpoint find_start (fuel : nat) (file : list ascii) (pos line_count : nat) : option nat :=
  if (line_count <=? line_number) && (0 <? pos) then
    match fuel with
    | O => None
    | S fuel =>
        let bytes_to_read := BLOCK_SIZE `min` pos in
        let pos := pos - bytes_to_read in
        match scan_block (take bytes_to_read (drop pos file)) bytes_to_read line_count with
        | inr i => Some (pos + i)
        | inl line_count => find_start fuel file pos line_count
        end
    end
  else Some 0.

(** Printing the rest of the file, block by block. *)
Fixpoint print_blocks (fuel : nat) (file : list ascii) (pos : nat) : option (list ascii) :=
  match take BLOCK_SIZE (drop pos file) with
  | [] => Some []
  | buffer =>
      match fuel with
      | O => None
      | S fuel => rest ← print_blocks fuel file (pos + length buffer); Some (buffer ++ rest)
      end
  end.

Definition my_tail_command (file : list ascii) : option (list ascii) :=
  pos ← find_start (length file) file (length file) 0; print_blocks (length file) file pos.

(** The last bytes of a file, up to the newline after which [n] newlines follow. *)
Fixpoint until_newlines (n : nat) (reversed : list ascii) : list ascii :=
  match reversed with
  | [] => []
  | c :: r => if decide (c = nl) then match n with O => [] | S n => c :: until_newlines n r end else c :: until_newlines n r
  end.

Lemma scan_block_spec buffer i line_count before :
  i ≤ length buffer → line_count ≤ line_number →
  match scan_block buffer i line_count with
  | inr k => 0 < k ≤ i ∧ until_newlines (line_number - line_count) (reverse (before ++ take i buffer)) = reverse (drop k (take i buffer))
  | inl line_count' => line_count' ≤ line_number ∧
      until_newlines (line_number - line_count) (reverse (before ++ take i buffer)) =
      reverse (take i buffer) ++ until_newlines (line_number - line_count') (reverse before)
  end.
Proof.
  revert line_count. induction i as [|i IH]; intros lc Hi Hlc; cbn [scan_block]; [rewrite take_0, app_nil_r; done|].
  destruct (lookup_lt_is_Some_2 buffer i) as [c Hc]; [lia|]. rewrite (take_S_r buffer i c Hc), (assoc_L (++)), (reverse_snoc (before ++ take i buffer)).
  cbn [until_newlines]. assert (length (take i buffer) = i) as Hl by (rewrite length_take; lia). rewrite Hc. case_bool_decide as Hn; [injection Hn as ->|].
  - rewrite decide_True by done. destruct (Nat.ltb_spec line_number (S lc)) as [Hlt|Hge].
    + split; [lia|]. replace (line_number - lc) with 0 by lia. rewrite drop_app_ge, Hl by lia. replace (S i - i) with 1 by lia. done.
    + replace (line_number - lc) with (S (line_number - S lc)) by lia. specialize (IH (S lc) ltac:(lia) Hge).
      destruct (scan_block buffer i (S lc)) as [lc'|k].
      * destruct IH as [? ->]. split; [done|]. by rewrite reverse_snoc.
      * destruct IH as [? ->]. split; [lia|]. rewrite drop_app_le by lia. by rewrite reverse_snoc.
  - rewrite decide_False by congruence. specialize (IH lc ltac:(lia) Hlc). destruct (scan_block buffer i lc) as [lc'|k].
    + destruct IH as [? ->]. split; [done|]. by rewrite reverse_snoc.
    + destruct IH as [? ->]. split; [lia|]. rewrite drop_app_le by lia. by rewrite reverse_snoc.
Qed.

Lemma find_start_spec fuel file pos line_count :
  0 < BLOCK_SIZE → pos ≤ length file → pos ≤ fuel → line_count ≤ line_number →
  ∃ p, find_start fuel file pos line_count = Some p ∧ p ≤ pos ∧
    drop p (take pos file) = reverse (until_newlines (line_number - line_count) (reverse (take pos file))).
Proof.
  intros HB. revert pos line_count. induction fuel as [|fuel IH]; intros pos lc Hpos Hf Hlc; cbn [find_start]; rewrite (proj2 (Nat.leb_le lc line_number) Hlc).
  { replace pos with 0 by lia. exists 0. split_and!; [done|lia|done]. }
  destruct (Nat.ltb_spec 0 pos) as [H0|H0]; [|replace pos with 0 by lia; exists 0; split_and!; [done|lia|done]]. cbn [andb].
  set (b := BLOCK_SIZE `min` pos). set (pos' := pos - b). set (block := take b (drop pos' file)).
  assert (length block = b) as Hlb by (unfold block; rewrite length_take, length_drop; lia).
  assert (take pos file = take pos' file ++ block) as Hsplit.
  { unfold block. replace pos with (pos' + b) at 1 by lia. symmetry. apply take_take_drop. }
  pose proof (scan_block_spec block b lc (take pos' file) ltac:(lia) Hlc) as Hs. rewrite (take_ge block b) in Hs by lia. rewrite Hsplit.
  assert (length (take pos' file) = pos') as Hlp by (rewrite length_take; lia).
  destruct (scan_block block b lc) as [lc'|k].
  - destruct Hs as [Hlc' Hs]. destruct (IH pos' lc' ltac:(lia) ltac:(lia) Hlc') as (p & -> & Hle & Hp). exists p. split_and!; [done|lia|]. rewrite Hs, reverse_app, <-Hp, reverse_involutive.
    apply drop_app_le. lia.
  - destruct Hs as [Hk Hs]. exists (pos' + k). split_and!; [done|lia|]. rewrite Hs, reverse_involutive, drop_app_ge by lia. f_equal. lia.
Qed.

Lemma print_blocks_spec fuel file pos : 0 < BLOCK_SIZE → length file - pos ≤ fuel → print_blocks fuel file pos = Some (drop pos file).
Proof.
  intros HB. revert pos. induction fuel as [|fuel IH]; intros pos Hf; cbn [print_blocks].
  { rewrite drop_ge by lia. by rewrite take_nil. }
  destruct (take BLOCK_SIZE (drop pos file)) as [|c buffer] eqn:E.
  - destruct (drop pos file) eqn:E'; [done|]. exfalso. destruct BLOCK_SIZE; [lia|]. rewrite ?E' in E. simpl in E. done.
  - assert (length (c :: buffer) = BLOCK_SIZE `min` (length file - pos)) as Hl by (rewrite <-E, length_take, length_drop; lia).
    rewrite IH by (simpl in Hl; simpl; lia). cbn [mbind option_bind]. f_equal. rewrite <-drop_drop, <-E, length_take.
    destruct (decide (BLOCK_SIZE ≤ length (drop pos file))); [rewrite Nat.min_l by lia; apply take_drop|].
    rewrite take_ge, (drop_ge (drop pos file)) by lia. apply app_nil_r.
Qed.

Lemma tail_command_spec file : 0 < BLOCK_SIZE → my_tail_command file = Some (reverse (until_newlines line_number (reverse file))).
Proof.
  intros HB. unfold my_tail_command. destruct (find_start_spec (length file) file (length file) 0) as (p & -> & Hp & E); [done|lia..|]. cbn [mbind option_bind].
  rewrite take_ge, Nat.sub_0_r in E by lia. rewrite print_blocks_spec by lia. by rewrite E.
Qed.
End tail.

(** The bytes of a list of lines. *)
Definition line_bytes (ls : list (list ascii)) : list ascii := ls ≫= (λ l, l ++ [nl]).

Lemma until_line n l r : nl ∉ l → until_newlines n (l ++ r) = l ++ until_newlines n r.
Proof.
  induction l as [|c l IH]; intros Hl; [done|]. apply not_elem_of_cons in Hl as [Hc Hl]. cbn [app until_newlines]. rewrite decide_False by done. by rewrite IH.
Qed.

Lemma until_lines n ls :
  Forall (λ l, nl ∉ l) ls → reverse (until_newlines n (reverse (line_bytes ls))) = line_bytes (drop (length ls - n) ls).
Proof.
  revert n. induction ls as [|l ls IH] using rev_ind; intros n Hls; [by rewrite drop_nil|]. apply Forall_app in Hls as [Hls Hl]. apply Forall_cons in Hl as [Hl _].
  unfold line_bytes in *. rewrite bind_app, length_app. cbn [length mbind list_bind]. rewrite app_nil_r, (assoc_L (++)), reverse_snoc. cbn [until_newlines]. rewrite decide_True by done.
  destruct n as [|n].
  - rewrite drop_ge; [done|]. rewrite length_app. simpl. lia.
  - assert (nl ∉ reverse l) as Hl'. { rewrite elem_of_reverse. exact Hl. } rewrite reverse_app, (until_line n (reverse l)) by done. rewrite reverse_cons, reverse_app, reverse_involutive, IH by done.
    rewrite drop_app_le by lia. replace (length ls + 1 - S n) with (length ls - n) by lia. rewrite bind_app. cbn [mbind list_bind]. by rewrite app_nil_r, (assoc_L (++)).
Qed.

(** [tail] prints the last lines.  For every block size, a file whose lines are all
    terminated and any number [n], the output is the last [n] lines of the file, or all of it
    if it has fewer; the file is read block by block from its end, and wherever the blocks
    cut it, the answer is the same. *)
Theorem tail_prints_last_lines (BLOCK_SIZE n : nat) (ls : list (list ascii)) :
  0 < BLOCK_SIZE → Forall (λ l, nl ∉ l) ls → my_tail_command BLOCK_SIZE n (line_bytes ls) = Some (line_bytes (drop (length ls - n) ls)).
Proof. intros HB Hls. rewrite tail_command_spec by done. by rewrite until_lines. Qed.

Lemma tail_prints_last_lines_witness :
  my_tail_command 4 2 (line_bytes (String.list_ascii_of_string <$> ["ab"; "c"; "def"]%string)) =
  Some (line_bytes (String.list_ascii_of_string <$> ["c"; "def"]%string)).
Proof.
  assert (Forall (λ l, nl ∉ l) (String.list_ascii_of_string <$> ["ab"; "c"; "def"]%string)) as Hls
    by (repeat constructor; apply (bool_decide_unpack _); vm_compute; exact I).
  rewrite (tail_prints_last_lines 4 2 _ ltac:(lia) Hls). reflexivity.
Defined.

(** If the last line has no newline at its end, one line more is printed than was asked
    for. *)
Lemma tail_unterminated (BLOCK_SIZE n : nat) (ls : list (list ascii)) (l : list ascii) :
  0 < BLOCK_SIZE → Forall (λ l, nl ∉ l) ls → nl ∉ l →
  my_tail_command BLOCK_SIZE n (line_bytes ls ++ l) = Some (line_bytes (drop (length ls - n) ls) ++ l).
Proof.
  intros HB Hls Hl. rewrite tail_command_spec by done. assert (nl ∉ reverse l) as Hl' by (by rewrite elem_of_reverse). rewrite reverse_app, (until_line n (reverse l)) by done.
  by rewrite reverse_app, reverse_involutive, until_lines.
Qed.

Definition BLOCK_SIZE : nat := Z.to_nat 4096.

(** ** The parallel search *)

Module FileSearch.

(** An entry of the directory walk. *)
Record DirEntry := { path : string; is_regular_file : bool; extension : string }.

(** [search_directory]: the files put into the queue, each in a critical section of its
    own. *)
Definition search_directory (entries : list DirEntry) : list string :=
  path <$> filter (λ e, is_regular_file e = true ∧ extension e = ".cpp"%string) entries.

Definition push_file (file_name : string) (sh : ()) : () * list string * Signal := (sh, [file_name], Each).

(** What is printed: file, line number and line. *)
Record Match := { in_file : string; line_number : Z; text : string }.

(** A worker in [grep_file]: it opens the file, then reads its lines. *)
Inductive Doing := Opening (file_name : string) | Reading (file_name : string) (line_number : Z) (rest : list string).

Definition grep_file (fs : gmap string string) (pattern : string) (k : Doing) (sh : ()) : Outcome string Doing () Match :=
  match k with
  | Opening f =>
      {| goes_on := match fs !! f with None => None | Some contents => Some (Reading f 1 (lines contents)) end;
         leaves := sh; pushes := []; emits := []; signal := Each |}
  | Reading f n [] => {| goes_on := None; leaves := sh; pushes := []; emits := []; signal := Each |}
  | Reading f n (line :: rest) =>
      {| goes_on := Some (Reading f (n + 1) rest); leaves := sh; pushes := [];
         emits := if found pattern line then [{| in_file := f; line_number := n; text := line |}] else []; signal := Each |}
  end.

Definition ParallelFileSearch (fs : gmap string string) (pattern : string) : Program string Doing () Match string :=
  {| batch := 1; start := λ ts sh, (Opening (hd EmptyString ts), sh); step := grep_file fs pattern; call := push_file; stoppable := true |}.

Section search.
Context (fs : gmap string string) (pattern : string).

(** The matches in a list of lines that starts at number [n]. *)
Fixpoint matches (f : string) (n : Z) (ls : list string) : list Match :=
  match ls with
  | [] => []
  | line :: ls => (if found pattern line then [{| in_file := f; line_number := n; text := line |}] else []) ++ matches f (n + 1) ls
  end.

Definition file_matches (f : string) : list Match := match fs !! f with None => [] | Some contents => matches f 1 (lines contents) end.

Definition to_print (h : option Doing) : list Match :=
  match h with Some (Opening f) => file_matches f | Some (Reading f n ls) => matches f n ls | None => [] end.

Definition search_inv (st : bool) (sh : ()) (cs es ts : list string) (hs : list (option Doing)) (out : list Match) : Prop :=
  es = cs ∧ out ++ (hs ≫= to_print) ≡ₚ (ts ≫= file_matches).

#[global] Instance search_invariant : Invariant (ParallelFileSearch fs pattern) search_inv.
Proof.
  split.
  - simpl. lia.
  - intros st [] cs ts q hs out t k [] Hq (E & HP) Hh Es. destruct q as [|f q]; [done|]. simpl in *. simplify_eq. rewrite take_0. split; [done|].
    rewrite bind_app, <-HP. pose proof (bind_insert_perm to_print hs t _ (Some (Opening f)) Hh) as Ep. simpl in Ep. rewrite app_nil_r in Ep.
    rewrite Ep. cbn [mbind list_bind]. rewrite app_nil_r. solve_Permutation.
  - intros st [] cs es ts hs out t k o Hpre (E & HP) Hh. subst o. assert (pushes (grep_file fs pattern k ()) = []) as Epush by (by destruct k as [|f n []]).
    cbn [step ParallelFileSearch]. rewrite Epush, app_nil_r. split; [done|]. rewrite <-HP.
    pose proof (bind_insert_perm to_print hs t _ (goes_on (grep_file fs pattern k ())) Hh) as Ep.
    assert (to_print (Some k) = emits (grep_file fs pattern k ()) ++ to_print (goes_on (grep_file fs pattern k ()))) as Ek.
    { destruct k as [f|f n [|line ls]]; simpl; [unfold file_matches; by destruct (fs !! f)|done|done]. }
    rewrite Ek in Ep. apply (Permutation_app_inv_r (to_print (goes_on (grep_file fs pattern k ())))). rewrite <-!(assoc_L (++)), <-Ep. solve_Permutation.
  - intros [] cs es ts hs out f sh' ts' g (E & HP) Ec. unfold call, ParallelFileSearch, push_file in Ec. simplify_eq. done.
  - done.
Qed.

Definition file_weight (f : string) : nat := match fs !! f with None => 1 | Some contents => 2 + length (lines contents) end.

Definition doing_weight (k : Doing) : nat := match k with Opening f => file_weight f | Reading f n ls => S (length ls) end.

#[global] Instance search_weighted : Weighted (ParallelFileSearch fs pattern) search_inv file_weight doing_weight (λ _, 0).
Proof.
  split.
  - intros st sh cs ts q hs out k sh' Hq _ E. destruct q as [|n q]; [done|]. simpl in *. simplify_eq. simpl. lia.
  - intros st [] cs es ts hs out t k o Hi Hh. subst o. destruct k as [f|f n [|line ls]]; simpl; [|lia|lia].
    unfold file_weight. destruct (fs !! f); simpl; lia.
Qed.
End search.

(** The search prints every match of every file it was given, once, with its line number,
    whatever the number of threads and the schedule. *)
Theorem parallel_search_complete (fs : gmap string string) (pattern : string) (numThreads : nat) (us : list (Turn string)) p :
  0 < numThreads → run (ParallelFileSearch fs pattern) (pool_make numThreads () []) us = Some p →
  settles (ParallelFileSearch fs pattern) p ∧
  (quiescent p → output p ≡ₚ (called p ≫= file_matches fs pattern) ∧
     Forall (λ w, w = if stop p then Returned else Asleep) (workers p)).
Proof.
  intros Hn Hr. assert (search_inv fs pattern false () [] [] [] (replicate numThreads None) []) as H0 by (split; [done|by rewrite held_none]).
  split; [by eapply (workers_settle _ (search_inv fs pattern)), Hr; [apply _..|]|]. intros Hq.
  destruct (workers_end _ (search_inv fs pattern) numThreads () [] us p Hn H0 Hr Hq) as [(E & HP) Hw].
  rewrite held_none, app_nil_r in HP by done. rewrite E in HP. done.
Qed.
End FileSearch.
