(* ===== verification/ParallelLoops.v ===== *)
(** * Loops split over threads

    [src/multi-stage-pipeline/Parallel_query_executor.cpp] and
    [src/algorithms/MatrixMultiplication_Parallel.cpp]: the rows of a table are divided into
    ranges of equal size, one thread each.  The threads of the query add their partial sums
    under a mutex; those of the product write to disjoint rows without one.  A step is one
    critical section of the query, and one update of an element of the product.

    The elements of the matrices are [double]s: any type with a zero, an addition and a
    multiplication, without laws. *)
From S2P Require Import Prelude.
Local Open Scope nat_scope.

(** ** Ranges *)

(** The loop that creates the threads: thread [i] gets the rows from [i * size], up to [size]
    of them, and the loop ends at the first thread without rows. *)
Fixpoint ranges (n size i threads : nat) : list (nat * nat) :=
  match threads with
  | O => []
  | S threads => if n <=? i * size then [] else (i * size, (i * size + size) `min` n) :: ranges n size (S i) threads
  end.

Definition rows_of (r : nat * nat) : list nat := seq r.1 (r.2 - r.1).

(** The ranges follow each other and cover what is left. *)
Lemma ranges_cover n size i threads :
  n ≤ (i + threads) * size → (ranges n size i threads ≫= rows_of) = seq (i * size) (n - i * size).
Proof.
  revert i. induction threads as [|threads IH]; intros i Hn; simpl; [by replace (n - i * size) with 0 by lia|].
  destruct (Nat.leb_spec n (i * size)) as [Hle|Hlt]; [by replace (n - i * size) with 0 by lia|]. csimpl. rewrite IH by lia. unfold rows_of. simpl.
  destruct (decide (n ≤ i * size + size)) as [H|H].
  - rewrite Nat.min_r by lia. replace (n - (size + i * size)) with 0 by lia. by rewrite app_nil_r.
  - rewrite Nat.min_l by lia. replace (n - i * size) with ((i * size + size - i * size) + (n - (size + i * size))) by lia. rewrite seq_app. do 2 f_equal. lia.
Qed.

Lemma ranges_bound n size i threads r : r ∈ ranges n size i threads → r.1 < n ∧ r.2 ≤ n.
Proof.
  revert i. induction threads as [|threads IH]; intros i; simpl; [by intros []%not_elem_of_nil|]. destruct (Nat.leb_spec n (i * size)); [by intros []%not_elem_of_nil|].
  intros [->|Hr]%elem_of_cons; [simpl; lia|by eapply IH].
Qed.

(** The size rounds up, so that all rows are covered. *)
Definition round_up (n threads : nat) : nat := (n + threads - 1) / threads.

Lemma round_up_enough n threads : 0 < threads → n ≤ threads * round_up n threads.
Proof. intros Ht. unfold round_up. pose proof (Nat.div_mod_eq (n + threads - 1) threads). pose proof (Nat.mod_upper_bound (n + threads - 1) threads). lia. Qed.

Lemma all_rows n threads : 0 < threads → (ranges n (round_up n threads) 0 threads ≫= rows_of) = seq 0 n.
Proof. intros Ht. rewrite ranges_cover by (pose proof (round_up_enough n threads Ht); lia). simpl. by rewrite Nat.sub_0_r. Qed.

(** ** The query *)

Module Query.
Local Open Scope Z_scope.

Record Row := { id : Z; salary : Z; age : Z }.

(** The scan of the rows from [start] with a local sum of 64 bits; [None] is an access out of
    range or an overflow. *)
Definition add64 (a b : Z) : option Z := if (- 2 ^ 63 <=? a + b) && (a + b <? 2 ^ 63) then Some (a + b) else None.

Definition scan_row (table : list Row) (sum : Z) (i : nat) : option Z :=
  r ← table !! i; if 30 <? age r then add64 sum (salary r) else Some sum.

Definition scan (table : list Row) (r : nat * nat) : option Z := run_ops (scan_row table) 0 (rows_of r).

(** A worker scans its range and then adds its sum to the result under the mutex. *)
Inductive Worker := Scanning (r : nat * nat) | Adding (sum : Z) | Finished.

Record Executor := { final_result : Z; workers : list Worker }.

Definition worker (table : list Row) (e : Executor) (t : nat) : option Executor :=
  match workers e !! t with
  | Some (Scanning r) => sum ← scan table r; Some {| final_result := final_result e; workers := <[t := Adding sum]> (workers e) |}
  | Some (Adding sum) => s ← add64 (final_result e) sum; Some {| final_result := s; workers := <[t := Finished]> (workers e) |}
  | _ => Some e
  end.

(** [execute] up to the creation of the threads; the result is a member, which is not reset.
    [None] is a division by zero or an overflow of the rounding. *)
Definition execute (table : list Row) (before : Z) (numThreads : Z) : option Executor :=
  n ← checked (length table); s ← checked (n + numThreads);
  if numThreads =? 0 then None
  else Some {| final_result := before;
               workers := Scanning <$> ranges (length table) (round_up (length table) (Z.to_nat numThreads)) 0 (Z.to_nat numThreads) |}.

(** The worker threads run in any order; [join] waits until all have returned. *)
Definition interleave (table : list Row) (e : Executor) (schedule : list nat) : option Executor := run_ops (worker table) e schedule.

Definition joined (e : Executor) : bool := forallb (λ w, match w with Finished => true | _ => false end) (workers e).

(** The query: the salaries of those over thirty. *)
Definition amount (r : Row) : Z := if 30 <? age r then salary r else 0.
Definition total (table : list Row) : Z := foldr (λ r s, amount r + s) 0 table.

Definition row_ok (r : Row) : Prop := int_ok (salary r).

Definition amount_at (table : list Row) (i : nat) : Z := match table !! i with Some r => amount r | None => 0 end.
Definition sum_at (table : list Row) (ixs : list nat) : Z := foldr (λ i s, amount_at table i + s) 0 ixs.

Lemma sum_at_app table ix1 ix2 : sum_at table (ix1 ++ ix2) = sum_at table ix1 + sum_at table ix2.
Proof. induction ix1 as [|i ix1 IH]; [done|]. change (amount_at table i + sum_at table (ix1 ++ ix2) = amount_at table i + sum_at table ix1 + sum_at table ix2). lia. Qed.

Lemma sum_at_all table : sum_at table (seq 0 (length table)) = total table.
Proof.
  assert (∀ pre, sum_at (pre ++ table) (seq (length pre) (length table)) = total table) as H; [|exact (H [])].
  induction table as [|r table IH]; intros pre; [done|]. cbn [length seq]. change (amount_at (pre ++ r :: table) (length pre) + sum_at (pre ++ r :: table) (seq (S (length pre)) (length table)) = amount r + total table).
  unfold amount_at. rewrite list_lookup_middle by done. f_equal. specialize (IH (pre ++ [r])). rewrite length_app, Nat.add_1_r, <-(assoc_L (++)) in IH. exact IH.
Qed.

Lemma amount_bound table i : Forall row_ok table → - 2 ^ 31 ≤ amount_at table i ≤ 2 ^ 31.
Proof.
  intros Ht. unfold amount_at. destruct (table !! i) as [r|] eqn:E; [|lia]. pose proof (Forall_lookup_1 _ _ _ _ Ht E) as Hr. unfold row_ok, int_ok, INT_MIN, INT_MAX in Hr.
  unfold amount. destruct (30 <? age r); lia.
Qed.

Lemma sum_bound table ixs : Forall row_ok table → - (2 ^ 31 * length ixs) ≤ sum_at table ixs ≤ 2 ^ 31 * length ixs.
Proof.
  intros Ht. induction ixs as [|i ixs IH]; [simpl; lia|]. change (sum_at table (i :: ixs)) with (amount_at table i + sum_at table ixs). pose proof (amount_bound table i Ht). simpl length. lia.
Qed.

Lemma add64_ok a b : - 2 ^ 63 ≤ a + b < 2 ^ 63 → add64 a b = Some (a + b).
Proof. intros H. unfold add64. by rewrite (proj2 (Z.leb_le _ _)), (proj2 (Z.ltb_lt _ _)) by lia. Qed.

Lemma scan_spec table r : Forall row_ok table → Z.of_nat (length table) ≤ INT_MAX → (r.2 ≤ length table)%nat → scan table r = Some (sum_at table (rows_of r)).
Proof.
  intros Ht Hl Hr. unfold scan. assert (∀ ixs dn, (∀ i, i ∈ ixs → (i < length table)%nat) → Z.of_nat (length (dn ++ ixs)) ≤ INT_MAX →
    run_ops (scan_row table) (sum_at table dn) ixs = Some (sum_at table (dn ++ ixs))) as H.
  { induction ixs as [|i ixs IH]; intros dn Hi Hln; cbn [run_ops]; [by rewrite app_nil_r|]. destruct (lookup_lt_is_Some_2 table i) as [row Hrow]; [apply Hi; by left|].
    assert (scan_row table (sum_at table dn) i = Some (sum_at table (dn ++ [i]))) as ->.
    { unfold scan_row. rewrite Hrow. cbn [mbind option_bind]. rewrite sum_at_app. replace (sum_at table [i]) with (amount row) by (unfold sum_at, amount_at; simpl; rewrite Hrow; lia).
      unfold amount. destruct (30 <? age row); [|by rewrite Z.add_0_r]. apply add64_ok. pose proof (sum_bound table dn Ht). pose proof (Forall_lookup_1 _ _ _ _ Ht Hrow) as Hok.
      unfold row_ok, int_ok, INT_MIN, INT_MAX in *. rewrite length_app in Hln. simpl in Hln. lia. }
    cbn [mbind option_bind]. rewrite IH; [by rewrite <-(assoc_L (++))|intros j Hj; apply Hi; by right|]. by rewrite <-(assoc_L (++)). }
  apply (H _ []); [|]. - intros i Hi%elem_of_seq. lia. - simpl. unfold rows_of. rewrite length_seq. unfold INT_MAX in *. lia.
Qed.

(** *** Any schedule *)

(** The thread of range [r], and the rows that the finished threads have added. *)
Definition tracks (table : list Row) (w : Worker) (r : nat * nat) : Prop :=
  match w with Scanning r' => r' = r | Adding sum => sum = sum_at table (rows_of r) | Finished => True end.

Fixpoint added (ws : list Worker) (rs : list (nat * nat)) : list nat :=
  match ws, rs with
  | Finished :: ws, r :: rs => rows_of r ++ added ws rs
  | _ :: ws, _ :: rs => added ws rs
  | _, _ => []
  end.

Record follows (table : list Row) (before : Z) (rs : list (nat * nat)) (e : Executor) : Prop := {
  tracked : Forall2 (tracks table) (workers e) rs;
  summed : final_result e = before + sum_at table (added (workers e) rs)
}.

Lemma added_length ws rs : (length (added ws rs) ≤ length (rs ≫= rows_of))%nat.
Proof. revert rs. induction ws as [|w ws IH]; intros [|r rs]; [simpl; lia|simpl; lia|destruct w; simpl; lia|]. specialize (IH rs). csimpl. rewrite length_app. destruct w; simpl; rewrite ?length_app; lia. Qed.

Lemma added_same ws rs t w w' : ws !! t = Some w → w ≠ Finished → w' ≠ Finished → added (<[t := w']> ws) rs = added ws rs.
Proof.
  revert rs t. induction ws as [|w0 ws IH]; intros rs t Hw Hn Hn'; [done|]. destruct t as [|t], rs as [|r rs]; simpl in *; simplify_eq; [by destruct w, w'|by destruct w, w'|by destruct w0|].
  rewrite (IH rs t Hw Hn Hn'). by destruct w0.
Qed.

Lemma added_more table ws rs t w r : ws !! t = Some w → w ≠ Finished → rs !! t = Some r →
  sum_at table (added (<[t := Finished]> ws) rs) = sum_at table (added ws rs) + sum_at table (rows_of r).
Proof.
  revert rs t. induction ws as [|w0 ws IH]; intros rs t Hw Hn Hr; [done|]. destruct t as [|t], rs as [|r0 rs]; simpl in *; simplify_eq; try done.
  - destruct w; try done; rewrite sum_at_app; lia.
  - specialize (IH rs t Hw Hn Hr). destruct w0; rewrite ?sum_at_app; lia.
Qed.

Lemma added_all ws rs : forallb (λ w, match w with Finished => true | _ => false end) ws = true → length ws = length rs → added ws rs = rs ≫= rows_of.
Proof. revert rs. induction ws as [|w ws IH]; intros [|r rs]; simpl; try done. destruct w; try done. simpl. intros Hf [= Hl]. csimpl. by rewrite IH. Qed.

(** A turn of a thread neither overflows nor loses a sum. *)
Lemma worker_follows table before rs e t :
  Forall row_ok table → Z.of_nat (length table) ≤ INT_MAX → - 2 ^ 62 ≤ before ≤ 2 ^ 62 → (rs ≫= rows_of) = seq 0 (length table) →
  Forall (λ r, r.2 ≤ length table)%nat rs → follows table before rs e → ∃ e', worker table e t = Some e' ∧ follows table before rs e'.
Proof.
  intros Ht Hl Hb Hrs Hin [Htr Hs]. unfold worker. destruct (workers e !! t) as [w|] eqn:Hw; [|by exists e].
  destruct (Forall2_lookup_l _ _ _ _ _ Htr Hw) as (r & Hr & Hwr). destruct w as [r'|sum|]; simpl in Hwr; subst.
  - rewrite (scan_spec _ _ Ht Hl (Forall_lookup_1 _ _ _ _ Hin Hr)). eexists. split; [done|]. split; simpl.
    + rewrite <-(list_insert_id rs t r Hr). by apply Forall2_insert.
    + by rewrite (added_same _ _ _ _ _ Hw).
  - pose proof (added_more table _ rs t _ r Hw ltac:(done) Hr) as Hadd. pose proof (sum_bound table (added (<[t := Finished]> (workers e)) rs) Ht) as Hbd.
    pose proof (added_length (<[t := Finished]> (workers e)) rs) as Hlen. rewrite Hrs, length_seq in Hlen.
    rewrite add64_ok by (unfold INT_MAX in Hl; rewrite Hs, <-Z.add_assoc, <-Hadd; lia). eexists. split; [done|]. split; simpl.
    + rewrite <-(list_insert_id rs t r Hr). by apply Forall2_insert.
    + rewrite Hadd, Hs. lia.
  - by exists e.
Qed.

(** The executor that [execute] starts. *)
Lemma execute_starts table before numThreads e :
  execute table before numThreads = Some e → 0 < numThreads →
  let rs := ranges (length table) (round_up (length table) (Z.to_nat numThreads)) 0 (Z.to_nat numThreads) in
  follows table before rs e ∧ (rs ≫= rows_of) = seq 0 (length table) ∧ Forall (λ r, r.2 ≤ length table)%nat rs ∧ Z.of_nat (length table) ≤ INT_MAX.
Proof.
  intros He Hn rs. unfold execute in He. destruct (checked (length table)) as [n|] eqn:Ec; [|done]. cbn [mbind option_bind] in He. destruct (checked (n + numThreads)); [|done]. cbn [mbind option_bind] in He.
  destruct (Z.eqb_spec numThreads 0); [done|]. simplify_eq. split; [split; simpl|split; [|split]].
  - apply Forall2_fmap_l, Forall_Forall2_diag, Forall_forall. by intros r _.
  - change (before = before + sum_at table (added (Scanning <$> rs) rs)). clearbody rs. assert (added (Scanning <$> rs) rs = []) as ->; [by induction rs|]. unfold sum_at. simpl. lia.
  - apply all_rows. lia.
  - apply Forall_forall. intros r Hr. apply (ranges_bound _ _ _ _ _ Hr).
  - unfold checked in Ec. destruct (Z.leb_spec INT_MIN (length table)), (Z.leb_spec (length table) INT_MAX); simplify_eq/=; lia.
Qed.

(** The parallel query.  Whatever the order in which its threads run, a query over rows
    of [int]s never overflows its sums of 64 bits (while the result of earlier queries is
    below 2^62), and once all threads have returned the result has grown by exactly the sum
    of the salaries of those over thirty, for any positive number of threads. *)
Theorem parallel_query_correct table before numThreads e schedule :
  Forall row_ok table → - 2 ^ 62 ≤ before ≤ 2 ^ 62 → 0 < numThreads → execute table before numThreads = Some e →
  ∃ e', interleave table e schedule = Some e' ∧ (joined e' = true → final_result e' = before + total table).
Proof.
  intros Ht Hb Hn He. destruct (execute_starts _ _ _ _ He Hn) as (Hf & Hrs & Hin & Hl).
  destruct (run_ops_invariant (worker table) (follows table before _) e schedule (λ s o, worker_follows _ _ _ _ o Ht Hl Hb Hrs Hin) Hf) as (e' & He' & [Htr Hs]).
  exists e'. split; [done|]. intros Hj. rewrite Hs, (added_all _ _ Hj (Forall2_length _ _ _ Htr)), Hrs. by rewrite sum_at_all.
Qed.

(** Three rows and two threads; [final_result] starts at 100, as after an earlier query. *)
Definition three : list Row := [{| id := 1; salary := 10; age := 31 |}; {| id := 2; salary := 20; age := 30 |}; {| id := 3; salary := 40; age := 55 |}].

Lemma parallel_query_correct_witness :
  ∃ e e', execute three 100 2 = Some e ∧ interleave three e [1; 0; 1; 0]%nat = Some e' ∧ joined e' = true ∧ final_result e' = 150.
Proof.
  destruct (execute three 100 2) as [e|] eqn:He; [|discriminate].
  destruct (parallel_query_correct three 100 2 e [1; 0; 1; 0]%nat) as (e' & Hi & Hr); [repeat constructor; unfold INT_MIN, INT_MAX; simpl; lia|lia|lia|exact He|].
  exists e, e'. vm_compute in He. injection He as <-. vm_compute in Hi. injection Hi as <-. split; [reflexivity|split; [reflexivity|split; [reflexivity|exact (Hr eq_refl)]]].
Defined.
End Query.

(** ** The product of matrices *)

Module Matrices.
Section matrices.
Context {F : Type} (zero : F) (add mul : F → F → F).

Local Abbreviation Matrix := (list (list F)).

Definition cell (M : Matrix) (i j : nat) : option F := row ← M !! i; row !! j.
Definition set_cell (M : Matrix) (i j : nat) (v : F) : Matrix := alter (λ row, <[j := v]> row) i M.

(** An update of [C[i][j]] with the product at [k]. *)
Record Update := { at_i : nat; at_j : nat; at_k : nat }.

(** The updates that [multiplyRange] makes, in its order: [rEnd] is included.  [None] is the
    access to a row that is not there. *)
Definition multiplyRange (A B : Matrix) (rBegin rEnd : nat) : option (list Update) :=
  A0 ← A !! 0; B0 ← B !! 0;
  Some (i ← seq rBegin (S rEnd - rBegin); j ← seq 0 (length B0); k ← seq 0 (length A0); [{| at_i := i; at_j := j; at_k := k |}]).

(** The loop that creates the threads. *)
Fixpoint row_ranges (rowA rows_per_thread t num_threads : nat) : list (nat * nat) :=
  match num_threads with
  | O => []
  | S num_threads =>
      let rBegin := t * rows_per_thread in
      if rowA <=? rBegin then []
      else (rBegin, (rowA - 1) `min` (rBegin + rows_per_thread - 1)) :: row_ranges rowA rows_per_thread (S t) num_threads
  end.

(** A thread has updates to make; of the first one it may have computed the new value but
    not stored it: the update of an element is not atomic. *)
Record Thread := { todo : list Update; value : option F }.
Record State := { C : Matrix; threads : list Thread }.

Definition step (A B : Matrix) (s : State) (t : nat) : option State :=
  match threads s !! t with
  | None | Some {| todo := [] |} => Some s
  | Some {| todo := u :: us; value := None |} =>
      c ← cell (C s) (at_i u) (at_j u); a ← cell A (at_i u) (at_k u); b ← cell B (at_k u) (at_j u);
      Some {| C := C s; threads := <[t := {| todo := u :: us; value := Some (add c (mul a b)) |}]> (threads s) |}
  | Some {| todo := u :: us; value := Some v |} =>
      Some {| C := set_cell (C s) (at_i u) (at_j u) v; threads := <[t := {| todo := us; value := None |}]> (threads s) |}
  end.

(** The call up to the creation of the threads; there is at least one. *)
Definition ParallelMatrixMultiplication (A B : Matrix) (num_threads : Z) : option State :=
  B0 ← B !! 0;
  let n := Z.to_nat (Z.max num_threads 1) in
  _ ← checked (length A); _ ← checked (length A + Z.max num_threads 1);
  us ← mapM (λ r, multiplyRange A B r.1 r.2) (row_ranges (length A) (round_up (length A) n) 0 n);
  Some {| C := replicate (length A) (replicate (length B0) zero); threads := (λ us, {| todo := us; value := None |}) <$> us |}.

Definition interleave (A B : Matrix) (s : State) (schedule : list nat) : option State := run_ops (step A B) s schedule.
Definition joined (s : State) : bool := forallb (λ th, match todo th with [] => true | _ => false end) (threads s).

(** The sum over the column of [A] and the row of [B], in order. *)
Definition term (A B : Matrix) (i j k : nat) : F :=
  match cell A i k, cell B k j with Some a, Some b => mul a b | _, _ => zero end.
Definition dot (A B : Matrix) (p i j : nat) : F := fold_left (λ acc k, add acc (term A B i j k)) (seq 0 p) zero.

Definition rectangle (M : Matrix) (rows cols : nat) : Prop := length M = rows ∧ Forall (λ row, length row = cols) M.

Lemma rectangle_cell M rows cols i j : rectangle M rows cols → i < rows → j < cols → is_Some (cell M i j).
Proof.
  intros [<- Hc] Hi Hj. unfold cell. destruct (lookup_lt_is_Some_2 M i Hi) as [row Hr]. rewrite Hr. simpl. apply lookup_lt_is_Some_2. by rewrite (Forall_lookup_1 _ _ _ _ Hc Hr).
Qed.

Lemma cell_set_eq M i j v : is_Some (cell M i j) → cell (set_cell M i j v) i j = Some v.
Proof.
  intros [c Hc]. unfold cell in *. destruct (M !! i) as [row|] eqn:E; [|done]. simpl in Hc. unfold set_cell. rewrite list_lookup_alter_eq, E. simpl.
  apply list_lookup_insert_eq. by eapply lookup_lt_Some.
Qed.

Lemma cell_set_ne M i j v i' j' : (i, j) ≠ (i', j') → cell (set_cell M i j v) i' j' = cell M i' j'.
Proof.
  intros Hne. unfold cell, set_cell. destruct (decide (i = i')) as [->|Hi]; [|by rewrite list_lookup_alter_ne].
  rewrite list_lookup_alter_eq. destruct (M !! i') as [row|]; [|done]. simpl. apply list_lookup_insert_ne. congruence.
Qed.

Lemma set_cell_rectangle M rows cols i j v : rectangle M rows cols → rectangle (set_cell M i j v) rows cols.
Proof.
  intros [Hl Hc]. split; [by unfold set_cell; rewrite length_alter|]. apply Forall_alter; [done|]. intros row _ Hrow. by rewrite length_insert.
Qed.

(** The same ranges as those of the query, with their ends excluded. *)
Lemma row_ranges_ranges n size t m : 0 < size → (λ r, (r.1, S r.2)) <$> row_ranges n size t m = ranges n size t m.
Proof.
  intros Hs. revert t. induction m as [|m IH]; intros t; [done|]. cbn [row_ranges ranges]. destruct (Nat.leb_spec n (t * size)); [done|]. rewrite fmap_cons, IH. simpl. do 2 f_equal. lia.
Qed.

(** *** Any schedule *)

(** The value that [C[i][j]], now [c], has when the updates [us] are made. *)
Definition pending_cell (A B : Matrix) (us : list Update) (c : F) (i j : nat) : F :=
  fold_left (λ acc u, if decide ((at_i u, at_j u) = (i, j)) then add acc (term A B i j (at_k u)) else acc) us c.

Record thread_ok (A B M : Matrix) (n p q : nat) (th : Thread) (r : nat * nat) : Prop := {
  own_rows : ∀ u, u ∈ todo th → at_i u ∈ rows_of r ∧ at_i u < n ∧ at_j u < q ∧ at_k u < p;
  computed : ∀ v, value th = Some v →
    ∃ u us c, todo th = u :: us ∧ cell M (at_i u) (at_j u) = Some c ∧ v = add c (term A B (at_i u) (at_j u) (at_k u));
  will_be : ∀ i j c, i ∈ rows_of r → j < q → cell M i j = Some c → pending_cell A B (todo th) c i j = dot A B p i j
}.

Definition state_ok (A B : Matrix) (n p q : nat) (rs : list (nat * nat)) (s : State) : Prop :=
  rectangle (C s) n q ∧ Forall2 (thread_ok A B (C s) n p q) (threads s) rs.

(** A thread is not affected by what happens in other rows. *)
Lemma thread_ok_frame A B M M' n p q th r :
  (∀ i j, i ∈ rows_of r → cell M' i j = cell M i j) → thread_ok A B M n p q th r → thread_ok A B M' n p q th r.
Proof.
  intros Hf [Ho Hc Hw]. split; [done| |].
  - intros v Hv. destruct (Hc v Hv) as (u & us & c & Hu & Hm & ->). exists u, us, c. split; [done|]. split; [|done]. rewrite Hf; [done|].
    apply (Ho u). rewrite Hu. by left.
  - intros i j c Hi Hj Hm. rewrite Hf in Hm by done. by apply Hw.
Qed.

Lemma other_rows rs t t' r r' i : NoDup (rs ≫= rows_of) → rs !! t = Some r → rs !! t' = Some r' → t ≠ t' → i ∈ rows_of r → i ∉ rows_of r'.
Proof.
  revert t t'. induction rs as [|r0 rs IH]; [done|]. intros t t' Hnd Hr Hr' Hne Hi Hi'. csimpl in Hnd. apply NoDup_app in Hnd as (_ & Hd & Hnd).
  destruct t as [|t], t' as [|t']; simpl in *; simplify_eq.
  - apply (Hd i Hi), list_elem_of_bind. exists r'. split; [done|]. by eapply list_elem_of_lookup_2.
  - apply (Hd i Hi'), list_elem_of_bind. exists r. split; [done|]. by eapply list_elem_of_lookup_2.
  - apply (IH t t' Hnd Hr Hr'); [congruence|done|done].
Qed.

Lemma step_ok A B n p q rs s t :
  rectangle A n p → rectangle B p q → NoDup (rs ≫= rows_of) → state_ok A B n p q rs s → ∃ s', step A B s t = Some s' ∧ state_ok A B n p q rs s'.
Proof.
  intros HA HB Hnd [HC Hth]. unfold step. destruct (threads s !! t) as [[[|u us] val]|] eqn:Ht; [by exists s| |by exists s].
  destruct (Forall2_lookup_l _ _ _ _ _ Hth Ht) as (r & Hr & [Ho Hc Hw]). simpl in Ho, Hc, Hw. destruct (Ho u) as (Hin & Hi & Hj & Hk); [by left|].
  destruct val as [v|].
  - destruct (Hc v eq_refl) as (u' & us' & c & [= <- <-] & Hcell & Hv). eexists. split; [done|]. split; [by apply set_cell_rectangle|]. simpl.
    rewrite <-(list_insert_id rs t r Hr). rewrite Forall2_lookup. intros t'. destruct (decide (t = t')) as [<-|Hne].
    + rewrite !list_lookup_insert_eq by (by eapply lookup_lt_Some). constructor. split; simpl; [intros u' Hu'; apply Ho; by right|done|].
      intros i j c' Hii Hjj Hc'. destruct (decide ((at_i u, at_j u) = (i, j))) as [[= <- <-]|Hij].
      * rewrite cell_set_eq in Hc' by done. injection Hc' as <-. rewrite <-(Hw _ _ c Hii Hjj Hcell). unfold pending_cell. simpl. rewrite decide_True by done. by rewrite Hv.
      * rewrite cell_set_ne in Hc' by done. rewrite <-(Hw _ _ c' Hii Hjj Hc'). unfold pending_cell. simpl. by rewrite (decide_False (P := (at_i u, at_j u) = (i, j))).
    + rewrite !list_lookup_insert_ne by done. rewrite Forall2_lookup in Hth. specialize (Hth t'). destruct (rs !! t') as [r'|] eqn:Hr'; inversion Hth as [th ? Hok Hth'|]; constructor.
      simplify_eq. eapply thread_ok_frame; [|exact Hok]. intros i j Hi'. apply cell_set_ne. intros [= <- <-]. by apply (other_rows rs t t' r r' (at_i u) Hnd Hr Hr' Hne).
  - destruct (rectangle_cell _ _ _ _ _ HC Hi Hj) as [c Hcell], (rectangle_cell _ _ _ _ _ HA Hi Hk) as [a Ha], (rectangle_cell _ _ _ _ _ HB Hk Hj) as [b Hb].
    rewrite Hcell, Ha, Hb. cbn [mbind option_bind]. eexists. split; [done|]. split; [done|]. simpl. rewrite <-(list_insert_id rs t r Hr). apply Forall2_insert; [done|].
    split; simpl; [done| |done]. intros v [= <-]. exists u, us, c. split_and!; [done..|]. unfold term. by rewrite Ha, Hb.
Qed.

(** *** The start *)

Definition updates (r : nat * nat) (p q : nat) : list Update :=
  i ← rows_of r; j ← seq 0 q; k ← seq 0 p; [{| at_i := i; at_j := j; at_k := k |}].

Lemma updates_elem r p q u : u ∈ updates r p q → at_i u ∈ rows_of r ∧ at_j u < q ∧ at_k u < p.
Proof.
  unfold updates. intros (i & (j & (k & Hu & Hk%elem_of_seq)%list_elem_of_bind & Hj%elem_of_seq)%list_elem_of_bind & Hi)%list_elem_of_bind.
  apply list_elem_of_singleton in Hu as ->. simpl. split_and!; [done|lia|lia].
Qed.

Lemma pending_app A B us1 us2 c i j : pending_cell A B (us1 ++ us2) c i j = pending_cell A B us2 (pending_cell A B us1 c i j) i j.
Proof. apply fold_left_app. Qed.

Lemma pending_skip A B us c i j : (∀ u, u ∈ us → (at_i u, at_j u) ≠ (i, j)) → pending_cell A B us c i j = c.
Proof.
  revert c. induction us as [|u us IH]; intros c Hu; [done|]. unfold pending_cell. simpl. rewrite decide_False by (apply Hu; by left). apply IH. intros u' Hu'. apply Hu. by right.
Qed.

(** Only the block of [x] counts. *)
Lemma pending_bind A B (blk : nat → list Update) xs x c i j :
  NoDup xs → x ∈ xs → (∀ x' u, x' ≠ x → u ∈ blk x' → (at_i u, at_j u) ≠ (i, j)) → pending_cell A B (xs ≫= blk) c i j = pending_cell A B (blk x) c i j.
Proof.
  intros Hnd Hx Hblk. apply list_elem_of_split in Hx as (l1 & l2 & ->). apply NoDup_app in Hnd as (_ & Hd & [Hx2 _]%NoDup_cons).
  assert (∀ l, x ∉ l → ∀ u, u ∈ (l ≫= blk) → (at_i u, at_j u) ≠ (i, j)) as Hskip.
  { intros l Hl u (x' & Hu & Hx')%list_elem_of_bind. apply (Hblk x'); [|done]. by intros ->. }
  rewrite bind_app. csimpl. rewrite !pending_app, (pending_skip A B (l2 ≫= blk)) by (by apply Hskip). f_equal. apply pending_skip, Hskip. intros Hx1. apply (Hd x Hx1). by left.
Qed.

Lemma pending_updates A B r p q i j : i ∈ rows_of r → j < q → pending_cell A B (updates r p q) zero i j = dot A B p i j.
Proof.
  intros Hi Hj. unfold updates. rewrite (pending_bind _ _ _ _ i); [|apply NoDup_seq|done|].
  - rewrite (pending_bind _ _ _ _ j); [|apply NoDup_seq|apply elem_of_seq; lia|].
    + unfold pending_cell, dot. generalize (seq 0 p) as ks. intros ks. generalize zero as c. induction ks as [|k ks IH]; intros c; [done|]. csimpl. rewrite decide_True by done. apply IH.
    + intros j' u Hne (k & ->%list_elem_of_singleton & _)%list_elem_of_bind. simpl. congruence.
  - intros i' u Hne (j' & (k & ->%list_elem_of_singleton & _)%list_elem_of_bind & _)%list_elem_of_bind. simpl. congruence.
Qed.

Lemma multiplyRange_updates A B n p q rBegin rEnd :
  rectangle A n p → rectangle B p q → 0 < n → 0 < p → multiplyRange A B rBegin rEnd = Some (updates (rBegin, S rEnd) p q).
Proof.
  intros [HA HcA] [HB HcB] Hn Hp. unfold multiplyRange. destruct (lookup_lt_is_Some_2 A 0) as [A0 HA0]; [lia|]. destruct (lookup_lt_is_Some_2 B 0) as [B0 HB0]; [lia|].
  rewrite HA0, HB0. cbn [mbind option_bind]. by rewrite (Forall_lookup_1 _ _ _ _ HcA HA0), (Forall_lookup_1 _ _ _ _ HcB HB0).
Qed.

(** A thread that begins, on a matrix of zeros. *)
Lemma thread_starts A B M n p q r :
  (∀ i j c, cell M i j = Some c → c = zero) → r.2 ≤ n → thread_ok A B M n p q {| todo := updates r p q; value := None |} r.
Proof.
  intros HM Hr. split; simpl; [|done|].
  - intros u Hu. destruct (updates_elem _ _ _ _ Hu) as (Hi & Hj & Hk). split_and!; [done| |done|done]. unfold rows_of in Hi. apply elem_of_seq in Hi. lia.
  - intros i j c Hi Hj ->%HM. by apply pending_updates.
Qed.

Lemma zeros_cell n q i j c : cell (replicate n (replicate q zero)) i j = Some c → c = zero.
Proof. unfold cell. intros (row & [-> _]%lookup_replicate & [-> _]%lookup_replicate)%bind_Some. done. Qed.

Lemma starts_ok A B n p q num_threads s :
  rectangle A n p → rectangle B p q → 0 < p → ParallelMatrixMultiplication A B num_threads = Some s →
  ∃ rs, state_ok A B n p q rs s ∧ (rs ≫= rows_of) = seq 0 n.
Proof.
  intros HA HB Hp Hs. unfold ParallelMatrixMultiplication in Hs. destruct HA as [HlA HcA]. destruct (lookup_lt_is_Some_2 B 0) as [B0 HB0]; [destruct HB; lia|]. rewrite HB0 in Hs. cbn [mbind option_bind] in Hs.
  destruct (checked (length A)); [|done]. cbn [mbind option_bind] in Hs. destruct (checked (length A + _)); [|done]. cbn [mbind option_bind] in Hs.
  rewrite (Forall_lookup_1 _ _ _ _ (proj2 HB) HB0), HlA in Hs. set (m := Z.to_nat (Z.max num_threads 1)) in *. assert (0 < m) as Hm by lia.
  set (rs := ranges n (round_up n m) 0 m). exists rs. split; [|by apply all_rows].
  assert (mapM (λ r, multiplyRange A B r.1 r.2) (row_ranges n (round_up n m) 0 m) = Some ((λ r, updates r p q) <$> rs)) as HmapM.
  { destruct (decide (n = 0)) as [->|Hn]; [by destruct m|]. assert (0 < round_up n m) as Hpos by (pose proof (round_up_enough n m Hm); destruct (round_up n m); lia).
    unfold rs. rewrite <-(row_ranges_ranges _ _ _ _ Hpos). generalize (row_ranges n (round_up n m) 0 m). intros l. induction l as [|[b e] l IH]; [done|].
    cbn [mapM]. rewrite (multiplyRange_updates A B n p q) by (done || lia). simpl. simpl in IH. by rewrite IH. }
  rewrite HmapM in Hs. cbn [mbind option_bind] in Hs. injection Hs as <-. split; simpl.
  - split; [by rewrite length_replicate|]. apply Forall_replicate, length_replicate.
  - rewrite <-list_fmap_compose. apply Forall2_fmap_l, Forall_Forall2_diag, Forall_forall. intros r Hr. apply thread_starts; [apply zeros_cell|]. by apply (ranges_bound _ _ _ _ _ Hr).
Qed.

Lemma joined_cells A B n p q rs s i j : state_ok A B n p q rs s → (rs ≫= rows_of) = seq 0 n → joined s = true → i < n → j < q → cell (C s) i j = Some (dot A B p i j).
Proof.
  intros [HC Hth] Hrs Hjoin Hi Hj. assert (i ∈ rs ≫= rows_of) as (r & Hir & (t & Ht)%list_elem_of_lookup)%list_elem_of_bind by (rewrite Hrs; apply elem_of_seq; lia).
  destruct (Forall2_lookup_r _ _ _ _ _ Hth Ht) as (th & Hth' & [_ _ Hw]). destruct (rectangle_cell _ _ _ i j HC Hi Hj) as [c Hc]. rewrite Hc. f_equal.
  rewrite <-(Hw i j c Hir Hj Hc). unfold joined in Hjoin. rewrite forallb_forall in Hjoin. specialize (Hjoin th). destruct (todo th); [done|].
  discriminate Hjoin. apply list_elem_of_In. by eapply list_elem_of_lookup_2.
Qed.
End matrices.


End Matrices.
