(* ===== verification/Composite.v ===== *)
(** * Trees of objects behind one interface

    [src/oop-framework/Composite_Filesystem.cpp]: files and directories under the class
    [Node]; [src/oop-framework/UI_Component_tree.cpp]: components under [Component].  A
    directory keeps pointers to its children, which the caller owns and may go on changing,
    and which may be shared: nodes live in a heap.  The virtual functions recurse through
    the pointers; their fuel bounds the depth of the recursion.

    The theorems relate the heap below a node to a tree ([unfold]): where the pointers form
    no cycle, the functions do what they do on the tree, and [remove] prunes it also where
    directories share children. *)
From S2P Require Import Prelude Streams.
Local Open Scope nat_scope.

(** ** The objects *)

Inductive Node := File (name : string) (file_size : Z) | Directory (name : string) (children : list nat).

Definition getName (n : Node) : string := match n with File name _ | Directory name _ => name end.

(** [add]: a directory appends the pointer, a file throws (the message is on the right). *)
Definition add (h : gmap nat Node) (a child : nat) : option (gmap nat Node + string) :=
  n ← h !! a;
  match n with
  | Directory name cs => Some (inl (<[a := Directory name (cs ++ [child])]> h))
  | File _ _ => Some (inr "can not add child to file!"%string)
  end.

(** [size]: a sum of [int]s. *)
Fixpoint sum_sizes (rec : nat → option Z) (total : Z) (cs : list nat) : option Z :=
  match cs with [] => Some total | c :: cs => s ← rec c; t ← checked (total + s); sum_sizes rec t cs end.

Fixpoint node_size (fuel : nat) (h : gmap nat Node) (a : nat) : option Z :=
  match fuel with
  | O => None
  | S fuel =>
      n ← h !! a;
      match n with File _ s => Some s | Directory _ cs => sum_sizes (node_size fuel h) 0 cs end
  end.

(** [ls] prints a line for every node, two blanks further in for each level. *)
Definition blanks (indent : nat) : string := String.string_of_list_ascii (replicate indent (Ascii.ascii_of_N 32)).

Fixpoint each_child (rec : nat → option (list string)) (cs : list nat) : option (list string) :=
  match cs with [] => Some [] | c :: cs => l ← rec c; ls ← each_child rec cs; Some (l ++ ls) end.

Fixpoint ls (fuel : nat) (h : gmap nat Node) (indent a : nat) : option (list string) :=
  match fuel with
  | O => None
  | S fuel =>
      n ← h !! a;
      let line := blanks indent +:+ "|-" +:+ getName n in
      match n with
      | File _ s => Some [line +:+ " (" +:+ show_int s +:+ ")"]
      | Directory _ cs => ls ← each_child (ls fuel h (indent + 2)) cs; Some (line :: ls)
      end
  end.

(** [find] returns a pointer or null ([Some None]). *)
Fixpoint find_child (rec : nat → option (option nat)) (cs : list nat) : option (option nat) :=
  match cs with [] => Some None | c :: cs => r ← rec c; match r with Some a => Some (Some a) | None => find_child rec cs end end.

Fixpoint find (fuel : nat) (h : gmap nat Node) (a : nat) (name : string) : option (option nat) :=
  match fuel with
  | O => None
  | S fuel =>
      n ← h !! a;
      if decide (getName n = name) then Some (Some a)
      else match n with File _ _ => Some None | Directory _ cs => find_child (λ c, find fuel h c name) cs end
  end.

(** [remove]: the loop reads the vector of the directory again in every round, since it
    erases from it; [k] bounds its rounds. *)
Fixpoint remove_loop (rec : gmap nat Node → nat → option (gmap nat Node)) (name : string) (a k i : nat) (h : gmap nat Node)
    : option (gmap nat Node) :=
  n ← h !! a;
  match n with
  | File _ _ => None
  | Directory dname cs =>
      match cs !! i with
      | None => Some h
      | Some c =>
          match k with
          | O => None
          | S k =>
              x ← h !! c;
              if decide (getName x = name) then remove_loop rec name a k i (<[a := Directory dname (base.delete i cs)]> h)
              else h ← rec h c; remove_loop rec name a k (S i) h
          end
      end
  end.

Fixpoint remove (fuel : nat) (h : gmap nat Node) (a : nat) (name : string) : option (gmap nat Node) :=
  match fuel with
  | O => None
  | S fuel =>
      n ← h !! a;
      match n with
      | File _ _ => Some h
      | Directory _ cs => remove_loop (λ h c, remove fuel h c name) name a (length cs) 0 h
      end
  end.

(** ** Trees *)

Inductive Tree := FileT (addr : nat) (name : string) (file_size : Z) | DirT (addr : nat) (name : string) (ts : list Tree).

Definition tname (t : Tree) : string := match t with FileT _ n _ | DirT _ n _ => n end.
Definition taddr (t : Tree) : nat := match t with FileT a _ _ | DirT a _ _ => a end.

(** The tree below a node, if it is finite and without dangling pointers; [fuel] bounds its
    height. *)
Fixpoint unfold_tree (fuel : nat) (h : gmap nat Node) (a : nat) : option Tree :=
  match fuel with
  | O => None
  | S fuel =>
      n ← h !! a;
      match n with
      | File name s => Some (FileT a name s)
      | Directory name cs => ts ← mapM (unfold_tree fuel h) cs; Some (DirT a name ts)
      end
  end.

(** The functions on trees. *)
Fixpoint tree_size (t : Tree) : Z := match t with FileT _ _ s => s | DirT _ _ ts => foldr (λ t n, (tree_size t + n)%Z) 0%Z ts end.

Fixpoint tree_ls (indent : nat) (t : Tree) : list string :=
  match t with
  | FileT _ n s => [blanks indent +:+ "|-" +:+ n +:+ " (" +:+ show_int s +:+ ")"]
  | DirT _ n ts => (blanks indent +:+ "|-" +:+ n) :: (ts ≫= tree_ls (indent + 2))
  end.

Fixpoint preorder (t : Tree) : list (nat * string) :=
  match t with FileT a n _ => [(a, n)] | DirT a n ts => (a, n) :: (ts ≫= preorder) end.

Fixpoint prune (name : string) (t : Tree) : Tree :=
  match t with
  | FileT _ _ _ => t
  | DirT a n ts => DirT a n (ts ≫= λ t, if decide (tname t = name) then [] else [prune name t])
  end.

(** The sizes of the files are not negative. *)
Fixpoint sizes_ok (t : Tree) : Prop := match t with FileT _ _ s => (0 ≤ s)%Z | DirT _ _ ts => foldr (λ t P, sizes_ok t ∧ P) True ts end.

(** *** Unfolding *)

Lemma unfold_dir fuel h a n cs t :
  h !! a = Some (Directory n cs) → unfold_tree (S fuel) h a = Some t → ∃ ts, t = DirT a n ts ∧ Forall2 (λ c t, unfold_tree fuel h c = Some t) cs ts.
Proof.
  intros Ha Ht. simpl in Ht. rewrite Ha in Ht. simpl in Ht. destruct (mapM (unfold_tree fuel h) cs) as [ts|] eqn:E; [|done]. simplify_eq/=.
  exists ts. split; [done|]. by apply mapM_Some_1.
Qed.

Lemma unfold_dir_2 fuel h a n cs ts :
  h !! a = Some (Directory n cs) → Forall2 (λ c t, unfold_tree fuel h c = Some t) cs ts → unfold_tree (S fuel) h a = Some (DirT a n ts).
Proof. intros Ha Hts. simpl. rewrite Ha. simpl. by rewrite (mapM_Some_2 _ _ _ Hts). Qed.

Lemma unfold_addr fuel h a t : unfold_tree fuel h a = Some t → taddr t = a ∧ ∃ n, h !! a = Some n ∧ tname t = getName n.
Proof.
  destruct fuel as [|fuel]; [done|]. simpl. destruct (h !! a) as [[n s|n cs]|]; simpl; [intros [= <-]; eauto| |done].
  destruct (mapM _ cs); [|done]. intros [= <-]. eauto.
Qed.

Lemma unfold_mono f f' h a t : f ≤ f' → unfold_tree f h a = Some t → unfold_tree f' h a = Some t.
Proof.
  revert f' a t. induction f as [|f IH]; intros f' a t Hf Ht; [done|]. destruct f' as [|f']; [lia|].
  destruct (h !! a) as [[n s|n cs]|] eqn:Ha; [simpl in *; by rewrite Ha in *| |simpl in Ht; by rewrite Ha in Ht].
  destruct (unfold_dir _ _ _ _ _ _ Ha Ht) as (ts & -> & Hts). apply (unfold_dir_2 _ _ _ _ cs ts Ha). eapply Forall2_impl; [exact Hts|]. intros c t' Hc. apply IH; [lia|done].
Qed.

Lemma unfold_det f f' h a t t' : unfold_tree f h a = Some t → unfold_tree f' h a = Some t' → t = t'.
Proof.
  intros H1 H2. apply (unfold_mono _ (max f f')) in H1; [|lia]. apply (unfold_mono _ (max f f')) in H2; [|lia]. congruence.
Qed.

(** *** Reading *)

Lemma tree_size_nonneg t : sizes_ok t → (0 ≤ tree_size t)%Z.
Proof.
  revert t. fix IH 1. intros [a n s|a n ts]; simpl; [done|]. induction ts as [|t ts IHts]; simpl; [lia|]. intros [H1 H2]. specialize (IH t H1). specialize (IHts H2). lia.
Qed.

Lemma node_size_spec fuel h a t :
  unfold_tree fuel h a = Some t → sizes_ok t → (tree_size t ≤ INT_MAX)%Z → node_size fuel h a = Some (tree_size t).
Proof.
  revert a t. induction fuel as [|fuel IH]; intros a t Ht Hok Hmax; [done|].
  destruct (h !! a) as [[n s|n cs]|] eqn:Ha; [by simpl in *; rewrite Ha in *; simplify_eq/=| |simpl in Ht; by rewrite Ha in Ht].
  destruct (unfold_dir _ _ _ _ _ _ Ha Ht) as (ts & -> & Hts). simpl. rewrite Ha. simpl. simpl in Hok, Hmax.
  assert (∀ total, (0 ≤ total)%Z → (total + foldr (λ t n, (tree_size t + n)%Z) 0%Z ts ≤ INT_MAX)%Z →
    sum_sizes (node_size fuel h) total cs = Some (total + foldr (λ t n, (tree_size t + n)%Z) 0%Z ts)%Z) as H; [|rewrite H; [f_equal; lia|lia|lia]].
  clear Ha Ht Hmax a. revert Hok. induction Hts as [|c t cs ts Hc Hts IHts]; intros Hok total Htot Hmax; simpl in *; [f_equal; lia|].
  destruct Hok as [Hok1 Hok2]. pose proof (tree_size_nonneg t Hok1) as Hpos.
  assert (0 ≤ foldr (λ t n, (tree_size t + n)%Z) 0%Z ts)%Z as Hrest by exact (tree_size_nonneg (DirT 0 EmptyString ts) Hok2).
  rewrite (IH c t Hc Hok1) by lia. simpl. rewrite checked_ok by (unfold int_ok, INT_MIN, INT_MAX in *; lia). simpl. rewrite IHts by (done || lia). f_equal. lia.
Qed.

Lemma ls_spec fuel h a t indent : unfold_tree fuel h a = Some t → ls fuel h indent a = Some (tree_ls indent t).
Proof.
  revert a t indent. induction fuel as [|fuel IH]; intros a t indent Ht; [done|].
  destruct (h !! a) as [[n s|n cs]|] eqn:Ha; [by simpl in *; rewrite Ha in *; simplify_eq/=; rewrite !string_app_assoc| |simpl in Ht; by rewrite Ha in Ht].
  destruct (unfold_dir _ _ _ _ _ _ Ha Ht) as (ts & -> & Hts). simpl. rewrite Ha. simpl.
  assert (each_child (ls fuel h (indent + 2)) cs = Some (ts ≫= tree_ls (indent + 2))) as ->; [|done].
  clear Ha Ht. induction Hts as [|c t cs ts Hc Hts IHts]; [done|]. simpl. rewrite (IH c t _ Hc). simpl. by rewrite IHts.
Qed.

Definition first_named (name : string) (l : list (nat * string)) : option nat := fst <$> head (filter (λ x, x.2 = name) l).

Lemma first_named_app name l1 l2 :
  first_named name (l1 ++ l2) = match first_named name l1 with Some a => Some a | None => first_named name l2 end.
Proof. unfold first_named. rewrite filter_app. by destruct (filter _ l1). Qed.

Lemma find_spec fuel h a t name : unfold_tree fuel h a = Some t → find fuel h a name = Some (first_named name (preorder t)).
Proof.
  revert a t. induction fuel as [|fuel IH]; intros a t Ht; [done|].
  destruct (h !! a) as [[n s|n cs]|] eqn:Ha; [| |simpl in Ht; by rewrite Ha in Ht].
  - simpl in *. rewrite Ha in *. simplify_eq/=. unfold first_named. rewrite filter_cons. simpl. by case_decide.
  - destruct (unfold_dir _ _ _ _ _ _ Ha Ht) as (ts & -> & Hts). simpl. rewrite Ha. simpl. unfold first_named. rewrite filter_cons. simpl. case_decide; [done|].
    change (find_child (λ c, find fuel h c name) cs = Some (first_named name (ts ≫= preorder))).
    clear Ha Ht. induction Hts as [|c t cs ts Hc Hts IHts]; [done|]. simpl. rewrite (IH c t Hc). simpl. csimpl. rewrite first_named_app. by destruct (first_named name (preorder t)).
Qed.

(** *** Removing *)

Section remove.
Context (name : string).

Definition named (h : gmap nat Node) (c : nat) : Prop := getName <$> h !! c = Some name.

#[local] Instance named_dec h c : Decision (named h c).
Proof. unfold named. apply _. Defined.

(** The directories of [D] without their children called [name]. *)
Definition trim_node (h : gmap nat Node) (D : gset nat) (b : nat) (x : Node) : Node :=
  match x with
  | Directory d cs => if decide (b ∈ D) then Directory d (filter (λ c, ¬ named h c) cs) else x
  | File _ _ => x
  end.

Definition trim (D : gset nat) (h : gmap nat Node) : gmap nat Node := map_imap (λ b x, Some (trim_node h D b x)) h.

Lemma trim_lookup D h b : trim D h !! b = trim_node h D b <$> h !! b.
Proof. unfold trim. rewrite map_lookup_imap. by destruct (h !! b). Qed.

Lemma trim_named D h c : named (trim D h) c ↔ named h c.
Proof.
  unfold named. rewrite trim_lookup. destruct (h !! c) as [[n s|n cs]|]; simpl; [done| |done]. by destruct (decide (c ∈ D)).
Qed.

Lemma trim_trim D1 D2 h : trim D1 (trim D2 h) = trim (D1 ∪ D2) h.
Proof.
  apply map_eq. intros b. rewrite !trim_lookup. destruct (h !! b) as [[n s|n cs]|]; simpl; [done| |done]. f_equal.
  assert (∀ l : list nat, filter (λ c, ¬ named (trim D2 h) c) l = filter (λ c, ¬ named h c) l) as Hf.
  { intros l. apply list_filter_iff. intros c. by rewrite trim_named. }
  destruct (decide (b ∈ D2)) as [H2|H2]; simpl; destruct (decide (b ∈ D1)) as [H1|H1].
  - rewrite Hf, list_filter_filter. rewrite (decide_True (P := b ∈ D1 ∪ D2)) by (apply elem_of_union; by left). f_equal. apply list_filter_iff. tauto.
  - by rewrite (decide_True (P := b ∈ D1 ∪ D2)) by (apply elem_of_union; by right).
  - rewrite Hf. by rewrite (decide_True (P := b ∈ D1 ∪ D2)) by (apply elem_of_union; by left).
  - by rewrite (decide_False (P := b ∈ D1 ∪ D2)) by (intros [?|?]%elem_of_union; done).
Qed.

Lemma trim_empty h : trim ∅ h = h.
Proof.
  apply map_eq. intros b. rewrite trim_lookup. destruct (h !! b) as [[n s|n cs]|]; simpl; [done| |done]. by rewrite decide_False by (apply not_elem_of_empty).
Qed.

(** The directories of a tree, and all its addresses. *)
Fixpoint dirs (t : Tree) : gset nat :=
  match t with FileT _ _ _ => ∅ | DirT a _ ts => {[a]} ∪ foldr (λ t D, dirs t ∪ D) ∅ ts end.

Fixpoint addrs (t : Tree) : gset nat :=
  match t with FileT a _ _ => {[a]} | DirT a _ ts => {[a]} ∪ foldr (λ t D, addrs t ∪ D) ∅ ts end.

Definition all_dirs (ts : list Tree) : gset nat := foldr (λ t D, dirs t ∪ D) ∅ ts.
Definition all_addrs (ts : list Tree) : gset nat := foldr (λ t D, addrs t ∪ D) ∅ ts.
Definition pruned (ts : list Tree) : list Tree := ts ≫= λ t, if decide (tname t = name) then [] else [prune name t].

Lemma elem_of_all_addrs ts b : b ∈ all_addrs ts ↔ ∃ t, t ∈ ts ∧ b ∈ addrs t.
Proof.
  induction ts as [|t ts IH]; simpl.
  - split; [by intros []%not_elem_of_empty|by intros (t & []%not_elem_of_nil & _)].
  - rewrite elem_of_union, IH. split.
    + intros [H|(t' & H1 & H2)]; [exists t; split; [by left|done]|exists t'; split; [by right|done]].
    + intros (t' & [->|H1]%elem_of_cons & H2); [by left|right; eauto].
Qed.

Lemma dirs_addrs t : dirs t ⊆ addrs t.
Proof.
  revert t. fix IH 1. intros [a n s|a n ts]; simpl; [apply empty_subseteq|]. apply union_mono_l. induction ts as [|t ts IHts]; simpl; [done|]. apply union_mono; [apply IH|apply IHts].
Qed.

Lemma addrs_prune t : addrs (prune name t) ⊆ addrs t.
Proof.
  revert t. fix IH 1. intros [a n s|a n ts]; simpl; [done|]. apply union_mono_l. induction ts as [|t ts IHts]; csimpl; [done|].
  destruct (decide (tname t = name)); simpl; [by apply union_subseteq_r'|]. apply union_mono; [apply IH|apply IHts].
Qed.

(** A node below another one has a smaller tree: no node is below itself. *)
Fixpoint weight (t : Tree) : nat := match t with FileT _ _ _ => 1 | DirT _ _ ts => S (foldr (λ t n, weight t + n) 0 ts) end.

Lemma weight_child t ts : t ∈ ts → weight t ≤ foldr (λ t n, weight t + n) 0 ts.
Proof. induction ts as [|t' ts IH]; [by intros []%not_elem_of_nil|]. intros [->|H]%elem_of_cons; simpl; [lia|]. specialize (IH H). lia. Qed.

Lemma unfold_below f h a t b : unfold_tree f h a = Some t → b ∈ addrs t → ∃ f' tb, unfold_tree f' h b = Some tb ∧ weight tb ≤ weight t.
Proof.
  revert a t. induction f as [|f IH]; intros a t Ht Hb; [done|].
  destruct (h !! a) as [[n s|n cs]|] eqn:Ha; [| |simpl in Ht; by rewrite Ha in Ht].
  - pose proof Ht as Ht'. simpl in Ht. rewrite Ha in Ht. simplify_eq/=. apply elem_of_singleton in Hb as ->. by exists (S f), (FileT a n s).
  - destruct (unfold_dir _ _ _ _ _ _ Ha Ht) as (ts & -> & Hts). simpl in Hb. apply elem_of_union in Hb as [->%elem_of_singleton|Hb]; [by exists (S f), (DirT a n ts)|].
    change (b ∈ all_addrs ts) in Hb. apply elem_of_all_addrs in Hb as (t & Hin & Hb). apply list_elem_of_lookup in Hin as (i & Hi).
    destruct (Forall2_lookup_r _ _ _ _ _ Hts Hi) as (c & _ & Hc). destruct (IH c t Hc Hb) as (f' & tb & H1 & H2). exists f', tb. split; [done|].
    pose proof (weight_child t ts ltac:(by eapply list_elem_of_lookup_2)). simpl. lia.
Qed.

Lemma not_below_itself f h a n ts t : unfold_tree f h a = Some (DirT a n ts) → t ∈ ts → (∃ f' c, unfold_tree f' h c = Some t) → a ∉ addrs t.
Proof.
  intros Ha Hin (f' & c & Hc) Hbelow. destruct (unfold_below _ _ _ _ _ Hc Hbelow) as (f2 & ta & H1 & H2). pose proof (unfold_det _ _ _ _ _ _ H1 Ha) as ->.
  pose proof (weight_child t ts Hin). simpl in H2. lia.
Qed.

Lemma unfold_insert f h c t a x : unfold_tree f h c = Some t → a ∉ addrs t → unfold_tree f (<[a := x]> h) c = Some t.
Proof.
  revert c t. induction f as [|f IH]; intros c t Hc Ha; [done|]. destruct (unfold_addr _ _ _ _ Hc) as [Hta _].
  assert (a ≠ c) as Hne. { intros ->. apply Ha. rewrite <-Hta. destruct t; simpl; [by apply elem_of_singleton|apply elem_of_union; left; by apply elem_of_singleton]. }
  destruct (h !! c) as [[n s|n cs]|] eqn:Hh; [simpl in *; rewrite lookup_insert_ne by done; by rewrite Hh in *| |simpl in Hc; by rewrite Hh in Hc].
  destruct (unfold_dir _ _ _ _ _ _ Hh Hc) as (ts & -> & Hts). apply (unfold_dir_2 _ _ _ _ cs); [by rewrite lookup_insert_ne|].
  apply Forall2_same_length_lookup. split; [by eapply Forall2_length|]. intros i c' t' Hc' Ht'.
  apply IH; [exact (Forall2_lookup_lr _ _ _ _ _ _ Hts Hc' Ht')|]. intros Hin. apply Ha. simpl. apply elem_of_union. right. change (a ∈ all_addrs ts). apply elem_of_all_addrs. exists t'. split; [by eapply list_elem_of_lookup_2|done].
Qed.

(** Trimming any directories leaves a tree that is pruned to the same one. *)
Lemma unfold_trim f D h b tb :
  unfold_tree f h b = Some tb →
  ∃ tb', unfold_tree f (trim D h) b = Some tb' ∧ prune name tb' = prune name tb ∧ tname tb' = tname tb ∧ addrs tb' ⊆ addrs tb.
Proof.
  revert b tb. induction f as [|f IH]; intros b tb Hb; [done|].
  destruct (h !! b) as [[n s|n cs]|] eqn:Hh; [| |simpl in Hb; by rewrite Hh in Hb].
  - exists tb. split; [|done]. simpl in *. rewrite trim_lookup, Hh in *. done.
  - destruct (unfold_dir _ _ _ _ _ _ Hh Hb) as (ts & -> & Hts).
    assert (∀ P `{∀ c, Decision (P c)}, (∀ c, ¬ P c → named h c) →
      ∃ ts', Forall2 (λ c t, unfold_tree f (trim D h) c = Some t) (filter P cs) ts' ∧ pruned ts' = pruned ts ∧ all_addrs ts' ⊆ all_addrs ts) as Hfil.
    { intros P HP Hnm. clear Hh Hb. induction Hts as [|c t cs ts Hc Hts (ts' & H1 & H2 & H3)]; [by exists []|]. destruct (IH c t Hc) as (t' & Ht' & Hp & Hn & Ha).
      rewrite filter_cons. case_decide as Hd.
      - exists (t' :: ts'). split; [by constructor|]. split; [unfold pruned in *; csimpl; by rewrite Hn, Hp, H2|]. by apply union_mono.
      - exists ts'. split; [done|]. split; [|simpl; by apply union_subseteq_r']. rewrite H2. unfold pruned. csimpl.
        destruct (unfold_addr _ _ _ _ Hc) as (_ & x & Hx & Hxn). specialize (Hnm c Hd). unfold named in Hnm. rewrite Hx in Hnm. injection Hnm as Hnm. by rewrite decide_True by congruence. }
    assert (∀ cs', trim D h !! b = Some (Directory n cs') → (∃ ts', Forall2 (λ c t, unfold_tree f (trim D h) c = Some t) cs' ts' ∧ pruned ts' = pruned ts ∧ all_addrs ts' ⊆ all_addrs ts) →
      ∃ tb', unfold_tree (S f) (trim D h) b = Some tb' ∧ prune name tb' = prune name (DirT b n ts) ∧ tname tb' = n ∧ addrs tb' ⊆ addrs (DirT b n ts)) as Hend.
    { intros cs' Hl (ts' & H1 & H2 & H3). exists (DirT b n ts'). split; [by apply (unfold_dir_2 _ _ _ _ cs')|]. split; [simpl; unfold pruned in H2; by rewrite H2|]. split; [done|].
      simpl. by apply union_mono_l. }
    destruct (decide (b ∈ D)) as [Hin|Hin].
    + apply (Hend (filter (λ c, ¬ named h c) cs)); [rewrite trim_lookup, Hh; simpl; by rewrite decide_True|]. apply Hfil. intros c Hc. by apply dec_stable.
    + apply (Hend (filter (λ c, True) cs)); [rewrite trim_lookup, Hh, filter_all by (by apply Forall_true); simpl; by rewrite decide_False|]. by apply Hfil.
Qed.

Lemma trim_insert D a x y h : h !! a = Some y → getName x = getName y → a ∉ D → trim D (<[a := x]> h) = <[a := x]> (trim D h).
Proof.
  intros Hy Hxy Ha. apply map_eq. intros b. rewrite trim_lookup. destruct (decide (a = b)) as [<-|Hne].
  - rewrite !lookup_insert_eq. simpl. f_equal. destruct x; simpl; [done|by rewrite decide_False].
  - rewrite !lookup_insert_ne by done. rewrite trim_lookup. destruct (h !! b) as [[n s|n cs]|]; simpl; [done| |done]. destruct (decide (b ∈ D)); [|done]. do 2 f_equal.
    apply list_filter_iff. intros c. unfold named. destruct (decide (a = c)) as [<-|]; [rewrite lookup_insert_eq, Hy; simpl; by rewrite Hxy|by rewrite lookup_insert_ne].
Qed.

Lemma trim_self D a d cs h : h !! a = Some (Directory d cs) → <[a := Directory d (filter (λ c, ¬ named h c) cs)]> (trim D h) = trim ({[a]} ∪ D) h.
Proof.
  intros Ha. apply map_eq. intros b. rewrite trim_lookup. destruct (decide (a = b)) as [<-|Hne].
  - rewrite lookup_insert_eq, Ha. simpl. rewrite decide_True; [done|]. apply elem_of_union. left. by apply elem_of_singleton.
  - rewrite lookup_insert_ne by done. rewrite trim_lookup. destruct (h !! b) as [[n s|n cs']|]; simpl; [done| |done].
    destruct (decide (b ∈ D)) as [H|H]; [by rewrite decide_True by (apply elem_of_union; by right)|].
    rewrite decide_False; [done|]. intros [?%elem_of_singleton|?]%elem_of_union; congruence.
Qed.

(** The loop over the children [todo], when [kept] are what is left of those before. *)
Lemma remove_loop_spec fuel h a d cs :
  (∀ h c t, unfold_tree fuel h c = Some t → remove fuel h c name = Some (trim (dirs (prune name t)) h)) →
  h !! a = Some (Directory d cs) →
  ∀ todo ts kept D k, Forall2 (λ c t, unfold_tree fuel h c = Some t) todo ts → Forall (λ t, a ∉ addrs t) ts → a ∉ D → length todo ≤ k →
  remove_loop (λ h c, remove fuel h c name) name a k (length kept) (<[a := Directory d (kept ++ todo)]> (trim D h)) =
  Some (<[a := Directory d (kept ++ filter (λ c, ¬ named h c) todo)]> (trim (all_dirs (pruned ts) ∪ D) h)).
Proof.
  intros Hrec Ha todo ts kept D k Hts Hna. revert kept D k. induction Hts as [|c t todo ts Hc Hts IH]; intros kept D k HaD Hk.
  - assert (∀ k, remove_loop (λ h c, remove fuel h c name) name a k (length kept) (<[a := Directory d (kept ++ [])]> (trim D h)) = Some (<[a := Directory d (kept ++ [])]> (trim D h))) as ->.
    { intros k'. destruct k'; simpl; rewrite lookup_insert_eq; simpl; by rewrite lookup_ge_None_2 by (rewrite app_nil_r; lia). }
    simpl. by rewrite (left_id_L ∅ (∪)).
  - apply Forall_cons in Hna as [Hat Hna]. destruct k as [|k]; [simpl in Hk; lia|]. simpl. rewrite lookup_insert_eq. simpl. rewrite list_lookup_middle by done.
    destruct (unfold_addr _ _ _ _ Hc) as (Hta & x & Hx & Hxn).
    assert (a ≠ c) as Hne. { intros ->. apply Hat. rewrite <-Hta. destruct t; simpl; [by apply elem_of_singleton|apply elem_of_union; left; by apply elem_of_singleton]. }
    rewrite lookup_insert_ne, trim_lookup, Hx by done. cbn [fmap option_fmap option_map mbind option_bind].
    assert (getName (trim_node h D c x) = getName x) as -> by (destruct x; simpl; [done|by destruct (decide (c ∈ D))]).
    rewrite filter_cons. unfold pruned. csimpl. rewrite Hxn. destruct (decide (getName x = name)) as [Hn|Hn].
    + rewrite (decide_False (P := ¬ named h c)) by (intros H; apply H; unfold named; rewrite Hx; simpl; by rewrite Hn).
      rewrite insert_insert_eq, delete_middle.
      rewrite IH by (done || simpl in Hk; lia). done.
    + rewrite (decide_True (P := ¬ named h c)) by (unfold named; rewrite Hx; simpl; congruence).
      destruct (unfold_trim _ D _ _ _ Hc) as (t' & Ht' & Hp & _ & Hsub).
      rewrite (Hrec _ c t') by (apply unfold_insert; [done|set_solver]). cbn [mbind option_bind]. rewrite Hp.
      assert (a ∉ dirs (prune name t)) as Had by (intros H; apply Hat, addrs_prune, dirs_addrs, H).
      rewrite (trim_insert _ a _ (Directory d cs)); [|by rewrite trim_lookup, Ha; simpl; rewrite decide_False|done|done]. rewrite trim_trim.
      specialize (IH Hna (kept ++ [c]) (dirs (prune name t) ∪ D) k). rewrite length_app, Nat.add_1_r, <-!(assoc_L (++)) in IH. simpl in IH. rewrite IH; [|set_solver|simpl in Hk; lia].
      do 3 f_equal. simpl. unfold pruned. set_solver.
Qed.

Lemma remove_spec fuel h a t : unfold_tree fuel h a = Some t → remove fuel h a name = Some (trim (dirs (prune name t)) h).
Proof.
  revert h a t. induction fuel as [|fuel IH]; intros h a t Ht; [done|].
  destruct (h !! a) as [[n s|n cs]|] eqn:Ha; [| |simpl in Ht; by rewrite Ha in Ht].
  - simpl in *. rewrite Ha in *. simplify_eq/=. by rewrite trim_empty.
  - destruct (unfold_dir _ _ _ _ _ _ Ha Ht) as (ts & -> & Hts). simpl. rewrite Ha. simpl.
    pose proof (remove_loop_spec fuel h a n cs IH Ha cs ts [] ∅ (length cs) Hts) as H. simpl in H. rewrite trim_empty, insert_id in H by done. rewrite H; [|..|done].
    + rewrite (right_id_L ∅ (∪)). by rewrite trim_self.
    + apply Forall_forall. intros t Hin. apply (not_below_itself _ _ _ _ _ _ Ht Hin). apply list_elem_of_lookup in Hin as (i & Hi). destruct (Forall2_lookup_r _ _ _ _ _ Hts Hi) as (c & _ & Hc). by exists fuel, c.
    + apply not_elem_of_empty.
Qed.

Lemma unfold_pruned f D h a t : unfold_tree f h a = Some t → dirs (prune name t) ⊆ D → unfold_tree f (trim D h) a = Some (prune name t).
Proof.
  revert a t. induction f as [|f IH]; intros a t Ht HD; [done|].
  destruct (h !! a) as [[n s|n cs]|] eqn:Ha; [| |simpl in Ht; by rewrite Ha in Ht].
  - simpl in *. rewrite trim_lookup, Ha in *. by simplify_eq/=.
  - destruct (unfold_dir _ _ _ _ _ _ Ha Ht) as (ts & -> & Hts). simpl in HD. apply union_subseteq in HD as [Hin HD]. apply singleton_subseteq_l in Hin.
    apply (unfold_dir_2 _ _ _ _ (filter (λ c, ¬ named h c) cs)); [rewrite trim_lookup, Ha; simpl; by rewrite decide_True|].
    clear Ha Ht. revert HD. induction Hts as [|c t cs ts Hc Hts IHts]; [constructor|]. csimpl. destruct (unfold_addr _ _ _ _ Hc) as (_ & x & Hx & Hxn).
    rewrite filter_cons, Hxn. destruct (decide (getName x = name)) as [Hn|Hn].
    + intros HD. rewrite decide_False by (intros H; apply H; unfold named; rewrite Hx; simpl; by rewrite Hn). by apply IHts.
    + intros HD. simpl in HD. apply union_subseteq in HD as [HD1 HD2]. rewrite decide_True by (unfold named; rewrite Hx; simpl; congruence). simpl. constructor; [by apply IH|by apply IHts].
Qed.
End remove.

(** Nothing below a pruned tree has the name. *)
Lemma prune_clean name t b : (b, name) ∈ tail (preorder (prune name t)) → False.
Proof.
  revert t. fix IH 1. intros [a n s|a n ts]; simpl; [by intros []%not_elem_of_nil|]. induction ts as [|t ts IHts]; csimpl; [by intros []%not_elem_of_nil|].
  destruct (decide (tname t = name)) as [E|E]; [exact IHts|]. csimpl. intros [Hin|Hin]%elem_of_app; [|exact (IHts Hin)].
  specialize (IH t). destruct t as [a' n' s'|a' n' ts']; simpl in *; [by apply list_elem_of_singleton in Hin as [= ? ?]|].
  apply elem_of_cons in Hin as [[= -> ->]|Hin]; [done|exact (IH Hin)].
Qed.

(** [add] extends the tree of a directory, if the child does not contain the directory. *)
Lemma add_spec f h a n ts c tc h' :
  unfold_tree (S f) h a = Some (DirT a n ts) → unfold_tree f h c = Some tc → a ∉ addrs tc → add h a c = Some (inl h') →
  unfold_tree (S f) h' a = Some (DirT a n (ts ++ [tc])).
Proof.
  intros Ht Hc Ha Hadd. unfold add in Hadd. destruct (h !! a) as [[n' s|n' cs]|] eqn:Hh; simplify_eq/=. destruct (unfold_dir _ _ _ _ _ _ Hh Ht) as (ts' & [= <- <-] & Hts).
  apply (unfold_dir_2 _ _ _ _ (cs ++ [c])); [by rewrite lookup_insert_eq|]. apply Forall2_app; [|constructor; [by apply unfold_insert|constructor]].
  apply Forall2_same_length_lookup. split; [by eapply Forall2_length|]. intros i c' t' Hc' Ht'. pose proof (Forall2_lookup_lr _ _ _ _ _ _ Hts Hc' Ht') as Hu.
  apply unfold_insert; [exact Hu|]. apply (not_below_itself (S f) h a n ts t' Ht); [by eapply list_elem_of_lookup_2|by exists f, c'].
Qed.

(** C37: the composite file system refines trees.  Below a node whose pointers form a finite
    tree (children may be shared), every function terminates within the height of the tree:
    [size] is the sum of the file sizes while it fits an [int], [ls] prints the tree, [find]
    returns the first node of that name in preorder or null, and [remove] leaves exactly the
    tree without the subtrees of that name, in which nothing but the node itself can have
    the name; the trees of other nodes lose nothing but subtrees of that name. *)
Theorem composite_refines_tree fuel h a t name :
  unfold_tree fuel h a = Some t →
  (sizes_ok t → (tree_size t ≤ INT_MAX)%Z → node_size fuel h a = Some (tree_size t)) ∧
  (∀ indent, ls fuel h indent a = Some (tree_ls indent t)) ∧
  find fuel h a name = Some (first_named name (preorder t)) ∧
  ∃ h', remove fuel h a name = Some h' ∧ unfold_tree fuel h' a = Some (prune name t) ∧
    (∀ b, (b, name) ∉ tail (preorder (prune name t))) ∧
    (∀ f b tb, unfold_tree f h b = Some tb → ∃ tb', unfold_tree f h' b = Some tb' ∧ prune name tb' = prune name tb).
Proof.
  intros Ht. split; [by apply node_size_spec|]. split; [intros indent; by apply ls_spec|]. split; [by apply find_spec|].
  exists (trim name (dirs (prune name t)) h). split; [by apply remove_spec|]. split; [by apply unfold_pruned|]. split; [intros b Hb; exact (prune_clean _ _ _ Hb)|].
  intros f b tb Hb. destruct (unfold_trim name f (dirs (prune name t)) h b tb Hb) as (tb' & H1 & H2 & _). by exists tb'.
Qed.

(** The file system of [main]: [docs] with two files, [images] with one, under the root. *)
Definition main_heap : gmap nat Node :=
  {[0 := Directory "/" [1; 2]; 1 := Directory "docs" [3; 4]; 2 := Directory "images" [5]; 3 := File "a.txt" 100; 4 := File "b.txt" 200; 5 := File "pic.jpg" 500]}%string.

Lemma composite_refines_tree_witness :
  ∃ t h', unfold_tree 3 main_heap 0 = Some t ∧ node_size 3 main_heap 0 = Some 800%Z ∧ remove 3 main_heap 0 "b.txt" = Some h' ∧
    unfold_tree 3 h' 0 = Some (prune "b.txt" t) ∧ node_size 3 h' 0 = Some 600%Z.
Proof.
  destruct (unfold_tree 3 main_heap 0) as [t|] eqn:Ht; [|discriminate].
  destruct (composite_refines_tree 3 main_heap 0 t "b.txt" Ht) as (Hs & _ & _ & h' & Hr & Hp & _ & _).
  exists t, h'. vm_compute in Ht. injection Ht as <-. split; [reflexivity|]. split; [apply Hs; [vm_compute; intuition congruence|vm_compute; congruence]|].
  split; [exact Hr|]. split; [exact Hp|]. vm_compute in Hr. injection Hr as <-. vm_compute. reflexivity.
Defined.

(** ** The components of a user interface *)

Module UI.

Inductive Component := Leaf (id : string) | Container (id : string) (children : list nat).

Definition component_id (c : Component) : string := match c with Leaf id | Container id _ => id end.

Definition add (h : gmap nat Component) (a child : nat) : option (gmap nat Component + string) :=
  n ← h !! a;
  match n with
  | Container id cs => Some (inl (<[a := Container id (cs ++ [child])]> h))
  | Leaf _ => Some (inr "cannot add Child to a leaf"%string)
  end.

Fixpoint show (fuel : nat) (h : gmap nat Component) (indent a : nat) : option (list string) :=
  match fuel with
  | O => None
  | S fuel =>
      n ← h !! a;
      let line := blanks indent +:+ "|-" +:+ component_id n in
      match n with Leaf _ => Some [line] | Container _ cs => ls ← each_child (show fuel h (indent + 2)) cs; Some (line :: ls) end
  end.

(** [Activity::getInstance]: the one activity is made by the first call, with its name. *)
Definition getInstance (instance : option string) (id : string) : option string * string :=
  let made := default id instance in (Some made, made).

(** The same shape as files and directories. *)
Definition as_node (c : Component) : Node := match c with Leaf id => File id 0 | Container id cs => Directory id cs end.

Fixpoint tree_show (indent : nat) (t : Tree) : list string :=
  match t with
  | FileT _ n _ => [blanks indent +:+ "|-" +:+ n]
  | DirT _ n ts => (blanks indent +:+ "|-" +:+ n) :: (ts ≫= tree_show (indent + 2))
  end.

(** [show] prints the tree of components, each indented by its depth. *)
Theorem show_spec fuel h a t indent : unfold_tree fuel (as_node <$> h) a = Some t → show fuel h indent a = Some (tree_show indent t).
Proof.
  revert a t indent. induction fuel as [|fuel IH]; intros a t indent Ht; [done|]. destruct (h !! a) as [[n|n cs]|] eqn:Ha.
  - simpl in *. rewrite lookup_fmap, Ha in *. by simplify_eq/=.
  - destruct (unfold_dir fuel (as_node <$> h) a n cs t) as (ts & -> & Hts); [by rewrite lookup_fmap, Ha|done|]. simpl. rewrite Ha. simpl.
    assert (each_child (show fuel h (indent + 2)) cs = Some (ts ≫= tree_show (indent + 2))) as ->; [|done].
    clear Ha Ht. induction Hts as [|c t cs ts Hc Hts IHts]; [done|]. simpl. rewrite (IH c t _ Hc). simpl. by rewrite IHts.
  - simpl in Ht. by rewrite lookup_fmap, Ha in Ht.
Qed.

(** Later calls of [getInstance] do not rename the activity. *)
Lemma getInstance_once ids id : (fold_left (λ s i, (getInstance s i).1) ids (getInstance None id).1) = Some id.
Proof. simpl. induction ids as [|i ids IH]; [done|]. exact IH. Qed.
End UI.
