(* ===== verification/QueryPipeline.v ===== *)
(** * The pipeline of query stages

    [src/multi-stage-pipeline/DB_query_execution_pipeline.cpp]: clients push queries into a
    blocking queue; parsers, optimizers and executors each take from one queue and push into
    the next.  A stage is a pool of worker threads ([Workers]) over its queue: [pop] is the
    critical section at the top of the loop, and what a worker hands on is a call from
    outside for the next stage, made in one step with the end of its own.  The engine is the
    composition of three such pools, and its theorems follow from those of the pools, each
    of which runs as if it were alone.

    Nothing in the program clears [running]: the threads never return. *)
From S2P Require Import Prelude Workers.
Local Open Scope nat_scope.

(** ** One stage *)

Section stage.
Context {A B : Type} (f : A → B) (d : A).

(** A worker prints what it is about to do, works, and hands the result on. *)
Inductive Doing := Announcing (x : A) | Handing (x : A).
Inductive Event := Started (x : A) | Handed (y : B).

Definition stage_step (k : Doing) (sh : ()) : Outcome A Doing () Event :=
  match k with
  | Announcing x => {| goes_on := Some (Handing x); leaves := sh; pushes := []; emits := [Started x]; signal := Each |}
  | Handing x => {| goes_on := None; leaves := sh; pushes := []; emits := [Handed (f x)]; signal := Each |}
  end.

(** [BlockingQueue::push]. *)
Definition stage_push (x : A) (sh : ()) : () * list A * Signal := (sh, [x], Each).

Definition stage : Program A Doing () Event A :=
  {| batch := 1; start := λ ts sh, (Announcing (hd d ts), sh); step := stage_step; call := stage_push; stoppable := false |}.

Definition handed (out : list Event) : list B := out ≫= λ e, match e with Handed y => [y] | Started _ => [] end.
Definition started (out : list Event) : list A := out ≫= λ e, match e with Started x => [x] | Handed _ => [] end.

Definition working (h : option Doing) : list A := match h with Some (Announcing x) | Some (Handing x) => [x] | None => [] end.
Definition silent (h : option Doing) : list A := match h with Some (Announcing x) => [x] | _ => [] end.

Record stage_inv (st : bool) (sh : ()) (cs es ts : list A) (hs : list (option Doing)) (out : list Event) : Prop := {
  stage_entered : es = cs;
  stage_running : st = false;
  stage_started : started out ++ (hs ≫= silent) ≡ₚ ts;
  stage_handed : handed out ++ (f <$> (hs ≫= working)) ≡ₚ f <$> ts
}.

#[global] Instance stage_invariant : Invariant stage stage_inv.
Proof.
  split.
  - simpl. lia.
  - intros st [] cs ts q hs out t k [] Hq [E Hst Hs Hd] Hh Es. destruct q as [|x q]; [done|]. simpl in *. simplify_eq. rewrite take_0. split; [done|done| |].
    + pose proof (bind_insert_perm silent hs t _ (Some (Announcing x)) Hh) as Ep. simpl in Ep. rewrite app_nil_r in Ep. rewrite Ep, (assoc_L (++)), Hs. done.
    + pose proof (bind_insert_perm working hs t _ (Some (Announcing x)) Hh) as Ep. simpl in Ep. rewrite app_nil_r in Ep. rewrite Ep, !fmap_app, (assoc_L (++)), Hd. done.
  - intros st [] cs es ts hs out t k o Hpre [E Hst Hs Hd] Hh. subst o. pose proof (λ y, bind_insert_perm silent hs t _ y Hh) as Es.
    pose proof (λ y, bind_insert_perm working hs t _ y Hh) as Ew. destruct k as [x|x]; simpl; rewrite app_nil_r; (split; [done|by rewrite Hst| |]).
    + specialize (Es (Some (Handing x))). simpl in Es. rewrite app_nil_r in Es. unfold started. rewrite bind_app. simpl. rewrite <-(assoc_L (++)), (Permutation_app_comm [x]), Es. exact Hs.
    + specialize (Ew (Some (Handing x))). simpl in Ew. apply Permutation_app_inv_r in Ew. unfold handed. rewrite bind_app. simpl. rewrite app_nil_r, Ew. exact Hd.
    + specialize (Es None). simpl in Es. rewrite !app_nil_r in Es. unfold started. rewrite bind_app. simpl. rewrite app_nil_r, Es. exact Hs.
    + specialize (Ew None). simpl in Ew. rewrite app_nil_r in Ew. unfold handed. rewrite bind_app. simpl. rewrite <-(assoc_L (++)), (Permutation_app_comm [f x]). change [f x] with (f <$> [x]).
      rewrite <-fmap_app, Ew. exact Hd.
  - intros [] cs es ts hs out x sh' ts' g [E Hst Hs Hd] Ec. unfold call, stage, stage_push in Ec. simplify_eq. by split.
  - done.
Qed.

Definition doing_weight (k : Doing) : nat := match k with Announcing _ => 2 | Handing _ => 1 end.

#[global] Instance stage_weighted : Weighted stage stage_inv (λ _, 2) doing_weight (λ _, 0).
Proof.
  split.
  - intros st sh cs ts q hs out k sh' Hq _ E. destruct q as [|x q]; [done|]. simpl in *. simplify_eq. simpl. lia.
  - intros st [] cs es ts hs out t k o Hi Hh. subst o. destruct k; simpl; lia.
Qed.

Lemma stage_start n : stage_inv false () [] [] [] (replicate n None) [].
Proof. split; [done|done|by rewrite held_none|by rewrite held_none]. Qed.

(** What a turn hands on. *)
Definition hands_on (p p' : Pool A Doing () Event A) : list B := handed (drop (length (output p)) (output p')).

Lemma hands_on_output p u p' : turn stage p u = Some p' → handed (output p') = handed (output p) ++ hands_on p p'.
Proof.
  intros Hu. assert (∃ more, output p' = output p ++ more) as [more E].
  { destruct u as [t|w| |c|]; simpl in Hu; [|case_decide; simplify_eq; exists []; by rewrite app_nil_r|case_decide; simplify_eq; exists []; by rewrite app_nil_r|destruct (stop p); simplify_eq; exists []; by rewrite app_nil_r|by destruct (stop p)].
    simplify_eq. unfold work. destruct (workers p !! t) as [[| |k|]|]; [|exists []; by rewrite app_nil_r| |exists []; by rewrite app_nil_r|exists []; by rewrite app_nil_r].
    - destruct (queue p); exists []; by rewrite app_nil_r.
    - by eexists. }
  unfold hands_on. rewrite E, drop_app_length. unfold handed. by rewrite bind_app.
Qed.

(** When nothing can move in a stage, everything pushed into it was handed on. *)
Lemma stage_quiescent n us p :
  0 < n → run stage (pool_make n () []) us = Some p → quiescent p → handed (output p) ≡ₚ f <$> called p ∧ started (output p) ≡ₚ called p.
Proof.
  intros Hn Hr Hq. destruct (workers_end stage stage_inv n () [] us p Hn (stage_start n) Hr Hq) as [[E _ Hs Hd] _].
  rewrite held_none, app_nil_r in Hs by done. rewrite held_none in Hd by done. simpl in Hd. rewrite app_nil_r in Hd. by rewrite E in *.
Qed.

(** What a stage has handed on is part of what was pushed into it. *)
Lemma stage_sound n us p : run stage (pool_make n () []) us = Some p → ∃ rest, handed (output p) ++ rest ≡ₚ f <$> called p.
Proof.
  intros Hr. destruct (workers_run stage stage_inv n () [] us p (stage_start n) Hr) as ([Hf _ _ _ _] & [E _ _ Hd] & _).
  exists ((f <$> ((held <$> workers p) ≫= working)) ++ (f <$> queue p)). rewrite (assoc_L (++)), Hd, <-fmap_app. unfold holds in *. rewrite <-E, Hf. done.
Qed.
End stage.
Arguments Doing : clear implicits.
Arguments Event : clear implicits.

(** A stage alone: a pool that some sequence of turns has reached. *)
Definition reached {A B} (f : A → B) (d : A) (n : nat) (p : Pool A (Doing A) () (Event A B) A) : Prop :=
  ∃ us, run (stage f d) (pool_make n () []) us = Some p.

Lemma reached_turn {A B} (f : A → B) d n p u p' : reached f d n p → turn (stage f d) p u = Some p' → reached f d n p'.
Proof. intros [us Hus] Hu. exists (us ++ [u]). unfold run in *. rewrite run_ops_app, Hus. simpl. by rewrite Hu. Qed.

(** ** The engine *)

Record Query := { query_id : Z; sql : string }.
Record ParsedQuery := { parsed_id : Z; parse_tree : string }.
Record ExecutionPlan := { plan_id : Z; plan : string }.

Definition parserWorker (q : Query) : ParsedQuery := {| parsed_id := query_id q; parse_tree := "Parse Tree" |}.
Definition optimizerWorker (pq : ParsedQuery) : ExecutionPlan := {| plan_id := parsed_id pq; plan := "Index Scan" |}.
(** The executor prints that the query is completed. *)
Definition executorWorker (p : ExecutionPlan) : Z := plan_id p.

Definition no_query : Query := {| query_id := 0; sql := "" |}.
Definition no_parsed : ParsedQuery := parserWorker no_query.
Definition no_plan : ExecutionPlan := optimizerWorker no_parsed.

Definition Parsers : Type := Pool Query (Doing Query) () (Event Query ParsedQuery) Query.
Definition Optimizers : Type := Pool ParsedQuery (Doing ParsedQuery) () (Event ParsedQuery ExecutionPlan) ParsedQuery.
Definition Executors : Type := Pool ExecutionPlan (Doing ExecutionPlan) () (Event ExecutionPlan Z) ExecutionPlan.

Definition parsing := stage parserWorker no_query.
Definition optimizing := stage optimizerWorker no_parsed.
Definition executing := stage executorWorker no_plan.

(** A client is about to make a query, or has announced one and is about to push it. *)
Record Client := { client_id : Z; next_id : Z; announced : option Query }.

Record QueryEngine := { clients : list Client; parsers : Parsers; optimizers : Optimizers; executors : Executors }.

Definition QueryEngine_make (ids : list Z) (np no ne : nat) : option QueryEngine :=
  cs ← mapM (λ id, n ← checked (id * 100)%Z; Some {| client_id := id; next_id := n; announced := None |}) ids;
  Some {| clients := cs; parsers := pool_make np () []; optimizers := pool_make no () []; executors := pool_make ne () [] |}.

Inductive EngineTurn := ClientTurn (i : nat) | ParserTurn (u : Turn Query) | OptimizerTurn (u : Turn ParsedQuery) | ExecutorTurn (u : Turn ExecutionPlan).

(** [clientThread]. *)
Definition clientThread (c : Client) : option (Client * list Query) :=
  match announced c with
  | None =>
      n ← checked (next_id c + 1)%Z;
      Some ({| client_id := client_id c; next_id := n; announced := Some {| query_id := next_id c; sql := "SELECT * from Employee" |} |}, [])
  | Some q => Some ({| client_id := client_id c; next_id := next_id c; announced := None |}, [q])
  end.

Definition push_all {A B} (f : A → B) d (p : Pool A (Doing A) () (Event A B) A) (xs : list A) : Pool A (Doing A) () (Event A B) A :=
  fold_left (call_in (stage f d)) xs p.

Definition own {C} (u : Turn C) : bool := match u with CallIn _ | Shutdown => false | _ => true end.

Definition engine_turn (e : QueryEngine) (u : EngineTurn) : option QueryEngine :=
  match u with
  | ClientTurn i =>
      c ← clients e !! i; r ← clientThread c;
      Some {| clients := <[i := r.1]> (clients e); parsers := push_all parserWorker no_query (parsers e) r.2; optimizers := optimizers e; executors := executors e |}
  | ParserTurn u =>
      if own u then
        p ← turn parsing (parsers e) u;
        Some {| clients := clients e; parsers := p; optimizers := push_all optimizerWorker no_parsed (optimizers e) (hands_on (parsers e) p); executors := executors e |}
      else None
  | OptimizerTurn u =>
      if own u then
        p ← turn optimizing (optimizers e) u;
        Some {| clients := clients e; parsers := parsers e; optimizers := p; executors := push_all executorWorker no_plan (executors e) (hands_on (optimizers e) p) |}
      else None
  | ExecutorTurn u =>
      if own u then
        p ← turn executing (executors e) u;
        Some {| clients := clients e; parsers := parsers e; optimizers := optimizers e; executors := p |}
      else None
  end.

Definition submitted (e : QueryEngine) : list Query := called (parsers e).
Definition completed (e : QueryEngine) : list Z := handed (output (executors e)).

(** Nothing can move but the clients. *)
Definition idle (e : QueryEngine) : Prop := quiescent (parsers e) ∧ quiescent (optimizers e) ∧ quiescent (executors e).

(** A turn of a worker thread or a notification. *)
Definition worker_turn (e : QueryEngine) (u : EngineTurn) : bool :=
  match u with
  | ClientTurn _ => false
  | ParserTurn u => internal (parsers e) u
  | OptimizerTurn u => internal (optimizers e) u
  | ExecutorTurn u => internal (executors e) u
  end.

Definition worker_step (e e' : QueryEngine) : Prop := ∃ u, worker_turn e u = true ∧ engine_turn e u = Some e'.

(** *** Composition *)

Lemma reached_running {A B} (f : A → B) d n p : reached f d n p → stop p = false.
Proof. intros [us Hus]. destruct (workers_run (stage f d) (stage_inv f) n () [] us p (stage_start f n) Hus) as (_ & [_ H _ _] & _). exact H. Qed.

Lemma push_all_spec {A B} (f : A → B) d n p xs :
  reached f d n p →
  reached f d n (push_all f d p xs) ∧ called (push_all f d p xs) = called p ++ xs ∧ output (push_all f d p xs) = output p.
Proof.
  revert p. induction xs as [|x xs IH]; intros p Hp; simpl; [by rewrite app_nil_r|].
  assert (reached f d n (call_in (stage f d) p x)) as Hp'.
  { apply (reached_turn f d n p (CallIn x)); [done|]. simpl. by rewrite (reached_running _ _ _ _ Hp). }
  destruct (IH _ Hp') as (H1 & H2 & H3). split; [done|]. split; [|done]. unfold push_all in *. simpl. rewrite H2. simpl. by rewrite <-(assoc_L (++)).
Qed.

Lemma own_called {A B} (f : A → B) d p u p' : own u = true → turn (stage f d) p u = Some p' → called p' = called p.
Proof.
  intros Ho Hu. destruct u as [t|w| |c|]; simpl in *; try done; [|case_decide; by simplify_eq|case_decide; by simplify_eq].
  simplify_eq. unfold work. destruct (workers p !! t) as [[| |k|]|]; try done. by destruct (queue p).
Qed.

(** Every stage runs as if alone, and gets what the stage before hands on. *)
Record engine_ok (np no ne : nat) (e : QueryEngine) : Prop := {
  parsers_ok : reached parserWorker no_query np (parsers e);
  optimizers_ok : reached optimizerWorker no_parsed no (optimizers e);
  executors_ok : reached executorWorker no_plan ne (executors e);
  first_link : called (optimizers e) = handed (output (parsers e));
  second_link : called (executors e) = handed (output (optimizers e))
}.

Lemma engine_turn_ok np no ne e u e' : engine_ok np no ne e → engine_turn e u = Some e' → engine_ok np no ne e'.
Proof.
  intros [Hp Ho He L1 L2] Hu. destruct u as [i|u|u|u]; unfold engine_turn in Hu.
  - destruct (clients e !! i) as [c|]; [|done]. cbn [mbind option_bind] in Hu. destruct (clientThread c) as [[c' qs]|]; [|done]. cbn [mbind option_bind] in Hu. injection Hu as <-.
    destruct (push_all_spec _ _ _ _ qs Hp) as (H1 & H2 & H3). split; simpl; [done|done|done| |done]. by rewrite H3.
  - destruct (own u) eqn:Eo; [|done]. destruct (turn parsing (parsers e) u) as [p|] eqn:Et; [|done]. cbn [mbind option_bind] in Hu. injection Hu as <-.
    destruct (push_all_spec _ _ _ _ (hands_on (parsers e) p) Ho) as (H1 & H2 & H3). split; simpl; [by eapply reached_turn|done|done| |by rewrite H3].
    by rewrite H2, L1, (hands_on_output _ _ _ _ _ Et).
  - destruct (own u) eqn:Eo; [|done]. destruct (turn optimizing (optimizers e) u) as [p|] eqn:Et; [|done]. cbn [mbind option_bind] in Hu. injection Hu as <-.
    destruct (push_all_spec _ _ _ _ (hands_on (optimizers e) p) He) as (H1 & H2 & H3). split; simpl; [done|by eapply reached_turn|done| |].
    + by rewrite (own_called _ _ _ _ _ Eo Et).
    + by rewrite H2, L2, (hands_on_output _ _ _ _ _ Et).
  - destruct (own u) eqn:Eo; [|done]. destruct (turn executing (executors e) u) as [p|] eqn:Et; [|done]. cbn [mbind option_bind] in Hu. injection Hu as <-.
    split; simpl; [done|done|by eapply reached_turn|done|]. by rewrite (own_called _ _ _ _ _ Eo Et).
Qed.

Lemma engine_starts ids np no ne e : QueryEngine_make ids np no ne = Some e → engine_ok np no ne e.
Proof.
  unfold QueryEngine_make. destruct (mapM _ ids) as [cs|]; [|done]. cbn [mbind option_bind]. intros [= <-]. split; simpl; try done; by exists [].
Qed.

Lemma engine_reaches ids np no ne e us e' : QueryEngine_make ids np no ne = Some e → run_ops engine_turn e us = Some e' → engine_ok np no ne e'.
Proof. intros He Hr. eapply (run_ops_preserves engine_turn (engine_ok np no ne)); [|by eapply engine_starts|exact Hr]. intros s u s'. apply engine_turn_ok. Qed.

(** *** Termination *)

Definition cost {A B} (p : Pool A (Doing A) () (Event A B) A) : nat := potential (λ _, 2) (plain_weight doing_weight (λ _, 0)) p.

Lemma cost_decreases {A B} (f : A → B) d n p u p' : reached f d n p → internal p u = true → turn (stage f d) p u = Some p' → cost p' < cost p.
Proof.
  intros [us Hus] Hi Hu. destruct (workers_run (stage f d) (stage_inv f) n () [] us p (stage_start f n) Hus) as (Hpi & Hh & _).
  apply (workers_decrease (stage f d) (stage_inv f) (λ _, 2) (plain_weight doing_weight (λ _, 0)) p p' Hpi Hh). by exists u.
Qed.

(** What one push costs the next stage. *)
Definition push_cost (n : nat) : nat := 2 * (n + 5) + 2.

Lemma push_all_cost {A B} (f : A → B) d n p xs : reached f d n p → cost (push_all f d p xs) = cost p + length xs * push_cost n.
Proof.
  intros Hp. assert (length (workers p) = n) as Hl by (destruct Hp as [us Hus]; by apply (workers_run (stage f d) (stage_inv f) n () [] us p (stage_start f n) Hus)).
  clear Hp. revert p Hl. induction xs as [|x xs IH]; intros p Hl; [simpl; lia|]. unfold push_all in *. simpl. rewrite IH by (simpl; done).
  unfold cost, potential, load, push_cost. simpl. rewrite sum_list_with_app, Hl. simpl. lia.
Qed.

Lemma hands_on_one {A B} (f : A → B) d p u p' : turn (stage f d) p u = Some p' → length (hands_on p p') ≤ 1.
Proof.
  intros Hu. unfold hands_on. destruct u as [t|w| |c|]; simpl in Hu; [|case_decide; simplify_eq; simpl; rewrite drop_all; simpl; lia|case_decide; simplify_eq; simpl; rewrite drop_all; simpl; lia|destruct (stop p); simplify_eq; simpl; rewrite drop_all; simpl; lia|by destruct (stop p)].
  simplify_eq. unfold work. destruct (workers p !! t) as [[| |k|]|]; [destruct (queue p); simpl; rewrite drop_all; simpl; lia|simpl; rewrite drop_all; simpl; lia| |rewrite drop_all; simpl; lia..].
  simpl. rewrite drop_app_length. destruct k; simpl; lia.
Qed.

Definition engine_cost (no ne : nat) (e : QueryEngine) : nat :=
  cost (executors e) + S (push_cost ne) * cost (optimizers e) + S (S (push_cost ne) * push_cost no) * cost (parsers e).

Lemma engine_decreases np no ne e e' : engine_ok np no ne e → worker_step e e' → engine_cost no ne e' < engine_cost no ne e.
Proof.
  intros [Hp Ho He _ _] (u & Hw & Hu). destruct u as [i|u|u|u]; simpl in Hw; [done|..]; unfold engine_turn in Hu; (destruct (own u); [|done]).
  - destruct (turn parsing (parsers e) u) as [p|] eqn:Et; [|done]. cbn [mbind option_bind] in Hu. injection Hu as <-. pose proof (cost_decreases _ _ _ _ _ _ Hp Hw Et) as Hc.
    pose proof (hands_on_one _ _ _ _ _ Et) as H1. unfold engine_cost. simpl. rewrite (push_all_cost _ _ no) by done. nia.
  - destruct (turn optimizing (optimizers e) u) as [p|] eqn:Et; [|done]. cbn [mbind option_bind] in Hu. injection Hu as <-. pose proof (cost_decreases _ _ _ _ _ _ Ho Hw Et) as Hc.
    pose proof (hands_on_one _ _ _ _ _ Et) as H1. unfold engine_cost. simpl. rewrite (push_all_cost _ _ ne) by done. nia.
  - destruct (turn executing (executors e) u) as [p|] eqn:Et; [|done]. cbn [mbind option_bind] in Hu. injection Hu as <-. pose proof (cost_decreases _ _ _ _ _ _ He Hw Et) as Hc.
    unfold engine_cost. simpl. lia.
Qed.

Lemma engine_terminates np no ne e k e' : engine_ok np no ne e → nsteps worker_step k e e' → k ≤ engine_cost no ne e.
Proof.
  intros He. apply (nsteps_decreasing_inv (engine_ok np no ne)); [| |done].
  - intros x y Hx Hxy. by apply (engine_decreases np no ne).
  - intros x y Hx (u & _ & Hu). by eapply engine_turn_ok.
Qed.

(** *** The numbers of the queries *)

(** What a client has announced so far. *)
Definition made (c : Client) : list Z := seqZ (client_id c * 100) (next_id c - client_id c * 100).

Record clients_ok (ids : list Z) (e : QueryEngine) : Prop := {
  clients_ids : client_id <$> clients e = ids;
  clients_next : Forall (λ c, client_id c * 100 ≤ next_id c)%Z (clients e);
  clients_made : (query_id <$> submitted e) ++ (clients e ≫= λ c, option_list (query_id <$> announced c)) ≡ₚ clients e ≫= made
}.

Lemma perm_balance {A} (S Q W W' M M' O O' m m' : list A) :
  W' ++ O ≡ₚ W ++ O' → M' ++ m ≡ₚ M ++ m' → S ++ W ≡ₚ M → Q ++ O' ++ m ≡ₚ O ++ m' → (S ++ Q) ++ W' ≡ₚ M'.
Proof.
  intros E1 E2 E3 E4. apply (Permutation_app_inv_r (O ++ m)). trans ((S ++ Q) ++ (W' ++ O) ++ m); [solve_Permutation|]. rewrite E1.
  trans ((S ++ W) ++ (Q ++ O' ++ m)); [solve_Permutation|]. rewrite E3, E4. trans ((M ++ m') ++ O); [solve_Permutation|]. rewrite <-E2. solve_Permutation.
Qed.

Lemma clients_turn_ok np no ne ids e u e' : engine_ok np no ne e → clients_ok ids e → engine_turn e u = Some e' → clients_ok ids e'.
Proof.
  intros [Hp Ho He L1 L2] [H1 H2 H3] Hu. unfold submitted in *. destruct u as [i|u|u|u]; unfold engine_turn in Hu.
  2-4: destruct (own u) eqn:Eo; [|done].
  2: destruct (turn parsing (parsers e) u) as [p|] eqn:Et; [|done]; cbn [mbind option_bind] in Hu; injection Hu as <-; split; simpl; [done|done|]; unfold submitted; simpl; by rewrite (own_called _ _ _ _ _ Eo Et).
  2: destruct (turn optimizing (optimizers e) u) as [p|] eqn:Et; [|done]; cbn [mbind option_bind] in Hu; injection Hu as <-; by split.
  2: destruct (turn executing (executors e) u) as [p|] eqn:Et; [|done]; cbn [mbind option_bind] in Hu; injection Hu as <-; by split.
  destruct (clients e !! i) as [c|] eqn:Hc; [|done]. cbn [mbind option_bind] in Hu. destruct (clientThread c) as [[c' qs]|] eqn:Et; [|done]. cbn [mbind option_bind] in Hu. injection Hu as <-.
  destruct (push_all_spec _ _ _ _ qs Hp) as (_ & Hq & _). pose proof (Forall_lookup_1 _ _ _ _ H2 Hc) as Hn. simpl in Hn.
  assert (client_id c' = client_id c ∧ (client_id c' * 100 ≤ next_id c')%Z ∧ (query_id <$> qs) ++ option_list (query_id <$> announced c') ++ made c ≡ₚ option_list (query_id <$> announced c) ++ made c') as (Hid & Hn' & Hm).
  { unfold clientThread in Et. destruct (announced c) as [q|] eqn:Ea; [|destruct (checked (next_id c + 1)) as [m|] eqn:Em; [|done]]; cbn [mbind option_bind] in Et; injection Et as <- <-; simpl.
    - split_and!; [done|done|]. unfold made. simpl. done.
    - assert (m = next_id c + 1)%Z as -> by (unfold checked in Em; destruct ((_ <=? _)%Z && _); congruence). split_and!; [done|lia|]. unfold made. simpl.
      replace (next_id c + 1 - client_id c * 100)%Z with ((next_id c - client_id c * 100) + 1)%Z by lia. rewrite (seqZ_app _ (next_id c - client_id c * 100) 1) by lia.
      replace (client_id c * 100 + (next_id c - client_id c * 100))%Z with (next_id c) by lia. rewrite Permutation_app_comm. done. }
  split; simpl.
  - rewrite list_fmap_insert, Hid, <-H1. apply list_insert_id. by rewrite list_lookup_fmap, Hc.
  - by apply Forall_insert.
  - unfold submitted. simpl. rewrite Hq, fmap_app. pose proof (bind_insert_perm (λ c, option_list (query_id <$> announced c)) _ i _ c' Hc) as E1. pose proof (bind_insert_perm made _ i _ c' Hc) as E2.
    by apply (perm_balance _ _ _ _ _ _ _ _ _ _ E1 E2 H3 Hm).
Qed.

Lemma clients_start ids np no ne e : QueryEngine_make ids np no ne = Some e → clients_ok ids e.
Proof.
  unfold QueryEngine_make. destruct (mapM _ ids) as [cs|] eqn:E; [|done]. cbn [mbind option_bind]. intros [= <-]. apply mapM_Some_1 in E.
  assert (Forall2 (λ id c, c = {| client_id := id; next_id := id * 100; announced := None |}) ids cs) as Hc.
  { eapply Forall2_impl; [exact E|]. intros id c Hc. simpl in Hc. unfold checked in Hc. destruct ((_ <=? _)%Z && _); [|done]. cbn [mbind option_bind] in Hc. by injection Hc as <-. }
  clear E. split; unfold submitted; simpl; induction Hc as [|id c ids cs -> Hc IH]; try done.
  - csimpl. by rewrite IH.
  - constructor; [simpl; lia|done].
  - csimpl. unfold made at 1. simpl. by rewrite Z.sub_diag.
Qed.

Lemma clients_reach ids np no ne e us e' : QueryEngine_make ids np no ne = Some e → run_ops engine_turn e us = Some e' → clients_ok ids e'.
Proof.
  intros He Hr. apply (run_ops_preserves engine_turn (λ e, engine_ok np no ne e ∧ clients_ok ids e) e us e'); [| |exact Hr].
  - intros s u s' [H1 H2] Hu. split; [by eapply engine_turn_ok|by eapply clients_turn_ok].
  - split; [by eapply engine_starts|by eapply clients_start].
Qed.

(** Hundreds do not overlap. *)
Lemma made_NoDup cs : NoDup (client_id <$> cs) → Forall (λ c, next_id c ≤ client_id c * 100 + 100)%Z cs → NoDup (cs ≫= made).
Proof.
  induction cs as [|c cs IH]; [constructor|]. csimpl. intros [Hc Hnd]%NoDup_cons [Hle Hall]%Forall_cons. apply NoDup_app. split; [apply NoDup_seqZ|]. split; [|by apply IH].
  intros x Hx (c' & Hx' & Hc')%list_elem_of_bind. unfold made in *. apply elem_of_seqZ in Hx. apply elem_of_seqZ in Hx'. pose proof (proj1 (Forall_forall _ _) Hall c' Hc') as Hle'. simpl in Hle'.
  apply Hc. apply list_elem_of_fmap. exists c'. split; [lia|done].
Qed.

(** C38: the query engine completes every query.  For any number of clients and of parsers,
    optimizers and executors (at least one each) and any schedule: only queries that were
    submitted are completed, each at most once; left alone by the clients the workers make a
    bounded number of turns; and when none can move, the completed queries are exactly the
    submitted ones.  The numbers of the queries are distinct as long as no client has made
    more than a hundred. *)
Theorem query_pipeline_complete ids np no ne e0 us e :
  QueryEngine_make ids np no ne = Some e0 → 0 < np → 0 < no → 0 < ne → run_ops engine_turn e0 us = Some e →
  (∃ rest, completed e ++ rest ≡ₚ query_id <$> submitted e) ∧
  (∃ bound, ∀ k e', nsteps worker_step k e e' → k ≤ bound) ∧
  (idle e → completed e ≡ₚ query_id <$> submitted e) ∧
  (NoDup ids → Forall (λ c, next_id c ≤ client_id c * 100 + 100)%Z (clients e) → NoDup (query_id <$> submitted e)).
Proof.
  intros He Hnp Hno Hne Hr. pose proof (engine_reaches _ _ _ _ _ _ _ He Hr) as Hok. destruct (clients_reach _ _ _ _ _ _ _ He Hr) as [C1 C2 C3].
  pose proof Hok as [[u1 Hp] [u2 Ho] [u3 Hx] L1 L2].
  assert (∀ qs, executorWorker <$> (optimizerWorker <$> (parserWorker <$> qs)) = query_id <$> qs) as Hcomp by (intros qs; by rewrite <-!list_fmap_compose). split_and!.
  - destruct (stage_sound _ _ _ _ _ Hp) as [r1 E1], (stage_sound _ _ _ _ _ Ho) as [r2 E2], (stage_sound _ _ _ _ _ Hx) as [r3 E3].
    exists (r3 ++ (executorWorker <$> r2) ++ (executorWorker <$> (optimizerWorker <$> r1))). unfold completed, submitted. rewrite <-Hcomp.
    rewrite <-E1, !fmap_app, <-L1, <-E2, !fmap_app, <-L2, <-E3. solve_Permutation.
  - exists (engine_cost no ne e). intros k e'. by apply (engine_terminates np).
  - intros (Q1 & Q2 & Q3). destruct (stage_quiescent _ _ _ _ _ Hnp Hp Q1) as [E1 _], (stage_quiescent _ _ _ _ _ Hno Ho Q2) as [E2 _], (stage_quiescent _ _ _ _ _ Hne Hx Q3) as [E3 _].
    unfold completed, submitted. by rewrite E3, L2, E2, L1, E1, Hcomp.
  - intros Hnd Hle. rewrite <-C1 in Hnd. pose proof (made_NoDup _ Hnd Hle) as H. rewrite <-C3 in H. by apply NoDup_app in H as [H _].
Qed.

(** One client and one thread of each kind: one query on its way through. *)
Definition one_query : list EngineTurn :=
  [ClientTurn 0; ClientTurn 0; ParserTurn (Notify 0); ParserTurn (Work 0); ParserTurn (Work 0); ParserTurn (Work 0); ParserTurn (Work 0);
   OptimizerTurn (Work 0); OptimizerTurn (Notify 0); OptimizerTurn (Work 0); OptimizerTurn (Work 0); OptimizerTurn (Work 0);
   ExecutorTurn (Work 0); ExecutorTurn (Work 0); ExecutorTurn (Work 0); ExecutorTurn (Work 0); ExecutorTurn (Notify 0); ExecutorTurn (Work 0)].

Lemma query_pipeline_complete_witness :
  ∃ e0 e, QueryEngine_make [3]%Z 1 1 1 = Some e0 ∧ run_ops engine_turn e0 one_query = Some e ∧ idle e ∧ completed e ≡ₚ [300]%Z.
Proof.
  destruct (QueryEngine_make [3]%Z 1 1 1) as [e0|] eqn:He; [|discriminate].
  destruct (run_ops engine_turn e0 one_query) as [e|] eqn:Hr; [|vm_compute in He; injection He as <-; vm_compute in Hr; discriminate].
  destruct (query_pipeline_complete [3]%Z 1 1 1 e0 one_query e He ltac:(lia) ltac:(lia) ltac:(lia) Hr) as (_ & _ & Hidle & _).
  exists e0, e. assert (idle e ∧ query_id <$> submitted e = [300]%Z) as [Hi Hs].
  { vm_compute in He. injection He as <-. vm_compute in Hr. injection Hr as <-. split; [|reflexivity]. split; [|split]; intros [[|t]|w| |c|]; reflexivity. }
  split; [reflexivity|]. split; [exact Hr|]. split; [exact Hi|]. rewrite <-Hs. exact (Hidle Hi).
Defined.

(** The hundred-and-first query of a client has the number of the first of the next. *)
Lemma query_ids_collide :
  ∃ e0 e, QueryEngine_make [0; 1]%Z 1 1 1 = Some e0 ∧ run_ops engine_turn e0 (replicate 202 (ClientTurn 0) ++ [ClientTurn 1; ClientTurn 1]) = Some e ∧
    filter (λ q, query_id q = 100%Z) (submitted e) = replicate 2 {| query_id := 100; sql := "SELECT * from Employee" |}.
Proof. eexists _, _. split; [reflexivity|]. split; [vm_compute; reflexivity|]. vm_compute. reflexivity. Qed.
