(* ===== verification/TrafficLight.v ===== *)
(** * The traffic light

    [src/simulations/TrafficLightController_multithreaded.cpp]: one thread switches the green
    direction for ever, and notifies all cars after each switch; a car waits until its
    direction is green, prints that it crosses, and is gone.  A step is a critical section,
    a notification, or a car that wakes up. *)
From S2P Require Import Prelude.
Local Open Scope nat_scope.

Inductive Direction := NORTH_SOUTH | EAST_WEST.

#[export] Instance Direction_eq_dec : EqDecision Direction.
Proof. solve_decision. Defined.

(** A car is about to test its predicate, sleeps, or has crossed. *)
Inductive Car := Testing (dir : Direction) | Sleeping (dir : Direction) | Crossed (dir : Direction).

Inductive Event := Green (dir : Direction) | Crossing (car : nat) (dir : Direction).

(** [pending]: the light has switched and not yet notified. *)
Record TrafficController := { currentGreenDirection : Direction; pending : bool; cars : list Car; printed : list Event }.

Definition TrafficController_make (dirs : list Direction) : TrafficController :=
  {| currentGreenDirection := NORTH_SOUTH; pending := false; cars := Testing <$> dirs; printed := [] |}.

Definition other (d : Direction) : Direction := match d with NORTH_SOUTH => EAST_WEST | EAST_WEST => NORTH_SOUTH end.

(** A round of [trafficLight]: the switch under the mutex, then the notification. *)
Definition trafficLight (s : TrafficController) : TrafficController :=
  if pending s then
    {| currentGreenDirection := currentGreenDirection s; pending := false; printed := printed s;
       cars := (λ c, match c with Sleeping d => Testing d | _ => c end) <$> cars s |}
  else
    let d := other (currentGreenDirection s) in
    {| currentGreenDirection := d; pending := true; cars := cars s; printed := printed s ++ [Green d] |}.

(** The wait of [car_at_crossing] and what follows it in the critical section; a car that
    sleeps may wake up without a notification. *)
Definition car_at_crossing (s : TrafficController) (i : nat) : TrafficController :=
  match cars s !! i with
  | Some (Testing d) =>
      if decide (d = currentGreenDirection s)
      then {| currentGreenDirection := currentGreenDirection s; pending := pending s; cars := <[i := Crossed d]> (cars s); printed := printed s ++ [Crossing i d] |}
      else {| currentGreenDirection := currentGreenDirection s; pending := pending s; cars := <[i := Sleeping d]> (cars s); printed := printed s |}
  | Some (Sleeping d) => {| currentGreenDirection := currentGreenDirection s; pending := pending s; cars := <[i := Testing d]> (cars s); printed := printed s |}
  | _ => s
  end.

(** [None] is the light. *)
Definition traffic_turn (s : TrafficController) (t : option nat) : TrafficController :=
  match t with None => trafficLight s | Some i => car_at_crossing s i end.

Definition drive (s : TrafficController) (ts : list (option nat)) : TrafficController := fold_left traffic_turn ts s.

(** Everything a car or a notification still has to do is done. *)
Definition calm (s : TrafficController) : Prop := pending s = false ∧ ∀ d, Testing d ∉ cars s.

Definition dir_of (c : Car) : Direction := match c with Testing d | Sleeping d | Crossed d => d end.

(** The direction that is green after the events so far. *)
Definition green_after (es : list Event) : Direction := fold_left (λ d e, match e with Green d => d | Crossing _ _ => d end) es NORTH_SOUTH.

(** Cars cross only while their direction is green, and each at most once. *)
Definition lawful (es : list Event) : Prop :=
  (∀ es1 i d es2, es = es1 ++ Crossing i d :: es2 → green_after es1 = d) ∧ NoDup (es ≫= λ e, match e with Crossing i _ => [i] | Green _ => [] end).

Record traffic_ok (dirs : list Direction) (s : TrafficController) : Prop := {
  traffic_dirs : dir_of <$> cars s = dirs;
  traffic_green : green_after (printed s) = currentGreenDirection s;
  traffic_woken : pending s = false → ∀ d, Sleeping d ∈ cars s → d ≠ currentGreenDirection s;
  traffic_crossed : ∀ i, (∃ d, cars s !! i = Some (Crossed d)) ↔ i ∈ (printed s ≫= λ e, match e with Crossing i _ => [i] | Green _ => [] end);
  traffic_lawful : lawful (printed s)
}.

Lemma green_app es e : green_after (es ++ [e]) = match e with Green d => d | Crossing _ _ => green_after es end.
Proof. unfold green_after. rewrite fold_left_app. by destruct e. Qed.

Lemma lawful_snoc es e :
  lawful es → match e with Green _ => True | Crossing i d => green_after es = d ∧ i ∉ (es ≫= λ e, match e with Crossing i _ => [i] | Green _ => [] end) end →
  lawful (es ++ [e]).
Proof.
  intros [H1 H2] He. split.
  - intros es1 i d es2 E. destruct es2 as [|e' es2 _] using rev_ind.
    + apply app_inj_tail in E as [-> ->]. by destruct He.
    + rewrite app_comm_cons, (assoc_L (++)) in E. apply app_inj_tail in E as [-> _]. by eapply H1.
  - rewrite bind_app. destruct e as [d|i d]; simpl; [by rewrite app_nil_r|]. destruct He as [_ He]. apply NoDup_app. split; [done|]. split; [|apply NoDup_singleton].
    by intros x Hx ->%list_elem_of_singleton.
Qed.

Lemma dirs_insert s i c c' : cars s !! i = Some c → dir_of c' = dir_of c → dir_of <$> <[i := c']> (cars s) = dir_of <$> cars s.
Proof. intros Hc Hd. rewrite list_fmap_insert, Hd. apply list_insert_id. by rewrite list_lookup_fmap, Hc. Qed.

Lemma traffic_turn_ok dirs s t : traffic_ok dirs s → traffic_ok dirs (traffic_turn s t).
Proof.
  intros [H1 H2 H3 H4 H5]. destruct t as [i|]; simpl.
  - unfold car_at_crossing. destruct (cars s !! i) as [[d|d|d]|] eqn:Hc; [| |by split..].
    + assert (i < length (cars s)) as Hlt by (by eapply lookup_lt_Some). destruct (decide (d = currentGreenDirection s)) as [->|Hd]; split; simpl.
      * by rewrite (dirs_insert _ _ _ _ Hc).
      * by rewrite green_app.
      * intros Hp d [[=]|Hin]%elem_of_insert_inv. by apply H3.
      * intros j. rewrite bind_app, elem_of_app. simpl. rewrite list_elem_of_singleton, <-H4. destruct (decide (i = j)) as [<-|Hne].
        -- rewrite list_lookup_insert_eq by done. split; [by right|by eauto].
        -- rewrite list_lookup_insert_ne by done. split; [by left|]. intros [?|?]; [done|congruence].
      * apply lawful_snoc; [done|]. split; [done|]. rewrite <-H4. intros [d Hd]. congruence.
      * by rewrite (dirs_insert _ _ _ _ Hc).
      * done.
      * intros Hp d' [[= <-]|Hin]%elem_of_insert_inv; [done|by apply H3].
      * intros j. rewrite <-H4. destruct (decide (i = j)) as [<-|Hne]; [rewrite list_lookup_insert_eq, Hc by done; split; by intros [? [=]]|by rewrite list_lookup_insert_ne].
      * done.
    + assert (i < length (cars s)) as Hlt by (by eapply lookup_lt_Some). split; simpl; [by rewrite (dirs_insert _ _ _ _ Hc)|done| | |done].
      * intros Hp d' [[=]|Hin]%elem_of_insert_inv. by apply H3.
      * intros j. rewrite <-H4. destruct (decide (i = j)) as [<-|Hne]; [rewrite list_lookup_insert_eq, Hc by done; split; by intros [? [=]]|by rewrite list_lookup_insert_ne].
  - unfold trafficLight. destruct (pending s) eqn:Hp; split; simpl.
    + rewrite <-list_fmap_compose, <-H1. apply list_fmap_ext. by intros ? [] ?.
    + done.
    + intros _ d ([d'|d'|d'] & [=] & _)%list_elem_of_fmap.
    + intros j. rewrite <-H4, list_lookup_fmap. destruct (cars s !! j) as [[d|d|d]|]; simpl; split; intros [? [=]]; eauto.
    + done.
    + done.
    + by rewrite green_app.
    + done.
    + intros j. rewrite bind_app. simpl. rewrite app_nil_r. apply H4.
    + by apply lawful_snoc.
Qed.

Lemma traffic_run_ok dirs ts s : traffic_ok dirs s → traffic_ok dirs (drive s ts).
Proof. revert s. induction ts as [|t ts IH]; intros s Hs; [done|]. apply IH. by apply traffic_turn_ok. Qed.

Lemma traffic_start dirs : traffic_ok dirs (TrafficController_make dirs).
Proof.
  split; simpl.
  - rewrite <-list_fmap_compose. apply list_fmap_id.
  - done.
  - intros _ d (d' & [=] & _)%list_elem_of_fmap.
  - intros i. split; [|by intros []%not_elem_of_nil]. intros [d Hd]. rewrite list_lookup_fmap in Hd. by destruct (dirs !! i).
  - split; [intros es1 i d es2 E; by destruct es1|constructor].
Qed.

(** A car that has crossed stays so. *)
Lemma crossed_stays s ts i d : cars s !! i = Some (Crossed d) → cars (drive s ts) !! i = Some (Crossed d).
Proof.
  revert s. induction ts as [|t ts IH]; intros s Hi; [done|]. apply IH. destruct t as [j|]; simpl.
  - unfold car_at_crossing. destruct (cars s !! j) as [[d'|d'|d']|] eqn:Hj; try done; [destruct (decide (d' = currentGreenDirection s))|]; simpl; (rewrite list_lookup_insert_ne by congruence; done).
  - unfold trafficLight. destruct (pending s); simpl; [|done]. by rewrite list_lookup_fmap, Hi.
Qed.

(** When things are calm, the cars of the green direction have crossed. *)
Lemma calm_crossed dirs s i : traffic_ok dirs s → calm s → dirs !! i = Some (currentGreenDirection s) → cars s !! i = Some (Crossed (currentGreenDirection s)).
Proof.
  intros [H1 H2 H3 H4 H5] [Hp Hc] Hi. rewrite <-H1, list_lookup_fmap in Hi. destruct (cars s !! i) as [[d|d|d]|] eqn:E; simplify_eq/=; [| |done].
  - exfalso. eapply Hc, list_elem_of_lookup_2, E.
  - exfalso. eapply (H3 Hp); [eapply list_elem_of_lookup_2, E|done].
Qed.

(** The traffic light: whatever the schedule, cars cross only while their direction is green
    and once each; no wake-up is lost: as soon as nothing is left to do, all cars of the green
    direction have crossed, and once that has happened for both directions all cars have. *)
Theorem traffic_light_correct dirs ts1 ts2 :
  let s1 := drive (TrafficController_make dirs) ts1 in
  let s2 := drive s1 ts2 in
  lawful (printed s1) ∧
  (calm s1 → ∀ i, dirs !! i = Some (currentGreenDirection s1) → i ∈ (printed s1 ≫= λ e, match e with Crossing i _ => [i] | Green _ => [] end)) ∧
  (calm s1 → calm s2 → currentGreenDirection s2 ≠ currentGreenDirection s1 → Forall (λ c, ∃ d, c = Crossed d) (cars s2)).
Proof.
  intros s1 s2. assert (traffic_ok dirs s1) as K1 by apply traffic_run_ok, traffic_start. assert (traffic_ok dirs s2) as K2 by (by apply traffic_run_ok).
  split_and!.
  - apply K1.
  - intros Hc i Hi. apply (traffic_crossed _ _ K1). eexists. by apply (calm_crossed dirs).
  - intros Hc1 Hc2 Hne. apply Forall_lookup. intros i c Hc. destruct (dirs !! i) as [d|] eqn:Hd.
    + destruct (decide (d = currentGreenDirection s2)) as [->|Hd2].
      * pose proof (calm_crossed _ _ _ K2 Hc2 Hd) as H. exists (currentGreenDirection s2). congruence.
      * assert (d = currentGreenDirection s1) as -> by (destruct d, (currentGreenDirection s1), (currentGreenDirection s2); congruence).
        pose proof (crossed_stays s1 ts2 i _ (calm_crossed _ _ _ K1 Hc1 Hd)) as H. fold s2 in H. eexists. by simplify_eq.
    + apply lookup_ge_None_1 in Hd. rewrite <-(traffic_dirs _ _ K2), length_fmap in Hd. apply lookup_lt_Some in Hc. lia.
Qed.
