(* ===== verification/Services.v ===== *)
(** * Services behind interfaces

    [src/oop-framework/RPCframework.cpp]: requests routed by name to registered services;
    [src/oop-framework/LoggingFramework.cpp]: a logger that writes each entry to all its
    appenders; [src/oop-framework/CompressionFramework.cpp]: algorithms behind an interface;
    [src/oop-framework/MetricsFramework.cpp]: counters, gauges and histograms behind one;
    [src/oop-framework/StorageTierManager.cpp]: storage tiers that report what they do.
    Exceptions are values.  The values of the metrics are [double]s: any type with a zero, an
    addition and conversions from and to [int], without laws. *)
From Stdlib Require Import Ascii DecimalString DecimalZ DecimalPos.
From S2P Require Import Prelude Streams.
Local Open Scope Z_scope.

(** ** Remote calls *)

Module RPC.

Inductive Exn := invalid_argument | out_of_range.

(** A call returns, throws, or is undefined. *)
Inductive Result (A : Type) := Returns (x : A) | Throws (e : Exn) | Undefined.
Arguments Returns {A}.
Arguments Throws {A}.
Arguments Undefined {A}.

Definition bind {A B} (r : Result A) (k : A → Result B) : Result B :=
  match r with Returns x => k x | Throws e => Throws e | Undefined => Undefined end.

#[local] Notation "x <- r ; k" := (bind r (λ x, k)) (at level 100, r at next level, right associativity).

Definition defined {A} (o : option A) : Result A := match o with Some x => Returns x | None => Undefined end.

(** [std::stoi]: blanks, a sign, digits; what follows is ignored. *)
Definition stoi (s : string) : Result Z :=
  let '(neg, s) := read_sign (skip_ws s) in
  let '(d, _) := take_digits s in
  match DecimalString.NilZero.uint_of_string d with
  | None => Throws invalid_argument
  | Some u => let v := if (neg : bool) then - Z.of_uint u else Z.of_uint u in if int_okb v then Returns v else Throws out_of_range
  end.

Record Request := { serviceName : string; methodName : string; params : list string }.

(** A service is what its [invoke] does. *)
Definition Service : Type := Request → Result string.

(** Both arguments are converted before the method is looked at. *)
Definition CalculatorService : Service := λ req,
  pa <- defined (params req !! 0%nat); a <- stoi pa;
  pb <- defined (params req !! 1%nat); b <- stoi pb;
  if decide (methodName req = "add"%string) then s <- defined (checked (a + b)); Returns (show_int s)
  else if decide (methodName req = "multiply"%string) then s <- defined (checked (a * b)); Returns (show_int s)
  else Returns "Unknown Method!"%string.

Definition UserService : Service := λ req,
  if decide (methodName req = "getUser"%string) then Returns "xyz"%string else Returns EmptyString.

Definition RPCFramework : Type := gmap string Service.

Definition registerService (fw : gmap string Service) (service_name : string) (service : Service) : gmap string Service := <[service_name := service]> fw.

Definition invoke (fw : gmap string Service) (req : Request) : Result string :=
  match fw !! serviceName req with None => Returns "Service Not Found!"%string | Some curr_service => curr_service req end.

(** What [std::to_string] writes, [std::stoi] reads. *)
Lemma stoi_show z : int_ok z → stoi (show_int z) = Returns z.
Proof.
  intros Hok. assert (int_okb z = true) as Hb by (unfold int_okb; unfold int_ok in Hok; apply andb_true_iff; by rewrite !Z.leb_le).
  assert (∀ u, u ≠ Decimal.Nil → take_digits (DecimalString.NilZero.string_of_uint u) = (DecimalString.NilZero.string_of_uint u, EmptyString)) as Htake.
  { intros u Hu. rewrite string_of_uint_nilzero by done. rewrite <-(string_app_nil_r (DecimalString.NilEmpty.string_of_uint u)) at 1. by apply take_digits_app. }
  unfold show_int, stoi. pose proof (DecimalZ.of_to z) as Hof. destruct (Z.to_int z) as [u|u] eqn:Hu; simpl.
  - assert (u ≠ Decimal.Nil) as Hne by (destruct z as [|p|p]; simpl in Hu; simplify_eq; try done; apply Unsigned.to_uint_nonnil).
    assert (read_sign (skip_ws (DecimalString.NilZero.string_of_uint u)) = (false, DecimalString.NilZero.string_of_uint u)) as -> by (by destruct u).
    rewrite Htake, DecimalString.NilZero.usu by done. simpl in Hof. rewrite Hof, Hb. done.
  - assert (u ≠ Decimal.Nil) as Hne by (destruct z as [|p|p]; simpl in Hu; simplify_eq; apply Unsigned.to_uint_nonnil).
    rewrite Htake, DecimalString.NilZero.usu by done. simpl in Hof. assert (- Z.of_uint u = z) as -> by exact Hof. by rewrite Hb.
Qed.

(** Remote calls.  A request goes to the service registered last under its name, or is
    answered that there is none.  With a calculator there, adding or multiplying two [int]s
    written in decimal returns the result in decimal whenever it fits an [int], also for
    negative numbers; an argument that is no number throws before the method is looked at,
    and an unknown method of two numbers is answered as such. *)
Theorem rpc_calculator fw name a b m :
  int_ok a → int_ok b →
  let fw' := registerService fw name CalculatorService in
  let call m ps := invoke fw' {| serviceName := name; methodName := m; params := ps |} in
  (int_ok (a + b) → call "add"%string [show_int a; show_int b] = Returns (show_int (a + b))) ∧
  (int_ok (a * b) → call "multiply"%string [show_int a; show_int b] = Returns (show_int (a * b))) ∧
  (m ≠ "add"%string → m ≠ "multiply"%string → call m [show_int a; show_int b] = Returns "Unknown Method!"%string) ∧
  (∀ p ps, stoi p = Throws invalid_argument → call m (p :: ps) = Throws invalid_argument) ∧
  (∀ other req, serviceName req ≠ other → invoke (registerService fw' other UserService) req = invoke fw' req) ∧
  (∀ req, serviceName req ∉ dom fw' → invoke fw' req = Returns "Service Not Found!"%string).
Proof.
  intros Ha Hb fw' call. assert (∀ m ps, call m ps = CalculatorService {| serviceName := name; methodName := m; params := ps |}) as Hcall.
  { intros m' ps. unfold call, invoke, fw', registerService. simpl. by rewrite lookup_insert_eq. }
  split_and!.
  - intros Hok. rewrite Hcall. unfold CalculatorService. simpl. rewrite !stoi_show by done. simpl. by rewrite checked_ok.
  - intros Hok. rewrite Hcall. unfold CalculatorService. simpl. rewrite !stoi_show by done. simpl. by rewrite checked_ok.
  - intros H1 H2. rewrite Hcall. unfold CalculatorService. simpl. rewrite !stoi_show by done. simpl. by rewrite !decide_False.
  - intros p ps Hp. rewrite Hcall. unfold CalculatorService. simpl. by rewrite Hp.
  - intros other req Hne. unfold invoke, registerService. by rewrite lookup_insert_ne.
  - intros req Hn. unfold invoke. by rewrite (proj1 (not_elem_of_dom _ _) Hn).
Qed.

Lemma rpc_calculator_witness :
  invoke (registerService ∅ "Calculator" CalculatorService) {| serviceName := "Calculator"; methodName := "add"; params := [show_int 10; show_int (-30)] |}
  = Returns (show_int (-20)).
Proof.
  destruct (rpc_calculator ∅ "Calculator" 10 (-30) "x") as (H & _); [unfold int_ok, INT_MIN, INT_MAX; lia|unfold int_ok, INT_MIN, INT_MAX; lia|].
  apply H. unfold int_ok, INT_MIN, INT_MAX. lia.
Defined.

(** Two numbers whose sum does not fit: signed overflow. *)
Lemma rpc_add_overflows : CalculatorService {| serviceName := ""; methodName := "add"; params := ["2147483647"; "1"] |} = Undefined.
Proof. reflexivity. Qed.
End RPC.

(** ** Logging *)

Module Logging.

Inductive LogLevel := INFO | DEBUG | ERROR.

Definition level_value (l : LogLevel) : Z := match l with INFO => 0 | DEBUG => 1 | ERROR => 2 end.

Definition enumToString (l : LogLevel) : string := match l with INFO => "INFO" | DEBUG => "DEBUG" | ERROR => "ERROR" end.

(** Appenders are known by their addresses; [sinks] is what each has written, a line per
    entry. *)
Record Logger := { appenders : list nat; minLevel : LogLevel; sinks : gmap nat (list string) }.

Definition Logger_make (level : LogLevel) : Logger := {| appenders := []; minLevel := level; sinks := ∅ |}.

Definition addAppender (lg : Logger) (a : nat) : Logger := {| appenders := appenders lg ++ [a]; minLevel := minLevel lg; sinks := sinks lg |}.

Definition written (s : gmap nat (list string)) (a : nat) : list string := default [] (s !! a).

Definition append (s : gmap nat (list string)) (msg : string) (a : nat) : gmap nat (list string) := <[a := written s a ++ [msg]]> s.

Definition entry (now : string) (level : LogLevel) (msg : string) : string := "[" +:+ now +:+ "] [" +:+ enumToString level +:+ "] " +:+ msg.

(** [log], at the time [now]: the entry goes to every appender under the mutex. *)
Definition log (lg : Logger) (now : string) (level : LogLevel) (msg : string) : Logger :=
  if level_value level <? level_value (minLevel lg) then lg
  else {| appenders := appenders lg; minLevel := minLevel lg; sinks := fold_left (λ s a, append s (entry now level msg) a) (appenders lg) (sinks lg) |}.

Inductive Op := Add (a : nat) | Log (now : string) (level : LogLevel) (msg : string).

Definition log_op (lg : Logger) (o : Op) : Logger := match o with Add a => addAppender lg a | Log now level msg => log lg now level msg end.

(** What an appender should have: for each entry at or above the level that was logged after
    it was added, one line per time it was added. *)
Fixpoint expected (min : LogLevel) (a : nat) (times : nat) (ops : list Op) : list string :=
  match ops with
  | [] => []
  | Add b :: ops => expected min a (if decide (b = a) then S times else times) ops
  | Log now level msg :: ops =>
      (if level_value level <? level_value min then [] else replicate times (entry now level msg)) ++ expected min a times ops
  end.

Definition times_added (a : nat) (as_ : list nat) : nat := length (filter (a =.) as_).

Lemma append_all s msg as_ a : written (fold_left (λ s a, append s msg a) as_ s) a = written s a ++ replicate (times_added a as_) msg.
Proof.
  revert s. induction as_ as [|b as_ IH]; intros s; simpl; [by rewrite app_nil_r|]. rewrite IH. unfold append, times_added, written. rewrite filter_cons.
  destruct (decide (b = a)) as [->|Hne]; [rewrite lookup_insert_eq, decide_True by done; simpl; by rewrite <-(assoc_L (++))|].
  by rewrite lookup_insert_ne, decide_False.
Qed.

(** The logger: every appender has exactly the entries at or above the level, in order, from
    when it was added. *)
Theorem logger_correct min ops a : written (sinks (fold_left log_op ops (Logger_make min))) a = expected min a 0 ops.
Proof.
  assert (∀ lg, minLevel lg = min → written (sinks (fold_left log_op ops lg)) a = written (sinks lg) a ++ expected min a (times_added a (appenders lg)) ops) as H;
    [|by rewrite (H (Logger_make min))].
  induction ops as [|[b|now level msg] ops IH]; intros lg Hmin; simpl; [by rewrite app_nil_r| |].
  - rewrite IH by done. simpl. do 2 f_equal. unfold times_added. rewrite filter_app, length_app, filter_cons. destruct (decide (b = a)) as [->|Hne]; [rewrite decide_True by done; simpl; lia|].
    rewrite decide_False by done. simpl. lia.
  - unfold log. rewrite Hmin. destruct (level_value level <? level_value min) eqn:E; [by rewrite IH|]. rewrite IH by done. simpl. by rewrite append_all, <-(assoc_L (++)).
Qed.
End Logging.

(** ** Compression *)

Module Compression.

Inductive Algorithm := LZ4 | Snappy | Zstd.

Definition compress (al : Algorithm) (data : string) : string :=
  match al with LZ4 => "LZ4(" +:+ data +:+ ")" | Snappy => "Snappy(" +:+ data +:+ ")" | Zstd => "Zstd(" +:+ data +:+ ")" end.

Definition decompress (al : Algorithm) (data : string) : string := match al with LZ4 => data | Snappy => data | Zstd => data end.

(** No algorithm gives back what was compressed. *)
Theorem decompress_is_no_inverse al data : decompress al (compress al data) ≠ data.
Proof.
  intros E. apply (f_equal String.length) in E. destruct al; simpl in E; rewrite string_app_length in E; simpl in E; lia.
Qed.
End Compression.

(** ** Metrics *)

Module Metrics.
Section metrics.
Context {D : Type} (zero : D) (plus : D → D → D) (of_int : Z → D) (to_int : D → option Z).

Inductive Metric := Counter (name : string) (count : Z) | Gauge (name : string) (value : D) | Histogram (name : string) (sample_count : Z) (sum : D).

Definition getName (m : Metric) : string := match m with Counter n _ | Gauge n _ | Histogram n _ _ => n end.

Definition Counter_make (name : string) : Metric := Counter name 0.
Definition Gauge_make (name : string) : Metric := Gauge name zero.
Definition Histogram_make (name : string) : Metric := Histogram name 0 zero.

(** [count += value] adds two [double]s and converts back; [None] is a value that does not
    fit. *)
Definition update (m : Metric) (value : D) : option Metric :=
  match m with
  | Counter n count => c ← to_int (plus (of_int count) value); Some (Counter n c)
  | Gauge n _ => Some (Gauge n value)
  | Histogram n k sum => k ← checked (k + 1); Some (Histogram n k (plus sum value))
  end.

(** The metrics live behind pointers, which the system keeps by name. *)
Record MetricSystem := { metrics : gmap string nat; objects : gmap nat Metric }.

Definition registerMetric (s : MetricSystem) (a : nat) : option MetricSystem :=
  m ← objects s !! a; Some {| metrics := <[getName m := a]> (metrics s); objects := objects s |}.

(** An unknown name is looked up with [operator[]]: a null pointer is dereferenced. *)
Definition system_update (s : MetricSystem) (metric_name : string) (value : D) : option MetricSystem :=
  a ← metrics s !! metric_name; m ← objects s !! a; m ← update m value;
  Some {| metrics := metrics s; objects := <[a := m]> (objects s) |}.

Definition values_for (name : string) (us : list (string * D)) : list D := (filter (λ u, u.1 = name) us).*2.

(** Every metric is kept under its own name. *)
Definition well_named (s : MetricSystem) : Prop := ∀ n a, metrics s !! n = Some a → ∃ m, objects s !! a = Some m ∧ getName m = n.

Lemma update_name m v m' : update m v = Some m' → getName m' = getName m.
Proof.
  destruct m as [n c|n w|n k sum]; simpl; [destruct (to_int (plus (of_int c) v))| |destruct (checked (k + 1))]; simpl; by intros [= <-].
Qed.

Lemma registerMetric_named s a s' : well_named s → registerMetric s a = Some s' → well_named s'.
Proof.
  intros Hw Hr. unfold registerMetric in Hr. destruct (objects s !! a) as [m|] eqn:Ha; simplify_eq/=. intros n b. simpl.
  destruct (decide (getName m = n)) as [<-|Hne]; [rewrite lookup_insert_eq; intros [= <-]; by exists m|rewrite lookup_insert_ne by done; apply Hw].
Qed.

(** The metrics.  Updates go to the metric registered under the name and nowhere else:
    after any defined sequence of updates each registered metric is what its own updates, in
    order, make of it, a metric that is not registered is as before, and an update of a name
    that is not registered is undefined. *)
Theorem metrics_route s us s' :
  well_named s → run_ops (λ s u, system_update s u.1 u.2) s us = Some s' →
  well_named s' ∧ metrics s' = metrics s ∧
  (∀ n a m, metrics s !! n = Some a → objects s !! a = Some m →
    ∃ m', objects s' !! a = Some m' ∧ run_ops update m (values_for n us) = Some m') ∧
  (∀ a, (∀ n, metrics s !! n ≠ Some a) → objects s' !! a = objects s !! a) ∧
  (∀ u, u ∈ us → is_Some (metrics s !! u.1)).
Proof.
  revert s. induction us as [|[n0 v] us IH]; intros s Hw Hr; simpl in Hr.
  { simplify_eq. split_and!; [done|done| |done|by intros u []%not_elem_of_nil]. intros n a m _ Hm. by exists m. }
  destruct (system_update s n0 v) as [s1|] eqn:E1; [|done]. simpl in Hr. unfold system_update in E1.
  destruct (metrics s !! n0) as [a0|] eqn:Hn0; [|done]. simpl in E1. destruct (objects s !! a0) as [m0|] eqn:Hm0; [|done]. simpl in E1.
  destruct (update m0 v) as [m1|] eqn:Hu; [|done]. simpl in E1. injection E1 as <-. destruct (Hw _ _ Hn0) as (m & E & Hname0). rewrite Hm0 in E. injection E as <-.
  set (s1 := {| metrics := metrics s; objects := <[a0 := m1]> (objects s) |}) in *.
  assert (well_named s1) as Hw1.
  { intros n a Ha. simpl in *. destruct (decide (a0 = a)) as [<-|Hne]; [|rewrite lookup_insert_ne by done; by apply Hw]. rewrite lookup_insert_eq. exists m1. split; [done|].
    rewrite (update_name _ _ _ Hu). destruct (Hw n a0 Ha) as (m & Hm & Hn). congruence. }
  destruct (IH s1 Hw1 Hr) as (H1 & H2 & H3 & H4 & H5). split_and!; [done|done| | |].
  - intros n a m Ha Hm. unfold values_for. rewrite filter_cons. simpl. destruct (decide (n0 = n)) as [->|Hne].
    + assert (a = a0) as -> by congruence. assert (m = m0) as -> by congruence. destruct (H3 n a0 m1) as (m' & Hm' & Hrun); [done|simpl; by rewrite lookup_insert_eq|].
      exists m'. split; [done|]. simpl. by rewrite Hu.
    + assert (a0 ≠ a) as Hna by (intros <-; destruct (Hw n a0 Ha) as (m2 & Hm2 & Hn2); congruence).
      apply (H3 n a m); [done|]. simpl. by rewrite lookup_insert_ne.
  - intros a Ha. rewrite H4 by exact Ha. simpl. rewrite lookup_insert_ne; [done|]. intros <-. by apply (Ha n0).
  - intros u [->|Hu']%elem_of_cons; [simpl; by eexists|by apply H5].
Qed.

(** A histogram counts and sums its samples, and a gauge has the last one. *)
Lemma histogram_spec n k sum vs m' :
  run_ops update (Histogram n k sum) vs = Some m' → m' = Histogram n (k + length vs) (fold_left plus vs sum).
Proof.
  revert k sum. induction vs as [|v vs IH]; intros k sum Hr; simpl in Hr; [simplify_eq; f_equal; simpl; lia|].
  destruct (checked (k + 1)) as [k1|] eqn:Ek; [|done]. simpl in Hr. assert (k1 = k + 1) as -> by (unfold checked in Ek; destruct ((_ <=? _) && _); congruence).
  rewrite (IH _ _ Hr). simpl. f_equal. lia.
Qed.

Lemma gauge_spec n w vs v : run_ops update (Gauge n w) (vs ++ [v]) = Some (Gauge n v).
Proof. revert w. induction vs as [|x vs IH]; intros w; simpl; [done|]. apply IH. Qed.
End metrics.

Definition two_metrics : MetricSystem :=
  {| metrics := {["hits"%string := 0%nat; "temp"%string := 1%nat]}; objects := {[0%nat := Counter "hits" 0; 1%nat := Gauge "temp" 5]} |}.

Lemma metrics_route_witness :
  ∃ s', run_ops (λ s u, system_update Z.add (λ z, z) checked s u.1 u.2) two_metrics [("hits", 2); ("temp", 7); ("hits", 3)]%string = Some s' ∧
    ∃ m, objects s' !! 0%nat = Some m ∧ run_ops (update Z.add (λ z, z) checked) (Counter "hits" 0) [2; 3] = Some m.
Proof.
  assert (well_named two_metrics) as Hw.
  { intros n a Ha. simpl in Ha. apply lookup_insert_Some in Ha as [[<- <-]|[_ Ha]]; [by exists (Counter "hits" 0)|]. apply lookup_singleton_Some in Ha as [<- <-]. by exists (Gauge "temp" 5). }
  destruct (run_ops (λ s u, system_update Z.add (λ z, z) checked s u.1 u.2) two_metrics [("hits", 2); ("temp", 7); ("hits", 3)]%string) as [s'|] eqn:Hr;
    [|vm_compute in Hr; discriminate]. exists s'. split; [reflexivity|].
  destruct (metrics_route Z.add (λ z, z) checked two_metrics _ s' Hw Hr) as (_ & _ & H & _). apply (H "hits"%string 0%nat (Counter "hits" 0)); reflexivity.
Defined.

(** The first update of an unregistered name. *)
Lemma unregistered_metric :
  system_update Z.add (λ z, z) checked {| metrics := ∅; objects := {[0%nat := Counter "hits" 0]} |} "hits" 1 = None.
Proof. reflexivity. Qed.
End Metrics.

(** ** Storage tiers *)

Module Tiers.

(** The interface; what a call prints is its result. *)
Class StorageTier (T : Type) := { write : T → string → string; read : T → string → string }.

Inductive SSD := ssd.
Inductive HDD := hdd.
Inductive Cloud := cloud.

#[export] Instance SSD_tier : StorageTier SSD :=
  {| write _ file := "Writing " +:+ file +:+ " to SSD" +:+ newline; read _ file := "Reading " +:+ file +:+ " from SSD" +:+ newline |}.
#[export] Instance HDD_tier : StorageTier HDD :=
  {| write _ file := "Writing " +:+ file +:+ " to HDD" +:+ newline; read _ file := "Reading " +:+ file +:+ " from HDD" +:+ newline |}.
#[export] Instance Cloud_tier : StorageTier Cloud :=
  {| write _ file := "Writing " +:+ file +:+ " to Cloud" +:+ newline; read _ file := "Reading " +:+ file +:+ " from Cloud" +:+ newline |}.

(** A pointer to a tier of any class. *)
Record StorageManager := { class : Type; impl : StorageTier class; tier : class }.

Definition StorageManager_make {T} `{StorageTier T} (t : T) : StorageManager := {| class := T; impl := _; tier := t |}.

Definition store (m : StorageManager) (file : string) : string := @write (class m) (impl m) (tier m) file.
Definition retrieve (m : StorageManager) (file : string) : string := @read (class m) (impl m) (tier m) file.

Definition main : string :=
  let manager1 := StorageManager_make ssd in
  let manager2 := StorageManager_make hdd in
  let manager3 := StorageManager_make cloud in
  "-------- SSD --------" +:+ newline +:+ store manager1 "photo.jpg" +:+ retrieve manager1 "photo.jpg" +:+
  "--------HDD------------" +:+ newline +:+ store manager2 "movie.mp4" +:+ retrieve manager2 "movie.mp4" +:+
  "-------- Cloud --------" +:+ newline +:+ store manager3 "backup.zip" +:+ retrieve manager3 "backup.zip".

Lemma string_app_inj_r (s s' t : string) : s +:+ t = s' +:+ t → s = s'.
Proof.
  revert s'. induction s as [|c s IH]; intros [|c' s'] E; [done| | |simpl in E; injection E as -> E; f_equal; auto];
    apply (f_equal String.length) in E; simpl in E; rewrite !string_app_length in E; simpl in E; lia.
Qed.

(** Of one tier, the report tells which file was stored. *)
Lemma store_inj (f f' : string) :
  (store (StorageManager_make ssd) f = store (StorageManager_make ssd) f' → f = f') ∧
  (store (StorageManager_make hdd) f = store (StorageManager_make hdd) f' → f = f') ∧
  (store (StorageManager_make cloud) f = store (StorageManager_make cloud) f' → f = f').
Proof. unfold store. simpl. split_and!; intros E; simplify_eq; revert E; apply string_app_inj_r. Qed.

(** The output at the end of the source. *)
Example tiers_main_output :
  main = String.concat newline
    ["-------- SSD --------"; "Writing photo.jpg to SSD"; "Reading photo.jpg from SSD";
     "--------HDD------------"; "Writing movie.mp4 to HDD"; "Reading movie.mp4 from HDD";
     "-------- Cloud --------"; "Writing backup.zip to Cloud"; "Reading backup.zip from Cloud"; ""]%string.
Proof. vm_compute. reflexivity. Qed.
End Tiers.
