(* ===== verification/Doubles.v ===== *)
(** * Doubles

    The type [double] of the programs is the binary64 format of IEEE 754, with rounding to
    nearest even, in the specification of the standard library ([SpecFloat]).  A value is a
    sign, a mantissa and an exponent; [valid] ones are those that the machine has.  This file
    proves what the programs rely on: results of operations are valid, the comparison is the
    one of the numbers, and rounding does not change a number that is representable. *)
From Stdlib Require Import SpecFloat.
From S2P Require Import Prelude.
Local Open Scope Z_scope.

Definition prec : Z := 53.
Definition emax : Z := 1024.

Definition double : Type := spec_float.

Definition valid (x : double) : Prop := valid_binary prec emax x = true.

Definition dadd (x y : double) : double := SFadd prec emax x y.
Definition dsub (x y : double) : double := SFsub prec emax x y.
Definition dmul (x y : double) : double := SFmul prec emax x y.
Definition ddiv (x y : double) : double := SFdiv prec emax x y.
(** A conversion from an integer type. *)
Definition of_int (z : Z) : double := binary_normalize prec emax z 0 false.

Definition zero : double := S754_zero false.
Definition one : double := of_int 1.

(** [std::min(a, b)]. *)
Definition dmin (a b : double) : double := if SFltb b a then b else a.

(** ** Digits *)

Definition exp_of (e : Z) : Z := Z.max (e - 53) (-1074).

Lemma fexp_exp e : fexp prec emax e = exp_of e.
Proof. reflexivity. Qed.

Lemma digits_bounds m : 2 ^ (Z.pos (digits2_pos m) - 1) ≤ Z.pos m < 2 ^ Z.pos (digits2_pos m).
Proof.
  induction m as [m IH|m IH|]; simpl digits2_pos; [| |simpl; lia].
  - rewrite Pos2Z.inj_succ. replace (Z.succ (Z.pos (digits2_pos m)) - 1) with (Z.succ (Z.pos (digits2_pos m) - 1)) by lia. rewrite !Z.pow_succ_r by lia. lia.
  - rewrite Pos2Z.inj_succ. replace (Z.succ (Z.pos (digits2_pos m)) - 1) with (Z.succ (Z.pos (digits2_pos m) - 1)) by lia. rewrite !Z.pow_succ_r by lia. lia.
Qed.

Lemma digits_unique m d : 2 ^ (d - 1) ≤ Z.pos m < 2 ^ d → Z.pos (digits2_pos m) = d.
Proof.
  intros H. pose proof (digits_bounds m) as Hb. set (k := Z.pos (digits2_pos m)) in *. assert (0 < k) by lia.
  assert (0 < d) by (destruct (Z.le_gt_cases d 0); [|done]; assert (2 ^ d ≤ 1) by (destruct (Z.eq_dec d 0) as [->|]; [done|rewrite Z.pow_neg_r by lia; lia]); lia).
  destruct (Z.lt_trichotomy k d) as [|[|]]; [|done|].
  - pose proof (Z.pow_le_mono_r 2 k (d - 1)). lia.
  - pose proof (Z.pow_le_mono_r 2 d (k - 1)). lia.
Qed.

Lemma digits_shift m n : 0 ≤ n → Z.pos (digits2_pos (Z.to_pos (Z.pos m * 2 ^ n))) = Z.pos (digits2_pos m) + n.
Proof.
  intros Hn. pose proof (digits_bounds m) as [H1 H2]. assert (0 < 2 ^ n) by lia. apply digits_unique. rewrite Z2Pos.id by lia.
  replace (Z.pos (digits2_pos m) + n - 1) with (Z.pos (digits2_pos m) - 1 + n) by lia. rewrite !Z.pow_add_r by lia. nia.
Qed.

Lemma Zdigits_nonneg m : 0 ≤ m → 0 ≤ Zdigits2 m.
Proof. destruct m; simpl; lia. Qed.

(** The digits of a number below a power of two, and of one above. *)
Lemma Zdigits_le m n : 0 ≤ m → 0 ≤ n → m < 2 ^ n → Zdigits2 m ≤ n.
Proof.
  intros Hm Hn Hlt. destruct m as [|m|]; [done| |lia]. cbn [Zdigits2]. pose proof (digits_bounds m). destruct (Z.le_gt_cases (Z.pos (digits2_pos m)) n); [done|].
  pose proof (Z.pow_le_mono_r 2 n (Z.pos (digits2_pos m) - 1)). lia.
Qed.

Lemma Zdigits_ge m n : 0 ≤ n → 2 ^ n ≤ m → n + 1 ≤ Zdigits2 m.
Proof.
  intros Hn Hle. destruct m as [|m|]; [lia| |lia]. cbn [Zdigits2]. pose proof (digits_bounds m). destruct (Z.le_gt_cases (n + 1) (Z.pos (digits2_pos m))); [done|].
  pose proof (Z.pow_le_mono_r 2 (Z.pos (digits2_pos m)) n). lia.
Qed.

(** ** Canonical mantissas *)

Lemma valid_finite s m e :
  valid (S754_finite s m e) ↔ exp_of (Z.pos (digits2_pos m) + e) = e ∧ e ≤ 971.
Proof. unfold valid, valid_binary, bounded, canonical_mantissa. rewrite fexp_exp, andb_true_iff, Z.eqb_eq, Z.leb_le. done. Qed.

Lemma canonical_bounds s m e : valid (S754_finite s m e) → -1074 ≤ e ≤ 971 ∧ Z.pos (digits2_pos m) ≤ 53 ∧ (Z.pos (digits2_pos m) = 53 ∨ e = -1074).
Proof. rewrite valid_finite. unfold exp_of. lia. Qed.

(** The number times 2^1074, an integer. *)
Definition scaled (x : double) : Z :=
  match x with S754_finite s m e => cond_Zopp s (Z.pos m * 2 ^ (e + 1074)) | _ => 0 end.

Definition UNIT : Z := 2 ^ 1074.

(** A number that is not negative: zero or positive and finite. *)
Definition nonneg (x : double) : Prop := match x with S754_zero _ => True | S754_finite s _ _ => s = false | _ => False end.

Lemma scaled_nonneg x : nonneg x → 0 ≤ scaled x.
Proof. destruct x as [s|s| |s m e]; simpl; try done. intros ->. simpl. destruct (Z.le_gt_cases 0 (e + 1074)); [lia|]. rewrite Z.pow_neg_r by done. lia. Qed.

(** The mantissa and exponent of a positive number decide the order. *)
Lemma canonical_order m1 e1 m2 e2 :
  valid (S754_finite false m1 e1) → valid (S754_finite false m2 e2) → e1 < e2 → Z.pos m1 * 2 ^ (e1 + 1074) < Z.pos m2 * 2 ^ (e2 + 1074).
Proof.
  intros H1 H2 He. destruct (canonical_bounds _ _ _ H1) as (B1 & D1 & _), (canonical_bounds _ _ _ H2) as (B2 & D2 & [N2|N2]); [|lia].
  pose proof (digits_bounds m1) as [_ U1]. pose proof (digits_bounds m2) as [L2 _]. rewrite N2 in L2. pose proof (Z.pow_le_mono_r 2 (Z.pos (digits2_pos m1)) 53).
  pose proof (Z.pow_le_mono_r 2 (e1 + 1074 + 1) (e2 + 1074)) as Hp. replace (e1 + 1074 + 1) with (Z.succ (e1 + 1074)) in Hp by lia. rewrite Z.pow_succ_r in Hp by lia.
  assert (0 < 2 ^ (e1 + 1074)) by lia. change (2 ^ (53 - 1)) with (2 ^ 52) in L2. assert (2 ^ 53 = 2 * 2 ^ 52) by reflexivity. nia.
Qed.

Lemma compare_scaled x y :
  valid x → valid y → nonneg x → nonneg y → SFcompare x y = Some (scaled x ?= scaled y).
Proof.
  intros Vx Vy Nx Ny. destruct x as [sx|sx| |sx mx ex], y as [sy|sy| |sy my ey]; try done; simpl in Nx, Ny; subst; cbn [SFcompare scaled cond_Zopp].
  - f_equal. symmetry. apply Z.compare_lt_iff. destruct (canonical_bounds _ _ _ Vy) as (? & _). assert (0 < 2 ^ (ey + 1074)) by lia. nia.
  - f_equal. symmetry. apply Z.compare_gt_iff. destruct (canonical_bounds _ _ _ Vx) as (? & _). assert (0 < 2 ^ (ex + 1074)) by lia. nia.
  - f_equal. destruct (Z.compare_spec ex ey) as [->|He|He].
    + change (Pos.compare_cont Eq mx my) with (Pos.compare mx my). destruct (canonical_bounds _ _ _ Vy) as (? & _). assert (0 < 2 ^ (ey + 1074)) by lia.
      destruct (Pos.compare_spec mx my) as [->|H1|H1]; symmetry; [apply Z.compare_refl|apply Z.compare_lt_iff; nia|apply Z.compare_gt_iff; nia].
    + symmetry. apply Z.compare_lt_iff. by apply canonical_order.
    + symmetry. apply Z.compare_gt_iff. by apply canonical_order.
Qed.

(** ** Shifts *)

Lemma iter_pos_nat {A} (f : A → A) p x : SpecFloat.iter_pos f p x = Nat.iter (Pos.to_nat p) f x.
Proof.
  revert x. induction p as [p IH|p IH|]; intros x; cbn [SpecFloat.iter_pos]; rewrite ?IH; [| |done].
  - rewrite <-Nat.iter_add, Pos2Nat.inj_xI. replace (S (2 * Pos.to_nat p))%nat with ((Pos.to_nat p + Pos.to_nat p) + 1)%nat by lia. by rewrite (Nat.iter_add _ 1).
  - rewrite <-Nat.iter_add, Pos2Nat.inj_xO. f_equal. lia.
Qed.

Lemma shr_1_half r : 0 ≤ shr_m r → shr_m (shr_1 r) = shr_m r / 2.
Proof. destruct r as [m r s]. destruct m as [|[p|p|]|p]; simpl; intros H; [done| | |done|lia]; [rewrite <-Z.div2_div; reflexivity|rewrite <-Z.div2_div; reflexivity]. Qed.

Lemma shr_iter n r : 0 ≤ shr_m r → shr_m (Nat.iter n shr_1 r) = shr_m r / 2 ^ n.
Proof.
  intros Hr. induction n as [|n IH]; [by rewrite Z.div_1_r|]. rewrite ?Nat.iter_succ. rewrite shr_1_half by (rewrite IH; apply Z.div_pos; lia). rewrite IH, Z.div_div by lia.
  f_equal. rewrite Nat2Z.inj_succ, Z.pow_succ_r by lia. lia.
Qed.

Lemma shr_1_even k : 0 ≤ k → shr_1 {| shr_m := 2 * k; shr_r := false; shr_s := false |} = {| shr_m := k; shr_r := false; shr_s := false |}.
Proof. destruct k as [|p|p]; [done|done|lia]. Qed.

(** Shifting out zeros. *)
Lemma shr_exact n k : 0 ≤ k → Nat.iter n shr_1 {| shr_m := k * 2 ^ n; shr_r := false; shr_s := false |} = {| shr_m := k; shr_r := false; shr_s := false |}.
Proof.
  intros Hk. revert k Hk. induction n as [|n IH]; intros k Hk; [simpl; by rewrite Z.mul_1_r|]. rewrite ?Nat.iter_succ.
  replace (k * 2 ^ S n) with ((2 * k) * 2 ^ n) by (rewrite Nat2Z.inj_succ, Z.pow_succ_r by lia; lia). rewrite IH by lia. by apply shr_1_even.
Qed.

(** [shr_fexp] shifts to the exponent of the format. *)
Lemma shr_fexp_spec m e l : 0 ≤ m →
  let n := Z.max 0 (exp_of (Zdigits2 m + e) - e) in
  shr_m (shr_fexp prec emax m e l).1 = m / 2 ^ n ∧ (shr_fexp prec emax m e l).2 = e + n.
Proof.
  intros Hm n. unfold shr_fexp. rewrite fexp_exp. subst n. assert (shr_m (shr_record_of_loc m l) = m) as Hr by (by destruct l as [|[]]).
  destruct (exp_of (Zdigits2 m + e) - e) as [|p|p]; simpl; rewrite ?Hr, ?Z.div_1_r, ?Z.add_0_r; [done| |done].
  rewrite iter_pos_nat, shr_iter, Hr, positive_nat_Z by lia. done.
Qed.

Lemma shr_fexp_exact m e n : 0 ≤ m → 0 ≤ n → exp_of (Zdigits2 (m * 2 ^ n) + e) = e + n →
  shr_fexp prec emax (m * 2 ^ n) e loc_Exact = ({| shr_m := m; shr_r := false; shr_s := false |}, e + n).
Proof.
  intros Hm Hn He. unfold shr_fexp. rewrite fexp_exp, He. replace (e + n - e) with n by lia. destruct n as [|p|p]; simpl; [by rewrite Z.mul_1_r, Z.add_0_r| |lia].
  rewrite iter_pos_nat. rewrite <-(positive_nat_Z p) at 1. rewrite shr_exact by done. done.
Qed.

(** ** Rounding *)

Lemma round_aux_exact s m0 e0 n : valid (S754_finite false m0 e0) → 0 ≤ n →
  binary_round_aux prec emax s (Z.pos m0 * 2 ^ n) (e0 - n) loc_Exact = S754_finite s m0 e0.
Proof.
  intros Hv Hn. pose proof Hv as [Hc Hle]%valid_finite. unfold binary_round_aux.
  assert (Zdigits2 (Z.pos m0 * 2 ^ n) = Z.pos (digits2_pos m0) + n) as Hd.
  { rewrite <-(digits_shift m0 n Hn). assert (0 < 2 ^ n) by lia. assert (0 < Z.pos m0 * 2 ^ n) by lia. destruct (Z.pos m0 * 2 ^ n); [lia|done|lia]. }
  rewrite (shr_fexp_exact _ (e0 - n) n) by (try lia; rewrite Hd; replace (Z.pos (digits2_pos m0) + n + (e0 - n)) with (Z.pos (digits2_pos m0) + e0) by lia; lia).
  cbn [shr_m loc_of_shr_record round_nearest_even]. replace (Z.pos m0) with (Z.pos m0 * 2 ^ 0) at 1 by lia.
  rewrite (shr_fexp_exact (Z.pos m0) (e0 - n + n) 0) by (try lia; rewrite Z.mul_1_r; cbn [Zdigits2]; replace (e0 - n + n) with e0 by lia; lia).
  cbn [shr_m]. replace (e0 - n + n + 0) with e0 by lia. change (emax - prec) with 971. by rewrite (proj2 (Z.leb_le _ _) Hle).
Qed.

Lemma shl_pow m p : Z.pos (Pos.iter xO m p) = Z.pos m * 2 ^ Z.pos p.
Proof.
  rewrite <-Z.shiftl_mul_pow2 by lia. change (Z.shiftl (Z.pos m) (Z.pos p)) with (Pos.iter (Z.mul 2) (Z.pos m) p).
  rewrite !Pos2Nat.inj_iter. induction (Pos.to_nat p) as [|k IH]; [done|]. cbn [nat_rect]. rewrite <-IH. done.
Qed.

(** Rounding does not change a number that the format has. *)
Lemma round_exact s m e m0 e0 :
  valid (S754_finite false m0 e0) → -1074 ≤ e → Z.pos m * 2 ^ (e + 1074) = Z.pos m0 * 2 ^ (e0 + 1074) → binary_round prec emax s m e = S754_finite s m0 e0.
Proof.
  intros Hv He Heq. destruct (canonical_bounds _ _ _ Hv) as (Hb & _). pose proof Hv as [Hc _]%valid_finite.
  assert (0 < 2 ^ (e + 1074) ∧ 0 < 2 ^ (e0 + 1074)) as [Hp Hp0] by lia.
  assert (Z.pos (digits2_pos m) + e = Z.pos (digits2_pos m0) + e0) as Hd.
  { pose proof (digits_shift m (e + 1074) ltac:(lia)) as E1. rewrite Heq, digits_shift in E1 by lia. lia. }
  unfold binary_round. rewrite fexp_exp, Hd, Hc. unfold shl_align. destruct (Z.le_gt_cases e e0) as [Hle|Hgt].
  - destruct (e0 - e) as [|p|p] eqn:E; [| |lia].
    + assert (e = e0) as -> by lia. assert (m = m0) as -> by nia. apply (round_aux_exact s m0 e0 0) in Hv as Hr; [|lia]. by rewrite Z.mul_1_r, Z.sub_0_r in Hr.
    + replace (Z.pos m) with (Z.pos m0 * 2 ^ (e0 - e)); [|]. { replace e with (e0 - (e0 - e)) at 2 by lia. apply round_aux_exact; [done|lia]. }
      replace (e0 + 1074) with ((e0 - e) + (e + 1074)) in Heq by lia. rewrite (Z.pow_add_r 2 (e0 - e)) in Heq by lia. apply (Z.mul_reg_r _ _ (2 ^ (e + 1074))); lia.
  - destruct (e0 - e) as [|p|p] eqn:E; [lia|lia|].
    assert (Pos.iter xO m p = m0) as ->.
    { apply Pos2Z.inj. rewrite shl_pow.
      replace (e + 1074) with (Z.pos p + (e0 + 1074)) in Heq by lia. rewrite (Z.pow_add_r 2 (Z.pos p)) in Heq by lia. apply (Z.mul_reg_r _ _ (2 ^ (e0 + 1074))); lia. }
    apply (round_aux_exact s m0 e0 0) in Hv as Hr; [|lia]. by rewrite Z.mul_1_r, Z.sub_0_r in Hr.
Qed.

(** A number of at most 53 digits is representable. *)
Lemma representable k c :
  0 < k < 2 ^ 53 → -1074 ≤ c ≤ 971 → ∃ m0 e0, valid (S754_finite false m0 e0) ∧ Z.pos m0 * 2 ^ (e0 + 1074) = k * 2 ^ (c + 1074).
Proof.
  intros Hk Hc. destruct k as [|k|k]; [lia| |lia]. pose proof (Zdigits_le (Z.pos k) 53 ltac:(lia) ltac:(lia) ltac:(lia)) as Hd. cbn [Zdigits2] in Hd.
  set (s := Z.min (53 - Z.pos (digits2_pos k)) (c + 1074)). assert (0 ≤ s) as Hs by lia. exists (Z.to_pos (Z.pos k * 2 ^ s)), (c - s). split.
  - apply valid_finite. rewrite digits_shift by done. unfold exp_of. lia.
  - assert (0 < 2 ^ s) by lia. rewrite Z2Pos.id by lia. replace (c + 1074) with (s + (c - s + 1074)) by lia. rewrite (Z.pow_add_r 2 s) by lia. lia.
Qed.

Lemma round_even_bounds m l : 0 ≤ m → m ≤ round_nearest_even m l ≤ m + 1.
Proof. intros Hm. destruct l as [|[]]; simpl; [lia| |lia|lia]. destruct (Z.even m); lia. Qed.

(** The mantissa after the first shift: below 2^53, and with all its digits unless the
    exponent is the least one. *)
Lemma first_shift mx ex (e' := exp_of (Zdigits2 mx + ex)) (m1 := mx / 2 ^ (e' - ex)) :
  0 ≤ mx → ex ≤ e' → 0 ≤ m1 < 2 ^ 53 ∧ (e' = -1074 ∨ 2 ^ 52 ≤ m1).
Proof.
  intros Hm He. assert (0 ≤ e' - ex) as Hn by lia. assert (-1074 ≤ e') as Hmin by (unfold e', exp_of; lia). assert (0 < 2 ^ (e' - ex)) as Hp by lia.
  assert (Zdigits2 mx + ex ≤ e' + 53) as Hd by (unfold e', exp_of; lia). destruct mx as [|m|m]; [|cbn [Zdigits2] in *|lia].
  - unfold m1. rewrite Z.div_0_l by lia. split; [lia|]. left. unfold e', exp_of in *. simpl in *. lia.
  - pose proof (digits_bounds m) as [L U]. set (d := Z.pos (digits2_pos m)) in *. unfold m1. split; [split; [apply Z.div_pos; lia|]|].
    + apply Z.div_lt_upper_bound; [done|]. rewrite <-Z.pow_add_r by lia. pose proof (Z.pow_le_mono_r 2 d (e' - ex + 53)). lia.
    + destruct (Z.eq_dec e' (-1074)) as [|Hne]; [by left|]. right. assert (d + ex = e' + 53) as E by (unfold e', exp_of in *; lia).
      apply Z.div_le_lower_bound; [done|]. rewrite <-Z.pow_add_r by lia. by replace (e' - ex + 52) with (d - 1) by lia.
Qed.

(** A mantissa after rounding: one more shift if it has grown a digit. *)
Lemma second_shift m2 e' (n := Z.max 0 (exp_of (Zdigits2 m2 + e') - e')) :
  0 ≤ m2 ≤ 2 ^ 53 → -1074 ≤ e' → e' = -1074 ∨ 2 ^ 52 ≤ m2 → ∀ m, m2 / 2 ^ n = Z.pos m → exp_of (Z.pos (digits2_pos m) + (e' + n)) = e' + n.
Proof.
  intros Hm He Hd m E. destruct (Z.eq_dec m2 (2 ^ 53)) as [->|Hne].
  - change (Zdigits2 (2 ^ 53)) with 54 in n. assert (n = 1) as -> by (unfold n, exp_of; lia). change (2 ^ 53 / 2 ^ 1) with (Z.pos (2 ^ 52)) in E. injection E as <-.
    change (Z.pos (digits2_pos (2 ^ 52))) with 53. unfold exp_of. lia.
  - assert (Zdigits2 m2 ≤ 53) as Hle by (apply Zdigits_le; lia). assert (n = 0) as -> by (unfold n, exp_of; lia). rewrite Z.div_1_r in E. rewrite E in *. cbn [Zdigits2] in *.
    destruct Hd as [->|Hd]; [unfold exp_of; lia|]. pose proof (Zdigits_ge (Z.pos m) 52 ltac:(lia) Hd) as Hg. cbn [Zdigits2] in Hg. unfold exp_of. lia.
Qed.

Lemma round_aux_valid s mx ex lx : 0 ≤ mx → ex ≤ exp_of (Zdigits2 mx + ex) → valid (binary_round_aux prec emax s mx ex lx).
Proof.
  intros Hm He. unfold binary_round_aux. destruct (shr_fexp_spec mx ex lx Hm) as [H1 H2]. destruct (shr_fexp prec emax mx ex lx) as [r1 e1]. cbn [fst snd] in *.
  replace (Z.max 0 (exp_of (Zdigits2 mx + ex) - ex)) with (exp_of (Zdigits2 mx + ex) - ex) in * by lia. replace (ex + (exp_of (Zdigits2 mx + ex) - ex)) with (exp_of (Zdigits2 mx + ex)) in H2 by lia.
  destruct (first_shift mx ex Hm He) as [B1 B2]. rewrite <-H1, <-H2 in *. set (m2 := round_nearest_even (shr_m r1) (loc_of_shr_record r1)).
  assert (shr_m r1 ≤ m2 ≤ shr_m r1 + 1) as Hr by (apply round_even_bounds; lia). assert (-1074 ≤ e1) as Hmin by (rewrite H2; unfold exp_of; lia).
  destruct (shr_fexp_spec m2 e1 loc_Exact ltac:(lia)) as [H3 H4]. destruct (shr_fexp prec emax m2 e1 loc_Exact) as [r2 e2]. cbn [fst snd] in *.
  destruct (shr_m r2) as [|m|m] eqn:E; [done| |done]. change (emax - prec) with 971. destruct (Z.leb_spec e2 971); [|done]. apply valid_finite. split; [|done].
  rewrite H4. apply (second_shift m2 e1); [lia|done|lia|by rewrite <-H3].
Qed.

Lemma round_valid s m e : valid (binary_round prec emax s m e).
Proof.
  unfold binary_round. rewrite fexp_exp. unfold shl_align. set (e' := exp_of (Z.pos (digits2_pos m) + e)). destruct (e' - e) as [|p|p] eqn:E.
  - apply round_aux_valid; [lia|]. cbn [Zdigits2]. fold e'. lia.
  - apply round_aux_valid; [lia|]. cbn [Zdigits2]. fold e'. lia.
  - apply round_aux_valid; [lia|]. cbn [Zdigits2]. pose proof (digits_shift m (Z.pos p) ltac:(lia)) as Hd. rewrite <-shl_pow in Hd. cbn [Z.to_pos] in Hd. rewrite Hd.
    replace (Z.pos (digits2_pos m) + Z.pos p + e') with (Z.pos (digits2_pos m) + e) by lia. done.
Qed.

(** ** Operations *)

Lemma normalize_valid z e : valid (binary_normalize prec emax z e false).
Proof. destruct z; [done|apply round_valid..]. Qed.

Lemma of_int_valid z : valid (of_int z).
Proof. apply normalize_valid. Qed.

Lemma add_valid x y : valid x → valid y → valid (dadd x y).
Proof. intros Hx Hy. destruct x as [[]|[]| |], y as [[]|[]| |]; try done. apply normalize_valid. Qed.

Lemma sub_valid x y : valid x → valid y → valid (dsub x y).
Proof. intros Hx Hy. destruct x as [[]|[]| |], y as [[]|[]| |]; try done. apply normalize_valid. Qed.

Lemma mul_valid x y : valid x → valid y → valid (dmul x y).
Proof.
  intros Hx Hy. destruct x as [|[]| |sx mx ex], y as [|[]| |sy my ey]; try done. unfold dmul, SFmul. apply round_aux_valid; [lia|].
  destruct (canonical_bounds _ _ _ Hx) as (Bx & Dx & Nx), (canonical_bounds _ _ _ Hy) as (By & Dy & Ny). pose proof (digits_bounds mx) as [Lx _]. pose proof (digits_bounds my) as [Ly _].
  assert (Z.pos (digits2_pos mx) + Z.pos (digits2_pos my) - 1 ≤ Zdigits2 (Z.pos (mx * my))) as Hd; [|cbn [Zdigits2] in *; unfold exp_of; lia].
  pose proof (Zdigits_ge (Z.pos (mx * my)) ((Z.pos (digits2_pos mx) - 1) + (Z.pos (digits2_pos my) - 1)) ltac:(lia)) as Hg. rewrite Z.pow_add_r, Pos2Z.inj_mul in Hg by lia.
  rewrite Pos2Z.inj_mul. assert (2 ^ (Z.pos (digits2_pos mx) - 1) * 2 ^ (Z.pos (digits2_pos my) - 1) ≤ Z.pos mx * Z.pos my) by (apply Z.mul_le_mono_nonneg; lia). lia.
Qed.

Lemma div_valid x y : valid x → valid y → valid (ddiv x y).
Proof.
  intros Hx Hy. destruct x as [|[]| |sx mx ex], y as [|[]| |sy my ey]; try done. unfold ddiv, SFdiv, SFdiv_core_binary. rewrite fexp_exp. cbn [Zdigits2].
  set (D := Z.pos (digits2_pos mx) + ex - (Z.pos (digits2_pos my) + ey)). set (e' := Z.min (exp_of D) (ex - ey)). assert (0 ≤ ex - ey - e') as Hs by lia.
  set (m' := match ex - ey - e' with 0 => Z.pos mx | Z.pos _ => Z.shiftl (Z.pos mx) (ex - ey - e') | Z.neg _ => 0 end).
  assert (m' = Z.pos mx * 2 ^ (ex - ey - e')) as Em.
  { unfold m'. destruct (ex - ey - e'); [lia| |lia]. by rewrite Z.shiftl_mul_pow2. }
  clearbody m'. pose proof (Z_div_mod m' (Z.pos my) ltac:(lia)) as Hdiv. destruct (Z.div_eucl m' (Z.pos my)) as [q r]. destruct Hdiv as [Eq Hr].
  assert (0 < 2 ^ (ex - ey - e')) as Hpow by lia. assert (0 ≤ q) as Hq by nia. apply round_aux_valid; [done|].
  assert (Z.pos (digits2_pos mx) + (ex - ey - e') - Z.pos (digits2_pos my) ≤ Zdigits2 q) as Hd; [|assert (exp_of D ≤ exp_of (Zdigits2 q + e')) by (unfold exp_of; lia); lia].
  set (k := Z.pos (digits2_pos mx) + (ex - ey - e') - Z.pos (digits2_pos my)). destruct (Z.le_gt_cases k 0); [pose proof (Zdigits_nonneg q Hq); lia|].
  assert (2 ^ (k - 1) ≤ q) as Hk; [|pose proof (Zdigits_ge q (k - 1) ltac:(lia) Hk); lia].
  pose proof (digits_bounds mx) as [Lx _]. pose proof (digits_bounds my) as [_ Uy]. assert (2 ^ (k - 1) * 2 ^ Z.pos (digits2_pos my) ≤ Z.pos mx * 2 ^ (ex - ey - e')) as Hle.
  { rewrite <-Z.pow_add_r by lia. replace (k - 1 + Z.pos (digits2_pos my)) with ((Z.pos (digits2_pos mx) - 1) + (ex - ey - e')) by (unfold k; lia). rewrite Z.pow_add_r by lia. nia. }
  assert (0 < 2 ^ (k - 1)) by lia. nia.
Qed.

(** The sum of numbers that are not negative is not negative, or too large. *)
Lemma round_sign m e : match binary_round prec emax false m e with S754_zero s | S754_finite s _ _ | S754_infinity s => s = false | S754_nan => True end.
Proof. unfold binary_round, binary_round_aux. repeat case_match; simplify_eq; done. Qed.

Lemma add_nonneg x y : nonneg x → nonneg y → nonneg (dadd x y) ∨ dadd x y = S754_infinity false ∨ dadd x y = S754_nan.
Proof.
  intros Hx Hy. destruct x as [[]|[]| |sx mx ex], y as [[]|[]| |sy my ey]; try done; try (by left). simpl in Hx, Hy. subst. unfold dadd, SFadd. cbn [cond_Zopp]. rewrite <-Pos2Z.inj_add. cbn [binary_normalize].
  pose proof (round_sign (fst (shl_align mx ex (Z.min ex ey)) + fst (shl_align my ey (Z.min ex ey))) (Z.min ex ey)) as H.
  destruct (binary_round _ _ _ _ _) as [s|s| |s m e]; [by left|right; left; by subst|by right; right|left; exact H].
Qed.

Lemma one_eq : one = S754_finite false (2 ^ 52) (-52).
Proof. reflexivity. Qed.

Lemma shl_align_scaled m e e' : e' ≤ e → Z.pos (fst (shl_align m e e')) = Z.pos m * 2 ^ (e - e').
Proof.
  intros He. unfold shl_align. destruct (e' - e) as [|p|p] eqn:E; [|lia|]; cbn [fst].
  - replace (e - e') with 0 by lia. lia.
  - rewrite shl_pow. do 2 f_equal. lia.
Qed.

(** Numbers from one to 2^53 have exponents from -52 to 1. *)
Lemma unit_exponent m e : valid (S754_finite false m e) → UNIT ≤ Z.pos m * 2 ^ (e + 1074) ≤ 2 ^ 53 * UNIT → -52 ≤ e ≤ 1 ∧ (e = 1 → Z.pos m = 2 ^ 52).
Proof.
  intros Hv [Hl Hu]. destruct (canonical_bounds _ _ _ Hv) as (B & D & N). pose proof (digits_bounds m) as [Lm Um]. unfold UNIT in *.
  assert (Z.pos m < 2 ^ 53) as Hm by (pose proof (Z.pow_le_mono_r 2 (Z.pos (digits2_pos m)) 53); lia). rewrite <-Z.pow_add_r in Hu by lia. assert (0 < 2 ^ (e + 1074)) as Hp by lia.
  assert (-52 ≤ e) as He.
  { destruct (Z.le_gt_cases (-52) e); [done|]. pose proof (Z.pow_le_mono_r 2 (53 + (e + 1074)) 1074 ltac:(lia) ltac:(lia)) as Hle. rewrite Z.pow_add_r in Hle by lia. nia. }
  assert (2 ^ 52 ≤ Z.pos m) as Hn by (destruct N as [N|N]; [by rewrite N in Lm|lia]).
  assert (e ≤ 1) as He1.
  { destruct (Z.le_gt_cases e 1); [done|]. pose proof (Z.pow_le_mono_r 2 (53 + 1074 + 1) (52 + (e + 1074)) ltac:(lia) ltac:(lia)) as Hle. rewrite (Z.pow_add_r 2 52) in Hle by lia.
    assert (2 ^ 52 * 2 ^ (e + 1074) ≤ Z.pos m * 2 ^ (e + 1074)) by (apply Z.mul_le_mono_nonneg_r; lia). rewrite (Z.pow_add_r 2 (53 + 1074) 1) in Hle by lia. lia. }
  split; [done|]. intros ->. replace (53 + 1074) with (52 + (1 + 1074)) in Hu by lia. rewrite (Z.pow_add_r 2 52) in Hu by lia. apply Z.mul_le_mono_pos_r in Hu; lia.
Qed.

(** The difference has at most 53 digits. *)
Lemma minus_one_representable m e p :
  valid (S754_finite false m e) → -52 ≤ e ≤ 1 → (e = 1 → Z.pos m = 2 ^ 52) → Z.pos p = Z.pos m * 2 ^ (e + 52) - 2 ^ 52 →
  ∃ m0 e0, valid (S754_finite false m0 e0) ∧ Z.pos m0 * 2 ^ (e0 + 1074) = Z.pos p * 2 ^ (-52 + 1074).
Proof.
  intros Hv He H1 Hp. destruct (canonical_bounds _ _ _ Hv) as (_ & D & _). pose proof (digits_bounds m) as [_ Um].
  assert (Z.pos m < 2 ^ 53) as Hm by (pose proof (Z.pow_le_mono_r 2 (Z.pos (digits2_pos m)) 53); lia). destruct (Z.eq_dec e 1) as [->|Hne].
  - rewrite (H1 eq_refl) in Hp. destruct (representable (2 ^ 53 - 1) 0) as (m0 & e0 & V & E); [lia|lia|]. exists m0, e0. split; [done|]. rewrite E, Hp. reflexivity.
  - assert (0 < 2 ^ (e + 52)) as Hpow by lia. assert (2 ^ 52 = 2 ^ (- e) * 2 ^ (e + 52)) as E52 by (rewrite <-Z.pow_add_r by lia; f_equal; lia).
    assert (Z.pos p = (Z.pos m - 2 ^ (- e)) * 2 ^ (e + 52)) as Hp' by lia. assert (0 < 2 ^ (- e)) by lia.
    destruct (representable (Z.pos m - 2 ^ (- e)) e) as (m0 & e0 & V & E); [nia|lia|]. exists m0, e0. split; [done|]. rewrite E, Hp'.
    replace (e + 1074) with ((e + 52) + (-52 + 1074)) by lia. rewrite (Z.pow_add_r 2 (e + 52)) by lia. lia.
Qed.

(** Subtracting one from a number of at least one, up to 2^53, is exact. *)
Lemma sub_one x : valid x → nonneg x → UNIT ≤ scaled x ≤ 2 ^ 53 * UNIT → valid (dsub x one) ∧ nonneg (dsub x one) ∧ scaled (dsub x one) = scaled x - UNIT.
Proof.
  intros Hv Hn Hx. destruct x as [s|s| |s m e]; [exfalso; assert (0 < UNIT) by reflexivity; cbn [scaled] in Hx; lia|done|done|]. simpl in Hn. subst. cbn [scaled cond_Zopp] in *. destruct (unit_exponent m e Hv Hx) as [He H1].
  split; [by apply sub_valid|]. rewrite one_eq. unfold dsub, SFsub. cbn [cond_Zopp]. replace (Z.min e (-52)) with (-52) by lia. rewrite !shl_align_scaled by lia.
  replace (e - -52) with (e + 52) by lia. change (Z.pos (2 ^ 52) * 2 ^ (-52 - -52)) with (2 ^ 52).
  assert (Z.pos m * 2 ^ (e + 1074) - UNIT = (Z.pos m * 2 ^ (e + 52) - 2 ^ 52) * 2 ^ (-52 + 1074)) as Es.
  { unfold UNIT. replace (e + 1074) with ((e + 52) + (-52 + 1074)) by lia. rewrite (Z.pow_add_r 2 (e + 52)) by lia. change (2 ^ 1074) with (2 ^ 52 * 2 ^ (-52 + 1074)). lia. }
  rewrite Es in *. assert (0 ≤ Z.pos m * 2 ^ (e + 52) - 2 ^ 52) as Hpos by (assert (0 < 2 ^ (-52 + 1074)) by lia; nia).
  destruct (Z.pos m * 2 ^ (e + 52) - 2 ^ 52) as [|p|p] eqn:E; [done| |lia]. cbn [binary_normalize].
  destruct (minus_one_representable m e p Hv He H1 (eq_sym E)) as (m0 & e0 & V & E0). rewrite (round_exact false p (-52) m0 e0 V) by (lia || by rewrite E0). done.
Qed.
