(* ===== verification/TokenBucket.v ===== *)
(** * The token bucket

    [src/rate-limiter/RateLimiter_TokenBucket.cpp]: tokens are a [double] that grows with the
    time passed and is cut at the capacity; a request takes one token or is refused, or
    waits.  The clock counts nanoseconds and is an argument.  A step is one critical section:
    a call of [try_acquire], or one round of the loop of [acquire], whose [wait_for] may end
    at any moment. *)
From Stdlib Require Import SpecFloat.
From S2P Require Import Prelude Doubles.
Local Open Scope Z_scope.

Record RateLimiter_TokenBucket := { tokens : double; maxTokens : double; refillRate : double; lastRefillTime : Z }.

Definition TokenBucket_make (capacity rate : double) (now : Z) : RateLimiter_TokenBucket :=
  {| tokens := capacity; maxTokens := capacity; refillRate := rate; lastRefillTime := now |}.

(** [chrono::duration<double>(d).count()] for a duration in nanoseconds. *)
Definition seconds (d : Z) : double := ddiv (of_int d) (of_int 1000000000).

Definition refill (b : RateLimiter_TokenBucket) (now : Z) : RateLimiter_TokenBucket :=
  let seconds_passed := seconds (now - lastRefillTime b) in
  let new_tokens := dmul (refillRate b) seconds_passed in
  if SFleb new_tokens zero then b
  else {| tokens := dmin (maxTokens b) (dadd (tokens b) new_tokens); maxTokens := maxTokens b; refillRate := refillRate b; lastRefillTime := now |}.

Definition take (b : RateLimiter_TokenBucket) : RateLimiter_TokenBucket :=
  {| tokens := dsub (tokens b) one; maxTokens := maxTokens b; refillRate := refillRate b; lastRefillTime := lastRefillTime b |}.

Definition try_acquire (b : RateLimiter_TokenBucket) (now : Z) : RateLimiter_TokenBucket * bool :=
  let b := refill b now in
  if SFleb one (tokens b) then (take b, true) else (b, false).

(** The threads that are inside [acquire], and those that got a token, in order. *)
Record Limiter := { bucket : RateLimiter_TokenBucket; waiting : gset nat; granted : list nat }.

Inductive Request := TryAcquire (t : nat) (now : Z) | Acquire (t : nat) (now : Z).

Definition time_of (r : Request) : Z := match r with TryAcquire _ now | Acquire _ now => now end.

(** A round of [acquire]: the thread returns with a token, or waits and tries again. *)
Definition acquire (l : Limiter) (t : nat) (now : Z) : Limiter :=
  let '(b, got) := try_acquire (bucket l) now in
  if got then {| bucket := b; waiting := waiting l ∖ {[t]}; granted := granted l ++ [t] |}
  else {| bucket := b; waiting := {[t]} ∪ waiting l; granted := granted l |}.

Definition request (l : Limiter) (r : Request) : Limiter :=
  match r with
  | TryAcquire t now => let '(b, got) := try_acquire (bucket l) now in {| bucket := b; waiting := waiting l; granted := if got : bool then granted l ++ [t] else granted l |}
  | Acquire t now => acquire l t now
  end.

Definition requests (l : Limiter) (rs : list Request) : Limiter := fold_left request rs l.

Definition Limiter_make (capacity rate : double) (now : Z) : Limiter := {| bucket := TokenBucket_make capacity rate now; waiting := ∅; granted := [] |}.

(** ** The invariant *)

(** A capacity: not negative, and not so large that tokens are no longer counted. *)
Definition capacity_ok (c : double) : Prop := valid c ∧ nonneg c ∧ scaled c ≤ 2 ^ 53 * UNIT.

Record bucket_ok (c rate : double) (b : RateLimiter_TokenBucket) : Prop := {
  bucket_max : maxTokens b = c;
  bucket_rate : refillRate b = rate;
  bucket_valid : valid (tokens b);
  bucket_nonneg : nonneg (tokens b);
  bucket_le : scaled (tokens b) ≤ scaled c
}.

Lemma leb_zero_false x : SFleb x zero = false → nonneg x ∨ x = S754_infinity false ∨ x = S754_nan.
Proof. destruct x as [s|[]| |[] m e]; simpl; try done; auto. Qed.

(** What is stored is not more than the capacity, also after an overflow. *)
Lemma min_add_ok c t n :
  capacity_ok c → valid t → nonneg t → valid n → SFleb n zero = false →
  valid (dmin c (dadd t n)) ∧ nonneg (dmin c (dadd t n)) ∧ scaled (dmin c (dadd t n)) ≤ scaled c.
Proof.
  intros (Vc & Nc & _) Vt Nt Vn Hn. assert (nonneg (dadd t n) ∨ dadd t n = S754_infinity false ∨ dadd t n = S754_nan) as Hx.
  { destruct (leb_zero_false n Hn) as [Nn|[-> | ->]]; [by apply add_nonneg|right; left|right; right]; destruct t as [[]|[]| |]; simpl in *; done. }
  pose proof (add_valid t n Vt Vn) as Vx. unfold dmin. destruct (SFltb (dadd t n) c) eqn:E; [|done]. destruct Hx as [Nx|[Hx|Hx]].
  - split; [done|]. split; [done|]. unfold SFltb in E. rewrite compare_scaled in E by done. destruct (Z.compare_spec (scaled (dadd t n)) (scaled c)); [done|lia|done].
  - rewrite Hx in E. by destruct c as [[]|[]| |[]].
  - rewrite Hx in E. by destruct c.
Qed.

Lemma seconds_valid d : valid (seconds d).
Proof. apply div_valid; apply of_int_valid. Qed.

Lemma refill_ok c rate b now : capacity_ok c → valid rate → bucket_ok c rate b → bucket_ok c rate (refill b now).
Proof.
  intros Hc Vr [Hm Hr Vt Nt Hle]. unfold refill. destruct (SFleb (dmul (refillRate b) (seconds (now - lastRefillTime b))) zero) eqn:E; [by split|].
  assert (valid (dmul (refillRate b) (seconds (now - lastRefillTime b)))) as Vn by (rewrite Hr; apply mul_valid; [done|apply seconds_valid]).
  rewrite Hm. destruct (min_add_ok c (tokens b) _ Hc Vt Nt Vn E) as (H1 & H2 & H3). split; simpl; done.
Qed.

(** One token is taken exactly. *)
Lemma take_ok c rate b : capacity_ok c → bucket_ok c rate b → SFleb one (tokens b) = true → bucket_ok c rate (take b) ∧ scaled (tokens (take b)) = scaled (tokens b) - UNIT.
Proof.
  intros Hc [Hm Hr Vt Nt Hle] H1. assert (UNIT ≤ scaled (tokens b)) as Hge.
  { unfold SFleb in H1. rewrite compare_scaled in H1 by (done || apply of_int_valid). change (scaled one) with UNIT in H1. destruct (Z.compare_spec UNIT (scaled (tokens b))); [lia|lia|done]. }
  destruct (sub_one (tokens b) Vt Nt) as (V & N & E); [destruct Hc as (_ & _ & Hc); lia|]. split; [|done]. split; simpl; [done|done|done|done|]. rewrite E. unfold UNIT. lia.
Qed.

Lemma refused_ok c rate b : bucket_ok c rate b → SFleb one (tokens b) = false → scaled (tokens b) < UNIT.
Proof.
  intros [_ _ Vt Nt _] H1. unfold SFleb in H1. rewrite compare_scaled in H1 by (done || apply of_int_valid). change (scaled one) with UNIT in H1.
  destruct (Z.compare_spec UNIT (scaled (tokens b))); [done|done|lia].
Qed.

Lemma try_acquire_ok c rate b now : capacity_ok c → valid rate → bucket_ok c rate b → bucket_ok c rate (try_acquire b now).1.
Proof.
  intros Hc Vr Hb. unfold try_acquire. pose proof (refill_ok c rate b now Hc Vr Hb) as Hb'. destruct (SFleb one (tokens (refill b now))) eqn:E; [|done]. by apply (take_ok c rate).
Qed.

Lemma request_bucket l r : bucket (request l r) = (try_acquire (bucket l) (time_of r)).1.
Proof. destruct r as [t now|t now]; simpl; unfold acquire; destruct (try_acquire (bucket l) now) as [b []]; done. Qed.

Lemma requests_ok c rate l rs : capacity_ok c → valid rate → bucket_ok c rate (bucket l) → bucket_ok c rate (bucket (requests l rs)).
Proof.
  intros Hc Vr. revert l. induction rs as [|r rs IH]; intros l Hb; [done|]. apply IH. rewrite request_bucket. by apply try_acquire_ok.
Qed.

(** ** Requests at one moment *)

Definition finite (x : double) : Prop := match x with S754_zero _ | S754_finite _ _ _ => True | _ => False end.

(** No time, no tokens. *)
Lemma refill_now b now : finite (refillRate b) → lastRefillTime b = now → refill b now = b.
Proof.
  intros Hf <-. unfold refill. rewrite Z.sub_diag. change (seconds 0) with (S754_zero false).
  destruct (refillRate b) as [[]|s| |s m e]; [done|done|done|done|]. unfold dmul, SFmul. by destruct s.
Qed.

Lemma refill_twice b now : finite (refillRate b) → refill (refill b now) now = refill b now.
Proof.
  intros Hf. destruct (SFleb (dmul (refillRate b) (seconds (now - lastRefillTime b))) zero) eqn:E.
  - assert (refill b now = b) as -> by (unfold refill; by rewrite E). unfold refill. by rewrite E.
  - apply refill_now; unfold refill; by rewrite E.
Qed.

(** Taking a token does not change what a refill adds. *)
Lemma refill_take b now : finite (refillRate b) → refill (take (refill b now)) now = take (refill b now).
Proof.
  intros Hf. destruct (SFleb (dmul (refillRate b) (seconds (now - lastRefillTime b))) zero) eqn:E.
  - assert (refill b now = b) as -> by (unfold refill; by rewrite E). unfold refill. simpl. by rewrite E.
  - apply refill_now; unfold refill, take; by rewrite E.
Qed.

(** The tokens there are, as a number. *)
Definition whole (b : RateLimiter_TokenBucket) : Z := scaled (tokens b) / UNIT.

Lemma burst c rate l rs now :
  capacity_ok c → valid rate → finite rate → bucket_ok c rate (bucket l) → Forall (λ r, time_of r = now) rs →
  length (granted (requests l rs)) = (length (granted l) + Nat.min (length rs) (Z.to_nat (whole (refill (bucket l) now))))%nat.
Proof.
  intros Hc Vr Hf. revert l. induction rs as [|r rs IH]; intros l Hb Hrs; [simpl; lia|]. apply Forall_cons in Hrs as [Hr Hrs].
  pose proof (refill_ok c rate (bucket l) now Hc Vr Hb) as Hb'. assert (0 < UNIT) as HU by reflexivity. pose proof (bucket_nonneg _ _ _ Hb') as Hnn. apply scaled_nonneg in Hnn.
  assert (finite (refillRate (bucket l))) as Hf' by (by rewrite (bucket_rate _ _ _ Hb)).
  change (requests l (r :: rs)) with (requests (request l r) rs). rewrite IH by (done || (rewrite request_bucket; by apply try_acquire_ok)). rewrite request_bucket, Hr.
  assert (length (granted (request l r)) = length (granted l) + if (try_acquire (bucket l) now).2 then 1 else 0)%nat as ->.
  { subst now. destruct r as [t now|t now]; simpl; unfold acquire; destruct (try_acquire (bucket l) now) as [b []]; simpl; rewrite ?length_app; simpl; lia. }
  unfold try_acquire. destruct (SFleb one (tokens (refill (bucket l) now))) eqn:E; simpl.
  - rewrite refill_take by done. destruct (take_ok c rate _ Hc Hb' E) as [Hb2 E2]. pose proof (bucket_nonneg _ _ _ Hb2) as Hn2. apply scaled_nonneg in Hn2.
    assert (UNIT ≤ scaled (tokens (refill (bucket l) now))) as Hge by (rewrite E2 in Hn2; lia).
    unfold whole. rewrite E2. replace (scaled (tokens (refill (bucket l) now)) - UNIT) with (scaled (tokens (refill (bucket l) now)) + (-1) * UNIT) by lia. rewrite Z.div_add by lia.
    assert (1 ≤ scaled (tokens (refill (bucket l) now)) / UNIT) by (apply Z.div_le_lower_bound; [done|by rewrite Z.mul_1_r]).
    generalize dependent (scaled (tokens (refill (bucket l) now)) / UNIT). intros q Hq. clear -Hq. destruct (Z.to_nat q) eqn:Eq; lia.
  - rewrite refill_twice by done. pose proof (refused_ok c rate _ Hb' E). unfold whole. rewrite Z.div_small by lia. simpl. lia.
Qed.

(** C23: the token bucket.  For a capacity from 0 to 2^53 and any rate, whatever the requests,
    their threads and the clock: the tokens are always a number from 0 to the capacity.  And
    for a finite rate, of any number of requests at one moment exactly as many are granted as
    there are whole tokens then, which is at most the capacity: no rounding creates a token. *)
Theorem token_bucket_bounded c rate start rs now rs' :
  capacity_ok c → valid rate → Forall (λ r, time_of r = now) rs' →
  let l := requests (Limiter_make c rate start) rs in
  bucket_ok c rate (bucket l) ∧
  (finite rate →
    length (granted (requests l rs')) = (length (granted l) + Nat.min (length rs') (Z.to_nat (whole (refill (bucket l) now))))%nat ∧
    0 ≤ whole (refill (bucket l) now) ≤ scaled c / UNIT).
Proof.
  intros Hc Vr Hrs' l. assert (bucket_ok c rate (bucket l)) as Hb.
  { apply requests_ok; [done|done|]. destruct Hc as (Vc & Nc & _). split; simpl; done. }
  split; [done|]. intros Hf. split; [by apply (burst c rate)|]. pose proof (refill_ok c rate (bucket l) now Hc Vr Hb) as [_ _ _ Nt Hle]. apply scaled_nonneg in Nt.
  split; [apply Z.div_pos; [done|reflexivity]|]. apply Z.div_le_mono; [reflexivity|done].
Qed.

(** Five tokens, two a second: seven requests at once, of which five are granted, and four
    requests three quarters of a second later, of which one is. *)
Lemma token_bucket_bounded_witness :
  length (granted (requests (Limiter_make (of_int 5) (of_int 2) 0) (replicate 7 (Acquire 1 0) ++ replicate 4 (TryAcquire 2 750000000)))) = 6%nat.
Proof.
  destruct (token_bucket_bounded (of_int 5) (of_int 2) 0 (replicate 7 (Acquire 1 0)) 750000000 (replicate 4 (TryAcquire 2 750000000))) as [_ H].
  - split; [apply of_int_valid|]. split; [reflexivity|]. vm_compute. discriminate.
  - apply of_int_valid.
  - repeat constructor.
  - destruct (H I) as [E _]. unfold requests in *. rewrite fold_left_app, E. vm_compute. reflexivity.
Defined.
