(* ===== verification/DataRace.v ===== *)
(** * The counter without a lock

    [src/concurrency/debug_thread.cpp]: two threads increment a plain [int] a number of times
    each.  The increment is a load and a store, and the accesses of the threads interleave in
    any order, one at a time.  (The language leaves such a race undefined; this is what the
    machine's accesses allow.)  [counter++] is [int] arithmetic, undefined on overflow. *)
From S2P Require Import Prelude.
Local Open Scope Z_scope.

(** A thread in [worker]: the rounds it has finished and, in the middle of a round, the value
    it has loaded. *)
Record Racer := { i : nat; loaded : option Z }.

Record Race := { counter : Z; t1 : Racer; t2 : Racer }.

Definition Race_make : Race := {| counter := 0; t1 := {| i := 0; loaded := None |}; t2 := {| i := 0; loaded := None |} |}.

(** The next access of a thread. *)
Definition worker (N : nat) (c : Z) (w : Racer) : option (Z * Racer) :=
  if Nat.ltb (i w) N then
    match loaded w with
    | None => Some (c, {| i := i w; loaded := Some c |})
    | Some o => o' ← checked (o + 1); Some (o', {| i := S (i w); loaded := None |})
    end
  else Some (c, w).

Definition step (N : nat) (r : Race) (first : bool) : option Race :=
  if first
  then '(c, w) ← worker N (counter r) (t1 r); Some {| counter := c; t1 := w; t2 := t2 r |}
  else '(c, w) ← worker N (counter r) (t2 r); Some {| counter := c; t1 := t1 r; t2 := w |}.

(** The rounds of [worker] in the program. *)
Definition ROUNDS : nat := Z.to_nat 100000.

(** Both threads have been joined, and [main] prints the counter. *)
Definition joined (N : nat) (r : Race) : Prop := i (t1 r) = N ∧ i (t2 r) = N.

(** ** What the accesses keep *)

Definition racer_ok (N : nat) (total : Z) (w : Racer) : Prop :=
  (i w ≤ N)%nat ∧ ∀ o, loaded w = Some o → (i w < N)%nat ∧ 0 ≤ o ≤ total ∧ ((1 ≤ i w)%nat → 1 ≤ o).

(** The counter is at most the number of stores; it is not 0 after a store, and not 1 when
    both threads have stored twice, since the second store of a thread is of a value it
    loaded after its first. *)
Record race_ok (N : nat) (r : Race) : Prop := {
  race_counter : 0 ≤ counter r ≤ Z.of_nat (i (t1 r) + i (t2 r));
  race_t1 : racer_ok N (Z.of_nat (i (t1 r) + i (t2 r))) (t1 r);
  race_t2 : racer_ok N (Z.of_nat (i (t1 r) + i (t2 r))) (t2 r);
  race_one : (1 ≤ i (t1 r) + i (t2 r))%nat → 1 ≤ counter r;
  race_two : (2 ≤ i (t1 r))%nat → (2 ≤ i (t2 r))%nat → 2 ≤ counter r
}.

Lemma make_ok N : race_ok N Race_make.
Proof. split; simpl; try lia; split; simpl; try lia; done. Qed.

(** A thread's access, seen by that thread and by the other. *)
Lemma worker_ok N c w other :
  2 * Z.of_nat N ≤ INT_MAX → (i other ≤ N)%nat → 0 ≤ c ≤ Z.of_nat (i w + i other) → ((1 ≤ i w + i other)%nat → 1 ≤ c) →
  ((2 ≤ i w)%nat → (2 ≤ i other)%nat → 2 ≤ c) →
  racer_ok N (Z.of_nat (i w + i other)) w →
  ∃ c' w', worker N c w = Some (c', w') ∧ (i w ≤ i w')%nat ∧ 0 ≤ c' ≤ Z.of_nat (i w' + i other) ∧ ((1 ≤ i w' + i other)%nat → 1 ≤ c') ∧
    ((2 ≤ i w')%nat → (2 ≤ i other)%nat → 2 ≤ c') ∧ racer_ok N (Z.of_nat (i w' + i other)) w'.
Proof.
  intros HN Ho Hc H1 H2 Hw. pose proof Hw as [Hi Hl]. unfold worker. destruct (Nat.ltb_spec (i w) N) as [Hlt|_]; [|exists c, w; repeat (split; [first [done|lia|apply Hc]|]); exact Hl].
  destruct (loaded w) as [o|] eqn:E.
  - destruct (Hl o eq_refl) as (_ & Ho' & Ho1). rewrite checked_ok by int_bounds. exists (o + 1), {| i := S (i w); loaded := None |}.
    split; [done|]. simpl. split_and!; [lia..|]. split; simpl; [lia|done].
  - exists c, {| i := i w; loaded := Some c |}. split; [done|]. simpl. split_and!; [lia|lia|lia|lia|lia|]. split; simpl; [lia|].
    intros o [= <-]. split_and!; [lia..|]. intros. apply H1. lia.
Qed.

Lemma racer_mono N total total' w : total ≤ total' → racer_ok N total w → racer_ok N total' w.
Proof. intros Ht [Hi Hl]. split; [done|]. intros o Ho. destruct (Hl o Ho) as (? & ? & ?). split_and!; [done|lia|lia|done]. Qed.

Lemma race_step_ok N r first : 2 * Z.of_nat N ≤ INT_MAX → race_ok N r → ∃ r', step N r first = Some r' ∧ race_ok N r'.
Proof.
  intros HN [Hc R1 R2 H1 H2]. unfold step. destruct first.
  - destruct (worker_ok N (counter r) (t1 r) (t2 r)) as (c & w & -> & Hi & ?); [done|apply R2|done..|]. eexists. split; [done|]. destruct_and!.
    split; simpl; try done. apply (racer_mono N (Z.of_nat (i (t1 r) + i (t2 r)))); [lia|done].
  - rewrite Nat.add_comm in Hc, R2, H1. destruct (worker_ok N (counter r) (t2 r) (t1 r)) as (c & w & -> & Hi & ?); [done|apply R1|done|done|auto|done|]. eexists. split; [done|]. destruct_and!.
    split; simpl; rewrite ?(Nat.add_comm (i (t1 r))); try done; [|auto]. apply (racer_mono N (Z.of_nat (i (t1 r) + i (t2 r)))); [lia|done].
Qed.

(** ** Schedules *)

Section schedules.
Context (N : nat).

Lemma load1 c a w : (a < N)%nat → step N {| counter := c; t1 := {| i := a; loaded := None |}; t2 := w |} true = Some {| counter := c; t1 := {| i := a; loaded := Some c |}; t2 := w |}.
Proof. intros Ha. unfold step, worker. simpl. by rewrite (proj2 (Nat.ltb_lt a N) Ha). Qed.

Lemma load2 c a w : (a < N)%nat → step N {| counter := c; t1 := w; t2 := {| i := a; loaded := None |} |} false = Some {| counter := c; t1 := w; t2 := {| i := a; loaded := Some c |} |}.
Proof. intros Ha. unfold step, worker. simpl. by rewrite (proj2 (Nat.ltb_lt a N) Ha). Qed.

Lemma store1 c a o w : (a < N)%nat → 0 ≤ o < INT_MAX → step N {| counter := c; t1 := {| i := a; loaded := Some o |}; t2 := w |} true = Some {| counter := o + 1; t1 := {| i := S a; loaded := None |}; t2 := w |}.
Proof. intros Ha Ho. unfold step, worker. simpl. by rewrite (proj2 (Nat.ltb_lt a N) Ha), checked_ok by int_bounds. Qed.

Lemma store2 c a o w : (a < N)%nat → 0 ≤ o < INT_MAX → step N {| counter := c; t1 := w; t2 := {| i := a; loaded := Some o |} |} false = Some {| counter := o + 1; t1 := w; t2 := {| i := S a; loaded := None |} |}.
Proof. intros Ha Ho. unfold step, worker. simpl. by rewrite (proj2 (Nat.ltb_lt a N) Ha), checked_ok by int_bounds. Qed.

(** A thread that runs [k] rounds alone. *)
Fixpoint solo (k : nat) (first : bool) : list bool := match k with O => [] | S k => first :: first :: solo k first end.

Lemma solo1 k c a w : (a + k ≤ N)%nat → 0 ≤ c → c + Z.of_nat k ≤ INT_MAX →
  run_ops (step N) {| counter := c; t1 := {| i := a; loaded := None |}; t2 := w |} (solo k true) = Some {| counter := c + Z.of_nat k; t1 := {| i := a + k; loaded := None |}; t2 := w |}.
Proof.
  revert c a. induction k as [|k IH]; intros c a Ha Hc Hk; cbn [solo run_ops]; [by rewrite Z.add_0_r, Nat.add_0_r|].
  rewrite load1 by lia. cbn [mbind option_bind]. rewrite store1 by lia. cbn [mbind option_bind]. rewrite IH by lia. f_equal. f_equal; [lia|f_equal; lia].
Qed.

Lemma solo2 k c a w : (a + k ≤ N)%nat → 0 ≤ c → c + Z.of_nat k ≤ INT_MAX →
  run_ops (step N) {| counter := c; t1 := w; t2 := {| i := a; loaded := None |} |} (solo k false) = Some {| counter := c + Z.of_nat k; t1 := w; t2 := {| i := a + k; loaded := None |} |}.
Proof.
  revert c a. induction k as [|k IH]; intros c a Ha Hc Hk; cbn [solo run_ops]; [by rewrite Z.add_0_r, Nat.add_0_r|].
  rewrite load2 by lia. cbn [mbind option_bind]. rewrite store2 by lia. cbn [mbind option_bind]. rewrite IH by lia. f_equal. f_equal; [lia|f_equal; lia].
Qed.

(** The threads run [a] and [b] rounds; the first then loads and sleeps until the second has
    one round left; its store hides those rounds.  The second loads that store and sleeps
    until the first is done; its last store hides the rest. *)
Definition lossy (a b : nat) : list bool :=
  solo a true ++ solo b false ++ [true] ++ solo (N - 1 - b) false ++ [true; false] ++ solo (N - 1 - a) true ++ [false].

(** All but the last rounds one after the other, and the last ones together. *)
Definition lossless (last : list bool) : list bool := solo (N - 1) true ++ solo (N - 1) false ++ last.

Ltac race_run :=
  repeat first [rewrite run_ops_app | rewrite solo1 by lia | rewrite solo2 by lia | progress cbn [run_ops mbind option_bind app]
               | rewrite load1 by lia | rewrite load2 by lia | rewrite store1 by lia | rewrite store2 by lia].

Lemma lossy_run a b : (2 ≤ N)%nat → 2 * Z.of_nat N ≤ INT_MAX → (a + 2 ≤ N)%nat → (b + 2 ≤ N)%nat →
  run_ops (step N) Race_make (lossy a b) = Some {| counter := Z.of_nat (a + b + 2); t1 := {| i := N; loaded := None |}; t2 := {| i := N; loaded := None |} |}.
Proof. intros HN HM Ha Hb. unfold lossy, Race_make. race_run. f_equal. f_equal; [lia|f_equal; lia|f_equal; lia]. Qed.

Lemma lossless_run last : (2 ≤ N)%nat → 2 * Z.of_nat N ≤ INT_MAX →
  run_ops (step N) Race_make (lossless last) = run_ops (step N) {| counter := 2 * Z.of_nat N - 2; t1 := {| i := N - 1; loaded := None |}; t2 := {| i := N - 1; loaded := None |} |} last.
Proof. intros HN HM. unfold lossless, Race_make. race_run. f_equal. f_equal; lia. Qed.

Lemma reach v : (2 ≤ N)%nat → 2 * Z.of_nat N ≤ INT_MAX → 2 ≤ v ≤ 2 * Z.of_nat N →
  ∃ schedule r, run_ops (step N) Race_make schedule = Some r ∧ joined N r ∧ counter r = v.
Proof.
  intros HN HM Hv. destruct (decide (v ≤ 2 * Z.of_nat N - 2)) as [Hs|Hs].
  - pose (a := (Z.to_nat (v - 2) `min` (N - 2))%nat). eexists (lossy a (Z.to_nat (v - 2) - a)), _. rewrite lossy_run by lia. split; [done|]. split; [done|]. simpl. lia.
  - destruct (decide (v = 2 * Z.of_nat N)) as [-> |Hv'].
    + eexists (lossless (solo 1 true ++ solo 1 false)), _. rewrite lossless_run by done. race_run. split; [done|]. split; [split; simpl; lia|simpl; lia].
    + eexists (lossless [true; false; true; false]), _. rewrite lossless_run by done. race_run. split; [done|]. split; [split; simpl; lia|simpl; lia].
Qed.
End schedules.

(** C40: the counter without a lock.  For [N] rounds a thread (100000 in the program; at least
    two, and few enough for an [int]) every interleaving runs without an overflow, and what is
    printed when both threads are done is from 2 to [2 * N]: increments can be lost, but not
    all of them.  And each of these values is printed by some interleaving. *)
Theorem race_outcomes N v :
  (2 ≤ N)%nat → 2 * Z.of_nat N ≤ INT_MAX →
  (∀ schedule, ∃ r, run_ops (step N) Race_make schedule = Some r ∧ (joined N r → 2 ≤ counter r ≤ 2 * Z.of_nat N)) ∧
  (2 ≤ v ≤ 2 * Z.of_nat N ↔ ∃ schedule r, run_ops (step N) Race_make schedule = Some r ∧ joined N r ∧ counter r = v).
Proof.
  intros HN HM. assert (∀ schedule, ∃ r, run_ops (step N) Race_make schedule = Some r ∧ (joined N r → 2 ≤ counter r ≤ 2 * Z.of_nat N)) as Hall.
  { intros schedule. destruct (run_ops_invariant (step N) (race_ok N) Race_make schedule) as (r & Hr & Hok); [intros r first; by apply race_step_ok|apply make_ok|].
    exists r. split; [done|]. intros [E1 E2]. destruct Hok as [Hc _ _ _ H2]. split; [apply H2; lia|lia]. }
  split; [done|]. split; [by apply reach|]. intros (schedule & r & Hr & Hj & <-). destruct (Hall schedule) as (r' & Hr' & H). rewrite Hr in Hr'. injection Hr' as <-. auto.
Qed.

(** Of 200000 increments, two are left. *)
Lemma race_outcomes_witness : ∃ schedule r, run_ops (step ROUNDS) Race_make schedule = Some r ∧ joined ROUNDS r ∧ counter r = 2.
Proof.
  destruct (race_outcomes ROUNDS 2) as [_ H]; [unfold ROUNDS; lia|unfold ROUNDS, INT_MAX; lia|]. apply H. unfold ROUNDS. lia.
Defined.

Example race_demo : (λ r, (counter r, i (t1 r), i (t2 r))) <$> run_ops (step 3) Race_make (lossy 3 0 0) = Some (2, 3%nat, 3%nat).
Proof. vm_compute. reflexivity. Qed.
