(* ===== verification/LargeFiles.v ===== *)
(** * Writing and reading a large file

    [src/large-scale-processing/create_large_log_file.cpp] writes numbered lines to a file and
    [src/large-scale-processing/read_from_500GB_file.cpp] prints a file that it reads in
    chunks.  A file is the list of its bytes.  How many bytes a call of [read] gives, and
    whether it fails, is decided by the system: an argument. *)
From Stdlib Require Import Ascii DecimalString DecimalFacts DecimalPos.
From S2P Require Import Prelude Streams ExternalSort TextTools.
Local Open Scope nat_scope.

(** ** The log *)

(** ['a' + (i + j) % 26] *)
Definition letter (i : Z) (j : nat) : ascii := ascii_of_N (Z.to_N (97 + Z.rem (i + Z.of_nat j) 26)).

(** A line without its newline. *)
Definition log_text (i : Z) : string := show_int i +:+ String " " (String.string_of_list_ascii (letter i <$> seq 0 20)).

Definition log_line (i : nat) : list ascii := String.list_ascii_of_string (log_text (Z.of_nat i)).

(** The loop over the lines; [fp] is what has been written. *)
Fixpoint write_lines (i count : nat) (fp : list ascii) : list ascii :=
  match count with O => fp | S count => write_lines (S i) count (fp ++ log_line i ++ [nl]) end.

(** The contents of [huge.txt]; writing to a file that could not be opened is undefined. *)
Definition create_log (opened : bool) (count : nat) : option (list ascii) := if opened then Some (write_lines 0 count []) else None.

Definition LOG_LINES : nat := Z.to_nat 10000000.

(** ** The reader *)

Section reader.
Context (CHUNK_SIZE : nat).

(** [read]: at the end of the file nothing, before it at least a byte and at most as many as
    asked for, or a failure. *)
Definition read (answer : option nat) (file : list ascii) (pos : nat) : option (list ascii) :=
  k ← answer; Some (take (1 `max` (k `min` CHUNK_SIZE)) (drop pos file)).

(** The loop, with the answers of the system to the calls from number [call] on. *)
Fixpoint read_loop (fuel : nat) (answers : nat → option nat) (call : nat) (file : list ascii) (pos : nat) : option (list ascii) :=
  match read (answers call) file pos with
  | None | Some [] => Some []
  | Some buffer =>
      match fuel with
      | O => None
      | S fuel => rest ← read_loop fuel answers (S call) file (pos + length buffer); Some (buffer ++ rest)
      end
  end.

(** [main]: the exit status and what is printed. *)
Definition read_file (argc : Z) (fs : gmap string (list ascii)) (name : string) (answers : nat → option nat) : option (Z * list ascii) :=
  if (argc =? 2)%Z then
    match fs !! name with
    | None => Some ((-1)%Z, [])
    | Some file => out ← read_loop (length file) answers 0 file 0; Some (0%Z, out)
    end
  else Some ((-1)%Z, []).

Lemma take_length_take {A} (l l' : list A) m : take m l = l' → l' = take (length l') l.
Proof. intros <-. rewrite length_take. destruct (decide (m ≤ length l)); [by rewrite Nat.min_l|]. rewrite Nat.min_r by lia. by rewrite !take_ge by lia. Qed.

(** However the system cuts the file, what is printed is the file, up to the first failure. *)
Lemma reader_loop_spec fuel answers call file pos :
  0 < CHUNK_SIZE → length file - pos ≤ fuel →
  ∃ n, read_loop fuel answers call file pos = Some (take n (drop pos file)) ∧ ((∀ c, answers c ≠ None) → length file - pos ≤ n).
Proof.
  intros HC. revert call pos. induction fuel as [|fuel IH]; intros call pos Hf; cbn [read_loop]; unfold read; destruct (answers call) as [k|] eqn:Ea; cbn [mbind option_bind].
  - rewrite drop_ge by lia. rewrite take_nil. exists 0. split; [done|lia].
  - exists 0. split; [done|lia].
  - destruct (take (1 `max` (k `min` CHUNK_SIZE)) (drop pos file)) as [|b buffer] eqn:E.
    { exists 0. split; [done|]. assert (length (drop pos file) = 0) as Hl; [|rewrite length_drop in Hl; lia].
      destruct (drop pos file); [done|]. destruct (1 `max` (k `min` CHUNK_SIZE)) eqn:Em; [lia|done]. }
    assert (length (b :: buffer) = (1 `max` (k `min` CHUNK_SIZE)) `min` (length file - pos)) as Hl by (rewrite <-E, length_take, length_drop; lia).
    destruct (IH (S call) (pos + length (b :: buffer))) as (n & -> & Hn); [simpl in Hl; simpl; lia|]. cbn [mbind option_bind].
    exists (length (b :: buffer) + n). split.
    + f_equal. rewrite <-drop_drop, <-(take_take_drop _ (length (b :: buffer))). f_equal. by apply take_length_take in E.
    + intros H. specialize (Hn H). lia.
  - exists 0. split; [done|]. intros H. by destruct (H call).
Qed.

Lemma read_file_spec fs name file answers :
  0 < CHUNK_SIZE → fs !! name = Some file →
  ∃ n, read_file 2 fs name answers = Some (0%Z, take n file) ∧ ((∀ c, answers c ≠ None) → read_file 2 fs name answers = Some (0%Z, file)).
Proof.
  intros HC Hf. unfold read_file. simpl. rewrite Hf. destruct (reader_loop_spec (length file) answers 0 file 0) as (n & -> & Hn); [done|lia|]. cbn [mbind option_bind].
  rewrite drop_0. exists n. split; [done|]. intros H. rewrite take_ge; [done|]. specialize (Hn H). lia.
Qed.
End reader.

Definition CHUNK_SIZE : nat := Z.to_nat (64 * 1024).

(** ** Both programs *)

Lemma letter_not_nl i j : (0 ≤ i)%Z → letter i j ≠ nl.
Proof.
  unfold letter. intros Hi E. pose proof (Z.rem_bound_pos (i + Z.of_nat j) 26). apply (f_equal N_of_ascii) in E. rewrite N_ascii_embedding in E by lia.
  change (N_of_ascii nl) with 10%N in E. lia.
Qed.

Lemma digits_not_nl u : nl ∉ String.list_ascii_of_string (NilEmpty.string_of_uint u).
Proof. induction u; simpl; rewrite ?elem_of_cons, ?elem_of_nil; [tauto|intros [E|?]; [by vm_compute in E|done]..]. Qed.

Lemma bytes_app s t : String.list_ascii_of_string (s +:+ t) = String.list_ascii_of_string s ++ String.list_ascii_of_string t.
Proof. induction s as [|c s IH]; simpl; [done|]. by rewrite IH. Qed.

Lemma show_nat_digits i : nl ∉ String.list_ascii_of_string (show_int (Z.of_nat i)).
Proof.
  unfold show_int. destruct i as [|i]; [apply (bool_decide_unpack _); vm_compute; exact I|]. simpl.
  destruct (Pos.to_uint (Pos.of_succ_nat i)) eqn:E; [exfalso; by apply (Unsigned.to_uint_nonnil (Pos.of_succ_nat i))|rewrite string_of_uint_nilzero by done; apply digits_not_nl..].
Qed.

Lemma log_line_no_nl i : nl ∉ log_line i.
Proof.
  unfold log_line, log_text. rewrite bytes_app, elem_of_app. cbn [String.list_ascii_of_string]. rewrite elem_of_cons, String.list_ascii_of_string_of_list_ascii.
  intros [H|[H|H]]; [by apply show_nat_digits in H|by vm_compute in H|]. apply list_elem_of_fmap in H as (j & E & _). symmetry in E. revert E. apply letter_not_nl. lia.
Qed.

Lemma write_lines_bytes i count fp : write_lines i count fp = fp ++ line_bytes (log_line <$> seq i count).
Proof.
  revert i fp. induction count as [|count IH]; intros i fp; cbn [write_lines]; [symmetry; apply app_nil_r|]. rewrite IH. unfold line_bytes. cbn [seq fmap list_fmap mbind list_bind].
  by rewrite <-!(assoc_L (++)).
Qed.

(** The number at the start of a line can be read back. *)
Lemma log_line_number i : int_ok (Z.of_nat i) → ∃ rest, read_int (log_text (Z.of_nat i)) = Some (Z.of_nat i, rest).
Proof. intros Hi. eexists. unfold log_text. apply read_show_int; [lia|done|done]. Qed.

(** The log of [count] lines is the lines 0, 1, ..., none of which has a newline in it.
    However the system cuts it into reads of at most a chunk, the reader prints the log; if a
    read fails it prints a part of it from the start and still reports success.  [tail] of
    the log prints its last lines. *)
Theorem log_read_back count answers fs B n :
  fs !! "huge.txt"%string = create_log true count → 0 < B →
  ∃ file, create_log true count = Some file ∧ file = line_bytes (log_line <$> seq 0 count) ∧
  (∃ k, read_file CHUNK_SIZE 2 fs "huge.txt" answers = Some (0%Z, take k file)) ∧
  ((∀ c, answers c ≠ None) → read_file CHUNK_SIZE 2 fs "huge.txt" answers = Some (0%Z, file)) ∧
  my_tail_command B n file = Some (line_bytes (log_line <$> seq (count - n) (count - (count - n)))).
Proof.
  intros Hf HB. cbn [create_log] in *. eexists. split; [done|]. rewrite write_lines_bytes in *. simpl app in *. split; [done|].
  assert (0 < CHUNK_SIZE) as HC by (unfold CHUNK_SIZE; lia). destruct (read_file_spec CHUNK_SIZE fs "huge.txt" _ answers HC Hf) as (k & H1 & H2). split; [by exists k|]. split; [done|].
  rewrite tail_command_spec by done. rewrite until_lines by (apply Forall_fmap, Forall_forall; intros i _; apply log_line_no_nl). rewrite length_fmap, length_seq, <-fmap_drop. by rewrite drop_seq.
Qed.

(** Three lines, read four bytes at a time; the last line. *)
Lemma log_read_back_witness :
  (∃ file, read_file CHUNK_SIZE 2 {["huge.txt"%string := write_lines 0 3 []]} "huge.txt" (λ _, Some 4) = Some (0%Z, file) ∧ my_tail_command 16 1 file = Some (line_bytes [log_line 2])).
Proof.
  destruct (log_read_back 3 (λ _, Some 4) {["huge.txt"%string := write_lines 0 3 []]} 16 1) as (file & E & _ & _ & H & Ht); [apply lookup_singleton_eq|lia|].
  exists file. split; [by apply H|exact Ht].
Defined.

Example log_demo : log_text 7 = "7 hijklmnopqrstuvwxyza"%string.
Proof. vm_compute. reflexivity. Qed.

(** A failed read looks like the end of the file. *)
Example read_failure_unnoticed : read_file 4 2 {["f"%string := String.list_ascii_of_string "abcdefgh"]} "f" (λ call, if call =? 1 then None else Some 4) = Some (0%Z, String.list_ascii_of_string "abcd").
Proof. vm_compute. reflexivity. Qed.
