(* ===== verification/Demonstrations.v ===== *)
(** * Programs as they run

    The [main] of four of the sequential programs, with everything that is printed, and the
    output that the comments of the sources record; for two caches, the answers and states
    of their [main].  What the operations do is in the files of the components; here are the
    functions that print their state. *)
From S2P Require Import Prelude Streams SnapshotManager IndexedList PriorityCache MVCC ProcessManager LRU MultiTierCache LFU.
Local Open Scope string_scope.

Definition lines_of (ls : list string) : string := String.concat newline (ls ++ [""]).

(** ** Versions of a row: [src/storage/MVCCvisibility.cpp] *)

Module Rows.

(** [write] and what it prints. *)
Definition write (row : list RowVersion) (value : string) (txnTimestamp : Z) : list RowVersion * string :=
  (MVCC.write row value txnTimestamp, "TXN at : " +:+ show_int txnTimestamp +:+ " wrote value : " +:+ value +:+ newline).

Definition print_version (v : RowVersion) : string :=
  "[value=" +:+ MVCC.value v +:+ ", beginTimestamp=" +:+ show_int (beginTimestamp v) +:+ ", endTimestamp=" +:+
  (if (endTimestamp v =? INT_MAX)%Z then "INF" else show_int (endTimestamp v)) +:+ "]" +:+ newline.

Definition print_versions (row : list RowVersion) : string :=
  "--------Version Table--------" +:+ newline +:+ String.concat "" (print_version <$> row).

Fixpoint writes (row : list RowVersion) (ws : list (string * Z)) : list RowVersion * string :=
  match ws with
  | [] => (row, "")
  | (v, ts) :: ws => let '(row, out) := write row v ts in let '(row, out') := writes row ws in (row, out +:+ out')
  end.

Definition main : option string :=
  let '(row, out) := writes [] [("Alice", 1%Z); ("Bob", 5%Z); ("Charlie", 10%Z); ("David", 15%Z); ("Eric", 20%Z)] in
  reads ← mapM (λ ts, v ← MVCC.read row ts; Some ("Value Read @ Timestamp " +:+ show_int ts +:+ " : " +:+ v +:+ newline)) [2; 7; 12; 20; 24]%Z;
  Some (out +:+ print_versions row +:+ String.concat "" reads).

Example mvcc_main_output :
  main = Some (lines_of
    ["TXN at : 1 wrote value : Alice"; "TXN at : 5 wrote value : Bob"; "TXN at : 10 wrote value : Charlie"; "TXN at : 15 wrote value : David"; "TXN at : 20 wrote value : Eric";
     "--------Version Table--------"; "[value=Alice, beginTimestamp=1, endTimestamp=5]"; "[value=Bob, beginTimestamp=5, endTimestamp=10]";
     "[value=Charlie, beginTimestamp=10, endTimestamp=15]"; "[value=David, beginTimestamp=15, endTimestamp=20]"; "[value=Eric, beginTimestamp=20, endTimestamp=INF]";
     "Value Read @ Timestamp 2 : Alice"; "Value Read @ Timestamp 7 : Bob"; "Value Read @ Timestamp 12 : Charlie"; "Value Read @ Timestamp 20 : Eric"; "Value Read @ Timestamp 24 : Eric"]).
Proof. vm_compute. reflexivity. Qed.
End Rows.

(** ** Processes: [src/storage/ProcessManager_structure.cpp] *)

Module Processes.

(** A line of [printTree]. *)
Definition print_line (line : nat * Z) : string :=
  let '(depth, id) := line in
  String.concat "" (replicate depth " ") +:+ (if (0 <? depth)%nat then "|- " else "") +:+ "PID = " +:+ show_int id +:+ newline.

Definition print_tree (s : ProcessManager) (root : option nat) : option string :=
  lines ← printTree (ProcessManager.next_addr s) s root 0; Some (String.concat "" (print_line <$> lines)).

Definition main : option string :=
  s ← pm_run ProcessManager_make
        [Add 1 0; Add 2 1; Add 3 1; Add 4 2; Add 5 2; UpdateState 2 RUNNING; UpdateCpuTime 2 500; UpdateMemoryUsage 2 1024]%Z;
  children ← getChildren s 1;
  pids ← mapM (λ c, p ← ProcessManager.heap s !! c; Some (show_int (pid p) +:+ newline)) children;
  cpu ← match getProcess s 2 with
        | None => Some ""
        | Some a => p ← ProcessManager.heap s !! a; Some ("CPU time : " +:+ show_int (cpu_time p) +:+ newline)
        end;
  s ← removeProcess s 3;
  before ← print_tree s (getProcess s 1);
  s ← kill s 2;
  after ← print_tree s (getProcess s 1);
  Some ("Children of Process 1 :" +:+ newline +:+ String.concat "" pids +:+ cpu +:+ "Process hierarchy:" +:+ newline +:+ before +:+
        newline +:+ "Killing PID 2" +:+ newline +:+ newline +:+ "After kill:" +:+ newline +:+ after).

Example process_main_output :
  main = Some (lines_of
    ["Children of Process 1 :"; "2"; "3"; "CPU time : 500"; "Process hierarchy:"; "PID = 1"; " |- PID = 2"; "  |- PID = 4"; "  |- PID = 5"; ""; "Killing PID 2"; "";
     "After kill:"; "PID = 1"]).
Proof. vm_compute. reflexivity. Qed.
End Processes.

(** ** Cache tiers: [src/caching/LRUcache_multi-tier_RAM-SSD-HDD.cpp] *)

Module CacheTiers.

Definition tier_print (tier_name : string) (c : Tier) : string :=
  tier_name +:+ " : " +:+ String.concat "" ((λ e, "(" +:+ show_int e.1 +:+ "," +:+ show_int e.2 +:+ ") ") <$> contents c) +:+ newline.

Definition print (s : MultiTierCache) : string :=
  newline +:+ String.concat "" (imap (λ i c, tier_print ("L" +:+ show_int (Z.of_nat i + 1)) c) (tiers s)) +:+ newline.

(** The state [main] prints after [get(1)], and at the end. *)
Example tiers_after_get :
  (s ← run_out mt_step (new_multi_tier [2; 2; 2]) [LRU.Put 1 100; LRU.Put 2 200; LRU.Put 3 300; LRU.Put 4 400; LRU.Get 1]; Some (s.2, print s.1))%Z =
  Some ([None; None; None; None; Some 100%Z], lines_of [""; "L1 : (1,100) (4,400) "; "L2 : (3,300) (2,200) "; "L3 : "; ""]).
Proof. vm_compute. reflexivity. Qed.

Example tiers_at_end :
  (s ← run_out mt_step (new_multi_tier [2; 2; 2]) [LRU.Put 1 100; LRU.Put 2 200; LRU.Put 3 300; LRU.Put 4 400; LRU.Get 1; LRU.Put 5 500; LRU.Put 6 600; LRU.Put 7 700]; Some (print s.1))%Z =
  Some (lines_of [""; "L1 : (7,700) (6,600) "; "L2 : (5,500) (1,100) "; "L3 : (4,400) (3,300) "; ""]).
Proof. vm_compute. reflexivity. Qed.
End CacheTiers.

(** ** Least frequently used: [src/caching/LFUcache.cpp] *)

Module Frequencies.

(** The answers of the calls of [get] in [main]. *)
Definition main : option (list Z) :=
  c ← LFU.put (LFUCache_make 2) 1 10; c ← LFU.put c 2 20;
  '(c, v1) ← LFU.get c 1;
  c ← LFU.put c 3 30;
  '(c, v2) ← LFU.get c 2; '(c, v3) ← LFU.get c 3;
  c ← LFU.put c 4 40;
  '(c, v4) ← LFU.get c 1; '(c, v5) ← LFU.get c 3; '(c, v6) ← LFU.get c 4;
  c ← LFU.put c 3 300;
  '(c, v7) ← LFU.get c 3;
  Some [v1; v2; v3; v4; v5; v6; v7].

(** As the program announces them. *)
Example lfu_main_output : main = Some [10; -1; 30; -1; 30; 40; 300]%Z.
Proof. vm_compute. reflexivity. Qed.
End Frequencies.

(** ** Snapshots: [src/storage/SnapshotManager.cpp] *)

Module Snapshots.

(** The order in which the hash tables are walked is a parameter. *)
Section print.
Context (walk : ∀ A, gmap Z A → list (Z * A)).

Definition print_block (e : Z * Block) : string :=
  "Block " +:+ show_int e.1 +:+ " : " +:+ data e.2 +:+ " RefCount=" +:+ show_int (ref_count e.2) +:+ newline.

Definition printBlockStore (m : SnapshotManager) : string :=
  newline +:+ "Block Store" +:+ newline +:+ String.concat "" (print_block <$> walk Block (blockStore m)).

Definition print_blocks (ds : list string) : string := String.concat "" ((λ d, d +:+ " ") <$> ds) +:+ newline.

Definition print_current (m : SnapshotManager) : option string := ds ← SnapshotManager.readCurrentFile m; Some ("Current file : " +:+ print_blocks ds).

Definition print_snapshot (m : SnapshotManager) (v : Z) : option string :=
  r ← SnapshotManager.readSnapshot m v;
  match r with
  | None => Some ("Snapshot NOT FOUND" +:+ newline)
  | Some ds => Some ("Snapshot " +:+ show_int v +:+ " : " +:+ print_blocks ds)
  end.

Definition print_list (m : SnapshotManager) : string :=
  "Listing Snapshots : " +:+ String.concat "" ((λ e, show_int e.1 +:+ " ") <$> walk Snapshot (snapshots m)) +:+ newline.

Definition main : option string :=
  let sm := SnapshotManager.write (SnapshotManager.write new_manager "A") "B" in
  let out1 := printBlockStore sm +:+ "Initial file :" +:+ newline in
  file1 ← print_current sm;
  '(sm, s1) ← createSnapshot sm;
  let out2 := printBlockStore sm in
  let sm := SnapshotManager.write (SnapshotManager.write sm "C") "D" in
  let out3 := printBlockStore sm +:+ newline +:+ "After new writes :" +:+ newline in
  file2 ← print_current sm;
  '(sm, s2) ← createSnapshot sm;
  let out4 := printBlockStore sm +:+ newline +:+ "Reading Snapshots :" +:+ newline in
  snap1 ← print_snapshot sm s1;
  snap2 ← print_snapshot sm s2;
  let out5 := newline +:+ "Restoring Snapshot : " +:+ show_int s1 +:+ newline in
  sm ← restoreSnapshot sm s1;
  let out6 := printBlockStore sm in
  file3 ← print_current sm;
  let out7 := newline +:+ "Deleting Snapshot : " +:+ show_int s2 +:+ newline in
  sm ← deleteSnapshot sm s2;
  Some (out1 +:+ file1 +:+ out2 +:+ out3 +:+ file2 +:+ out4 +:+ snap1 +:+ snap2 +:+ out5 +:+ out6 +:+ file3 +:+ out7 +:+ printBlockStore sm +:+ print_list sm).
End print.

(** The tables as the recorded output shows them: the largest key first. *)
Definition backwards (A : Type) (m : gmap Z A) : list (Z * A) := omap (λ k, pair (k : Z) <$> m !! (k : Z)) [5; 4; 3; 2; 1]%Z.

Example snapshot_main_output :
  main backwards = Some (lines_of
    [""; "Block Store"; "Block 2 : B RefCount=1"; "Block 1 : A RefCount=1"; "Initial file :"; "Current file : A B ";
     ""; "Block Store"; "Block 2 : B RefCount=2"; "Block 1 : A RefCount=2";
     ""; "Block Store"; "Block 4 : D RefCount=1"; "Block 3 : C RefCount=1"; "Block 2 : B RefCount=2"; "Block 1 : A RefCount=2";
     ""; "After new writes :"; "Current file : A B C D ";
     ""; "Block Store"; "Block 4 : D RefCount=2"; "Block 3 : C RefCount=2"; "Block 2 : B RefCount=3"; "Block 1 : A RefCount=3";
     ""; "Reading Snapshots :"; "Snapshot 1 : A B "; "Snapshot 2 : A B C D ";
     ""; "Restoring Snapshot : 1";
     ""; "Block Store"; "Block 4 : D RefCount=1"; "Block 3 : C RefCount=1"; "Block 2 : B RefCount=3"; "Block 1 : A RefCount=3"; "Current file : A B ";
     ""; "Deleting Snapshot : 2";
     ""; "Block Store"; "Block 2 : B RefCount=2"; "Block 1 : A RefCount=2"; "Listing Snapshots : 1 "]).
Proof. vm_compute. reflexivity. Qed.
End Snapshots.

(** ** Cache with priorities: [src/caching/LRUcache_priority_based_eviction.cpp] *)

Module Priorities.

(** What [put] prints: the node it evicts. *)
Definition put (c : PriorityCache) (k v p : Z) : option (PriorityCache * string) :=
  out ← match PriorityCache.mm c !! k, PriorityCache.priority_set c with
        | None, it :: _ =>
            if negb (capacity c =? 0)%Z && (size (PriorityCache.mm c) =? to_size_t (capacity c))%Z then
              n ← deref (PriorityCache.cache c) it;
              Some ("Evicting key = " +:+ show_int (PriorityCache.key n) +:+ " Priority " +:+ show_int (priority n) +:+ " Value " +:+ show_int (PriorityCache.value n) +:+ newline)
            else Some ""
        | _, _ => Some ""
        end;
  c ← PriorityCache.put c k v p; Some (c, out).

Definition print_node (n : PriorityCache.Node) : string :=
  "Key = " +:+ show_int (PriorityCache.key n) +:+ " Value = " +:+ show_int (PriorityCache.value n) +:+ " Priority = " +:+ show_int (priority n) +:+ newline.

Definition print (c : PriorityCache) : string :=
  newline +:+ "Cache Contents" +:+ newline +:+ "-----------------" +:+ newline +:+ String.concat "" (print_node <$> entries (PriorityCache.cache c)) +:+ newline.

Definition main : option string :=
  '(c, o1) ← put (PriorityCache_make 3) 1 100 5;
  '(c, o2) ← put c 2 200 2;
  '(c, o3) ← put c 3 300 8;
  let p1 := print c in
  '(c, o4) ← put c 4 400 1;
  let p2 := print c in
  c ← update_priority c 3 0;
  let p3 := print c in
  '(c, o5) ← put c 5 500 10;
  v5 ← PriorityCache.get c 5;
  v2 ← PriorityCache.get c 2;
  Some (o1 +:+ o2 +:+ o3 +:+ p1 +:+ "Insert(4, 400, p = 1)" +:+ newline +:+ o4 +:+ p2 +:+ "Update Priority of key 3 -> 0" +:+ newline +:+ p3 +:+
        "Insert(5, 500, p = 10)" +:+ newline +:+ o5 +:+ print c +:+ "Get(5) = " +:+ show_int v5 +:+ newline +:+ "Get(2) = " +:+ show_int v2 +:+ newline).

Example priority_main_output :
  main = Some (lines_of
    [""; "Cache Contents"; "-----------------"; "Key = 3 Value = 300 Priority = 8"; "Key = 2 Value = 200 Priority = 2"; "Key = 1 Value = 100 Priority = 5"; "";
     "Insert(4, 400, p = 1)"; "Evicting key = 2 Priority 2 Value 200";
     ""; "Cache Contents"; "-----------------"; "Key = 4 Value = 400 Priority = 1"; "Key = 3 Value = 300 Priority = 8"; "Key = 1 Value = 100 Priority = 5"; "";
     "Update Priority of key 3 -> 0";
     ""; "Cache Contents"; "-----------------"; "Key = 4 Value = 400 Priority = 1"; "Key = 3 Value = 300 Priority = 0"; "Key = 1 Value = 100 Priority = 5"; "";
     "Insert(5, 500, p = 10)"; "Evicting key = 3 Priority 0 Value 300";
     ""; "Cache Contents"; "-----------------"; "Key = 5 Value = 500 Priority = 10"; "Key = 4 Value = 400 Priority = 1"; "Key = 1 Value = 100 Priority = 5"; "";
     "Get(5) = 500"; "Get(2) = -1"]).
Proof. vm_compute. reflexivity. Qed.
End Priorities.
